(* ===== verification/_CoqProject ===== *)
-Q . S2P
Prelude.v
JsData.v
Doubles.v
Effects.v
Shared.v
Cards.v
Prng.v
CardEngine.v
Scoring.v
TieBreak.v
TopicVoting.v
ClassEngine.v
Machine.v
MachineCards.v
MachineOps.v
MachineRounds.v
Records.v
MachineWinner.v
MatchCodec.v
EloTiers.v
EloEngine.v
Decimal.v
Redis.v
Lease.v
Fencing.v
FinishMatch.v
Events.v
CardCommands.v
Envelopes.v
Async.v
Timers.v
Node.v
World.v
PersistRedis.v
Commands.v
CommandTraces.v
Ownership.v
CommandStream.v
RoundRecovery.v
Bots.v
RoundRunner.v
RunnerTraces.v
Progress.v
GameLoop.v
ClientState.v
ClientUpdaters.v
ClientCardUpdaters.v
ClientStore.v
LogView.v
ClientReplay.v
ClientCommands.v
LobbyStore.v
LobbyTables.v
Pool.v
Lobby.v
Rooms.v
RoomRules.v
JoinLocks.v
RoomCache.v
Matchmaking.v
MatchmakingRules.v
LobbyCountdown.v
CountdownRules.v
Presence.v
PresenceRules.v
Calendar.v
Tokens.v
Rely.v
Daily.v
DailyRules.v
DailyWorld.v
DailyPool.v
DailyStreaks.v
EventLoop.v
Gateway.v
GatewayRules.v
Moderation.v
Auth.v
AuthRules.v
ReaderPool.v
