(* ===== verification/Prelude.v ===== *)
(** * Arena of 100 -- verification library (root file)

    Arena of 100 is a quiz game for up to a hundred players.  A NestJS server
    ([src/apps/api]) runs the matches, several server processes share Redis and
    a database, the rules live in two packages ([src/packages/game-core] and
    [src/packages/shared]), and a browser client ([src/apps/web]) keeps a copy
    of the match it shows.  This library models the code that decides what
    happens to a match and what the players are told about it.

    ** The program's parts and the files that model them

    Rules, pure code:
    - [packages/shared/src] (state.ts, errors.ts, error-codes.ts,
      game-config.ts, classes.ts, cards.ts, elo.ts): Shared, Cards, EloTiers;
    - [packages/game-core/src]: Prng (prng.ts), CardEngine (card-engine.ts),
      Scoring (scoring.ts, round-elimination.ts), TieBreak (tie-break.ts),
      TopicVoting (topic-voting.ts), ClassEngine (class-engine.ts), EloEngine
      (elo-engine.ts), MatchCodec (match-state.codec.ts).

    The match state machine, [match-state-machine.ts]: Machine and MachineCards
    hold the object's fields (record [Machine]) and its methods, in the monad
    of Effects (state, exceptions, readings of the clock); MachineOps makes it
    a transition system ([Op], [exec], [reachable]); MachineRounds and
    MachineWinner prove what rounds, scores and the choice of the winner do,
    and Records follows a player through a match: the questions, the answers
    that were accepted, the rounds that were evaluated.

    The server, [apps/api/src/modules]:
    - redis: Redis is the interface of the store ([RedisOps], [RedisLaws], and
      [gmap_store], an instance); Lease has the Lua scripts of redis.lease.ts
      and the keys of match-ownership.store.ts; Fencing runs any commands of
      any nodes against one store;
    - match, its data: Events (game-loop.events.ts), Envelopes
      (dto/match-command.dto.ts), CardCommands (card-validator.ts,
      match-card-targeting.ts, aoe-cap.ts, match-card-command.helpers.ts),
      FinishMatch (the transaction of match.service.ts), Timers
      (match-timer.registry.ts);
    - match, its asynchronous code: Async defines programs (an [await] is a
      request that is answered, or rejected, later); Node is the memory of one
      process and the live state of match.service.ts; Commands
      (match-command.service.ts, match-command-authoritative.ts,
      match-card-command-authoritative.ts, match-player-lifecycle.ts),
      CommandStream (the stream reader), Ownership
      (match-ownership.service.ts), RoundRunner and RoundRecovery
      (match-round-runner.ts, match-round-recovery.ts), Bots (bot.service.ts)
      and GameLoop (game-loop.service.ts) are programs over that memory; World
      is a concrete environment to run them in.
    - room, matchmaking, lobby: LobbyStore has the rows and keys they share,
      the transactions, the Lua scripts and what each statement and command
      does (interfaces [RoomDb], [RedisZset]); LobbyTables is an instance of
      both; Lobby is the memory of the services of one process and the requests
      they wait for; Rooms (room.service.ts, room-cache.store.ts), Matchmaking
      (matchmaking-queue.store.ts, matchmaking.service.ts,
      matchmaking-worker.service.ts), LobbyCountdown
      (lobby-countdown.service.ts, game-loop.countdown-store.ts) and Presence
      (presence.service.ts) are programs over it; Pool interleaves any number
      of programs over one shared store.  JoinLocks has the statements of the
      transaction in which joinRoom inserts a player, with the SELECT ... FOR
      UPDATE, on a database of sessions with row locks at READ COMMITTED, and
      proves that they act as the one step that LobbyStore specifies.
    - the daily challenge: Calendar (calendar-date.ts and the dates of
      daily.service.ts), Tokens (the JSON web tokens of auth.service.ts and
      daily.service.ts over the interface [Jwt]), Daily (daily.service.ts);
      Rely interleaves programs over one shared world, and DailyWorld is the
      world of the daily challenge, an interface with an instance.
    - gateways: EventLoop is the event loop of one process, whose handlers share
      its memory, with a logic for what holds whenever a handler waits; Gateway
      has game.gateway.ts and the handlers of rooms, matches, cards and
      reconnection on it.
    - auth, common: Auth (auth.service.ts, auth.controller.ts) over the interface
      [AuthWorld] of AuthRules; Moderation (moderation.ts) over the interface
      [Unicode].
    - redis, reading streams: ReaderPool (the connections of redis.streams.ts
      that block, and the replies they parse).
    PersistRedis, CommandTraces, RunnerTraces, Progress, RoomRules, RoomCache,
    MatchmakingRules, CountdownRules, PresenceRules, DailyRules, DailyPool,
    DailyStreaks, GatewayRules and AuthRules hold theorems about those programs.  Prelude (this file), JsData (strings, Map, Set, sort),
    Doubles and Decimal are the vocabulary everything shares.

    The browser client, [apps/web/src/stores]: ClientState (socket-store.types.ts,
    socket-store.state-maps.ts), ClientUpdaters and ClientCardUpdaters (the
    updaters of match, topics, rooms, authentication and cards, and the replay
    schema), ClientStore (the slices: server messages, actions, errors,
    disconnect).  LogView reads a log as what should be on screen;
    ClientReplay composes the server's answer to a reconnecting client with the
    client that replays it (match.handler.ts); ClientCommands is about commands
    sent ahead of their confirmation.

    ** How the parts interact

    A command of a player enters a stream; the process that owns the match
    reads it (CommandStream), a handler of Commands loads the state machine
    from Node's cache, calls a method of Machine, persists the result through
    MatchCodec and the fenced script of Lease, and only then emits messages of
    Events.  Timers of RoundRunner move the match from phase to phase in the
    same way.  Ownership renews the lease; when a process dies another one
    takes the match over, with a larger fence, and resumes its loop.

    ** What the theorems show

    - Rounds (MachineRounds, Records): the verdict of an evaluation; survivors
      and eliminated partition the roster; a player survives exactly when the
      last answer accepted from them was right in every round that was
      evaluated; what [submitAnswer] accepts and records, score bounds,
      deadlines;
    - the log (MachineOps): numbering, legal status history, exact deltas,
      card state as the fold of the log;
    - the winner and the database (MachineWinner, TieBreak, FinishMatch,
      EloEngine): who wins, one finish at most, placements and ratings;
    - persistence (MatchCodec): a saved match comes back, what is accepted is
      well formed, the answer key is not saved;
    - the cluster (Fencing, PersistRedis): a takeover fences the old owner out,
      applied writes have increasing revisions, a node's revision follows the
      server's;
    - processes (CommandTraces, RunnerTraces, Progress): what a command tells
      and what it has saved; the loop renews before it writes and writes before
      it speaks; a match comes to its end whatever its players do at the awaits
      and between the timers, when the lease is renewed and the fenced writes
      and database rows go through;
    - cards and votes (CardCommands, CardEngine, TopicVoting, ClassEngine):
      which plays are accepted, who sees a hidden card, fair draws, the ban;
    - lobby (JoinLocks, RoomRules, RoomCache): the join transaction is atomic,
      statement by statement, with timeouts and lost replies; no interleaving of
      calls overfills a room; who is let in as what; the counters and the player
      count of the snapshot in Redis follow the rows of a call that runs alone;
      disbanding keeps the matches;
    - matchmaking (MatchmakingRules): groups obey the rules, and nobody is taken
      twice; what is asked for each player of a group that is launched; who is
      matched when every pop gets what it asks for;
    - countdown and presence (CountdownRules, PresenceRules): recovery comes to
      rest within a bound that is reached; what a countdown that starts or fails
      leaves behind; a sweep renews its lease for each room before it acts on it,
      and acts only on who is gone; a room is disbanded after two strikes;
    - the daily challenge (DailyRules, DailyPool, DailyStreaks): a
      submit answers with a result exactly when the attempt is stored; scores are
      bounded and fair; the clock of a session is pinned; streaks are earned; a
      pending unlock is processed once -- the last three for any calls at once,
      with requests that fail before or after they took effect;
    - gateway (GatewayRules): the sessions of a process are sound, a user is
      served on one socket, and nobody acts for somebody else;
    - accounts (AuthRules, Tokens, Moderation): nobody takes over an account
      without its secret; what accounts and sessions are made; the two kinds of
      token are told apart;
    - readers (ReaderPool): connections are bounded, not shared, not leaked;
    - client (ClientReplay, ClientCommands): a reconnected client shows the
      match the server has, with two exceptions that the theorem names; a second
      chance is spent once; the vote shown is the last one that stands.

    ** Conventions, bounds and fuel

    - Integers are [Z].  32-bit words wrap explicitly (Prng).  Doubles that
      must stay integers are rounded in Doubles where they could leave the safe
      range; clocks are in range ([clock_in_range]).  Ratings are computed over
      the reals in EloEngine; scores over the rationals before their floor.
    - Strings are lists of UTF-16 units.  JSON values are data: JSON.parse and
      JSON.stringify belong to the language.
    - [CardEngine.sampleOffer] draws with fuel [TIER_FUEL] = 2^32, the period of
      the generator; [sampleOffer_spec] shows the draw ends within it.
      [CommandStream] bounds the pages of one sweep by a parameter [pages].
      [Progress.match_comes_to_its_end] bounds the number of timers of a match
      by 2 * MAX_ROUNDS + 4.
    - Redis, the database and the other services are interfaces: [RedisOps]
      with the laws [RedisLaws], [MatchDb], or requests of a program that may be
      answered with any value or rejected.  A job the code starts without
      waiting is registered with the synchronous prefix run at the end of the
      segment that starts it.  Math.random is a supply of dice (Node).
      nanoid and the zod parser of envelopes are parameters.

    ** Not modelled, and why

    - connection.slice.ts: connect() itself (token refresh, acknowledgements,
      the heartbeat interval): transport; React components and pages: presentation;
    - rankings, users, questions, administration: aggregation queries, CRUD over
      Prisma, the import of questions from third-party services, NestJS glue;
      the gateway's services behind its handlers are requests that may throw;
    - auth: parseExpiresInToSeconds reads durations as the package ms does; the
      cookies and the CSRF token of the controller are HTTP;
    - redis.streams.ts: the commands that do not block are one Redis command
      each;
    - bot.service.ts: ensureBotUsers (rows and names) is a request;
    - zod schemas and the NestJS, socket.io, Prisma and ioredis libraries:
      third party; load-test scripts, seeds, locales, configuration: no logic of
      the game. *)

From Stdlib Require Export ZArith Lia.
From stdpp Require Export sorting prelude.

Declare Scope js_scope.
Delimit Scope js_scope with js.

#[global] Open Scope Z_scope.

(** ** Tactics *)

(** Splits every [if]/[match] scrutinee of the goal or of a hypothesis,
    recording the equation, and simplifies the equations that appear. *)
Ltac break_match_goal :=
  match goal with
  | |- context [match ?x with _ => _ end] =>
      lazymatch x with
      | context [match _ with _ => _ end] => fail
      | _ => let E := fresh "E" in destruct x eqn:E
      end
  end.

Ltac break_match_hyp H :=
  match type of H with
  | context [match ?x with _ => _ end] =>
      lazymatch x with
      | context [match _ with _ => _ end] => fail
      | _ => let E := fresh "E" in destruct x eqn:E
      end
  end.

(** Turns boolean comparisons on [Z] into propositions. *)
Ltac bool_to_prop :=
  repeat match goal with
  | H : (_ && _)%bool = true |- _ => apply andb_true_iff in H as [? ?]
  | H : (_ || _)%bool = false |- _ => apply orb_false_iff in H as [? ?]
  | H : negb _ = true |- _ => apply negb_true_iff in H
  | H : negb _ = false |- _ => apply negb_false_iff in H
  | H : (_ =? _) = true |- _ => apply Z.eqb_eq in H
  | H : (_ =? _) = false |- _ => apply Z.eqb_neq in H
  | H : (_ <? _) = true |- _ => apply Z.ltb_lt in H
  | H : (_ <? _) = false |- _ => apply Z.ltb_ge in H
  | H : (_ <=? _) = true |- _ => apply Z.leb_le in H
  | H : (_ <=? _) = false |- _ => apply Z.leb_gt in H
  | H : bool_decide _ = true |- _ => apply bool_decide_eq_true_1 in H
  | H : bool_decide _ = false |- _ => apply bool_decide_eq_false_1 in H
  end.

(** Closes a goal on concrete data by computation. *)
Ltac by_compute := vm_compute; reflexivity.

(** ** 32-bit integer operators of JavaScript

    A JavaScript number is a double; the bit operators convert their operands
    with ToInt32 / ToUint32, compute on 32 bits and yield a signed (or, for
    [>>>], unsigned) 32-bit integer.  Numbers are [Z] here. *)

Definition two32 : Z := 4294967296.

Definition to_uint32 (x : Z) : Z := x mod two32.

Definition to_int32 (x : Z) : Z :=
  let u := to_uint32 x in if u <? 2147483648 then u else u - two32.

Definition js_xor (a b : Z) : Z := Z.lxor (to_int32 a) (to_int32 b).
Definition js_or (a b : Z) : Z := Z.lor (to_int32 a) (to_int32 b).
Definition js_and (a b : Z) : Z := Z.land (to_int32 a) (to_int32 b).
Definition js_not (a : Z) : Z := Z.lnot (to_int32 a).
Definition js_shl (a n : Z) : Z := to_int32 (Z.shiftl (to_int32 a) n).
Definition js_shr (a n : Z) : Z := Z.shiftr (to_int32 a) n.
Definition js_ushr (a n : Z) : Z := Z.shiftr (to_uint32 a) n.
Definition js_imul (a b : Z) : Z := to_int32 (to_int32 a * to_int32 b).

Lemma to_uint32_range x : 0 <= to_uint32 x < two32.
Proof. unfold to_uint32, two32. apply Z.mod_pos_bound. lia. Qed.

Lemma to_uint32_small x : 0 <= x < two32 -> to_uint32 x = x.
Proof. intros. unfold to_uint32. by apply Z.mod_small. Qed.

Lemma to_uint32_int32 x : to_uint32 (to_int32 x) = to_uint32 x.
Proof.
  unfold to_int32, to_uint32, two32. destruct (_ <? _).
  - by rewrite Z.mod_mod.
  - rewrite Zminus_mod, Z.mod_mod by lia. rewrite Z_mod_same_full, Z.sub_0_r.
    by rewrite Z.mod_mod by lia.
Qed.

Lemma to_int32_uint32 x : to_int32 (to_uint32 x) = to_int32 x.
Proof.
  unfold to_int32. f_equal.
  assert (to_uint32 (to_uint32 x) = to_uint32 x) as ->; [|done].
  apply to_uint32_small, to_uint32_range.
Qed.

Lemma js_ushr_range a n : 0 <= n -> 0 <= js_ushr a n < two32.
Proof.
  intros Hn. unfold js_ushr. pose proof (to_uint32_range a) as [H1 H2].
  rewrite Z.shiftr_div_pow2 by done. split.
  - apply Z.div_pos; [done|]. apply Z.pow_pos_nonneg; lia.
  - apply Z.le_lt_trans with (to_uint32 a); [|done].
    apply Z.div_le_upper_bound; [apply Z.pow_pos_nonneg; lia|].
    assert (1 <= 2 ^ n) by (pose proof (Z.pow_pos_nonneg 2 n); lia). nia.
Qed.

Lemma js_ushr_0 a : js_ushr a 0 = to_uint32 a.
Proof. unfold js_ushr. apply Z.shiftr_0_r. Qed.

(** ** Lists *)

(** [Array.prototype.findIndex]: [-1] when no element satisfies the test. *)
Fixpoint find_index {A} (p : A -> bool) (l : list A) : Z :=
  match l with
  | [] => -1
  | x :: l' =>
      if p x then 0
      else let i := find_index p l' in if i <? 0 then -1 else i + 1
  end.

(** [Array.prototype.indexOf] on strings and other primitive values. *)
Definition index_of {A} `{EqDecision A} (x : A) (l : list A) : Z :=
  find_index (fun y => bool_decide (y = x)) l.

(** [arr[i]] for an integer [i]: [None] is [undefined]. *)
Definition js_nth {A} (l : list A) (i : Z) : option A :=
  if i <? 0 then None else l !! Z.to_nat i.

Lemma find_index_range {A} (p : A -> bool) l :
  -1 <= find_index p l < Z.of_nat (length l).
Proof. induction l as [|x l IH]; cbn; [lia|]. repeat case_match; bool_to_prop; lia. Qed.

Lemma find_index_Some {A} (p : A -> bool) l :
  0 <= find_index p l ->
  exists x, js_nth l (find_index p l) = Some x /\ p x = true.
Proof.
  unfold js_nth. induction l as [|x l IH]; cbn; [lia|].
  destruct (p x) eqn:Hp; cbn; [by exists x|].
  destruct (find_index p l <? 0) eqn:E; bool_to_prop; [cbn; lia|].
  intros _. destruct (IH ltac:(lia)) as (y & Hy & Hpy). rewrite ?(proj2 (Z.ltb_ge _ _) E) in Hy. exists y. split; [|done].
  rewrite ?E in Hy. rewrite (proj2 (Z.ltb_ge (find_index p l + 1) 0)) by lia.
  by replace (Z.to_nat (find_index p l + 1)) with (S (Z.to_nat (find_index p l))) by lia.
Qed.

Lemma find_index_neg {A} (p : A -> bool) l :
  find_index p l < 0 <-> Forall (fun x => p x = false) l.
Proof.
  induction l as [|x l IH]; cbn; [split; [constructor|lia]|].
  rewrite Forall_cons. destruct (p x) eqn:Hp; [split; [lia|intros [? _]; done]|].
  destruct (find_index p l <? 0) eqn:E; bool_to_prop; rewrite <- IH; [|lia].
  split; [done|lia].
Qed.

Lemma js_nth_Some_elem {A} (l : list A) i x : js_nth l i = Some x -> x ∈ l.
Proof. unfold js_nth. case_match; [done|]. apply list_elem_of_lookup_2. Qed.

Lemma filter_filter_comm {A} (p q : A -> bool) (l : list A) :
  filter p (filter q l) = filter q (filter p l).
Proof. rewrite !list_filter_filter. apply list_filter_iff. intros; tauto. Qed.

Lemma filter_complement_perm {A} (p : A -> bool) (l : list A) :
  filter p l ++ filter (fun x => negb (p x)) l ≡ₚ l.
Proof.
  rewrite (list_filter_iff (fun x => negb (p x)) (fun x => ¬ p x) l).
  - apply filter_app_complement.
  - intros x. destruct (p x); cbn; intuition.
Qed.

Lemma foldl_app_snoc {A B} (f : B -> A -> B) b l x :
  foldl f b (l ++ [x]) = f (foldl f b l) x.
Proof. by rewrite foldl_app. Qed.

(** Sum of a list of integers. *)
Fixpoint Zsum (l : list Z) : Z :=
  match l with [] => 0 | x :: l' => x + Zsum l' end.

Lemma Zsum_app l1 l2 : Zsum (l1 ++ l2) = Zsum l1 + Zsum l2.
Proof. induction l1; cbn; lia. Qed.

Lemma Zsum_perm l1 l2 : l1 ≡ₚ l2 -> Zsum l1 = Zsum l2.
Proof. induction 1; cbn; lia. Qed.

Create HintDb arena.
Create Rewrite HintDb arena_rw.
#[export] Hint Resolve to_uint32_range js_ushr_range : arena.
#[export] Hint Rewrite @foldl_app_snoc js_ushr_0 to_uint32_int32 to_int32_uint32 : arena_rw.

Lemma StronglySorted_at {A} (R : A -> A -> Prop) (l : list A) (i j : nat) x y :
  StronglySorted R l -> (i < j)%nat -> l !! i = Some x -> l !! j = Some y -> R x y.
Proof.
  intros Hs. revert i j. induction Hs as [|z l _ IH Hall]; intros i j Hij Hx Hy; [done|].
  destruct j as [|j]; [lia|]. destruct i as [|i]; cbn in *.
  - injection Hx as <-. rewrite Forall_lookup in Hall. by eapply Hall.
  - by apply (IH i j ltac:(lia)).
Qed.
