(* ===== verification/JsData.v ===== *)
(** * JavaScript data: strings, [Map], [Set] and [Array.prototype.sort]

    A string is the list of its UTF-16 code units; [Map] and [Set] keep their
    insertion order; [sort] is the stable sort of ECMAScript 2019. *)

From Stdlib Require Import Ascii.
From stdpp Require Export strings pretty prelude.
From S2P Require Import Prelude.
#[local] Open Scope Z_scope.

(** ** Strings *)

Abbreviation jstr := (list Z).

(** String literals of the source (all of them ASCII). *)
Fixpoint js (s : string) : jstr :=
  match s with
  | EmptyString => []
  | String c s' => Z.of_N (N_of_ascii c) :: js s'
  end.

(** [`${n}`] for an integer below 1e21 in absolute value. *)
Definition js_of_Z (n : Z) : jstr := js (pretty n).

(** The relational operators [<] and [>] on strings: lexicographic on code
    units.  [str_cmp a b] is [-1], [0] or [1]. *)
Fixpoint str_cmp (a b : jstr) : Z :=
  match a, b with
  | [], [] => 0
  | [], _ :: _ => -1
  | _ :: _, [] => 1
  | x :: a', y :: b' =>
      if x <? y then -1 else if y <? x then 1 else str_cmp a' b'
  end.

Lemma js_inj s t : js s = js t -> s = t.
Proof.
  revert t. induction s as [|c s IH]; intros [|d t]; cbn; try done.
  intros [= H1 H2]. apply N2Z.inj in H1. apply (f_equal ascii_of_N) in H1.
  rewrite !ascii_N_embedding in H1. by rewrite H1, (IH _ H2).
Qed.

Lemma js_of_Z_inj m n : js_of_Z m = js_of_Z n -> m = n.
Proof. intros H%js_inj. by apply (inj pretty). Qed.

Lemma str_cmp_refl a : str_cmp a a = 0.
Proof. induction a as [|x a IH]; cbn; [done|]. by rewrite Z.ltb_irrefl. Qed.

Lemma str_cmp_antisym a b : str_cmp b a = - str_cmp a b.
Proof.
  revert b. induction a as [|x a IH]; intros [|y b]; cbn; try done.
  destruct (x <? y) eqn:E1, (y <? x) eqn:E2; bool_to_prop; try lia. apply IH.
Qed.

Lemma str_cmp_eq a b : str_cmp a b = 0 <-> a = b.
Proof.
  split; [|intros ->; apply str_cmp_refl].
  revert b. induction a as [|x a IH]; intros [|y b]; cbn; try done.
  destruct (x <? y) eqn:E1, (y <? x) eqn:E2; bool_to_prop; try lia.
  intros ->%IH. f_equal. lia.
Qed.

Lemma str_cmp_trans a b c : str_cmp a b <= 0 -> str_cmp b c <= 0 -> str_cmp a c <= 0.
Proof.
  revert b c. induction a as [|x a IH]; intros [|y b] [|z c]; cbn; try lia.
  destruct (x <? y) eqn:E1, (y <? x) eqn:E2, (y <? z) eqn:E3, (z <? y) eqn:E4,
    (x <? z) eqn:E5, (z <? x) eqn:E6; bool_to_prop; try lia. apply IH.
Qed.

(** [String.prototype.trim]: white space and line terminators of ECMAScript. *)
Definition is_js_space (c : Z) : bool :=
  ((9 <=? c) && (c <=? 13)) || (c =? 32) || (c =? 160) || (c =? 0x1680)
  || ((0x2000 <=? c) && (c <=? 0x200A)) || (c =? 0x2028) || (c =? 0x2029)
  || (c =? 0x202F) || (c =? 0x205F) || (c =? 0x3000) || (c =? 0xFEFF).

Fixpoint trim_start (s : jstr) : jstr :=
  match s with
  | [] => []
  | c :: s' => if is_js_space c then trim_start s' else s
  end.

Definition trim (s : jstr) : jstr := rev (trim_start (rev (trim_start s))).

(** Case mapping of one code unit.  The tables are those of Unicode on Basic
    Latin, Latin-1, Latin Extended-A, the horned O and U and Latin Extended
    Additional (all of English and Vietnamese); other code units are left as
    they are. *)
Definition in_range (a c b : Z) : bool := (a <=? c) && (c <=? b).

Definition upper_even (c : Z) : bool :=
  (in_range 0x100 c 0x12E || in_range 0x132 c 0x136 || in_range 0x14A c 0x176
   || in_range 0x1E00 c 0x1E94 || in_range 0x1EA0 c 0x1EFE || (c =? 0x1A0))
  && Z.even c.

Definition upper_odd (c : Z) : bool :=
  (in_range 0x139 c 0x147 || in_range 0x179 c 0x17D || (c =? 0x1AF)) && Z.odd c.

Definition lower_unit (c : Z) : jstr :=
  if in_range 65 c 90 || in_range 0xC0 c 0xD6 || in_range 0xD8 c 0xDE
  then [c + 32]
  else if c =? 0x130 then [0x69; 0x307]
  else if c =? 0x178 then [0xFF]
  else if c =? 0x1E9E then [0xDF]
  else if upper_even c || upper_odd c then [c + 1]
  else [c].

Definition upper_unit (c : Z) : jstr :=
  if in_range 97 c 122 || in_range 0xE0 c 0xF6 || in_range 0xF8 c 0xFE
  then [c - 32]
  else if c =? 0xB5 then [0x39C]
  else if c =? 0xDF then [0x53; 0x53]
  else if c =? 0xFF then [0x178]
  else if c =? 0x131 then [0x49]
  else if c =? 0x149 then [0x2BC; 0x4E]
  else if c =? 0x17F then [0x53]
  else if c =? 0x1E96 then [0x48; 0x331]
  else if c =? 0x1E97 then [0x54; 0x308]
  else if c =? 0x1E98 then [0x57; 0x30A]
  else if c =? 0x1E99 then [0x59; 0x30A]
  else if c =? 0x1E9A then [0x41; 0x2BE]
  else if c =? 0x1E9B then [0x1E60]
  else if (upper_even (c - 1) || upper_odd (c - 1)) && negb (c =? 0x131) then [c - 1]
  else [c].

Definition to_lower (s : jstr) : jstr := flat_map lower_unit s.
Definition to_upper (s : jstr) : jstr := flat_map upper_unit s.

Example to_lower_vietnamese :
  to_lower [0xC0; 0x1EA4; 0x110; 0x1A0; 0x41] = [0xE0; 0x1EA5; 0x111; 0x1A1; 0x61].
Proof. by_compute. Qed.

(** ** [Map]: an association list in insertion order *)

Abbreviation JsMap K V := (list (K * V)).

Section JsMap.
Context {K V : Type} `{EqDecision K}.
Implicit Types (m : JsMap K V) (k : K) (v : V).

Fixpoint map_get k m : option V :=
  match m with
  | [] => None
  | (k', v) :: m' => if decide (k' = k) then Some v else map_get k m'
  end.

(** [m.set(k, v)]: an existing key keeps its position. *)
Fixpoint map_set k v m : JsMap K V :=
  match m with
  | [] => [(k, v)]
  | (k', v') :: m' =>
      if decide (k' = k) then (k', v) :: m' else (k', v') :: map_set k v m'
  end.

Definition map_has k m : bool := bool_decide (is_Some (map_get k m)).

Definition map_delete k m : JsMap K V := filter (fun kv => kv.1 ≠ k) m.

(** [new Map(entries)]. *)
Definition map_of_entries (l : list (K * V)) : JsMap K V :=
  foldl (fun m kv => map_set kv.1 kv.2 m) [] l.

(** The entry points keep keys distinct. *)
Definition map_wf m : Prop := NoDup m.*1.

Lemma map_get_set_eq k v m : map_get k (map_set k v m) = Some v.
Proof. induction m as [|[k' v'] m IH]; cbn; repeat (case_decide; cbn); done. Qed.

Lemma map_get_set_ne k k' v m :
  k ≠ k' -> map_get k (map_set k' v m) = map_get k m.
Proof.
  intros. induction m as [|[k0 v0] m IH]; cbn; [by case_decide|].
  repeat (case_decide; cbn); congruence.
Qed.

Lemma map_get_delete_eq k m : map_get k (map_delete k m) = None.
Proof.
  unfold map_delete. induction m as [|[k' v'] m IH]; [done|].
  rewrite filter_cons. case_decide; cbn in *; try case_decide; first [exact IH|done].
Qed.

Lemma map_get_delete_ne k k' m :
  k ≠ k' -> map_get k (map_delete k' m) = map_get k m.
Proof.
  intros Hne. unfold map_delete. induction m as [|[k0 v0] m IH]; [done|].
  rewrite filter_cons. repeat (case_decide; cbn in * ); first [done|exact IH|congruence|naive_solver].
Qed.

Lemma map_get_Some_elem k v m : map_get k m = Some v -> (k, v) ∈ m.
Proof.
  induction m as [|[k' v'] m IH]; cbn; [done|].
  case_decide; [intros [= ->]; subst; left|right; auto].
Qed.

Lemma map_get_elem k v m : map_wf m -> (k, v) ∈ m -> map_get k m = Some v.
Proof.
  unfold map_wf. induction m as [|[k' v'] m IH]; cbn; [by intros _ ?%elem_of_nil|].
  intros [Hn Hd]%NoDup_cons [[= -> ->]|Hin]%elem_of_cons; [by case_decide|].
  case_decide; [subst|by apply IH]. exfalso. apply Hn.
  apply list_elem_of_fmap. by exists (k, v).
Qed.

Lemma map_get_None k m : map_get k m = None <-> k ∉ m.*1.
Proof.
  induction m as [|[k' v'] m IH]; cbn; [split; [intros _; apply not_elem_of_nil|done]|].
  rewrite not_elem_of_cons. case_decide; [naive_solver|]. rewrite IH. naive_solver.
Qed.

Lemma map_has_spec k m : map_has k m = true <-> k ∈ m.*1.
Proof.
  unfold map_has. rewrite bool_decide_eq_true. destruct (map_get k m) eqn:E.
  - split; [intros _|by eauto]. apply map_get_Some_elem in E.
    apply list_elem_of_fmap. by exists (k, v).
  - apply map_get_None in E. split; [by intros []|done].
Qed.

Lemma map_set_keys_in k v m : k ∈ m.*1 -> (map_set k v m).*1 = m.*1.
Proof.
  induction m as [|[k' v'] m IH]; cbn; [by intros ?%elem_of_nil|].
  intros [->|Hin]%elem_of_cons; case_decide; cbn; try done. by rewrite IH.
Qed.

Lemma map_set_fresh k v m : k ∉ m.*1 -> map_set k v m = m ++ [(k, v)].
Proof.
  induction m as [|[k' v'] m IH]; cbn; [done|]. intros [? ?]%not_elem_of_cons.
  case_decide; [naive_solver|]. by rewrite IH.
Qed.

Lemma map_set_wf k v m : map_wf m -> map_wf (map_set k v m).
Proof.
  unfold map_wf. intros Hwf. destruct (decide (k ∈ m.*1)) as [Hin|Hni].
  - by rewrite map_set_keys_in.
  - rewrite map_set_fresh, fmap_app by done. cbn. apply NoDup_app.
    split_and!; [done| |apply NoDup_singleton].
    intros x Hx ->%list_elem_of_singleton. done.
Qed.

Lemma map_set_elem_keys k k' v m : k' ∈ (map_set k v m).*1 <-> k' = k \/ k' ∈ m.*1.
Proof.
  destruct (decide (k ∈ m.*1)) as [Hin|Hni].
  - rewrite map_set_keys_in by done. naive_solver.
  - rewrite map_set_fresh, fmap_app, elem_of_app by done. cbn.
    rewrite list_elem_of_singleton. tauto.
Qed.

Lemma map_delete_wf k m : map_wf m -> map_wf (map_delete k m).
Proof.
  unfold map_wf, map_delete. intros Hwf.
  induction m as [|[k' v'] m IH]; [constructor|]. cbn in Hwf.
  apply NoDup_cons in Hwf as [Hn Hd]. rewrite filter_cons.
  case_decide; [|by apply IH]. cbn. apply NoDup_cons. split; [|by apply IH].
  intros ([? ?] & ? & Hin)%list_elem_of_fmap. apply Hn, list_elem_of_fmap.
  apply list_elem_of_filter in Hin as [_ Hin]. eauto.
Qed.

Lemma map_of_entries_app l1 l2 :
  map_of_entries (l1 ++ l2)
  = foldl (fun m kv => map_set kv.1 kv.2 m) (map_of_entries l1) l2.
Proof. unfold map_of_entries. by rewrite foldl_app. Qed.

Lemma map_of_entries_wf l : map_wf (map_of_entries l).
Proof.
  induction l as [|kv l IH] using rev_ind; [constructor|].
  rewrite map_of_entries_app. by apply map_set_wf.
Qed.

Lemma map_of_entries_id l : map_wf l -> map_of_entries l = l.
Proof.
  unfold map_wf. induction l as [|[k v] l IH] using rev_ind; [done|].
  rewrite fmap_app, NoDup_app. cbn. intros (Hd & Hn & _).
  rewrite map_of_entries_app, IH by done. cbn. apply map_set_fresh.
  intros Hin. apply (Hn _ Hin). by left.
Qed.

Lemma map_set_same k v m : map_get k m = Some v -> map_set k v m = m.
Proof.
  induction m as [|[k' v'] m IH]; cbn; [done|].
  case_decide; [by intros [= ->]|]. intros. by rewrite IH.
Qed.
End JsMap.

(** ** [Set]: a list without repetition, in insertion order *)

Section JsSet.
Context {A : Type} `{EqDecision A}.
Implicit Types (s : list A).

Definition set_has (x : A) s : bool := bool_decide (x ∈ s).
Definition set_add (x : A) s : list A := if set_has x s then s else s ++ [x].
Definition set_delete (x : A) s : list A := filter (fun y => y ≠ x) s.
Definition set_of_list (l : list A) : list A := foldl (fun s x => set_add x s) [] l.

Lemma set_has_spec x s : set_has x s = true <-> x ∈ s.
Proof. apply bool_decide_eq_true. Qed.

Lemma elem_of_set_add x y s : x ∈ set_add y s <-> x = y \/ x ∈ s.
Proof.
  unfold set_add. destruct (set_has y s) eqn:E.
  - apply set_has_spec in E. naive_solver.
  - rewrite elem_of_app, list_elem_of_singleton. tauto.
Qed.

Lemma elem_of_set_delete x y s : x ∈ set_delete y s <-> x ≠ y /\ x ∈ s.
Proof. unfold set_delete. by rewrite list_elem_of_filter. Qed.

Lemma set_add_NoDup x s : NoDup s -> NoDup (set_add x s).
Proof.
  intros Hd. unfold set_add. destruct (set_has x s) eqn:E; [done|].
  apply NoDup_app. split_and!; [done| |apply NoDup_singleton].
  intros y Hy ->%list_elem_of_singleton. apply set_has_spec in Hy. congruence.
Qed.

Lemma set_of_list_id l : NoDup l -> set_of_list l = l.
Proof.
  unfold set_of_list. induction l as [|x l IH] using rev_ind; [done|].
  intros (Hd & Hx & _)%NoDup_app. rewrite foldl_app, IH by done. cbn. unfold set_add.
  destruct (set_has x l) eqn:E; [|done]. apply set_has_spec in E.
  exfalso. apply (Hx x E). by left.
Qed.

Lemma set_of_list_spec l : NoDup (set_of_list l) /\ forall x, x ∈ set_of_list l <-> x ∈ l.
Proof.
  induction l as [|y l [IH1 IH2]] using rev_ind.
  - split; [constructor|done].
  - unfold set_of_list in *. rewrite foldl_app. cbn. split; [by apply set_add_NoDup|].
    intros x. rewrite elem_of_set_add, IH2, elem_of_app, list_elem_of_singleton. tauto.
Qed.
End JsSet.

(** ** [Array.prototype.sort] with a comparator

    For a consistent comparator the specification fixes the result: the only
    stable, sorted permutation.  Insertion sort computes it. *)

Section JsSort.
Context {A : Type} (cmp : A -> A -> Z).

Fixpoint sort_insert (x : A) (l : list A) : list A :=
  match l with
  | [] => [x]
  | y :: l' => if cmp x y <=? 0 then x :: l else y :: sort_insert x l'
  end.

Fixpoint js_sort (l : list A) : list A :=
  match l with
  | [] => []
  | x :: l' => sort_insert x (js_sort l')
  end.

(** A consistent comparator: sign-antisymmetric and transitive. *)
Class Comparator : Prop := {
  cmp_opp : forall x y, Z.sgn (cmp y x) = - Z.sgn (cmp x y);
  cmp_trans : forall x y z, cmp x y <= 0 -> cmp y z <= 0 -> cmp x z <= 0;
}.

Lemma cmp_anti `{!Comparator} x y : cmp x y <= 0 \/ cmp y x <= 0.
Proof. pose proof (cmp_opp x y). lia. Qed.

Definition cmp_le (x y : A) : Prop := cmp x y <= 0.

Lemma sort_insert_perm x l : sort_insert x l ≡ₚ x :: l.
Proof.
  induction l as [|y l IH]; cbn; [done|]. case_match; [done|].
  rewrite IH. apply Permutation_swap.
Qed.

Lemma js_sort_perm l : js_sort l ≡ₚ l.
Proof. induction l as [|x l IH]; cbn; [done|]. by rewrite sort_insert_perm, IH. Qed.

Lemma js_sort_length l : length (js_sort l) = length l.
Proof. apply Permutation_length, js_sort_perm. Qed.

Lemma js_sort_elem x l : x ∈ js_sort l <-> x ∈ l.
Proof. by rewrite js_sort_perm. Qed.

Context `{!Comparator}.

Lemma sort_insert_sorted x l :
  StronglySorted cmp_le l -> StronglySorted cmp_le (sort_insert x l).
Proof.
  induction 1 as [|y l Hs IH Hall]; cbn; [repeat constructor|].
  destruct (cmp x y <=? 0) eqn:E; bool_to_prop.
  - constructor; [by constructor|]. constructor; [done|].
    eapply Forall_impl; [exact Hall|]. intros z. by apply cmp_trans.
  - constructor; [done|]. apply Forall_forall. intros z.
    rewrite sort_insert_perm. intros [->|Hz]%elem_of_cons.
    + unfold cmp_le. destruct (cmp_anti x y); lia.
    + rewrite Forall_forall in Hall. by apply Hall.
Qed.

Lemma js_sort_sorted l : StronglySorted cmp_le (js_sort l).
Proof. induction l; cbn; [constructor|by apply sort_insert_sorted]. Qed.

(** Stability: elements that compare equal to [x] keep their order. *)
Lemma sort_insert_stable (p : A -> bool) x l :
  (forall y, p x = true -> p y = true -> cmp x y <= 0) ->
  filter (fun y => p y) (sort_insert x l) = filter (fun y => p y) (x :: l).
Proof.
  intros Hp. induction l as [|y l IH]; [done|]. cbn [sort_insert].
  destruct (cmp x y <=? 0) eqn:E; [done|]. bool_to_prop.
  rewrite filter_cons, IH, !filter_cons.
  specialize (Hp y).
  destruct (p x), (p y); cbn; try done. specialize (Hp eq_refl eq_refl). lia.
Qed.

Lemma js_sort_stable (p : A -> bool) l :
  (forall x y, p x = true -> p y = true -> cmp x y <= 0) ->
  filter (fun y => p y) (js_sort l) = filter (fun y => p y) l.
Proof.
  intros Hp. induction l as [|x l IH]; [done|]. cbn [js_sort].
  rewrite sort_insert_stable by auto. by rewrite !filter_cons, IH.
Qed.

(** With no ties between distinct elements the input order is irrelevant. *)
Lemma js_sort_unique l1 l2 :
  (forall x y, x ∈ l1 -> y ∈ l1 -> cmp x y <= 0 -> cmp y x <= 0 -> x = y) ->
  l1 ≡ₚ l2 -> js_sort l1 = js_sort l2.
Proof.
  intros Hanti Hp. apply (StronglySorted_unique_strong cmp_le).
  - intros x y Hx Hy. rewrite js_sort_perm in Hx. rewrite js_sort_perm, <- Hp in Hy.
    by apply Hanti.
  - apply js_sort_sorted.
  - apply js_sort_sorted.
  - by rewrite !js_sort_perm.
Qed.

Lemma js_sort_head_le l x l' y : js_sort l = x :: l' -> y ∈ l -> cmp x y <= 0.
Proof.
  intros Hs Hy. pose proof (js_sort_sorted l) as Hss. rewrite Hs in Hss.
  apply js_sort_elem in Hy. rewrite Hs in Hy. apply elem_of_cons in Hy as [->|Hy].
  - destruct (cmp_anti x x); done.
  - apply StronglySorted_inv in Hss as [_ Hall]. rewrite Forall_forall in Hall.
    by apply Hall.
Qed.
End JsSort.

Lemma sort_insert_ext {A} (c1 c2 : A -> A -> Z) x l :
  (forall y, y ∈ l -> c1 x y = c2 x y) -> sort_insert c1 x l = sort_insert c2 x l.
Proof.
  induction l as [|y l IH]; intros H; [done|]. cbn. rewrite H by left.
  case_match; [done|]. f_equal. apply IH. intros z Hz. apply H. by right.
Qed.

Lemma js_sort_ext {A} (c1 c2 : A -> A -> Z) l :
  (forall x y, x ∈ l -> y ∈ l -> c1 x y = c2 x y) -> js_sort c1 l = js_sort c2 l.
Proof.
  induction l as [|x l IH]; intros H; [done|]. cbn.
  rewrite IH by (intros; apply H; by right).
  apply sort_insert_ext. intros y Hy%js_sort_elem. apply H; [left|by right].
Qed.

(** Everything in [sort(l).slice(0, n)] is at most everything in the rest. *)
Lemma slice_sorted {A} (cmp : A -> A -> Z) `{!Comparator cmp} (l1 l2 l : list A) x y :
  js_sort cmp l = l1 ++ l2 -> x ∈ l1 -> y ∈ l2 -> cmp x y <= 0.
Proof.
  intros Hl Hx Hy. pose proof (js_sort_sorted cmp l) as Hs. rewrite Hl in Hs.
  by eapply StronglySorted_app_1_elem_of in Hs.
Qed.

#[export] Instance str_cmp_Comparator : Comparator str_cmp.
Proof. split; [|apply str_cmp_trans]. intros x y. rewrite (str_cmp_antisym x y). lia. Qed.

(** Comparing by an integer key, ascending: [(a, b) => f(a) - f(b)]. *)
#[export] Instance key_Comparator {A} (f : A -> Z) : Comparator (fun a b => f a - f b).
Proof. split; intros; lia. Qed.

#[export] Instance key_desc_Comparator {A} (f : A -> Z) : Comparator (fun a b => f b - f a).
Proof. split; intros; lia. Qed.

(** Lexicographic chain:
    [const d = c1(a, b); if (d !== 0) return d; return c2(a, b)]. *)
Definition cmp_then {A} (c1 c2 : A -> A -> Z) (a b : A) : Z :=
  if c1 a b =? 0 then c2 a b else c1 a b.

#[export] Instance cmp_then_Comparator {A} (c1 c2 : A -> A -> Z) :
  Comparator c1 -> Comparator c2 -> Comparator (cmp_then c1 c2).
Proof.
  intros H1 H2. unfold cmp_then. split.
  - intros x y. pose proof (cmp_opp c1 x y). pose proof (cmp_opp c2 x y).
    repeat case_match; bool_to_prop; lia.
  - intros x y z. pose proof (cmp_opp c1 x y). pose proof (cmp_opp c1 y z).
    pose proof (cmp_opp c1 x z). pose proof (cmp_trans c1 x y z).
    pose proof (cmp_trans c1 y z x). pose proof (cmp_trans c1 z x y).
    pose proof (cmp_trans c2 x y z).
    repeat case_match; bool_to_prop; lia.
Qed.

(** Comparators of an element's key. *)
#[export] Instance on_Comparator {A B} (f : A -> B) (c : B -> B -> Z) :
  Comparator c -> Comparator (fun a b => c (f a) (f b)).
Proof. intros H. split; intros; [apply cmp_opp, H|by eapply (cmp_trans c)]. Qed.

(** ** [slice] *)

Definition slice_index {A} (l : list A) (n : Z) : nat :=
  Z.to_nat (if n <? 0 then Z.max 0 (Z.of_nat (length l) + n) else n).

(** [l.slice(0, n)] and [l.slice(n)]. *)
Definition slice_to {A} (l : list A) (n : Z) : list A := take (slice_index l n) l.
Definition slice_from {A} (l : list A) (n : Z) : list A := drop (slice_index l n) l.

Lemma slice_to_from {A} (l : list A) n : slice_to l n ++ slice_from l n = l.
Proof. apply take_drop. Qed.

Lemma slice_to_length {A} (l : list A) n :
  0 <= n -> length (slice_to l n) = Nat.min (Z.to_nat n) (length l).
Proof.
  intros Hn. unfold slice_to, slice_index.
  rewrite (proj2 (Z.ltb_ge _ _)) by done. apply length_take.
Qed.

#[export] Hint Rewrite @map_get_set_eq @map_get_delete_eq @js_sort_length : arena_rw.
#[export] Hint Resolve map_set_wf map_delete_wf map_of_entries_wf set_add_NoDup : arena.
