(* ===== verification/Doubles.v ===== *)
(** * Doubles with an integer value

    The rounding of integers to doubles, for the additions and conversions of
    the source whose operands may leave the exactly representable range. *)

From S2P Require Import Prelude JsData.
#[local] Open Scope Z_scope.

(** The double nearest to an integer (ties to even); [None] is an infinity. *)
Definition round_to_double (n : Z) : option Z :=
  let a := Z.abs n in
  if a <? 2 ^ 53 then Some n
  else
    let u := 2 ^ (Z.log2 a - 52) in
    let q := a / u in
    let rest := a - q * u in
    let q' := if (2 * rest <? u) || ((2 * rest =? u) && Z.even q) then q else q + 1 in
    if 2 ^ 1024 <=? q' * u then None else Some (Z.sgn n * (q' * u)).

(** [a + b] on numbers with integer values. *)
Definition js_add (a b : Z) : option Z := round_to_double (a + b).
Arguments js_add : simpl never.

Lemma round_to_double_small n : Z.abs n < 2 ^ 53 -> round_to_double n = Some n.
Proof. intros H. unfold round_to_double. by rewrite (proj2 (Z.ltb_lt _ _) H). Qed.

Lemma js_add_small a b : Z.abs (a + b) < 2 ^ 53 -> js_add a b = Some (a + b).
Proof. apply round_to_double_small. Qed.

(** The largest finite double. *)
Definition MAX_VALUE : Z := 2 ^ 1024 - 2 ^ 971.

(** The rounding of a quotient stays below [2 ^ 53] units, for an integer half
    a unit below that bound. *)
Lemma rounded_quotient_le (a u : Z) :
  0 < u -> 0 <= a -> 2 * a < 2 ^ 54 * u - u ->
  let q := a / u in
  let rest := a - q * u in
  (if (2 * rest <? u) || ((2 * rest =? u) && Z.even q) then q else q + 1) <= 2 ^ 53 - 1.
Proof.
  intros Hu Ha Hlt q rest. change (2 ^ 54) with (2 * 2 ^ 53) in Hlt.
  assert (Hq : q * u <= a) by (unfold q; rewrite Z.mul_comm; by apply Z.mul_div_le).
  assert (q <= 2 ^ 53 - 1) by (apply Z.lt_succ_r; unfold q; apply Z.div_lt_upper_bound; lia).
  destruct (decide (q = 2 ^ 53 - 1)) as [Heq|]; [|by repeat case_match; lia].
  rewrite (proj2 (Z.ltb_lt (2 * rest) u)); [cbn [orb]; lia|]. unfold rest. rewrite Heq. lia.
Qed.

Lemma round_to_double_finite n :
  2 * Z.abs n < 2 ^ 1025 - 2 ^ 971 -> is_Some (round_to_double n).
Proof.
  intros Hn. unfold round_to_double. destruct (Z.abs n <? 2 ^ 53) eqn:E; [by eexists|].
  bool_to_prop. set (a := Z.abs n) in *. set (l := Z.log2 a).
  assert (Ha : 0 < a) by lia. destruct (Z.log2_spec a Ha) as [Hl1 Hl2]. fold l in Hl1, Hl2.
  assert (Hl52 : 53 <= l) by (unfold l; rewrite <- (Z.log2_pow2 53) by lia; apply Z.log2_le_mono; lia).
  assert (Hl : l <= 1023).
  { apply Z.lt_succ_r, (Z.pow_lt_mono_r_iff 2); [lia|lia|].
    change (2 ^ 1025) with (2 * 2 ^ 1024) in Hn.
    assert (0 < 2 ^ 971) by (apply Z.pow_pos_nonneg; lia). change (Z.succ 1023) with 1024. lia. }
  set (u := 2 ^ (l - 52)). assert (Hu : 0 < u) by (apply Z.pow_pos_nonneg; lia).
  assert (Hul : 2 ^ 53 * u = 2 ^ (l + 1)) by (unfold u; rewrite <- Z.pow_add_r by lia; f_equal; lia).
  assert (Hbound : 2 ^ 53 * u <= 2 ^ 1024) by (rewrite Hul; apply Z.pow_le_mono_r; lia).
  assert (Hq : a / u + 1 <= 2 ^ 53).
  { apply Z.le_succ_l, Z.div_lt_upper_bound; [done|]. rewrite Z.mul_comm, Hul. exact Hl2. }
  assert (Hfin : forall k, k * u < 2 ^ 1024 -> is_Some (if 2 ^ 1024 <=? k * u then None
                                                    else Some (Z.sgn n * (k * u)))).
  { intros k Hk. rewrite (proj2 (Z.leb_gt _ _) Hk). by eexists. }
  apply Hfin. destruct (decide (l = 1023)) as [Hl3|Hl3].
  - assert (Hul' : u = 2 ^ 971) by (unfold u; f_equal; lia).
    pose proof (rounded_quotient_le a u Hu ltac:(lia)) as Hr. cbv zeta in Hr.
    eapply Z.le_lt_trans; [apply Z.mul_le_mono_nonneg_r; [lia|apply Hr]|].
    + rewrite <- Hul' in Hn. change (2 ^ 54) with (2 * 2 ^ 53).
      assert (2 ^ 1025 = 2 * 2 ^ 1024) by (rewrite <- Z.pow_succ_r by lia; f_equal).
      assert (2 ^ 53 * u = 2 ^ 1024) by (rewrite Hul; f_equal; lia). lia.
    + lia.
  - assert (Hb' : 2 ^ 53 * u < 2 ^ 1024) by (rewrite Hul; apply Z.pow_lt_mono_r; lia).
    eapply Z.le_lt_trans; [|exact Hb']. apply Z.mul_le_mono_nonneg_r; [lia|].
    repeat case_match; lia.
Qed.

(** Integers outside the exactly represented range stay outside when rounded. *)
Lemma round_to_double_large n m : 2 ^ 53 <= n -> round_to_double n = Some m -> 2 ^ 53 <= m.
Proof.
  intros Hn. unfold round_to_double. rewrite Z.abs_eq, Z.sgn_pos by lia.
  destruct (n <? 2 ^ 53) eqn:E; [bool_to_prop; lia|].
  set (u := 2 ^ (Z.log2 n - 52)). set (q' := if _ || _ then n / u else n / u + 1).
  assert (53 <= Z.log2 n) by (rewrite <- (Z.log2_pow2 53) by lia; apply Z.log2_le_mono; lia).
  assert (0 < u) by (apply Z.pow_pos_nonneg; lia).
  assert (2 ^ 52 * u <= n) as Hle.
  { unfold u. rewrite <- Z.pow_add_r by lia. replace (52 + (Z.log2 n - 52)) with (Z.log2 n) by lia.
    apply Z.log2_spec. lia. }
  assert (2 ^ 52 <= n / u) by (apply Z.div_le_lower_bound; lia).
  assert (2 ^ 52 <= q') by (unfold q'; case_match; lia).
  assert (2 <= u) by (change 2 with (2 ^ 1) at 1; unfold u; apply Z.pow_le_mono_r; lia).
  case_match; [done|]. intros [= <-]. rewrite Z.mul_1_l.
  change (2 ^ 53) with (2 ^ 52 * 2). apply Z.mul_le_mono_nonneg; lia.
Qed.
