(* ===== verification/Effects.v ===== *)
(** * Stateful code that can throw and read the clock

    A method of a mutable object is a function from the object's state and the
    clock to an outcome, the state it leaves and the clock.  A [throw] keeps
    the mutations made before it, as in JavaScript.  Each [Date.now()] consumes
    one reading of the clock, so two calls in one method may differ. *)

From S2P Require Import Prelude.
#[local] Open Scope Z_scope.

Inductive outcome (E A : Type) :=
| Ok (a : A)
| Throw (e : E).
Arguments Ok {E A} _.
Arguments Throw {E A} _.

Definition ok_value {E A} (o : outcome E A) : option A :=
  match o with Ok a => Some a | Throw _ => None end.

Record Clock := mkClock { clock_reading : nat -> Z; clock_ticks : nat }.

Definition clock_tick (c : Clock) : Z * Clock :=
  (clock_reading c (clock_ticks c), mkClock (clock_reading c) (S (clock_ticks c))).

(** Every reading of the clock lies in the ECMAScript time range. *)
Definition MAX_TIME : Z := 8640000000000000.
Definition clock_in_range (c : Clock) : Prop :=
  forall i, 0 <= clock_reading c i <= MAX_TIME.

Definition M (E S A : Type) : Type := S -> Clock -> outcome E A * S * Clock.

Section Monad.
Context {E S : Type}.

Definition ret {A} (a : A) : M E S A := fun s c => (Ok a, s, c).

Definition bind {A B} (m : M E S A) (k : A -> M E S B) : M E S B :=
  fun s c =>
    match m s c with
    | (Ok a, s', c') => k a s' c'
    | (Throw e, s', c') => (Throw e, s', c')
    end.

Definition throw {A} (e : E) : M E S A := fun s c => (Throw e, s, c).
Definition get : M E S S := fun s c => (Ok s, s, c).
Definition modify (f : S -> S) : M E S unit := fun s c => (Ok tt, f s, c).
Definition date_now : M E S Z :=
  fun s c => let '(t, c') := clock_tick c in (Ok t, s, c').

Definition run_state {A} (m : M E S A) (s : S) (c : Clock) : S := snd (fst (m s c)).
Definition run_outcome {A} (m : M E S A) (s : S) (c : Clock) : outcome E A :=
  fst (fst (m s c)).
Definition run_clock {A} (m : M E S A) (s : S) (c : Clock) : Clock := snd (m s c).
End Monad.

Notation "x <- m ;; k" := (bind m (fun x => k))
  (at level 100, m at next level, right associativity) : js_scope.
Notation "m ;; k" := (bind m (fun _ => k))
  (at level 100, right associativity) : js_scope.
(** ** Relations kept by every run

    [stable R m]: whatever [m] does, throws included, [R] relates the state it
    starts from to the state it leaves. *)
Section Stable.
Context {E S : Type} (R : S -> S -> Prop) `{!PreOrder R}.

Definition stable {A} (m : M E S A) : Prop := forall s c, R s (run_state m s c).

Lemma stable_ret {A} (a : A) : stable (ret a).
Proof. intros s c. cbn. reflexivity. Qed.

Lemma stable_throw {A} (e : E) : stable (throw (A := A) e).
Proof. intros s c. cbn. reflexivity. Qed.

Lemma stable_get : stable get.
Proof. intros s c. cbn. reflexivity. Qed.

Lemma stable_date_now : stable date_now.
Proof. intros s c. cbn. reflexivity. Qed.

Lemma stable_modify f : (forall s, R s (f s)) -> stable (modify f).
Proof. intros Hf s c. apply Hf. Qed.

Lemma stable_bind {A B} (m : M E S A) (k : A -> M E S B) :
  stable m -> (forall a, stable (k a)) -> stable (bind m k).
Proof.
  intros Hm Hk s c. specialize (Hm s c). unfold run_state, bind in *.
  destruct (m s c) as [[[a|e] s'] c'] eqn:Hr; cbn in *; [|done].
  transitivity s'; [done|]. apply Hk.
Qed.

Lemma stable_if {A} (b : bool) (m1 m2 : M E S A) :
  stable m1 -> stable m2 -> stable (if b then m1 else m2).
Proof. by destruct b. Qed.

Lemma stable_option {A B} (o : option A) (m1 : A -> M E S B) (m2 : M E S B) :
  (forall a, stable (m1 a)) -> stable m2 ->
  stable (match o with Some a => m1 a | None => m2 end).
Proof. destruct o; auto. Qed.
End Stable.

(** An assertion on the initial state that survives the whole run. *)
Definition preserves {E S A} (I : S -> Prop) (m : M E S A) : Prop :=
  forall s c, I s -> I (run_state m s c).

Lemma stable_preserves {E S A} (R : S -> S -> Prop) (I : S -> Prop) (m : M E S A) :
  (forall s s', R s s' -> I s -> I s') -> stable R m -> preserves I m.
Proof. intros H Hm s c. apply H, Hm. Qed.

Create HintDb stable_db.
#[export] Hint Resolve stable_ret stable_throw stable_get stable_date_now stable_bind
  stable_if stable_option stable_modify : stable_db.
