(* ===== verification/Shared.v ===== *)
(** * [packages/shared/src]: state types, configuration and error codes *)

From S2P Require Import Prelude JsData.
#[local] Open Scope Z_scope.

(** ** state.ts: enumerations *)

Inductive RoomStatus := RWAITING | RCOUNTDOWN | RSTARTING | RIN_GAME | RFINISHED.

Inductive MatchStatus :=
| CREATED | TOPIC_VOTING | COUNTDOWN | ROUND_ACTIVE | ROUND_EVALUATING
| ROUND_RESULT | FINISHED.

Inductive PlayerStatus := ACTIVE | ELIMINATED | DISCONNECTED | WINNER.

Inductive RoomType := PUBLIC | PRIVATE.

#[export] Instance RoomStatus_eq : EqDecision RoomStatus.
Proof. solve_decision. Defined.
#[export] Instance MatchStatus_eq : EqDecision MatchStatus.
Proof. solve_decision. Defined.
#[export] Instance PlayerStatus_eq : EqDecision PlayerStatus.
Proof. solve_decision. Defined.
#[export] Instance RoomType_eq : EqDecision RoomType.
Proof. solve_decision. Defined.

(** ** error-codes.ts, errors.ts *)

Inductive ErrorCode :=
| ROOM_NOT_FOUND | ROOM_FULL | ROOM_ALREADY_STARTED | PLAYER_NOT_IN_ROOM
| MATCH_NOT_FOUND | MATCH_ALREADY_STARTED | ROUND_NOT_ACTIVE | ALREADY_ANSWERED
| ANSWER_SUBMISSION_CLOSED | NOT_ROOM_HOST | NOT_ENOUGH_PLAYERS | UNAUTHORIZED
| INVALID_TOKEN | RATE_LIMITED | INTERNAL_ERROR | INVALID_ROOM_TYPE
| SPECTATOR_CANNOT_ANSWER | INVALID_PAYLOAD | PLAYER_DISCONNECTED
| COMMAND_ID_CONFLICT | AOE_CAP_EXHAUSTED | CARD_NOT_IN_HAND | CARD_NOT_FOUND
| INVALID_COMMAND_ID | TOPIC_VOTING_CLOSED | INVALID_TOPIC | USERNAME_TAKEN.

#[export] Instance ErrorCode_eq : EqDecision ErrorCode.
Proof. solve_decision. Defined.

(** What the code throws: a [RoomError] with its code, a plain [Error] with its
    message, an HttpException of NestJS with its status and message (messages
    without the interpolated values), or an error of Prisma with its code. *)
Inductive exn :=
| RoomError (code : ErrorCode)
| JsError (message : string)
| HttpError (status : Z) (message : string)
| PrismaError (code : string).

#[export] Instance exn_eq : EqDecision exn.
Proof. solve_decision. Defined.

(** ** game-config.ts *)

Module GAME_CONFIG.
Definition MAX_PLAYERS : Z := 100.
Definition MIN_PLAYERS_TO_START : Z := 2.
Definition ROUND_DURATION_MS : Z := 15000.
Definition COUNTDOWN_DURATION_MS : Z := 5000.
Definition RESULT_DISPLAY_MS : Z := 3000.
Definition MAX_ROUNDS : Z := 50.
Definition ROOM_CODE_LENGTH : Z := 6.
Definition SCORE_BASE_CORRECT : Z := 100.
Definition SCORE_SPEED_BONUS_WINDOW_MS : Z := 10000.
Definition SCORE_SPEED_BONUS_DIVISOR : Z := 200.
Definition TOPIC_VOTING_DURATION_MS : Z := 10000.
Definition TOPIC_VOTING_BANNED_COUNT : Z := 2.
Definition CARD_OFFER_DURATION_MS : Z := 8000.
Definition TOPIC_VOTING_CANDIDATE_POOL : list jstr :=
  [js "SCIENCE"; js "HISTORY"; js "GEOGRAPHY"; js "TECHNOLOGY"; js "SPORTS";
   js "CULTURE"; js "LOGIC"].
End GAME_CONFIG.

Module MATCHMAKING_CONFIG.
Definition TICK_INTERVAL_MS : Z := 2000.
Definition MAX_WAIT_TIME_MS : Z := 60000.
Definition MIN_PLAYERS_TO_MATCH : Z := 1.
Definition TARGET_PLAYERS_PER_MATCH : Z := 100.
Definition INITIAL_ELO_WINDOW : Z := 150.
Definition ELO_EXPANSION_STEP : Z := 50.
Definition ELO_EXPANSION_INTERVAL_MS : Z := 5000.
Definition AUTO_FILL_BOTS : bool := true.
Definition MIN_BOT_ANSWER_DELAY_MS : Z := 2000.
Definition MAX_BOT_ANSWER_DELAY_MS : Z := 12000.
End MATCHMAKING_CONFIG.

Definition ANSWER_CODES : list jstr := [js "A"; js "B"; js "C"; js "D"].

(** ** state.ts: records *)

Record PlayerInfo := mkPlayer {
  pl_id : jstr;
  pl_name : jstr;
  pl_status : PlayerStatus;
  pl_score : Z;
  pl_totalResponseTimeMs : Z;
  pl_correctAnswers : Z;
  pl_isOnline : bool;
}.

(** Optional fields ([?:] in the source) are [option]; [null] fields too. *)
Record MatchState := mkMatchState {
  ms_id : jstr;
  ms_roomId : jstr;
  ms_status : MatchStatus;
  ms_currentRoundNo : Z;
  ms_totalRounds : Z;
  ms_players : JsMap jstr PlayerInfo;
  ms_survivingPlayerIds : list jstr;
  ms_eliminatedPlayerIds : list jstr;
  ms_winnerId : option jstr;
  ms_startedAt : option Z;
  ms_endedAt : option Z;
  ms_phaseEndsAt : option Z;
  ms_roundResultStartedAt : option Z;
  ms_candidateTopics : option (list jstr);
  ms_topicVotes : option (JsMap jstr jstr);
  ms_bannedTopics : option (list jstr);
  ms_activeTopics : option (list jstr);
}.

Inductive RoundStatus := PENDING | RACTIVE | EVALUATING | COMPLETED.
#[export] Instance RoundStatus_eq : EqDecision RoundStatus.
Proof. solve_decision. Defined.

Inductive Difficulty := EASY | MEDIUM | HARD.
#[export] Instance Difficulty_eq : EqDecision Difficulty.
Proof. solve_decision. Defined.

Record QuestionState := mkQuestion {
  q_id : jstr;
  q_content : jstr;
  q_options : list jstr;
  q_difficulty : option Difficulty;
}.

Record AnswerState := mkAnswer {
  an_playerId : jstr;
  an_answer : jstr;
  an_submissionId : jstr;
  an_isCorrect : option bool;
  an_responseTimeMs : Z;
  an_submittedAt : Z;
}.

(** [RoundState] with the two runtime fields of [RoundRuntimeState]
    (match-state-machine.ts): the answer key, and the starting players, which
    is the symbol [UNAVAILABLE] when a snapshot did not carry them. *)
Inductive RoundStartingPlayers :=
| StartingPlayers (ids : list jstr)
| UNAVAILABLE.

Record RoundRuntimeState := mkRound {
  rd_matchId : jstr;
  rd_roundNo : Z;
  rd_question : QuestionState;
  rd_startedAt : Z;
  rd_endsAt : Z;
  rd_answers : JsMap jstr AnswerState;
  rd_status : RoundStatus;
  rd_correctAnswer : option jstr;
  rd_startingPlayers : option RoundStartingPlayers;
}.

(** [asRoomType] and [asRoomTypeOrDefault]. *)
Definition asRoomType (value : jstr) : RoomType + exn :=
  if decide (value = js "PUBLIC") then inl PUBLIC
  else if decide (value = js "PRIVATE") then inl PRIVATE
  else inr (RoomError INVALID_ROOM_TYPE).

Definition asRoomTypeOrDefault (value : jstr) : RoomType :=
  if decide (value = js "PRIVATE") then PRIVATE else PUBLIC.
