(* ===== verification/Cards.v ===== *)
(** * [packages/shared/src/cards.ts] and [classes.ts]: the card catalogue *)

From Stdlib Require Import QArith.
From S2P Require Import Prelude JsData Effects Shared.
#[local] Open Scope Z_scope.

Inductive ClassId := ATTACK | DEFENSE.
#[export] Instance ClassId_eq : EqDecision ClassId.
Proof. solve_decision. Defined.

Inductive CardTier := COMMON | RARE | EPIC.
#[export] Instance CardTier_eq : EqDecision CardTier.
Proof. solve_decision. Defined.

Inductive CardId :=
| CB_1 | CB_2 | CB_3 | CB_4 | CB_5 | CB_6 | CB_7 | CB_8
| TN_1 | TN_2 | TN_3 | TN_4 | TN_5 | TN_6 | TN_7 | TN_8 | TN_9 | TN_10.
#[export] Instance CardId_eq : EqDecision CardId.
Proof. solve_decision. Defined.

(** The string a [CardId] is in the source. *)
Definition card_str (id : CardId) : jstr :=
  match id with
  | CB_1 => js "CB-1" | CB_2 => js "CB-2" | CB_3 => js "CB-3" | CB_4 => js "CB-4"
  | CB_5 => js "CB-5" | CB_6 => js "CB-6" | CB_7 => js "CB-7" | CB_8 => js "CB-8"
  | TN_1 => js "TN-1" | TN_2 => js "TN-2" | TN_3 => js "TN-3" | TN_4 => js "TN-4"
  | TN_5 => js "TN-5" | TN_6 => js "TN-6" | TN_7 => js "TN-7" | TN_8 => js "TN-8"
  | TN_9 => js "TN-9" | TN_10 => js "TN-10"
  end.

Definition all_card_ids : list CardId :=
  [CB_1; CB_2; CB_3; CB_4; CB_5; CB_6; CB_7; CB_8;
   TN_1; TN_2; TN_3; TN_4; TN_5; TN_6; TN_7; TN_8; TN_9; TN_10].

Lemma all_card_ids_complete id : id ∈ all_card_ids.
Proof. destruct id; unfold all_card_ids; repeat (left || right). Qed.

(** A property of one or two card ids is decided by running over them all. *)
Lemma forall_card (p : CardId -> bool) :
  forallb p all_card_ids = true -> forall id, p id = true.
Proof.
  intros H id. rewrite forallb_forall in H. apply H.
  apply list_elem_of_In, all_card_ids_complete.
Qed.

(** ** [compareCardId] *)

(** [s.indexOf("-")], [s.slice(0, i)], [Number.parseInt(s, 10)] on digits. *)
Definition dash_index (s : jstr) : Z := index_of 45 s.

Fixpoint parse_digits (acc : Z) (s : jstr) : Z :=
  match s with
  | [] => acc
  | c :: s' => if in_range 48 c 57 then parse_digits (acc * 10 + (c - 48)) s' else acc
  end.

Definition parse_card (s : jstr) : jstr * Z :=
  let dash := dash_index s in
  (take (Z.to_nat dash) s, parse_digits 0 (drop (Z.to_nat (dash + 1)) s)).

Definition compareCardId (a b : CardId) : Z :=
  let pa := parse_card (card_str a) in
  let pb := parse_card (card_str b) in
  if negb (bool_decide (pa.1 = pb.1))
  then (if str_cmp pa.1 pb.1 <? 0 then -1 else 1)
  else pa.2 - pb.2.

(** ** Effect unions *)

Inductive OverlayFlag := BRAIN_FOG | DEEP_READ.
#[export] Instance OverlayFlag_eq : EqDecision OverlayFlag.
Proof. solve_decision. Defined.

Inductive CardEffectTemplate :=
| T_TIMER_MODIFY (deltaMs targetCount : Z)
| T_OPTION_DISABLE_TEMPLATE (count durationMs : Z)
| T_OPTION_FAKE (indexes : list Z) (durationMs : Z)
| T_OPTION_LOCK (durationMs : Z)
| T_HINT_REVEAL_TEMPLATE (count : Z)
| T_DELAY_RENDER (delayMs targetCount : Z)
| T_VISUAL_OVERLAY (flag : OverlayFlag) (durationMs : Z)
| T_SEMANTIC_FLIP (durationMs : Z)
| T_QUESTION_REPLAY (extraMs : Z)
| T_SHIELD_TEMPLATE (expiresAfterRoundOffset : Z)
| T_SCORE_MULT (factor : Q)
| T_HAND_DESTROY_TEMPLATE (count : Z)
| T_SECOND_CHANCE.

Inductive CardEffect :=
| TIMER_MODIFY (deltaMs targetCount : Z)
| OPTION_DISABLE (indexes : list Z) (count availableAtResolution durationMs : Z)
| OPTION_FAKE (indexes : list Z) (durationMs : Z)
| OPTION_LOCK (durationMs : Z)
| HINT_REVEAL (partial : jstr)
| DELAY_RENDER (delayMs targetCount : Z)
| VISUAL_OVERLAY (flag : OverlayFlag) (durationMs : Z)
| SEMANTIC_FLIP (durationMs : Z)
| QUESTION_REPLAY (extraMs : Z)
| SHIELD (expiresAtRound : Z)
| SCORE_MULT (factor : Q)
| HAND_DESTROY (count availableAtResolution : Z) (destroyedCardIds : list CardId)
| SECOND_CHANCE.

#[export] Instance Q_eq : EqDecision Q.
Proof. solve_decision. Defined.
#[export] Instance CardEffectTemplate_eq : EqDecision CardEffectTemplate.
Proof. solve_decision. Defined.
#[export] Instance CardEffect_eq : EqDecision CardEffect.
Proof. solve_decision. Defined.

(** The discriminator [kind] of a template and of a resolved effect. *)
Definition template_kind (t : CardEffectTemplate) : jstr :=
  match t with
  | T_TIMER_MODIFY _ _ => js "TIMER_MODIFY"
  | T_OPTION_DISABLE_TEMPLATE _ _ => js "OPTION_DISABLE_TEMPLATE"
  | T_OPTION_FAKE _ _ => js "OPTION_FAKE"
  | T_OPTION_LOCK _ => js "OPTION_LOCK"
  | T_HINT_REVEAL_TEMPLATE _ => js "HINT_REVEAL_TEMPLATE"
  | T_DELAY_RENDER _ _ => js "DELAY_RENDER"
  | T_VISUAL_OVERLAY _ _ => js "VISUAL_OVERLAY"
  | T_SEMANTIC_FLIP _ => js "SEMANTIC_FLIP"
  | T_QUESTION_REPLAY _ => js "QUESTION_REPLAY"
  | T_SHIELD_TEMPLATE _ => js "SHIELD_TEMPLATE"
  | T_SCORE_MULT _ => js "SCORE_MULT"
  | T_HAND_DESTROY_TEMPLATE _ => js "HAND_DESTROY_TEMPLATE"
  | T_SECOND_CHANCE => js "SECOND_CHANCE"
  end.

Definition effect_kind (e : CardEffect) : jstr :=
  match e with
  | TIMER_MODIFY _ _ => js "TIMER_MODIFY"
  | OPTION_DISABLE _ _ _ _ => js "OPTION_DISABLE"
  | OPTION_FAKE _ _ => js "OPTION_FAKE"
  | OPTION_LOCK _ => js "OPTION_LOCK"
  | HINT_REVEAL _ => js "HINT_REVEAL"
  | DELAY_RENDER _ _ => js "DELAY_RENDER"
  | VISUAL_OVERLAY _ _ => js "VISUAL_OVERLAY"
  | SEMANTIC_FLIP _ => js "SEMANTIC_FLIP"
  | QUESTION_REPLAY _ => js "QUESTION_REPLAY"
  | SHIELD _ => js "SHIELD"
  | SCORE_MULT _ => js "SCORE_MULT"
  | HAND_DESTROY _ _ _ => js "HAND_DESTROY"
  | SECOND_CHANCE => js "SECOND_CHANCE"
  end.

(** ** The catalogue *)

Record CardDefinition := mkCard {
  cd_id : CardId;
  cd_classId : ClassId;
  cd_tier : CardTier;
  cd_name : jstr;
  cd_description : jstr;
  cd_effectTemplate : CardEffectTemplate;
  cd_backfireRate : Q;
  cd_cooldownPerMatch : Z;
}.

Definition RAW_ATTACK_CARDS : list CardDefinition := [
  mkCard CB_1 ATTACK COMMON (js "Time Freeze")
    (js "Reduce a target's answer window by 5s.") (T_TIMER_MODIFY (-5000) 1) (1#10) 1;
  mkCard CB_2 ATTACK COMMON (js "Sabotage Q")
    (js "Delay a target's question render by 3s.") (T_DELAY_RENDER 3000 1) (1#10) 1;
  mkCard CB_3 ATTACK COMMON (js "Burn Card")
    (js "Destroy 1 random card from the target's hand.")
    (T_HAND_DESTROY_TEMPLATE 1) (1#10) 1;
  mkCard CB_4 ATTACK RARE (js "Question Lock")
    (js "Lock a target's options for 2s.") (T_OPTION_LOCK 2000) (1#10) 1;
  mkCard CB_5 ATTACK RARE (js "Brain Fog")
    (js "Apply Brain Fog visual overlay for 5s.")
    (T_VISUAL_OVERLAY BRAIN_FOG 5000) (1#10) 1;
  mkCard CB_6 ATTACK COMMON (js "Fake Flag")
    (js "Show 1 fake flag option to a target for 8s.")
    (T_OPTION_FAKE [1] 8000) (1#10) 1;
  mkCard CB_7 ATTACK COMMON (js "Question Flip")
    (js "Flip a target's question semantics for 10s.")
    (T_SEMANTIC_FLIP 10000) (1#10) 1;
  mkCard CB_8 ATTACK EPIC (js "Mass Distraction")
    (js "Delay up to 3 targets' question render by 2s.")
    (T_DELAY_RENDER 2000 3) (1#10) 1
].

Definition RAW_DEFENSE_CARDS : list CardDefinition := [
  mkCard TN_1 DEFENSE COMMON (js "50:50")
    (js "Disable 2 random wrong options for the round.")
    (T_OPTION_DISABLE_TEMPLATE 2 20000) 0 1;
  mkCard TN_2 DEFENSE COMMON (js "Double Points")
    (js "Double your score for the next correct answer.") (T_SCORE_MULT 2) 0 1;
  mkCard TN_3 DEFENSE COMMON (js "Hint Reveal")
    (js "Reveal the first character of the correct answer.")
    (T_HINT_REVEAL_TEMPLATE 1) 0 1;
  mkCard TN_4 DEFENSE RARE (js "Shield")
    (js "Block 1 incoming card for the next round.") (T_SHIELD_TEMPLATE 1) 0 1;
  mkCard TN_5 DEFENSE COMMON (js "Time Bonus")
    (js "Add 5s to your per-question answer deadline.") (T_QUESTION_REPLAY 5000) 0 1;
  mkCard TN_6 DEFENSE COMMON (js "Second Chance")
    (js "Allow yourself to re-submit before the deadline.") T_SECOND_CHANCE 0 1;
  mkCard TN_7 DEFENSE RARE (js "Deep Read")
    (js "Apply Deep Read visual overlay for 5s.")
    (T_VISUAL_OVERLAY DEEP_READ 5000) 0 1;
  mkCard TN_8 DEFENSE COMMON (js "Time Bonus")
    (js "Add 5s to your per-question answer deadline.") (T_QUESTION_REPLAY 5000) 0 1;
  mkCard TN_9 DEFENSE RARE (js "Brain Burst")
    (0xD7 :: js "1.5 score for the next correct answer.") (T_SCORE_MULT (3#2)) 0 1;
  mkCard TN_10 DEFENSE EPIC (js "Perfect Recall")
    (js "Disable 1 random wrong option for the round.")
    (T_OPTION_DISABLE_TEMPLATE 1 20000) 0 1
].

Definition RAW_CARD_CATALOG : list CardDefinition := RAW_ATTACK_CARDS ++ RAW_DEFENSE_CARDS.

(** [Object.freeze] leaves the values as they are. *)
Definition CARD_CATALOG : list CardDefinition := RAW_CARD_CATALOG.

Definition CARD_CATALOG_BY_ID : JsMap jstr CardDefinition :=
  map_of_entries ((fun c => (card_str (cd_id c), c)) <$> CARD_CATALOG).

(** The module-load assertion on [backfireRate]. *)
Definition backfireRate_ok (c : CardDefinition) : bool :=
  Qle_bool 0 (cd_backfireRate c) && Qle_bool (cd_backfireRate c) (1#10).

Definition getCardDefinition (id : CardId) : outcome exn CardDefinition :=
  match map_get (card_str id) CARD_CATALOG_BY_ID with
  | Some def => Ok def
  | None => Throw (JsError "Unknown card id")
  end.

Definition CARD_CATALOG_BY_CLASS (classId : ClassId) : list CardId :=
  js_sort compareCardId
    (cd_id <$> filter (fun c => cd_classId c = classId) CARD_CATALOG).

Definition getClassPool (classId : ClassId) : list CardId := CARD_CATALOG_BY_CLASS classId.

Definition hasCardDefinition (id : jstr) : bool := map_has id CARD_CATALOG_BY_ID.

Definition AOE_CAP_PER_ROUND : Z := 2.
Definition COMMAND_ID_MAX_LENGTH : Z := 64.
Definition MILESTONE_ROUNDS : list Z := set_of_list [5; 12; 20].

(** ** Cosmetic variants *)

Inductive CardVariantKey := DEFAULT | NEON | GOLD.
#[export] Instance CardVariantKey_eq : EqDecision CardVariantKey.
Proof. solve_decision. Defined.

Definition CARD_VARIANT_ORDER : list CardVariantKey := [DEFAULT; NEON; GOLD].
Definition CARD_VARIANT_STREAK_THRESHOLD : Z := 7.

Fixpoint nextCardVariant_from (keys owned : list CardVariantKey) : option CardVariantKey :=
  match keys with
  | [] => None
  | key :: keys' =>
      if bool_decide (key = DEFAULT) then nextCardVariant_from keys' owned
      else if negb (set_has key owned) then Some key
      else nextCardVariant_from keys' owned
  end.

Definition nextCardVariant (ownedVariants : list CardVariantKey) : option CardVariantKey :=
  nextCardVariant_from CARD_VARIANT_ORDER ownedVariants.

(** [pool[unlockIndex % pool.length]]; [None] is [undefined] (a negative index). *)
Definition pickCardForVariantUnlock (classId : ClassId) (unlockIndex : Z) : option CardId :=
  let pool := getClassPool classId in
  if decide (pool = []) then cd_id <$> head CARD_CATALOG
  else js_nth pool (Z.rem unlockIndex (Z.of_nat (length pool))).

(** ** Facts about the catalogue *)

(** Position of a card in the canonical order. *)
Definition card_rank (id : CardId) : Z := index_of id all_card_ids.

Lemma compareCardId_rank a b : Z.sgn (compareCardId a b) = Z.sgn (card_rank a - card_rank b).
Proof.
  apply Z.eqb_eq. revert b.
  apply (forall_card (fun b => Z.sgn (compareCardId a b) =? Z.sgn (card_rank a - card_rank b))).
  revert a. apply (forall_card (fun a => forallb (fun b =>
    Z.sgn (compareCardId a b) =? Z.sgn (card_rank a - card_rank b)) all_card_ids)).
  by_compute.
Qed.

Lemma compareCardId_le a b : compareCardId a b <= 0 <-> card_rank a <= card_rank b.
Proof. pose proof (compareCardId_rank a b). lia. Qed.

Lemma card_rank_inj a b : card_rank a = card_rank b -> a = b.
Proof.
  intros H. assert (forall a, js_nth all_card_ids (card_rank a) = Some a) as Hn.
  { intros c. apply (bool_decide_eq_true_1 (js_nth all_card_ids (card_rank c) = Some c)).
    revert c. apply (forall_card (fun c =>
      bool_decide (js_nth all_card_ids (card_rank c) = Some c))). by_compute. }
  pose proof (Hn a) as Ha. rewrite H, Hn in Ha. congruence.
Qed.

#[export] Instance compareCardId_Comparator : Comparator compareCardId.
Proof.
  split.
  - intros x y. rewrite !compareCardId_rank. lia.
  - intros x y z. rewrite !compareCardId_le. lia.
Qed.

Lemma compareCardId_antisymm a b : compareCardId a b <= 0 -> compareCardId b a <= 0 -> a = b.
Proof. rewrite !compareCardId_le. intros. apply card_rank_inj. lia. Qed.

(** The typed lookup never throws. *)
Definition card_def (id : CardId) : CardDefinition :=
  match getCardDefinition id with Ok d => d | Throw _ => mkCard id ATTACK COMMON [] [] T_SECOND_CHANCE 0 0 end.

Lemma getCardDefinition_total id : getCardDefinition id = Ok (card_def id).
Proof. by destruct id. Qed.

Lemma card_def_id id : cd_id (card_def id) = id.
Proof. by destruct id. Qed.

Lemma getClassPool_NoDup cls : NoDup (getClassPool cls).
Proof. apply (bool_decide_eq_true_1 (NoDup (getClassPool cls))). by destruct cls. Qed.

Lemma elem_of_getClassPool cls id : id ∈ getClassPool cls <-> cd_classId (card_def id) = cls.
Proof.
  assert (bool_decide (id ∈ getClassPool cls) = bool_decide (cd_classId (card_def id) = cls)) as H.
  { apply Bool.eqb_prop. revert id. apply (forall_card (fun id =>
      Bool.eqb (bool_decide (id ∈ getClassPool cls))
               (bool_decide (cd_classId (card_def id) = cls)))).
    by destruct cls. }
  rewrite <- (bool_decide_eq_true (id ∈ _)), H. apply bool_decide_eq_true.
Qed.

Lemma getClassPool_length cls :
  length (getClassPool cls) = match cls with ATTACK => 8 | DEFENSE => 10 end%nat.
Proof. by destruct cls. Qed.

Lemma hasCardDefinition_spec s : hasCardDefinition s = true <-> exists id, s = card_str id.
Proof.
  unfold hasCardDefinition. rewrite map_has_spec.
  assert (CARD_CATALOG_BY_ID.*1 = card_str <$> all_card_ids) as -> by by_compute.
  rewrite list_elem_of_fmap. split; intros (id & Hid); exists id; [naive_solver|].
  split; [done|apply all_card_ids_complete].
Qed.

Lemma card_str_inj a b : card_str a = card_str b -> a = b.
Proof. destruct a, b; intros H; first [reflexivity | vm_compute in H; discriminate H]. Qed.
