(* ===== verification/Prng.v ===== *)
(** * [packages/game-core/src/prng.ts]: hashing and the seeded generator

    FNV-1a, SHA-256 over UTF-8, substream derivation and mulberry32, with the
    32-bit operators of the prelude.  A random number of the source is a double
    [k / 2^32]; here it is the numerator [k]. *)

From S2P Require Import Prelude JsData.
#[local] Open Scope Z_scope.

(** ** FNV-1a *)

Definition hashStringToSeed (s : jstr) : Z :=
  js_ushr (foldl (fun hash c => js_imul (js_xor hash c) 0x01000193) 0x811c9dc5 s) 0.

(** ** mulberry32

    The closure's variable [a] is the state; a call returns the numerator of
    the float and the new state. *)

Definition mulberry32 (seed : Z) : Z := js_ushr seed 0.

Definition rng_mix (a : Z) : Z :=
  let t := a in
  let t := js_imul (js_xor t (js_ushr t 15)) (js_or t 1) in
  let t := js_xor t (t + js_imul (js_xor t (js_ushr t 7)) (js_or t 61)) in
  js_ushr (js_xor t (js_ushr t 14)) 0.

Definition rng_next (a0 : Z) : Z * Z :=
  let a := js_ushr (a0 + 0x6d2b79f5) 0 in (rng_mix a, a).

#[global] Arguments rng_next : simpl never.
#[global] Arguments rng_mix : simpl never.

(** Drawing [n] numbers in a row. *)
Fixpoint rng_draws (n : nat) (a : Z) : list Z :=
  match n with
  | O => []
  | S n' => (rng_next a).1 :: rng_draws n' (rng_next a).2
  end.

(** ** UTF-8 *)

Definition REPLACEMENT : list Z := [0xef; 0xbf; 0xbd].
Definition isHighSurrogate (c : Z) : bool := (0xd800 <=? c) && (c <? 0xdc00).
Definition isLowSurrogate (c : Z) : bool := (0xdc00 <=? c) && (c <? 0xe000).

Fixpoint utf8Encode (s : jstr) : list Z :=
  match s with
  | [] => []
  | c :: s' =>
      if c <? 0x80 then c :: utf8Encode s'
      else if c <? 0x800 then
        js_or 0xc0 (js_shr c 6) :: js_or 0x80 (js_and c 0x3f) :: utf8Encode s'
      else if isHighSurrogate c then
        match s' with
        | c2 :: s'' =>
            if isLowSurrogate c2 then
              let c := 0x10000 + js_or (js_shl (js_and c 0x3ff) 10) (js_and c2 0x3ff) in
              js_or 0xf0 (js_shr c 18) :: js_or 0x80 (js_and (js_shr c 12) 0x3f)
              :: js_or 0x80 (js_and (js_shr c 6) 0x3f) :: js_or 0x80 (js_and c 0x3f)
              :: utf8Encode s''
            else REPLACEMENT ++ utf8Encode s'
        | [] => REPLACEMENT ++ utf8Encode s'
        end
      else if isLowSurrogate c then REPLACEMENT ++ utf8Encode s'
      else
        js_or 0xe0 (js_shr c 12) :: js_or 0x80 (js_and (js_shr c 6) 0x3f)
        :: js_or 0x80 (js_and c 0x3f) :: utf8Encode s'
  end.

(** ** SHA-256 *)

(** The rows of the source. *)
Definition SHA256_K : list Z := concat [
  [0x428a2f98; 0x71374491; 0xb5c0fbcf; 0xe9b5dba5; 0x3956c25b; 0x59f111f1];
  [0x923f82a4; 0xab1c5ed5; 0xd807aa98; 0x12835b01; 0x243185be; 0x550c7dc3];
  [0x72be5d74; 0x80deb1fe; 0x9bdc06a7; 0xc19bf174; 0xe49b69c1; 0xefbe4786];
  [0x0fc19dc6; 0x240ca1cc; 0x2de92c6f; 0x4a7484aa; 0x5cb0a9dc; 0x76f988da];
  [0x983e5152; 0xa831c66d; 0xb00327c8; 0xbf597fc7; 0xc6e00bf3; 0xd5a79147];
  [0x06ca6351; 0x14292967; 0x27b70a85; 0x2e1b2138; 0x4d2c6dfc; 0x53380d13];
  [0x650a7354; 0x766a0abb; 0x81c2c92e; 0x92722c85; 0xa2bfe8a1; 0xa81a664b];
  [0xc24b8b70; 0xc76c51a3; 0xd192e819; 0xd6990624; 0xf40e3585; 0x106aa070];
  [0x19a4c116; 0x1e376c08; 0x2748774c; 0x34b0bcb5; 0x391c0cb3; 0x4ed8aa4a];
  [0x5b9cca4f; 0x682e6ff3; 0x748f82ee; 0x78a5636f; 0x84c87814; 0x8cc70208];
  [0x90befffa; 0xa4506ceb; 0xbef9a3f7; 0xc67178f2] ].

Definition SHA256_H0 : list Z := [
  0x6a09e667; 0xbb67ae85; 0x3c6ef372; 0xa54ff53a; 0x510e527f; 0x9b05688c;
  0x1f83d9ab; 0x5be0cd19 ].

(** [arr[i] ?? 0] *)
Definition at0 (l : list Z) (i : nat) : Z := nth i l 0.

Definition rotr (x n : Z) : Z := js_ushr (js_or (js_ushr x n) (js_shl x (32 - n))) 0.

(** [len + 9 + padLen] bytes: message, 0x80, zeros, the 64-bit bit length. *)
Definition sha256_padLen (len : Z) : Z := (64 - (len + 9) mod 64) mod 64.

Definition sha256_pad (bytes : list Z) : list Z :=
  let len := Z.of_nat (length bytes) in
  let bitLen := len * 8 in
  bytes ++ [0x80] ++ replicate (Z.to_nat (sha256_padLen len)) 0
  ++ ((fun sh => Z.land (Z.shiftr bitLen sh) 0xff) <$> [56; 48; 40; 32; 24; 16; 8; 0]).

(** One word of a block and the extension of the schedule by one word. *)
Definition sha256_word (buf : list Z) (j : nat) : Z :=
  js_ushr (js_or (js_or (js_or (js_shl (at0 buf j) 24) (js_shl (at0 buf (j + 1)) 16))
                        (js_shl (at0 buf (j + 2)) 8)) (at0 buf (j + 3))) 0.

Definition sha256_extend (W : list Z) (i : nat) : list Z :=
  let w15 := at0 W (i - 15) in
  let w2 := at0 W (i - 2) in
  let s0 := js_xor (js_xor (rotr w15 7) (rotr w15 18)) (js_ushr w15 3) in
  let s1 := js_xor (js_xor (rotr w2 17) (rotr w2 19)) (js_ushr w2 10) in
  W ++ [js_ushr (at0 W (i - 16) + s0 + at0 W (i - 7) + s1) 0].

Definition sha256_schedule (block : list Z) : list Z :=
  foldl sha256_extend ((fun i => sha256_word block (4 * i)) <$> seq 0 16) (seq 16 48).

Definition sha256_round (W : list Z) (v : list Z) (i : nat) : list Z :=
  match v with
  | [a; b; c; d; e; f; g; h] =>
      let S1 := js_xor (js_xor (rotr e 6) (rotr e 11)) (rotr e 25) in
      let ch := js_xor (js_and e f) (js_and (js_not e) g) in
      let t1 := js_ushr (h + S1 + ch + at0 SHA256_K i + at0 W i) 0 in
      let S0 := js_xor (js_xor (rotr a 2) (rotr a 13)) (rotr a 22) in
      let maj := js_xor (js_xor (js_and a b) (js_and a c)) (js_and b c) in
      let t2 := js_ushr (S0 + maj) 0 in
      [js_ushr (t1 + t2) 0; a; b; c; js_ushr (d + t1) 0; e; f; g]
  | _ => v
  end.

Definition sha256_block (H : list Z) (block : list Z) : list Z :=
  let W := sha256_schedule block in
  zip_with (fun h x => js_ushr (h + x) 0) H (foldl (sha256_round W) H (seq 0 64)).

(** [for (let block = 0; block < total; block += 64)] over the padded buffer. *)
Fixpoint sha256_blocks (n : nat) (H buf : list Z) : list Z :=
  match n with
  | O => H
  | S n' => sha256_blocks n' (sha256_block H (take 64 buf)) (drop 64 buf)
  end.

Definition sha256_digest_bytes (h : Z) : list Z :=
  [js_and (js_ushr h 24) 0xff; js_and (js_ushr h 16) 0xff; js_and (js_ushr h 8) 0xff;
   js_and h 0xff].

Definition sha256Bytes (bytes : list Z) : list Z :=
  let buf := sha256_pad bytes in
  let total := length buf in
  flat_map sha256_digest_bytes (sha256_blocks (total / 64) SHA256_H0 buf).

(** ** Seeds *)

Definition seedFromString (s : jstr) : Z :=
  let bytes := sha256Bytes (utf8Encode s) in
  js_ushr (js_or (js_or (js_or (at0 bytes 0) (js_shl (at0 bytes 1) 8))
                        (js_shl (at0 bytes 2) 16)) (js_shl (at0 bytes 3) 24)) 0.

Definition deriveSubstream (parentSeed label : jstr) : Z :=
  seedFromString (parentSeed ++ js "|" ++ label).

(** ** Conformance: the vectors of prng.spec.ts *)

Example seedFromString_e_acute : seedFromString [0xE9] = 2119539018.
Proof. by_compute. Qed.
Example seedFromString_cjk : seedFromString [0x4E2D] = 2864539557.
Proof. by_compute. Qed.
Example seedFromString_clef : seedFromString [0xD834; 0xDD1E] = 3555662308.
Proof. by_compute. Qed.
Example seedFromString_high : seedFromString [0xD800] = 3427063171.
Proof. by_compute. Qed.
Example seedFromString_low : seedFromString [0xDC00] = 3427063171.
Proof. by_compute. Qed.
Example sha256_empty_prefix : take 4 (sha256Bytes []) = [0xe3; 0xb0; 0xc4; 0x42].
Proof. by_compute. Qed.
Example sha256_two_blocks :
  take 4 (sha256Bytes (replicate 64 97)) = [0xff; 0xe0; 0x54; 0xfe].
Proof. by_compute. Qed.

(** ** The generator: range and period *)

Lemma rng_mix_range a : 0 <= rng_mix a < two32.
Proof. unfold rng_mix. apply js_ushr_range. lia. Qed.

Lemma rng_next_range a : 0 <= (rng_next a).1 < two32.
Proof. unfold rng_next. apply rng_mix_range. Qed.

Lemma rng_draws_length n a : length (rng_draws n a) = n.
Proof. revert a. induction n as [|n IH]; intros a; cbn; [done|]. by rewrite IH. Qed.

Lemma rng_draws_range n a : Forall (fun k => 0 <= k < two32) (rng_draws n a).
Proof.
  revert a. induction n as [|n IH]; intros a; cbn [rng_draws]; [constructor|].
  constructor; [apply rng_next_range|apply IH].
Qed.

(** The state after [i] draws. *)
Definition rng_at (a i : Z) : Z := to_uint32 (a + i * 0x6d2b79f5).

Lemma rng_next_at a : (rng_next a).2 = rng_at a 1.
Proof. unfold rng_next, rng_at. cbn [snd]. rewrite js_ushr_0. f_equal; lia. Qed.

Lemma rng_at_at a i j : rng_at (rng_at a i) j = rng_at a (i + j).
Proof.
  unfold rng_at, to_uint32, two32. rewrite Zplus_mod_idemp_l. f_equal. lia.
Qed.

(** The increment is odd, hence invertible: every 32-bit state is reached,
    after between 1 and 2^32 draws. *)
Lemma rng_at_reaches a t :
  0 <= t < two32 -> exists i, 1 <= i <= two32 /\ rng_at a i = t.
Proof.
  intros Ht. set (inv := 3696798301).
  assert (forall i, i mod two32 = ((t - a) * inv) mod two32 -> rng_at a i = t) as Hok.
  { intros i Hi. unfold rng_at, to_uint32.
    transitivity ((a + (t - a)) mod two32);
      [|replace (a + (t - a)) with t by lia; by apply Z.mod_small].
    rewrite (Zplus_mod a (i * _)), (Zplus_mod a (t - a)). f_equal. f_equal.
    rewrite Zmult_mod, Hi, <- Zmult_mod, <- Z.mul_assoc.
    rewrite Zmult_mod. replace ((inv * 1831565813) mod two32) with 1 by reflexivity.
    by rewrite Z.mul_1_r, Z.mod_mod. }
  set (n := ((t - a) * inv) mod two32).
  assert (0 <= n < two32) by (apply Z.mod_pos_bound; reflexivity).
  destruct (decide (n = 0)) as [H0|Hn].
  - exists two32. split; [unfold two32; lia|]. apply Hok. fold n. by rewrite H0.
  - exists n. split; [lia|]. apply Hok. unfold n. by rewrite Z.mod_mod.
Qed.

(** [n] draws, one more draw. *)
Fixpoint rng_iter (n : nat) (a : Z) : Z :=
  match n with O => a | S n' => rng_iter n' (rng_next a).2 end.

Lemma rng_iter_S n a : rng_iter (S n) a = (rng_next (rng_iter n a)).2.
Proof. revert a. induction n as [|n IH]; intros a; [done|]. cbn [rng_iter] in *. by rewrite IH. Qed.

Lemma rng_draws_S n a : rng_draws (S n) a = rng_draws n a ++ [(rng_next (rng_iter n a)).1].
Proof.
  revert a. induction n as [|n IH]; intros a; [done|].
  cbn [rng_draws] in *. by rewrite IH.
Qed.
