(* ===== verification/CardEngine.v ===== *)
(** * [packages/game-core/src/card-engine.ts]: offers and effect resolution *)

From S2P Require Import Prelude JsData Effects Shared Cards Prng.
#[local] Open Scope Z_scope.

(** ** Bounded iteration

    [pos_loop f p s] runs the loop body [f] at most [p] times, stopping at the
    first exit [inr]; the fuel is binary, so a large bound costs nothing. *)
Fixpoint pos_loop {S R} (f : S -> S + R) (p : positive) (s : S) : S + R :=
  match p with
  | xH => f s
  | xO p' =>
      match pos_loop f p' s with
      | inl s' => pos_loop f p' s'
      | inr r => inr r
      end
  | xI p' =>
      match f s with
      | inl s1 =>
          match pos_loop f p' s1 with
          | inl s' => pos_loop f p' s'
          | inr r => inr r
          end
      | inr r => inr r
      end
  end.

(** ** Tier selection

    A float of the generator is [k / 2^32].  The weights are the doubles
    nearest to 0.6 and 0.3, in units of 2^-53 and 2^-54; their sum is rounded
    to nearest, ties to even, as the double addition of the source is. *)
Definition WEIGHT_COMMON_53 : Z := 5404319552844595.
Definition WEIGHT_RARE_54 : Z := 5404319552844595.

Definition half_even (n : Z) : Z :=
  let q := n / 2 in if Z.even n then q else if Z.even q then q else q + 1.

Definition WEIGHT_COMMON_PLUS_RARE_53 : Z := half_even (2 * WEIGHT_COMMON_53 + WEIGHT_RARE_54).

Definition selectTier (k : Z) : CardTier :=
  if k * 2 ^ 21 <? WEIGHT_COMMON_53 then COMMON
  else if k * 2 ^ 21 <? WEIGHT_COMMON_PLUS_RARE_53 then RARE
  else EPIC.

(** [Math.floor(u * n)] for [u = k / 2^32]. *)
Definition floor_scaled (k n : Z) : Z := k * n / two32.

(** ** [sampleOffer] *)

Inductive Purpose := TIER | CARD.

Record SamplingStep := mkStep {
  sp_float : Z;
  sp_purpose : Purpose;
  sp_tier : option CardTier;
  sp_cardIndex : option Z;
  sp_retry : bool;
  sp_drawnCardId : option CardId;
}.

Record SamplingResult := mkSampling {
  sr_cards : list CardId;
  sr_steps : list SamplingStep;
}.

Definition SAMPLE_OFFER_COUNT : nat := 3.

Abbreviation TierPools := (JsMap CardTier (list CardId)).

Definition pool_of (tier : CardTier) (remaining : TierPools) : list CardId :=
  default [] (map_get tier remaining).

Definition initial_pools (poolIds : list CardId) : TierPools :=
  (fun tier =>
     (tier, js_sort compareCardId
              (filter (fun id => cd_tier (card_def id) = tier) poolIds)))
  <$> [COMMON; RARE; EPIC].

Definition totalRemaining (remaining : TierPools) : Z :=
  Zsum ((fun kv => Z.of_nat (length kv.2)) <$> remaining).

(** The [while (true)] that picks a tier with cards left.  State: generator,
    [retry] flag, trace. *)
Definition tier_body (remaining : TierPools) (st : Z * bool * list SamplingStep)
    : (Z * bool * list SamplingStep) + (CardTier * Z * list SamplingStep) :=
  let '(rng, retry, steps) := st in
  let '(u, rng') := rng_next rng in
  let tier := selectTier u in
  if 0 <? Z.of_nat (length (pool_of tier remaining))
  then inr (tier, rng', steps ++ [mkStep u TIER (Some tier) None retry None])
  else inl (rng', true, steps ++ [mkStep u TIER (Some tier) None true None]).

(** The generator has period 2^32, so this many draws reach every tier. *)
Definition TIER_FUEL : positive := 4294967296.

Definition pick_tier (remaining : TierPools) (rng : Z) (steps : list SamplingStep)
    : outcome exn (CardTier * Z * list SamplingStep) :=
  match pos_loop (tier_body remaining) TIER_FUEL (rng, false, steps) with
  | inr r => Ok r
  | inl _ => Throw (JsError "sampleOffer: no tier within the period")
  end.

(** One iteration of the draw loop, the exhaustion test excluded. *)
Definition draw_card (remaining : TierPools) (rng : Z) (cards : list CardId)
    (steps : list SamplingStep)
    : outcome exn (TierPools * Z * list CardId * list SamplingStep) :=
  match pick_tier remaining rng steps with
  | Throw e => Throw e
  | Ok (tier, rng1, steps1) =>
      let tierList := pool_of tier remaining in
      let '(u2, rng2) := rng_next rng1 in
      let idx := floor_scaled u2 (Z.of_nat (length tierList)) in
      match js_nth tierList idx with
      | None => Throw (JsError "card-engine invariant: tier list empty after TIER pick")
      | Some drawnCardId =>
          Ok (map_set tier (delete (Z.to_nat idx) tierList) remaining, rng2,
              cards ++ [drawnCardId],
              steps1 ++ [mkStep u2 CARD None (Some idx) false (Some drawnCardId)])
      end
  end.

Fixpoint draw_loop (draws : nat) (remaining : TierPools) (rng : Z) (cards : list CardId)
    (steps : list SamplingStep) : outcome exn SamplingResult :=
  match draws with
  | O => Ok (mkSampling cards steps)
  | S draws' =>
      if totalRemaining remaining =? 0 then Ok (mkSampling cards steps)
      else
        match draw_card remaining rng cards steps with
        | Throw e => Throw e
        | Ok (remaining', rng', cards', steps') =>
            draw_loop draws' remaining' rng' cards' steps'
        end
  end.

Definition class_str (classId : ClassId) : jstr :=
  match classId with ATTACK => js "ATTACK" | DEFENSE => js "DEFENSE" end.

Definition sampleOffer (classId : ClassId) (seed : jstr) (customPool : option (list CardId))
    : outcome exn SamplingResult :=
  let substreamSeed := deriveSubstream seed (js "card|" ++ class_str classId) in
  let rng := mulberry32 substreamSeed in
  let poolIds := default (getClassPool classId) customPool in
  draw_loop SAMPLE_OFFER_COUNT (initial_pools poolIds) rng [] [].

(** ** Effect resolution *)

Definition correctOptionIndex (options : list jstr) (correctAnswer : jstr) : outcome exn Z :=
  let idx := index_of correctAnswer options in
  if idx =? -1
  then Throw (JsError "card-engine: correct answer not found in question options")
  else Ok idx.

(** The shared picking loop: [count] times, one float, [splice(idx, 1)]. *)
Fixpoint pick_loop {A} (count : nat) (remaining picked : list A) (rng : Z)
    : outcome exn (list A * Z) :=
  match count with
  | O => Ok (picked, rng)
  | S count' =>
      let '(u, rng') := rng_next rng in
      let idx := floor_scaled u (Z.of_nat (length remaining)) in
      match js_nth remaining idx with
      | None => Throw (JsError "card-engine invariant: remaining[] drained mid-resolve")
      | Some chosen =>
          pick_loop count' (delete (Z.to_nat idx) remaining) (picked ++ [chosen]) rng'
      end
  end.

Definition wrong_indexes (options : list jstr) (correctAnswer : jstr) : list Z :=
  (filter (fun vi => vi.1 ≠ correctAnswer) (imap (fun i value => (value, Z.of_nat i)) options)).*2.

Definition resolveOptionDisable (count durationMs : Z) (options : list jstr)
    (correctAnswer : jstr) (rng : Z) : outcome exn (CardEffect * Z) :=
  let wrongIndexes := wrong_indexes options correctAnswer in
  let availableAtResolution := Z.of_nat (length wrongIndexes) in
  let effectiveCount := Z.min count availableAtResolution in
  match pick_loop (Z.to_nat effectiveCount) wrongIndexes [] rng with
  | Throw e => Throw e
  | Ok (picked, rng') => Ok (OPTION_DISABLE picked count availableAtResolution durationMs, rng')
  end.

Definition resolveHandDestroy (count : Z) (targetHand : list CardId) (rng : Z)
    : outcome exn (CardEffect * Z) :=
  let sortedHand := js_sort compareCardId targetHand in
  let availableAtResolution := Z.of_nat (length sortedHand) in
  let effectiveCount := Z.min count availableAtResolution in
  match pick_loop (Z.to_nat effectiveCount) sortedHand [] rng with
  | Throw e => Throw e
  | Ok (destroyed, rng') => Ok (HAND_DESTROY count availableAtResolution destroyed, rng')
  end.

Record ResolveCtx := mkCtx {
  ctx_targetHand : option (list CardId);
  ctx_options : option (list jstr);
  ctx_correctAnswer : option jstr;
  ctx_currentRoundNo : option Z;
}.

Definition resolveCardEffect (cardId : CardId) (template : CardEffectTemplate) (rng : Z)
    (ctx : ResolveCtx) : outcome exn (CardEffect * Z) :=
  match getCardDefinition cardId with
  | Throw e => Throw e
  | Ok def =>
    if negb (bool_decide (template_kind (cd_effectTemplate def) = template_kind template))
    then Throw (JsError "card-engine: template kind mismatch")
    else
      match template with
      | T_OPTION_DISABLE_TEMPLATE count durationMs =>
          match ctx_options ctx, ctx_correctAnswer ctx with
          | Some options, Some correctAnswer =>
              resolveOptionDisable count durationMs options correctAnswer rng
          | _, _ => Throw (JsError
              "card-engine: OPTION_DISABLE_TEMPLATE requires options + correctAnswer")
          end
      | T_HAND_DESTROY_TEMPLATE count =>
          match ctx_targetHand ctx with
          | Some hand => resolveHandDestroy count hand rng
          | None => Throw (JsError "card-engine: HAND_DESTROY_TEMPLATE requires targetHand")
          end
      | T_TIMER_MODIFY deltaMs targetCount => Ok (TIMER_MODIFY deltaMs targetCount, rng)
      | T_OPTION_FAKE indexes durationMs => Ok (OPTION_FAKE indexes durationMs, rng)
      | T_OPTION_LOCK durationMs => Ok (OPTION_LOCK durationMs, rng)
      | T_HINT_REVEAL_TEMPLATE count =>
          match ctx_correctAnswer ctx with
          | Some correctAnswer => Ok (HINT_REVEAL (slice_to correctAnswer count), rng)
          | None => Throw (JsError
              "card-engine: HINT_REVEAL_TEMPLATE requires ctx.correctAnswer")
          end
      | T_DELAY_RENDER delayMs targetCount => Ok (DELAY_RENDER delayMs targetCount, rng)
      | T_VISUAL_OVERLAY flag durationMs => Ok (VISUAL_OVERLAY flag durationMs, rng)
      | T_SEMANTIC_FLIP durationMs => Ok (SEMANTIC_FLIP durationMs, rng)
      | T_QUESTION_REPLAY extraMs => Ok (QUESTION_REPLAY extraMs, rng)
      | T_SHIELD_TEMPLATE offset =>
          match ctx_currentRoundNo ctx with
          | Some roundNo => Ok (SHIELD (roundNo + offset), rng)
          | None => Throw (JsError "card-engine: SHIELD_TEMPLATE requires ctx.currentRoundNo")
          end
      | T_SCORE_MULT factor => Ok (SCORE_MULT factor, rng)
      | T_SECOND_CHANCE => Ok (SECOND_CHANCE, rng)
      end
  end.

(** ** Conformance: the vectors of cards.sampling-vectors.ts *)

Definition offered (cls : ClassId) (seed : jstr) : option (list CardId) :=
  match sampleOffer cls seed None with Ok r => Some (sr_cards r) | Throw _ => None end.

Definition offered_trace (cls : ClassId) (seed : jstr)
    : list (option CardTier * option Z * bool) :=
  match sampleOffer cls seed None with
  | Ok r => map (fun s => (sp_tier s, sp_cardIndex s, sp_retry s)) (sr_steps r)
  | Throw _ => []
  end.

Example vector_attack_class_happy :
  offered ATTACK (js "match-1|ATTACK-player-1") = Some [CB_4; CB_2; CB_7].
Proof. by_compute. Qed.
Example vector_attack_class_happy_trace :
  offered_trace ATTACK (js "match-1|ATTACK-player-1")
  = [(Some RARE, None, false); (None, Some 0, false); (Some COMMON, None, false);
     (None, Some 1, false); (Some COMMON, None, false); (None, Some 3, false)].
Proof. by_compute. Qed.
Example vector_defense_class_happy :
  offered DEFENSE (js "match-1|DEFENSE-player-1") = Some [TN_3; TN_6; TN_9].
Proof. by_compute. Qed.
Example vector_shared_seed_attack :
  offered ATTACK (js "shared-seed-1") = Some [CB_4; CB_8; CB_2].
Proof. by_compute. Qed.
Example vector_shared_seed_defense :
  offered DEFENSE (js "shared-seed-1") = Some [TN_3; TN_6; TN_5].
Proof. by_compute. Qed.

(** ** Tier selection is the 60/30/10 contract *)

(** Rounding the weights to doubles does not move a boundary: on every float
    of the generator the tier is that of the decimal contract. *)
Lemma selectTier_exact k :
  0 <= k < two32 ->
  selectTier k = if 10 * k <? 6 * two32 then COMMON
                 else if 10 * k <? 9 * two32 then RARE else EPIC.
Proof.
  unfold selectTier, two32. change WEIGHT_COMMON_PLUS_RARE_53 with 8106479329266892.
  unfold WEIGHT_COMMON_53. change (2 ^ 21) with 2097152. intros Hk.
  repeat case_match; bool_to_prop; lia || done.
Qed.

Lemma floor_scaled_range k n : 0 <= k < two32 -> 0 < n -> 0 <= floor_scaled k n < n.
Proof.
  intros Hk Hn. unfold floor_scaled. split.
  - apply Z.div_pos; unfold two32 in *; nia.
  - apply Z.div_lt_upper_bound; unfold two32 in *; nia.
Qed.

(** ** The tier loop terminates *)

Definition tier_of_state (a : Z) : CardTier := selectTier (rng_mix a).

Lemma tier_reachable tier : exists t, 0 <= t < two32 /\ tier_of_state t = tier.
Proof.
  destruct tier; [exists 0|exists 226|exists 249]; split; try (unfold two32; lia); by_compute.
Qed.

Lemma tier_loop_inl remaining p a r st a' r' st' :
  pos_loop (tier_body remaining) p (a, r, st) = inl (a', r', st') ->
  a' = rng_at a (Z.pos p) /\
  forall i, 1 <= i <= Z.pos p -> pool_of (tier_of_state (rng_at a i)) remaining = [].
Proof.
  assert (forall a r st a' r' st', tier_body remaining (a, r, st) = inl (a', r', st') ->
    a' = rng_at a 1 /\ pool_of (tier_of_state (rng_at a 1)) remaining = []) as Hstep.
  { clear. intros a r st a' r' st'. unfold tier_body, tier_of_state.
    rewrite <- rng_next_at. unfold rng_next. cbn [fst snd].
    destruct (0 <? _) eqn:E; [done|]. intros [= <- _ _].
    split; [done|]. bool_to_prop.
    apply nil_length_inv. lia. }
  revert a r st a' r' st'. induction p as [p IH|p IH|]; intros a r st a' r' st'; cbn [pos_loop].
  - destruct (tier_body _ _) as [[[a1 r1] st1]|] eqn:E1; [|done].
    destruct (pos_loop _ p _) as [[[a2 r2] st2]|] eqn:E2; [|done]. intros E3.
    apply Hstep in E1 as [-> H1]. apply IH in E2 as [-> H2], E3 as [-> H3].
    rewrite !rng_at_at in *. split; [f_equal; lia|]. intros i Hi.
    destruct (decide (i = 1)) as [->|]; [done|].
    destruct (decide (i <= 1 + Z.pos p)).
    + replace i with (1 + (i - 1)) by lia. rewrite <- rng_at_at. apply H2. lia.
    + replace i with (1 + Z.pos p + (i - 1 - Z.pos p)) by lia.
      rewrite <- rng_at_at. apply H3. lia.
  - destruct (pos_loop _ p _) as [[[a2 r2] st2]|] eqn:E2; [|done]. intros E3.
    apply IH in E2 as [-> H2], E3 as [-> H3].
    rewrite !rng_at_at in *. split; [f_equal; lia|]. intros i Hi.
    destruct (decide (i <= Z.pos p)); [apply H2; lia|].
    replace i with (Z.pos p + (i - Z.pos p)) by lia. rewrite <- rng_at_at. apply H3. lia.
  - intros [-> H]%Hstep. split; [done|]. intros i ?. by replace i with 1 by lia.
Qed.

(** An exit of the loop satisfies any property that every iteration keeps. *)
Lemma pos_loop_inr {S R} (f : S -> S + R) (P : S -> Prop) (Q : R -> Prop) p s r :
  (forall s s', P s -> f s = inl s' -> P s') ->
  (forall s r, P s -> f s = inr r -> Q r) ->
  P s -> pos_loop f p s = inr r -> Q r.
Proof.
  intros Hl Hr. revert s.
  assert (forall p s s', P s -> pos_loop f p s = inl s' -> P s') as Hloop.
  { clear p. induction p as [p IH|p IH|]; intros s s' HP; cbn; [| |by apply Hl].
    - destruct (f s) eqn:E; [|done]. destruct (pos_loop f p _) eqn:E'; [|done]. eauto.
    - destruct (pos_loop f p s) eqn:E'; [|done]. eauto. }
  induction p as [p IH|p IH|]; intros s HP; cbn.
  - destruct (f s) eqn:E; [|intros [= ->]; eauto].
    destruct (pos_loop f p _) eqn:E'; [|intros [= ->]; eauto]. eauto.
  - destruct (pos_loop f p s) eqn:E'; [|intros [= ->]; eauto]. eauto.
  - eauto.
Qed.

(** ** The trace records every float drawn, in order *)

Definition trace_ok (a0 : Z) (steps : list SamplingStep) (rng : Z) : Prop :=
  sp_float <$> steps = rng_draws (length steps) a0 /\ rng = rng_iter (length steps) a0.

Lemma trace_ok_snoc a0 steps rng s :
  trace_ok a0 steps rng -> sp_float s = (rng_next rng).1 ->
  trace_ok a0 (steps ++ [s]) (rng_next rng).2.
Proof.
  intros [H1 ->] Hs. unfold trace_ok. rewrite fmap_app, length_app, H1, Nat.add_1_r.
  rewrite rng_draws_S, rng_iter_S. cbn [fmap list_fmap]. by rewrite Hs.
Qed.

Lemma pick_tier_spec remaining rng steps a0 :
  (exists tier, pool_of tier remaining ≠ []) -> trace_ok a0 steps rng ->
  exists tier rng' steps',
    pick_tier remaining rng steps = Ok (tier, rng', steps')
    /\ pool_of tier remaining ≠ [] /\ trace_ok a0 steps' rng'
    /\ omap sp_drawnCardId steps' = omap sp_drawnCardId steps.
Proof.
  intros [T HT] Htr. unfold pick_tier.
  destruct (pos_loop _ _ _) as [[[a' r'] st']|[[tier rng'] steps']] eqn:E.
  - exfalso. apply tier_loop_inl in E as [_ Hall].
    destruct (tier_reachable T) as (t & Ht & <-).
    destruct (rng_at_reaches rng t Ht) as (i & Hi & <-).
    apply HT, Hall. unfold TIER_FUEL, two32 in *. lia.
  - exists tier, rng', steps'. split; [done|].
    apply (pos_loop_inr (tier_body remaining)
      (fun s => trace_ok a0 s.2 s.1.1 /\ omap sp_drawnCardId s.2 = omap sp_drawnCardId steps)
      (fun r => pool_of r.1.1 remaining ≠ [] /\ trace_ok a0 r.2 r.1.2
                /\ omap sp_drawnCardId r.2 = omap sp_drawnCardId steps)) in E; [done| | |done].
    + intros [[a r] st] s' [H1 H2]. unfold tier_body.
      destruct (rng_next a) as [u a1] eqn:Ea. case_match; [done|]. intros [= <-].
      cbn in H1, H2 |- *. split; [|by rewrite omap_app, H2, app_nil_r].
      replace a1 with (rng_next a).2 by (by rewrite Ea).
      apply trace_ok_snoc; [done|]. by rewrite Ea.
    + intros [[a r] st] s' [H1 H2]. unfold tier_body.
      destruct (rng_next a) as [u a1] eqn:Ea. case_match eqn:Ep; [|done]. intros [= <-].
      cbn in H1, H2 |- *. bool_to_prop. split_and!; [by intros Hn; rewrite Hn in Ep| |].
      * replace a1 with (rng_next a).2 by (by rewrite Ea).
        apply trace_ok_snoc; [done|]. by rewrite Ea.
      * by rewrite omap_app, H2, app_nil_r.
Qed.

(** ** Drawing without replacement *)

Definition pools3 (l1 l2 l3 : list CardId) : TierPools := [(COMMON, l1); (RARE, l2); (EPIC, l3)].

Lemma totalRemaining_pools3 l1 l2 l3 :
  totalRemaining (pools3 l1 l2 l3) = Z.of_nat (length (l1 ++ l2 ++ l3)).
Proof. unfold totalRemaining, pools3. cbn. rewrite !length_app. lia. Qed.

Lemma js_nth_delete {A} (l : list A) i x : js_nth l i = Some x -> l ≡ₚ x :: delete (Z.to_nat i) l.
Proof. unfold js_nth. case_match; [done|]. apply delete_Permutation. Qed.

Lemma js_nth_in_range {A} (l : list A) i :
  0 <= i < Z.of_nat (length l) -> exists x, js_nth l i = Some x.
Proof.
  intros Hi. unfold js_nth. rewrite (proj2 (Z.ltb_ge _ _)) by lia.
  destruct (l !! Z.to_nat i) eqn:E; [by eexists|]. apply lookup_ge_None in E. lia.
Qed.

(** A pick at a random index of a non-empty list succeeds. *)
Lemma random_index_ok {A} (l : list A) rng :
  l ≠ [] -> exists x, js_nth l (floor_scaled (rng_next rng).1 (Z.of_nat (length l))) = Some x.
Proof.
  intros Hl. apply js_nth_in_range, floor_scaled_range; [apply rng_next_range|].
  destruct l; [done|cbn; lia].
Qed.

(** Taking [x] out of the pool of one tier takes it out of the whole. *)
Lemma pools3_take tier l1 l2 l3 x l' :
  pool_of tier (pools3 l1 l2 l3) ≡ₚ x :: l' ->
  exists l1' l2' l3', map_set tier l' (pools3 l1 l2 l3) = pools3 l1' l2' l3'
    /\ l1 ++ l2 ++ l3 ≡ₚ x :: l1' ++ l2' ++ l3'.
Proof.
  destruct tier; cbn; intros Hp.
  - exists l', l2, l3. split; [done|]. by rewrite Hp.
  - exists l1, l', l3. split; [done|]. rewrite Hp. cbn. by rewrite <- Permutation_middle.
  - exists l1, l2, l'. split; [done|]. rewrite Hp.
    rewrite (Permutation_app_comm l2 (x :: l')), (Permutation_app_comm l2 l').
    cbn. by rewrite <- Permutation_middle.
Qed.

Lemma pools3_nonempty l1 l2 l3 :
  l1 ++ l2 ++ l3 ≠ [] -> exists tier, pool_of tier (pools3 l1 l2 l3) ≠ [].
Proof.
  destruct l1 as [|? ?]; [|by exists COMMON]. destruct l2 as [|? ?]; [|by exists RARE].
  by exists EPIC.
Qed.

Lemma draw_card_spec l1 l2 l3 rng cards steps a0 :
  l1 ++ l2 ++ l3 ≠ [] -> trace_ok a0 steps rng ->
  exists id l1' l2' l3' rng' steps',
    draw_card (pools3 l1 l2 l3) rng cards steps
      = Ok (pools3 l1' l2' l3', rng', cards ++ [id], steps')
    /\ l1 ++ l2 ++ l3 ≡ₚ id :: l1' ++ l2' ++ l3'
    /\ trace_ok a0 steps' rng'
    /\ omap sp_drawnCardId steps' = omap sp_drawnCardId steps ++ [id].
Proof.
  intros Hne Htr. unfold draw_card.
  destruct (pick_tier_spec (pools3 l1 l2 l3) rng steps a0) as
    (tier & rng1 & steps1 & -> & Hpool & Htr1 & Hom); [by apply pools3_nonempty|done|].
  destruct (rng_next rng1) as [u2 rng2] eqn:Er.
  destruct (random_index_ok (pool_of tier (pools3 l1 l2 l3)) rng1 Hpool) as (x & Hx).
  rewrite Er in Hx. cbn [fst] in Hx. rewrite Hx.
  destruct (pools3_take _ _ _ _ _ _ (js_nth_delete _ _ _ Hx)) as (l1' & l2' & l3' & -> & Hp).
  eexists x, l1', l2', l3', rng2, _. split_and!; [done|done| |].
  - replace rng2 with (rng_next rng1).2 by (by rewrite Er).
    apply trace_ok_snoc; [done|]. by rewrite Er.
  - rewrite omap_app, Hom. done.
Qed.

Lemma draw_loop_spec n l1 l2 l3 rng cards steps a0 :
  trace_ok a0 steps rng -> omap sp_drawnCardId steps = cards ->
  exists r left,
    draw_loop n (pools3 l1 l2 l3) rng cards steps = Ok r
    /\ (exists new, sr_cards r = cards ++ new /\ new ++ left ≡ₚ l1 ++ l2 ++ l3
                    /\ length new = Nat.min n (length (l1 ++ l2 ++ l3)))
    /\ omap sp_drawnCardId (sr_steps r) = sr_cards r
    /\ sp_float <$> sr_steps r = rng_draws (length (sr_steps r)) a0.
Proof.
  revert l1 l2 l3 rng cards steps. induction n as [|n IH]; intros * Htr Hom; cbn [draw_loop].
  - eexists _, (l1 ++ l2 ++ l3). split; [done|]. destruct Htr as [Hf _].
    split_and!; [by exists []; rewrite app_nil_r|done..].
  - rewrite totalRemaining_pools3. destruct (_ =? 0) eqn:E; bool_to_prop.
    + assert (l1 ++ l2 ++ l3 = []) as Hnil by (apply nil_length_inv; lia).
      eexists _, []. split; [done|]. destruct Htr as [Hf _]. rewrite Hnil.
      split_and!; [by exists []; rewrite app_nil_r|done..].
    + destruct (draw_card_spec l1 l2 l3 rng cards steps a0) as
        (id & l1' & l2' & l3' & rng' & steps' & -> & Hp & Htr' & Hom'); [|done|].
      { intros Hn. by rewrite Hn in E. }
      destruct (IH l1' l2' l3' rng' (cards ++ [id]) steps' Htr') as
        (r & left & -> & (new & Hr & Hnew & Hlen) & Hd & Hf); [by rewrite Hom', Hom|].
      exists r, left. split_and!; [done| |done|done].
      exists (id :: new). split_and!; [by rewrite Hr, <- app_assoc| |].
      * cbn. by rewrite Hnew, Hp.
      * rewrite (Permutation_length Hp). cbn [length]. rewrite Hlen. lia.
Qed.

Lemma initial_pools_pools3 poolIds :
  exists l1 l2 l3, initial_pools poolIds = pools3 l1 l2 l3 /\ l1 ++ l2 ++ l3 ≡ₚ poolIds.
Proof.
  eexists _, _, _. split; [reflexivity|]. rewrite !js_sort_perm.
  induction poolIds as [|id ids IH]; [done|]. rewrite !filter_cons.
  transitivity (id :: filter (fun id => cd_tier (card_def id) = COMMON) ids
    ++ filter (fun id => cd_tier (card_def id) = RARE) ids
    ++ filter (fun id => cd_tier (card_def id) = EPIC) ids); [|by rewrite IH].
  destruct (cd_tier (card_def id)); repeat (case_decide; try done); cbn [app].
  - by rewrite <- Permutation_middle.
  - by rewrite app_assoc, <- Permutation_middle, <- app_assoc.
Qed.

Lemma pick_loop_spec {A} n (remaining picked : list A) rng :
  (n <= length remaining)%nat ->
  exists new left rng', pick_loop n remaining picked rng = Ok (picked ++ new, rng')
    /\ new ++ left ≡ₚ remaining /\ length new = n.
Proof.
  revert remaining picked rng. induction n as [|n IH]; intros * Hn; cbn [pick_loop].
  - exists [], remaining, rng. by rewrite app_nil_r.
  - destruct (random_index_ok remaining rng) as (x & Hx); [by destruct remaining; cbn in *; [lia|]|].
    destruct (rng_next rng) as [u rng']. cbn [fst] in Hx. rewrite Hx.
    pose proof (js_nth_delete _ _ _ Hx) as Hp.
    destruct (IH (delete (Z.to_nat (floor_scaled u (Z.of_nat (length remaining)))) remaining)
                 (picked ++ [x]) rng') as (new & left & rng'' & -> & Hnew & Hlen).
    { apply Permutation_length in Hp. cbn in Hp. lia. }
    exists (x :: new), left, rng''. rewrite <- app_assoc. split_and!; [done| |cbn; lia].
    cbn. rewrite Hnew. by symmetry.
Qed.

Lemma elem_of_wrong_indexes options correct i :
  i ∈ wrong_indexes options correct <->
  0 <= i /\ exists v, options !! Z.to_nat i = Some v /\ v ≠ correct.
Proof.
  unfold wrong_indexes. rewrite list_elem_of_fmap. split.
  - intros ([v j] & -> & Hin). apply list_elem_of_filter in Hin as [Hv Hin]. cbn in *.
    apply list_elem_of_lookup in Hin as (k & Hk). rewrite list_lookup_imap in Hk.
    destruct (options !! k) as [w|] eqn:E; [|done]. cbn in Hk. injection Hk as -> <-.
    split; [lia|]. rewrite Nat2Z.id. eauto.
  - intros (Hi & v & Hv & Hne). exists (v, i). split; [done|].
    apply list_elem_of_filter. split; [done|]. apply list_elem_of_lookup.
    exists (Z.to_nat i). rewrite list_lookup_imap, Hv. cbn. by rewrite Z2Nat.id.
Qed.

Lemma wrong_indexes_NoDup options correct : NoDup (wrong_indexes options correct).
Proof.
  unfold wrong_indexes. apply NoDup_fmap_2_strong.
  - intros [v i] [w j] [_ Hi]%list_elem_of_filter [_ Hj]%list_elem_of_filter. cbn. intros <-.
    apply list_elem_of_lookup in Hi as (k & Hk), Hj as (k' & Hk').
    rewrite list_lookup_imap in Hk, Hk'.
    destruct (options !! k) eqn:E; [|done]. destruct (options !! k') eqn:E'; [|done].
    cbn in *. injection Hk as <- <-. injection Hk' as <- Hkk.
    apply Nat2Z.inj in Hkk as ->. congruence.
  - apply NoDup_filter, NoDup_alt. intros i j [v k] Hi Hj.
    rewrite list_lookup_imap in Hi, Hj.
    destruct (options !! i) eqn:E; [|done]. destruct (options !! j) eqn:E'; [|done].
    cbn in *. injection Hi as -> <-. injection Hj as _ Hk. lia.
Qed.

(** ** Properties *)

(** C40: an offer always terminates and never throws, whatever the seed and the
    pool: it draws [min 3 (pool size)] cards without replacement from the pool,
    its trace lists the drawn cards, and the floats of the trace are exactly the
    consecutive outputs of the generator seeded with the ["card|CLASS"]
    substream. *)
Theorem sampleOffer_spec cls seed pool :
  exists r left,
    sampleOffer cls seed pool = Ok r
    /\ sr_cards r ++ left ≡ₚ default (getClassPool cls) pool
    /\ length (sr_cards r) = Nat.min 3 (length (default (getClassPool cls) pool))
    /\ omap sp_drawnCardId (sr_steps r) = sr_cards r
    /\ sp_float <$> sr_steps r
       = rng_draws (length (sr_steps r))
           (mulberry32 (deriveSubstream seed (js "card|" ++ class_str cls))).
Proof.
  unfold sampleOffer. generalize (mulberry32 (deriveSubstream seed (js "card|" ++ class_str cls))).
  generalize (default (getClassPool cls) pool). intros ids rng.
  destruct (initial_pools_pools3 ids) as (l1 & l2 & l3 & -> & Hp).
  destruct (draw_loop_spec SAMPLE_OFFER_COUNT l1 l2 l3 rng [] [] rng)
    as (r & left & -> & (new & Hr & Hnew & Hlen) & Hd & Hf); [split; reflexivity|reflexivity|].
  exists r, left. rewrite Hr, app_nil_l, Hnew, Hlen, (Permutation_length Hp).
  split_and!; [done|done|done|by rewrite Hd, Hr|done].
Qed.

(** The double arithmetic of the tier weights (0.6, and 0.6 + 0.3 which
    rounds below 0.9) selects, for every float of the generator, the tier of the
    decimal 60/30/10 contract. *)
Theorem selectTier_contract k :
  0 <= k < two32 ->
  selectTier k = if 10 * k <? 6 * two32 then COMMON
                 else if 10 * k <? 9 * two32 then RARE else EPIC.
Proof. apply selectTier_exact. Qed.

Lemma selectTier_contract_witness :
  0 <= 3865470566 < two32 /\ selectTier 3865470566 = RARE /\ selectTier 3865470567 = EPIC.
Proof.
  split; [unfold two32; lia|]. split.
  - rewrite (selectTier_contract 3865470566); [reflexivity|unfold two32; lia].
  - rewrite (selectTier_contract 3865470567); [reflexivity|unfold two32; lia].
Defined.

(** What a resolved effect promises, given the target's hand and the question. *)
Definition effect_sound (hand : list CardId) (options : list jstr) (answer : jstr)
    (e : CardEffect) : Prop :=
  match e with
  | OPTION_DISABLE indexes count available _ =>
      NoDup indexes
      /\ (forall i, i ∈ indexes -> exists v, options !! Z.to_nat i = Some v /\ v ≠ answer)
      /\ Z.of_nat (length indexes) = Z.min count available
      /\ available = Z.of_nat (length (filter (fun v => v ≠ answer) options))
  | HAND_DESTROY count available destroyed =>
      (exists left, destroyed ++ left ≡ₚ hand)
      /\ Z.of_nat (length destroyed) = Z.min count available
      /\ available = Z.of_nat (length hand)
  | HINT_REVEAL partial => partial = take 1 answer
  | _ => True
  end.

Lemma wrong_indexes_length options answer :
  length (wrong_indexes options answer) = length (filter (fun v => v ≠ answer) options).
Proof.
  unfold wrong_indexes. rewrite length_fmap.
  assert (forall (f : nat -> Z), length (filter (fun vi => vi.1 ≠ answer)
    (imap (fun i value => (value, f i)) options)) = length (filter (fun v => v ≠ answer) options))
    as H; [|apply H].
  induction options as [|v options IH]; intros f; [done|]. cbn [imap].
  rewrite !filter_cons. cbn [fst]. case_decide; cbn [length]; [f_equal|]; apply (IH (f ∘ S)).
Qed.

Lemma resolveOptionDisable_sound hand count d options answer rng :
  0 <= count ->
  exists e rng', resolveOptionDisable count d options answer rng = Ok (e, rng')
    /\ effect_kind e = js "OPTION_DISABLE" /\ effect_sound hand options answer e.
Proof.
  intros Hc. unfold resolveOptionDisable.
  edestruct (pick_loop_spec (Z.to_nat (Z.min count (Z.of_nat (length (wrong_indexes options answer)))))
    (wrong_indexes options answer) [] rng) as (new & left & rng' & -> & Hp & Hl); [lia|].
  eexists _, rng'. split_and!; [done|done|]. cbn. split_and!.
  - assert (NoDup (new ++ left)) as [? _]%NoDup_app; [|done].
    rewrite Hp. apply wrong_indexes_NoDup.
  - intros i Hi. apply (elem_of_wrong_indexes options answer i). rewrite <- Hp. set_solver.
  - rewrite Hl. lia.
  - by rewrite wrong_indexes_length.
Qed.

Lemma resolveHandDestroy_sound count hand options answer rng :
  0 <= count ->
  exists e rng', resolveHandDestroy count hand rng = Ok (e, rng')
    /\ effect_kind e = js "HAND_DESTROY" /\ effect_sound hand options answer e.
Proof.
  intros Hc. unfold resolveHandDestroy. rewrite js_sort_length.
  edestruct (pick_loop_spec (Z.to_nat (Z.min count (Z.of_nat (length hand))))
    (js_sort compareCardId hand) [] rng) as (new & left & rng' & -> & Hp & Hl);
    [rewrite js_sort_length; lia|].
  eexists _, rng'. split_and!; [done|done|]. cbn. split_and!; [|lia|done].
  exists left. by rewrite Hp, js_sort_perm.
Qed.

(** With a full context every catalogue card resolves to an effect, and the
    effect is sound: 50:50 and Perfect Recall disable distinct wrong options
    (never the right one) and exactly as many as the supply allows, Burn Card
    destroys cards of the target's hand, Hint Reveal shows one character. *)
Theorem resolveCardEffect_sound id hand options answer roundNo rng :
  exists e rng',
    resolveCardEffect id (cd_effectTemplate (card_def id)) rng
      (mkCtx (Some hand) (Some options) (Some answer) (Some roundNo)) = Ok (e, rng')
    /\ effect_sound hand options answer e.
Proof.
  unfold resolveCardEffect. rewrite getCardDefinition_total.
  rewrite bool_decide_eq_true_2 by done. cbn [negb].
  destruct id;
    match goal with |- context [cd_effectTemplate ?d] =>
      let t := eval vm_compute in (cd_effectTemplate d) in
      change (cd_effectTemplate d) with t
    end; cbn -[resolveOptionDisable resolveHandDestroy slice_to];
    first
      [ edestruct (resolveOptionDisable_sound hand) as (e & rng' & -> & _ & H);
          [|by exists e, rng']; lia
      | edestruct (resolveHandDestroy_sound 1 hand options answer) as (e & rng' & -> & _ & H);
          [|by exists e, rng']; lia
      | eexists _, _; split; [reflexivity|first [exact I|reflexivity]] ].
Qed.

