(* ===== verification/Scoring.v ===== *)
(** * [scoring.ts] and [round-elimination.ts] of packages/game-core *)

From Stdlib Require Import QArith Qround Qabs.
From S2P Require Import Prelude JsData Shared.
#[local] Open Scope Z_scope.

(** ** Scoring

    A response time is an integer number of milliseconds; the speed bonus is
    the exact rational [raw / 200].  Its double differs from it by less than
    2^-47, and a fraction of 200 is at least 1/200 away from the next integer,
    so [Math.floor] of the total is the floor of the rational. *)
Record RoundScore := mkScore { rs_base : Z; rs_speedBonus : Q; rs_total : Q }.

Definition computeRoundScore (responseTimeMs : Z) : RoundScore :=
  let base := GAME_CONFIG.SCORE_BASE_CORRECT in
  let clamped := Z.max 0 responseTimeMs in
  let raw := Z.max 0 (GAME_CONFIG.SCORE_SPEED_BONUS_WINDOW_MS - clamped) in
  let speedBonus := (raw # Z.to_pos GAME_CONFIG.SCORE_SPEED_BONUS_DIVISOR)%Q in
  mkScore base speedBonus (inject_Z base + speedBonus)%Q.

(** [Math.floor(roundScore.total)] *)
Definition floorScore (responseTimeMs : Z) : Z := Qfloor (rs_total (computeRoundScore responseTimeMs)).

Lemma floorScore_eq t : floorScore t = 100 + Z.max 0 (10000 - Z.max 0 t) / 200.
Proof.
  unfold floorScore, computeRoundScore, Qfloor. cbn -[Z.max Z.div Z.mul Z.add].
  set (r := Z.max 0 _).
  change (GAME_CONFIG.SCORE_BASE_CORRECT) with 100.
  replace (100 * 200 + r * 1) with (r + 100 * 200) by lia.
  replace (Z.pos (1 * 200)) with 200 by lia.
  rewrite Z.div_add by lia. lia.
Qed.

(** ** Answer matching *)

Definition norm (s : jstr) : jstr := to_lower (trim s).

Definition same_text (a b : jstr) : bool := bool_decide (to_lower a = to_lower b).

Definition isAnswerMatch (submittedAnswer correctAnswer : option jstr)
    (options : option (list jstr)) : bool :=
  match submittedAnswer, correctAnswer with
  | Some sub, Some corr =>
    if decide (sub = [] \/ corr = []) then false
    else
      let subClean := trim sub in
      let corrClean := trim corr in
      if same_text subClean corrClean then true
      else
        match options with
        | Some ((_ :: _) as options) =>
            let subCodeIdx := index_of (to_upper subClean) ANSWER_CODES in
            let corrCodeIdx := index_of (to_upper corrClean) ANSWER_CODES in
            if (0 <=? subCodeIdx) &&
               match js_nth options subCodeIdx with
               | Some opt => same_text (trim opt) corrClean
               | None => false
               end
            then true
            else if (0 <=? corrCodeIdx) &&
               match js_nth options corrCodeIdx with
               | Some opt => same_text (trim opt) subClean
               | None => false
               end
            then true
            else
              let subIdx := find_index (fun opt => same_text (trim opt) subClean) options in
              let corrIdx := find_index (fun opt => same_text (trim opt) corrClean) options in
              (0 <=? subIdx) && (0 <=? corrIdx) && (subIdx =? corrIdx)
        | _ => false
        end
  | _, _ => false
  end.

(** ** Eliminations *)

Definition is_eliminated (answers : JsMap jstr AnswerState) (options : list jstr)
    (correctAnswer : option jstr) (playerId : jstr) : bool :=
  match map_get playerId answers with
  | None => true
  | Some answer =>
      match an_isCorrect answer with
      | Some b => negb b
      | None => negb (isAnswerMatch (Some (an_answer answer)) correctAnswer (Some options))
      end
  end.

Definition eliminationsForRound (answers : JsMap jstr AnswerState) (options : list jstr)
    (correctAnswer : option jstr) (startingPlayers : list jstr) : list jstr :=
  filter (fun playerId => is_eliminated answers options correctAnswer playerId) startingPlayers.

(** A player stays in when their answer is judged correct. *)
Definition answered_correctly (answers : JsMap jstr AnswerState) (options : list jstr)
    (correctAnswer : option jstr) (playerId : jstr) : bool :=
  match map_get playerId answers with
  | None => false
  | Some answer =>
      match an_isCorrect answer with
      | Some b => b
      | None => isAnswerMatch (Some (an_answer answer)) correctAnswer (Some options)
      end
  end.

Lemma is_eliminated_eq answers options correct p :
  is_eliminated answers options correct p = negb (answered_correctly answers options correct p).
Proof. unfold is_eliminated, answered_correctly. repeat case_match; done. Qed.

(** ** Lemmas *)

Lemma same_text_trans a b c : same_text a b = true -> same_text a c = true -> same_text b c = true.
Proof. unfold same_text. rewrite !bool_decide_eq_true. congruence. Qed.

(** What a submission [s] names, as a specification: the text [t] itself, or
    through its letter the option whose text is [t]. *)
Definition names (options : list jstr) (s t : jstr) : Prop :=
  norm s = norm t \/
  exists i opt, index_of (to_upper (trim s)) ANSWER_CODES = i /\ 0 <= i
    /\ js_nth options i = Some opt /\ norm opt = norm t.

Lemma code_test_spec options s t :
  (0 <=? index_of (to_upper (trim s)) ANSWER_CODES) &&
  match js_nth options (index_of (to_upper (trim s)) ANSWER_CODES) with
  | Some opt => same_text (trim opt) (trim t)
  | None => false
  end = true <->
  exists i opt, index_of (to_upper (trim s)) ANSWER_CODES = i /\ 0 <= i
    /\ js_nth options i = Some opt /\ norm opt = norm t.
Proof.
  rewrite andb_true_iff, Z.leb_le. split.
  - intros [Hi Ho]. destruct (js_nth _ _) as [opt|] eqn:E; [|done].
    apply bool_decide_eq_true_1 in Ho. by eexists _, opt.
  - intros (i & opt & <- & Hi & -> & Ho). split; [done|]. by apply bool_decide_eq_true_2.
Qed.

Lemma find_index_same_text options a b :
  0 <= find_index (fun opt => same_text (trim opt) a) options ->
  find_index (fun opt => same_text (trim opt) a) options
  = find_index (fun opt => same_text (trim opt) b) options ->
  same_text a b = true.
Proof.
  intros Ha Heq. destruct (find_index_Some _ _ Ha) as (x & Hx & Hsx).
  rewrite Heq in Ha. destruct (find_index_Some _ _ Ha) as (y & Hy & Hsy).
  rewrite Heq, Hy in Hx. injection Hx as ->. by eapply same_text_trans.
Qed.

Lemma floorScore_range t : 100 <= floorScore t <= 150.
Proof.
  rewrite floorScore_eq.
  pose proof (Z.div_pos (Z.max 0 (10000 - Z.max 0 t)) 200).
  pose proof (Z.div_le_upper_bound (Z.max 0 (10000 - Z.max 0 t)) 200 50). lia.
Qed.

Lemma isAnswerMatch_iff sub corr options :
  isAnswerMatch (Some sub) (Some corr) (Some options) = true <->
  sub ≠ [] /\ corr ≠ [] /\
  (norm sub = norm corr \/ (options ≠ [] /\ (names options sub corr \/ names options corr sub))).
Proof.
  unfold isAnswerMatch. destruct (decide (sub = [] \/ corr = [])) as [Hnil|Hnil].
  { split; [done|]. intuition. }
  unfold same_text at 1. fold (norm sub) (norm corr).
  destruct (bool_decide_reflect (norm sub = norm corr)) as [Heq|Hne]; [naive_solver|].
  destruct options as [|o os]; [naive_solver|]. set (options := o :: os) in *.
  pose proof (code_test_spec options sub corr) as H1.
  pose proof (code_test_spec options corr sub) as H2.
  destruct ((0 <=? index_of (to_upper (trim sub)) ANSWER_CODES) && _).
  { split; [|done]. intros _. split_and!; [tauto|tauto|]. right. split; [done|]. left. right. tauto. }
  destruct ((0 <=? index_of (to_upper (trim corr)) ANSWER_CODES) && _).
  { split; [|done]. intros _. split_and!; [tauto|tauto|]. right. split; [done|]. right. right. tauto. }
  split.
  - intros H. bool_to_prop. exfalso. apply Hne.
    apply (bool_decide_eq_true_1 (to_lower (trim sub) = to_lower (trim corr))).
    by eapply (find_index_same_text options).
  - unfold names. intuition congruence.
Qed.

(** ** Properties *)

(** [isAnswerMatch] accepts exactly the non-empty answers that name the
    correct answer, or that the correct answer names, by text or by option
    letter; its third test (equal option positions) never adds a case. *)
Theorem isAnswerMatch_spec sub corr options :
  isAnswerMatch (Some sub) (Some corr) (Some options) = true <->
  sub ≠ [] /\ corr ≠ [] /\
  (norm sub = norm corr \/ (options ≠ [] /\ (names options sub corr \/ names options corr sub))).
Proof. apply isAnswerMatch_iff. Qed.

(** A correct answer scores between 100 and 150 points, never less for a
    faster answer; a negative response time counts as zero. *)
Theorem floorScore_bounds t1 t2 :
  t1 <= t2 ->
  100 <= floorScore t2 <= floorScore t1 /\ floorScore t1 <= 150
  /\ (t1 <= 0 -> floorScore t1 = 150) /\ (9800 < t2 -> floorScore t2 = 100).
Proof.
  intros Ht. rewrite !floorScore_eq.
  pose proof (Z.div_le_mono (Z.max 0 (10000 - Z.max 0 t2)) (Z.max 0 (10000 - Z.max 0 t1)) 200).
  pose proof (Z.div_pos (Z.max 0 (10000 - Z.max 0 t2)) 200).
  pose proof (Z.div_le_upper_bound (Z.max 0 (10000 - Z.max 0 t1)) 200 50).
  split_and!; try lia.
  - intros Hneg. replace (Z.max 0 t1) with 0 by lia. done.
  - intros Hslow. rewrite (Z.div_small _ 200); lia.
Qed.

Lemma floorScore_bounds_witness : 0 <= 9801 /\ floorScore 0 = 150 /\ floorScore 9801 = 100.
Proof.
  split; [lia|]. destruct (floorScore_bounds 0 9801) as (_ & _ & H1 & H2); [lia|].
  split; [apply H1; lia|apply H2; lia].
Defined.
