(* ===== verification/TieBreak.v ===== *)
(** * [tie-break.ts]: the deterministic tie-break *)

From S2P Require Import Prelude JsData Shared Prng.
#[local] Open Scope Z_scope.

(** [offsets]: one float per player, in roster order. *)
Definition draw_map (ids : list jstr) (seed : Z) : JsMap jstr Z :=
  map_of_entries (zip ids (rng_draws (length ids) (mulberry32 seed))).

Definition offset_of (offsets : JsMap jstr Z) (id : jstr) : Z := default 0 (map_get id offsets).

(** Statistics of a listed player (players absent from the map are filtered out
    before sorting). *)
Definition time_of (players : JsMap jstr PlayerInfo) (id : jstr) : Z :=
  match map_get id players with Some p => pl_totalResponseTimeMs p | None => 0 end.
Definition correct_of (players : JsMap jstr PlayerInfo) (id : jstr) : Z :=
  match map_get id players with Some p => pl_correctAnswers p | None => 0 end.

Definition tie_cmp (players : JsMap jstr PlayerInfo) (offsets : JsMap jstr Z) : jstr -> jstr -> Z :=
  cmp_then (fun a b => time_of players a - time_of players b)
  (cmp_then (fun a b => correct_of players b - correct_of players a)
  (cmp_then (fun a b => offset_of offsets a - offset_of offsets b) str_cmp)).

Definition resolveTieBreak (playerIds : list jstr) (players : JsMap jstr PlayerInfo)
    (matchId : jstr) : option jstr :=
  let activePlayerIds := filter (fun id => map_has id players) playerIds in
  if decide (activePlayerIds = []) then None
  else
    let seed := hashStringToSeed matchId in
    let offsets := draw_map activePlayerIds seed in
    head (js_sort (tie_cmp players offsets) activePlayerIds).

(** ** Lemmas *)

(** [a] has better statistics than [b]: faster in total, or as fast with more
    correct answers. *)
Definition better (players : JsMap jstr PlayerInfo) (a b : jstr) : Prop :=
  time_of players a < time_of players b \/
  (time_of players a = time_of players b /\ correct_of players b < correct_of players a).

Lemma tie_cmp_le players offsets a b :
  tie_cmp players offsets a b <= 0 -> ¬ better players b a.
Proof. unfold tie_cmp, cmp_then, better. repeat case_match; bool_to_prop; lia. Qed.

Lemma resolveTieBreak_sound ids players matchId :
  match resolveTieBreak ids players matchId with
  | Some w => w ∈ ids /\ map_has w players = true
      /\ forall p, p ∈ ids -> map_has p players = true -> ¬ better players p w
  | None => forall p, p ∈ ids -> map_has p players = false
  end.
Proof.
  unfold resolveTieBreak. set (active := filter _ ids).
  assert (forall p, p ∈ active <-> p ∈ ids /\ map_has p players = true) as Hact.
  { intros p. unfold active. rewrite list_elem_of_filter, Is_true_true. tauto. }
  destruct (decide (active = [])) as [Hnil|Hne].
  - intros p Hp. apply not_true_iff_false. intros Hh.
    assert (p ∈ active) as Hin by (apply Hact; done).
    rewrite Hnil in Hin. by apply elem_of_nil in Hin.
  - set (off := draw_map _ _). destruct (js_sort _ active) as [|w l] eqn:E; cbn.
    { exfalso. apply Hne, Permutation_nil. by rewrite <- E, js_sort_perm. }
    assert (w ∈ active) as Hw.
    { rewrite <- (js_sort_elem (tie_cmp players off)), E. by left. }
    apply Hact in Hw as Hw'. split_and!; [tauto|tauto|].
    intros p Hp Hh. apply (tie_cmp_le players off).
    apply (js_sort_head_le (tie_cmp players off) active w l); [done|by apply Hact].
Qed.

(** ** Properties *)

(** The winner is a listed player known to the match, none of the listed
    known players has better statistics, and there is no winner only when no
    listed player is known. *)
Theorem resolveTieBreak_spec ids players matchId :
  match resolveTieBreak ids players matchId with
  | Some w => w ∈ ids /\ map_has w players = true
      /\ forall p, p ∈ ids -> map_has p players = true -> ¬ better players p w
  | None => forall p, p ∈ ids -> map_has p players = false
  end.
Proof. apply resolveTieBreak_sound. Qed.

