(* ===== verification/TopicVoting.v ===== *)
(** * [topic-voting.ts]: the pre-match crowd ban vote *)

From S2P Require Import Prelude JsData Shared Prng.
#[local] Open Scope Z_scope.

Record TopicVotingResult := mkTopicVotingResult {
  tv_bannedTopics : list jstr;
  tv_activeTopics : list jstr;
  tv_voteCounts : JsMap jstr Z;
}.

(** [pool.map((topic) => ({ topic, roll: rng() }))] *)
Definition with_rolls (l : list jstr) (seed : Z) : list (jstr * Z) :=
  zip l (rng_draws (length l) (mulberry32 seed)).

Definition selectCandidateTopics (seed : jstr) (count : Z) (pool : list jstr) : list jstr :=
  if Z.of_nat (length pool) <=? count then pool
  else
    let substreamSeed := deriveSubstream seed (js "topic-candidates") in
    let indexed := js_sort (fun a b => a.2 - b.2) (with_rolls pool substreamSeed) in
    (slice_to indexed count).*1.

(** The defaults of the parameters: [count = 6] and the configured pool. *)
Definition selectCandidateTopics_default (seed : jstr) : list jstr :=
  selectCandidateTopics seed 6 GAME_CONFIG.TOPIC_VOTING_CANDIDATE_POOL.

Definition tally_step (counts : JsMap jstr Z) (votedTopic : jstr) : JsMap jstr Z :=
  match map_get votedTopic counts with
  | Some n => map_set votedTopic (n + 1) counts
  | None => counts
  end.

Definition tallyTopicVotes (votes : JsMap jstr jstr) (candidateTopics : list jstr)
    : JsMap jstr Z :=
  foldl tally_step (foldl (fun counts topic => map_set topic 0 counts) [] candidateTopics)
    votes.*2.

Definition count_of (counts : JsMap jstr Z) (topic : jstr) : Z := default 0 (map_get topic counts).

Definition ban_cmp (voteCounts tieBreakScores : JsMap jstr Z) : jstr -> jstr -> Z :=
  cmp_then (fun a b => count_of voteCounts b - count_of voteCounts a)
           (fun a b => count_of tieBreakScores b - count_of tieBreakScores a).

Definition resolveBannedTopics (candidateTopics : list jstr) (votes : JsMap jstr jstr)
    (seed : jstr) (bannedCount : Z) : TopicVotingResult :=
  let voteCounts := tallyTopicVotes votes candidateTopics in
  if Z.of_nat (length candidateTopics) <=? bannedCount
  then mkTopicVotingResult candidateTopics [] voteCounts
  else
    let substreamSeed := deriveSubstream seed (js "topic-ban-tiebreak") in
    let sortedCandidates := js_sort str_cmp candidateTopics in
    let tieBreakScores := map_of_entries (with_rolls sortedCandidates substreamSeed) in
    let ranked := js_sort (ban_cmp voteCounts tieBreakScores) candidateTopics in
    mkTopicVotingResult (slice_to ranked bannedCount) (slice_from ranked bannedCount) voteCounts.

(** ** Lemmas *)

(** Number of ballots cast for a topic. *)
Definition ballots (votes : JsMap jstr jstr) (topic : jstr) : Z :=
  Z.of_nat (length (filter (fun t => t = topic) votes.*2)).

Lemma zip_rolls_fst l seed : (with_rolls l seed).*1 = l.
Proof. unfold with_rolls. apply fst_zip. by rewrite rng_draws_length. Qed.

Lemma zero_counts_get (candidates : list jstr) (topic : jstr) :
  map_get topic (foldl (fun (counts : JsMap jstr Z) t => map_set t 0 counts) [] candidates)
  = if decide (topic ∈ candidates) then Some 0 else None.
Proof.
  induction candidates as [|t l IH] using rev_ind; [done|].
  rewrite foldl_app. cbn. destruct (decide (topic = t)) as [->|Hne].
  - rewrite map_get_set_eq, decide_True; [done|set_solver].
  - rewrite map_get_set_ne, IH by done.
    destruct (decide (topic ∈ l)); [rewrite decide_True|rewrite decide_False]; set_solver.
Qed.

Lemma tally_step_get counts voted topic :
  map_get topic (tally_step counts voted)
  = (fun n => n + (if decide (voted = topic) then 1 else 0)) <$> map_get topic counts.
Proof.
  unfold tally_step. destruct (decide (voted = topic)) as [->|Hne].
  - destruct (map_get topic counts) eqn:E; [by rewrite map_get_set_eq|by rewrite E].
  - destruct (map_get voted counts); [rewrite map_get_set_ne by done|];
      destruct (map_get topic counts); cbn; by rewrite ?Z.add_0_r.
Qed.

Lemma tally_get votes candidates topic :
  map_get topic (tallyTopicVotes votes candidates)
  = if decide (topic ∈ candidates) then Some (ballots votes topic) else None.
Proof.
  unfold tallyTopicVotes, ballots. induction votes.*2 as [|v l IH] using rev_ind.
  - cbn. apply zero_counts_get.
  - rewrite foldl_app. cbn. rewrite tally_step_get, IH, filter_app, length_app.
    destruct (decide (topic ∈ candidates)); [cbn|done]. f_equal.
    repeat case_decide; cbn; lia.
Qed.

Lemma ballots_perm votes votes' topic : votes.*2 ≡ₚ votes'.*2 -> ballots votes topic = ballots votes' topic.
Proof. intros H. unfold ballots. by rewrite H. Qed.

(** ** Properties *)

(** The candidates are [count] topics of the pool, each as often as in the
    pool at most (the whole pool, in order, when it is small). *)
Theorem selectCandidateTopics_spec seed count pool :
  0 <= count ->
  exists rest, selectCandidateTopics seed count pool ++ rest ≡ₚ pool
    /\ Z.of_nat (length (selectCandidateTopics seed count pool))
       = Z.min count (Z.of_nat (length pool)).
Proof.
  intros Hc. unfold selectCandidateTopics. destruct (_ <=? _) eqn:E; bool_to_prop.
  - exists []. rewrite app_nil_r. split; [done|]. lia.
  - set (s := js_sort _ _). exists (slice_from s count).*1.
    assert (s ≡ₚ with_rolls pool (deriveSubstream seed (js "topic-candidates"))) as Hs
      by apply js_sort_perm.
    rewrite <- fmap_app, slice_to_from, length_fmap, slice_to_length by done. split.
    + by rewrite Hs, zip_rolls_fst.
    + assert (length s = length pool) as Hl; [|lia].
      by rewrite (Permutation_length Hs), <- (length_fmap fst), zip_rolls_fst.
Qed.

Lemma selectCandidateTopics_spec_witness :
  exists rest, selectCandidateTopics_default (js "m1") ++ rest
    ≡ₚ GAME_CONFIG.TOPIC_VOTING_CANDIDATE_POOL.
Proof.
  destruct (selectCandidateTopics_spec (js "m1") 6 GAME_CONFIG.TOPIC_VOTING_CANDIDATE_POOL)
    as (rest & H & _); [lia|]. by exists rest.
Defined.

(** the vote partitions the candidates into banned and active topics, bans
    [min bannedCount (number of candidates)] of them, no active topic has more
    ballots than a banned one, and the tally of a candidate is the number of
    ballots cast for it (ballots for other topics count nowhere). *)
Theorem resolveBannedTopics_spec candidates votes seed bannedCount :
  0 <= bannedCount ->
  let r := resolveBannedTopics candidates votes seed bannedCount in
  tv_bannedTopics r ++ tv_activeTopics r ≡ₚ candidates
  /\ Z.of_nat (length (tv_bannedTopics r)) = Z.min bannedCount (Z.of_nat (length candidates))
  /\ (forall b a, b ∈ tv_bannedTopics r -> a ∈ tv_activeTopics r ->
        ballots votes a <= ballots votes b)
  /\ (forall t, map_get t (tv_voteCounts r)
        = if decide (t ∈ candidates) then Some (ballots votes t) else None).
Proof.
  intros Hb. unfold resolveBannedTopics. cbn zeta.
  destruct (_ <=? bannedCount) eqn:E; bool_to_prop; cbn.
  - rewrite app_nil_r. split_and!; [done|lia|by intros ? ? _ ?%elem_of_nil|apply tally_get].
  - set (cmp := ban_cmp _ _).
    assert (Comparator cmp) by (unfold cmp, ban_cmp; apply _).
    split_and!.
    + by rewrite slice_to_from, js_sort_perm.
    + rewrite slice_to_length, js_sort_length by done. lia.
    + intros b a Hbin Hain. pose proof (slice_sorted cmp _ _ _ b a (eq_sym (slice_to_from _ bannedCount)) Hbin Hain) as Hle.
      assert (b ∈ candidates) as Hbc.
      { rewrite <- (js_sort_perm cmp), <- (slice_to_from (js_sort cmp candidates) bannedCount).
        apply elem_of_app. by left. }
      assert (a ∈ candidates) as Hac.
      { rewrite <- (js_sort_perm cmp), <- (slice_to_from (js_sort cmp candidates) bannedCount).
        apply elem_of_app. by right. }
      unfold cmp, ban_cmp, cmp_then, count_of in Hle.
      rewrite !tally_get, !decide_True in Hle by done. cbn in Hle.
      destruct (_ =? 0) eqn:E0; bool_to_prop; lia.
    + apply tally_get.
Qed.

Lemma resolveBannedTopics_spec_witness :
  tv_bannedTopics (resolveBannedTopics [js "A"; js "B"; js "C"]
    [(js "p1", js "C"); (js "p2", js "C"); (js "p3", js "B")] (js "m1") 1) = [js "C"]
  /\ ballots [(js "p1", js "C"); (js "p2", js "C"); (js "p3", js "B")] (js "A") <= 2.
Proof.
  split; [by_compute|].
  destruct (resolveBannedTopics_spec [js "A"; js "B"; js "C"]
    [(js "p1", js "C"); (js "p2", js "C"); (js "p3", js "B")] (js "m1") 1) as (_ & _ & H & _);
    [lia|].
  apply (H (js "C") (js "A")).
  - vm_compute. left.
  - vm_compute. repeat (left || right).
Defined.

(** The result depends on the ballots only: neither the order in which the
    players voted nor who cast which ballot matters. *)
Theorem resolveBannedTopics_ballot_order candidates votes votes' seed bannedCount :
  votes.*2 ≡ₚ votes'.*2 ->
  tv_bannedTopics (resolveBannedTopics candidates votes seed bannedCount)
  = tv_bannedTopics (resolveBannedTopics candidates votes' seed bannedCount)
  /\ tv_activeTopics (resolveBannedTopics candidates votes seed bannedCount)
  = tv_activeTopics (resolveBannedTopics candidates votes' seed bannedCount).
Proof.
  intros Hp. unfold resolveBannedTopics. destruct (_ <=? _); [done|]. cbn.
  set (tb := map_of_entries _).
  rewrite (js_sort_ext (ban_cmp (tallyTopicVotes votes candidates) tb)
                       (ban_cmp (tallyTopicVotes votes' candidates) tb)); [done|].
  intros x y Hx Hy. unfold ban_cmp, cmp_then, count_of.
  rewrite !tally_get, !decide_True by done. cbn.
  by rewrite !(ballots_perm votes votes').
Qed.

Lemma resolveBannedTopics_ballot_order_witness :
  tv_bannedTopics (resolveBannedTopics [js "A"; js "B"; js "C"]
    [(js "p1", js "B"); (js "p2", js "A")] (js "m") 2)
  = tv_bannedTopics (resolveBannedTopics [js "A"; js "B"; js "C"]
    [(js "p2", js "B"); (js "p9", js "A")] (js "m") 2).
Proof.
  refine (proj1 (resolveBannedTopics_ballot_order [js "A"; js "B"; js "C"]
    [(js "p1", js "B"); (js "p2", js "A")] [(js "p2", js "B"); (js "p9", js "A")] (js "m") 2 _)).
  reflexivity.
Defined.
