(* ===== verification/ClassEngine.v ===== *)
(** * [class-engine.ts]: the fair random class split *)

From S2P Require Import Prelude JsData Shared Cards Prng TopicVoting.
#[local] Open Scope Z_scope.

Record ClassAssignment := mkAssignment { ca_playerId : jstr; ca_classId : ClassId }.

#[export] Instance ClassAssignment_eq : EqDecision ClassAssignment.
Proof. solve_decision. Defined.

Definition comparePlayerId (a b : jstr) : Z :=
  if str_cmp a b <? 0 then -1 else if 0 <? str_cmp a b then 1 else 0.

(** [(i % 2 === 0 ? "ATTACK" : "DEFENSE")] *)
Definition class_at (i : nat) : ClassId := if (Z.of_nat i mod 2 =? 0) then ATTACK else DEFENSE.

Definition assignClasses (playerIds : list jstr) (seedUsed : jstr) : list ClassAssignment :=
  if decide (playerIds = []) then []
  else
    let substreamSeed := deriveSubstream seedUsed (js "class") in
    let sortedPlayers := js_sort comparePlayerId playerIds in
    let drawn := js_sort (fun a b => a.2 - b.2) (with_rolls sortedPlayers substreamSeed) in
    imap (fun i d => mkAssignment d.1 (class_at i)) drawn.

(** ** Lemmas *)

Lemma comparePlayerId_sgn a b : Z.sgn (comparePlayerId a b) = Z.sgn (str_cmp a b).
Proof. unfold comparePlayerId. repeat case_match; bool_to_prop; lia. Qed.

#[export] Instance comparePlayerId_Comparator : Comparator comparePlayerId.
Proof.
  split.
  - intros x y. rewrite !comparePlayerId_sgn. apply cmp_opp, _.
  - intros x y z. pose proof (comparePlayerId_sgn x y). pose proof (comparePlayerId_sgn y z).
    pose proof (comparePlayerId_sgn x z). pose proof (str_cmp_trans x y z). lia.
Qed.

Lemma imap_fst {A B C} (f : nat -> A -> B) (g : B -> C) (h : A -> C) l :
  (forall i x, g (f i x) = h x) -> g <$> imap f l = h <$> l.
Proof.
  revert f. induction l as [|x l IH]; intros f Hf; [done|]. cbn. rewrite Hf. f_equal.
  apply (IH (f ∘ S)). intros. apply Hf.
Qed.

Lemma class_at_SS i : class_at (S (S i)) = class_at i.
Proof.
  unfold class_at. replace (Z.of_nat (S (S i))) with (Z.of_nat i + 1 * 2) by lia.
  by rewrite Z.mod_add by lia.
Qed.

(** Players of a class in an alternating list: half of them, the extra one to
    ATTACK. *)
Lemma class_at_count {A} (l : list A) (g : A -> jstr) cls :
  length (filter (fun a => ca_classId a = cls) (imap (fun i d => mkAssignment (g d) (class_at i)) l))
  = match cls with ATTACK => (length l + 1) / 2 | DEFENSE => length l / 2 end%nat.
Proof.
  remember (length l) as n eqn:Hn. revert l Hn.
  induction n as [n IH] using lt_wf_ind. intros [|x [|y l]] Hn; cbn in Hn; subst n.
  - by destruct cls.
  - by destruct cls.
  - cbn [imap]. rewrite !filter_cons.
    assert (imap ((fun i d => mkAssignment (g d) (class_at i)) ∘ S ∘ S) l
            = imap (fun i d => mkAssignment (g d) (class_at i)) l) as Heq.
    { apply imap_ext. intros i d _. cbn. by rewrite class_at_SS. }
    rewrite Heq. specialize (IH (length l) ltac:(lia) l eq_refl).
    replace (S (S (length l)) + 1)%nat with (length l + 1 + 1 * 2)%nat by lia.
    replace (S (S (length l))) with (length l + 1 * 2)%nat by lia.
    rewrite !Nat.div_add by lia.
    destruct cls; cbn [compose ca_classId]; repeat case_decide; cbn [length] in *; try done;
      rewrite IH; lia.
Qed.

(** ** Properties *)

(** every player gets exactly one class, and the split is fair: the ATTACK
    side has half of the players, rounded up, DEFENSE the other half. *)
Theorem assignClasses_fair ids seed :
  ca_playerId <$> assignClasses ids seed ≡ₚ ids
  /\ length (filter (fun a => ca_classId a = ATTACK) (assignClasses ids seed))
     = ((length ids + 1) / 2)%nat
  /\ length (filter (fun a => ca_classId a = DEFENSE) (assignClasses ids seed))
     = (length ids / 2)%nat.
Proof.
  unfold assignClasses. destruct (decide (ids = [])) as [->|Hne]; [done|].
  set (s := js_sort comparePlayerId ids). set (drawn := js_sort _ _).
  assert (drawn.*1 ≡ₚ ids) as Hp.
  { unfold drawn. rewrite (js_sort_perm (fun a b : jstr * Z => a.2 - b.2)), zip_rolls_fst.
    apply js_sort_perm. }
  assert (length drawn = length ids) as Hl.
  { rewrite <- (Permutation_length Hp). by rewrite length_fmap. }
  rewrite !class_at_count, Hl. split; [|done].
  by rewrite (imap_fst _ ca_playerId fst) by done.
Qed.

(** The assignment does not depend on the order in which the caller lists
    the players. *)
Theorem assignClasses_order_independent ids ids' seed :
  ids ≡ₚ ids' -> assignClasses ids seed = assignClasses ids' seed.
Proof.
  intros Hp. unfold assignClasses.
  rewrite (js_sort_unique comparePlayerId ids ids'); [|intros x y _ _ H1 H2|done].
  - assert (ids = [] <-> ids' = []) as Hnil.
    { split; intros ->; [by apply Permutation_nil_l in Hp|by apply Permutation_nil_r in Hp]. }
    destruct (decide (ids = [])), (decide (ids' = [])); tauto || done.
  - pose proof (comparePlayerId_sgn x y). pose proof (comparePlayerId_sgn y x).
    pose proof (str_cmp_antisym x y). apply str_cmp_eq. lia.
Qed.

Lemma assignClasses_order_independent_witness :
  assignClasses [js "u2"; js "u10"; js "u1"] (js "s")
  = assignClasses [js "u1"; js "u2"; js "u10"] (js "s").
Proof.
  apply assignClasses_order_independent.
  transitivity [js "u2"; js "u1"; js "u10"]; [apply perm_skip, perm_swap|apply perm_swap].
Defined.
