(* ===== verification/Machine.v ===== *)
(** * [packages/game-core/src/match-state-machine.ts]: the match state machine

    The object's private fields are the record [Machine]; every method that
    changes it is a computation of the monad of Effects, written in the order
    of the source's statements (log entries, clock readings and throws
    included). *)

From Stdlib Require Import QArith.
From S2P Require Import Prelude JsData Effects Shared Cards Prng CardEngine Scoring.
From S2P Require Import TieBreak TopicVoting ClassEngine.
#[local] Open Scope Z_scope.
#[local] Open Scope js_scope.

(** ** The event log *)

Inductive Resolution := TEMPORARY | MUTATION.
#[export] Instance Resolution_eq : EqDecision Resolution.
Proof. solve_decision. Defined.

Record CardResolvedPayload := mkResolved {
  cr_seqNo : Z;
  cr_matchId : jstr;
  cr_roundNo : Z;
  cr_targetRoundNo : Z;
  cr_cardId : CardId;
  cr_offerSeqNo : Z;
  cr_playedByPlayerId : jstr;
  cr_targetPlayerIds : list jstr;
  cr_effect : CardEffect;
  cr_resolution : Resolution;
  cr_serverTimestamp : Z;
  cr_expiresAtServer : option Z;
  cr_remainingMs : option Z;
  cr_eventId : option jstr;
  cr_commandId : option jstr;
}.

(** [type] and [payload] of an entry, one constructor per event type. *)
Inductive EventPayload :=
| E_STATE_TRANSITION (from to : MatchStatus)
| E_ROUND_STARTED (roundNo : Z) (questionId : jstr) (question : QuestionState) (endsAt : Z)
| E_SECOND_CHANCE_CONSUMED (playerId : jstr) (roundNo : Z)
| E_ANSWER_SUBMITTED (playerId : jstr) (isCorrect : bool) (responseTimeMs : Z)
| E_ROUND_EVALUATED (roundNo : Z) (correctAnswer : option jstr)
    (survivingCount eliminatedCount : Z) (eliminatedIds : list jstr)
| E_TIE_BREAK (winnerId : option jstr) (tiedPlayerIds : list jstr)
| E_MATCH_FINISHED (winnerId : option jstr) (totalRounds : Z)
| E_PLAYER_DISCONNECTED (playerId : jstr)
| E_PLAYER_RECONNECTED (playerId : jstr)
| E_TOPIC_VOTING_STARTED (matchId : jstr) (candidateTopics : list jstr)
    (durationMs : Z) (endsAt : option Z)
| E_TOPIC_VOTE_SUBMITTED (matchId playerId topic : jstr) (eventId : option jstr)
| E_TOPIC_VOTING_FINISHED (matchId : jstr) (bannedTopics activeTopics : list jstr)
    (voteCounts : JsMap jstr Z)
| E_CLASS_ASSIGNED (matchId : jstr) (assignments : list ClassAssignment) (seedUsed : jstr)
| E_CARD_OFFER (roundNo : Z) (playerId : jstr) (offeredCardIds : list CardId) (seedUsed : jstr)
| E_CARD_PICKED (roundNo : Z) (playerId : jstr) (selectedCardId : CardId) (offerSeqNo : Z)
    (eventId commandId : option jstr)
| E_CARD_RESOLVED (payload : CardResolvedPayload)
| E_SECOND_CHANCE_GRANTED (playerId : jstr) (roundNo : Z).

Record Event := mkEvent {
  ev_payload : EventPayload;
  ev_timestamp : Z;
  ev_seqNo : Z;
}.

(** ** The private fields *)

Record ActiveEffect := mkActiveEffect {
  ae_sourceSeqNo : Z;
  ae_effect : CardEffect;
  ae_expiresAtServer : Z;
  ae_persistedDurationMs : Z;
}.

(** The Phase 2 mirrors: [playerClasses], [playerHands], [activeEffects],
    [playerPlayedCards], [playerPickedCards], [aoeCountByRound],
    [secondChancePlayers]. *)
Record CardState := mkCardState {
  cs_classes : JsMap jstr ClassId;
  cs_hands : JsMap jstr (list CardId);
  cs_effects : JsMap jstr (list ActiveEffect);
  cs_played : JsMap jstr (list CardId);
  cs_picked : JsMap jstr (list CardId);
  cs_aoe : JsMap Z Z;
  cs_secondChance : list jstr;
}.

Definition empty_cards : CardState := mkCardState [] [] [] [] [] [] [].

(** [m_elimFrozen]: an event's payload is frozen in place with everything it
    refers to, and the TIE_BREAK event refers to the array it was given. When
    that array is [state.eliminatedPlayerIds] itself, a later [push] on it
    throws; the flag is that array's [Object.isFrozen]. The other arrays the
    events share with the state are replaced, never mutated. *)
Record Machine := mkMachine {
  m_state : MatchState;
  m_round : option RoundRuntimeState;
  m_log : list Event;
  m_seq : Z;
  m_cards : CardState;
  m_elimFrozen : bool;
}.

Abbreviation MM := (M exn Machine).

(** ** Field updates *)

Section Updates.
Implicit Types (s : MatchState) (c : CardState) (r : RoundRuntimeState) (m : Machine).

Definition set_status v s := mkMatchState (ms_id s) (ms_roomId s) v (ms_currentRoundNo s)
  (ms_totalRounds s) (ms_players s) (ms_survivingPlayerIds s) (ms_eliminatedPlayerIds s)
  (ms_winnerId s) (ms_startedAt s) (ms_endedAt s) (ms_phaseEndsAt s)
  (ms_roundResultStartedAt s) (ms_candidateTopics s) (ms_topicVotes s) (ms_bannedTopics s)
  (ms_activeTopics s).

Definition set_rounds no total s := mkMatchState (ms_id s) (ms_roomId s) (ms_status s) no
  total (ms_players s) (ms_survivingPlayerIds s) (ms_eliminatedPlayerIds s)
  (ms_winnerId s) (ms_startedAt s) (ms_endedAt s) (ms_phaseEndsAt s)
  (ms_roundResultStartedAt s) (ms_candidateTopics s) (ms_topicVotes s) (ms_bannedTopics s)
  (ms_activeTopics s).

Definition set_players ps s := mkMatchState (ms_id s) (ms_roomId s) (ms_status s)
  (ms_currentRoundNo s) (ms_totalRounds s) ps (ms_survivingPlayerIds s)
  (ms_eliminatedPlayerIds s) (ms_winnerId s) (ms_startedAt s) (ms_endedAt s)
  (ms_phaseEndsAt s) (ms_roundResultStartedAt s) (ms_candidateTopics s) (ms_topicVotes s)
  (ms_bannedTopics s) (ms_activeTopics s).

Definition set_standing surv elim s := mkMatchState (ms_id s) (ms_roomId s) (ms_status s)
  (ms_currentRoundNo s) (ms_totalRounds s) (ms_players s) surv elim (ms_winnerId s)
  (ms_startedAt s) (ms_endedAt s) (ms_phaseEndsAt s) (ms_roundResultStartedAt s)
  (ms_candidateTopics s) (ms_topicVotes s) (ms_bannedTopics s) (ms_activeTopics s).

Definition set_winnerId w s := mkMatchState (ms_id s) (ms_roomId s) (ms_status s)
  (ms_currentRoundNo s) (ms_totalRounds s) (ms_players s) (ms_survivingPlayerIds s)
  (ms_eliminatedPlayerIds s) w (ms_startedAt s) (ms_endedAt s) (ms_phaseEndsAt s)
  (ms_roundResultStartedAt s) (ms_candidateTopics s) (ms_topicVotes s) (ms_bannedTopics s)
  (ms_activeTopics s).

Definition set_startedAt t s := mkMatchState (ms_id s) (ms_roomId s) (ms_status s)
  (ms_currentRoundNo s) (ms_totalRounds s) (ms_players s) (ms_survivingPlayerIds s)
  (ms_eliminatedPlayerIds s) (ms_winnerId s) t (ms_endedAt s) (ms_phaseEndsAt s)
  (ms_roundResultStartedAt s) (ms_candidateTopics s) (ms_topicVotes s) (ms_bannedTopics s)
  (ms_activeTopics s).

Definition set_endedAt t s := mkMatchState (ms_id s) (ms_roomId s) (ms_status s)
  (ms_currentRoundNo s) (ms_totalRounds s) (ms_players s) (ms_survivingPlayerIds s)
  (ms_eliminatedPlayerIds s) (ms_winnerId s) (ms_startedAt s) t (ms_phaseEndsAt s)
  (ms_roundResultStartedAt s) (ms_candidateTopics s) (ms_topicVotes s) (ms_bannedTopics s)
  (ms_activeTopics s).

Definition set_phaseEndsAt t s := mkMatchState (ms_id s) (ms_roomId s) (ms_status s)
  (ms_currentRoundNo s) (ms_totalRounds s) (ms_players s) (ms_survivingPlayerIds s)
  (ms_eliminatedPlayerIds s) (ms_winnerId s) (ms_startedAt s) (ms_endedAt s) t
  (ms_roundResultStartedAt s) (ms_candidateTopics s) (ms_topicVotes s) (ms_bannedTopics s)
  (ms_activeTopics s).

Definition set_roundResultStartedAt t s := mkMatchState (ms_id s) (ms_roomId s) (ms_status s)
  (ms_currentRoundNo s) (ms_totalRounds s) (ms_players s) (ms_survivingPlayerIds s)
  (ms_eliminatedPlayerIds s) (ms_winnerId s) (ms_startedAt s) (ms_endedAt s)
  (ms_phaseEndsAt s) t (ms_candidateTopics s) (ms_topicVotes s) (ms_bannedTopics s)
  (ms_activeTopics s).

Definition set_topics cand votes banned active s := mkMatchState (ms_id s) (ms_roomId s)
  (ms_status s) (ms_currentRoundNo s) (ms_totalRounds s) (ms_players s)
  (ms_survivingPlayerIds s) (ms_eliminatedPlayerIds s) (ms_winnerId s) (ms_startedAt s)
  (ms_endedAt s) (ms_phaseEndsAt s) (ms_roundResultStartedAt s) cand votes banned active.

Definition set_topicVotes votes s :=
  set_topics (ms_candidateTopics s) votes (ms_bannedTopics s) (ms_activeTopics s) s.

Definition pl_set_status v (p : PlayerInfo) := mkPlayer (pl_id p) (pl_name p) v (pl_score p)
  (pl_totalResponseTimeMs p) (pl_correctAnswers p) (pl_isOnline p).
Definition pl_set_online v (p : PlayerInfo) := mkPlayer (pl_id p) (pl_name p) (pl_status p)
  (pl_score p) (pl_totalResponseTimeMs p) (pl_correctAnswers p) v.
Definition pl_credit score time (p : PlayerInfo) := mkPlayer (pl_id p) (pl_name p)
  (pl_status p) (pl_score p + score) (pl_totalResponseTimeMs p + time)
  (pl_correctAnswers p + 1) (pl_isOnline p).

Definition rd_set_status v r := mkRound (rd_matchId r) (rd_roundNo r) (rd_question r)
  (rd_startedAt r) (rd_endsAt r) (rd_answers r) v (rd_correctAnswer r) (rd_startingPlayers r).
Definition rd_set_answers v r := mkRound (rd_matchId r) (rd_roundNo r) (rd_question r)
  (rd_startedAt r) (rd_endsAt r) v (rd_status r) (rd_correctAnswer r) (rd_startingPlayers r).
Definition rd_set_correctAnswer v r := mkRound (rd_matchId r) (rd_roundNo r) (rd_question r)
  (rd_startedAt r) (rd_endsAt r) (rd_answers r) (rd_status r) v (rd_startingPlayers r).

Definition cs_set_classes v c := mkCardState v (cs_hands c) (cs_effects c) (cs_played c)
  (cs_picked c) (cs_aoe c) (cs_secondChance c).
Definition cs_set_hands v c := mkCardState (cs_classes c) v (cs_effects c) (cs_played c)
  (cs_picked c) (cs_aoe c) (cs_secondChance c).
Definition cs_set_effects v c := mkCardState (cs_classes c) (cs_hands c) v (cs_played c)
  (cs_picked c) (cs_aoe c) (cs_secondChance c).
Definition cs_set_played v c := mkCardState (cs_classes c) (cs_hands c) (cs_effects c) v
  (cs_picked c) (cs_aoe c) (cs_secondChance c).
Definition cs_set_picked v c := mkCardState (cs_classes c) (cs_hands c) (cs_effects c)
  (cs_played c) v (cs_aoe c) (cs_secondChance c).
Definition cs_set_aoe v c := mkCardState (cs_classes c) (cs_hands c) (cs_effects c)
  (cs_played c) (cs_picked c) v (cs_secondChance c).
Definition cs_set_secondChance v c := mkCardState (cs_classes c) (cs_hands c) (cs_effects c)
  (cs_played c) (cs_picked c) (cs_aoe c) v.

Definition on_state f m := mkMachine (f (m_state m)) (m_round m) (m_log m) (m_seq m) (m_cards m)
  (m_elimFrozen m).
Definition set_round (o : option RoundRuntimeState) m := mkMachine (m_state m) o (m_log m) (m_seq m) (m_cards m)
  (m_elimFrozen m).
Definition on_round f m := set_round (f <$> m_round m) m.
Definition on_cards f m := mkMachine (m_state m) (m_round m) (m_log m) (m_seq m) (f (m_cards m))
  (m_elimFrozen m).
Definition freeze_eliminated m := mkMachine (m_state m) (m_round m) (m_log m) (m_seq m)
  (m_cards m) true.
End Updates.

(** ** Construction and accessors *)

Definition VALID_TRANSITIONS (from : MatchStatus) : list MatchStatus :=
  match from with
  | CREATED => [COUNTDOWN; TOPIC_VOTING]
  | TOPIC_VOTING => [COUNTDOWN; FINISHED]
  | COUNTDOWN => [ROUND_ACTIVE; FINISHED]
  | ROUND_ACTIVE => [ROUND_EVALUATING; FINISHED]
  | ROUND_EVALUATING => [ROUND_RESULT; FINISHED]
  | ROUND_RESULT => [ROUND_ACTIVE; FINISHED]
  | FINISHED => []
  end.

Definition new_machine (matchId roomId : jstr) (players : list PlayerInfo) : Machine :=
  mkMachine
    (mkMatchState matchId roomId CREATED 0 0
       (map_of_entries ((fun p => (pl_id p, p)) <$> players))
       (pl_id <$> players) [] None (Some 0) None None None None None None None)
    None [] 0 empty_cards false.

(** The accessors copy; a value of the model is its own copy. *)
Definition getState (m : Machine) : MatchState := m_state m.
Definition getCurrentRound (m : Machine) : option RoundRuntimeState := m_round m.
Definition getCorrectAnswer (m : Machine) : option jstr := m_round m ≫= rd_correctAnswer.

Definition canTransition (m : Machine) (to : MatchStatus) : bool :=
  bool_decide (to ∈ VALID_TRANSITIONS (ms_status (m_state m))).

(** [logEvent]: allocate the number, read the clock, push. *)
Definition logEvent (payload : EventPayload) : MM Z :=
  modify (fun m => mkMachine (m_state m) (m_round m) (m_log m) (m_seq m + 1) (m_cards m)
                       (m_elimFrozen m)) ;;
  m <- get ;;
  let seqNo := m_seq m in
  t <- date_now ;;
  modify (fun m => mkMachine (m_state m) (m_round m) (m_log m ++ [mkEvent payload t seqNo])
                     (m_seq m) (m_cards m) (m_elimFrozen m)) ;;
  ret seqNo.

(** ** Transitions and rounds *)

Definition transition (to : MatchStatus) : MM unit :=
  m <- get ;;
  if negb (canTransition m to) then throw (JsError "Invalid transition")
  else
    logEvent (E_STATE_TRANSITION (ms_status (m_state m)) to) ;;
    modify (on_state (set_status to)) ;;
    match to with
    | TOPIC_VOTING =>
        t1 <- date_now ;;
        modify (on_state (set_startedAt (Some t1))) ;;
        t2 <- date_now ;;
        modify (on_state (set_phaseEndsAt (Some (t2 + GAME_CONFIG.TOPIC_VOTING_DURATION_MS)))) ;;
        modify (on_state (set_roundResultStartedAt None))
    | COUNTDOWN =>
        t1 <- date_now ;;
        modify (on_state (set_startedAt (Some t1))) ;;
        t2 <- date_now ;;
        modify (on_state (set_phaseEndsAt (Some (t2 + GAME_CONFIG.COUNTDOWN_DURATION_MS)))) ;;
        modify (on_state (set_roundResultStartedAt None))
    | ROUND_RESULT =>
        now <- date_now ;;
        modify (on_state (set_roundResultStartedAt (Some now))) ;;
        modify (on_state (set_phaseEndsAt (Some (now + GAME_CONFIG.RESULT_DISPLAY_MS))))
    | FINISHED =>
        t <- date_now ;;
        modify (on_state (set_endedAt (Some t))) ;;
        modify (on_state (set_phaseEndsAt None)) ;;
        modify (on_state (set_roundResultStartedAt None))
    | ROUND_EVALUATING =>
        modify (on_state (set_phaseEndsAt None)) ;;
        modify (on_state (set_roundResultStartedAt None))
    | ROUND_ACTIVE =>
        modify (on_state (set_phaseEndsAt None)) ;;
        modify (on_state (set_roundResultStartedAt None)) ;;
        modify (set_round None)
    | CREATED => ret tt
    end.

(** The question as the caller passes it, with its answer key. *)
Record QuestionInput := mkQuestionInput {
  qi_id : jstr;
  qi_content : jstr;
  qi_options : list jstr;
  qi_correctAnswer : jstr;
  qi_difficulty : option Difficulty;
}.

Definition clientQuestion (q : QuestionInput) : QuestionState :=
  mkQuestion (qi_id q) (qi_content q) (qi_options q) (Some (default MEDIUM (qi_difficulty q))).

Definition startRound (question : QuestionInput) (roundDurationMs : option Z)
    : MM RoundRuntimeState :=
  m <- get ;;
  if negb (bool_decide (ms_status (m_state m) = ROUND_ACTIVE))
  then throw (JsError "Cannot start round: match is not in ROUND_ACTIVE state")
  else
    let no := ms_currentRoundNo (m_state m) + 1 in
    modify (on_state (set_rounds no (Z.max (ms_totalRounds (m_state m)) no))) ;;
    now <- date_now ;;
    let endsAt := now + default GAME_CONFIG.ROUND_DURATION_MS roundDurationMs in
    modify (on_cards (cs_set_secondChance [])) ;;
    let round := mkRound (ms_id (m_state m)) no (clientQuestion question) now endsAt []
                   RACTIVE (Some (qi_correctAnswer question))
                   (Some (StartingPlayers (ms_survivingPlayerIds (m_state m)))) in
    modify (set_round (Some round)) ;;
    modify (on_state (set_phaseEndsAt (Some endsAt))) ;;
    modify (on_state (set_roundResultStartedAt None)) ;;
    logEvent (E_ROUND_STARTED no (qi_id question) (clientQuestion question) endsAt) ;;
    ret round.

(** The submission guards, in the source's order: the duplicate of a
    submission, a repeated answer without a second chance, a round that is not
    open, a late answer, a player who is not active. *)
Inductive SubmitCheck :=
| SubmitDuplicate (existing : AnswerState)
| SubmitReject (code : ErrorCode)
| SubmitAccept (round : RoundRuntimeState) (isSecondChanceRetry : bool).

Definition submit_check (m : Machine) (playerId : jstr) (serverTimestamp : Z)
    (submissionId : option jstr) : SubmitCheck :=
  match m_round m with
  | None => SubmitReject ROUND_NOT_ACTIVE
  | Some round =>
      let existing := map_get playerId (rd_answers round) in
      let duplicate :=
        match existing, submissionId with
        | Some e, Some sid => negb (bool_decide (sid = [])) && bool_decide (an_submissionId e = sid)
        | _, _ => false
        end in
      match existing, duplicate with
      | Some e, true => SubmitDuplicate e
      | _, _ =>
        let retry := match existing with
                     | Some _ => set_has playerId (cs_secondChance (m_cards m))
                     | None => false
                     end in
        if match existing with Some _ => negb retry | None => false end
        then SubmitReject ALREADY_ANSWERED
        else if negb (bool_decide (rd_status round = RACTIVE)) then SubmitReject ROUND_NOT_ACTIVE
        else if rd_endsAt round <? serverTimestamp then SubmitReject ANSWER_SUBMISSION_CLOSED
        else if negb (bool_decide (pl_status <$> map_get playerId (ms_players (m_state m))
                                   = Some ACTIVE))
        then SubmitReject PLAYER_NOT_IN_ROOM
        else SubmitAccept round retry
      end
  end.

Definition legacySubmissionId (playerId : jstr) (t : Z) : jstr :=
  js "legacy-" ++ playerId ++ js "-" ++ js_of_Z t.

Definition submitAnswer (playerId answer : jstr) (serverTimestamp : Z)
    (submissionId : option jstr) : MM AnswerState :=
  m <- get ;;
  match submit_check m playerId serverTimestamp submissionId with
  | SubmitDuplicate existing => ret existing
  | SubmitReject code => throw (RoomError code)
  | SubmitAccept round retry =>
      (if retry then
         modify (on_cards (fun c => cs_set_secondChance
                                      (set_delete playerId (cs_secondChance c)) c)) ;;
         logEvent (E_SECOND_CHANCE_CONSUMED playerId (rd_roundNo round)) ;;
         ret tt
       else ret tt) ;;
      let isCorrect := isAnswerMatch (Some answer) (rd_correctAnswer round)
                         (Some (q_options (rd_question round))) in
      let responseTimeMs := Z.max 0 (serverTimestamp - rd_startedAt round) in
      let answerState :=
        mkAnswer playerId answer
          (default (legacySubmissionId playerId serverTimestamp) submissionId)
          (Some isCorrect) responseTimeMs serverTimestamp in
      modify (on_round (fun r => rd_set_answers (map_set playerId answerState (rd_answers r)) r)) ;;
      logEvent (E_ANSWER_SUBMITTED playerId isCorrect responseTimeMs) ;;
      ret answerState
  end.

Record Evaluation := mkEvaluation {
  evl_survivingIds : list jstr;
  evl_eliminatedIds : list jstr;
  evl_correctAnswer : option jstr;
}.

(** One iteration of the loop over the starting players. *)
Definition evaluate_player (answers : JsMap jstr AnswerState) (eliminatedIds : list jstr)
    (acc : JsMap jstr PlayerInfo * list jstr) (playerId : jstr)
    : JsMap jstr PlayerInfo * list jstr :=
  let '(players, survivingIds) := acc in
  if set_has playerId eliminatedIds then
    (match map_get playerId players with
     | Some player => map_set playerId (pl_set_status ELIMINATED player) players
     | None => players
     end, survivingIds)
  else
    (match map_get playerId players, map_get playerId answers with
     | Some player, Some answer =>
         let t := an_responseTimeMs answer in
         map_set playerId (pl_credit (floorScore t) t player) players
     | _, _ => players
     end, survivingIds ++ [playerId]).

Definition round_starting (m : Machine) (round : RoundRuntimeState) : list jstr :=
  match rd_startingPlayers round with
  | Some (StartingPlayers ids) => ids
  | _ => ms_survivingPlayerIds (m_state m)
  end.

Definition evaluateRound : MM Evaluation :=
  m <- get ;;
  match m_round m with
  | None => throw (JsError "No active round to evaluate")
  | Some round =>
      modify (on_round (rd_set_status EVALUATING)) ;;
      let correctAnswer := rd_correctAnswer round in
      let startingPlayers := round_starting m round in
      let eliminatedIds := eliminationsForRound (rd_answers round)
                             (q_options (rd_question round)) correctAnswer startingPlayers in
      let '(players, survivingIds) :=
        foldl (evaluate_player (rd_answers round) eliminatedIds)
          (ms_players (m_state m), []) startingPlayers in
      modify (on_state (set_players players)) ;;
      modify (on_state (fun s => set_standing survivingIds (ms_eliminatedPlayerIds s) s)) ;;
      (if m_elimFrozen m then throw (JsError "Cannot add property to a frozen array")
       else modify (on_state (fun s => set_standing (ms_survivingPlayerIds s)
                                (ms_eliminatedPlayerIds s ++ eliminatedIds) s))) ;;
      modify (on_round (rd_set_status COMPLETED)) ;;
      logEvent (E_ROUND_EVALUATED (rd_roundNo round) correctAnswer
        (Z.of_nat (length survivingIds)) (Z.of_nat (length eliminatedIds)) eliminatedIds) ;;
      ret (mkEvaluation survivingIds eliminatedIds correctAnswer)
  end.

Definition shouldEndMatch (m : Machine) (maxRounds : option Z) : bool :=
  if Z.of_nat (length (ms_survivingPlayerIds (m_state m))) <=? 1 then true
  else match maxRounds with
       | Some n => n <=? ms_currentRoundNo (m_state m)
       | None => false
       end.

(** ** Winner and finish *)

Definition tieBreak (playerIds : list jstr) : MM (option jstr) :=
  if decide (playerIds = []) then ret None
  else
    m <- get ;;
    let winnerId := resolveTieBreak playerIds (ms_players (m_state m)) (ms_id (m_state m)) in
    logEvent (E_TIE_BREAK winnerId playerIds) ;;
    ret winnerId.

Definition determineWinner : MM (option jstr) :=
  m <- get ;;
  match ms_survivingPlayerIds (m_state m) with
  | [w] => ret (Some w)
  | [] =>
      if decide (ms_eliminatedPlayerIds (m_state m) = []) then ret None
      else
        r <- tieBreak (ms_eliminatedPlayerIds (m_state m)) ;;
        modify freeze_eliminated ;;
        ret r
  | survivors => tieBreak survivors
  end.

Definition finishMatch : MM unit :=
  winnerId <- determineWinner ;;
  match winnerId with
  | Some w =>
      modify (on_state (fun s =>
        match map_get w (ms_players s) with
        | Some winner => set_players (map_set w (pl_set_status WINNER winner) (ms_players s)) s
        | None => s
        end))
  | None => ret tt
  end ;;
  modify (on_state (set_winnerId winnerId)) ;;
  t <- date_now ;;
  modify (on_state (set_endedAt (Some t))) ;;
  m <- get ;;
  logEvent (E_MATCH_FINISHED winnerId (ms_totalRounds (m_state m))) ;;
  ret tt.

(** ** Presence *)

Definition update_player (playerId : jstr) (f : PlayerInfo -> PlayerInfo) : MM unit :=
  modify (on_state (fun s =>
    match map_get playerId (ms_players s) with
    | Some p => set_players (map_set playerId (f p) (ms_players s)) s
    | None => s
    end)).

Definition disconnectPlayer (playerId : jstr) : MM unit :=
  m <- get ;;
  match map_get playerId (ms_players (m_state m)) with
  | None => ret tt
  | Some player =>
      update_player playerId (pl_set_online false) ;;
      match pl_status player with
      | ELIMINATED | WINNER | DISCONNECTED => ret tt
      | ACTIVE =>
          update_player playerId (pl_set_status DISCONNECTED) ;;
          logEvent (E_PLAYER_DISCONNECTED playerId) ;;
          ret tt
      end
  end.

Definition reconnectPlayer (playerId : jstr) : MM unit :=
  m <- get ;;
  match map_get playerId (ms_players (m_state m)) with
  | None => ret tt
  | Some player =>
      let isOnlineToggled := negb (pl_isOnline player) in
      let statusTransitionsToActive := bool_decide (pl_status player = DISCONNECTED) in
      if statusTransitionsToActive || isOnlineToggled then
        update_player playerId (pl_set_online true) ;;
        (if statusTransitionsToActive
         then update_player playerId (pl_set_status ACTIVE) else ret tt) ;;
        logEvent (E_PLAYER_RECONNECTED playerId) ;;
        ret tt
      else ret tt
  end.

(** ** Queries *)

Definition getPlayerScores (m : Machine) : list (jstr * Z * option Q) :=
  (fun '(userId, p) =>
     (userId, pl_score p,
      if 0 <? pl_correctAnswers p
      then Some (inject_Z (pl_totalResponseTimeMs p) / inject_Z (pl_correctAnswers p))%Q
      else None)) <$> ms_players (m_state m).

Record Snapshot := mkSnapshot {
  sn_matchId : jstr;
  sn_status : MatchStatus;
  sn_currentRoundNo : Z;
  sn_players : list PlayerInfo;
  sn_currentQuestion : option QuestionState;
  sn_roundEndTime : option Z;
  sn_lastEventSeqNo : Z;
  sn_candidateTopics : option (list jstr);
  sn_voteCounts : option (JsMap jstr Z);
  sn_phaseEndsAt : option Z;
  sn_bannedTopics : option (list jstr);
  sn_activeTopics : option (list jstr);
}.

Definition getSnapshot (m : Machine) (lastEventSeqNo : Z) : Snapshot :=
  let s := m_state m in
  mkSnapshot (ms_id s) (ms_status s) (ms_currentRoundNo s) (ms_players s).*2
    (rd_question <$> m_round m) (rd_endsAt <$> m_round m) lastEventSeqNo
    (ms_candidateTopics s)
    (match ms_candidateTopics s with
     | Some (t :: ts) => Some (tallyTopicVotes (default [] (ms_topicVotes s)) (t :: ts))
     | _ => None
     end)
    (ms_phaseEndsAt s) (ms_bannedTopics s) (ms_activeTopics s).

Definition getHeadSeqNo (m : Machine) : Z :=
  match last (m_log m) with Some e => ev_seqNo e | None => 0 end.

Definition getFloorSeqNo (m : Machine) : Z :=
  match head (m_log m) with Some e => ev_seqNo e | None => 0 end.

Record DeltaEvent := mkDelta {
  de_id : jstr;
  de_event : Event;
}.

Definition after_cursor (lastSeenSeqNo : Z) (e : Event) : bool := lastSeenSeqNo <? ev_seqNo e.

Definition getDelta (m : Machine) (lastSeenSeqNo : Z) : list DeltaEvent :=
  (fun e => mkDelta (ms_id (m_state m) ++ js ":" ++ js_of_Z (ev_seqNo e)) e)
    <$> filter (after_cursor lastSeenSeqNo) (m_log m).

Definition getEventLog (m : Machine) : list Event := m_log m.

(** [forEachEvent]: the callback threads a state of its own and stops the walk
    by returning [false]. *)
Fixpoint walk_events {S} (callback : Event -> S -> bool * S) (es : list Event) (s : S) : S :=
  match es with
  | [] => s
  | e :: es' =>
      let '(go_on, s') := callback e s in
      if go_on then walk_events callback es' s' else s'
  end.

Definition forEachEvent {S} (m : Machine) (callback : Event -> S -> bool * S)
    (reverse : bool) (s : S) : S :=
  walk_events callback (if reverse then List.rev (m_log m) else m_log m) s.

(** [attachCorrectAnswer], the recovery path's re-attachment of the key. *)
Definition attachCorrectAnswer (correctAnswer : jstr) : MM unit :=
  modify (on_round (fun r =>
    if bool_decide (rd_status r = RACTIVE)
    then rd_set_correctAnswer (Some correctAnswer) r else r)).
