(* ===== verification/MachineCards.v ===== *)
(** * [match-state-machine.ts], continued: the ban vote, classes and cards

    The pre-match topic vote, the Phase 2 class and card methods, and the
    rebuilding of the card state from the event log. *)

From S2P Require Import Prelude JsData Effects Shared Cards Prng CardEngine Scoring.
From S2P Require Import TieBreak TopicVoting ClassEngine Machine.
#[local] Open Scope Z_scope.
#[local] Open Scope js_scope.

(** ** Topic ban voting *)

Definition initTopicVoting (candidateTopics : option (list jstr)) (durationMs : option Z)
    : MM (list jstr) :=
  m <- get ;;
  let candidates :=
    match candidateTopics with
    | Some (t :: ts) => t :: ts
    | _ => selectCandidateTopics_default (ms_id (m_state m))
    end in
  modify (on_state (set_topics (Some candidates) (Some []) (Some []) (Some []))) ;;
  let duration := default GAME_CONFIG.TOPIC_VOTING_DURATION_MS durationMs in
  transition TOPIC_VOTING ;;
  m <- get ;;
  start <- match ms_startedAt (m_state m) with Some t => ret t | None => date_now end ;;
  modify (on_state (set_phaseEndsAt (Some (start + duration)))) ;;
  logEvent (E_TOPIC_VOTING_STARTED (ms_id (m_state m)) candidates duration
              (Some (start + duration))) ;;
  ret candidates.

(** [if (metadata?.eventId)]: the empty string is dropped like [undefined]. *)
Definition truthy_str (o : option jstr) : option jstr :=
  match o with Some [] => None | _ => o end.

Definition voteBanTopic (playerId topic : jstr) (eventId : option jstr) : MM bool :=
  m <- get ;;
  let s := m_state m in
  closed <-
    (if negb (bool_decide (ms_status s = TOPIC_VOTING)) then ret true
     else match ms_phaseEndsAt s with
          | Some t => now <- date_now ;; ret (t <=? now)
          | None => ret false
          end) ;;
  if closed : bool then throw (RoomError TOPIC_VOTING_CLOSED)
  else if negb (bool_decide (pl_status <$> map_get playerId (ms_players s) = Some ACTIVE))
  then throw (RoomError PLAYER_NOT_IN_ROOM)
  else if negb (bool_decide (topic ∈ default [] (ms_candidateTopics s)))
  then throw (RoomError INVALID_TOPIC)
  else
    modify (on_state (fun s => set_topicVotes (Some (default [] (ms_topicVotes s))) s)) ;;
    if bool_decide (map_get playerId (default [] (ms_topicVotes s)) = Some topic) then ret true
    else
      modify (on_state (fun s =>
        set_topicVotes (Some (map_set playerId topic (default [] (ms_topicVotes s)))) s)) ;;
      logEvent (E_TOPIC_VOTE_SUBMITTED (ms_id s) playerId topic (truthy_str eventId)) ;;
      ret true.

Definition resolveTopicVoting (bannedCount : option Z) : MM TopicVotingResult :=
  m <- get ;;
  let s := m_state m in
  let result := resolveBannedTopics (default [] (ms_candidateTopics s))
                  (default [] (ms_topicVotes s)) (ms_id s)
                  (default GAME_CONFIG.TOPIC_VOTING_BANNED_COUNT bannedCount) in
  modify (on_state (fun s => set_topics (ms_candidateTopics s) (ms_topicVotes s)
    (Some (tv_bannedTopics result)) (Some (tv_activeTopics result)) s)) ;;
  logEvent (E_TOPIC_VOTING_FINISHED (ms_id s) (tv_bannedTopics result)
    (tv_activeTopics result) (tv_voteCounts result)) ;;
  ret result.

(** ** Effect kinds with a countdown *)

Definition TEMPORARY_KINDS : list jstr :=
  [js "OPTION_DISABLE"; js "OPTION_FAKE"; js "OPTION_LOCK"; js "VISUAL_OVERLAY";
   js "SEMANTIC_FLIP"].

Definition isTemporaryEffectKind (kind : jstr) : bool := set_has kind TEMPORARY_KINDS.

Definition getDurationMs (effect : CardEffect) : Z :=
  if negb (isTemporaryEffectKind (effect_kind effect)) then 0
  else match effect with
       | OPTION_DISABLE _ _ _ d | OPTION_FAKE _ d | OPTION_LOCK d
       | VISUAL_OVERLAY _ d | SEMANTIC_FLIP d => d
       | _ => 0
       end.

(** ** Reads of the card state *)

Definition getHand (m : Machine) (playerId : jstr) : list CardId :=
  default [] (map_get playerId (cs_hands (m_cards m))).
Definition getPickedCards (m : Machine) (playerId : jstr) : list CardId :=
  default [] (map_get playerId (cs_picked (m_cards m))).
Definition getPlayedCards (m : Machine) (playerId : jstr) : list CardId :=
  default [] (map_get playerId (cs_played (m_cards m))).
Definition getAoeCountForRound (m : Machine) (roundNo : Z) : Z :=
  default 0 (map_get roundNo (cs_aoe (m_cards m))).
Definition hasClassAssignments (m : Machine) : bool :=
  0 <? Z.of_nat (length (cs_classes (m_cards m))).

(** The envelope of an offer: the first entry with that number and player
    decides, an offer that does not hold three cards is no offer. *)
Definition is_offer_entry (playerId : jstr) (offerSeqNo : Z) (e : Event) : bool :=
  match ev_payload e with
  | E_CARD_OFFER _ p _ _ => bool_decide (ev_seqNo e = offerSeqNo) && bool_decide (p = playerId)
  | _ => false
  end.

Definition getCardOfferForPlayer (m : Machine) (playerId : jstr) (offerSeqNo : Z)
    : option (list CardId) :=
  match head (filter (is_offer_entry playerId offerSeqNo) (m_log m)) with
  | Some (mkEvent (E_CARD_OFFER _ _ ids _) _ _) =>
      if bool_decide (length ids = 3%nat) then Some ids else None
  | _ => None
  end.

Record ActiveEffectSnapshot := mkEffectSnapshot {
  as_sourceSeqNo : Z;
  as_effect : CardEffect;
  as_remainingMs : Z;
  as_persistedDurationMs : Z;
  as_expiresAtServer : Z;
}.

Definition effect_snapshot (serverNow : Z) (e : ActiveEffect) : ActiveEffectSnapshot :=
  mkEffectSnapshot (ae_sourceSeqNo e) (ae_effect e)
    (Z.max 0 (ae_expiresAtServer e - serverNow)) (ae_persistedDurationMs e)
    (ae_expiresAtServer e).

Definition getActiveEffects (m : Machine) (playerId : jstr) (serverNow : Z)
    : list ActiveEffectSnapshot :=
  filter (fun e => 0 < as_remainingMs e)
    (effect_snapshot serverNow <$> default [] (map_get playerId (cs_effects (m_cards m)))).

(** ** Writes of the card mirrors, one per kind of event

    The methods below and the reducer that rebuilds the mirrors from the log
    make the same updates at different moments. *)

Definition assign_classes_mirror (assignments : list ClassAssignment) (c : CardState) : CardState :=
  foldl (fun c a => cs_set_classes (map_set (ca_playerId a) (ca_classId a) (cs_classes c)) c)
    c assignments.

(** [new Set(); map.set(...); set.add(x)] on a map of sets. *)
Definition add_to_set (playerId : jstr) (cardId : CardId) (sets : JsMap jstr (list CardId))
    : JsMap jstr (list CardId) :=
  map_set playerId (set_add cardId (default [] (map_get playerId sets))) sets.

(** [sets.get(playerId)?.delete(cardId)] *)
Definition delete_from_set (playerId : jstr) (cardId : CardId) (sets : JsMap jstr (list CardId))
    : JsMap jstr (list CardId) :=
  match map_get playerId sets with
  | Some s => map_set playerId (set_delete cardId s) sets
  | None => sets
  end.

Definition push_effect (playerId : jstr) (e : ActiveEffect) (c : CardState) : CardState :=
  cs_set_effects (map_set playerId (default [] (map_get playerId (cs_effects c)) ++ [e])
                    (cs_effects c)) c.

Definition count_aoe (roundNo : Z) (c : CardState) : CardState :=
  cs_set_aoe (map_set roundNo (default 0 (map_get roundNo (cs_aoe c)) + 1) (cs_aoe c)) c.

Definition mark_played (playerId : jstr) (cardId : CardId) (c : CardState) : CardState :=
  cs_set_picked (delete_from_set playerId cardId (cs_picked c))
    (cs_set_played (add_to_set playerId cardId (cs_played c)) c).

(** ** Classes, offers, picks *)

Definition classAssignment (playerIds : list jstr) (seedUsed : jstr) : MM (list ClassAssignment) :=
  m <- get ;;
  let assignments := assignClasses playerIds seedUsed in
  logEvent (E_CLASS_ASSIGNED (ms_id (m_state m)) assignments seedUsed) ;;
  modify (on_cards (assign_classes_mirror assignments)) ;;
  ret assignments.

Definition offerable (m : Machine) (playerId : jstr) (cardId : CardId) : bool :=
  negb (set_has cardId (getPickedCards m playerId ++ getPlayedCards m playerId)).

Definition pickOffer (playerId : jstr) (roundNo : Z) (seedUsed : jstr)
    : MM (CardId * CardId * CardId) :=
  m <- get ;;
  match map_get playerId (cs_classes (m_cards m)) with
  | None => throw (RoomError PLAYER_NOT_IN_ROOM)
  | Some classId =>
      let availablePool := filter (offerable m playerId) (getClassPool classId) in
      match sampleOffer classId seedUsed (Some availablePool) with
      | Throw e => throw e
      | Ok r =>
          match sr_cards r with
          | [a; b; c] =>
              logEvent (E_CARD_OFFER roundNo playerId [a; b; c] seedUsed) ;;
              modify (on_cards (fun cs => cs_set_hands (map_set playerId [a; b; c] (cs_hands cs)) cs)) ;;
              modify (on_cards (fun cs => cs_set_picked (map_delete playerId (cs_picked cs)) cs)) ;;
              ret (a, b, c)
          | _ => throw (JsError "card-engine invariant: expected 3 cards")
          end
      end
  end.

Definition current_round_no (m : Machine) : Z :=
  match m_round m with Some r => rd_roundNo r | None => 0 end.

Definition without_card (cardId : CardId) (hand : list CardId) : list CardId :=
  filter (fun c => c ≠ cardId) hand.

Definition pickCard (pickedByPlayerId : jstr) (cardId : CardId) (offerSeqNo : Z)
    (eventId commandId : option jstr) : MM unit :=
  m <- get ;;
  let hand := getHand m pickedByPlayerId in
  if negb (bool_decide (cardId ∈ hand)) then throw (RoomError CARD_NOT_IN_HAND)
  else
    logEvent (E_CARD_PICKED (current_round_no m) pickedByPlayerId cardId offerSeqNo
                (truthy_str eventId) (truthy_str commandId)) ;;
    modify (on_cards (fun c =>
      cs_set_hands (map_set pickedByPlayerId (without_card cardId hand) (cs_hands c)) c)) ;;
    modify (on_cards (fun c => cs_set_picked (add_to_set pickedByPlayerId cardId (cs_picked c)) c)).

(** ** Playing a card *)

Record PlayResult := mkPlayResult {
  pr_seqNo : Z;
  pr_expiresAtServer : option Z;
  pr_remainingMs : option Z;
}.

Definition playCard (playedByPlayerId : jstr) (cardId : CardId) (offerSeqNo : Z)
    (resolvedEffect : CardEffect) (targetPlayerIds : list jstr) (serverNow : Z)
    (eventId commandId : option jstr) : MM PlayResult :=
  m <- get ;;
  match m_round m with
  | Some round =>
    if negb (bool_decide (ms_status (m_state m) = ROUND_ACTIVE)
             && bool_decide (rd_status round = RACTIVE))
    then throw (RoomError ROUND_NOT_ACTIVE)
    else
      let isTemporary := isTemporaryEffectKind (effect_kind resolvedEffect) in
      let expiresAtServer := if isTemporary then serverNow + getDurationMs resolvedEffect else 0 in
      let remainingMs := if isTemporary then expiresAtServer - serverNow else 0 in
      let currentRoundNo := rd_roundNo round in
      let targetRoundNo := match resolvedEffect with
                           | SHIELD expiresAtRound => expiresAtRound
                           | _ => currentRoundNo
                           end in
      let seqNo := m_seq m + 1 in
      let nullable (z : Z) := if isTemporary then Some z else None in
      allocatedSeqNo <- logEvent (E_CARD_RESOLVED (mkResolved seqNo (ms_id (m_state m))
        currentRoundNo targetRoundNo cardId offerSeqNo playedByPlayerId targetPlayerIds
        resolvedEffect (if isTemporary then TEMPORARY else MUTATION) serverNow
        (nullable expiresAtServer) (nullable remainingMs)
        (truthy_str eventId) (truthy_str commandId))) ;;
      if negb (allocatedSeqNo =? seqNo)
      then throw (JsError "match-state-machine: seqNo drift in playCard")
      else
        (if isTemporary then
           modify (on_cards (push_effect playedByPlayerId
             (mkActiveEffect seqNo resolvedEffect expiresAtServer (getDurationMs resolvedEffect))))
         else ret tt) ;;
        (match resolvedEffect with
         | SECOND_CHANCE =>
             modify (on_cards (fun c => cs_set_secondChance
                                          (set_add playedByPlayerId (cs_secondChance c)) c)) ;;
             logEvent (E_SECOND_CHANCE_GRANTED playedByPlayerId currentRoundNo) ;;
             ret tt
         | _ => ret tt
         end) ;;
        (if 1 <? Z.of_nat (length targetPlayerIds)
         then modify (on_cards (count_aoe currentRoundNo)) else ret tt) ;;
        modify (on_cards (mark_played playedByPlayerId cardId)) ;;
        ret (mkPlayResult seqNo (nullable expiresAtServer) (nullable remainingMs))
  | None => throw (RoomError ROUND_NOT_ACTIVE)
  end.

(** ** Rehydration *)

Definition rehydrateCardOffer (playerId : jstr) (ids : list CardId) (c : CardState) : CardState :=
  if bool_decide (length ids = 3%nat)
  then cs_set_picked (map_delete playerId (cs_picked c))
         (cs_set_hands (map_set playerId ids (cs_hands c)) c)
  else c.

Definition rehydrateCardPicked (playerId : jstr) (cardId : CardId) (c : CardState) : CardState :=
  let hand := default [] (map_get playerId (cs_hands c)) in
  cs_set_picked (add_to_set playerId cardId (cs_picked c))
    (cs_set_hands (map_set playerId (without_card cardId hand) (cs_hands c)) c).

Definition rehydrateCardResolved (seqNo : Z) (p : CardResolvedPayload) (c : CardState)
    : CardState :=
  let c1 := mark_played (cr_playedByPlayerId p) (cr_cardId p) c in
  let c2 := match cr_resolution p with
            | TEMPORARY =>
                push_effect (cr_playedByPlayerId p)
                  (mkActiveEffect seqNo (cr_effect p) (default 0 (cr_expiresAtServer p))
                     (getDurationMs (cr_effect p))) c1
            | MUTATION => c1
            end in
  if 1 <? Z.of_nat (length (cr_targetPlayerIds p)) then count_aoe (cr_roundNo p) c2 else c2.

Definition rehydrateEvent (c : CardState) (e : Event) : CardState :=
  match ev_payload e with
  | E_ROUND_STARTED _ _ _ _ => cs_set_secondChance [] c
  | E_SECOND_CHANCE_GRANTED p _ =>
      if bool_decide (p = []) then c else cs_set_secondChance (set_add p (cs_secondChance c)) c
  | E_SECOND_CHANCE_CONSUMED p _ =>
      if bool_decide (p = []) then c else cs_set_secondChance (set_delete p (cs_secondChance c)) c
  | E_CLASS_ASSIGNED _ assignments _ => assign_classes_mirror assignments c
  | E_CARD_OFFER _ playerId ids _ => rehydrateCardOffer playerId ids c
  | E_CARD_PICKED _ playerId cardId _ _ _ => rehydrateCardPicked playerId cardId c
  | E_CARD_RESOLVED p => rehydrateCardResolved (ev_seqNo e) p c
  | _ => c
  end.

Definition rehydrateCardStateFromEventLog (log : list Event) : CardState :=
  foldl rehydrateEvent empty_cards log.
