(* ===== verification/MachineOps.v ===== *)
(** * The state machine as a transition system

    Every public mutator is a constructor of [Op]; [exec] runs it, whatever it
    returns or throws.  The states a match goes through are those reachable
    from a new machine.  The log, its sequence numbers, the delta protocol, the
    status history and the event-sourced card state are proved here. *)

From S2P Require Import Prelude JsData Effects Shared Cards Prng CardEngine Scoring.
From S2P Require Import TieBreak TopicVoting ClassEngine Machine MachineCards.
#[local] Open Scope Z_scope.
#[local] Open Scope js_scope.

(** ** Operations *)

Inductive Op :=
| OTransition (to : MatchStatus)
| OStartRound (question : QuestionInput) (roundDurationMs : option Z)
| OSubmitAnswer (playerId answer : jstr) (serverTimestamp : Z) (submissionId : option jstr)
| OEvaluateRound
| ODetermineWinner
| OFinishMatch
| ODisconnectPlayer (playerId : jstr)
| OReconnectPlayer (playerId : jstr)
| OAttachCorrectAnswer (correctAnswer : jstr)
| OInitTopicVoting (candidateTopics : option (list jstr)) (durationMs : option Z)
| OVoteBanTopic (playerId topic : jstr) (eventId : option jstr)
| OResolveTopicVoting (bannedCount : option Z)
| OClassAssignment (playerIds : list jstr) (seedUsed : jstr)
| OPickOffer (playerId : jstr) (roundNo : Z) (seedUsed : jstr)
| OPickCard (playerId : jstr) (cardId : CardId) (offerSeqNo : Z) (eventId commandId : option jstr)
| OPlayCard (playerId : jstr) (cardId : CardId) (offerSeqNo : Z) (effect : CardEffect)
    (targets : list jstr) (serverNow : Z) (eventId commandId : option jstr).

Definition discard {A} (x : MM A) : MM unit := x ;; ret tt.

Definition exec (op : Op) : MM unit :=
  match op with
  | OTransition to => transition to
  | OStartRound q d => discard (startRound q d)
  | OSubmitAnswer p a t sid => discard (submitAnswer p a t sid)
  | OEvaluateRound => discard evaluateRound
  | ODetermineWinner => discard determineWinner
  | OFinishMatch => finishMatch
  | ODisconnectPlayer p => disconnectPlayer p
  | OReconnectPlayer p => reconnectPlayer p
  | OAttachCorrectAnswer a => attachCorrectAnswer a
  | OInitTopicVoting cs d => discard (initTopicVoting cs d)
  | OVoteBanTopic p t e => discard (voteBanTopic p t e)
  | OResolveTopicVoting n => discard (resolveTopicVoting n)
  | OClassAssignment ps seed => discard (classAssignment ps seed)
  | OPickOffer p r seed => discard (pickOffer p r seed)
  | OPickCard p cid o e k => pickCard p cid o e k
  | OPlayCard p cid o eff ts now e k => discard (playCard p cid o eff ts now e k)
  end.

Definition after (op : Op) (m : Machine) (c : Clock) : Machine := run_state (exec op) m c.

(** The states reached from [Init] by operations [Allow] lets through, each
    run under any clock in range and with any outcome. *)
Inductive reachable (Init : Machine -> Prop) (Allow : Machine -> Op -> Prop) : Machine -> Prop :=
| reach_init m : Init m -> reachable Init Allow m
| reach_step m op c :
    reachable Init Allow m -> Allow m op -> clock_in_range c ->
    reachable Init Allow (after op m c).

Definition fresh (m : Machine) : Prop :=
  exists matchId roomId players, m = new_machine matchId roomId players.
Definition any_op (m : Machine) (op : Op) : Prop := True.

(** Rule induction, for an invariant every allowed operation keeps. *)
Lemma reachable_inv (Init : Machine -> Prop) Allow (I : Machine -> Prop) :
  (forall m, Init m -> I m) ->
  (forall m op c, I m -> Allow m op -> clock_in_range c -> I (after op m c)) ->
  forall m, reachable Init Allow m -> I m.
Proof. intros H0 Hs m Hr. induction Hr; eauto. Qed.

(** A reflexive and transitive relation every operation keeps. *)
Lemma reachable_from Allow (R : Machine -> Machine -> Prop) `{!PreOrder R} m0 :
  (forall m op c, Allow m op -> clock_in_range c -> R m (after op m c)) ->
  forall m, reachable (eq m0) Allow m -> R m0 m.
Proof.
  intros Hs m Hr. induction Hr as [m <-|m op c Hr IH Ha Hc]; [reflexivity|].
  etransitivity; [exact IH|by apply Hs].
Qed.

(** ** Symbolic execution *)

Definition append_event (p : EventPayload) (t : Z) (m : Machine) : Machine :=
  mkMachine (m_state m) (m_round m) (m_log m ++ [mkEvent p t (m_seq m + 1)]) (m_seq m + 1)
    (m_cards m) (m_elimFrozen m).

Lemma logEvent_run p m c :
  logEvent p m c = (Ok (m_seq m + 1), append_event p (clock_tick c).1 m, (clock_tick c).2).
Proof. reflexivity. Qed.

(** [run] executes a method: the monad's operations are reduced, the guards it
    is stuck on are split. *)
Ltac run_simpl :=
  cbv beta iota zeta delta [discard bind get modify ret throw date_now run_state run_outcome];
  rewrite ?logEvent_run; cbn [fst snd clock_tick clock_reading clock_ticks];
  cbv beta iota zeta.
Ltac run_split :=
  match goal with
  | |- context [ (match ?x with _ => _ end) _ _ ] => destruct x eqn:?; run_simpl
  end.
Ltac run := repeat (progress run_simpl); repeat (run_split; repeat (progress run_simpl)).

(** The methods themselves are unfolded by name. *)
Ltac unfold_ops :=
  unfold after, exec, initTopicVoting, transition, startRound, submitAnswer, evaluateRound, finishMatch,
    determineWinner, tieBreak, disconnectPlayer, reconnectPlayer, update_player,
    attachCorrectAnswer, voteBanTopic, resolveTopicVoting, classAssignment,
    pickOffer, pickCard, playCard.

Ltac run_op op := destruct op; unfold_ops; run.

(** ** The log: numbering and append-only growth *)

Definition numbered (m : Machine) : Prop :=
  m_seq m = Z.of_nat (length (m_log m))
  /\ ev_seqNo <$> m_log m = seqZ 1 (Z.of_nat (length (m_log m))).

Lemma seqZ_one n : [n + 1] = seqZ (1 + n) (Z.of_nat 1).
Proof. rewrite seqZ_cons by lia. cbn. f_equal. lia. Qed.

Lemma numbered_append m p t : numbered m -> numbered (append_event p t m).
Proof.
  unfold numbered. cbn. rewrite length_app, fmap_app. intros [-> H]. rewrite H. cbn [length].
  split; [lia|]. rewrite Nat2Z.inj_add, seqZ_app by lia. f_equal. apply seqZ_one.
Qed.

Lemma numbered_after op m c : numbered m -> numbered (after op m c).
Proof.
  intros H. run_op op; first [exact H|repeat apply (numbered_append _ _ _ H)|idtac].
  all: try exact (numbered_append _ _ _ H).
  all: exact (numbered_append _ _ _ (numbered_append _ _ _ H)).
Qed.

Lemma numbered_reachable m : reachable fresh any_op m -> numbered m.
Proof.
  apply reachable_inv; [|intros; by apply numbered_after].
  by intros ? (matchId & roomId & players & ->).
Qed.

Definition log_extends (m m' : Machine) : Prop := m_log m `prefix_of` m_log m'.

#[export] Instance log_extends_PreOrder : PreOrder log_extends.
Proof. unfold log_extends. split; [intros m|intros m1 m2 m3]; [done|apply transitivity]. Qed.

Lemma log_extends_append m m' p t : log_extends m m' -> log_extends m (append_event p t m').
Proof. unfold log_extends. intros H. cbn. by apply prefix_app_r. Qed.

Lemma log_extends_after op m c : log_extends m (after op m c).
Proof.
  pose proof (reflexivity m : log_extends m m) as H.
  run_op op; first [exact H|exact (log_extends_append _ _ _ _ H)
    |exact (log_extends_append _ _ _ _ (log_extends_append _ _ _ _ H))].
Qed.

Lemma log_extends_reachable Allow m m' : reachable (eq m) Allow m' -> log_extends m m'.
Proof. apply (reachable_from _ log_extends). intros. apply log_extends_after. Qed.

Lemma numbered_cursors m :
  numbered m ->
  getHeadSeqNo m = Z.of_nat (length (m_log m))
  /\ getFloorSeqNo m = (if decide (m_log m = []) then 0 else 1).
Proof.
  intros [_ Hseq]. unfold getHeadSeqNo, getFloorSeqNo.
  destruct (m_log m) as [|e l _] eqn:El using rev_ind; [done|].
  rewrite last_snoc, length_app in *. cbn [length] in *.
  rewrite fmap_app, Nat2Z.inj_add, seqZ_app in Hseq by lia.
  apply app_inj_2 in Hseq as [Hl He]; [|done]. rewrite <- seqZ_one in He.
  cbn in He. injection He as He. split; [rewrite He; lia|]. rewrite decide_False by by destruct l.
  destruct l as [|e' l]; cbn in *; [by rewrite He|].
  rewrite seqZ_cons in Hl by lia. by injection Hl.
Qed.

(** C27: the event log of every reachable match is numbered 1, 2, 3, ... without
    a gap or a repetition, whatever operations ran and failed; the head cursor
    is the number of events and the floor cursor the first number. *)
Theorem log_sequenced (m : Machine) :
  reachable fresh any_op m ->
  ev_seqNo <$> m_log m = seqZ 1 (Z.of_nat (length (m_log m)))
  /\ getHeadSeqNo m = Z.of_nat (length (m_log m))
  /\ getFloorSeqNo m = (if decide (m_log m = []) then 0 else 1).
Proof.
  intros Hm%numbered_reachable. split; [apply Hm|by apply numbered_cursors].
Qed.

(** ** Delta replay *)

Lemma after_cursor_spec k e : after_cursor k e <-> k < ev_seqNo e.
Proof. unfold after_cursor. by rewrite Is_true_true, Z.ltb_lt. Qed.

Lemma filter_after_cursor (l : list Event) (start k : Z) :
  ev_seqNo <$> l = seqZ (start + 1) (Z.of_nat (length l)) -> start <= k ->
  filter (after_cursor k) l = drop (Z.to_nat (k - start)) l.
Proof.
  revert start. induction l as [|e l IH]; intros start Hseq Hk; [by rewrite drop_nil|].
  cbn [length fmap list_fmap] in Hseq. rewrite seqZ_cons in Hseq by lia.
  injection Hseq as He Hl. rewrite filter_cons.
  destruct (decide (k = start)) as [->|].
  - rewrite decide_True by (rewrite after_cursor_spec; lia). rewrite Z.sub_diag.
    change (drop (Z.to_nat 0) (e :: l)) with (e :: l). f_equal. clear IH He. assert (Hge : forall x, x ∈ l -> start < ev_seqNo x).
    { intros x Hx. apply (list_elem_of_fmap_2 ev_seqNo) in Hx. rewrite Hl in Hx.
      apply elem_of_seqZ in Hx. lia. }
    clear Hl. induction l as [|x l IH]; [done|]. rewrite filter_cons, decide_True.
    + f_equal. apply IH. intros. apply Hge. by right.
    + apply after_cursor_spec, Hge. by left.
  - rewrite decide_False by (rewrite after_cursor_spec; lia).
    replace (Z.to_nat (k - start)) with (S (Z.to_nat (k - (start + 1)))) by lia. cbn.
    apply IH; [|lia]. rewrite Hl. f_equal; lia.
Qed.

(** Delta replay is exact.  A client that holds the events up to a cursor
    inside the log of a match, and later asks for the delta, ends with the log
    of the match: nothing is lost, repeated or reordered; a cursor at the
    head gets nothing. *)
Theorem getDelta_completes (m m' : Machine) (k : nat) :
  reachable fresh any_op m -> reachable (eq m) any_op m' -> (k <= length (m_log m))%nat ->
  take k (m_log m) ++ (de_event <$> getDelta m' (Z.of_nat k)) = m_log m'
  /\ getDelta m (getHeadSeqNo m) = [].
Proof.
  intros Hr Hr' Hk. pose proof (log_extends_reachable _ _ _ Hr') as [l Hl].
  pose proof (numbered_reachable _ Hr) as Hm. assert (Hm' : numbered m').
  { revert Hr'. apply reachable_inv; [by intros ? <-|intros; by apply numbered_after]. }
  unfold getDelta. rewrite <- list_fmap_compose. cbn. split.
  - rewrite (filter_after_cursor _ 0) by first [apply Hm'|lia].
    rewrite Z.sub_0_r, Nat2Z.id. rewrite (list_fmap_ext _ id), list_fmap_id by done.
    rewrite <- (take_drop k (m_log m')) at 2. f_equal. rewrite Hl. by rewrite take_app_le.
  - rewrite (proj1 (numbered_cursors m Hm)).
    rewrite (filter_after_cursor _ 0) by first [apply Hm|lia].
    by rewrite Z.sub_0_r, Nat2Z.id, drop_all.
Qed.

(** ** The status history *)

(** The status a log leads to, if every transition it records is a legal step
    from the status before it. *)
Definition follow_transition (status : option MatchStatus) (e : Event) : option MatchStatus :=
  match ev_payload e, status with
  | E_STATE_TRANSITION from to, Some s =>
      if bool_decide (from = s) && bool_decide (to ∈ VALID_TRANSITIONS s) then Some to else None
  | _, _ => status
  end.

Definition status_of_log (log : list Event) : option MatchStatus :=
  foldl follow_transition (Some CREATED) log.

Definition status_logged (m : Machine) : Prop :=
  status_of_log (m_log m) = Some (ms_status (m_state m)).

Lemma status_of_log_snoc log p t n :
  status_of_log (log ++ [mkEvent p t n])
  = follow_transition (status_of_log log) (mkEvent p t n).
Proof. unfold status_of_log. by rewrite foldl_app. Qed.

(** [state_simpl] computes the fields of the state a method leaves. *)
Ltac state_simpl :=
  cbn [append_event on_state on_round on_cards set_round freeze_eliminated
       m_state m_round m_log m_seq m_cards m_elimFrozen
       set_status set_rounds set_players set_standing set_winnerId set_startedAt set_endedAt
       set_phaseEndsAt set_roundResultStartedAt set_topics set_topicVotes
       ms_id ms_roomId ms_status ms_currentRoundNo ms_totalRounds ms_players
       ms_survivingPlayerIds ms_eliminatedPlayerIds ms_winnerId ms_startedAt ms_endedAt
       ms_phaseEndsAt ms_roundResultStartedAt ms_candidateTopics ms_topicVotes ms_bannedTopics
       ms_activeTopics] in *.

Lemma status_logged_after op m c : status_logged m -> status_logged (after op m c).
Proof.
  unfold status_logged, canTransition. intros H.
  run_op op; unfold canTransition in *; state_simpl;
    rewrite ?status_of_log_snoc, ?H; unfold follow_transition; cbn [ev_payload];
    try reflexivity; repeat case_match; bool_to_prop; state_simpl; try congruence;
    match goal with Hf : _ && _ = false |- _ => apply andb_false_iff in Hf as [Hf|Hf] end;
    bool_to_prop; done.
Qed.

Lemma status_logged_reachable m : reachable fresh any_op m -> status_logged m.
Proof.
  apply reachable_inv; [|intros; by apply status_logged_after].
  by intros ? (matchId & roomId & players & ->).
Qed.

(** C26: the status of every reachable match is the end of the path of
    transitions its log records, each of them a legal step from the status
    before it, starting at CREATED. *)
Theorem status_history (m : Machine) :
  reachable fresh any_op m -> status_of_log (m_log m) = Some (ms_status (m_state m)).
Proof. apply status_logged_reachable. Qed.

Definition finished_stays (m m' : Machine) : Prop :=
  ms_status (m_state m) = FINISHED -> ms_status (m_state m') = FINISHED.

#[export] Instance finished_stays_PreOrder : PreOrder finished_stays.
Proof. unfold finished_stays. split; [intros m|intros m1 m2 m3]; auto. Qed.

Lemma finished_stays_after op m c : finished_stays m (after op m c).
Proof.
  unfold finished_stays. intros H. run_op op; unfold canTransition in *; state_simpl;
    repeat case_match; state_simpl; try assumption;
    rewrite H in *; bool_to_prop; try done; exfalso; by eapply not_elem_of_nil.
Qed.

(** ** Accepted submissions *)

Lemma submit_check_accept m p t sid r retry :
  submit_check m p t sid = SubmitAccept r retry ->
  m_round m = Some r /\ rd_status r = RACTIVE /\ t <= rd_endsAt r
  /\ pl_status <$> map_get p (ms_players (m_state m)) = Some ACTIVE
  /\ (retry = false /\ map_get p (rd_answers r) = None
      \/ retry = true /\ is_Some (map_get p (rd_answers r))
         /\ p ∈ cs_secondChance (m_cards m)).
Proof.
  unfold submit_check. destruct (m_round m) as [round|]; [|done].
  destruct (map_get p (rd_answers round)) as [e|] eqn:He; cbn.
  - destruct (match sid with Some s => _ | None => _ end); [done|].
    destruct (set_has p _) eqn:Hs; cbn; [|done]. apply set_has_spec in Hs.
    repeat case_match; bool_to_prop; try done. intros [= <- <-]. rewrite He. naive_solver.
  - repeat case_match; bool_to_prop; try done. intros [= <- <-]. naive_solver.
Qed.

(** ** The card state is the fold of the log *)

Definition player_ids_truthy (m : Machine) (op : Op) : Prop :=
  match op with OPlayCard playerId _ _ _ _ _ _ _ => playerId <> [] | _ => True end.

Definition event_sourced (m : Machine) : Prop :=
  rehydrateCardStateFromEventLog (m_log m) = m_cards m
  /\ [] ∉ cs_secondChance (m_cards m).

Lemma rehydrate_snoc log e :
  rehydrateCardStateFromEventLog (log ++ [e])
  = rehydrateEvent (rehydrateCardStateFromEventLog log) e.
Proof. unfold rehydrateCardStateFromEventLog. by rewrite foldl_app. Qed.

Ltac cards_simpl :=
  cbn [rehydrateEvent ev_payload ev_seqNo ev_timestamp cs_set_classes cs_set_hands cs_set_effects cs_set_played
       cs_set_picked cs_set_aoe cs_set_secondChance cs_classes cs_hands cs_effects cs_played
       cs_picked cs_aoe cs_secondChance mark_played push_effect count_aoe] in *.

Lemma assign_classes_mirror_secondChance l c :
  cs_secondChance (assign_classes_mirror l c) = cs_secondChance c.
Proof. revert c. unfold assign_classes_mirror. induction l as [|a l IH]; intros c; [done|].
  cbn. by rewrite IH. Qed.

Lemma event_sourced_after op m c :
  event_sourced m -> player_ids_truthy m op -> event_sourced (after op m c).
Proof.
  unfold event_sourced. intros [H Hne] Hop. destruct op; cbn in Hop.
  all: unfold_ops; run; state_simpl; rewrite ?rehydrate_snoc, ?H; cards_simpl;
    try (split; [reflexivity|done]).
  all: unfold rehydrateCardResolved; rewrite ?Z.eqb_refl in *; try discriminate.
  all: cbn [cr_playedByPlayerId cr_cardId cr_resolution cr_effect cr_expiresAtServer
            cr_targetPlayerIds cr_roundNo].
  all: rewrite ?bool_decide_eq_false_2 by done.
  all: repeat match goal with Hb : (1 <? _) = _ |- _ => rewrite Hb; clear Hb end.
  all: try (split; [reflexivity|done]).
  - split; [reflexivity|apply not_elem_of_nil].
  - apply submit_check_accept in Heqs as (_ & _ & _ & _ & [[? _]|(_ & _ & Hin)]); [done|].
    rewrite bool_decide_eq_false_2 by (by intros ->). split; [done|].
    by rewrite elem_of_set_delete; intros [].
  - by rewrite assign_classes_mirror_secondChance.
  - split; [reflexivity|]. by rewrite elem_of_set_add; intros [].
  - split; [reflexivity|]. by rewrite elem_of_set_add; intros [].
Qed.

(** C12: the event log is the authoritative source of the card state.  In every
    reachable match the mirrors kept incrementally (classes, hands, active
    effects, played and picked cards, AOE counters, second chances) are exactly
    what the recovery path rebuilds from the log. *)
Theorem card_state_event_sourced (m : Machine) :
  reachable fresh player_ids_truthy m -> rehydrateCardStateFromEventLog (m_log m) = m_cards m.
Proof.
  intros Hr. apply (reachable_inv fresh player_ids_truthy event_sourced); [| |done].
  - intros ? (matchId & roomId & players & ->). split; [done|apply not_elem_of_nil].
  - intros ? op c Hm Hop _. by apply event_sourced_after.
Qed.

(** ** Failures leave no trace *)

(** The two operations that can throw after a write: [initTopicVoting] replaces
    the topic fields before it asks for the transition, [evaluateRound] pushes
    on an array an earlier tie-break may have frozen. *)
Definition checks_first (m : Machine) (op : Op) : bool :=
  match op with
  | OInitTopicVoting _ _ => false
  | OEvaluateRound => negb (m_elimFrozen m)
  | _ => true
  end.

(** An operation that throws leaves the match exactly as it was, with no
    event logged: guards are all checked before the first write. *)
Theorem throw_changes_nothing (m : Machine) (op : Op) (c : Clock) (e : exn) :
  checks_first m op = true -> run_outcome (exec op) m c = Throw e -> after op m c = m.
Proof.
  destruct op; cbn [checks_first]; intros Hop; try discriminate;
    unfold_ops; run; rewrite ?Z.eqb_refl in *; try reflexivity; try discriminate.
  all: try (intros; bool_to_prop; congruence).
Qed.

(** ** Runs of operations *)

Definition exec_all (ops : list Op) (m : Machine) (c : Clock) : Machine :=
  foldl (fun m op => after op m c) m ops.

Lemma exec_all_reachable Init (Allow : Machine -> Op -> Prop) ops m c :
  reachable Init Allow m -> clock_in_range c ->
  (forall m' op, op ∈ ops -> Allow m' op) -> reachable Init Allow (exec_all ops m c).
Proof.
  unfold exec_all. revert m. induction ops as [|op ops IH]; intros m Hm Hc Ha; [done|].
  cbn. apply IH; [|done|intros; apply Ha; by right].
  apply reach_step; [done|apply Ha; by left|done].
Qed.

(** A clock that ticks one millisecond per reading. *)
Definition demo_clock : Clock := mkClock (fun i => Z.min 1000000 (1000 + Z.of_nat i)) 0.

Lemma demo_clock_in_range : clock_in_range demo_clock.
Proof. intros i. cbn. unfold MAX_TIME. lia. Qed.

(** ** A match to evaluate the theorems on *)

Definition demo_player (id : jstr) : PlayerInfo := mkPlayer id id ACTIVE 0 0 0 true.
Definition demo_start : Machine :=
  new_machine (js "m1") (js "r1") (demo_player <$> [js "p1"; js "p2"; js "p3"]).
Definition demo_question : QuestionInput :=
  mkQuestionInput (js "q1") (js "2+2?") [js "3"; js "4"; js "5"; js "6"] (js "B") None.

(** Classes, the first round, an offer, a card picked and played, two answers. *)
Definition demo_round_ops : list Op :=
  [OTransition COUNTDOWN; OClassAssignment [js "p1"; js "p2"; js "p3"] (js "seed");
   OTransition ROUND_ACTIVE; OStartRound demo_question None;
   OPickOffer (js "p1") 1 (js "seed"); OPickCard (js "p1") TN_7 5 None None;
   OPlayCard (js "p1") TN_7 5 (VISUAL_OVERLAY DEEP_READ 5000) [js "p1"] 1100 None None;
   OSubmitAnswer (js "p1") (js "B") 1200 (Some (js "s1"));
   OSubmitAnswer (js "p2") (js "C") 1300 (Some (js "s2"))].
Definition demo_end_ops : list Op :=
  [OTransition ROUND_EVALUATING; OEvaluateRound; OTransition ROUND_RESULT].

Definition demo_mid : Machine := exec_all demo_round_ops demo_start demo_clock.
Definition demo_end : Machine := exec_all demo_end_ops demo_mid demo_clock.

Lemma demo_start_fresh : fresh demo_start.
Proof. by exists (js "m1"), (js "r1"), (demo_player <$> [js "p1"; js "p2"; js "p3"]). Qed.

Lemma demo_mid_reachable : reachable fresh any_op demo_mid.
Proof.
  apply exec_all_reachable; [apply reach_init, demo_start_fresh|apply demo_clock_in_range|done].
Qed.

Lemma demo_end_reachable : reachable fresh any_op demo_end.
Proof. apply exec_all_reachable; [apply demo_mid_reachable|apply demo_clock_in_range|done]. Qed.

Lemma demo_mid_to_end : reachable (eq demo_mid) any_op demo_end.
Proof. apply exec_all_reachable; [by apply reach_init|apply demo_clock_in_range|done]. Qed.

Lemma log_sequenced_witness :
  length (m_log demo_end) = 12%nat /\ getHeadSeqNo demo_end = 12.
Proof.
  assert (H : length (m_log demo_end) = 12%nat) by (vm_compute; reflexivity).
  split; [exact H|]. destruct (log_sequenced demo_end demo_end_reachable) as (_ & Hh & _).
  rewrite Hh, H. reflexivity.
Defined.

Lemma getDelta_completes_witness :
  take 7 (m_log demo_mid) ++ (de_event <$> getDelta demo_end 7) = m_log demo_end.
Proof.
  refine (proj1 (getDelta_completes demo_mid demo_end 7 demo_mid_reachable demo_mid_to_end _)).
  apply Nat.leb_le. vm_compute. reflexivity.
Defined.

Lemma status_history_witness :
  status_of_log (m_log demo_end) = Some (ms_status (m_state demo_end))
  /\ ms_status (m_state demo_end) = ROUND_RESULT.
Proof. split; [exact (status_history demo_end demo_end_reachable)|vm_compute; reflexivity]. Defined.

Lemma card_state_event_sourced_witness :
  rehydrateCardStateFromEventLog (m_log demo_mid) = m_cards demo_mid
  /\ map_get (js "p1") (cs_played (m_cards demo_mid)) = Some [TN_7].
Proof.
  split; [|vm_compute; reflexivity]. apply (card_state_event_sourced demo_mid).
  apply exec_all_reachable; [apply reach_init, demo_start_fresh|apply demo_clock_in_range|].
  intros m' op Hin. unfold demo_round_ops in Hin.
  repeat (apply elem_of_cons in Hin as [->|Hin]; [first [exact I|discriminate]|]).
  by apply elem_of_nil in Hin.
Defined.

Lemma throw_changes_nothing_witness :
  after (OTransition COUNTDOWN) demo_end demo_clock = demo_end.
Proof.
  apply (throw_changes_nothing demo_end (OTransition COUNTDOWN) demo_clock
           (JsError "Invalid transition")); vm_compute; reflexivity.
Defined.
