(* ===== verification/MachineRounds.v ===== *)
(** * Rounds, scores and the winner

    The deadlines a failover rebuilds its timers from, the answers a round
    records, the evaluation of a round, the partition of the roster into
    survivors and eliminated, the score bounds and the choice of the winner. *)

From Stdlib Require Import QArith.
From S2P Require Import Prelude JsData Effects Shared Cards Prng CardEngine Scoring.
From S2P Require Import TieBreak TopicVoting ClassEngine Machine MachineCards MachineOps.
#[local] Open Scope Z_scope.
#[local] Open Scope js_scope.

(** The lookups and rounds a goal of [run_op] is still stuck on. *)
Ltac split_lookups :=
  repeat match goal with
  | Hr : m_round ?m = _ |- context [m_round ?m] => rewrite Hr
  | Hr : ?f (m_state ?m) = _ |- context [?f (m_state ?m)] => rewrite Hr
  | |- context [map_get ?k ?l] => destruct (map_get k l)
  end.

(** ** Phase deadlines *)

(** The result anchor exists exactly in ROUND_RESULT, [RESULT_DISPLAY_MS] before
    the deadline; the deadline of an active round is the round's own; phases
    that wait for no clock have none. *)
Definition timing_ok (status : MatchStatus) (resultStartedAt phaseEndsAt roundEndsAt : option Z)
    : Prop :=
  match status with
  | ROUND_RESULT => exists t, resultStartedAt = Some t /\ 0 <= t <= MAX_TIME
      /\ phaseEndsAt = Some (t + GAME_CONFIG.RESULT_DISPLAY_MS)
  | ROUND_ACTIVE => resultStartedAt = None /\ phaseEndsAt = roundEndsAt
  | ROUND_EVALUATING | FINISHED | CREATED => resultStartedAt = None /\ phaseEndsAt = None
  | COUNTDOWN | TOPIC_VOTING => resultStartedAt = None /\ is_Some phaseEndsAt
  end.

Definition phase_timing (m : Machine) : Prop :=
  timing_ok (ms_status (m_state m)) (ms_roundResultStartedAt (m_state m))
    (ms_phaseEndsAt (m_state m)) (rd_endsAt <$> m_round m).

Lemma canTransition_CREATED m : canTransition m CREATED = false.
Proof. unfold canTransition. by destruct (ms_status (m_state m)). Qed.

Lemma phase_timing_after op m c :
  clock_in_range c -> phase_timing m -> phase_timing (after op m c).
Proof.
  unfold phase_timing. intros Hc H. run_op op; state_simpl; try exact H.
  all: try (rewrite canTransition_CREATED in *; discriminate).
  all: try (split; [reflexivity|first [reflexivity|done]]).
  all: split_lookups; state_simpl; try exact H; try (destruct (m_round m); exact H).
  - unfold timing_ok. eexists. split_and!; [reflexivity|apply Hc|apply Hc|reflexivity].
  - bool_to_prop. rewrite Heqb. by split.
  - destruct (m_round m) as [r|]; [|exact H]. cbn in *. by case_match.
Qed.

(** In every reachable match the persisted deadlines are the ones a failover
    needs.  The result anchor is set exactly in ROUND_RESULT, a valid time, and
    the deadline is the anchor plus [RESULT_DISPLAY_MS] to the millisecond; an
    active round's deadline is the round's [endsAt]; phases that wait for no
    clock carry no deadline; countdown and voting always carry one. *)
Theorem phase_deadlines (m : Machine) : reachable fresh any_op m -> phase_timing m.
Proof.
  apply reachable_inv; [|intros; by apply phase_timing_after].
  intros ? (matchId & roomId & players & ->). by split.
Qed.

Lemma phase_deadlines_witness :
  phase_timing demo_end /\ ms_status (m_state demo_end) = ROUND_RESULT.
Proof. split; [exact (phase_deadlines demo_end demo_end_reachable)|vm_compute; reflexivity]. Defined.

(** ** The evaluation loop *)

Section Evaluate.
Context (answers : JsMap jstr AnswerState) (eliminatedIds : list jstr).
Implicit Types (players : JsMap jstr PlayerInfo) (p : jstr).

(** What the evaluation does to one starting player. *)
Definition evaluated (p : jstr) (player : PlayerInfo) : PlayerInfo :=
  if set_has p eliminatedIds then pl_set_status ELIMINATED player
  else match map_get p answers with
       | Some a => pl_credit (floorScore (an_responseTimeMs a)) (an_responseTimeMs a) player
       | None => player
       end.

Definition survives_in (p : jstr) : bool := negb (set_has p eliminatedIds).

Definition evaluate_one players p : JsMap jstr PlayerInfo :=
  match map_get p players with
  | Some player => map_set p (evaluated p player) players
  | None => players
  end.

Lemma evaluate_player_eq players surv p :
  evaluate_player answers eliminatedIds (players, surv) p
  = (evaluate_one players p, surv ++ filter survives_in [p]).
Proof.
  unfold evaluate_player, evaluate_one, evaluated. rewrite filter_cons, filter_nil.
  destruct (set_has p eliminatedIds) eqn:E.
  - rewrite decide_False by (unfold survives_in; rewrite E; intros []). rewrite app_nil_r. by case_match.
  - rewrite decide_True by (unfold survives_in; rewrite E; exact I). f_equal.
    destruct (map_get p players) as [pl|] eqn:Ep; [|done].
    destruct (map_get p answers); [done|]. by rewrite map_set_same.
Qed.

Lemma evaluate_loop l players surv :
  foldl (evaluate_player answers eliminatedIds) (players, surv) l
  = (foldl evaluate_one players l, surv ++ filter survives_in l).
Proof.
  revert players surv. induction l as [|p l IH]; intros players surv.
  - cbn. by rewrite app_nil_r.
  - cbn [foldl]. rewrite evaluate_player_eq, IH. f_equal.
    rewrite <- app_assoc. f_equal. by rewrite <- filter_app.
Qed.

Lemma evaluate_one_keys players p : (evaluate_one players p).*1 = players.*1.
Proof.
  unfold evaluate_one. destruct (map_get p players) eqn:E; [|done].
  apply map_set_keys_in. apply map_get_Some_elem in E.
  apply list_elem_of_fmap. by exists (p, p0).
Qed.

Lemma evaluate_loop_keys l players : (foldl evaluate_one players l).*1 = players.*1.
Proof.
  revert players. induction l as [|p l IH]; intros players; [done|]. cbn.
  by rewrite IH, evaluate_one_keys.
Qed.

Lemma evaluate_one_get players p q :
  map_get q (evaluate_one players p)
  = if decide (q = p) then evaluated q <$> map_get q players else map_get q players.
Proof.
  unfold evaluate_one. destruct (decide (q = p)) as [->|Hne].
  - destruct (map_get p players) eqn:E; cbn; [by rewrite map_get_set_eq|done].
  - destruct (map_get p players); [by rewrite map_get_set_ne|done].
Qed.

Lemma evaluate_loop_get l players q :
  NoDup l ->
  map_get q (foldl evaluate_one players l)
  = if decide (q ∈ l) then evaluated q <$> map_get q players else map_get q players.
Proof.
  revert players. induction l as [|p l IH]; intros players Hd.
  - by rewrite decide_False by apply not_elem_of_nil.
  - apply NoDup_cons in Hd as [Hp Hd]. cbn. rewrite IH, evaluate_one_get by done.
    destruct (decide (q = p)) as [->|Hne].
    + rewrite decide_False by done. by rewrite decide_True by (by left).
    + by rewrite (decide_ext (q ∈ p :: l) (q ∈ l)) by (rewrite elem_of_cons; tauto).
Qed.
End Evaluate.

(** ** The evaluation of a round *)

Definition correct_in (r : RoundRuntimeState) (p : jstr) : bool :=
  answered_correctly (rd_answers r) (q_options (rd_question r)) (rd_correctAnswer r) p.
Definition wrong_in (r : RoundRuntimeState) (p : jstr) : bool := negb (correct_in r p).

(** What a round does to the record of a starting player. *)
Definition round_outcome (r : RoundRuntimeState) (p : jstr) (player : PlayerInfo) : PlayerInfo :=
  if correct_in r p then
    match map_get p (rd_answers r) with
    | Some a => pl_credit (floorScore (an_responseTimeMs a)) (an_responseTimeMs a) player
    | None => player
    end
  else pl_set_status ELIMINATED player.

Definition eliminated_by (m : Machine) (r : RoundRuntimeState) : list jstr :=
  eliminationsForRound (rd_answers r) (q_options (rd_question r)) (rd_correctAnswer r)
    (round_starting m r).

Lemma eliminated_by_eq m r : eliminated_by m r = filter (wrong_in r) (round_starting m r).
Proof.
  unfold eliminated_by, eliminationsForRound. apply list_filter_iff. intros p.
  by rewrite is_eliminated_eq.
Qed.

Lemma eliminated_by_has m r p :
  p ∈ round_starting m r -> set_has p (eliminated_by m r) = wrong_in r p.
Proof.
  intros Hp. apply eq_bool_prop_intro. unfold set_has.
  rewrite bool_decide_spec, eliminated_by_eq, list_elem_of_filter. tauto.
Qed.

Lemma survivors_eq m r :
  filter (survives_in (eliminated_by m r)) (round_starting m r)
  = filter (correct_in r) (round_starting m r).
Proof.
  assert (H : forall l : list jstr, (forall p, p ∈ l -> p ∈ round_starting m r) ->
    filter (survives_in (eliminated_by m r)) l = filter (correct_in r) l); [|by apply H].
  induction l as [|p l IH]; intros Hl; [done|]. rewrite !filter_cons.
  assert (Hs : survives_in (eliminated_by m r) p = correct_in r p).
  { unfold survives_in. rewrite eliminated_by_has by (apply Hl; by left).
    unfold wrong_in. by rewrite negb_involutive. }
  rewrite IH by (intros; apply Hl; by right).
  destruct (correct_in r p) eqn:E.
  - rewrite !decide_True by (rewrite ?Hs, ?E; exact I). done.
  - rewrite !decide_False by (rewrite ?Hs, ?E; intros []). done.
Qed.

Lemma evaluated_outcome m r p player :
  p ∈ round_starting m r ->
  evaluated (rd_answers r) (eliminated_by m r) p player = round_outcome r p player.
Proof.
  intros Hp. unfold evaluated, round_outcome. rewrite eliminated_by_has by done.
  unfold wrong_in. by destruct (correct_in r p).
Qed.

(** The state [evaluateRound] leaves, when the eliminated array is not frozen. *)
Definition evaluated_machine (m : Machine) (r : RoundRuntimeState) (t : Z) : Machine :=
  append_event
    (E_ROUND_EVALUATED (rd_roundNo r) (rd_correctAnswer r)
       (Z.of_nat (length (filter (correct_in r) (round_starting m r))))
       (Z.of_nat (length (eliminated_by m r))) (eliminated_by m r)) t
    (on_round (rd_set_status COMPLETED) (on_round (rd_set_status EVALUATING)
      (on_state (fun s => set_standing (filter (correct_in r) (round_starting m r))
                   (ms_eliminatedPlayerIds s ++ eliminated_by m r)
                   (set_players (foldl (evaluate_one (rd_answers r) (eliminated_by m r))
                      (ms_players (m_state m)) (round_starting m r)) s)) m))).

Lemma evaluateRound_run m c r :
  m_round m = Some r -> m_elimFrozen m = false ->
  evaluateRound m c
  = (Ok (mkEvaluation (filter (correct_in r) (round_starting m r)) (eliminated_by m r)
           (rd_correctAnswer r)),
     evaluated_machine m r (clock_tick c).1, (clock_tick c).2).
Proof.
  intros Hr Hf. unfold evaluateRound, evaluated_machine. rewrite <- survivors_eq.
  cbv beta iota zeta delta [bind get]. rewrite Hr, Hf. cbv beta iota.
  fold (eliminated_by m r).
  replace (eliminationsForRound _ _ _ _) with (eliminated_by m r) by done.
  rewrite evaluate_loop. run. cbn [app]. reflexivity.
Qed.

(** C1: the evaluation of a round.  The starting players are partitioned, in
    order, into those whose recorded answer is judged correct and the others;
    the survivors replace the standing survivors and the others join the
    eliminated; every starting player is credited or marked eliminated exactly
    once, and nobody else's record moves; the verdict is logged. *)
Theorem evaluateRound_verdict (m : Machine) (c : Clock) (r : RoundRuntimeState) :
  m_round m = Some r -> m_elimFrozen m = false -> NoDup (round_starting m r) ->
  let survivors := filter (correct_in r) (round_starting m r) in
  let eliminated := filter (wrong_in r) (round_starting m r) in
  let m' := run_state evaluateRound m c in
  run_outcome evaluateRound m c = Ok (mkEvaluation survivors eliminated (rd_correctAnswer r))
  /\ survivors ++ eliminated ≡ₚ round_starting m r
  /\ ms_survivingPlayerIds (m_state m') = survivors
  /\ ms_eliminatedPlayerIds (m_state m') = ms_eliminatedPlayerIds (m_state m) ++ eliminated
  /\ (forall p, map_get p (ms_players (m_state m'))
       = if decide (p ∈ round_starting m r)
         then round_outcome r p <$> map_get p (ms_players (m_state m))
         else map_get p (ms_players (m_state m)))
  /\ rd_status <$> m_round m' = Some COMPLETED
  /\ ev_payload <$> last (m_log m') = Some (E_ROUND_EVALUATED (rd_roundNo r) (rd_correctAnswer r)
       (Z.of_nat (length survivors)) (Z.of_nat (length eliminated)) eliminated).
Proof.
  intros Hr Hf Hd. cbn zeta. unfold run_outcome, run_state.
  rewrite (evaluateRound_run m c r Hr Hf). cbn [fst snd]. rewrite <- eliminated_by_eq.
  split_and!; [done| |done|done| |unfold evaluated_machine; state_simpl; by rewrite Hr|].
  - rewrite eliminated_by_eq. apply filter_complement_perm.
  - intros p. unfold evaluated_machine. state_simpl. rewrite evaluate_loop_get by done.
    destruct (decide (p ∈ round_starting m r)) as [Hp|]; [|done].
    destruct (map_get p _); cbn; [|done]. by rewrite evaluated_outcome.
  - unfold evaluated_machine. state_simpl. by rewrite last_snoc.
Qed.

Definition demo_round : RoundRuntimeState :=
  Eval vm_compute in
    default (mkRound [] 0 (clientQuestion demo_question) 0 0 [] PENDING None None)
      (m_round demo_mid).

Lemma demo_round_eq : m_round demo_mid = Some demo_round.
Proof. vm_compute. reflexivity. Qed.

Lemma evaluateRound_verdict_witness :
  filter (correct_in demo_round) (round_starting demo_mid demo_round) = [js "p1"]
  /\ run_outcome evaluateRound demo_mid demo_clock
     = Ok (mkEvaluation (filter (correct_in demo_round) (round_starting demo_mid demo_round))
             (filter (wrong_in demo_round) (round_starting demo_mid demo_round)) (Some (js "B"))).
Proof.
  split; [vm_compute; reflexivity|].
  refine (proj1 (evaluateRound_verdict demo_mid demo_clock demo_round demo_round_eq _ _)).
  - vm_compute. reflexivity.
  - apply (bool_decide_eq_true_1 (NoDup _)). vm_compute. reflexivity.
Defined.

(** ** The roster *)

(** A round is evaluated once: the callers move the match out of ROUND_ACTIVE
    before they evaluate, and only then. *)
Definition evaluate_once (m : Machine) (op : Op) : Prop :=
  match op with OEvaluateRound => rd_status <$> m_round m = Some RACTIVE | _ => True end.

(** The round being played starts from the standing survivors; the eliminated
    array is frozen only once nobody is left. *)
Definition roster_ok (ids : list jstr) (m : Machine) : Prop :=
  ms_survivingPlayerIds (m_state m) ++ ms_eliminatedPlayerIds (m_state m) ≡ₚ ids
  /\ (forall r, m_round m = Some r -> rd_status r = RACTIVE ->
       rd_startingPlayers r = Some (StartingPlayers (ms_survivingPlayerIds (m_state m))))
  /\ (m_elimFrozen m = true -> ms_survivingPlayerIds (m_state m) = []).

Lemma roster_ok_starting ids m r :
  roster_ok ids m -> m_round m = Some r -> rd_status r = RACTIVE ->
  round_starting m r = ms_survivingPlayerIds (m_state m).
Proof. intros (_ & Hs & _) Hr Ha. unfold round_starting. by rewrite (Hs r Hr Ha). Qed.

Lemma evaluateRound_frozen_state m c r :
  m_round m = Some r -> m_elimFrozen m = true -> round_starting m r = [] ->
  run_state evaluateRound m c
  = on_state (set_standing [] (ms_eliminatedPlayerIds (m_state m)))
      (on_round (rd_set_status EVALUATING) m).
Proof.
  intros Hr Hf Hs. unfold evaluateRound, run_state.
  cbv beta iota zeta delta [bind get]. rewrite Hr, Hf, Hs, evaluate_loop.
  cbn [app foldl]. run. destruct m as [[] ? ? ? ? ?]. reflexivity.
Qed.

Lemma roster_ok_evaluate ids m c :
  roster_ok ids m -> rd_status <$> m_round m = Some RACTIVE ->
  roster_ok ids (run_state evaluateRound m c).
Proof.
  intros H Hop. destruct (m_round m) as [r|] eqn:Hr; [|done]. cbn in Hop. injection Hop as Ha.
  pose proof (roster_ok_starting ids m r H Hr Ha) as Hs. destruct H as (Hp & Hst & Hf).
  destruct (m_elimFrozen m) eqn:Hfr.
  - rewrite (evaluateRound_frozen_state m c r Hr Hfr) by (by rewrite Hs, Hf).
    unfold roster_ok. state_simpl. rewrite Hr. split_and!.
    + by rewrite Hf in Hp.
    + by intros ? [= <-].
    + done.
  - unfold run_state. rewrite (evaluateRound_run m c r Hr Hfr). cbn [fst snd].
    unfold roster_ok, evaluated_machine. state_simpl. rewrite Hr. split_and!.
    + rewrite eliminated_by_eq, Hs, <- Hp.
      rewrite <- (filter_complement_perm (correct_in r) (ms_survivingPlayerIds (m_state m))) at 3.
      fold (wrong_in r). rewrite <- !app_assoc. f_equiv. apply Permutation_app_comm.
    + by intros ? [= <-].
    + by rewrite Hfr.
Qed.

Lemma roster_ok_after ids op m c :
  roster_ok ids m -> evaluate_once m op -> roster_ok ids (after op m c).
Proof.
  intros H Hop. destruct op; cbn [evaluate_once] in Hop.
  4: { unfold after, exec, discard. unfold run_state, bind.
       pose proof (roster_ok_evaluate ids m c H Hop) as He. unfold run_state in He.
       by destruct (evaluateRound m c) as [[[] ?] ?]. }
  all: unfold_ops; run; try exact H; destruct H as (Hp & Hst & Hf);
    unfold roster_ok; state_simpl; try (split_and!; assumption).
  all: repeat match goal with |- context [map_get ?k ?l] => destruct (map_get k l) end.
  all: state_simpl; split_and!; try done; try congruence.
  all: intros r' Hr' Ha'; first [injection Hr' as <-; done|idtac].
  all: destruct (m_round m) as [r0|]; [|discriminate]; injection Hr' as <-.
  all: cbn in *; repeat case_match; first [by apply Hst|exact (Hst r0 eq_refl Ha')].
Qed.

Lemma roster_ok_reachable matchId roomId players m :
  reachable (eq (new_machine matchId roomId players)) evaluate_once m ->
  roster_ok (pl_id <$> players) m.
Proof.
  apply reachable_inv; [|intros; by apply roster_ok_after].
  intros ? <-. unfold roster_ok. cbn. by rewrite app_nil_r.
Qed.

(** C11: nobody is lost or counted twice.  In every match in which each round is
    evaluated once, the survivors and the eliminated are together exactly the
    players the match was created with, and an open round starts from the
    standing survivors. *)
Theorem roster_partition (matchId roomId : jstr) (players : list PlayerInfo) (m : Machine) :
  reachable (eq (new_machine matchId roomId players)) evaluate_once m ->
  ms_survivingPlayerIds (m_state m) ++ ms_eliminatedPlayerIds (m_state m)
    ≡ₚ pl_id <$> players
  /\ (forall r, m_round m = Some r -> rd_status r = RACTIVE ->
       round_starting m r = ms_survivingPlayerIds (m_state m)).
Proof.
  intros H%roster_ok_reachable. split; [apply H|]. intros r. by apply (roster_ok_starting (pl_id <$> players)).
Qed.

Lemma demo_end_once : reachable (eq demo_start) evaluate_once demo_end.
Proof.
  change demo_end with
    (after (OTransition ROUND_RESULT) (after OEvaluateRound (after (OTransition ROUND_EVALUATING)
       demo_mid demo_clock) demo_clock) demo_clock).
  do 3 (apply reach_step; [|first [exact I|vm_compute; reflexivity]|apply demo_clock_in_range]).
  apply exec_all_reachable; [by apply reach_init|apply demo_clock_in_range|].
  intros m' op Hin. unfold demo_round_ops in Hin.
  repeat (apply elem_of_cons in Hin as [->|Hin]; [exact I|]). by apply elem_of_nil in Hin.
Qed.

Lemma roster_partition_witness :
  ms_survivingPlayerIds (m_state demo_end) = [js "p1"]
  /\ ms_survivingPlayerIds (m_state demo_end) ++ ms_eliminatedPlayerIds (m_state demo_end)
     ≡ₚ [js "p1"; js "p2"; js "p3"].
Proof.
  split; [vm_compute; reflexivity|].
  exact (proj1 (roster_partition (js "m1") (js "r1")
    (demo_player <$> [js "p1"; js "p2"; js "p3"]) demo_end demo_end_once)).
Defined.

(** ** Statistics *)

Definition stats (p : PlayerInfo) : Z * Z * Z :=
  (pl_score p, pl_totalResponseTimeMs p, pl_correctAnswers p).

Definition same_stats (ps ps' : JsMap jstr PlayerInfo) : Prop :=
  forall q : jstr, stats <$> map_get q ps' = stats <$> map_get q ps.

Lemma same_stats_set (ps ps0 : JsMap jstr PlayerInfo) (p : jstr) pl f :
  same_stats ps0 ps -> map_get p ps = Some pl -> stats (f pl) = stats pl ->
  same_stats ps0 (map_set p (f pl) ps).
Proof.
  unfold same_stats. intros Hs Hp Hf q. rewrite <- Hs.
  destruct (decide (q = p)) as [->|Hne].
  - rewrite map_get_set_eq, Hp. cbn. by rewrite Hf.
  - by rewrite map_get_set_ne.
Qed.

(** Nested updates of a player the match knows. *)
Ltac chase_players :=
  repeat match goal with
  | H : map_get ?k ?l = _ |- context [map_get ?k ?l] => rewrite H; state_simpl
  | |- context [map_get ?k (map_set ?k _ _)] => rewrite map_get_set_eq; state_simpl
  | |- context [map_get ?k (ms_players (m_state ?m))] =>
      destruct (map_get k (ms_players (m_state m))) eqn:?; state_simpl
  end.

Lemma same_stats_refl ps : same_stats ps ps.
Proof. by intros q. Qed.

Ltac same_stats_tac :=
  repeat first
    [ apply same_stats_refl
    | eapply (same_stats_set _ _ _ _ (pl_set_status _)); [|eassumption|reflexivity]
    | eapply (same_stats_set _ _ _ _ (pl_set_online _)); [|eassumption|reflexivity]
    | eapply (same_stats_set _ _ _ _ (pl_set_status _)); [|apply map_get_set_eq|reflexivity] ].

Definition evaluates (op : Op) : bool := match op with OEvaluateRound => true | _ => false end.
Definition starts (op : Op) : bool := match op with OStartRound _ _ => true | _ => false end.

Lemma same_stats_after op m c :
  evaluates op = false -> same_stats (ms_players (m_state m)) (ms_players (m_state (after op m c))).
Proof.
  intros Hop. destruct op; try discriminate; unfold_ops; run; state_simpl; 
    chase_players; same_stats_tac.
Qed.

Definition standing (m : Machine) : list jstr * list jstr :=
  (ms_survivingPlayerIds (m_state m), ms_eliminatedPlayerIds (m_state m)).

Definition is_evaluation (e : Event) : bool :=
  match ev_payload e with E_ROUND_EVALUATED _ _ _ _ _ => true | _ => false end.

(** Rounds evaluated so far, from the log. *)
Definition evaluated_rounds (m : Machine) : Z :=
  Z.of_nat (length (filter is_evaluation (m_log m))).

Lemma evaluated_rounds_append p t m :
  evaluated_rounds (append_event p t m)
  = evaluated_rounds m + (if is_evaluation (mkEvent p t 0) then 1 else 0).
Proof.
  unfold evaluated_rounds. cbn [append_event m_log]. rewrite filter_app, length_app, Nat2Z.inj_add.
  f_equal. by destruct p.
Qed.

(** Only the evaluation moves the standing; only it logs an evaluation. *)
Lemma standing_after op m c :
  evaluates op = false ->
  standing (after op m c) = standing m /\ evaluated_rounds (after op m c) = evaluated_rounds m.
Proof.
  intros Hop. unfold standing, evaluated_rounds.
  destruct op; try discriminate; unfold_ops; run; state_simpl; chase_players;
    (split; [congruence|]); rewrite ?filter_app; cbn; rewrite ?app_nil_r; reflexivity.
Qed.

(** ** Perfect records *)

(** Everybody listed is known; a survivor has answered every evaluated round
    correctly, an eliminated player has missed one. *)
Definition records_ok (ids : list jstr) (m : Machine) : Prop :=
  roster_ok ids m
  /\ (forall p, p ∈ ids -> is_Some (map_get p (ms_players (m_state m))))
  /\ (forall p, p ∈ ms_survivingPlayerIds (m_state m) ->
       correct_of (ms_players (m_state m)) p = evaluated_rounds m)
  /\ (forall p, p ∈ ms_eliminatedPlayerIds (m_state m) ->
       correct_of (ms_players (m_state m)) p < evaluated_rounds m).

Lemma correct_of_stats ps ps' : same_stats ps ps' -> forall p, correct_of ps' p = correct_of ps p.
Proof.
  intros H p. specialize (H p). unfold correct_of.
  destruct (map_get p ps), (map_get p ps'); cbn in H; try done. by injection H.
Qed.

Lemma known_stats ps ps' (p : jstr) :
  same_stats ps ps' -> is_Some (map_get p ps) -> is_Some (map_get p ps').
Proof. intros H [x Hx]. specialize (H p). rewrite Hx in H. by destruct (map_get p ps'). Qed.

Lemma records_ok_evaluate ids m c :
  NoDup ids -> records_ok ids m -> rd_status <$> m_round m = Some RACTIVE ->
  records_ok ids (run_state evaluateRound m c).
Proof.
  intros Hd (Hro & Hk & Hs & He) Hop. pose proof (roster_ok_evaluate ids m c Hro Hop) as Hro'.
  split; [done|]. clear Hro'.
  destruct (m_round m) as [r|] eqn:Hr; [|done]. cbn in Hop. injection Hop as Ha.
  pose proof (roster_ok_starting ids m r Hro Hr Ha) as Hst. destruct Hro as (Hp & _ & Hf).
  destruct (m_elimFrozen m) eqn:Hfr.
  { rewrite (evaluateRound_frozen_state m c r Hr Hfr) by (by rewrite Hst, Hf).
    state_simpl. split_and!; [done|by intros ? ?%elem_of_nil|done]. }
  unfold run_state. rewrite (evaluateRound_run m c r Hr Hfr). cbn [fst snd].
  unfold evaluated_machine. rewrite evaluated_rounds_append. cbn [is_evaluation ev_payload].
  unfold evaluated_rounds at 1 2. state_simpl. fold (evaluated_rounds m).
  rewrite <- Hp in Hd. apply NoDup_app in Hd as (Hds & Hdis & _).
  assert (Hget : forall p, map_get p (foldl (evaluate_one (rd_answers r) (eliminated_by m r))
      (ms_players (m_state m)) (round_starting m r))
    = if decide (p ∈ ms_survivingPlayerIds (m_state m))
      then round_outcome r p <$> map_get p (ms_players (m_state m))
      else map_get p (ms_players (m_state m))).
  { intros p. rewrite evaluate_loop_get by (by rewrite Hst). rewrite Hst.
    destruct (decide (p ∈ _)) as [Hin|]; [|done]. rewrite <- Hst in Hin.
    destruct (map_get p _); cbn; [|done]. by rewrite evaluated_outcome. }
  split_and!.
  - intros p Hin. rewrite Hget. destruct (Hk p Hin) as [x ->]. by case_decide.
  - intros p [Hc Hin]%list_elem_of_filter. rewrite Hst in Hin.
    pose proof (Hs p Hin) as Hold. unfold correct_of in *. rewrite Hget, decide_True by done.
    destruct (Hk p) as [x Hx]; [rewrite <- Hp; set_solver|]. rewrite Hx in *. cbn.
    unfold round_outcome. apply Is_true_true in Hc. rewrite Hc.
    unfold correct_in, answered_correctly in Hc. destruct (map_get p (rd_answers r)); [|done].
    cbn. lia.
  - intros p [Hin|Hin]%elem_of_app.
    + pose proof (He p Hin) as Hold. unfold correct_of in *. rewrite Hget, decide_False; [lia|].
      intros Hin'. by apply (Hdis p).
    + rewrite eliminated_by_eq in Hin. apply list_elem_of_filter in Hin as [Hw Hin].
      rewrite Hst in Hin. pose proof (Hs p Hin) as Hold. unfold correct_of in *.
      rewrite Hget, decide_True by done. destruct (map_get p _) as [x|]; cbn; [|lia].
      unfold round_outcome. unfold wrong_in in Hw. destruct (correct_in r p); [done|]. cbn. lia.
Qed.

Lemma records_ok_after ids op m c :
  NoDup ids -> records_ok ids m -> evaluate_once m op -> records_ok ids (after op m c).
Proof.
  intros Hd H Hop. destruct (evaluates op) eqn:Hev.
  - destruct op; try discriminate. unfold after, exec, discard, run_state, bind.
    pose proof (records_ok_evaluate ids m c Hd H Hop) as He. unfold run_state in He.
    by destruct (evaluateRound m c) as [[[] ?] ?].
  - destruct H as (Hro & Hk & Hs & He).
    pose proof (same_stats_after op m c Hev) as Hst.
    destruct (standing_after op m c Hev) as [Hsd Hn]. unfold standing in Hsd. injection Hsd as Hss Hse.
    split; [by apply roster_ok_after|]. rewrite Hss, Hse, Hn. split_and!.
    + intros p Hp. eapply known_stats; [done|by apply Hk].
    + intros p Hp. rewrite (correct_of_stats _ _ Hst). by apply Hs.
    + intros p Hp. rewrite (correct_of_stats _ _ Hst). by apply He.
Qed.

Lemma new_machine_known (players : list PlayerInfo) (p : jstr) :
  p ∈ pl_id <$> players ->
  is_Some (map_get p (map_of_entries ((fun q => (pl_id q, q)) <$> players))).
Proof.
  induction players as [|x l IH] using rev_ind; [by intros ?%elem_of_nil|].
  rewrite !fmap_app, map_of_entries_app. cbn. intros [Hp|Hp%list_elem_of_singleton]%elem_of_app.
  - destruct (decide (p = pl_id x)) as [->|Hne]; [by rewrite map_get_set_eq|].
    rewrite map_get_set_ne by done. by apply IH.
  - subst p. by rewrite map_get_set_eq.
Qed.

Lemma records_ok_new matchId roomId (players : list PlayerInfo) :
  NoDup (pl_id <$> players) -> Forall (fun p => pl_correctAnswers p = 0) players ->
  records_ok (pl_id <$> players) (new_machine matchId roomId players).
Proof.
  intros Hd H0. unfold records_ok, roster_ok. cbn. rewrite app_nil_r. split_and!; try done.
  - intros p. apply new_machine_known.
  - intros p Hp. unfold correct_of. destruct (map_get p _) as [q|] eqn:E; [|done].
    apply map_get_Some_elem in E.
    assert (Hin : (p, q) ∈ (fun q => (pl_id q, q)) <$> players).
    { rewrite <- (map_of_entries_id ((fun q => (pl_id q, q)) <$> players)); [done|].
      unfold map_wf. rewrite <- list_fmap_compose. exact Hd. }
    apply list_elem_of_fmap in Hin as (q' & [= -> ->] & Hin).
    rewrite Forall_forall in H0. exact (H0 q' Hin).
  - by intros ? ?%elem_of_nil.
Qed.

(** The counters agree with the standing.  In a match over distinct players
    with clean records, in which each round is evaluated once, a player is among
    the survivors exactly when their count of correct answers is the number of
    evaluated rounds, and among the eliminated exactly when it is less. *)
Theorem survivors_have_perfect_records (matchId roomId : jstr) (players : list PlayerInfo)
    (m : Machine) :
  NoDup (pl_id <$> players) -> Forall (fun p => pl_correctAnswers p = 0) players ->
  reachable (eq (new_machine matchId roomId players)) evaluate_once m ->
  forall p, p ∈ pl_id <$> players ->
    (p ∈ ms_survivingPlayerIds (m_state m)
       <-> correct_of (ms_players (m_state m)) p = evaluated_rounds m)
    /\ (p ∈ ms_eliminatedPlayerIds (m_state m)
       <-> correct_of (ms_players (m_state m)) p < evaluated_rounds m).
Proof.
  intros Hd H0 Hr. assert (H : records_ok (pl_id <$> players) m).
  { revert Hr. apply reachable_inv; [|intros; by apply records_ok_after].
    intros ? <-. by apply records_ok_new. }
  intros p Hp. destruct H as ((Hperm & _) & _ & Hs & He). rewrite <- Hperm in Hp.
  apply elem_of_app in Hp. split; split; intros Hq; auto.
  - destruct Hp as [|Hin%He]; [done|lia].
  - destruct Hp as [Hin%Hs|]; [lia|done].
Qed.

Lemma survivors_have_perfect_records_witness :
  evaluated_rounds demo_end = 1
  /\ (js "p2" ∈ ms_eliminatedPlayerIds (m_state demo_end)
      <-> correct_of (ms_players (m_state demo_end)) (js "p2") < evaluated_rounds demo_end).
Proof.
  split; [vm_compute; reflexivity|].
  refine (proj2 (survivors_have_perfect_records (js "m1") (js "r1")
    (demo_player <$> [js "p1"; js "p2"; js "p3"]) demo_end _ _ demo_end_once (js "p2") _)).
  - apply (bool_decide_eq_true_1 (NoDup _)). vm_compute. reflexivity.
  - repeat constructor.
  - right. left.
Defined.

(** ** Round numbers and recorded answers *)

Definition started_round (e : Event) : option Z :=
  match ev_payload e with E_ROUND_STARTED no _ _ _ => Some no | _ => None end.

(** Rounds are numbered from 1 as they start. *)
Definition rounds_numbered (m : Machine) : Prop :=
  0 <= ms_currentRoundNo (m_state m)
  /\ ms_totalRounds (m_state m) = ms_currentRoundNo (m_state m)
  /\ omap started_round (m_log m) = seqZ 1 (ms_currentRoundNo (m_state m)).

Lemma omap_snoc {A B} (f : A -> option B) l x : omap f (l ++ [x]) = omap f l ++ option_list (f x).
Proof. rewrite omap_app. cbn. by destruct (f x). Qed.

Lemma rounds_numbered_after op m c : rounds_numbered m -> rounds_numbered (after op m c).
Proof.
  unfold rounds_numbered. intros (H0 & Ht & Hl).
  run_op op; state_simpl; chase_players; rewrite ?omap_snoc, ?Hl;
    cbn [started_round ev_payload option_list]; rewrite ?app_nil_r;
    try (split_and!; [assumption|assumption|reflexivity]).
  cbn [option_list]. split_and!; [lia|lia|]. rewrite seqZ_app by lia. f_equal. apply (seqZ_one _).
Qed.

(** An answer the round holds: under its player's key, from a player of the
    match, judged, on time, with the clamped response time. *)
Definition answer_ok (players : JsMap jstr PlayerInfo) (r : RoundRuntimeState) (p : jstr)
    (a : AnswerState) : Prop :=
  an_playerId a = p /\ p ∈ players.*1 /\ is_Some (an_isCorrect a)
  /\ an_submittedAt a <= rd_endsAt r
  /\ an_responseTimeMs a = Z.max 0 (an_submittedAt a - rd_startedAt r).

Definition round_ok (players : JsMap jstr PlayerInfo) (matchId : jstr) (no : Z)
    (r : RoundRuntimeState) : Prop :=
  rd_matchId r = matchId /\ rd_roundNo r = no /\ map_wf (rd_answers r)
  /\ forall p a, map_get p (rd_answers r) = Some a -> answer_ok players r p a.

Definition current_round_ok (m : Machine) : Prop :=
  forall r, m_round m = Some r ->
    round_ok (ms_players (m_state m)) (ms_id (m_state m)) (ms_currentRoundNo (m_state m)) r.

Lemma round_ok_players ps ps' id no r : ps'.*1 = ps.*1 -> round_ok ps id no r -> round_ok ps' id no r.
Proof. intros Hk. unfold round_ok, answer_ok. rewrite Hk. done. Qed.

Lemma round_ok_set_status ps id no s r : round_ok ps id no r -> round_ok ps id no (rd_set_status s r).
Proof. done. Qed.

Lemma map_set_known_keys {V} k v v' (l : JsMap jstr V) : map_get k l = Some v' -> (map_set k v l).*1 = l.*1.
Proof.
  intros H. apply map_set_keys_in. apply map_get_Some_elem in H.
  apply list_elem_of_fmap. by exists (k, v').
Qed.

Lemma known_active ps (p : jstr) : pl_status <$> map_get p ps = Some ACTIVE -> p ∈ ps.*1.
Proof.
  destruct (map_get p ps) as [x|] eqn:E; [|done]. intros _. apply map_get_Some_elem in E.
  apply list_elem_of_fmap. by exists (p, x).
Qed.

Lemma round_ok_answer ps id no r p ans sid correct t :
  round_ok ps id no r -> t <= rd_endsAt r -> p ∈ ps.*1 ->
  round_ok ps id no (rd_set_answers (map_set p
    (mkAnswer p ans sid (Some correct) (Z.max 0 (t - rd_startedAt r)) t) (rd_answers r)) r).
Proof.
  intros (Hid & Hno & Hwf & Ha) Hle Hp. split_and!; [done|done|by apply map_set_wf|].
  intros q a. cbn [rd_set_answers rd_answers]. destruct (decide (q = p)) as [->|Hne].
  - rewrite map_get_set_eq. by intros [= <-].
  - rewrite map_get_set_ne by done. apply Ha.
Qed.

Lemma players_keys_after op m c :
  (ms_players (m_state (after op m c))).*1 = (ms_players (m_state m)).*1.
Proof.
  destruct op; unfold_ops; run; state_simpl; chase_players; rewrite ?evaluate_loop in *;
    simplify_eq; rewrite ?evaluate_loop_keys; try reflexivity;
    repeat (erewrite map_set_known_keys by first [eassumption|apply map_get_set_eq]); reflexivity.
Qed.

Lemma current_round_ok_after op m c : current_round_ok m -> current_round_ok (after op m c).
Proof.
  unfold current_round_ok. intros H r Hr.
  apply (round_ok_players (ms_players (m_state m))); [symmetry; symmetry; apply players_keys_after|].
  revert Hr. destruct op; unfold_ops; run; state_simpl; chase_players; try exact (H r).
  all: intros Hr; try (apply H; congruence); try discriminate.
  all: try (apply submit_check_accept in Heqs as (Hround & _ & Hle & Hact & _); rewrite Hround in *;
            injection Hr as <-; apply round_ok_answer; [by apply H|done|]).
  all: try (destruct (m_round m) as [r0|]; [|discriminate]; injection Hr as <-;
            try case_match; exact (H r0 eq_refl)).
  - injection Hr as <-. split_and!; [done|done|constructor|by intros].
  - by apply known_active.
  - by apply known_active.
  - rewrite Heqo in Hr. injection Hr as <-. exact (H _ eq_refl).
  - rewrite Heqo in Hr. injection Hr as <-. exact (H _ eq_refl).
Qed.

(** What a round records.  Every answer of the current round of a reachable
    match is stored once, under the id of the player who gave it, a player of
    the match; it was judged when it came in, no later than the round's end, and
    its response time is the time since the round's start, never negative. *)
Theorem recorded_answers (m : Machine) (r : RoundRuntimeState) :
  reachable fresh any_op m -> m_round m = Some r ->
  round_ok (ms_players (m_state m)) (ms_id (m_state m)) (ms_currentRoundNo (m_state m)) r.
Proof.
  intros Hr. revert r. revert m Hr. apply (reachable_inv _ _ current_round_ok).
  - intros ? (matchId & roomId & players & ->). done.
  - intros. by apply current_round_ok_after.
Qed.

Lemma recorded_answers_witness :
  round_ok (ms_players (m_state demo_mid)) (ms_id (m_state demo_mid))
    (ms_currentRoundNo (m_state demo_mid)) demo_round
  /\ length (rd_answers demo_round) = 2%nat.
Proof.
  split; [|vm_compute; reflexivity].
  exact (recorded_answers demo_mid demo_round demo_mid_reachable demo_round_eq).
Defined.

Lemma rounds_numbered_reachable m : reachable fresh any_op m -> rounds_numbered m.
Proof.
  apply reachable_inv; [|intros; by apply rounds_numbered_after].
  by intros ? (matchId & roomId & players & ->).
Qed.

(** ** Scores *)

Definition stats_ok (player : PlayerInfo) : Prop :=
  let '(score, time, correct) := stats player in
  0 <= correct /\ 0 <= time /\ 100 * correct <= score <= 150 * correct.

Definition scores_ok (ps : JsMap jstr PlayerInfo) : Prop :=
  forall p player, map_get p ps = Some player -> stats_ok player.

Lemma scores_ok_same ps ps' : same_stats ps ps' -> scores_ok ps -> scores_ok ps'.
Proof.
  intros Hs H p player Hp. specialize (Hs p). rewrite Hp in Hs.
  destruct (map_get p ps) as [x|] eqn:E; [|done].
  assert (Hx : stats player = stats x) by (cbn in Hs; congruence).
  unfold stats_ok. rewrite Hx. exact (H p x E).
Qed.

Lemma stats_ok_evaluated answers elim p player :
  (forall a, map_get p answers = Some a -> 0 <= an_responseTimeMs a) ->
  stats_ok player -> stats_ok (evaluated answers elim p player).
Proof.
  intros Ha H. unfold evaluated. destruct (set_has p elim); [exact H|].
  destruct (map_get p answers) as [a|]; [|exact H]. specialize (Ha a eq_refl).
  pose proof (floorScore_range (an_responseTimeMs a)). unfold stats_ok, stats in *.
  cbn [pl_credit pl_score pl_totalResponseTimeMs pl_correctAnswers] in *. lia.
Qed.

Lemma scores_ok_loop answers elim l ps :
  (forall p a, map_get p answers = Some a -> 0 <= an_responseTimeMs a) ->
  scores_ok ps -> scores_ok (foldl (evaluate_one answers elim) ps l).
Proof.
  intros Ha. revert ps. induction l as [|p l IH]; intros ps H; [done|]. cbn. apply IH.
  intros q player. rewrite evaluate_one_get. case_decide as Hq; [|by apply H].
  destruct (map_get q ps) as [x|] eqn:E; [|done]. cbn. intros [= <-].
  apply stats_ok_evaluated; [apply Ha|exact (H q x E)].
Qed.

Lemma evaluateRound_players m c r :
  m_round m = Some r ->
  ms_players (m_state (run_state evaluateRound m c))
  = foldl (evaluate_one (rd_answers r) (eliminated_by m r)) (ms_players (m_state m))
      (round_starting m r).
Proof.
  intros Hr. unfold evaluateRound, run_state. cbv beta iota zeta delta [bind get]. rewrite Hr.
  rewrite evaluate_loop. run; reflexivity.
Qed.

Lemma scores_ok_after op m c :
  current_round_ok m -> scores_ok (ms_players (m_state m)) ->
  scores_ok (ms_players (m_state (after op m c))).
Proof.
  intros Hro H. destruct (evaluates op) eqn:Hev.
  - destruct op; try discriminate. unfold after, exec, discard, run_state, bind.
    destruct (m_round m) as [r|] eqn:Hr.
    + pose proof (evaluateRound_players m c r Hr) as He. unfold run_state in He.
      destruct (evaluateRound m c) as [[[] ?] ?]; cbn in *; rewrite He; apply scores_ok_loop;
        try done; intros p x Hpx; destruct (Hro r Hr) as (_ & _ & _ & Ha);
        destruct (Ha p x Hpx) as (_ & _ & _ & _ & ->); lia.
    + unfold evaluateRound. run; first [exact H|congruence].
  - by apply (scores_ok_same (ms_players (m_state m))), H; apply same_stats_after.
Qed.

Lemma map_of_entries_elem {V} (l : list (jstr * V)) k v :
  map_get k (map_of_entries l) = Some v -> (k, v) ∈ l.
Proof.
  induction l as [|[k' v'] l IH] using rev_ind; [done|]. rewrite map_of_entries_app. cbn.
  rewrite elem_of_app, list_elem_of_singleton. destruct (decide (k = k')) as [->|Hne].
  - rewrite map_get_set_eq. intros [= ->]. by right.
  - rewrite map_get_set_ne by done. auto.
Qed.

(** Scores are earned by correct answers only.  In every reachable match a
    player with [n] correct answers has a score between [100 n] and [150 n] and
    a non-negative total response time, whatever cards were played. *)
Theorem score_bounds (matchId roomId : jstr) (players : list PlayerInfo) (m : Machine)
    (p : jstr) (player : PlayerInfo) :
  Forall (fun q => stats q = (0, 0, 0)) players ->
  reachable (eq (new_machine matchId roomId players)) any_op m ->
  map_get p (ms_players (m_state m)) = Some player ->
  0 <= pl_correctAnswers player /\ 0 <= pl_totalResponseTimeMs player
  /\ 100 * pl_correctAnswers player <= pl_score player <= 150 * pl_correctAnswers player.
Proof.
  intros H0 Hr. assert (H : current_round_ok m /\ scores_ok (ms_players (m_state m))).
  { revert m Hr. apply (reachable_inv _ _
      (fun m => current_round_ok m /\ scores_ok (ms_players (m_state m)))).
    - intros ? <-. split; [done|]. intros q x Hq. apply map_of_entries_elem in Hq.
      apply list_elem_of_fmap in Hq as (y & [= -> ->] & Hy).
      rewrite Forall_forall in H0. unfold stats_ok. rewrite (H0 y Hy). lia.
    - intros m' op c [? ?] _ _. split; [by apply current_round_ok_after|by apply scores_ok_after]. }
  intros Hp. exact (proj2 H p player Hp).
Qed.

Lemma score_bounds_witness :
  exists player, map_get (js "p1") (ms_players (m_state demo_end)) = Some player
    /\ 100 <= pl_score player <= 150.
Proof.
  exists (mkPlayer (js "p1") (js "p1") ACTIVE 149 200 1 true).
  assert (H : map_get (js "p1") (ms_players (m_state demo_end))
              = Some (mkPlayer (js "p1") (js "p1") ACTIVE 149 200 1 true))
    by (vm_compute; reflexivity).
  split; [exact H|].
  refine (proj2 (proj2 (score_bounds (js "m1") (js "r1")
    (demo_player <$> [js "p1"; js "p2"; js "p3"]) demo_end (js "p1") _ _ _ H))).
  - repeat constructor.
  - apply exec_all_reachable; [|apply demo_clock_in_range|done].
    apply exec_all_reachable; [by apply reach_init|apply demo_clock_in_range|done].
Defined.

(** Only the evaluation of a round moves scores, response times, correct
    answers or the standing.  In particular playing any card (SCORE_MULT, SHIELD,
    TIMER_MODIFY and HAND_DESTROY included) leaves them as they were. *)
Theorem only_evaluation_scores (op : Op) (m : Machine) (c : Clock) :
  evaluates op = false ->
  same_stats (ms_players (m_state m)) (ms_players (m_state (after op m c)))
  /\ ms_survivingPlayerIds (m_state (after op m c)) = ms_survivingPlayerIds (m_state m)
  /\ ms_eliminatedPlayerIds (m_state (after op m c)) = ms_eliminatedPlayerIds (m_state m).
Proof.
  intros H. destruct (standing_after op m c H) as [Hs _]. unfold standing in Hs.
  injection Hs as H1 H2. split_and!; [by apply same_stats_after|done|done].
Qed.

Lemma only_evaluation_scores_witness :
  let op := OPlayCard (js "p1") TN_9 5 (SCORE_MULT (3 # 2)%Q) [js "p1"] 1100 None None in
  run_outcome (exec op) demo_mid demo_clock = Ok tt
  /\ same_stats (ms_players (m_state demo_mid)) (ms_players (m_state (after op demo_mid demo_clock))).
Proof.
  intros op. split; [vm_compute; reflexivity|].
  exact (proj1 (only_evaluation_scores op demo_mid demo_clock eq_refl)).
Defined.

(** ** Submissions *)

(** The round already holds an answer of [p] under the submission id [sid]. *)
Definition redelivery (m : Machine) (p : jstr) (sid : option jstr) : Prop :=
  exists r e s, m_round m = Some r /\ map_get p (rd_answers r) = Some e
    /\ sid = Some s /\ s <> [] /\ an_submissionId e = s.

Lemma submit_check_redelivery m p t sid e :
  submit_check m p t sid = SubmitDuplicate e -> redelivery m p sid.
Proof.
  unfold submit_check, redelivery. destruct (m_round m) as [r|]; [|done].
  destruct (map_get p (rd_answers r)) as [x|] eqn:Hx; cbn.
  - destruct sid as [s|]; [|by repeat case_match].
    destruct (negb (bool_decide (s = [])) && _) eqn:E; [|by repeat case_match].
    bool_to_prop. intros _. exists r, x, s. done.
  - by repeat case_match.
Qed.

Lemma submit_check_accepts m p t sid r :
  m_round m = Some r -> ~ redelivery m p sid ->
  rd_status r = RACTIVE -> t <= rd_endsAt r ->
  pl_status <$> map_get p (ms_players (m_state m)) = Some ACTIVE ->
  (map_get p (rd_answers r) = None \/ p ∈ cs_secondChance (m_cards m)) ->
  exists retry, submit_check m p t sid = SubmitAccept r retry.
Proof.
  intros Hr Hnd Hs Ht Hp Ha. unfold submit_check. rewrite Hr.
  rewrite (bool_decide_eq_true_2 (rd_status r = RACTIVE)) by done.
  rewrite (proj2 (Z.ltb_ge _ _) Ht), (bool_decide_eq_true_2 (_ = Some ACTIVE)) by done. cbn.
  destruct (map_get p (rd_answers r)) as [e|] eqn:He; [|by eexists].
  assert (Hin : set_has p (cs_secondChance (m_cards m)) = true)
    by (apply set_has_spec; by destruct Ha).
  destruct sid as [s|]; [|rewrite Hin; by eexists].
  destruct (negb (bool_decide (s = [])) && _) eqn:E; [|rewrite Hin; by eexists].
  exfalso. apply Hnd. bool_to_prop. by exists r, e, s.
Qed.

(** When a submission that is not a redelivery may be recorded. *)
Definition may_submit (m : Machine) (p : jstr) (t : Z) (r : RoundRuntimeState) : Prop :=
  m_round m = Some r /\ rd_status r = RACTIVE /\ t <= rd_endsAt r
  /\ pl_status <$> map_get p (ms_players (m_state m)) = Some ACTIVE
  /\ (map_get p (rd_answers r) = None \/ p ∈ cs_secondChance (m_cards m)).

(** A submission that is not a redelivery is accepted exactly when a round
    is open, its end has not passed, the player is active, and they have not
    answered yet or hold a second chance.  The accepted answer is recorded,
    judged against the answer key, and a second chance it used is gone; a
    rejected one changes nothing. *)
Theorem submitAnswer_accepts (m : Machine) (c : Clock) (p a : jstr) (t : Z) (sid : option jstr) :
  ~ redelivery m p sid ->
  let m' := run_state (submitAnswer p a t sid) m c in
  match run_outcome (submitAnswer p a t sid) m c with
  | Ok ans => exists r, may_submit m p t r
      /\ m_round m' = Some (rd_set_answers (map_set p ans (rd_answers r)) r)
      /\ an_answer ans = a
      /\ an_isCorrect ans = Some (isAnswerMatch (Some a) (rd_correctAnswer r)
                                   (Some (q_options (rd_question r))))
      /\ an_responseTimeMs ans = Z.max 0 (t - rd_startedAt r)
      /\ (map_get p (rd_answers r) <> None -> p ∉ cs_secondChance (m_cards m'))
  | Throw _ => m' = m /\ forall r, ~ may_submit m p t r
  end.
Proof.
  intros Hnd m'. subst m'. unfold submitAnswer. run; state_simpl.
  - exfalso. apply Hnd. by eapply submit_check_redelivery.
  - split; [done|]. intros r (Hr & Hs & Ht & Hp & Ha).
    destruct (submit_check_accepts m p t sid r Hr Hnd Hs Ht Hp Ha) as [retry Hsc]. congruence.
  - apply submit_check_accept in Heqs as (Hr & Hs & Ht & Hp & [[? _]|(_ & _ & Hin)]); [done|].
    exists round. rewrite Hr. cards_simpl. split_and!; try done.
    + split_and!; auto.
    + by intros _ [? _]%elem_of_set_delete.
  - apply submit_check_accept in Heqs as (Hr & Hs & Ht & Hp & [[_ Hn]|(? & _)]); [|done].
    exists round. rewrite Hr. split_and!; try done. split_and!; auto.
Qed.

Lemma submitAnswer_accepts_witness :
  ~ redelivery demo_mid (js "p3") (Some (js "s3"))
  /\ exists r, may_submit demo_mid (js "p3") 1500 r.
Proof.
  assert (H : ~ redelivery demo_mid (js "p3") (Some (js "s3"))).
  { intros (r & e & s & Hr & He & _). rewrite demo_round_eq in Hr. injection Hr as <-.
    revert He. vm_compute. discriminate. }
  split; [exact H|].
  pose proof (submitAnswer_accepts demo_mid demo_clock (js "p3") (js "4") 1500 (Some (js "s3")) H) as Hs.
  destruct (run_outcome (submitAnswer (js "p3") (js "4") 1500 (Some (js "s3"))) demo_mid demo_clock)
    as [ans|e] eqn:E.
  - destruct Hs as (r & Hr & _). by exists r.
  - exfalso. revert E. vm_compute. discriminate.
Defined.

Definition first_answer_kept (m' : Machine) (p sid : jstr) (ans : AnswerState) : Prop :=
  exists r, m_round m' = Some r /\ map_get p (rd_answers r) = Some ans /\ an_submissionId ans = sid.

Lemma submitAnswer_keeps p a t sid m c ans m' c' :
  submitAnswer p a t (Some sid) m c = (Ok ans, m', c') -> first_answer_kept m' p sid ans.
Proof.
  unfold submitAnswer, first_answer_kept. run; intros [= <- <- <-]; state_simpl.
  - revert Heqs. unfold submit_check. destruct (m_round m) as [r|]; [|done].
    destruct (map_get p (rd_answers r)) as [x|] eqn:Hx; cbn; [|by repeat case_match].
    destruct (negb (bool_decide (sid = [])) && _) eqn:E; [|by repeat case_match].
    intros [= <-]. bool_to_prop. by exists r.
  - apply submit_check_accept in Heqs as (-> & _). cbn. eexists.
    split_and!; [done|apply map_get_set_eq|done].
  - apply submit_check_accept in Heqs as (-> & _). cbn. eexists.
    split_and!; [done|apply map_get_set_eq|done].
Qed.

(** Submissions are idempotent.  Once a submission with a non-empty id has
    succeeded, redelivering it (with whatever answer and time stamp) returns the
    recorded answer and changes nothing; any other submission of the player in
    that state is refused with ALREADY_ANSWERED unless they hold a second
    chance. *)
Theorem submitAnswer_idempotent (m m' : Machine) (c c1 : Clock) (p a : jstr) (t : Z) (sid : jstr)
    (ans : AnswerState) :
  sid <> [] -> submitAnswer p a t (Some sid) m c = (Ok ans, m', c1) ->
  forall a' t' c',
    submitAnswer p a' t' (Some sid) m' c' = (Ok ans, m', c')
    /\ (p ∉ cs_secondChance (m_cards m') -> forall sid', sid' <> Some sid ->
        submitAnswer p a' t' sid' m' c' = (Throw (RoomError ALREADY_ANSWERED), m', c')).
Proof.
  intros Hne Hrun%submitAnswer_keeps a' t' c'. destruct Hrun as (r & Hr & Ha & Hs).
  unfold submitAnswer, submit_check. cbv beta iota zeta delta [bind get]. rewrite Hr, Ha. split.
  - rewrite bool_decide_eq_false_2, bool_decide_eq_true_2 by done. reflexivity.
  - intros Hsc sid' Hsid.
    assert (Hf : set_has p (cs_secondChance (m_cards m')) = false) by by apply bool_decide_eq_false_2.
    rewrite Hf. destruct sid' as [s|]; [|reflexivity].
    rewrite (bool_decide_eq_false_2 (an_submissionId ans = s)) by congruence.
    rewrite andb_false_r. reflexivity.
Qed.

Lemma submitAnswer_idempotent_witness :
  submitAnswer (js "p1") (js "A") 5000 (Some (js "s1")) demo_mid demo_clock
    = (Ok (mkAnswer (js "p1") (js "B") (js "s1") (Some true) 200 1200), demo_mid, demo_clock).
Proof.
  assert (E' : submitAnswer (js "p1") (js "X") 9 (Some (js "s1")) demo_mid demo_clock
    = (Ok (mkAnswer (js "p1") (js "B") (js "s1") (Some true) 200 1200), demo_mid, demo_clock)).
  { unfold submitAnswer, submit_check. cbv beta iota zeta delta [bind get].
    rewrite demo_round_eq. reflexivity. }
  exact (proj1 (submitAnswer_idempotent demo_mid demo_mid demo_clock demo_clock (js "p1") (js "X") 9
    (js "s1") _ ltac:(discriminate) E' (js "A") 5000 demo_clock)).
Defined.
