(* ===== verification/Records.v ===== *)
(** * Elimination is exact

    What a match did to its players, told from its operations: the questions
    that were asked, the answers that were accepted, and who is still standing
    after the rounds were evaluated. *)

From S2P Require Import Prelude JsData Effects Shared Cards Scoring Machine MachineCards MachineOps MachineRounds.
#[local] Open Scope Z_scope.
#[local] Open Scope js_scope.

(** ** What was asked and answered *)

(** A question that was asked, and the last answer that was accepted of each
    player. *)
Record Asking := mkAsking { as_question : QuestionInput; as_answers : JsMap jstr jstr }.

(** The round that was started last, and the rounds that were evaluated. *)
Record History := mkHistory { hi_open : option Asking; hi_rounds : list Asking }.
Definition no_history : History := mkHistory None [].

Definition note_answer (p answer : jstr) (a : Asking) : Asking :=
  mkAsking (as_question a) (map_set p answer (as_answers a)).

(** What an operation on [m] adds to the history. *)
Definition note (m : Machine) (op : Op) (h : History) : History :=
  match op with
  | OStartRound q _ =>
      if bool_decide (ms_status (m_state m) = ROUND_ACTIVE) then mkHistory (Some (mkAsking q [])) (hi_rounds h) else h
  | OSubmitAnswer p answer t sid =>
      match submit_check m p t sid with
      | SubmitAccept _ _ => mkHistory (note_answer p answer <$> hi_open h) (hi_rounds h)
      | _ => h
      end
  | OEvaluateRound => mkHistory (hi_open h) (hi_rounds h ++ option_list (hi_open h))
  | _ => h
  end.

(** The player's answer is the key of the question. *)
Definition answered_right (p : jstr) (a : Asking) : bool :=
  match map_get p (as_answers a) with
  | Some answer => isAnswerMatch (Some answer) (Some (qi_correctAnswer (as_question a))) (Some (qi_options (as_question a)))
  | None => false
  end.

(** How the process drives a match: a round is evaluated once, and a key that
    is attached to an open round is the one of its question. *)
Definition fair (m : Machine) (h : History) (op : Op) : Prop :=
  match op with
  | OAttachCorrectAnswer key => forall a, hi_open h = Some a -> key = qi_correctAnswer (as_question a)
  | _ => evaluate_once m op
  end.

(** Runs of the operations, with their history. *)
Inductive plays (m0 : Machine) : Machine -> History -> Prop :=
| plays_start : plays m0 m0 no_history
| plays_op m h op c :
    plays m0 m h -> fair m h op -> clock_in_range c -> plays m0 (after op m c) (note m op h).

(** ** The round in the machine is the round of the history *)

Definition same_answers (a : Asking) (r : RoundRuntimeState) : Prop :=
  rd_correctAnswer r = Some (qi_correctAnswer (as_question a))
  /\ q_options (rd_question r) = qi_options (as_question a)
  /\ forall p,
       match map_get p (rd_answers r) with
       | Some s => map_get p (as_answers a) = Some (an_answer s)
           /\ an_isCorrect s = Some (isAnswerMatch (Some (an_answer s)) (Some (qi_correctAnswer (as_question a)))
                                       (Some (qi_options (as_question a))))
       | None => map_get p (as_answers a) = None
       end.

Definition in_step (m : Machine) (h : History) : Prop :=
  forall r, m_round m = Some r -> exists a, hi_open h = Some a /\ same_answers a r.

Lemma same_correct a r p : same_answers a r -> correct_in r p = answered_right p a.
Proof.
  intros (_ & _ & Hp). specialize (Hp p). unfold correct_in, answered_correctly, answered_right.
  destruct (map_get p (rd_answers r)) as [s|]; [|by rewrite Hp]. destruct Hp as [-> ->]. done.
Qed.

Lemma same_status a s r : same_answers a r -> same_answers a (rd_set_status s r).
Proof. done. Qed.

(** Operations that are no part of a round leave it. *)
Definition round_op (op : Op) : bool :=
  match op with
  | OStartRound _ _ | OSubmitAnswer _ _ _ _ | OEvaluateRound | OAttachCorrectAnswer _ | OTransition _ => true
  | _ => false
  end.

Lemma round_kept op m c : round_op op = false -> m_round (after op m c) = m_round m.
Proof. intros Hop. destruct op; try discriminate Hop; unfold_ops; run; state_simpl; congruence. Qed.

Lemma in_step_same m m' h : m_round m' = m_round m -> in_step m h -> in_step m' h.
Proof. intros Hr H r. rewrite Hr. apply H. Qed.

Lemma in_step_submit p answer t sid m c h :
  in_step m h -> in_step (after (OSubmitAnswer p answer t sid) m c) (note m (OSubmitAnswer p answer t sid) h).
Proof.
  intros H. cbn [note]. unfold after, exec, submitAnswer.
  run; try exact H.
  all: match goal with E : submit_check _ _ _ _ = SubmitAccept ?round _ |- _ =>
         apply submit_check_accept in E as (Hround & _); destruct (H round Hround) as (a & Ha & Hk & Ho & Hp) end.
  all: intros r'; state_simpl; rewrite Hround; cbn; intros [= <-]; exists (note_answer p answer a); rewrite Ha.
  all: split; [done|split_and!; [done|done|]]; intros q; cbn; destruct (decide (q = p)) as [->|Hne];
    [rewrite !map_get_set_eq, Hk, Ho; done|rewrite !map_get_set_ne by done; apply Hp].
Qed.

Lemma in_step_evaluate m c h :
  in_step m h -> in_step (after OEvaluateRound m c) (note m OEvaluateRound h).
Proof.
  intros H r'. cbn [note hi_open]. unfold_ops. run; state_simpl; try apply H.
  all: match goal with E : m_round _ = Some ?r0 |- _ => rewrite E; intros [= <-]; exact (H r0 E) end.
Qed.

Lemma in_step_after op m c h : in_step m h -> fair m h op -> in_step (after op m c) (note m op h).
Proof.
  intros H Hf. destruct (round_op op) eqn:Hop; [|destruct op; try discriminate Hop; cbn [note];
    by apply (in_step_same m); [apply round_kept|]].
  destruct op; try discriminate Hop; [|clear Hf| | |].
  - (* transition *) cbn [note]. unfold_ops. destruct to; run; intros r; state_simpl; try done; apply H.
  - cbn [note]. unfold_ops. run; intros r; state_simpl; try apply H; bool_to_prop.
    + rewrite bool_decide_eq_false_2 by done. apply H.
    + intros [= <-]. eexists. rewrite bool_decide_eq_true_2 by done. split; [reflexivity|]. split_and!; [done|done|].
      by intros p.
  - by apply in_step_submit.
  - by apply in_step_evaluate.
  - cbn [note fair] in *. unfold_ops. run. intros r. state_simpl. destruct (m_round m) as [r0|] eqn:Hr; [|done].
    cbn. intros [= <-]. destruct (H r0 Hr) as (a & Ha & Hk & Ho & Hp). exists a. split; [done|].
    case_bool_decide; [|done]. rewrite (Hf a Ha). done.
Qed.

(** ** Who stands *)

Definition judged (ids : list jstr) (m : Machine) (h : History) : Prop :=
  roster_ok ids m /\ in_step m h
  /\ (forall p, p ∈ ms_survivingPlayerIds (m_state m) -> forall a, a ∈ hi_rounds h -> answered_right p a = true)
  /\ (forall p, p ∈ ms_eliminatedPlayerIds (m_state m) -> exists a, a ∈ hi_rounds h /\ answered_right p a = false).

Lemma judged_evaluate ids m c h :
  judged ids m h -> evaluate_once m OEvaluateRound ->
  judged ids (after OEvaluateRound m c) (note m OEvaluateRound h).
Proof.
  intros (Hro & Hin & Hs & He) Hop. split; [by apply roster_ok_after|]. split; [by apply in_step_evaluate|].
  cbn [evaluate_once] in Hop. destruct (m_round m) as [r|] eqn:Hr; [|done]. cbn in Hop. injection Hop as Ha.
  destruct (Hin r Hr) as (a & Hopen & Hsame). cbn [note hi_rounds]. rewrite Hopen. cbn [option_list].
  pose proof (roster_ok_starting ids m r Hro Hr Ha) as Hst.
  assert (Hafter : after OEvaluateRound m c = run_state evaluateRound m c).
  { unfold after, exec, discard, run_state, bind. by destruct (evaluateRound m c) as [[[] ?] ?]. }
  rewrite Hafter. destruct (m_elimFrozen m) eqn:Hfr.
  { assert (Hnone : ms_survivingPlayerIds (m_state m) = []) by by apply Hro.
    rewrite (evaluateRound_frozen_state m c r Hr Hfr) by by rewrite Hst. state_simpl. split.
    - by intros p ?%elem_of_nil.
    - intros p Hp. destruct (He p Hp) as (b & Hb & Hw). exists b. split; [apply elem_of_app; by left|done]. }
  unfold run_state. rewrite (evaluateRound_run m c r Hr Hfr). cbn [fst snd]. unfold evaluated_machine. state_simpl. split.
  - intros p [Hc Hp]%list_elem_of_filter b [Hb|Hb]%elem_of_app; rewrite Hst in Hp; [by apply (Hs p)|].
    apply list_elem_of_singleton in Hb as ->. rewrite <- (same_correct _ _ _ Hsame). by apply Is_true_true.
  - intros p [Hp|Hp]%elem_of_app.
    + destruct (He p Hp) as (b & Hb & Hw). exists b. split; [apply elem_of_app; by left|done].
    + rewrite eliminated_by_eq in Hp. apply list_elem_of_filter in Hp as [Hw _]. exists a. split; [set_solver|].
      rewrite <- (same_correct _ _ _ Hsame). unfold wrong_in in Hw. by destruct (correct_in r p).
Qed.

Lemma judged_after ids op m c h :
  judged ids m h -> fair m h op -> judged ids (after op m c) (note m op h).
Proof.
  intros H Hf. assert (Ho : evaluate_once m op) by by destruct op.
  destruct (evaluates op) eqn:Hev; [destruct op; try discriminate Hev; by apply judged_evaluate|].
  destruct H as (Hro & Hin & Hs & He). split; [by apply roster_ok_after|]. split; [by apply in_step_after|].
  destruct (standing_after op m c Hev) as [Hsd _]. unfold standing in Hsd. injection Hsd as -> ->.
  assert (hi_rounds (note m op h) = hi_rounds h) as ->; [|done].
  destruct op; try done; cbn [note]; repeat case_match; done.
Qed.

Lemma plays_judged matchId roomId players m h :
  plays (new_machine matchId roomId players) m h -> judged (pl_id <$> players) m h.
Proof.
  induction 1 as [|m h op c _ IH Hf Hc]; [|by apply judged_after].
  unfold judged. cbn [hi_rounds no_history]. split_and!.
  - unfold roster_ok. cbn. by rewrite app_nil_r.
  - by intros r.
  - by intros p _ a ?%elem_of_nil.
  - by intros p ?%elem_of_nil.
Qed.

(** C2: elimination is exact.  Take any run of a match in which each round is
    evaluated once, and its history as the operations tell it: the questions
    the rounds were started with, the last answer of each player that was
    accepted, the rounds that were evaluated.  A player of the match is among
    the survivors exactly when, in every evaluated round, they had an answer
    accepted and it matches the key of the question -- in text or by the letter
    of an option, as [isAnswerMatch] has it -- and among the eliminated exactly
    when in some evaluated round they had none, or one that does not match. *)
Theorem elimination_is_exact (matchId roomId : jstr) (players : list PlayerInfo) (m : Machine) (h : History) :
  plays (new_machine matchId roomId players) m h ->
  forall p, p ∈ pl_id <$> players ->
    (p ∈ ms_survivingPlayerIds (m_state m) <-> forall a, a ∈ hi_rounds h -> answered_right p a = true)
    /\ (p ∈ ms_eliminatedPlayerIds (m_state m) <-> exists a, a ∈ hi_rounds h /\ answered_right p a = false).
Proof.
  intros ((Hperm & _) & _ & Hs & He)%plays_judged p Hp. rewrite <- Hperm in Hp. apply elem_of_app in Hp.
  split; split; intros Hq; auto.
  - destruct Hp as [|(a & Ha & Hw)%He]; [done|]. by rewrite Hq in Hw.
  - destruct Hp as [Hin|]; [|done]. destruct Hq as (a & Ha & Hw). by rewrite (Hs p Hin a Ha) in Hw.
Qed.

(** ** A run *)

Fixpoint note_all (ops : list Op) (m : Machine) (c : Clock) (h : History) : Machine * History :=
  match ops with
  | [] => (m, h)
  | op :: ops' => note_all ops' (after op m c) c (note m op h)
  end.

Definition fairly (m : Machine) (op : Op) : bool :=
  match op with
  | OAttachCorrectAnswer _ => false
  | OEvaluateRound => bool_decide (rd_status <$> m_round m = Some RACTIVE)
  | _ => true
  end.
Fixpoint all_fair (ops : list Op) (m : Machine) (c : Clock) : bool :=
  match ops with
  | [] => true
  | op :: ops' => fairly m op && all_fair ops' (after op m c) c
  end.

Lemma note_all_plays m0 ops m c h :
  plays m0 m h -> clock_in_range c -> all_fair ops m c = true ->
  plays m0 (note_all ops m c h).1 (note_all ops m c h).2.
Proof.
  intros Hm Hc. revert m h Hm. induction ops as [|op ops IH]; intros m h Hm; [done|]. cbn.
  intros [Hf Ha]%andb_true_iff. apply IH; [|done]. apply plays_op; [done| |done].
  destruct op; try done. cbn in *. by bool_to_prop.
Qed.

(** Two rounds: p3 misses the first, p2 the second. *)
Definition demo_game_ops : list Op :=
  [OTransition COUNTDOWN; OTransition ROUND_ACTIVE; OStartRound demo_question None;
   OSubmitAnswer (js "p1") (js "B") 1200 (Some (js "s1")); OSubmitAnswer (js "p2") (js " 4") 1300 (Some (js "s2"));
   OTransition ROUND_EVALUATING; OEvaluateRound; OTransition ROUND_RESULT;
   OTransition ROUND_ACTIVE; OStartRound demo_question None;
   OSubmitAnswer (js "p1") (js "b") 1250 (Some (js "s3")); OSubmitAnswer (js "p2") (js "C") 1260 (Some (js "s4"));
   OTransition ROUND_EVALUATING; OEvaluateRound].
Definition demo_game : Machine * History := note_all demo_game_ops demo_start demo_clock no_history.

Lemma elimination_is_exact_witness :
  length (hi_rounds demo_game.2) = 2%nat
  /\ js "p1" ∈ ms_survivingPlayerIds (m_state demo_game.1)
  /\ js "p2" ∈ ms_eliminatedPlayerIds (m_state demo_game.1)
  /\ js "p3" ∈ ms_eliminatedPlayerIds (m_state demo_game.1).
Proof.
  assert (Hp : plays (new_machine (js "m1") (js "r1") (demo_player <$> [js "p1"; js "p2"; js "p3"])) demo_game.1 demo_game.2).
  { apply note_all_plays; [apply plays_start|apply demo_clock_in_range|vm_compute; reflexivity]. }
  pose proof (elimination_is_exact (js "m1") (js "r1") _ demo_game.1 demo_game.2 Hp) as H.
  assert (Hr : hi_rounds demo_game.2 = [mkAsking demo_question [(js "p1", js "B"); (js "p2", js " 4")];
                                        mkAsking demo_question [(js "p1", js "b"); (js "p2", js "C")]])
    by (vm_compute; reflexivity).
  rewrite Hr in H |- *. split; [reflexivity|]. split_and!.
  - apply (proj1 (H (js "p1") ltac:(left))). intros a [->|[->|[]%elem_of_nil]%elem_of_cons]%elem_of_cons; vm_compute; reflexivity.
  - apply (proj2 (H (js "p2") ltac:(right; left))). eexists. split; [right; left|vm_compute; reflexivity].
  - apply (proj2 (H (js "p3") ltac:(right; right; left))). eexists. split; [left|vm_compute; reflexivity].
Defined.
