(* ===== verification/MachineWinner.v ===== *)
(** * The end of a match

    Who wins, and two behaviours of the code that its comments do not announce,
    each as a concrete run. *)

From S2P Require Import Prelude JsData Effects Shared Cards Prng CardEngine Scoring.
From S2P Require Import TieBreak TopicVoting ClassEngine Machine MachineCards MachineOps MachineRounds.
#[local] Open Scope Z_scope.
#[local] Open Scope js_scope.

(** The players [determineWinner] chooses among: the survivors, or everybody
    ever eliminated when there is none. *)
Definition contenders (m : Machine) : list jstr :=
  match ms_survivingPlayerIds (m_state m) with
  | [] => ms_eliminatedPlayerIds (m_state m)
  | s => s
  end.

Definition all_known (m : Machine) : Prop :=
  forall p, p ∈ contenders m -> map_has p (ms_players (m_state m)) = true.

Lemma resolveTieBreak_some ids players matchId :
  (forall p, p ∈ ids -> map_has p players = true) -> ids <> [] ->
  exists w, resolveTieBreak ids players matchId = Some w /\ w ∈ ids
    /\ forall p, p ∈ ids -> ~ better players p w.
Proof.
  intros Hk Hne. pose proof (resolveTieBreak_sound ids players matchId) as H.
  destruct (resolveTieBreak ids players matchId) as [w|].
  - destruct H as (Hw & _ & Hb). exists w. split_and!; [done|done|]. intros p Hp. by apply Hb, Hk.
  - destruct ids as [|p ids]; [done|]. specialize (H p ltac:(by left)).
    specialize (Hk p ltac:(by left)). congruence.
Qed.

Lemma better_irrefl players p : ~ better players p p.
Proof. unfold better. lia. Qed.

(** [determineWinner] picks a best contender and only logs. *)
Lemma determineWinner_run m c :
  all_known m -> contenders m <> [] ->
  exists w, run_outcome determineWinner m c = Ok (Some w) /\ w ∈ contenders m
    /\ (forall p, p ∈ contenders m -> ~ better (ms_players (m_state m)) p w)
    /\ m_state (run_state determineWinner m c) = m_state m.
Proof.
  unfold all_known, contenders. intros Hk Hne.
  unfold determineWinner, tieBreak, run_outcome, run_state.
  cbv beta iota zeta delta [bind get].
  destruct (ms_survivingPlayerIds (m_state m)) as [|w [|w' ws]].
  - destruct (resolveTieBreak_some _ _ (ms_id (m_state m)) Hk Hne) as (w & Hw & Hin & Hb).
    exists w. rewrite (decide_False (P := _ = [])) by exact Hne. run_simpl.
    rewrite (decide_False (P := _ = [])) by exact Hne. run_simpl. rewrite Hw.
    split_and!; [reflexivity|exact Hin|exact Hb|reflexivity].
  - exists w. run_simpl.
    split_and!; [reflexivity|by left| |reflexivity].
    intros p ->%list_elem_of_singleton. apply better_irrefl.
  - destruct (resolveTieBreak_some _ _ (ms_id (m_state m)) Hk Hne) as (v & Hv & Hin & Hb).
    exists v. rewrite (decide_False (P := _ = [])) by exact Hne. run_simpl. rewrite Hv.
    split_and!; [reflexivity|exact Hin|exact Hb|reflexivity].
Qed.

Lemma roster_known matchId roomId players m :
  reachable (eq (new_machine matchId roomId players)) evaluate_once m ->
  forall p, p ∈ pl_id <$> players -> map_has p (ms_players (m_state m)) = true.
Proof.
  intros Hr p Hp. apply map_has_spec.
  assert (Hk : (ms_players (m_state m)).*1
               = (ms_players (m_state (new_machine matchId roomId players))).*1).
  { revert m Hr. apply (reachable_inv _ _ (fun m => (ms_players (m_state m)).*1 = _)).
    - by intros ? <-.
    - intros m op c H _ _. by rewrite players_keys_after. }
  rewrite Hk. apply map_has_spec. unfold map_has. apply bool_decide_eq_true.
  by apply new_machine_known.
Qed.

(** C38: a finished match has a winner.  In a match with at least one player, in
    which each round is evaluated once, [finishMatch] succeeds, names a player
    of the roster, gives that player (and nobody else) the status WINNER; when
    somebody survived, the winner is a survivor and no survivor has a smaller
    total response time, nor the same with more correct answers. *)
Theorem finishMatch_crowns (matchId roomId : jstr) (players : list PlayerInfo) (m : Machine)
    (c : Clock) :
  players <> [] ->
  reachable (eq (new_machine matchId roomId players)) evaluate_once m ->
  let m' := run_state finishMatch m c in
  run_outcome finishMatch m c = Ok tt
  /\ exists w, ms_winnerId (m_state m') = Some w /\ w ∈ pl_id <$> players
     /\ pl_status <$> map_get w (ms_players (m_state m')) = Some WINNER
     /\ (forall q, q <> w ->
          map_get q (ms_players (m_state m')) = map_get q (ms_players (m_state m)))
     /\ (ms_survivingPlayerIds (m_state m) <> [] -> w ∈ ms_survivingPlayerIds (m_state m)
         /\ forall p, p ∈ ms_survivingPlayerIds (m_state m) ->
            ~ better (ms_players (m_state m)) p w).
Proof.
  intros Hne Hr m'. subst m'.
  assert (Hperm : ms_survivingPlayerIds (m_state m) ++ ms_eliminatedPlayerIds (m_state m)
                  ≡ₚ pl_id <$> players) by by apply (roster_ok_reachable matchId roomId).
  assert (Hsub : forall p, p ∈ contenders m -> p ∈ pl_id <$> players).
  { intros p. rewrite <- Hperm. unfold contenders.
    destruct (ms_survivingPlayerIds (m_state m)); set_solver. }
  assert (Hcn : contenders m <> []).
  { unfold contenders. destruct (ms_survivingPlayerIds (m_state m)); [|done].
    intros Hnil. rewrite Hnil in Hperm. apply Permutation_nil, fmap_nil_inv in Hperm. done. }
  destruct (determineWinner_run m c) as (w & Ho & Hw & Hb & Hst);
    [intros p Hp; by eapply roster_known, Hsub|done|].
  pose proof (roster_known _ _ _ _ Hr w (Hsub w Hw)) as Hk.
  apply bool_decide_eq_true_1 in Hk as [x Hx].
  unfold run_outcome, run_state in *. unfold finishMatch. run_simpl.
  destruct (determineWinner m c) as [[o s1] c1]. cbn [fst snd] in *. subst o.
  run_simpl. state_simpl. rewrite Hst, Hx. state_simpl. split; [done|].
  exists w. split_and!; [done|by apply Hsub|by rewrite map_get_set_eq| |].
  - intros q Hq. by rewrite map_get_set_ne.
  - intros Hs. unfold contenders in *. by destruct (ms_survivingPlayerIds (m_state m)).
Qed.

Lemma finishMatch_crowns_witness :
  run_outcome finishMatch demo_end demo_clock = Ok tt
  /\ ms_winnerId (m_state (run_state finishMatch demo_end demo_clock)) = Some (js "p1").
Proof.
  split; [|vm_compute; reflexivity].
  assert (Hne : demo_player <$> [js "p1"; js "p2"; js "p3"] <> []).
  { intros H. apply (f_equal length) in H. discriminate H. }
  exact (proj1 (finishMatch_crowns (js "m1") (js "r1")
    (demo_player <$> [js "p1"; js "p2"; js "p3"]) demo_end demo_clock Hne demo_end_once)).
Defined.

(** ** Nobody survives *)

(** Two rounds: in the first p1 and p2 answer correctly and p3 does not answer;
    in the second nobody answers. *)
Definition wipeout_ops : list Op :=
  [OTransition COUNTDOWN; OTransition ROUND_ACTIVE; OStartRound demo_question None;
   OSubmitAnswer (js "p1") (js "B") 1200 (Some (js "s1"));
   OSubmitAnswer (js "p2") (js "B") 1300 (Some (js "s2"));
   OTransition ROUND_EVALUATING; OEvaluateRound; OTransition ROUND_RESULT;
   OTransition ROUND_ACTIVE; OStartRound demo_question None;
   OTransition ROUND_EVALUATING; OEvaluateRound; OFinishMatch; OTransition FINISHED].

Definition wipeout : Machine := exec_all wipeout_ops demo_start demo_clock.

(** When the last survivors fall in the same round, the tie-break runs over
    everybody ever eliminated and ranks the total response time of correct
    answers first.  A player who never answered has a total of zero and beats
    the finalists: here p3, out in the first round without a correct answer,
    wins over p1 and p2, who answered one round correctly. *)
Theorem wipeout_crowns_a_player_without_correct_answers :
  ms_winnerId (m_state wipeout) = Some (js "p3")
  /\ correct_of (ms_players (m_state wipeout)) (js "p3") = 0
  /\ correct_of (ms_players (m_state wipeout)) (js "p1") = 1
  /\ correct_of (ms_players (m_state wipeout)) (js "p2") = 1
  /\ ms_eliminatedPlayerIds (m_state wipeout) = [js "p3"; js "p1"; js "p2"].
Proof. vm_compute. by repeat split. Qed.

(** ** A rejected vote opening *)

Definition voting_ops : list Op :=
  [OInitTopicVoting (Some [js "ART"; js "LOGIC"; js "SPORTS"]) None;
   OVoteBanTopic (js "p1") (js "ART") None; OVoteBanTopic (js "p2") (js "LOGIC") None].

Definition voting : Machine := exec_all voting_ops demo_start demo_clock.

(** [initTopicVoting] replaces the topic fields before it asks for the
    transition.  Called again while a vote is running it throws, and the
    ballots cast so far are gone. *)
Theorem initTopicVoting_throw_drops_votes :
  ms_topicVotes (m_state voting) = Some [(js "p1", js "ART"); (js "p2", js "LOGIC")]
  /\ run_outcome (initTopicVoting None None) voting demo_clock
     = Throw (JsError "Invalid transition")
  /\ ms_topicVotes (m_state (run_state (initTopicVoting None None) voting demo_clock)) = Some []
  /\ m_log (run_state (initTopicVoting None None) voting demo_clock) = m_log voting.
Proof. vm_compute. by repeat split. Qed.
