(* ===== verification/MatchCodec.v ===== *)
(** * [packages/game-core/src/match-state.codec.ts]: the persistence format

    A blob is modelled after [JSON.parse]: the record [WireMatch] has the fields
    of the source's [DeserializedMatch], with the JSON value ([wire]) of those
    the code inspects at run time ([None] is an absent field).  [None] in the
    place of a whole blob is text that does not parse.  Numbers are integers;
    [JSON.parse] yields infinities for overflowing literals, the constructor
    [WInfinite]. *)

From S2P Require Import Prelude JsData Doubles Effects Shared Cards Prng CardEngine Scoring.
From S2P Require Import TieBreak TopicVoting ClassEngine Machine MachineCards MachineOps MachineRounds.
#[local] Open Scope Z_scope.

(** ** Wire shapes *)

Inductive wire :=
| WNull
| WBool (b : bool)
| WNum (n : Z)
| WInfinite
| WStr (s : jstr)
| WArr (l : list wire)
| WObject.

Record WireAnswer := mkWireAnswer {
  wa_playerId : option wire;
  wa_answer : option wire;
  wa_isCorrect : option wire;
  wa_responseTimeMs : option wire;
  wa_submittedAt : option wire;
  wa_submissionId : option wire;
}.

(** An element of [answers]: a pair whose second component is an object
    ([Some]) or not, or something that is not a pair. *)
Inductive WireEntry :=
| WEntry (playerId : wire) (answer : option WireAnswer)
| WNoEntry.

Record WireQuestion := mkWireQuestion {
  wq_id : option wire;
  wq_content : option wire;
  wq_options : option (list jstr);
  wq_difficulty : option Difficulty;
}.

Record WireRound := mkWireRound {
  wr_matchId : jstr;
  wr_roundNo : option wire;
  wr_question : option WireQuestion;
  wr_startedAt : option wire;
  wr_endsAt : option wire;
  wr_answers : option (list WireEntry);
  wr_status : option wire;
  wr_correctAnswer : option wire;
  wr_startingPlayers : option wire;
}.

Record WireState := mkWireState {
  ws_id : jstr;
  ws_roomId : jstr;
  ws_status : MatchStatus;
  ws_currentRoundNo : Z;
  ws_totalRounds : Z;
  ws_players : option (list (jstr * PlayerInfo));
  ws_survivingPlayerIds : list jstr;
  ws_eliminatedPlayerIds : list jstr;
  ws_winnerId : option jstr;
  ws_startedAt : option wire;
  ws_endedAt : option Z;
  ws_phaseEndsAt : option wire;
  ws_roundResultStartedAt : option wire;
  ws_candidateTopics : option (list jstr);
  ws_topicVotes : option (JsMap jstr jstr);
  ws_bannedTopics : option (list jstr);
  ws_activeTopics : option (list jstr);
}.

Record WireEvent := mkWireEvent {
  we_payload : EventPayload;
  we_timestamp : Z;
  we_seqNo : option Z;
}.

Record WireMatch := mkWireMatch {
  wm_stateVersion : option wire;
  wm_state : option WireState;
  wm_currentRound : option WireRound;
  wm_eventLog : option (list WireEvent);
}.

Record DecodedMatchState := mkDecoded {
  dm_state : MatchState;
  dm_currentRound : option RoundRuntimeState;
  dm_eventLog : list Event;
}.

(** ** Serialization *)

Definition SERIALIZED_STATE_VERSION : Z := 2.
Definition SUPPORTED_STATE_VERSIONS : list Z := [1; 2].
Definition UNAVAILABLE_SENTINEL : jstr := js "__UNAVAILABLE__".

Definition round_status_str (s : RoundStatus) : jstr :=
  match s with
  | PENDING => js "PENDING"
  | RACTIVE => js "ACTIVE"
  | EVALUATING => js "EVALUATING"
  | COMPLETED => js "COMPLETED"
  end.

Definition VALID_ROUND_STATUSES : list jstr :=
  round_status_str <$> [PENDING; RACTIVE; EVALUATING; COMPLETED].

Definition nullable_num (o : option Z) : wire :=
  match o with Some n => WNum n | None => WNull end.

Definition serializeAnswer (entry : jstr * AnswerState) : WireEntry :=
  let '(playerId, a) := entry in
  WEntry (WStr playerId)
    (Some (mkWireAnswer (Some (WStr (an_playerId a))) (Some (WStr (an_answer a)))
       (WBool <$> an_isCorrect a) (Some (WNum (an_responseTimeMs a)))
       (Some (WNum (an_submittedAt a))) (Some (WStr (an_submissionId a))))).

(** [correctAnswer] is destructured out; the map becomes its entries. *)
Definition serializeRound (r : RoundRuntimeState) : WireRound :=
  let q := rd_question r in
  mkWireRound (rd_matchId r) (Some (WNum (rd_roundNo r)))
    (Some (mkWireQuestion (Some (WStr (q_id q))) (Some (WStr (q_content q)))
             (Some (q_options q)) (q_difficulty q)))
    (Some (WNum (rd_startedAt r))) (Some (WNum (rd_endsAt r)))
    (Some (serializeAnswer <$> rd_answers r))
    (Some (WStr (round_status_str (rd_status r)))) None
    (Some (match rd_startingPlayers r with
           | Some (StartingPlayers ids) => WArr (WStr <$> ids)
           | _ => WStr UNAVAILABLE_SENTINEL
           end)).

Definition serializeState (s : MatchState) : WireState :=
  mkWireState (ms_id s) (ms_roomId s) (ms_status s) (ms_currentRoundNo s) (ms_totalRounds s)
    (Some (ms_players s)) (ms_survivingPlayerIds s) (ms_eliminatedPlayerIds s) (ms_winnerId s)
    (Some (nullable_num (ms_startedAt s))) (ms_endedAt s)
    (Some (nullable_num (ms_phaseEndsAt s))) (Some (nullable_num (ms_roundResultStartedAt s)))
    (ms_candidateTopics s) (ms_topicVotes s) (ms_bannedTopics s) (ms_activeTopics s).

Definition serializeMatch (state : MatchState) (currentRound : option RoundRuntimeState)
    (eventLog : list Event) : WireMatch :=
  mkWireMatch (Some (WNum SERIALIZED_STATE_VERSION)) (Some (serializeState state))
    (serializeRound <$> currentRound)
    (Some ((fun e => mkWireEvent (ev_payload e) (ev_timestamp e) (Some (ev_seqNo e))) <$> eventLog)).

(** ** Parsing and validation *)

#[export] Instance outcome_bind : MBind (outcome exn) := fun A B k x =>
  match x with Ok a => k a | Throw e => Throw e end.

Definition guard_or (b : bool) (e : exn) : outcome exn unit := if b then Ok tt else Throw e.

Definition invalidMatchData : exn := JsError "Invalid MatchStateMachine data (payload omitted)".

(** [validateTimingField]: absent, [null] when allowed, or a finite number. *)
Definition validateTimingField (value : option wire) (allowNull : bool)
    : outcome exn (option (option Z)) :=
  match value with
  | None => Ok None
  | Some WNull =>
      if allowNull then Ok (Some None)
      else Throw (JsError "Invalid MatchStateMachine timing field: null not permitted")
  | Some (WNum n) => Ok (Some (Some n))
  | Some _ => Throw (JsError "Invalid MatchStateMachine timing field: expected finite number or null")
  end.

Definition hasSupportedStateVersion (version : option wire) : option Z :=
  match version with
  | Some (WNum v) => if set_has v SUPPORTED_STATE_VERSIONS then Some v else None
  | _ => None
  end.

Definition is_string (v : option wire) : bool :=
  match v with Some (WStr _) => true | _ => false end.
Definition is_number (v : option wire) : bool :=
  match v with Some (WNum _) | Some WInfinite => true | _ => false end.
Definition is_finite (v : option wire) : bool :=
  match v with Some (WNum _) => true | _ => false end.
Definition is_boolean (v : option wire) : bool :=
  match v with Some (WBool _) => true | _ => false end.
Definition is_undefined (v : option wire) : bool :=
  match v with None => true | _ => false end.
Definition string_is (v : option wire) (s : jstr) : bool :=
  match v with Some (WStr s') => bool_decide (s = s') | _ => false end.

Definition valid_entry (version : Z) (entry : WireEntry) : bool :=
  match entry with
  | WEntry (WStr playerId) (Some a) =>
      string_is (wa_playerId a) playerId && is_string (wa_answer a) && is_boolean (wa_isCorrect a)
      && is_finite (wa_responseTimeMs a) && is_finite (wa_submittedAt a)
      && (is_string (wa_submissionId a) || ((version =? 1) && is_undefined (wa_submissionId a)))
  | _ => false
  end.

Definition valid_question (q : option WireQuestion) : bool :=
  match q with
  | Some q => is_string (wq_id q) && is_string (wq_content q)
      && match wq_options q with Some _ => true | None => false end
  | None => false
  end.

Definition valid_status (v : option wire) : bool :=
  match v with Some (WStr s) => set_has s VALID_ROUND_STATUSES | _ => false end.

Definition valid_answers (version : Z) (answers : option (list WireEntry)) : bool :=
  match answers with Some l => forallb (valid_entry version) l | None => false end.

Definition validateCurrentRoundShape (round : WireRound) (version : Z) : outcome exn unit :=
  guard_or
    ((is_undefined (wr_correctAnswer round) || is_string (wr_correctAnswer round))
     && valid_answers version (wr_answers round) && valid_question (wr_question round)
     && is_number (wr_roundNo round) && valid_status (wr_status round))
    invalidMatchData.

Record Parsed := mkParsed {
  pa_version : Z;
  pa_state : WireState;
  pa_players : list (jstr * PlayerInfo);
  pa_currentRound : option WireRound;
  pa_eventLog : list WireEvent;
}.

Definition parseSerializedMatch (json : option WireMatch) : outcome exn Parsed :=
  match json with
  | None => Throw (JsError "Failed to parse MatchStateMachine JSON (payload omitted)")
  | Some parsed =>
      match hasSupportedStateVersion (wm_stateVersion parsed) with
      | None => Throw (JsError "Unsupported MatchStateMachine state version (payload omitted)")
      | Some version =>
          match wm_state parsed, wm_eventLog parsed with
          | Some state, Some eventLog =>
              match ws_players state with
              | Some players =>
                  _ ← match wm_currentRound parsed with
                            | Some round => validateCurrentRoundShape round version
                            | None => Ok tt
                            end;
                  Ok (mkParsed version state players (wm_currentRound parsed) eventLog)
              | None => Throw invalidMatchData
              end
          | _, _ => Throw invalidMatchData
          end
      end
  end.

Record ValidatedTimingFields := mkTiming {
  vt_startedAt : option (option Z);
  vt_phaseEndsAt : option (option Z);
  vt_roundResultStartedAt : option (option Z);
  vt_currentRoundStartedAt : option (option Z);
  vt_currentRoundEndsAt : option (option Z);
}.

Definition validateMatchTiming (p : Parsed) : outcome exn ValidatedTimingFields :=
  let s := pa_state p in
  startedAt ← validateTimingField (ws_startedAt s) true;
  phaseEndsAt ← validateTimingField (ws_phaseEndsAt s) true;
  roundResultStartedAt ← validateTimingField (ws_roundResultStartedAt s) true;
  '(roundStartedAt, roundEndsAt) ← match pa_currentRound p with
    | Some round =>
        a ← validateTimingField (wr_startedAt round) true;
        b ← validateTimingField (wr_endsAt round) true;
        Ok (a, b)
    | None => Ok (None, None)
    end;
  _ ← guard_or (negb ((pa_version p =? 2) && bool_decide (phaseEndsAt = None)))
              (JsError "Invalid MatchStateMachine data: v2 blob missing phaseEndsAt");
  Ok (mkTiming startedAt phaseEndsAt roundResultStartedAt roundStartedAt roundEndsAt).

(** [typeof x === "number"] on a validated field. *)
Definition number_of (o : option (option Z)) : option Z := mjoin o.

(** [backfillPhaseEndsAt]; [finiteOrNull] turns an infinite sum into [null]. *)
Definition backfillPhaseEndsAt (status : MatchStatus)
    (startedAt currentRoundEndsAt currentRoundStartedAt : option (option Z))
    (roundResultStartedAt : option Z) : option Z :=
  match status with
  | ROUND_ACTIVE =>
      match number_of currentRoundEndsAt, number_of currentRoundStartedAt with
      | Some e, _ => Some e
      | None, Some s => js_add s GAME_CONFIG.ROUND_DURATION_MS
      | None, None => None
      end
  | COUNTDOWN => number_of startedAt ≫= fun s => js_add s GAME_CONFIG.COUNTDOWN_DURATION_MS
  | ROUND_RESULT => roundResultStartedAt ≫= fun s => js_add s GAME_CONFIG.RESULT_DISPLAY_MS
  | _ => None
  end.

Definition decodeMatchState (p : Parsed) (timing : ValidatedTimingFields) : MatchState :=
  let s := pa_state p in
  let status := ws_status s in
  let roundResultStartedAt :=
    if bool_decide (status = ROUND_RESULT) then number_of (vt_roundResultStartedAt timing)
    else None in
  let phaseEndsAt :=
    match vt_phaseEndsAt timing with
    | Some v => v
    | None => backfillPhaseEndsAt status (vt_startedAt timing) (vt_currentRoundEndsAt timing)
                (vt_currentRoundStartedAt timing) roundResultStartedAt
    end in
  let phaseEndsAt :=
    if (pa_version p =? 2) && bool_decide (status = ROUND_RESULT)
    then roundResultStartedAt ≫= fun t => js_add t GAME_CONFIG.RESULT_DISPLAY_MS
    else phaseEndsAt in
  mkMatchState (ws_id s) (ws_roomId s) status (ws_currentRoundNo s) (ws_totalRounds s)
    (map_of_entries (pa_players p)) (ws_survivingPlayerIds s) (ws_eliminatedPlayerIds s)
    (ws_winnerId s) (default None (vt_startedAt timing)) (ws_endedAt s) phaseEndsAt
    roundResultStartedAt (ws_candidateTopics s) (ws_topicVotes s) (ws_bannedTopics s)
    (ws_activeTopics s).

(** ** Rebuilding the round *)

Definition str_of (v : option wire) : jstr := match v with Some (WStr s) => s | _ => [] end.
Definition num_of (v : option wire) : Z := match v with Some (WNum n) => n | _ => 0 end.
Definition bool_of (v : option wire) : option bool :=
  match v with Some (WBool b) => Some b | _ => None end.

Definition parse_round_status (s : jstr) : RoundStatus :=
  default PENDING
    (head (filter (fun st => round_status_str st = s) [PENDING; RACTIVE; EVALUATING; COMPLETED])).

(** An answer of a validated entry; a blob of version 1 may lack the
    submission id. *)
Definition decodeAnswer (entry : WireEntry) : jstr * AnswerState :=
  match entry with
  | WEntry (WStr playerId) (Some a) =>
      (playerId,
       mkAnswer (str_of (wa_playerId a)) (str_of (wa_answer a))
         (match wa_submissionId a with
          | Some (WStr s) => s
          | _ => legacySubmissionId playerId (num_of (wa_submittedAt a))
          end)
         (bool_of (wa_isCorrect a)) (num_of (wa_responseTimeMs a)) (num_of (wa_submittedAt a)))
  | _ => ([], mkAnswer [] [] [] None 0 0)
  end.

Definition deserializeStartingPlayers (raw : option wire) : RoundStartingPlayers :=
  if string_is raw UNAVAILABLE_SENTINEL then UNAVAILABLE
  else match raw with
       | Some (WArr l) =>
           if forallb (fun v => is_string (Some v)) l then
             let ids := (fun v => str_of (Some v)) <$> l in
             if negb (bool_decide (length (set_of_list ids) = length ids)) then UNAVAILABLE
             else StartingPlayers ids
           else UNAVAILABLE
       | _ => UNAVAILABLE
       end.

Definition validateRoundTiming (version : Z) (state : MatchState) (timing : ValidatedTimingFields)
    (startedAt endsAt : option Z) : outcome exn (Z * Z) :=
  match startedAt, endsAt with
  | Some s, Some e =>
      if e <? s
      then Throw (JsError "Invalid MatchStateMachine data: currentRound endsAt precedes startedAt")
      else if (version =? 2) && bool_decide (ms_status state = ROUND_ACTIVE)
              && negb (bool_decide (vt_phaseEndsAt timing = Some (Some e)))
      then Throw (JsError
             "Invalid MatchStateMachine data: v2 ROUND_ACTIVE phaseEndsAt does not match currentRound.endsAt")
      else Ok (s, e)
  | _, _ => Throw (JsError
      "Invalid MatchStateMachine data: currentRound has no reconstructable startedAt/endsAt")
  end.

(** The three fallbacks of the round's times, in the source's order. *)
Definition reconstruct_times (state : MatchState) (timing : ValidatedTimingFields)
    : option Z * option Z :=
  let startedAt := number_of (vt_currentRoundStartedAt timing) in
  let endsAt := number_of (vt_currentRoundEndsAt timing) in
  let endsAt :=
    match endsAt with
    | None => if bool_decide (ms_status state = ROUND_ACTIVE) then ms_phaseEndsAt state else None
    | _ => endsAt
    end in
  let endsAt :=
    match endsAt, startedAt with
    | None, Some s => js_add s GAME_CONFIG.ROUND_DURATION_MS
    | _, _ => endsAt
    end in
  let startedAt :=
    match startedAt, endsAt with
    | None, Some e => js_add e (- GAME_CONFIG.ROUND_DURATION_MS)
    | _, _ => startedAt
    end in
  (startedAt, endsAt).

Definition decodeCurrentRound (p : Parsed) (state : MatchState) (timing : ValidatedTimingFields)
    : outcome exn (option RoundRuntimeState) :=
  match pa_currentRound p with
  | None => Ok None
  | Some round =>
      let '(startedAt, endsAt) := reconstruct_times state timing in
      '(startedAt, endsAt) ← validateRoundTiming (pa_version p) state timing startedAt endsAt;
      match wr_roundNo round, wr_question round with
      | Some (WNum no), Some q =>
          Ok (Some (mkRound (wr_matchId round) no
            (mkQuestion (str_of (wq_id q)) (str_of (wq_content q)) (default [] (wq_options q))
               (wq_difficulty q))
            startedAt endsAt
            (map_of_entries (decodeAnswer <$> default [] (wr_answers round)))
            (parse_round_status (str_of (wr_status round))) None
            (Some (deserializeStartingPlayers (wr_startingPlayers round)))))
      | _, _ => Throw (JsError "outside the model: a round number that is not finite")
      end
  end.

Definition backfillEventSequence (eventLog : list WireEvent) : list Event :=
  imap (fun index e =>
    mkEvent (we_payload e) (we_timestamp e) (default (Z.of_nat index + 1) (we_seqNo e))) eventLog.

Definition deserializeMatch (json : option WireMatch) : outcome exn DecodedMatchState :=
  p ← parseSerializedMatch json;
  timing ← validateMatchTiming p;
  let state := decodeMatchState p timing in
  currentRound ← decodeCurrentRound p state timing;
  Ok (mkDecoded state currentRound (backfillEventSequence (pa_eventLog p))).

(** ** The machine's two ends of the codec *)

Definition serialize (m : Machine) : WireMatch :=
  serializeMatch (m_state m) (m_round m) (m_log m).

Definition deserialize (json : option WireMatch) : outcome exn Machine :=
  d ← deserializeMatch json;
  Ok (mkMachine (dm_state d) (dm_currentRound d) (dm_eventLog d)
        (foldl (fun max e => Z.max (ev_seqNo e) max) 0 (dm_eventLog d))
        (rehydrateCardStateFromEventLog (dm_eventLog d)) false).

(** ** Deadlines *)

(** Adding a phase duration to a finite number never overflows: the
    [finiteOrNull] and [Number.isFinite] guards on deadlines are never taken. *)
Theorem deadline_is_finite (anchor duration : Z) :
  Z.abs anchor <= MAX_VALUE -> Z.abs duration <= 20000 -> is_Some (js_add anchor duration).
Proof.
  intros Ha Hd. apply round_to_double_finite. pose proof (Z.abs_triangle anchor duration).
  unfold MAX_VALUE in Ha.
  assert (2 ^ 1025 = 2 * 2 ^ 1024) by (rewrite <- Z.pow_succ_r by lia; f_equal).
  assert (2 ^ 16 <= 2 ^ 971) by (apply Z.pow_le_mono_r; lia).
  generalize dependent (2 ^ 1024). generalize dependent (2 ^ 971). intros. lia.
Qed.

Lemma deadline_is_finite_witness :
  Z.abs MAX_VALUE <= MAX_VALUE /\ is_Some (js_add MAX_VALUE 15000).
Proof.
  assert (H : Z.abs MAX_VALUE <= MAX_VALUE) by (apply Z.leb_le; vm_compute; reflexivity).
  split; [exact H|]. apply (deadline_is_finite MAX_VALUE 15000 H). apply Z.leb_le. reflexivity.
Defined.

(** ** Round trip *)

(** What the codec needs of a live round: its clock runs forward, its answers
    are judged and stored under their player, and it knows its distinct
    starting players. *)
Definition storable_round (r : RoundRuntimeState) : Prop :=
  rd_startedAt r <= rd_endsAt r /\ map_wf (rd_answers r)
  /\ Forall (fun kv => an_playerId kv.2 = kv.1 /\ is_Some (an_isCorrect kv.2)) (rd_answers r)
  /\ exists ids, rd_startingPlayers r = Some (StartingPlayers ids) /\ NoDup ids.

Definition storable (m : Machine) : Prop :=
  map_wf (ms_players (m_state m)) /\ phase_timing m /\ numbered m
  /\ rehydrateCardStateFromEventLog (m_log m) = m_cards m
  /\ forall r, m_round m = Some r -> storable_round r.

Definition forget_answer (r : RoundRuntimeState) : RoundRuntimeState := rd_set_correctAnswer None r.

Lemma parse_round_status_str s : parse_round_status (round_status_str s) = s.
Proof. by destruct s. Qed.

Lemma valid_status_str s : valid_status (Some (WStr (round_status_str s))) = true.
Proof. by destruct s. Qed.

Lemma valid_entry_serialized v kv :
  an_playerId kv.2 = kv.1 -> is_Some (an_isCorrect kv.2) -> valid_entry v (serializeAnswer kv) = true.
Proof.
  destruct kv as [p a]. cbn. intros Hp [b Hb]. rewrite Hb, Hp. cbn.
  by rewrite bool_decide_eq_true_2.
Qed.

Lemma decode_serialized kv : an_playerId kv.2 = kv.1 -> decodeAnswer (serializeAnswer kv) = kv.
Proof. destruct kv as [p []]. cbn. intros ->. by destruct an_isCorrect. Qed.

Lemma decode_starting ids :
  NoDup ids -> deserializeStartingPlayers (Some (WArr (WStr <$> ids))) = StartingPlayers ids.
Proof.
  intros Hd. unfold deserializeStartingPlayers. cbn [string_is].
  assert (Hs : forallb (fun v => is_string (Some v)) (WStr <$> ids) = true)
    by (clear Hd; by induction ids).
  rewrite Hs. assert (Hm : (fun v => str_of (Some v)) <$> (WStr <$> ids) = ids).
  { clear. induction ids as [|x l IH]; [done|]. cbn. by f_equal. }
  rewrite Hm. assert (Hl : set_of_list ids = ids) by by apply set_of_list_id.
  rewrite Hl, bool_decide_eq_true_2 by done. done.
Qed.

Lemma shape_serialized r v :
  storable_round r -> validateCurrentRoundShape (serializeRound r) v = Ok tt.
Proof.
  intros (_ & _ & Ha & _). unfold validateCurrentRoundShape, guard_or.
  cbn [serializeRound wr_correctAnswer wr_answers wr_question wr_roundNo wr_status
       is_undefined is_number valid_answers valid_question wq_id wq_content wq_options is_string].
  rewrite valid_status_str.
  assert (Hf : forallb (valid_entry v) (serializeAnswer <$> rd_answers r) = true).
  { induction Ha as [|kv l [Hp Hc] _ IH]; [done|]. cbn [fmap list_fmap forallb].
    rewrite valid_entry_serialized by done. exact IH. }
  by rewrite Hf.
Qed.

Lemma timing_serialized (o : option Z) :
  validateTimingField (Some (nullable_num o)) true = Ok (Some o).
Proof. by destruct o. Qed.

Definition timing_of (m : Machine) : ValidatedTimingFields :=
  mkTiming (Some (ms_startedAt (m_state m))) (Some (ms_phaseEndsAt (m_state m)))
    (Some (ms_roundResultStartedAt (m_state m)))
    (Some <$> (rd_startedAt <$> m_round m)) (Some <$> (rd_endsAt <$> m_round m)).

Definition parsed_of (m : Machine) (state : WireState) : Parsed :=
  mkParsed SERIALIZED_STATE_VERSION state (ms_players (m_state m)) (serializeRound <$> m_round m)
    ((fun e => mkWireEvent (ev_payload e) (ev_timestamp e) (Some (ev_seqNo e))) <$> m_log m).

Lemma parse_serialized m :
  storable m ->
  parseSerializedMatch (Some (serialize m)) = Ok (parsed_of m (serializeState (m_state m))).
Proof.
  intros (_ & _ & _ & _ & Hr). unfold parseSerializedMatch, parsed_of, serialize, serializeMatch.
  destruct (m_round m) as [r|]; cbn -[validateCurrentRoundShape serializeRound]; [|done].
  change (set_has SERIALIZED_STATE_VERSION SUPPORTED_STATE_VERSIONS) with true. cbv beta iota.
  by rewrite shape_serialized by by apply Hr.
Qed.

Lemma timing_of_serialized m :
  validateMatchTiming (parsed_of m (serializeState (m_state m))) = Ok (timing_of m).
Proof.
  unfold validateMatchTiming, timing_of. cbn [pa_state parsed_of serializeState ws_startedAt
    ws_phaseEndsAt ws_roundResultStartedAt pa_currentRound pa_version].
  rewrite !timing_serialized. by destruct (m_round m).
Qed.

Lemma decode_state_serialized m :
  storable m ->
  decodeMatchState (parsed_of m (serializeState (m_state m))) (timing_of m) = m_state m.
Proof.
  intros (Hwf & Ht & _). unfold phase_timing in Ht.
  unfold decodeMatchState. cbn [pa_state pa_players pa_version parsed_of serializeState timing_of
    ws_id ws_roomId ws_status ws_currentRoundNo ws_totalRounds ws_survivingPlayerIds
    ws_eliminatedPlayerIds ws_winnerId ws_endedAt ws_candidateTopics ws_topicVotes ws_bannedTopics
    ws_activeTopics vt_startedAt vt_phaseEndsAt vt_roundResultStartedAt number_of mjoin option_join
    default].
  rewrite map_of_entries_id by done. destruct (m_state m). cbn in *.
  destruct ms_status; cbn in *; destruct_and?; subst; try done.
  destruct Ht as (t & -> & Htr & ->). rewrite bool_decide_eq_true_2 by done. cbn. rewrite js_add_small; [done|].
  unfold MAX_TIME, GAME_CONFIG.RESULT_DISPLAY_MS in *. lia.
Qed.

Lemma decode_answers_serialized r :
  storable_round r -> map_of_entries (decodeAnswer <$> (serializeAnswer <$> rd_answers r)) = rd_answers r.
Proof.
  intros (_ & Hwf & Ha & _).
  assert (He : decodeAnswer <$> (serializeAnswer <$> rd_answers r) = rd_answers r).
  { clear Hwf. induction Ha as [|kv l [Hp _] _ IH]; [done|]. cbn [fmap list_fmap].
    by rewrite decode_serialized, IH. }
  by rewrite He, map_of_entries_id.
Qed.

Lemma decode_round_serialized m :
  storable m ->
  decodeCurrentRound (parsed_of m (serializeState (m_state m))) (m_state m) (timing_of m)
  = Ok (forget_answer <$> m_round m).
Proof.
  intros (_ & Ht & _ & _ & Hr). unfold decodeCurrentRound. cbn [pa_currentRound parsed_of pa_version].
  destruct (m_round m) as [r|] eqn:E; [|done]. cbn [fmap option_fmap option_map].
  specialize (Hr r eq_refl) as Hs. unfold timing_of, reconstruct_times, validateRoundTiming. rewrite E.
  cbn [fmap option_fmap option_map vt_currentRoundStartedAt vt_currentRoundEndsAt vt_phaseEndsAt
       number_of mjoin option_join].
  destruct Hs as (Hle & Hs'). rewrite (proj2 (Z.ltb_ge _ _) Hle).
  assert (Hph : (SERIALIZED_STATE_VERSION =? 2) && bool_decide (ms_status (m_state m) = ROUND_ACTIVE)
    && negb (bool_decide (Some (ms_phaseEndsAt (m_state m)) = Some (Some (rd_endsAt r)))) = false).
  { unfold phase_timing in Ht. rewrite E in Ht. destruct (ms_status (m_state m)); try done.
    cbn in *. destruct Ht as [_ ->]. by rewrite !bool_decide_eq_true_2 by done. }
  rewrite Hph. cbn [mbind outcome_bind serializeRound wr_roundNo wr_question wr_matchId wr_answers
    wr_status wr_startingPlayers from_option id wq_id wq_content wq_options wq_difficulty str_of].
  rewrite decode_answers_serialized, parse_round_status_str by by split.
  destruct Hs' as (_ & _ & ids & Hids & Hd). rewrite Hids, decode_starting by done.
  unfold forget_answer. destruct r as [? ? [] ? ? ? ? ? ?]. cbn in *. by subst.
Qed.

Lemma backfill_serialized log :
  backfillEventSequence
    ((fun e => mkWireEvent (ev_payload e) (ev_timestamp e) (Some (ev_seqNo e))) <$> log) = log.
Proof.
  unfold backfillEventSequence. rewrite imap_fmap. apply list_eq. intros i.
  rewrite list_lookup_imap. destruct (log !! i) as [[]|]; done.
Qed.

Lemma max_seq_numbered m :
  numbered m -> foldl (fun max e => Z.max (ev_seqNo e) max) 0 (m_log m) = m_seq m.
Proof.
  intros [-> H]. revert H. generalize (m_log m). intros l.
  induction l as [|e l IH] using rev_ind; [done|].
  rewrite fmap_app, length_app, Nat2Z.inj_add, seqZ_app by lia. intros H.
  apply app_inj_2 in H as [Hl He]; [|done]. rewrite foldl_app, IH by done. cbn [foldl length].
  rewrite <- seqZ_one in He. cbn in He. injection He as ->. lia.
Qed.

(** The machine a recovering instance holds. *)
Definition recovered (m : Machine) : Machine :=
  mkMachine (m_state m) (forget_answer <$> m_round m) (m_log m) (m_seq m) (m_cards m) false.

Lemma deserialize_serialize m : storable m -> deserialize (Some (serialize m)) = Ok (recovered m).
Proof.
  intros H. unfold deserialize, deserializeMatch.
  rewrite parse_serialized by done. cbn [mbind outcome_bind].
  rewrite timing_of_serialized. cbn [mbind outcome_bind].
  rewrite decode_state_serialized, decode_round_serialized by done. cbn [mbind outcome_bind].
  cbn [parsed_of pa_eventLog dm_state dm_currentRound dm_eventLog].
  rewrite backfill_serialized. destruct H as (_ & _ & Hn & Hc & _).
  by rewrite max_seq_numbered, Hc.
Qed.

(** ** Reachable matches are storable *)

(** Callers pass truthy player ids and rounds that do not end before they
    start. *)
Definition codec_op (m : Machine) (op : Op) : Prop :=
  player_ids_truthy m op
  /\ match op with OStartRound _ (Some d) => 0 <= d | _ => True end.

Definition fresh_roster (m : Machine) : Prop :=
  exists matchId roomId players,
    NoDup (pl_id <$> players) /\ m = new_machine matchId roomId players.

(** The survivors and a round's starting players are distinct; a round's clock
    runs forward. *)
Definition starters_ok (m : Machine) : Prop :=
  NoDup (ms_survivingPlayerIds (m_state m))
  /\ forall r, m_round m = Some r -> rd_startedAt r <= rd_endsAt r
     /\ exists ids, rd_startingPlayers r = Some (StartingPlayers ids) /\ NoDup ids.

Lemma starters_ok_starting m r : starters_ok m -> m_round m = Some r -> NoDup (round_starting m r).
Proof.
  intros (_ & Hr) E. destruct (Hr r E) as (_ & ids & Hids & Hd). unfold round_starting.
  by rewrite Hids.
Qed.

Lemma starters_ok_after op m c : codec_op m op -> starters_ok m -> starters_ok (after op m c).
Proof.
  intros [_ Hop] H. destruct op; cbn in Hop; unfold_ops; run; try exact H;
    unfold starters_ok in *; destruct H as (Hd & Hr); state_simpl;
    try (split; [assumption|intros r0 Hr0; apply Hr; congruence]).
  all: chase_players; try (split; [assumption|intros r0 Hr0; apply Hr; congruence]).
  - split; [done|]. intros ? [= <-]. cbn. split; [|by eexists].
    destruct roundDurationMs; cbn; unfold GAME_CONFIG.ROUND_DURATION_MS; lia.
  - split; [done|]. intros ? E. destruct (m_round m) as [r1|]; [|done]. injection E as <-.
    exact (Hr r1 eq_refl).
  - split; [done|]. intros ? E. destruct (m_round m) as [r1|]; [|done]. injection E as <-.
    exact (Hr r1 eq_refl).
  - rewrite evaluate_loop in Heqp. injection Heqp as _ <-. rewrite Heqo. split.
    + apply NoDup_filter. eapply starters_ok_starting; [|exact Heqo]. by split.
    + intros ? [= <-]. exact (Hr r Heqo).
  - rewrite evaluate_loop in Heqp. injection Heqp as _ <-. rewrite Heqo. split.
    + apply NoDup_filter. eapply starters_ok_starting; [|exact Heqo]. by split.
    + intros ? [= <-]. exact (Hr r Heqo).
  - split; [done|]. intros ? E. destruct (m_round m) as [r1|]; [|done]. injection E as <-.
    case_match; exact (Hr r1 eq_refl).
Qed.

Lemma storable_reachable m : reachable fresh_roster codec_op m -> storable m.
Proof.
  intros Hr.
  assert (H : starters_ok m /\ map_wf (ms_players (m_state m)) /\ current_round_ok m
              /\ phase_timing m /\ numbered m /\ event_sourced m).
  { revert m Hr. apply (reachable_inv _ _ (fun m => starters_ok m /\ map_wf (ms_players (m_state m))
      /\ current_round_ok m /\ phase_timing m /\ numbered m /\ event_sourced m)).
    - intros ? (matchId & roomId & players & Hd & ->). split_and!; try done.
      + apply map_of_entries_wf.
      + split; [done|apply not_elem_of_nil].
    - intros m op c (Hs & Hw & Hc & Ht & Hn & He) Hop Hck. split_and!.
      + by apply starters_ok_after.
      + unfold map_wf in *. by rewrite players_keys_after.
      + by apply current_round_ok_after.
      + by apply phase_timing_after.
      + by apply numbered_after.
      + apply event_sourced_after; [done|apply Hop]. }
  destruct H as ((_ & Hst) & Hw & Hc & Ht & Hn & He & _). split_and!; try done.
  intros r E. destruct (Hst r E) as (Hle & Hids). destruct (Hc r E) as (_ & _ & Hwf & Ha).
  split_and!; try done. apply Forall_forall. intros [p a] Hin.
  destruct (Ha p a) as (Hp & _ & Hj & _); [by apply map_get_elem|]. done.
Qed.

(** C9: crash recovery is exact.  Every reachable match survives a trip through
    its persisted form: state, round, log, sequence counter and card state come
    back unchanged, except the answer key, which is never written; re-attaching
    the key of an open round restores the match completely. *)
Theorem recovery_round_trip (m : Machine) (c : Clock) :
  reachable fresh_roster codec_op m ->
  deserialize (Some (serialize m)) = Ok (recovered m)
  /\ forall r key, m_round m = Some r -> rd_status r = RACTIVE -> rd_correctAnswer r = Some key ->
     m_elimFrozen m = false ->
     run_state (attachCorrectAnswer key) (recovered m) c = m.
Proof.
  intros Hr. split; [by apply deserialize_serialize, storable_reachable|].
  intros r key E Ha Hk Hf. unfold attachCorrectAnswer, recovered. run. rewrite E.
  unfold on_round, set_round. state_simpl. cbn [fmap option_fmap option_map forget_answer].
  assert (Hst : bool_decide (rd_status (forget_answer r) = RACTIVE) = true)
    by by apply bool_decide_eq_true.
  rewrite Hst. destruct m as [? ? ? ? ? ?]. cbn in *. subst. destruct r; cbn in *. by subst.
Qed.

(** The persisted form never depends on the answer key of the round in flight. *)
Lemma serialize_key_free m key :
  serialize (on_round (rd_set_correctAnswer key) m) = serialize m.
Proof. unfold serialize, serializeMatch. state_simpl. by destruct (m_round m). Qed.

Lemma demo_mid_codec : reachable fresh_roster codec_op demo_mid.
Proof.
  apply exec_all_reachable; [|apply demo_clock_in_range|].
  - apply reach_init. exists (js "m1"), (js "r1"), (demo_player <$> [js "p1"; js "p2"; js "p3"]).
    split; [|reflexivity]. apply (bool_decide_eq_true_1 (NoDup _)). vm_compute. reflexivity.
  - intros m' op Hin. unfold demo_round_ops in Hin.
    repeat (apply elem_of_cons in Hin as [->|Hin];
            [split; [first [exact I|discriminate]|exact I]|]).
    by apply elem_of_nil in Hin.
Qed.

Lemma recovery_round_trip_witness :
  deserialize (Some (serialize demo_mid)) = Ok (recovered demo_mid)
  /\ run_state (attachCorrectAnswer (js "B")) (recovered demo_mid) demo_clock = demo_mid.
Proof.
  pose proof demo_mid_codec as H.
  destruct (recovery_round_trip demo_mid demo_clock H) as [H1 H2].
  split; [exact H1|]. apply (H2 demo_round (js "B") demo_round_eq); vm_compute; reflexivity.
Defined.

(** ** What an accepted blob guarantees *)

Definition round_sound (r : RoundRuntimeState) : Prop :=
  rd_correctAnswer r = None /\ rd_startedAt r <= rd_endsAt r /\ map_wf (rd_answers r)
  /\ (forall p a, map_get p (rd_answers r) = Some a ->
       an_playerId a = p /\ is_Some (an_isCorrect a))
  /\ match rd_startingPlayers r with Some (StartingPlayers ids) => NoDup ids | _ => True end.

Lemma valid_entry_decoded v e p a :
  valid_entry v e = true -> decodeAnswer e = (p, a) ->
  an_playerId a = p /\ is_Some (an_isCorrect a).
Proof.
  destruct e as [[| | | |s| |] [a'|]|]; try done. cbn. intros H [= <- <-]. bool_to_prop. cbn.
  destruct (wa_playerId a') as [[]|]; try discriminate.
  destruct (wa_isCorrect a') as [[]|]; try discriminate.
  cbn in *. bool_to_prop. by eauto.
Qed.

Lemma starting_sound raw ids :
  deserializeStartingPlayers raw = StartingPlayers ids -> NoDup ids.
Proof.
  unfold deserializeStartingPlayers. repeat case_match; try done. intros [= <-].
  bool_to_prop. destruct (set_of_list_spec ((fun v => str_of (Some v)) <$> l)) as [Hd Hin].
  match goal with H : length _ = length _ |- _ => rename H into Hlen end.
  eapply NoDup_Permutation_proper; [|exact Hd].
  symmetry. apply submseteq_length_Permutation; [|by rewrite Hlen].
  apply NoDup_submseteq; [exact Hd|]. intros x. by rewrite Hin.
Qed.

Lemma decodeCurrentRound_sound p state timing r :
  (forall round, pa_currentRound p = Some round ->
     validateCurrentRoundShape round (pa_version p) = Ok tt) ->
  decodeCurrentRound p state timing = Ok (Some r) ->
  round_sound r
  /\ (pa_version p = 2 -> ms_status state = ROUND_ACTIVE ->
      vt_phaseEndsAt timing = Some (Some (rd_endsAt r))).
Proof.
  intros Hshape. unfold decodeCurrentRound. destruct (pa_currentRound p) as [round|]; [|done].
  specialize (Hshape round eq_refl). destruct (reconstruct_times state timing) as [s0 e0].
  unfold validateRoundTiming. destruct s0 as [s|], e0 as [e|]; try done.
  destruct (e <? s) eqn:Hse; [done|]. destruct (_ && _ && _) eqn:Hph; [done|].
  cbn [mbind outcome_bind]. destruct (wr_roundNo round) as [[]|]; try done.
  destruct (wr_question round) as [q|]; [|done]. intros [= <-]. bool_to_prop.
  unfold validateCurrentRoundShape, guard_or in Hshape.
  destruct (_ && _) eqn:Hs in Hshape; [|done]. bool_to_prop.
  split.
  - unfold round_sound. cbn. split_and!; [done|done|apply map_of_entries_wf| |].
    + intros p' a Ha. apply map_of_entries_elem, list_elem_of_fmap in Ha as (entry & He & Hin).
      destruct (wr_answers round) as [l|]; [|done]. cbn in Hin.
      match goal with H : valid_answers _ _ = true |- _ => rename H into Hva end.
      cbn in Hva. rewrite forallb_forall in Hva. apply (valid_entry_decoded (pa_version p) entry); [|done].
      apply Hva. by apply list_elem_of_In.
    + destruct (deserializeStartingPlayers _) eqn:Hst; [by eapply starting_sound|done].
  - intros Hv Hact. rewrite Hv, Hact in Hph. cbn in Hph.
    rewrite bool_decide_eq_true_2 in Hph by done. cbn in Hph. bool_to_prop. done.
Qed.

(** C33: validation is sound.  Whatever bytes were stored, a blob that is
    accepted yields a state in which the players are distinct, the result anchor
    exists only in ROUND_RESULT and (version 2) fixes the deadline, and a round
    that runs forward, holds judged answers under their own player, has distinct
    starting players or none, agrees with the phase deadline (version 2,
    ROUND_ACTIVE), and carries no answer key, even if the blob does. *)
Theorem deserialize_sound (w : WireMatch) (d : DecodedMatchState) (version : Z) :
  hasSupportedStateVersion (wm_stateVersion w) = Some version ->
  deserializeMatch (Some w) = Ok d ->
  map_wf (ms_players (dm_state d))
  /\ (ms_status (dm_state d) <> ROUND_RESULT -> ms_roundResultStartedAt (dm_state d) = None)
  /\ (version = 2 -> ms_status (dm_state d) = ROUND_RESULT ->
      ms_phaseEndsAt (dm_state d)
      = ms_roundResultStartedAt (dm_state d) ≫= fun t => js_add t GAME_CONFIG.RESULT_DISPLAY_MS)
  /\ forall r, dm_currentRound d = Some r -> round_sound r
     /\ (version = 2 -> ms_status (dm_state d) = ROUND_ACTIVE ->
         ms_phaseEndsAt (dm_state d) = Some (rd_endsAt r)).
Proof.
  intros Hv. unfold deserializeMatch. destruct (parseSerializedMatch (Some w)) as [p|] eqn:Hp; [|done].
  cbn [mbind outcome_bind]. destruct (validateMatchTiming p) as [t|] eqn:Ht; [|done].
  cbn [mbind outcome_bind].
  destruct (decodeCurrentRound p (decodeMatchState p t) t) as [o|] eqn:Hr; [|done].
  cbn [mbind outcome_bind]. intros [= <-]. cbn [dm_state dm_currentRound].
  assert (Hpv : pa_version p = version /\ forall round, pa_currentRound p = Some round ->
    validateCurrentRoundShape round (pa_version p) = Ok tt).
  { revert Hp. unfold parseSerializedMatch. rewrite Hv. repeat case_match; try done.
    - destruct (validateCurrentRoundShape _ version) as [[]|] eqn:Hsh; [|done].
      intros [= <-]. cbn. split; [done|]. by intros ? [= <-].
    - intros [= <-]. by split. }
  destruct Hpv as [<- Hshape]. split_and!.
  - apply map_of_entries_wf.
  - cbn. intros Hne. by rewrite bool_decide_eq_false_2.
  - cbn. intros -> Hst. rewrite Hst. by rewrite bool_decide_eq_true_2.
  - intros r ->. destruct (decodeCurrentRound_sound p _ t r Hshape Hr) as [Hs Hph].
    split; [done|]. intros Hv2 Hst. specialize (Hph Hv2 Hst). cbn in *. rewrite Hst, Hv2, Hph. done.
Qed.

Lemma deserialize_sound_witness :
  exists d, deserializeMatch (Some (serialize demo_end)) = Ok d
    /\ map_wf (ms_players (dm_state d)).
Proof.
  destruct (deserializeMatch (Some (serialize demo_end))) as [d|e] eqn:E.
  - exists d. split; [reflexivity|].
    exact (proj1 (deserialize_sound (serialize demo_end) d 2 eq_refl E)).
  - exfalso. assert (H : match deserializeMatch (Some (serialize demo_end)) with
                         | Ok _ => true | Throw _ => false end = true) by (vm_compute; reflexivity).
    rewrite E in H. discriminate H.
Defined.

(** C32: the answer key of a round in flight is never persisted: two matches that
    differ only in that key have the same persisted form, and no accepted blob
    brings a key back. *)
Theorem answer_key_not_persisted (m : Machine) (key : option jstr) (w : option WireMatch)
    (m' : Machine) :
  serialize (on_round (rd_set_correctAnswer key) m) = serialize m
  /\ (deserialize w = Ok m' -> getCorrectAnswer m' = None).
Proof.
  split; [apply serialize_key_free|]. unfold deserialize, deserializeMatch.
  destruct (parseSerializedMatch w) as [p|]; [|done]. cbn [mbind outcome_bind].
  destruct (validateMatchTiming p) as [t|]; [|done]. cbn [mbind outcome_bind].
  unfold decodeCurrentRound. destruct (pa_currentRound p) as [round|].
  - destruct (reconstruct_times _ t) as [s e].
    destruct (validateRoundTiming _ _ t s e) as [[s' e']|]; [|done]. cbn [mbind outcome_bind].
    destruct (wr_roundNo round) as [[]|]; try done. destruct (wr_question round); [|done].
    cbn [mbind outcome_bind]. by intros [= <-].
  - cbn [mbind outcome_bind]. by intros [= <-].
Qed.

Lemma answer_key_not_persisted_witness :
  exists m', deserialize (Some (serialize demo_mid)) = Ok m' /\ getCorrectAnswer m' = None
    /\ getCorrectAnswer demo_mid = Some (js "B").
Proof.
  destruct (deserialize (Some (serialize demo_mid))) as [m'|e] eqn:E.
  - exists m'. split; [reflexivity|]. split; [|vm_compute; reflexivity].
    exact (proj2 (answer_key_not_persisted demo_mid None (Some (serialize demo_mid)) m') E).
  - exfalso. assert (H : match deserialize (Some (serialize demo_mid)) with
                         | Ok _ => true | Throw _ => false end = true) by (vm_compute; reflexivity).
    rewrite E in H. discriminate H.
Defined.
