(* ===== verification/EloTiers.v ===== *)
(** * [packages/shared/src/elo.ts]: rank tiers *)

From Stdlib Require Import QArith Qround.
From S2P Require Import Prelude JsData.
#[local] Open Scope Z_scope.

Inductive RankTier := BRONZE | SILVER | GOLD_TIER | PLATINUM | DIAMOND | MASTER | GRANDMASTER.
#[export] Instance RankTier_eq : EqDecision RankTier.
Proof. solve_decision. Defined.

Definition DEFAULT_ELO : Z := 1200.
Definition DEFAULT_K_FACTOR : Z := 32.
Definition DEFAULT_RANK_TIER : RankTier := SILVER.

(** [maxElo] is [None] for [Number.POSITIVE_INFINITY].  The presentation fields
    ([i18nKey], [badgeGlyph], [accentColor]) are carried as they are. *)
Record RankTierInfo := mkTierInfo {
  rt_tier : RankTier;
  rt_minElo : Z;
  rt_maxElo : option Z;
  rt_i18nKey : jstr;
  rt_badgeGlyph : jstr;
  rt_accentColor : jstr;
}.

Definition RANK_TIERS : list RankTierInfo := [
  mkTierInfo BRONZE 0 (Some 1199) (js "rank.tiers.bronze") [0xD83E; 0xDD49] (js "#CD7F32");
  mkTierInfo SILVER 1200 (Some 1399) (js "rank.tiers.silver") [0xD83E; 0xDD48] (js "#C0C0C0");
  mkTierInfo GOLD_TIER 1400 (Some 1599) (js "rank.tiers.gold") [0xD83E; 0xDD47] (js "#FFD700");
  mkTierInfo PLATINUM 1600 (Some 1799) (js "rank.tiers.platinum") [0xD83D; 0xDC8E] (js "#00E5FF");
  mkTierInfo DIAMOND 1800 (Some 1999) (js "rank.tiers.diamond") [0xD83D; 0xDCA0] (js "#B388FF");
  mkTierInfo MASTER 2000 (Some 2199) (js "rank.tiers.master") [0xD83D; 0xDC51] (js "#FF4081");
  mkTierInfo GRANDMASTER 2200 None (js "rank.tiers.grandmaster") [0xD83C; 0xDF1F] (js "#FFD54F")
].

Definition rankTierNames : list RankTier := rt_tier <$> RANK_TIERS.

(** [elo] is [None] when it is not finite. *)
Definition safeElo (elo : option Q) : Z :=
  Z.max 0 (match elo with Some q => Qfloor q | None => 0 end).

Definition getRankTier (elo : option Q) : RankTier :=
  let safe := safeElo elo in
  match find_index (fun t => rt_minElo t <=? safe) (List.rev RANK_TIERS) with
  | i => match js_nth (List.rev RANK_TIERS) i with
         | Some t => rt_tier t
         | None => BRONZE
         end
  end.

(** [RANK_TIER_MAP.get(tier) ?? DEFAULT_RANK_TIER_INFO] *)
Definition DEFAULT_RANK_TIER_INFO : RankTierInfo :=
  match head (filter (fun t => rt_tier t = DEFAULT_RANK_TIER) RANK_TIERS) with
  | Some t => t
  | None => mkTierInfo BRONZE 0 None [] [] []
  end.

Definition RANK_TIER_MAP : JsMap RankTier RankTierInfo :=
  map_of_entries ((fun t => (rt_tier t, t)) <$> RANK_TIERS).

Definition getRankTierInfo (tier : RankTier) : RankTierInfo :=
  default DEFAULT_RANK_TIER_INFO (map_get tier RANK_TIER_MAP).

Lemma getRankTier_eq elo :
  getRankTier elo =
  if 2200 <=? safeElo elo then GRANDMASTER else if 2000 <=? safeElo elo then MASTER
  else if 1800 <=? safeElo elo then DIAMOND else if 1600 <=? safeElo elo then PLATINUM
  else if 1400 <=? safeElo elo then GOLD_TIER else if 1200 <=? safeElo elo then SILVER
  else BRONZE.
Proof.
  assert (Hp : 0 <= safeElo elo) by (unfold safeElo; lia).
  unfold getRankTier. generalize dependent (safeElo elo). intros e He.
  cbn [List.rev app RANK_TIERS find_index rt_minElo].
  destruct (2200 <=? e); [reflexivity|]. destruct (2000 <=? e); [reflexivity|].
  destruct (1800 <=? e); [reflexivity|]. destruct (1600 <=? e); [reflexivity|].
  destruct (1400 <=? e); [reflexivity|]. destruct (1200 <=? e); [reflexivity|].
  by rewrite (proj2 (Z.leb_le 0 e) He).
Qed.

(** The tiers partition the ratings.  Every rating, fractional, negative or
    not finite, has exactly one tier: the one whose published interval contains
    its integer part clamped at zero. *)
Theorem getRankTier_interval (elo : option Q) (tier : RankTier) :
  getRankTier elo = tier <->
  rt_minElo (getRankTierInfo tier) <= safeElo elo
  /\ match rt_maxElo (getRankTierInfo tier) with Some hi => safeElo elo <= hi | None => True end.
Proof.
  rewrite getRankTier_eq. assert (Hp : 0 <= safeElo elo) by (unfold safeElo; lia).
  generalize dependent (safeElo elo). intros e He.
  destruct tier; cbn [rt_minElo rt_maxElo];
    match goal with |- context [getRankTierInfo ?t] =>
      let v := eval vm_compute in (getRankTierInfo t) in
      change (getRankTierInfo t) with v end; cbn [rt_minElo rt_maxElo];
    repeat (case_match; bool_to_prop); split; intros Hx; try done; lia.
Qed.

