(* ===== verification/EloEngine.v ===== *)
(** * [packages/game-core/src/elo-engine.ts]: multiplayer Elo

    Ratings are computed over the real numbers: the doubles of the source round
    each operation, the theorems are about the exact formula. *)

From Stdlib Require Import Reals Lra QArith.
From S2P Require Import Prelude JsData Effects Shared.
#[local] Open Scope Z_scope.

(** ** Ratings *)

Section Ratings.
#[local] Open Scope R_scope.

(** [currentElo] is [None] when it is not finite. *)
Record EloPlayerInput := mkEloInput {
  ei_userId : jstr;
  ei_currentElo : option R;
  ei_placement : Z;
  ei_score : Z;
}.

Record EloCalculationResult := mkEloResult {
  er_userId : jstr;
  er_currentElo : R;
  er_newElo : R;
  er_delta : R;
  er_placement : Z;
  er_score : Z;
}.

(** [Math.round]: the nearest integer, halves upwards. *)
Definition Math_round (x : R) : R := IZR (up (x + / 2) - 1).

Definition rating (p : EloPlayerInput) : R := default 0 (ei_currentElo p).

Definition expectedAgainst (i j : EloPlayerInput) : R :=
  1 / (1 + Rpower 10 ((rating j - rating i) / 400)).

Definition actualAgainst (i j : EloPlayerInput) : R :=
  if (ei_placement i <? ei_placement j)%Z then 1
  else if (ei_placement i =? ei_placement j)%Z then 1 / 2
  else 0.

(** The inner loop: every [j] but [i], in order. *)
Definition opponents {A} (i : nat) (l : list A) : list A := take i l ++ drop (S i) l.

Fixpoint Rsum (l : list R) : R :=
  match l with [] => 0 | x :: l' => x + Rsum l' end.

Definition rawDelta (kNorm : R) (players : list EloPlayerInput) (i : nat) (p : EloPlayerInput)
    : R :=
  kNorm * (Rsum (actualAgainst p <$> opponents i players)
           - Rsum (expectedAgainst p <$> opponents i players)).

Definition updated (kNorm : R) (players : list EloPlayerInput) (i : nat) (p : EloPlayerInput)
    : EloCalculationResult :=
  let roundedDelta := Math_round (rawDelta kNorm players i p) in
  let newElo := Rmax 0 (rating p + roundedDelta) in
  mkEloResult (ei_userId p) (rating p) newElo (newElo - rating p) (ei_placement p) (ei_score p).

Definition calculateMultiplayerElo (players : list EloPlayerInput) (kFactor : R)
    : outcome exn (list EloCalculationResult) :=
  if negb (forallb (fun p => bool_decide (is_Some (ei_currentElo p))) players)
  then Throw (JsError "Invalid currentElo")
  else
    match players with
    | [] => Ok []
    | [p] => Ok [mkEloResult (ei_userId p) (rating p) (rating p) 0 (ei_placement p) (ei_score p)]
    | _ =>
        let kNorm := kFactor / (INR (length players) - 1) in
        Ok (imap (updated kNorm players) players)
    end.

(** ** Sums *)

Lemma Rsum_app l1 l2 : Rsum (l1 ++ l2) = Rsum l1 + Rsum l2.
Proof. induction l1 as [|x l1 IH]; cbn; [lra|]. rewrite IH. lra. Qed.

Lemma Rsum_map_plus {A} (f g : A -> R) l :
  Rsum ((fun x => f x + g x) <$> l) = Rsum (f <$> l) + Rsum (g <$> l).
Proof. induction l as [|x l IH]; cbn; [lra|]. rewrite IH. lra. Qed.

Lemma Rsum_map_scal {A} (k : R) (f : A -> R) l : Rsum ((fun x => k * f x) <$> l) = k * Rsum (f <$> l).
Proof. induction l as [|x l IH]; cbn; [lra|]. rewrite IH. lra. Qed.

Lemma Rsum_swap {A} (g : A -> A -> R) (l1 l2 : list A) :
  Rsum ((fun x => Rsum (g x <$> l2)) <$> l1) = Rsum ((fun y => Rsum ((fun x => g x y) <$> l1)) <$> l2).
Proof.
  induction l1 as [|x l1 IH]; cbn.
  - induction l2 as [|y l2 IH]; cbn; [done|]. rewrite <- IH. lra.
  - rewrite IH. by rewrite <- Rsum_map_plus.
Qed.

Lemma Rsum_opponents {A} (f : A -> R) l i x :
  l !! i = Some x -> Rsum (f <$> opponents i l) = Rsum (f <$> l) - f x.
Proof.
  intros Hx. unfold opponents. rewrite <- (take_drop_middle l i x Hx) at 3.
  rewrite !fmap_app, !Rsum_app. cbn. lra.
Qed.

Lemma Rsum_bounds l a b :
  Forall (fun x => a <= x <= b) l -> INR (length l) * a <= Rsum l <= INR (length l) * b.
Proof.
  induction 1 as [|x l Hx _ IH]; [cbn; lra|]. cbn [length Rsum]. rewrite S_INR. lra.
Qed.

(** ** The expected and actual outcomes *)

Lemma Rpower_10_pos x : 0 < Rpower 10 x.
Proof. apply exp_pos. Qed.

Lemma expectedAgainst_range i j : 0 < expectedAgainst i j < 1.
Proof.
  unfold expectedAgainst. pose proof (Rpower_10_pos ((rating j - rating i) / 400)) as Hp.
  set (x := 1 + _). assert (Hx : 1 < x) by (unfold x; lra).
  split; [apply Rdiv_lt_0_compat; lra|].
  apply (Rmult_lt_reg_r x); [lra|]. unfold Rdiv. rewrite Rmult_assoc, Rinv_l by lra. lra.
Qed.

(** The two expectations of a pairing add up to one, and so do the outcomes. *)
Lemma expectedAgainst_sum i j : expectedAgainst i j + expectedAgainst j i = 1.
Proof.
  unfold expectedAgainst. set (x := (rating j - rating i) / 400).
  replace ((rating i - rating j) / 400) with (- x) by (unfold x; lra).
  rewrite Rpower_Ropp. pose proof (Rpower_10_pos x). field. lra.
Qed.

Lemma actualAgainst_sum i j : actualAgainst i j + actualAgainst j i = 1.
Proof.
  unfold actualAgainst. rewrite (Z.eqb_sym (ei_placement j)).
  repeat case_match; bool_to_prop; try lia; lra.
Qed.

Lemma actualAgainst_range i j : 0 <= actualAgainst i j <= 1.
Proof. unfold actualAgainst. repeat case_match; lra. Qed.

Definition advantage (i j : EloPlayerInput) : R := actualAgainst i j - expectedAgainst i j.

Lemma advantage_anti i j : advantage i j = - advantage j i.
Proof.
  unfold advantage. pose proof (expectedAgainst_sum i j). pose proof (actualAgainst_sum i j). lra.
Qed.

Lemma rawDelta_eq k players i p :
  players !! i = Some p -> rawDelta k players i p = k * Rsum (advantage p <$> players).
Proof.
  intros Hp. unfold rawDelta. rewrite !(Rsum_opponents _ _ _ _ Hp).
  assert (Hs : Rsum (advantage p <$> players)
    = Rsum (actualAgainst p <$> players) - Rsum (expectedAgainst p <$> players)).
  { clear Hp. induction players as [|q l IH]; cbn; [lra|]. unfold advantage at 1. rewrite IH. lra. }
  rewrite Hs. pose proof (expectedAgainst_sum p p). pose proof (actualAgainst_sum p p). f_equal. lra.
Qed.

Lemma advantage_total players :
  Rsum ((fun p => Rsum (advantage p <$> players)) <$> players) = 0.
Proof.
  pose proof (Rsum_swap advantage players players) as Hs.
  assert (Hn : Rsum ((fun y => Rsum ((fun x => advantage x y) <$> players)) <$> players)
    = - Rsum ((fun p => Rsum (advantage p <$> players)) <$> players)).
  { replace (- Rsum ((fun p => Rsum (advantage p <$> players)) <$> players))
      with ((-1) * Rsum ((fun p => Rsum (advantage p <$> players)) <$> players)) by lra.
    rewrite <- Rsum_map_scal. f_equal.
    apply list_fmap_ext. intros _ y _. rewrite <- Rsum_map_scal. f_equal.
    apply list_fmap_ext. intros _ x _. rewrite (advantage_anti x y). lra. }
  lra.
Qed.

(** ** Rounding *)

Lemma Math_round_spec x : x - / 2 < Math_round x <= x + / 2.
Proof. unfold Math_round. rewrite minus_IZR. pose proof (archimed (x + / 2)). lra. Qed.

Lemma Math_round_bound x k : IZR (- k) <= x <= IZR k -> IZR (- k) <= Math_round x <= IZR k.
Proof.
  intros [Hl Hu]. pose proof (Math_round_spec x) as [H1 H2]. unfold Math_round in *.
  set (z := (up (x + / 2) - 1)%Z) in *. split; apply IZR_le.
  - assert (IZR (- k) < IZR (z + 1)) by (rewrite plus_IZR; lra).
    apply lt_IZR in H. lia.
  - assert (IZR z < IZR (k + 1)) by (rewrite plus_IZR; lra).
    apply lt_IZR in H. lia.
Qed.

(** ** Properties *)

Definition all_finite (players : list EloPlayerInput) : Prop :=
  Forall (fun p => is_Some (ei_currentElo p)) players.

Lemma calculate_run players k :
  all_finite players -> (2 <= length players)%nat ->
  calculateMultiplayerElo players k
  = Ok (imap (updated (k / (INR (length players) - 1)) players) players).
Proof.
  intros Hf Hlen. unfold calculateMultiplayerElo.
  assert (Hb : forallb (fun p => bool_decide (is_Some (ei_currentElo p))) players = true).
  { apply forallb_forall. intros p Hp. apply bool_decide_eq_true.
    unfold all_finite in Hf. rewrite Forall_forall in Hf. by apply Hf, list_elem_of_In. }
  rewrite Hb. destruct players as [|p [|q l]]; cbn in Hlen; [lia|lia|done].
Qed.

(** Elo is conserved before rounding.  With two players or more and finite
    ratings, the raw rating changes of a match sum to zero. *)
Theorem raw_deltas_sum_to_zero (players : list EloPlayerInput) (k : R) :
  Rsum (imap (rawDelta k players) players) = 0.
Proof.
  assert (H : imap (rawDelta k players) players
              = (fun p => k * Rsum (advantage p <$> players)) <$> players).
  { apply list_eq. intros i. rewrite list_lookup_imap, list_lookup_fmap.
    destruct (players !! i) as [p|] eqn:E; cbn; [|done]. by rewrite (rawDelta_eq _ _ _ _ E). }
  rewrite H, Rsum_map_scal, advantage_total. lra.
Qed.

Lemma rawDelta_bound k players i p :
  0 <= k -> (2 <= length players)%nat -> players !! i = Some p ->
  - k <= rawDelta (k / (INR (length players) - 1)) players i p <= k.
Proof.
  intros Hk Hlen Hp. unfold rawDelta. assert (Hn : 1 <= INR (length players) - 1).
  { apply le_INR in Hlen. cbn [INR] in Hlen. lra. }
  assert (Hopp : INR (length (opponents i players)) = INR (length players) - 1).
  { unfold opponents. rewrite <- (take_drop_middle players i p Hp) at 3.
    rewrite !length_app. cbn [length]. rewrite !plus_INR, S_INR. lra. }
  pose proof (Rsum_bounds (actualAgainst p <$> opponents i players) 0 1) as Ha.
  pose proof (Rsum_bounds (expectedAgainst p <$> opponents i players) 0 1) as He.
  rewrite !length_fmap, Hopp in *. destruct Ha as [Ha1 Ha2].
  { apply Forall_fmap, Forall_true. intros q. apply actualAgainst_range. }
  destruct He as [He1 He2].
  { apply Forall_fmap, Forall_true. intros q. pose proof (expectedAgainst_range p q). cbn. lra. }
  set (A := Rsum (actualAgainst p <$> _)) in *. set (E := Rsum (expectedAgainst p <$> _)) in *.
  set (n := INR (length players) - 1) in *.
  assert (Hq : k / n * n = k) by (field; lra).
  assert (0 <= k / n) by (apply Rmult_le_pos; [done|]; apply Rlt_le, Rinv_0_lt_compat; lra).
  nra.
Qed.

Lemma rawDelta_winner k players i p :
  0 <= k -> players !! i = Some p ->
  Forall (fun q => (ei_placement p < ei_placement q)%Z) (opponents i players) ->
  0 <= rawDelta k players i p.
Proof.
  intros Hk Hp Hw. unfold rawDelta. apply Rmult_le_pos; [done|].
  clear Hp. induction Hw as [|q l Hq _ IH]; cbn; [lra|].
  pose proof (expectedAgainst_range p q). unfold actualAgainst at 1.
  rewrite (proj2 (Z.ltb_lt _ _) Hq). lra.
Qed.

Lemma Math_round_nonneg x : 0 <= x -> 0 <= Math_round x.
Proof.
  intros Hx. pose proof (Math_round_spec x) as [H1 _]. unfold Math_round in *.
  set (z := (up (x + / 2) - 1)%Z) in *. apply IZR_le.
  assert (IZR (-1) < IZR z) by lra. apply lt_IZR in H. lia.
Qed.

(** With an integer K factor nobody gains or loses more than K points,
    ratings never become negative, the reported change is the difference of
    the two ratings, and a player placed ahead of all the others never loses
    points. *)
Theorem elo_update_bounds (players : list EloPlayerInput) (k : Z) (results : list EloCalculationResult)
    (i : nat) (p : EloPlayerInput) (r : EloCalculationResult) :
  (0 <= k)%Z -> all_finite players -> (2 <= length players)%nat ->
  calculateMultiplayerElo players (IZR k) = Ok results ->
  players !! i = Some p -> results !! i = Some r -> 0 <= rating p ->
  er_userId r = ei_userId p /\ 0 <= er_newElo r
  /\ er_delta r = er_newElo r - er_currentElo r /\ er_currentElo r = rating p
  /\ IZR (- k) <= er_delta r <= IZR k
  /\ (Forall (fun q => (ei_placement p < ei_placement q)%Z) (opponents i players) ->
      er_currentElo r <= er_newElo r).
Proof.
  intros Hk Hf Hlen Hrun Hp Hr Hpos. rewrite calculate_run in Hrun by done.
  injection Hrun as <-. rewrite list_lookup_imap, Hp in Hr. injection Hr as <-.
  unfold updated. cbn. apply IZR_le in Hk as Hk'.
  pose proof (rawDelta_bound (IZR k) players i p Hk' Hlen Hp) as Hb.
  rewrite <- opp_IZR in Hb. apply Math_round_bound in Hb.
  assert (Hw : Forall (fun q => (ei_placement p < ei_placement q)%Z) (opponents i players) ->
    0 <= Math_round (rawDelta (IZR k / (INR (length players) - 1)) players i p)).
  { intros Hq. apply Math_round_nonneg, rawDelta_winner; [|done|done].
    apply le_INR in Hlen. cbn [INR] in Hlen.
    apply Rmult_le_pos; [done|]. apply Rlt_le, Rinv_0_lt_compat. lra. }
  set (d := Math_round _) in *. pose proof (Rmax_l 0 (rating p + d)). rewrite opp_IZR in *.
  split_and!; try done; try lra; try (intros Hq; specialize (Hw Hq)); unfold Rmax in *; destruct (Rle_dec _ _); lra.
Qed.
End Ratings.

(** ** Placements *)

Record PlacementPlayer := mkPlacement {
  pp_userId : jstr;
  pp_score : Z;
  pp_avgResponseMs : option Q;
  pp_survivedRounds : option Z;
  pp_eliminatedInRound : option Z;
  pp_isWinner : option bool;
}.

Section Placements.
(** [String.prototype.localeCompare] of the host's locale: a consistent
    comparison (ECMA-402). *)
Context (localeCompare : jstr -> jstr -> Z) `{!Comparator localeCompare}.

(** [avgResponseMs ?? Infinity]; the difference is used for its sign. *)
Definition speed_cmp (a b : option Q) : Z :=
  match a, b with
  | None, None => 0
  | None, Some _ => 1
  | Some _, None => -1
  | Some x, Some y => match (x ?= y)%Q with Eq => 0 | Lt => -1 | Gt => 1 end
  end.

Definition rounds_of (p : PlacementPlayer) : Z :=
  default (default 0 (pp_eliminatedInRound p)) (pp_survivedRounds p).

(** [winnerId] counts when it is a non-empty id of the list. *)
Definition effectiveWinnerId (players : list PlacementPlayer) (winnerId : option jstr)
    : option jstr :=
  match winnerId with
  | Some w => if negb (bool_decide (w = [])) && existsb (fun p => bool_decide (pp_userId p = w)) players
              then Some w else None
  | None => None
  end.

Definition is_winner (effective : option jstr) (p : PlacementPlayer) : bool :=
  match effective with
  | Some w => bool_decide (pp_userId p = w)
  | None => default false (pp_isWinner p)
  end.

Definition winner_rank (effective : option jstr) (p : PlacementPlayer) : Z :=
  if is_winner effective p then 0 else 1.

Definition placement_cmp (effective : option jstr) : PlacementPlayer -> PlacementPlayer -> Z :=
  cmp_then (fun a b => winner_rank effective a - winner_rank effective b)
  (cmp_then (fun a b => rounds_of b - rounds_of a)
  (cmp_then (fun a b => pp_score b - pp_score a)
  (cmp_then (fun a b => speed_cmp (pp_avgResponseMs a) (pp_avgResponseMs b))
            (fun a b => localeCompare (pp_userId a) (pp_userId b))))).

Definition assignPlacements (players : list PlacementPlayer) (winnerId : option jstr)
    : list (PlacementPlayer * Z) :=
  let sorted := js_sort (placement_cmp (effectiveWinnerId players winnerId)) players in
  imap (fun index player => (player, Z.of_nat index + 1)) sorted.

#[local] Instance speed_cmp_Comparator : Comparator speed_cmp.
Proof.
  split.
  - intros [x|] [y|]; try done. cbn. rewrite <- (Qcompare_antisym x y). by destruct (x ?= y)%Q.
  - intros [x|] [y|] [z|]; cbn; try lia.
    intros Hxy Hyz. assert (x <= y)%Q as H1.
    { apply Qle_alt. intros E. rewrite E in Hxy. lia. }
    assert (y <= z)%Q as H2.
    { apply Qle_alt. intros E. rewrite E in Hyz. lia. }
    pose proof (Qle_trans _ _ _ H1 H2) as H3. rewrite Qle_alt in H3.
    destruct (x ?= z)%Q; [lia|lia|congruence].
Qed.

#[local] Instance placement_cmp_Comparator effective : Comparator (placement_cmp effective).
Proof.
  unfold placement_cmp. repeat apply cmp_then_Comparator.
  - apply (key_Comparator (winner_rank effective)).
  - apply (key_desc_Comparator rounds_of).
  - apply (key_desc_Comparator pp_score).
  - apply (on_Comparator pp_avgResponseMs speed_cmp), _.
  - apply (on_Comparator pp_userId localeCompare), _.
Qed.

Lemma placement_cmp_winner effective a b :
  placement_cmp effective a b <= 0 -> is_winner effective b = true -> is_winner effective a = true.
Proof.
  unfold placement_cmp, cmp_then at 1, winner_rank. intros H Hb. rewrite Hb in H.
  by destruct (is_winner effective a).
Qed.

Lemma placement_cmp_rounds effective a b :
  placement_cmp effective a b <= 0 -> is_winner effective a = false ->
  is_winner effective b = false /\ rounds_of b <= rounds_of a.
Proof.
  unfold placement_cmp, cmp_then at 1 2, winner_rank. intros H Ha. rewrite Ha in H.
  destruct (is_winner effective b); [exfalso; by apply H|]. split; [done|].
  change (1 - 1 =? 0) with true in H. cbn iota in H.
  destruct (rounds_of b - rounds_of a =? 0) eqn:E; bool_to_prop; lia.
Qed.

Lemma effectiveWinnerId_listed players winnerId w :
  effectiveWinnerId players winnerId = Some w -> exists p, p ∈ players /\ pp_userId p = w.
Proof.
  unfold effectiveWinnerId. destruct winnerId as [v|]; [|done].
  destruct (_ && existsb _ players) eqn:E; [|done]. bool_to_prop. intros [= <-].
  match goal with H : existsb _ _ = true |- _ => apply existsb_exists in H as (p & Hp & Hv) end.
  exists p. split; [by apply list_elem_of_In|]. by apply bool_decide_eq_true_1 in Hv.
Qed.

Lemma placed_fst players winnerId :
  (assignPlacements players winnerId).*1
  = js_sort (placement_cmp (effectiveWinnerId players winnerId)) players.
Proof.
  unfold assignPlacements. set (cmp := placement_cmp _).
  apply list_eq. intros i. rewrite list_lookup_fmap, list_lookup_imap.
  by destruct (js_sort cmp players !! i).
Qed.

Lemma placed_lookup players winnerId i a :
  assignPlacements players winnerId !! i = Some a ->
  js_sort (placement_cmp (effectiveWinnerId players winnerId)) players !! i = Some a.1
  /\ a.2 = Z.of_nat i + 1.
Proof.
  unfold assignPlacements. rewrite list_lookup_imap.
  destruct (js_sort _ players !! i); [|done]. by intros [= <-].
Qed.

(** A strictly better placement comes with a comparison in its favour. *)
Lemma placed_order players winnerId a b :
  a ∈ assignPlacements players winnerId -> b ∈ assignPlacements players winnerId -> a.2 < b.2 ->
  placement_cmp (effectiveWinnerId players winnerId) a.1 b.1 <= 0.
Proof.
  intros [i Hi]%list_elem_of_lookup [j Hj]%list_elem_of_lookup Hlt.
  apply placed_lookup in Hi as [Hi Hi2], Hj as [Hj Hj2].
  pose proof (js_sort_sorted (placement_cmp (effectiveWinnerId players winnerId)) players) as Hs.
  eapply (StronglySorted_at (cmp_le _) _ i j); [exact Hs|lia|done|done].
Qed.

(** placements are 1, 2, ..., n over exactly the given players, in the
    order winner first, then more rounds, higher score, faster answers, then
    the id; a declared winner who took part is placed first. *)
Theorem assignPlacements_spec (players : list PlacementPlayer) (winnerId : option jstr) :
  let placed := assignPlacements players winnerId in
  let effective := effectiveWinnerId players winnerId in
  placed.*1 ≡ₚ players
  /\ placed.*2 = seqZ 1 (Z.of_nat (length players))
  /\ (forall i j a b, (i < j)%nat -> placed !! i = Some a -> placed !! j = Some b ->
       placement_cmp effective a.1 b.1 <= 0)
  /\ (forall w, effective = Some w ->
       exists p, head placed = Some (p, 1) /\ pp_userId p = w).
Proof.
  cbn zeta. split_and!.
  - rewrite placed_fst. apply js_sort_perm.
  - unfold assignPlacements. set (cmp := placement_cmp _).
    rewrite <- (js_sort_length cmp players). generalize (js_sort cmp players). intros l.
    apply list_eq. intros i. rewrite list_lookup_fmap, list_lookup_imap.
    destruct (l !! i) as [x|] eqn:E; cbn.
    + symmetry. apply lookup_seqZ. apply lookup_lt_Some in E. lia.
    + symmetry. apply lookup_seqZ_ge. apply lookup_ge_None in E. lia.
  - intros i j a b Hij Ha Hb.
    pose proof (proj2 (placed_lookup _ _ _ _ Ha)). pose proof (proj2 (placed_lookup _ _ _ _ Hb)).
    apply placed_order; [by eapply list_elem_of_lookup_2..|lia].
  - intros w Hw. destruct (effectiveWinnerId_listed _ _ _ Hw) as (p & Hp & Hid).
    unfold assignPlacements. set (cmp := placement_cmp _).
    destruct (js_sort cmp players) as [|q l] eqn:E.
    { exfalso. apply (js_sort_elem cmp) in Hp. rewrite E in Hp. by apply elem_of_nil in Hp. }
    exists q. split; [done|]. pose proof (js_sort_head_le cmp players q l p E Hp) as Hle.
    unfold cmp in Hle. apply placement_cmp_winner in Hle; rewrite Hw in Hle || idtac.
    + by apply bool_decide_eq_true_1 in Hle.
    + rewrite Hw. cbn. by apply bool_decide_eq_true.
Qed.
End Placements.

Definition elo_pair : list EloPlayerInput :=
  [mkEloInput (js "u1") (Some (IZR 1200)) 1 150; mkEloInput (js "u2") (Some (IZR 1350)) 2 100].

Lemma elo_update_bounds_witness :
  exists results r, calculateMultiplayerElo elo_pair (IZR 32) = Ok results
    /\ results !! 0%nat = Some r /\ (0 <= er_newElo r)%R /\ (er_currentElo r <= er_newElo r)%R.
Proof.
  assert (Hf : all_finite elo_pair) by (repeat constructor; eexists; reflexivity).
  assert (Hl : (2 <= length elo_pair)%nat) by (cbn; lia).
  pose proof (calculate_run elo_pair (IZR 32) Hf Hl) as Hrun.
  eexists _, _. split; [exact Hrun|]. split; [reflexivity|].
  assert (Hpos : (0 <= rating (mkEloInput (js "u1") (Some (IZR 1200)) 1 150))%R) by (cbn; lra).
  destruct (elo_update_bounds elo_pair 32 _ 0 _ _ ltac:(lia) Hf Hl Hrun eq_refl eq_refl Hpos)
    as (_ & H0 & _ & _ & _ & Hw).
  split; [exact H0|]. apply Hw. repeat constructor.
Defined.

Lemma assignPlacements_spec_witness :
  let p := mkPlacement (js "u1") 300 None (Some 3) None None in
  let q := mkPlacement (js "u2") 200 None (Some 3) None None in
  (assignPlacements str_cmp [p; q] (Some (js "u2"))).*2 = [1; 2]
  /\ exists x, head (assignPlacements str_cmp [p; q] (Some (js "u2"))) = Some (x, 1)
       /\ pp_userId x = js "u2".
Proof.
  intros p q. split; [vm_compute; reflexivity|].
  destruct (assignPlacements_spec str_cmp [p; q] (Some (js "u2"))) as (_ & _ & _ & H).
  apply H. vm_compute. reflexivity.
Defined.
