(* ===== verification/Decimal.v ===== *)
(** * Decimal numerals

    The strings [String(n)] produces, their value, and the comparison of
    numerals of the same length. *)

From Stdlib Require Import Ascii.
From stdpp Require Import pretty.
From S2P Require Import Prelude JsData.
#[local] Open Scope Z_scope.

Definition is_digit (c : Z) : bool := (48 <=? c) && (c <=? 57).
Definition all_digits (s : jstr) : bool := forallb is_digit s.
Definition dec_value (acc : Z) (s : jstr) : Z := foldl (fun a c => 10 * a + (c - 48)) acc s.

(** The inverse of [js_of_Z]. *)
Definition integer_value (s : jstr) : option Z :=
  let n := if bool_decide (head s = Some 45) then - dec_value 0 (tail s) else dec_value 0 s in
  if bool_decide (js_of_Z n = s) then Some n else None.

(** ** [js_of_Z] *)

Lemma dec_value_cons acc c s : dec_value acc (c :: s) = dec_value (10 * acc + (c - 48)) s.
Proof. done. Qed.

Lemma dec_value_app acc s t : dec_value acc (s ++ t) = dec_value (dec_value acc s) t.
Proof. apply foldl_app. Qed.

Definition digit_char (n : N) : Z := Z.of_N (N_of_ascii (pretty_N_char n)).

Lemma pretty_char_digit (n : N) : (n < 10)%N -> digit_char n = 48 + Z.of_N n.
Proof.
  intros Hn. assert (n ∈ [0;1;2;3;4;5;6;7;8;9]%N) as Hin.
  { rewrite !elem_of_cons. lia. }
  repeat (apply elem_of_cons in Hin as [->|Hin]; [done|]). by apply elem_of_nil in Hin.
Qed.

(** A numeral of [x], most significant digit first, in front of [s]. *)
Lemma pretty_go_value (x : N) (s : string) :
  (0 < x)%N ->
  exists c t, js (pretty_N_go x s) = c :: t ++ js s
    /\ 49 <= c <= 57 /\ all_digits t = true /\ dec_value 0 (c :: t) = Z.of_N x.
Proof.
  revert s. induction (N.lt_wf_0 x) as [x _ IH]. intros s Hx.
  rewrite pretty_N_go_step by done.
  pose proof (N.div_mod x 10 ltac:(done)) as Hdm.
  pose proof (N.mod_lt x 10 ltac:(done)) as Hm.
  pose proof (pretty_char_digit (x mod 10) Hm) as Hd.
  destruct (decide (x / 10 = 0)%N) as [E|E].
  - rewrite E, pretty_N_go_0. cbn [js]. fold (digit_char (x mod 10)).
    exists (digit_char (x mod 10)), []. rewrite Hd.
    split_and!; [done|lia|lia|done|]. cbn. lia.
  - assert (x / 10 < x)%N as Hlt by (apply N.div_lt; lia).
    assert (0 < x / 10)%N as Hpos by (apply N.neq_0_lt_0; exact E).
    destruct (IH _ Hlt (String (pretty_N_char (x mod 10)) s) Hpos) as (c & t & -> & Hc & Ht & Hv).
    exists c, (t ++ [digit_char (x mod 10)]). split_and!; [|lia|lia| |].
    + cbn [js]. fold (digit_char (x mod 10)). by rewrite <- app_assoc.
    + unfold all_digits in *. rewrite forallb_app, Ht. cbn. unfold is_digit. rewrite Hd.
      apply andb_true_iff. split; [|done]. apply andb_true_iff.
      revert Hm. generalize (x mod 10)%N. clear. intros m Hm. split; apply Z.leb_le; lia.
    + change (c :: t ++ [digit_char (x mod 10)]) with ((c :: t) ++ [digit_char (x mod 10)]).
      rewrite dec_value_app, Hv. cbn. rewrite Hd. lia.
Qed.

(** A positive numeral: a first digit that is not zero, then digits. *)
Lemma js_of_Z_pos n :
  0 < n -> exists c t, js_of_Z n = c :: t
    /\ 49 <= c <= 57 /\ all_digits t = true /\ dec_value 0 (c :: t) = n.
Proof.
  intros Hn. destruct n as [|p|p]; try lia. unfold js_of_Z.
  change (pretty (Z.pos p)) with (pretty_N_go (N.pos p) "").
  destruct (pretty_go_value (N.pos p) "" ltac:(lia)) as (c & t & E & H1 & H2 & H3).
  exists c, t. by rewrite E, app_nil_r.
Qed.

Lemma js_of_Z_neg n : n < 0 -> js_of_Z n = 45 :: js_of_Z (- n).
Proof. by destruct n. Qed.

Lemma dec_value_js_of_Z n : 0 <= n -> dec_value 0 (js_of_Z n) = n.
Proof.
  intros Hn. destruct (decide (n = 0)) as [->|]; [done|].
  destruct (js_of_Z_pos n ltac:(lia)) as (c & t & -> & _ & _ & E). done.
Qed.

Lemma integer_value_js n : integer_value (js_of_Z n) = Some n.
Proof.
  unfold integer_value. destruct (Z.lt_trichotomy n 0) as [Hn|[->|Hn]].
  - pose proof (js_of_Z_neg n Hn) as E. rewrite E. cbn [head tail].
    rewrite (bool_decide_eq_true_2 (Some 45 = Some 45)) by done.
    rewrite dec_value_js_of_Z, Z.opp_involutive by lia. by rewrite bool_decide_eq_true_2.
  - done.
  - destruct (js_of_Z_pos n Hn) as (c & t & E & Hc & _ & Hv). rewrite E, Hv.
    cbn [head tail]. rewrite (bool_decide_eq_false_2 (Some c = Some 45)) by (intros [= ->]; lia).
    by rewrite bool_decide_eq_true_2.
Qed.

Lemma integer_value_Some s n : integer_value s = Some n -> s = js_of_Z n.
Proof. unfold integer_value. case_bool_decide; [intros [= <-]|]; done. Qed.

(** ** Values and comparison *)

Lemma dec_value_bounds s acc :
  all_digits s = true -> 0 <= acc ->
  acc * 10 ^ Z.of_nat (length s) <= dec_value acc s < (acc + 1) * 10 ^ Z.of_nat (length s).
Proof.
  revert acc. induction s as [|c s IH]; intros acc; cbn [length].
  - cbn. lia.
  - unfold all_digits. cbn [forallb]. intros [Hc Hs]%andb_true_iff Ha.
    unfold is_digit in Hc. bool_to_prop. rewrite dec_value_cons.
    specialize (IH (10 * acc + (c - 48)) Hs ltac:(lia)).
    rewrite Nat2Z.inj_succ, Z.pow_succ_r by lia. nia.
Qed.

(** Numerals of the same length compare as their values do. *)
Lemma str_cmp_digits s t acc :
  length s = length t -> all_digits s = true -> all_digits t = true -> 0 <= acc ->
  str_cmp s t = Z.sgn (dec_value acc s - dec_value acc t).
Proof.
  revert t acc. induction s as [|c s IH]; intros [|d t] acc; cbn [length]; try done.
  - intros. cbn. by rewrite Z.sub_diag.
  - intros [= Hl]. unfold all_digits. cbn [forallb].
    intros [Hc Hs]%andb_true_iff [Hd Ht]%andb_true_iff Ha.
    pose proof Hc as Hc'. pose proof Hd as Hd'. unfold is_digit in Hc', Hd'. bool_to_prop.
    cbn [str_cmp]. rewrite !dec_value_cons.
    pose proof (dec_value_bounds s (10 * acc + (c - 48)) Hs ltac:(lia)) as B1.
    pose proof (dec_value_bounds t (10 * acc + (d - 48)) Ht ltac:(lia)) as B2.
    rewrite Hl in B1. set (P := 10 ^ Z.of_nat (length t)) in *.
    assert (0 < P) by (apply Z.pow_pos_nonneg; lia).
    destruct (c <? d) eqn:E1; [|destruct (d <? c) eqn:E2]; bool_to_prop.
    + rewrite Z.sgn_neg; [done|]. nia.
    + rewrite Z.sgn_pos; [done|]. nia.
    + replace d with c by lia. apply IH; [done..|lia].
Qed.
