(* ===== verification/Redis.v ===== *)
(** * The Redis store

    The server is not part of the repository: [RedisOps] and [RedisLaws] state
    the commands the code relies on and their documented behaviour.  A store
    holds string keys, some of them with a time to live, and sets; [r_expire]
    is the event of a time to live running out, which no command causes.
    [gmap_store] is a concrete store that satisfies the laws. *)

From stdpp Require Import gmap.
From S2P Require Import Prelude JsData Effects Shared Decimal.
#[local] Open Scope Z_scope.

(** ** Interface *)

(** A string value: a text, or the JSON text of a [B], which stands for it. *)
Inductive rvalue (B : Type) :=
| Text (s : jstr)
| Blob (b : B).
Arguments Text {B} _.
Arguments Blob {B} _.

Class RedisOps (B S : Type) := {
  r_get : S -> jstr -> option (rvalue B);
  (** [SET k v EX ttl], or [SET k v] without a time to live. *)
  r_set : jstr -> rvalue B -> option Z -> S -> S;
  (** [PEXPIRE k ms] on an existing key. *)
  r_pexpire : jstr -> Z -> S -> S;
  r_del : jstr -> S -> S;
  (** The new value and store; [None] is an error reply. *)
  r_incr : jstr -> S -> option (Z * S);
  r_sadd : jstr -> jstr -> S -> S;
  r_srem : jstr -> jstr -> S -> S;
  r_sismember : S -> jstr -> jstr -> bool;
  r_smembers : S -> jstr -> list jstr;
  (** The key has a time to live. *)
  r_volatile : S -> jstr -> bool;
  r_expire : jstr -> S -> S;
  (** [tostring] of the server's Lua on an integer. *)
  lua_tostring : Z -> jstr;
}.

Class RedisLaws (B S : Type) `{!RedisOps B S} := {
  get_set k v ttl s k' :
    r_get (r_set k v ttl s) k' = if decide (k = k') then Some v else r_get s k';
  get_pexpire k ms s k' : r_get (r_pexpire k ms s) k' = r_get s k';
  get_del k s k' : r_get (r_del k s) k' = if decide (k = k') then None else r_get s k';
  get_expire k s k' : r_get (r_expire k s) k' = if decide (k = k') then None else r_get s k';
  get_sadd k m s k' : r_get (r_sadd k m s) k' = r_get s k';
  get_srem k m s k' : r_get (r_srem k m s) k' = r_get s k';
  incr_none k s : r_get s k = None -> exists s', r_incr k s = Some (1, s');
  incr_some k n s :
    r_get s k = Some (Text (js_of_Z n)) -> 0 <= n < 2 ^ 62 -> exists s', r_incr k s = Some (n + 1, s');
  get_incr k s n s' k' :
    r_incr k s = Some (n, s') ->
    r_get s' k' = if decide (k = k') then Some (Text (js_of_Z n)) else r_get s k';
  incr_value k s n s' m :
    r_incr k s = Some (n, s') -> r_get s k = Some (Text (js_of_Z m)) -> n = m + 1;
  incr_first k s n s' : r_incr k s = Some (n, s') -> r_get s k = None -> n = 1;
  volatile_absent k s : r_get s k = None -> r_volatile s k = false;
  volatile_set k v ttl s k' :
    r_volatile (r_set k v ttl s) k'
    = if decide (k = k') then bool_decide (is_Some ttl) else r_volatile s k';
  volatile_pexpire k ms s k' : k <> k' -> r_volatile (r_pexpire k ms s) k' = r_volatile s k';
  volatile_del k s k' : k <> k' -> r_volatile (r_del k s) k' = r_volatile s k';
  volatile_expire k s k' : k <> k' -> r_volatile (r_expire k s) k' = r_volatile s k';
  volatile_sadd k m s k' : r_volatile (r_sadd k m s) k' = r_volatile s k';
  volatile_srem k m s k' : r_volatile (r_srem k m s) k' = r_volatile s k';
  volatile_incr k s n s' k' : r_incr k s = Some (n, s') -> r_volatile s' k' = r_volatile s k';
  members_spec s k m : m ∈ r_smembers s k <-> r_sismember s k m = true;
  sismember_sadd k m s k' m' :
    r_sismember (r_sadd k m s) k' m'
    = bool_decide (k = k' /\ m = m') || r_sismember s k' m';
  sismember_srem k m s k' m' :
    r_sismember (r_srem k m s) k' m'
    = negb (bool_decide (k = k' /\ m = m')) && r_sismember s k' m';
  sismember_set k v ttl s k' m : r_sismember (r_set k v ttl s) k' m = r_sismember s k' m;
  sismember_pexpire k ms s k' m : r_sismember (r_pexpire k ms s) k' m = r_sismember s k' m;
  sismember_del k s k' m : k <> k' -> r_sismember (r_del k s) k' m = r_sismember s k' m;
  sismember_expire k s k' m : k <> k' -> r_sismember (r_expire k s) k' m = r_sismember s k' m;
  sismember_incr k s n s' k' m : r_incr k s = Some (n, s') -> r_sismember s' k' m = r_sismember s k' m;
  (** ["%.14g"]: plain digits up to 14 of them, an exponent beyond. *)
  lua_tostring_small n : 0 < n < 10 ^ 14 -> lua_tostring n = js_of_Z n;
  lua_tostring_plain n m : 0 < n -> lua_tostring n = js_of_Z m -> m = n;
}.

(** Reads after writes. *)
Ltac redis_simpl :=
  repeat (rewrite ?get_set, ?get_pexpire, ?get_del, ?get_expire, ?get_sadd, ?get_srem,
    ?volatile_set, ?volatile_sadd, ?volatile_srem, ?sismember_sadd, ?sismember_srem,
    ?sismember_set, ?sismember_pexpire).

(** A reply of [EVAL]. *)
Inductive reply :=
| RNil
| RInt (n : Z)
| RBulk (s : jstr)
| RArr (l : list jstr).

(** A script runs to a reply, or stops at an error reply of one of its commands
    with the writes made so far. *)
Abbreviation Script S := (S -> option reply * S).

(** The value is the text [expected]. *)
Definition is_text {B} (v : option (rvalue B)) (expected : jstr) : bool :=
  match v with Some (Text t) => bool_decide (t = expected) | _ => false end.

Lemma is_text_spec {B} (v : option (rvalue B)) expected :
  is_text v expected = true <-> v = Some (Text expected).
Proof.
  destruct v as [[t|b]|]; cbn; [rewrite bool_decide_eq_true|..]; split; congruence.
Qed.

(** ** A concrete store *)

Section Concrete.
Context {B : Type}.

Record store := mkStore {
  st_strings : gmap jstr (rvalue B * bool);
  st_sets : gmap jstr (gset jstr);
}.

#[export] Instance store_ops : RedisOps B store := {
  r_get s k := fst <$> st_strings s !! k;
  r_set k v ttl s := mkStore (<[k := (v, bool_decide (is_Some ttl))]> (st_strings s)) (st_sets s);
  r_pexpire k ms s := mkStore (alter (fun e => (e.1, true)) k (st_strings s)) (st_sets s);
  r_del k s := mkStore (delete k (st_strings s)) (delete k (st_sets s));
  r_incr k s :=
    match st_strings s !! k with
    | None => Some (1, mkStore (<[k := (Text (js_of_Z 1), false)]> (st_strings s)) (st_sets s))
    | Some (v, ttl) =>
        n ← match v with Text t => integer_value t | Blob _ => None end;
        if n <? 2 ^ 63 - 1
        then Some (n + 1, mkStore (<[k := (Text (js_of_Z (n + 1)), ttl)]> (st_strings s)) (st_sets s))
        else None
    end;
  r_sadd k m s := mkStore (st_strings s) (<[k := {[m]} ∪ default ∅ (st_sets s !! k)]> (st_sets s));
  r_srem k m s := mkStore (st_strings s) (<[k := default ∅ (st_sets s !! k) ∖ {[m]}]> (st_sets s));
  r_sismember s k m := bool_decide (m ∈ default ∅ (st_sets s !! k));
  r_smembers s k := elements (default ∅ (st_sets s !! k));
  r_volatile s k := default false (snd <$> st_strings s !! k);
  r_expire k s := mkStore (delete k (st_strings s)) (delete k (st_sets s));
  lua_tostring n := if n <? 10 ^ 14 then js_of_Z n else js "1e+14";
}.

#[export] Instance store_laws : RedisLaws B store.
Proof.
  split; cbn.
  - intros. case_decide; subst; by simplify_map_eq.
  - intros k ms [m z] k'. cbn. destruct (decide (k = k')) as [->|]; simplify_map_eq; [|done].
    by destruct (m !! k') as [[]|].
  - intros. case_decide; subst; by simplify_map_eq.
  - intros. case_decide; subst; by simplify_map_eq.
  - done.
  - done.
  - intros k [m z]. cbn. intros E. destruct (m !! k); [done|]. eauto.
  - intros k n [m z]. cbn. intros E Hn. destruct (m !! k) as [[v t]|]; [|done].
    injection E as ->. rewrite integer_value_js. cbn.
    destruct (n <? _) eqn:E; [eauto|]. bool_to_prop. lia.
  - intros k [m z] n s' k'. cbn. destruct (m !! k) as [[v t]|] eqn:E; cbn.
    + destruct v as [v|]; [|done]. destruct (integer_value v) as [x|]; [|done]. cbn. case_match; [|done].
      intros [= <- <-]. cbn. case_decide; subst; by simplify_map_eq.
    + intros [= <- <-]. cbn. case_decide; subst; by simplify_map_eq.
  - intros k [m z] n s' x. cbn. destruct (m !! k) as [[v t]|]; [|done]. cbn.
    intros Hi [= ->]. rewrite integer_value_js in Hi. cbn in Hi. by case_match; simplify_eq.
  - intros k [m z] n s'. cbn. destruct (m !! k); naive_solver.
  - intros k [m z]. cbn. by destruct (m !! k).
  - intros. case_decide; subst; by simplify_map_eq.
  - intros. by simplify_map_eq.
  - intros. by simplify_map_eq.
  - intros. by simplify_map_eq.
  - done.
  - done.
  - intros k [m z] n s' k'. cbn. destruct (m !! k) as [[v t]|] eqn:E; cbn.
    + destruct v as [v|]; [|done]. destruct (integer_value v) as [x|]; [|done]. cbn. case_match; [|done].
      intros [= <- <-]. cbn. destruct (decide (k = k')) as [->|]; by simplify_map_eq.
    + intros [= <- <-]. cbn. destruct (decide (k = k')) as [->|]; by simplify_map_eq.
  - intros. rewrite elem_of_elements. by rewrite bool_decide_eq_true.
  - intros k m [x z] k' m'. cbn. destruct (decide (k = k')) as [->|]; simplify_map_eq.
    + rewrite <- bool_decide_or. apply bool_decide_ext. set_solver.
    + rewrite (bool_decide_eq_false_2 (k = k' /\ _)) by naive_solver. done.
  - intros k m [x z] k' m'. cbn. destruct (decide (k = k')) as [->|]; simplify_map_eq.
    + rewrite <- bool_decide_not, <- bool_decide_and. apply bool_decide_ext. set_solver.
    + rewrite (bool_decide_eq_false_2 (k = k' /\ _)) by naive_solver. done.
  - done.
  - done.
  - intros. by simplify_map_eq.
  - intros. by simplify_map_eq.
  - intros k [m z] n s' k' m'. cbn. destruct (m !! k) as [[v t]|]; cbn.
    + destruct v as [v|]; [|done]. destruct (integer_value v); [|done]. cbn. case_match; naive_solver.
    + naive_solver.
  - intros n Hn. destruct (n <? _) eqn:E; [done|]. bool_to_prop. lia.
  - intros n m Hn. destruct (n <? _) eqn:E; [intros H%js_of_Z_inj; done|].
    intros H. pose proof (integer_value_js m) as Hi. rewrite <- H in Hi. vm_compute in Hi. discriminate.
Qed.
End Concrete.
Arguments store B : clear implicits.
