(* ===== verification/Lease.v ===== *)
(** * [modules/redis/redis.lease.ts] and [match-ownership.store.ts]

    The Lua scripts of the ownership protocol, run on a store of the
    [RedisOps] interface, and the functions that call them and read their
    replies.  A function returns the outcome of its promise and the store. *)

From S2P Require Import Prelude JsData Doubles Effects Shared Decimal Redis.
#[local] Open Scope Z_scope.

(** ** Keys *)

Definition ACTIVE_SET : jstr := js "match:active".
Definition fenceKey (id : jstr) : jstr := js "match:fence:" ++ id.
Definition ownerKey (id : jstr) : jstr := js "match:owner:" ++ id.
Definition tombstoneKey (id : jstr) : jstr := js "match:tombstone:" ++ id.
Definition stateKey (id : jstr) : jstr := js "match:state:" ++ id.
Definition revisionKey (id : jstr) : jstr := js "match:state-revision:" ++ id.
Definition DEAD_LETTER_SET : jstr := js "match:recovery:dead-letter".
Definition TOMBSTONE_TTL_SEC : Z := 604800.

(** ** Tombstones *)

Inductive TombstoneReason := finished | dead_letter | cleaned.
#[export] Instance TombstoneReason_eq : EqDecision TombstoneReason.
Proof. solve_decision. Defined.

Definition reason_str (r : TombstoneReason) : jstr :=
  match r with
  | finished => js "finished"
  | dead_letter => js "dead-letter"
  | cleaned => js "cleaned"
  end.

Definition TOMBSTONE_REASONS : list TombstoneReason := [finished; dead_letter; cleaned].

Definition parse_reason (s : jstr) : option TombstoneReason :=
  List.find (fun r => bool_decide (reason_str r = s)) TOMBSTONE_REASONS.

(** The pattern [^[1-9][0-9]*$], the same in both languages. *)
Definition positive_numeral (s : jstr) : bool :=
  match s with
  | [] => false
  | c :: s' => (49 <=? c) && (c <=? 57) && all_digits s'
  end.

Definition MAX_SAFE_INTEGER : Z := 9007199254740991.

(** [Number(raw)] of a numeral is the nearest double. *)
Definition isValidFinalizedFence (raw : jstr) : bool :=
  if negb (positive_numeral raw) then false
  else match round_to_double (dec_value 0 raw) with
       | Some n => (Z.abs n <=? MAX_SAFE_INTEGER) && (1 <=? n)
       | None => false
       end.

Definition parseTombstone (value : jstr) : option (TombstoneReason * Z) :=
  let sep := index_of 58 value in
  if (sep <=? 0) || (sep =? Z.of_nat (length value) - 1) then None
  else
    let reason := slice_to value sep in
    let fenceStr := slice_from value (sep + 1) in
    match parse_reason reason with
    | None => None
    | Some r => if negb (isValidFinalizedFence fenceStr) then None
                else n ← round_to_double (dec_value 0 fenceStr); Some (r, n)
    end.

(** ** Replies *)

(** [redis.eval] followed by the reading of the reply. *)
Definition eval {S R} (script : Script S) (read : reply -> outcome exn R) (s : S)
    : outcome exn R * S :=
  match script s with
  | (Some r, s') => (read r, s')
  | (None, s') => (Throw (JsError "ReplyError"), s')
  end.

(** [result === 1]. *)
Definition is_one (r : reply) : outcome exn bool :=
  Ok (match r with RInt 1 => true | _ => false end).

Definition expectLuaOutcomes (valid : list jstr) (r : reply) : outcome exn jstr :=
  match r with
  | RBulk s => if set_has s valid then Ok s else Throw (JsError "unexpected Lua reply")
  | _ => Throw (JsError "unexpected Lua reply")
  end.

Record Lease := mkLease { le_fence : Z; le_value : jstr }.

Definition leaseValue (nodeId : jstr) (fence : Z) : jstr := nodeId ++ js ":" ++ js_of_Z fence.

(** The checks on a [[fenceStr, leaseValue]] payload.  [Number(fenceRaw)] is
    read on canonical numerals only: another string cannot satisfy the last
    check. *)
Definition read_lease (nodeId : jstr) (r : reply) : outcome exn (option Lease) :=
  match r with
  | RNil => Ok None
  | RArr (fenceRaw :: value :: _) =>
      match integer_value fenceRaw with
      | Some fence =>
          if (fence <=? 0) || negb (bool_decide (value = leaseValue nodeId fence))
          then Throw (JsError "inconsistent Lua payload")
          else Ok (Some (mkLease fence value))
      | None => Throw (JsError "inconsistent Lua payload")
      end
  | _ => Throw (JsError "malformed Lua payload")
  end.

Inductive Acquired := Granted (l : Lease) | LiveOwner | Terminal.

Definition read_acquired (nodeId : jstr) (r : reply) : outcome exn Acquired :=
  if match r with RBulk b => bool_decide (b = js "TOMBSTONED") | _ => false end then Ok Terminal
  else match read_lease nodeId r with
       | Ok (Some l) => Ok (Granted l)
       | Ok None => Ok LiveOwner
       | Throw e => Throw e
       end.

Section Scripts.
Context {B S : Type} `{!RedisOps B S}.
Implicit Types s : S.

(** ** Leases *)

(** [SET key value NX EX ttl]. *)
Definition acquireLease (key value : jstr) (ttlSec : Z) (s : S) : outcome exn bool * S :=
  match r_get s key with
  | None => (Ok true, r_set key (Text value) (Some ttlSec) s)
  | Some _ => (Ok false, s)
  end.

Definition renewLease_script (key expected : jstr) (ttlMs : Z) : Script S := fun s =>
  if is_text (r_get s key) expected
  then (Some (RInt 1), r_pexpire key ttlMs s)
  else (Some (RInt 0), s).

Definition renewLease (key expected : jstr) (ttlSec : Z) : S -> outcome exn bool * S :=
  eval (renewLease_script key expected (ttlSec * 1000)) is_one.

Definition releaseLease_script (key expected : jstr) : Script S := fun s =>
  if is_text (r_get s key) expected
  then (Some (RInt 1), r_del key s)
  else (Some (RInt 0), s).

Definition releaseLease (key expected : jstr) : S -> outcome exn bool * S :=
  eval (releaseLease_script key expected) is_one.

(** [currentOwner == false or currentOwner == nil or currentOwner == ""] *)
Definition vacant (owner : option (rvalue B)) : bool :=
  match owner with None => true | Some _ => is_text owner [] end.

(** The part the two acquisition scripts share. *)
Definition claim (owner fence nodeId : jstr) (ttlSec : Z) : Script S := fun s =>
  if vacant (r_get s owner) then
    match r_incr fence s with
    | None => (None, s)
    | Some (newFence, s1) =>
        let value := nodeId ++ js ":" ++ lua_tostring newFence in
        (Some (RArr [lua_tostring newFence; value]), r_set owner (Text value) (Some ttlSec) s1)
    end
  else (Some RNil, s).

Definition acquireLeaseWithFence (owner fence nodeId : jstr) (ttlSec : Z)
    : S -> outcome exn (option Lease) * S :=
  eval (claim owner fence nodeId ttlSec) (read_lease nodeId).

Definition acquireMatchLease_script (owner fence tombstone nodeId : jstr) (ttlSec : Z) : Script S :=
  fun s =>
  if bool_decide (is_Some (r_get s tombstone)) then (Some (RBulk (js "TOMBSTONED")), s)
  else claim owner fence nodeId ttlSec s.

Definition acquireMatchLease (owner fence tombstone nodeId : jstr) (ttlSec : Z)
    : S -> outcome exn Acquired * S :=
  eval (acquireMatchLease_script owner fence tombstone nodeId ttlSec) (read_acquired nodeId).

Definition releaseLeaseAndIndex_script (owner expected index member : jstr) : Script S := fun s =>
  if is_text (r_get s owner) expected
  then (Some (RInt 1), r_srem index member (r_del owner s))
  else (Some (RInt 0), s).

Definition releaseLeaseAndIndex (owner expected index member : jstr) : S -> outcome exn bool * S :=
  eval (releaseLeaseAndIndex_script owner expected index member) is_one.

(** ** The fenced state *)

Record FencedSet := mkFencedSet {
  fs_leaseValue : jstr;
  fs_expectedFence : Z;
  fs_blob : B;
  fs_ttlSec : Z;
  fs_expectedRevision : Z;
  fs_nextRevision : Z;
}.

(** [currentOwner == false or currentOwner ~= ARGV[1]], and the same on the
    fence. *)
Definition holds_lease (s : S) (owner fence value fenceStr : jstr) : bool :=
  is_text (r_get s owner) value && is_text (r_get s fence) fenceStr.

(** The revision gate: the expected revision, which must be ["0"] when none is
    stored, and an advance by one. *)
Definition revision_ok (current : option (rvalue B)) (expected next : jstr) : bool :=
  match current with
  | None => bool_decide (expected = js "0")
  | Some _ => is_text current expected
  end
  && match integer_value next, integer_value expected with
     | Some n, Some e => n =? e + 1
     | _, _ => false
     end.

Definition fencedStateSet_script (owner fence state revision : jstr) (lease fenceStr : jstr)
    (blob : B) (ttlSec : Z) (expected next : jstr) : Script S := fun s =>
  if negb (holds_lease s owner fence lease fenceStr) then (Some (RBulk (js "RETRY")), s)
  else if negb (revision_ok (r_get s revision) expected next) then (Some (RBulk (js "RETRY")), s)
  else (Some (RBulk (js "APPLIED")),
        r_set revision (Text next) (Some ttlSec) (r_set state (Blob blob) (Some ttlSec) s)).

Inductive SetOutcome := SetApplied | SetRetry.

Definition fencedStateSet (owner fence state revision : jstr) (opts : FencedSet)
    : S -> outcome exn SetOutcome * S :=
  eval (fencedStateSet_script owner fence state revision (fs_leaseValue opts)
          (js_of_Z (fs_expectedFence opts)) (fs_blob opts) (fs_ttlSec opts)
          (js_of_Z (fs_expectedRevision opts)) (js_of_Z (fs_nextRevision opts)))
    (fun r => match expectLuaOutcomes [js "APPLIED"; js "RETRY"] r with
              | Ok o => Ok (if bool_decide (o = js "APPLIED") then SetApplied else SetRetry)
              | Throw e => Throw e
              end).

Definition fencedStateDelete_script (owner fence state revision lease fenceStr : jstr) : Script S :=
  fun s =>
  if negb (holds_lease s owner fence lease fenceStr) then (Some (RInt 0), s)
  else (Some (RInt 1), r_del revision (r_del state s)).

Definition fencedStateDelete (owner fence state revision lease : jstr) (expectedFence : Z)
    : S -> outcome exn bool * S :=
  eval (fencedStateDelete_script owner fence state revision lease (js_of_Z expectedFence)) is_one.

(** ** The index and the tombstones *)

Definition removeActiveIfStateAbsent_script (state index member : jstr) : Script S := fun s =>
  if bool_decide (is_Some (r_get s state)) then (Some (RBulk (js "PRESENT")), s)
  else (Some (RBulk (js "REMOVED")), r_srem index member s).

Definition removeActiveIfStateAbsent (state index member : jstr) : S -> outcome exn jstr * S :=
  eval (removeActiveIfStateAbsent_script state index member)
    (expectLuaOutcomes [js "REMOVED"; js "PRESENT"]).

Definition removeIndexMemberIfValueUnchanged_script (value index member : jstr)
    (observedValue : option jstr) : Script S := fun s =>
  if negb (match observedValue with
           | None => negb (bool_decide (is_Some (r_get s value)))
           | Some v => is_text (r_get s value) v
           end) then (Some (RBulk (js "CHANGED")), s)
  else (Some (RBulk (js "REMOVED")), r_srem index member s).

Definition removeIndexMemberIfValueUnchanged (value index member : jstr)
    (observedValue : option jstr) : S -> outcome exn jstr * S :=
  eval (removeIndexMemberIfValueUnchanged_script value index member observedValue)
    (expectLuaOutcomes [js "REMOVED"; js "CHANGED"]).

Definition removeActiveIfTombstoned_script (tombstone index member : jstr) : Script S := fun s =>
  if negb (bool_decide (is_Some (r_get s tombstone))) then (Some (RBulk (js "ABSENT")), s)
  else (Some (RBulk (js "REMOVED")), r_srem index member s).

Definition removeActiveIfTombstoned (tombstone index member : jstr) : S -> outcome exn jstr * S :=
  eval (removeActiveIfTombstoned_script tombstone index member)
    (expectLuaOutcomes [js "REMOVED"; js "ABSENT"]).

Definition finalizeMatchTombstone_script
    (owner fence tombstone index deadLetterSet member lease fenceStr reason : jstr) (ttlSec : Z)
    : Script S := fun s =>
  if negb (holds_lease s owner fence lease fenceStr) then (Some (RBulk (js "STALE")), s)
  else
    let s1 := r_srem index member (r_set tombstone (Text (reason ++ js ":" ++ fenceStr)) (Some ttlSec) s) in
    (Some (RBulk (js "FINALIZED")),
     if bool_decide (reason = js "dead-letter") then r_sadd deadLetterSet member s1 else s1).

Definition finalizeMatchTombstone (owner fence tombstone index deadLetterSet member lease : jstr)
    (expectedFence : Z) (reason : TombstoneReason) (ttlSec : Z) : S -> outcome exn jstr * S :=
  eval (finalizeMatchTombstone_script owner fence tombstone index deadLetterSet member lease
          (js_of_Z expectedFence) (reason_str reason) ttlSec)
    (expectLuaOutcomes [js "FINALIZED"; js "STALE"]).

(** ** Requeueing *)

(** The characters of a value; a blob has none that pass the gate. *)
Definition text_of (v : rvalue B) : jstr := match v with Text t => t | Blob _ => [] end.

(** The first gate of the script, in its own terms: positions from one,
    lengths, and the comparison of strings. *)
Definition requeue_reason_gate (tomb : option jstr) : option jstr :=
  match tomb with
  | None => Some (js "NOT_TERMINAL")
  | Some tomb =>
      let found := index_of 58 tomb in
      let sep := found + 1 in
      if (found <? 0) || (sep =? 1) || (sep =? Z.of_nat (length tomb))
      then Some (js "INVALID_TOMBSTONE")
      else
        let reason := slice_to tomb (sep - 1) in
        let fenceStr := slice_from tomb sep in
        let flen := Z.of_nat (length fenceStr) in
        if negb (positive_numeral fenceStr) then Some (js "INVALID_TOMBSTONE")
        else if (16 <? flen) || ((flen =? 16) && (0 <? str_cmp fenceStr (js "9007199254740991")))
        then Some (js "INVALID_TOMBSTONE")
        else if negb (bool_decide (reason = js "finished")) && negb (bool_decide (reason = js "dead-letter"))
                && negb (bool_decide (reason = js "cleaned"))
        then Some (js "INVALID_TOMBSTONE")
        else if negb (bool_decide (reason = js "dead-letter")) then Some (js "FINALIZED")
        else None
  end.

Definition requeueDeadLetter_script (tombstone state owner fence index deadLetterSet member : jstr)
    (force : bool) : Script S := fun s =>
  match requeue_reason_gate (text_of <$> r_get s tombstone) with
  | Some rejection => (Some (RBulk rejection), s)
  | None =>
      if negb (bool_decide (is_Some (r_get s state))) then (Some (RBulk (js "NO_STATE")), s)
      else
        let ownerLive := negb (vacant (r_get s owner)) in
        if ownerLive && negb force then (Some (RBulk (js "CONFLICT")), s)
        else
          let fenced :=
            if ownerLive then
              match r_incr fence (r_del owner s) with
              | Some (_, s') => (true, s')
              | None => (false, r_del owner s)
              end
            else (true, s) in
          if fenced.1
          then (Some (RBulk (js "REQUEUED")),
                r_srem deadLetterSet member (r_sadd index member (r_del tombstone fenced.2)))
          else (None, fenced.2)
  end.

Definition requeueDeadLetter (tombstone state owner fence index deadLetterSet member : jstr)
    (force : bool) : S -> outcome exn jstr * S :=
  eval (requeueDeadLetter_script tombstone state owner fence index deadLetterSet member force)
    (expectLuaOutcomes [js "REQUEUED"; js "NOT_TERMINAL"; js "INVALID_TOMBSTONE"; js "FINALIZED";
                        js "NO_STATE"; js "CONFLICT"]).
End Scripts.

(** ** Tombstones: lemmas *)

Lemma positive_numeral_spec s :
  positive_numeral s = true -> all_digits s = true /\ 1 <= dec_value 0 s
    /\ 10 ^ (Z.of_nat (length s) - 1) <= dec_value 0 s < 10 ^ Z.of_nat (length s).
Proof.
  destruct s as [|c s]; [done|]. cbn [positive_numeral].
  intros [Hc Hs]%andb_true_iff. pose proof Hc as Hc'. bool_to_prop.
  rewrite dec_value_cons. cbn [length]. rewrite Nat2Z.inj_succ.
  replace (Z.succ (Z.of_nat (length s)) - 1) with (Z.of_nat (length s)) by lia.
  pose proof (dec_value_bounds s (10 * 0 + (c - 48)) Hs ltac:(lia)) as Hb.
  assert (0 < 10 ^ Z.of_nat (length s)) by (apply Z.pow_pos_nonneg; lia).
  rewrite Z.pow_succ_r by lia. split_and!; [|nia..].
  unfold all_digits in *. cbn [forallb]. rewrite Hs. unfold is_digit.
  rewrite andb_true_r. apply andb_true_iff. split; apply Z.leb_le; lia.
Qed.

Lemma positive_numeral_js n : 0 < n -> positive_numeral (js_of_Z n) = true.
Proof.
  intros Hn. destruct (js_of_Z_pos n Hn) as (c & t & -> & Hc & Ht & _). cbn. rewrite Ht.
  rewrite andb_true_r. apply andb_true_iff. split; apply Z.leb_le; lia.
Qed.

(** The rounding of [Number] does not let an unsafe numeral through. *)
Lemma isValidFinalizedFence_spec s :
  isValidFinalizedFence s = true <-> positive_numeral s = true /\ dec_value 0 s <= MAX_SAFE_INTEGER.
Proof.
  unfold isValidFinalizedFence. destruct (positive_numeral s) eqn:E; cbn [negb]; [|naive_solver].
  destruct (positive_numeral_spec s E) as (_ & H1 & _).
  destruct (decide (dec_value 0 s < 2 ^ 53)) as [Hs|Hs].
  - rewrite round_to_double_small by lia. rewrite andb_true_iff, !Z.leb_le.
    unfold MAX_SAFE_INTEGER. lia.
  - destruct (round_to_double (dec_value 0 s)) as [m|] eqn:Er.
    + apply round_to_double_large in Er; [|lia]. rewrite andb_true_iff, !Z.leb_le.
      unfold MAX_SAFE_INTEGER. lia.
    + unfold MAX_SAFE_INTEGER. split; [done|lia].
Qed.

(** The range guard of the script is the numeric one. *)
Lemma lua_range_guard s :
  positive_numeral s = true ->
  (16 <? Z.of_nat (length s))
  || ((Z.of_nat (length s) =? 16) && (0 <? str_cmp s (js "9007199254740991")))
  = negb (dec_value 0 s <=? MAX_SAFE_INTEGER).
Proof.
  intros Hp. destruct (positive_numeral_spec s Hp) as (Hd & H1 & Hlo & Hhi).
  destruct (Z.lt_trichotomy (Z.of_nat (length s)) 16) as [Hl|[Hl|Hl]].
  - rewrite (proj2 (Z.ltb_ge _ _)), (proj2 (Z.eqb_neq _ _)) by lia. cbn [orb andb].
    symmetry. apply negb_false_iff, Z.leb_le. unfold MAX_SAFE_INTEGER.
    assert (10 ^ Z.of_nat (length s) <= 10 ^ 15) by (apply Z.pow_le_mono_r; lia). lia.
  - rewrite Hl. change (16 <? 16) with false. change (16 =? 16) with true. cbn [orb andb].
    rewrite (str_cmp_digits s (js "9007199254740991") 0) by first [done|lia|cbn; lia].
    change (dec_value 0 (js "9007199254740991")) with MAX_SAFE_INTEGER.
    apply Bool.eq_iff_eq_true. rewrite negb_true_iff, Z.ltb_lt, Z.leb_gt.
    lia.
  - rewrite (proj2 (Z.ltb_lt _ _)) by lia. cbn [orb]. symmetry. apply negb_true_iff, Z.leb_gt.
    unfold MAX_SAFE_INTEGER. assert (10 ^ 16 <= 10 ^ (Z.of_nat (length s) - 1))
      by (apply Z.pow_le_mono_r; lia). lia.
Qed.

Lemma parse_reason_spec s r : parse_reason s = Some r <-> s = reason_str r.
Proof.
  unfold parse_reason, TOMBSTONE_REASONS. cbn [List.find].
  repeat case_bool_decide; destruct r; split; intros H'; subst; naive_solver.
Qed.

Lemma index_of_app_sep (a b : jstr) :
  58 ∉ a -> index_of 58 (a ++ 58 :: b) = Z.of_nat (length a).
Proof.
  intros Ha. induction a as [|c a IH]; [done|].
  apply not_elem_of_cons in Ha as [Hc Ha]. unfold index_of in *. cbn [app find_index length].
  rewrite bool_decide_eq_false_2 by congruence. rewrite IH by done. case_match; bool_to_prop; lia.
Qed.

Lemma slice_at (a b : jstr) :
  slice_to (a ++ 58 :: b) (Z.of_nat (length a)) = a
  /\ slice_from (a ++ 58 :: b) (Z.of_nat (length a) + 1) = b.
Proof.
  unfold slice_to, slice_from, slice_index.
  rewrite (proj2 (Z.ltb_ge _ _)), (proj2 (Z.ltb_ge _ _)) by lia.
  rewrite Z2Nat.inj_add, !Nat2Z.id by lia. split; [by rewrite take_app_length|].
  change (a ++ 58 :: b) with (a ++ [58] ++ b). rewrite app_assoc.
  replace (length a + Z.to_nat 1)%nat with (length (a ++ [58])) by (rewrite length_app; done).
  by rewrite drop_app_length.
Qed.

(** ** Tombstones: properties *)

(** The requeue script and the TypeScript parser accept the same
    tombstones.  The script compares digits as strings and lengths, the parser
    converts to a double and tests for a safe integer; on every value the
    script goes past its first gate exactly when the parser reads a dead-letter
    tombstone, reports FINALIZED exactly for the other well-formed ones and
    INVALID_TOMBSTONE exactly for those the parser refuses. *)
Lemma requeue_gate_agrees (value : jstr) :
  requeue_reason_gate (Some value)
  = match parseTombstone value with
    | None => Some (js "INVALID_TOMBSTONE")
    | Some (dead_letter, _) => None
    | Some (_, _) => Some (js "FINALIZED")
    end.
Proof.
  unfold requeue_reason_gate, parseTombstone. set (found := index_of 58 value).
  replace ((found <? 0) || (found + 1 =? 1) || (found + 1 =? Z.of_nat (length value)))
    with ((found <=? 0) || (found =? Z.of_nat (length value) - 1))
    by (apply Bool.eq_iff_eq_true; rewrite !orb_true_iff, !Z.eqb_eq, Z.ltb_lt, Z.leb_le; lia).
  destruct (_ || _); [done|]. replace (found + 1 - 1) with found by lia.
  set (reason := slice_to value found). set (fence := slice_from value (found + 1)).
  destruct (positive_numeral fence) eqn:Hp; cbn [negb].
  - rewrite (lua_range_guard fence Hp).
    pose proof (isValidFinalizedFence_spec fence) as Hv. rewrite Hp in Hv.
    destruct (dec_value 0 fence <=? MAX_SAFE_INTEGER) eqn:Hr; bool_to_prop; cbn [negb].
    + rewrite (proj2 Hv) by done. cbn [negb].
      destruct (positive_numeral_spec fence Hp) as (_ & H1 & _). unfold MAX_SAFE_INTEGER in Hr.
      rewrite round_to_double_small by lia. cbn [mbind option_bind].
      destruct (parse_reason reason) as [r|] eqn:Er.
      * apply parse_reason_spec in Er. rewrite Er. by destruct r.
      * assert (forall r, reason <> reason_str r) as Hne.
        { intros r Heq%parse_reason_spec. congruence. }
        rewrite (bool_decide_eq_false_2 (reason = js "finished")) by exact (Hne finished).
        rewrite (bool_decide_eq_false_2 (reason = js "dead-letter")) by exact (Hne dead_letter).
        by rewrite (bool_decide_eq_false_2 (reason = js "cleaned")) by exact (Hne cleaned).
    + rewrite (not_true_is_false (isValidFinalizedFence fence)) by (rewrite Hv; lia).
      by destruct (parse_reason reason) as [[]|].
  - rewrite (not_true_is_false (isValidFinalizedFence fence))
      by (rewrite isValidFinalizedFence_spec, Hp; naive_solver).
    by destruct (parse_reason reason) as [[]|].
Qed.

(** What the finalization script writes is read back: the tombstone of a
    reason and a fence of the legal range parses to that reason and fence. *)
Theorem tombstone_round_trip (r : TombstoneReason) (fence : Z) :
  1 <= fence <= MAX_SAFE_INTEGER ->
  parseTombstone (reason_str r ++ js ":" ++ js_of_Z fence) = Some (r, fence).
Proof.
  intros Hf. unfold parseTombstone. change (js ":" ++ js_of_Z fence) with (58 :: js_of_Z fence).
  rewrite index_of_app_sep by (destruct r; vm_compute; set_solver).
  destruct (slice_at (reason_str r) (js_of_Z fence)) as [-> ->].
  rewrite (proj2 (parse_reason_spec (reason_str r) r)) by done.
  destruct (js_of_Z_pos fence ltac:(lia)) as (c & t & E & _).
  rewrite length_app. cbn [length]. rewrite E. cbn [length]. rewrite <- E.
  rewrite (proj2 (Z.leb_gt _ _)) by (destruct r; cbn; lia).
  rewrite (proj2 (Z.eqb_neq _ _)) by lia. cbn [orb].
  rewrite (proj2 (isValidFinalizedFence_spec _)).
  - cbn [negb]. unfold MAX_SAFE_INTEGER in Hf.
    by rewrite dec_value_js_of_Z, round_to_double_small by lia.
  - rewrite dec_value_js_of_Z by lia. split; [apply positive_numeral_js; lia|lia].
Qed.

Lemma tombstone_round_trip_witness :
  1 <= 42 <= MAX_SAFE_INTEGER
  /\ parseTombstone (reason_str dead_letter ++ js ":" ++ js_of_Z 42) = Some (dead_letter, 42).
Proof. split; [done|]. apply tombstone_round_trip. done. Defined.
