(* ===== verification/Fencing.v ===== *)
(** * The fencing protocol on one Redis server

    The commands the nodes send for a match, as one type, and the runs of a
    server: any commands of any nodes in any order, with keys that have a time
    to live expiring at any moment.  Nothing is assumed of the nodes here. *)

From stdpp Require Import gmap.
From S2P Require Import Prelude JsData Doubles Effects Shared Decimal Redis Lease.
#[local] Open Scope Z_scope.

Definition LEASE_TTL_SEC : Z := 15.
Definition STATE_TTL_SEC : Z := 86400.
Definition appliedSetKey (id : jstr) : jstr := js "match:applied:" ++ id.

(** ** Keys of different kinds are different *)

Lemma fenceKey_inj a b : fenceKey a = fenceKey b -> a = b.
Proof. apply app_inv_head. Qed.
Lemma ownerKey_inj a b : ownerKey a = ownerKey b -> a = b.
Proof. apply app_inv_head. Qed.
Lemma stateKey_inj a b : stateKey a = stateKey b -> a = b.
Proof. apply app_inv_head. Qed.
Lemma revisionKey_inj a b : revisionKey a = revisionKey b -> a = b.
Proof. apply app_inv_head. Qed.
Lemma tombstoneKey_inj a b : tombstoneKey a = tombstoneKey b -> a = b.
Proof. apply app_inv_head. Qed.

(** Decides the equations between keys of different kinds. *)
Ltac keys_differ :=
  let H := fresh in
  unfold fenceKey, ownerKey, stateKey, revisionKey, tombstoneKey, appliedSetKey, ACTIVE_SET,
    DEAD_LETTER_SET; cbn; intros H; discriminate H.

Ltac key_cases :=
  repeat match goal with
  | |- context [decide (?k1 ?a = ?k2 ?b)] =>
      first [ rewrite (decide_False (P := k1 a = k2 b)) by keys_differ
            | rewrite (decide_True (P := k1 a = k2 b)) by reflexivity ]
  end.

(** ** Commands *)

Section Server.
Context {B S : Type} `{!RedisOps B S}.

Inductive Cmd : Type -> Type :=
| AcquireMatchLease (id nodeId : jstr) : Cmd Acquired
| RenewLease (id lease : jstr) : Cmd bool
| ReleaseLease (id lease : jstr) : Cmd bool
| ReleaseLeaseAndIndex (id lease : jstr) : Cmd bool
| GetOwner (id : jstr) : Cmd (option (rvalue B))
| AddActive (id : jstr) : Cmd unit
| ListActive : Cmd (list jstr)
| GetState (id : jstr) : Cmd (option (rvalue B))
| SetStateBlind (id : jstr) (blob : B) : Cmd unit
| DelState (id : jstr) : Cmd unit
| DelRevision (id : jstr) : Cmd unit
| GetRevision (id : jstr) : Cmd (option (rvalue B))
| FencedStateSet (id : jstr) (opts : @FencedSet B) : Cmd SetOutcome
| FencedStateDelete (id lease : jstr) (fence : Z) : Cmd bool
| RemoveActiveIfStateAbsent (id : jstr) : Cmd jstr
| RemoveActiveIfTombstoned (id : jstr) : Cmd jstr
| FinalizeMatchTombstone (id lease : jstr) (fence : Z) (reason : TombstoneReason) : Cmd jstr
| RequeueDeadLetter (id : jstr) (force : bool) : Cmd jstr
| AppliedHas (id eventId : jstr) : Cmd bool
| AppliedAdd (id eventId : jstr) : Cmd unit.

Definition exec_cmd {R} (c : Cmd R) : S -> outcome exn R * S :=
  match c in Cmd R return S -> outcome exn R * S with
  | AcquireMatchLease id nodeId =>
      acquireMatchLease (ownerKey id) (fenceKey id) (tombstoneKey id) nodeId LEASE_TTL_SEC
  | RenewLease id lease => renewLease (ownerKey id) lease LEASE_TTL_SEC
  | ReleaseLease id lease => releaseLease (ownerKey id) lease
  | ReleaseLeaseAndIndex id lease => releaseLeaseAndIndex (ownerKey id) lease ACTIVE_SET id
  | GetOwner id => fun s => (Ok (r_get s (ownerKey id)), s)
  | AddActive id => fun s => (Ok tt, r_sadd ACTIVE_SET id s)
  | ListActive => fun s => (Ok (r_smembers s ACTIVE_SET), s)
  | GetState id => fun s => (Ok (r_get s (stateKey id)), s)
  | SetStateBlind id blob => fun s => (Ok tt, r_set (stateKey id) (Blob blob) (Some STATE_TTL_SEC) s)
  | DelState id => fun s => (Ok tt, r_del (stateKey id) s)
  | DelRevision id => fun s => (Ok tt, r_del (revisionKey id) s)
  | GetRevision id => fun s => (Ok (r_get s (revisionKey id)), s)
  | FencedStateSet id opts =>
      fencedStateSet (ownerKey id) (fenceKey id) (stateKey id) (revisionKey id) opts
  | FencedStateDelete id lease fence =>
      fencedStateDelete (ownerKey id) (fenceKey id) (stateKey id) (revisionKey id) lease fence
  | RemoveActiveIfStateAbsent id => removeActiveIfStateAbsent (stateKey id) ACTIVE_SET id
  | RemoveActiveIfTombstoned id => removeActiveIfTombstoned (tombstoneKey id) ACTIVE_SET id
  | FinalizeMatchTombstone id lease fence reason =>
      finalizeMatchTombstone (ownerKey id) (fenceKey id) (tombstoneKey id) ACTIVE_SET
        DEAD_LETTER_SET id lease fence reason TOMBSTONE_TTL_SEC
  | RequeueDeadLetter id force =>
      requeueDeadLetter (tombstoneKey id) (stateKey id) (ownerKey id) (fenceKey id) ACTIVE_SET
        DEAD_LETTER_SET id force
  | AppliedHas id eventId => fun s => (Ok (r_sismember s (appliedSetKey id) eventId), s)
  | AppliedAdd id eventId => fun s => (Ok tt, r_sadd (appliedSetKey id) eventId s)
  end.

(** ** Runs *)

(** One step of the server: a command with its reply, or the expiry of a key
    that has a time to live. *)
Inductive step : S -> S -> Prop :=
| step_cmd {R} (c : Cmd R) s : step s (exec_cmd c s).2
| step_expire k s : r_volatile s k = true -> step s (r_expire k s).

Inductive run : S -> S -> Prop :=
| run_refl s : run s s
| run_step s1 s2 s3 : step s1 s2 -> run s2 s3 -> run s1 s3.

(** A run all of whose stores satisfy [P]. *)
Inductive run_within (P : S -> Prop) : S -> S -> Prop :=
| within_refl s : P s -> run_within P s s
| within_step s1 s2 s3 : P s1 -> step s1 s2 -> run_within P s2 s3 -> run_within P s1 s3.

(** The fence of a match: the number of leases granted or revoked so far. *)
Definition fence_of (s : S) (id : jstr) : Z :=
  match r_get s (fenceKey id) with
  | Some (Text t) => default 0 (integer_value t)
  | _ => 0
  end.

(** The counter is absent or a positive numeral that does not expire. *)
Definition fence_wf (s : S) (id : jstr) : Prop :=
  r_volatile s (fenceKey id) = false
  /\ (r_get s (fenceKey id) = None
      \/ exists n, 0 < n /\ r_get s (fenceKey id) = Some (Text (js_of_Z n))).

Lemma fence_of_counter s id n :
  r_get s (fenceKey id) = Some (Text (js_of_Z n)) -> fence_of s id = n.
Proof. unfold fence_of. intros ->. by rewrite integer_value_js. Qed.

Lemma fence_of_none s id : r_get s (fenceKey id) = None -> fence_of s id = 0.
Proof. unfold fence_of. by intros ->. Qed.

Lemma run_trans s1 s2 s3 : run s1 s2 -> run s2 s3 -> run s1 s3.
Proof. induction 1; [done|]. intros. econstructor; eauto. Qed.

(** ** What a command does to the fence counters *)

(** Either nothing, or one [INCR] of one of them. *)
Inductive fence_effect (s s' : S) : Prop :=
| fence_same :
    (forall id, r_get s' (fenceKey id) = r_get s (fenceKey id)
                /\ r_volatile s' (fenceKey id) = r_volatile s (fenceKey id)) ->
    fence_effect s s'
| fence_incr id n s0 s1 :
    (forall j, r_get s0 (fenceKey j) = r_get s (fenceKey j)
               /\ r_volatile s0 (fenceKey j) = r_volatile s (fenceKey j)) ->
    r_incr (fenceKey id) s0 = Some (n, s1) ->
    (forall j, r_get s' (fenceKey j) = r_get s1 (fenceKey j)
               /\ r_volatile s' (fenceKey j) = r_volatile s1 (fenceKey j)) ->
    fence_effect s s'.

Context `{!RedisLaws B S}.

Lemma run_cmd {R} (c : Cmd R) s : run s (exec_cmd c s).2.
Proof. econstructor; [apply (step_cmd c)|constructor]. Qed.

(** Reads of the fence counters through writes to other keys. *)
Ltac fence_keys :=
  repeat first
    [ rewrite volatile_pexpire by keys_differ
    | rewrite volatile_del by keys_differ
    | progress redis_simpl
    | progress key_cases ].

Ltac unfold_cmd :=
  cbn [exec_cmd fst snd];
  unfold acquireMatchLease, acquireMatchLease_script, claim, renewLease, renewLease_script,
    releaseLease, releaseLease_script, releaseLeaseAndIndex, releaseLeaseAndIndex_script,
    fencedStateSet, fencedStateSet_script, fencedStateDelete, fencedStateDelete_script,
    removeActiveIfStateAbsent, removeActiveIfStateAbsent_script, removeActiveIfTombstoned,
    removeActiveIfTombstoned_script, finalizeMatchTombstone, finalizeMatchTombstone_script,
    requeueDeadLetter, requeueDeadLetter_script, eval.

Lemma cmd_fence {R} (c : Cmd R) s : fence_effect s (exec_cmd c s).2.
Proof.
  destruct c; unfold_cmd; repeat case_match; simplify_eq; cbn [fst snd].
  all: try (apply fence_same; intros; fence_keys; done).
  all: eapply fence_incr; [..|eassumption|]; intros; fence_keys; done.
Qed.

Lemma fence_same_at s s' id :
  r_get s' (fenceKey id) = r_get s (fenceKey id) ->
  r_volatile s' (fenceKey id) = r_volatile s (fenceKey id) ->
  fence_wf s id -> fence_wf s' id /\ fence_of s' id = fence_of s id.
Proof. unfold fence_wf, fence_of. intros -> ->. done. Qed.

(** [INCR] on a well-formed counter adds one. *)
Lemma fence_incr_at id s n s' :
  fence_wf s id -> r_incr (fenceKey id) s = Some (n, s') ->
  n = fence_of s id + 1 /\ 0 < n /\ fence_wf s' id /\ fence_of s' id = n.
Proof.
  intros [Hv Hg] Hi.
  assert (n = fence_of s id + 1 /\ 0 < n) as [Hn Hp].
  { destruct Hg as [Hg|(m & Hm & Hg)].
    - rewrite (fence_of_none _ _ Hg). by rewrite (incr_first _ _ _ _ Hi Hg).
    - rewrite (fence_of_counter _ _ _ Hg). rewrite (incr_value _ _ _ _ _ Hi Hg). lia. }
  pose proof (get_incr _ _ _ _ (fenceKey id) Hi) as Hg'. rewrite decide_True in Hg' by done.
  split_and!; [done|done| |by apply fence_of_counter].
  split; [by rewrite (volatile_incr _ _ _ _ _ Hi)|eauto].
Qed.

Lemma r_incr_total id s :
  fence_wf s id -> fence_of s id < 2 ^ 62 -> exists n s', r_incr (fenceKey id) s = Some (n, s').
Proof.
  intros [_ [Hg|(n & Hn & Hg)]] Hlt.
  - destruct (incr_none _ _ Hg) as [s' ?]. eauto.
  - rewrite (fence_of_counter _ _ _ Hg) in Hlt. destruct (incr_some _ _ _ Hg ltac:(lia)). eauto.
Qed.

Lemma cmd_fence_mono {R} (c : Cmd R) s id :
  fence_wf s id -> fence_wf (exec_cmd c s).2 id /\ fence_of s id <= fence_of (exec_cmd c s).2 id.
Proof.
  intros Hwf. destruct (cmd_fence c s) as [Hs|j n s0 s1 H0 Hi H1].
  - destruct (fence_same_at s _ id (proj1 (Hs id)) (proj2 (Hs id)) Hwf) as [Hwf' ->]. split; [done|lia].
  - destruct (fence_same_at s s0 id (proj1 (H0 id)) (proj2 (H0 id)) Hwf) as [Hwf0 <-].
    enough (fence_wf s1 id /\ fence_of s0 id <= fence_of s1 id) as [Hwf1 Hle].
    { by destruct (fence_same_at s1 _ id (proj1 (H1 id)) (proj2 (H1 id)) Hwf1) as [Hwf' ->]. }
    destruct (decide (j = id)) as [->|Hne].
    + destruct (fence_incr_at id s0 n s1 Hwf0 Hi) as (? & ? & ? & ?). split; [done|lia].
    + destruct (fence_same_at s0 s1 id) as [Hwf1 ->]; [| |done|split; [done|lia]].
      * rewrite (get_incr _ _ _ _ (fenceKey id) Hi), decide_False; [done|].
        intros ?%fenceKey_inj. done.
      * apply (volatile_incr _ _ _ _ _ Hi).
Qed.

Lemma step_fence_mono s s' id :
  step s s' -> fence_wf s id -> fence_wf s' id /\ fence_of s id <= fence_of s' id.
Proof.
  intros Hstep Hwf. destruct Hstep as [R c s|k s Hk].
  - by apply cmd_fence_mono.
  - assert (k <> fenceKey id) by (intros ->; destruct Hwf; congruence).
    destruct (fence_same_at s (r_expire k s) id) as [? ->]; [| |done|split; [done|lia]].
    + by rewrite get_expire, decide_False.
    + by apply volatile_expire.
Qed.

Lemma run_fence_mono s s' id :
  run s s' -> fence_wf s id -> fence_wf s' id /\ fence_of s id <= fence_of s' id.
Proof.
  induction 1 as [s0|s1 s2 s3 Hstep _ IH]; intros Hwf; [split; [done|lia]|].
  destruct (step_fence_mono _ _ _ Hstep Hwf) as [Hwf2 ?].
  destruct (IH Hwf2). split; [done|lia].
Qed.

(** ** What a lease gives *)

Lemma read_lease_granted nodeId n l :
  0 < n ->
  read_lease nodeId (RArr [lua_tostring n; nodeId ++ js ":" ++ lua_tostring n]) = Ok (Some l) ->
  l = mkLease n (leaseValue nodeId n) /\ lua_tostring n = js_of_Z n.
Proof.
  intros Hn. cbn [read_lease]. destruct (integer_value (lua_tostring n)) as [f|] eqn:Hf; [|done].
  apply integer_value_Some in Hf. pose proof (lua_tostring_plain n f Hn Hf) as ->.
  case_match eqn:E; [done|]. intros [= <-]. bool_to_prop. split; [by f_equal|done].
Qed.

(** A grant takes the next fence, from a match that is not tombstoned. *)
Lemma acquire_granted id nodeId s l s' :
  fence_wf s id ->
  exec_cmd (AcquireMatchLease id nodeId) s = (Ok (Granted l), s') ->
  l = mkLease (fence_of s id + 1) (leaseValue nodeId (fence_of s id + 1))
  /\ fence_wf s' id /\ fence_of s' id = le_fence l
  /\ r_get s' (ownerKey id) = Some (Text (le_value l))
  /\ r_get s (tombstoneKey id) = None /\ vacant (r_get s (ownerKey id)) = true.
Proof.
  intros Hwf. unfold_cmd.
  destruct (bool_decide (is_Some (r_get s (tombstoneKey id)))) eqn:Ht; [done|].
  destruct (vacant (r_get s (ownerKey id))) eqn:Ho; [|done].
  destruct (r_incr (fenceKey id) s) as [[n s1]|] eqn:Hi; [|done].
  destruct (fence_incr_at id s n s1 Hwf Hi) as (Hn & Hp & Hwf1 & Hf1).
  unfold read_acquired.
  destruct (read_lease nodeId _) as [[l'|]|] eqn:Hr; intros [= <- <-].
  apply read_lease_granted in Hr as [-> Hs]; [|done]. rewrite <- Hn. cbn [le_fence le_value].
  destruct (fence_same_at s1 (r_set (ownerKey id) (Text (nodeId ++ js ":" ++ lua_tostring n))
    (Some LEASE_TTL_SEC) s1) id) as [Hwf' Hf']; [by fence_keys..|done|].
  bool_to_prop. apply eq_None_not_Some in Ht. split_and!; try done; [by etransitivity; [exact Hf'|]|].
  redis_simpl. rewrite decide_True by done. unfold leaseValue. by rewrite Hs.
Qed.

(** ** Refusals *)

(** A fence that is not the current one passes no script. *)
Lemma holds_lease_fence s id lease f :
  fence_wf s id -> holds_lease s (ownerKey id) (fenceKey id) lease (js_of_Z f) = true ->
  f = fence_of s id /\ 0 < f /\ r_get s (ownerKey id) = Some (Text lease).
Proof.
  intros [_ Hg]. unfold holds_lease. rewrite andb_true_iff, !is_text_spec. intros [Ho Hf].
  rewrite (fence_of_counter s id f) by done. split_and!; [done| |done].
  destruct Hg as [Hg|(n & Hn & Hg)]; [congruence|]. rewrite Hg in Hf.
  injection Hf as Hf%js_of_Z_inj. congruence.
Qed.

(** Every fenced command under fence [f] is refused and leaves the store. *)
Definition refused (id : jstr) (f : Z) (s : S) : Prop :=
  (forall opts, fs_expectedFence opts = f -> exec_cmd (FencedStateSet id opts) s = (Ok SetRetry, s))
  /\ (forall lease, exec_cmd (FencedStateDelete id lease f) s = (Ok false, s))
  /\ (forall lease reason,
        exec_cmd (FinalizeMatchTombstone id lease f reason) s = (Ok (js "STALE"), s)).

Lemma refused_stale id f s : fence_wf s id -> f <> fence_of s id -> refused id f s.
Proof.
  intros Hwf Hne.
  assert (forall lease, holds_lease s (ownerKey id) (fenceKey id) lease (js_of_Z f) = false) as Hh.
  { intros lease. apply not_true_is_false. intros Hh.
    by destruct (holds_lease_fence s id lease f Hwf Hh) as [? _]. }
  split_and!; intros; subst; unfold_cmd; by rewrite Hh.
Qed.

(** A grant under fence [g], from one store to the next. *)
Definition grants (id : jstr) (l : Lease) (s s' : S) : Prop :=
  exists nodeId, exec_cmd (AcquireMatchLease id nodeId) s = (Ok (Granted l), s').

(** An applied write under fence [g]. *)
Definition applies (id : jstr) (opts : FencedSet) (s s' : S) : Prop :=
  exec_cmd (FencedStateSet id opts) s = (Ok SetApplied, s').

(** The write of the state, on every branch. *)
Lemma fencedStateSet_cases id opts s :
  exec_cmd (FencedStateSet id opts) s
  = if holds_lease s (ownerKey id) (fenceKey id) (fs_leaseValue opts) (js_of_Z (fs_expectedFence opts))
       && revision_ok (r_get s (revisionKey id)) (js_of_Z (fs_expectedRevision opts))
            (js_of_Z (fs_nextRevision opts))
    then (Ok SetApplied,
          r_set (revisionKey id) (Text (js_of_Z (fs_nextRevision opts))) (Some (fs_ttlSec opts))
            (r_set (stateKey id) (Blob (fs_blob opts)) (Some (fs_ttlSec opts)) s))
    else (Ok SetRetry, s).
Proof. unfold_cmd. destruct (holds_lease _ _ _ _ _), (revision_ok _ _ _); done. Qed.

Lemma revision_ok_spec (cur : option (rvalue B)) e n :
  revision_ok cur (js_of_Z e) (js_of_Z n) = true
  <-> (cur = Some (Text (js_of_Z e)) \/ cur = None /\ e = 0) /\ n = e + 1.
Proof.
  unfold revision_ok. rewrite !integer_value_js, andb_true_iff, Z.eqb_eq. destruct cur as [v|].
  - rewrite is_text_spec. naive_solver.
  - rewrite bool_decide_eq_true. split; [|naive_solver].
    intros [H ->]. split; [|done]. right. split; [done|]. by apply js_of_Z_inj.
Qed.

Lemma applies_current id opts s s' :
  fence_wf s id -> applies id opts s s' ->
  fs_expectedFence opts = fence_of s id
  /\ r_get s (ownerKey id) = Some (Text (fs_leaseValue opts))
  /\ fence_wf s' id /\ fence_of s' id = fence_of s id.
Proof.
  intros Hwf Ha. unfold applies in Ha. rewrite fencedStateSet_cases in Ha.
  destruct (holds_lease _ _ _ _ _) eqn:Hh; [|done].
  destruct (revision_ok _ _ _); [|done]. injection Ha as <-.
  destruct (holds_lease_fence _ _ _ _ Hwf Hh) as (? & ? & ?). split_and!; [done..| |];
    eapply (fence_same_at s); by fence_keys.
Qed.

Lemma run_within_run P s s' : run_within P s s' -> run s s'.
Proof. induction 1; econstructor; eauto. Qed.

(** ** The revision of the state *)

Definition revision_is (s : S) (id : jstr) (e : Z) : Prop :=
  r_get s (revisionKey id) = Some (Text (js_of_Z e)).

(** No command takes the revision back: it keeps it, removes it, or advances
    the one it finds. *)
Lemma cmd_revision {R} (c : Cmd R) s id e :
  revision_is s id e ->
  revision_is (exec_cmd c s).2 id e \/ r_get (exec_cmd c s).2 (revisionKey id) = None
  \/ revision_is (exec_cmd c s).2 id (e + 1).
Proof.
  unfold revision_is. intros He. destruct c.
  13: { rewrite fencedStateSet_cases. destruct (_ && _) eqn:Hc; [|auto]. cbn [snd]. redis_simpl.
    destruct (decide (revisionKey id0 = revisionKey id)) as [->%revisionKey_inj|]; [|key_cases; auto].
    apply andb_true_iff in Hc as [_ Hr]. apply revision_ok_spec in Hr as [[H|[H _]] ->]; [|congruence].
    rewrite He in H. injection H as <-%js_of_Z_inj. auto. }
  all: unfold_cmd; repeat case_match; simplify_eq; cbn [fst snd];
    try (left; fence_keys; done).
  all: try (left; fence_keys; erewrite get_incr by eassumption; fence_keys; done).
  all: redis_simpl; case_decide; key_cases; auto.
Qed.

Lemma step_revision s s' id e :
  step s s' -> revision_is s id e ->
  revision_is s' id e \/ r_get s' (revisionKey id) = None \/ revision_is s' id (e + 1).
Proof.
  intros Hs He. destruct Hs as [R c s|k s _]; [by apply cmd_revision|].
  unfold revision_is. rewrite get_expire. case_decide; auto.
Qed.

Lemma run_within_revision s s' id e :
  run_within (fun x => is_Some (r_get x (revisionKey id))) s s' ->
  revision_is s id e -> exists e', e <= e' /\ revision_is s' id e'.
Proof.
  intros Hr. revert e. induction Hr as [s0 _|s1 s2 s3 _ Hs Hr IH]; intros e He.
  { exists e. split; [lia|done]. }
  assert (is_Some (r_get s2 (revisionKey id))) as [v Hv] by (by destruct Hr).
  destruct (step_revision _ _ _ _ Hs He) as [H|[H|H]]; [|congruence|];
    destruct (IH _ H) as (e' & ? & ?); exists e'; (split; [lia|done]).
Qed.
(** ** Properties *)

(** C5: a takeover fences the previous owner out.  Whatever commands the nodes
    send and whatever keys expire in between, two leases granted for a match
    have strictly increasing fences, and from the later grant on every write,
    deletion or finalization under the earlier fence is refused and leaves the
    store as it is, whoever sends it and however long afterwards. *)
Theorem takeover_fences_out id l1 l2 s0 s1 s2 s3 s4 :
  fence_wf s0 id -> grants id l1 s0 s1 -> run s1 s2 -> grants id l2 s2 s3 -> run s3 s4 ->
  le_fence l1 < le_fence l2 /\ refused id (le_fence l1) s4.
Proof.
  intros Hwf [n1 H1] H12 [n2 H2] H34.
  destruct (acquire_granted _ _ _ _ _ Hwf H1) as (_ & Hwf1 & Hf1 & _).
  destruct (run_fence_mono _ _ id H12 Hwf1) as [Hwf2 Hle].
  destruct (acquire_granted _ _ _ _ _ Hwf2 H2) as (-> & Hwf3 & Hf3 & _). cbn [le_fence] in *.
  destruct (run_fence_mono _ _ id H34 Hwf3) as [Hwf4 Hle'].
  split; [lia|]. apply refused_stale; [done|lia].
Qed.

(** C17: no lost update.  Of two applied writes of a match's state the later one
    is under the same or a higher fence, and while the stored revision is
    neither deleted nor expired it expects at least the revision the earlier
    one left: no two applied writes extend the same revision. *)
Theorem applied_writes_linear id o1 o2 s0 s1 s2 s3 :
  fence_wf s0 id -> applies id o1 s0 s1 ->
  run_within (fun s => is_Some (r_get s (revisionKey id))) s1 s2 -> applies id o2 s2 s3 ->
  fs_expectedFence o1 <= fs_expectedFence o2
  /\ fs_nextRevision o1 = fs_expectedRevision o1 + 1
  /\ fs_nextRevision o1 <= fs_expectedRevision o2
  /\ r_get s3 (stateKey id) = Some (Blob (fs_blob o2))
  /\ revision_is s3 id (fs_nextRevision o2).
Proof.
  intros Hwf H1 H12 H2.
  destruct (applies_current _ _ _ _ Hwf H1) as (Hf1 & _ & Hwf1 & Hf1').
  destruct (run_fence_mono _ _ id (run_within_run _ _ _ H12) Hwf1) as [Hwf2 Hle].
  destruct (applies_current _ _ _ _ Hwf2 H2) as (Hf2 & _ & _ & _).
  unfold applies in *. rewrite fencedStateSet_cases in H1, H2.
  destruct (_ && _) eqn:E1 in H1; [|done]. destruct (_ && _) eqn:E2 in H2; [|done].
  injection H1 as <-. injection H2 as <-.
  apply andb_true_iff in E1 as [_ [_ Hn1]%revision_ok_spec].
  apply andb_true_iff in E2 as [_ [Hc2 _]%revision_ok_spec].
  destruct (run_within_revision _ _ id (fs_nextRevision o1) H12) as (e & He & Hrev).
  { unfold revision_is. redis_simpl. by rewrite decide_True. }
  unfold revision_is in *. split_and!; [lia|done| | |].
  - destruct Hc2 as [Hc2|[Hc2 _]]; rewrite Hrev in Hc2; [|done].
    injection Hc2 as <-%js_of_Z_inj. done.
  - redis_simpl. by key_cases.
  - redis_simpl. by key_cases.
Qed.

(** The writes common to both ways of requeueing. *)
Lemma requeue_writes id s :
  let s' := r_srem DEAD_LETTER_SET id (r_sadd ACTIVE_SET id (r_del (tombstoneKey id) s)) in
  r_get s' (stateKey id) = r_get s (stateKey id) /\ r_get s' (tombstoneKey id) = None
  /\ r_sismember s' ACTIVE_SET id = true /\ r_sismember s' DEAD_LETTER_SET id = false
  /\ r_get s' (ownerKey id) = r_get s (ownerKey id)
  /\ r_get s' (fenceKey id) = r_get s (fenceKey id)
  /\ r_volatile s' (fenceKey id) = r_volatile s (fenceKey id).
Proof.
  cbn zeta. split_and!; try (by fence_keys); redis_simpl.
  - rewrite (bool_decide_true (ACTIVE_SET = ACTIVE_SET /\ id = id)) by done.
    rewrite (bool_decide_false (DEAD_LETTER_SET = ACTIVE_SET /\ _)) by (intros [H _]; by vm_compute in H).
    done.
  - by rewrite (bool_decide_true (DEAD_LETTER_SET = DEAD_LETTER_SET /\ id = id)) by done.
Qed.

(** The answer requeueing should give, from the parsed tombstone. *)
Definition requeue_answer (tomb : option jstr) (hasState ownerLive force : bool) : jstr :=
  match tomb with
  | None => js "NOT_TERMINAL"
  | Some t =>
      match parseTombstone t with
      | None => js "INVALID_TOMBSTONE"
      | Some (dead_letter, _) =>
          if negb hasState then js "NO_STATE"
          else if ownerLive && negb force then js "CONFLICT" else js "REQUEUED"
      | Some (_, _) => js "FINALIZED"
      end
  end.

(** C39: requeueing is all or nothing.  On a match whose counter is below
    [2^62] the script never fails and answers by the parsed tombstone, the
    state, the owner and [force].  Any answer but REQUEUED leaves the store
    untouched; REQUEUED keeps the state, lifts the tombstone, moves the match
    from the dead-letter set to the active set, and revokes and fences out a
    live owner. *)
Theorem requeue_all_or_nothing id force s o s' :
  fence_wf s id -> fence_of s id < 2 ^ 62 ->
  exec_cmd (RequeueDeadLetter id force) s = (o, s') ->
  let ownerLive := negb (vacant (r_get s (ownerKey id))) in
  let answer := requeue_answer (text_of <$> r_get s (tombstoneKey id))
                  (bool_decide (is_Some (r_get s (stateKey id)))) ownerLive force in
  o = Ok answer
  /\ if bool_decide (answer = js "REQUEUED")
     then r_get s' (stateKey id) = r_get s (stateKey id)
          /\ r_get s' (tombstoneKey id) = None
          /\ r_sismember s' ACTIVE_SET id = true /\ r_sismember s' DEAD_LETTER_SET id = false
          /\ if ownerLive
             then r_get s' (ownerKey id) = None /\ refused id (fence_of s id) s'
             else r_get s' (ownerKey id) = r_get s (ownerKey id) /\ fence_of s' id = fence_of s id
     else s' = s.
Proof.
  intros Hwf Hlt. unfold_cmd. unfold requeue_answer.
  destruct (text_of <$> r_get s (tombstoneKey id)) as [t|]; [|by intros [= <- <-]].
  rewrite requeue_gate_agrees.
  destruct (parseTombstone t) as [[[] f]|]; try (by intros [= <- <-]).
  destruct (bool_decide (is_Some (r_get s (stateKey id)))); cbn [negb]; [|by intros [= <- <-]].
  destruct (vacant (r_get s (ownerKey id))) eqn:Ho; cbn [negb andb fst snd].
  - intros [= <- <-]. split; [done|]. rewrite bool_decide_true by done.
    destruct (requeue_writes id s) as (? & ? & ? & ? & ? & Hf & Hv). split_and!; try done.
    apply (fence_same_at s _ id Hf Hv Hwf).
  - destruct force; cbn [negb]; [|by intros [= <- <-]].
    destruct (fence_same_at s (r_del (ownerKey id) s) id) as [Hwf0 Hf0]; [by fence_keys..|done|].
    destruct (r_incr_total id (r_del (ownerKey id) s) Hwf0) as (n & s1 & Hi); [lia|].
    rewrite Hi. intros [= <- <-]. split; [done|]. rewrite bool_decide_true by done.
    destruct (requeue_writes id s1) as (Hs & ? & ? & ? & Ho' & Hf & Hv).
    destruct (fence_incr_at id _ n s1 Hwf0 Hi) as (-> & _ & Hwf1 & Hf1).
    destruct (fence_same_at s1 _ id Hf Hv Hwf1) as [Hwf' Hf'].
    split_and!; try done; [..|apply refused_stale; [done|lia]].
    + rewrite Hs, (get_incr _ _ _ _ _ Hi). by fence_keys.
    + rewrite Ho', (get_incr _ _ _ _ _ Hi). by fence_keys.
Qed.
End Server.

(** ** Witnesses, on the concrete store *)

Abbreviation demo_store := (store unit).
Definition demo0 : demo_store := mkStore ∅ ∅.
Definition demo_id : jstr := js "m".
Definition demo_acquire (nodeId : jstr) : demo_store -> outcome exn Acquired * demo_store :=
  exec_cmd (AcquireMatchLease demo_id nodeId).
Definition demo1 : demo_store := (demo_acquire (js "a") demo0).2.
Definition demo2 : demo_store := r_expire (ownerKey demo_id) demo1.
Definition demo3 : demo_store := (demo_acquire (js "b") demo2).2.
Definition demo_lease (nodeId : jstr) (n : Z) : Lease := mkLease n (leaseValue nodeId n).
Definition demo_set (nodeId : jstr) (f e : Z) : FencedSet :=
  mkFencedSet (leaseValue nodeId f) f tt STATE_TTL_SEC e (e + 1).
Definition demo4 : demo_store := (exec_cmd (FencedStateSet demo_id (demo_set (js "a") 1 0)) demo1).2.
Definition demo5 : demo_store := r_expire (ownerKey demo_id) demo4.
Definition demo6 : demo_store := (demo_acquire (js "b") demo5).2.
Definition demo7 : demo_store := (exec_cmd (FencedStateSet demo_id (demo_set (js "b") 2 1)) demo6).2.
Definition demo8 : demo_store :=
  (exec_cmd (FinalizeMatchTombstone demo_id (leaseValue (js "b") 2) 2 dead_letter) demo7).2.
Definition demo9 : demo_store := (exec_cmd (RequeueDeadLetter demo_id true) demo8).2.

Lemma demo_fence0 : fence_wf demo0 demo_id.
Proof. split; [by vm_compute|left; by vm_compute]. Qed.

Lemma demo_fence8 : fence_wf demo8 demo_id.
Proof. split; [by vm_compute|]. right. exists 2. split; [lia|by vm_compute]. Qed.

(** Node [a] acquires, its lease expires, node [b] takes over: [a]'s fence is dead. *)
Lemma takeover_fences_out_witness :
  grants demo_id (demo_lease (js "a") 1) demo0 demo1
  /\ refused demo_id 1 demo3.
Proof.
  assert (grants demo_id (demo_lease (js "a") 1) demo0 demo1) as H1
    by (exists (js "a"); vm_compute; reflexivity).
  assert (grants demo_id (demo_lease (js "b") 2) demo2 demo3) as H2
    by (exists (js "b"); vm_compute; reflexivity).
  assert (run demo1 demo2) as H12
    by (apply run_step with demo2; [apply step_expire; vm_compute; reflexivity|apply run_refl]).
  split; [exact H1|].
  exact (proj2 (takeover_fences_out demo_id _ _ _ _ _ _ _ demo_fence0 H1 H12 H2 (run_refl demo3))).
Defined.

(** The write of [a], then the takeover and the write of [b] on top of it. *)
Lemma applied_writes_linear_witness :
  applies demo_id (demo_set (js "b") 2 1) demo6 demo7
  /\ r_get demo7 (stateKey demo_id) = Some (Blob tt).
Proof.
  assert (fence_wf demo1 demo_id) as Hwf.
  { split; [by vm_compute|]. right. exists 1. split; [lia|by vm_compute]. }
  assert (applies demo_id (demo_set (js "a") 1 0) demo1 demo4) as H1 by (vm_compute; reflexivity).
  assert (applies demo_id (demo_set (js "b") 2 1) demo6 demo7) as H2 by (vm_compute; reflexivity).
  split; [exact H2|].
  refine (proj1 (proj2 (proj2 (proj2
    (applied_writes_linear demo_id _ _ demo1 demo4 demo6 demo7 Hwf H1 _ H2))))).
  apply within_step with demo5; [eexists; by vm_compute|apply step_expire; by vm_compute|].
  apply within_step with demo6; [eexists; by vm_compute|apply (step_cmd (AcquireMatchLease demo_id (js "b")))|].
  apply within_refl. eexists. by vm_compute.
Defined.

(** A forced requeue over a live owner. *)
Lemma requeue_all_or_nothing_witness :
  exec_cmd (RequeueDeadLetter demo_id true) demo8 = (Ok (js "REQUEUED"), demo9)
  /\ refused demo_id (fence_of demo8 demo_id) demo9.
Proof.
  assert (exec_cmd (RequeueDeadLetter demo_id true) demo8 = (Ok (js "REQUEUED"), demo9)) as H
    by (vm_compute; reflexivity).
  split; [exact H|].
  exact (proj2 (proj2 (proj2 (proj2 (proj2 (proj2
    (requeue_all_or_nothing demo_id true demo8 _ _ demo_fence8 ltac:(by vm_compute) H))))))).
Defined.
