(* ===== verification/FinishMatch.v ===== *)
(** * [match.service.ts]: the end of a match in the database

    [finishMatch] claims the match row, writes scores, statistics and ratings
    of every player and frees the room, in one transaction.  The database is
    the interface [MatchDb]; a transaction that throws leaves it as it was. *)

From Stdlib Require Import Reals Lra QArith.
From S2P Require Import Prelude JsData Effects Shared Cards Prng CardEngine Scoring.
From S2P Require Import TieBreak TopicVoting ClassEngine Machine MachineCards MachineOps MachineRounds.
From S2P Require Import EloTiers EloEngine.
#[local] Open Scope Z_scope.

(** ** What the event log says *)

(** The entries of the Map [cardsPlayedByUser]; an empty id is not counted. *)
Definition count_card (counts : JsMap jstr Z) (entry : Event) : JsMap jstr Z :=
  match ev_payload entry with
  | E_CARD_RESOLVED payload =>
      let playerId := cr_playedByPlayerId payload in
      if bool_decide (playerId = []) then counts
      else map_set playerId (default 0 (map_get playerId counts) + 1) counts
  | _ => counts
  end.
Definition cardsPlayedByUser (log : list Event) : JsMap jstr Z := foldl count_card [] log.

Definition note_classes (classes : JsMap jstr ClassId) (entry : Event) : JsMap jstr ClassId :=
  match ev_payload entry with
  | E_CLASS_ASSIGNED _ assignments _ =>
      foldl (fun cs a => map_set (ca_playerId a) (ca_classId a) cs) classes assignments
  | _ => classes
  end.
Definition classByUser (log : list Event) : JsMap jstr ClassId := foldl note_classes [] log.

Definition note_eliminated (roundNo : Z) (ids : list jstr) (rounds : JsMap jstr Z) : JsMap jstr Z :=
  foldl (fun rs playerId => map_set playerId roundNo rs) rounds ids.
Definition note_verdict (rounds : JsMap jstr Z) (entry : Event) : JsMap jstr Z :=
  match ev_payload entry with
  | E_ROUND_EVALUATED roundNo _ _ _ eliminatedIds => note_eliminated roundNo eliminatedIds rounds
  | _ => rounds
  end.
Definition eliminatedRoundByUser (log : list Event) : JsMap jstr Z := foldl note_verdict [] log.

(** ** The database *)

Record ScoreRow := mkScoreRow {
  sr_score : Z;
  sr_cardsPlayed : Z;
  sr_classId : option ClassId;
  sr_eloBefore : option R;
  sr_eloAfter : option R;
  sr_eloDelta : option R;
}.

(** The [where] and the [data] of [match.updateMany]. *)
Record MatchWhere := mkMatchWhere {
  mw_id : jstr;
  mw_status_not : option MatchStatus;
}.
Record MatchData := mkMatchData {
  md_status : MatchStatus;
  md_winnerId : option jstr;
  md_endedAt : Z;
}.

Class MatchDb (D : Type) := {
  (** [match.updateMany]: the count. *)
  db_update_matches : MatchWhere -> MatchData -> D -> Z * D;
  (** The status of the row of a match. *)
  db_status : D -> jstr -> option MatchStatus;
  (** [user.findMany] of the ids: the rows found, in any order. *)
  db_elo : D -> list jstr -> list (jstr * R);
  (** [matchPlayer.updateMany] of a player of a match. *)
  db_score : jstr -> jstr -> ScoreRow -> D -> D;
  (** [user.updateMany] of the ids: an increment of the rating. *)
  db_increment : list jstr -> R -> D -> D;
  (** [room.update]: an error when the room does not exist. *)
  db_finish_room : jstr -> D -> option D;
}.

(** The condition as the database reads it. *)
Definition meets {D : Type} `{!MatchDb D} (w : MatchWhere) (d : D) : bool :=
  match db_status d (mw_id w) with
  | None => false
  | Some status => negb (bool_decide (mw_status_not w = Some status))
  end.

Class MatchDbLaws (D : Type) `{!MatchDb D} := {
  update_count w x d : (db_update_matches w x d).1 = if meets w d then 1 else 0;
  update_status w x d j :
    db_status (db_update_matches w x d).2 j
    = if bool_decide (j = mw_id w) && meets w d then Some (md_status x) else db_status d j;
  update_nothing w x d : meets w d = false -> (db_update_matches w x d).2 = d;
  status_score id u row d j : db_status (db_score id u row d) j = db_status d j;
  status_increment ids x d j : db_status (db_increment ids x d) j = db_status d j;
  status_room r d d' j : db_finish_room r d = Some d' -> db_status d' j = db_status d j;
}.

(** The match row exists and is FINISHED. *)
Definition db_finished {D : Type} `{!MatchDb D} (d : D) (id : jstr) : option bool :=
  (fun status => bool_decide (status = FINISHED)) <$> db_status d id.

(** ** Scores and ratings *)

Section Finish.
Context (localeCompare : jstr -> jstr -> Z).

#[local] Instance R_eq_dec : EqDecision R.
Proof. intros x y. exact (Req_EM_T x y). Defined.

(** The argument of [assignPlacements]. *)
Definition placement_input (stateMachine : Machine) (score : jstr * Z * option Q) : PlacementPlayer :=
  let '(userId, points, avgResponseMs) := score in
  let winnerId := ms_winnerId (getState stateMachine) in
  let isWinner := bool_decide (Some userId = winnerId) in
  mkPlacement userId points avgResponseMs
    (Some (if isWinner then ms_totalRounds (getState stateMachine)
           else default 0 (map_get userId (eliminatedRoundByUser (getEventLog stateMachine)))))
    None (Some isWinner).

Definition placedPlayers (stateMachine : Machine) : list (PlacementPlayer * Z) :=
  assignPlacements localeCompare (placement_input stateMachine <$> getPlayerScores stateMachine)
    (ms_winnerId (getState stateMachine)).

Definition elo_input (eloByUser : JsMap jstr R) (placed : PlacementPlayer * Z) : EloPlayerInput :=
  mkEloInput (pp_userId placed.1)
    (Some (default (IZR DEFAULT_ELO) (map_get (pp_userId placed.1) eloByUser)))
    placed.2 (pp_score placed.1).

(** [deltaToUserIds]: the users grouped by their change. *)
Definition deltaToUserIds (eloResults : list EloCalculationResult) : JsMap R (list jstr) :=
  foldl (fun groups r =>
           map_set (er_delta r) (default [] (map_get (er_delta r) groups) ++ [er_userId r]) groups)
    [] eloResults.

Definition score_row (stateMachine : Machine) (eloResultByUser : JsMap jstr EloCalculationResult)
    (score : jstr * Z * option Q) : ScoreRow :=
  let '(userId, points, _) := score in
  let eloRes := map_get userId eloResultByUser in
  mkScoreRow points
    (default 0 (map_get userId (cardsPlayedByUser (getEventLog stateMachine))))
    (map_get userId (classByUser (getEventLog stateMachine)))
    (er_currentElo <$> eloRes) (er_newElo <$> eloRes) (er_delta <$> eloRes).

Context {D : Type} `{!MatchDb D}.

Definition buildScoreUpdateOps (matchId : jstr) (stateMachine : option Machine)
    (playerScores : list (jstr * Z * option Q)) (tx : D) : outcome exn D :=
  match stateMachine with
  | None => Throw (JsError "state machine not found in memory or Redis")
  | Some sm =>
      if bool_decide (playerScores = []) then Throw (JsError "state machine has empty player scores")
      else
        let userIds := set_of_list ((fun '(userId, _, _) => userId) <$> playerScores) in
        let eloByUser := map_of_entries (db_elo tx userIds) in
        match calculateMultiplayerElo (elo_input eloByUser <$> placedPlayers sm) (IZR DEFAULT_K_FACTOR) with
        | Throw e => Throw e
        | Ok eloResults =>
            let eloResultByUser := map_of_entries ((fun r => (er_userId r, r)) <$> eloResults) in
            let scored :=
              foldl (fun d p => db_score matchId p.1.1 (score_row sm eloResultByUser p) d) tx playerScores in
            Ok (foldl (fun d '(delta, ids) => db_increment ids delta d) scored (deltaToUserIds eloResults))
        end
  end.

(** The transaction: the boolean is [claimed].  A throw rolls it back. *)
Definition finish_transaction (matchId : jstr) (winnerId : option jstr) (roomId : jstr)
    (isAdminTermination : bool) (stateMachine : option Machine) (endedAt : Z) (d : D)
    : outcome exn bool * D :=
  let '(count, d1) := db_update_matches (mkMatchWhere matchId (Some FINISHED))
                        (mkMatchData FINISHED winnerId endedAt) d in
  if count =? 0 then (Ok false, d1)
  else
    let playerScores := match stateMachine with Some sm => getPlayerScores sm | None => [] end in
    match (if isAdminTermination then Ok d1
           else buildScoreUpdateOps matchId stateMachine playerScores d1) with
    | Throw e => (Throw e, d)
    | Ok d2 =>
        match db_finish_room roomId d2 with
        | None => (Throw (JsError "room record not found"), d)
        | Some d3 => (Ok true, d3)
        end
    end.

(** ** The claim *)

Context `{!MatchDbLaws D}.

Lemma finished_scores (l : list (jstr * Z * option Q)) matchId f d j :
  db_finished (foldl (fun d p => db_score matchId p.1.1 (f p) d) d l) j = db_finished d j.
Proof. revert d. induction l as [|p l IH]; intros d; cbn; [done|]. rewrite IH. unfold db_finished. by rewrite status_score. Qed.

Lemma finished_increments (l : JsMap R (list jstr)) d j :
  db_finished (foldl (fun d '(delta, ids) => db_increment ids delta d) d l) j = db_finished d j.
Proof.
  revert d. induction l as [|[x ids] l IH]; intros d; cbn; [done|]. rewrite IH. unfold db_finished. by rewrite status_increment.
Qed.

Lemma finished_build matchId sm scores d d' j :
  buildScoreUpdateOps matchId sm scores d = Ok d' -> db_finished d' j = db_finished d j.
Proof.
  unfold buildScoreUpdateOps. destruct sm as [sm|]; [|done]. case_bool_decide; [done|].
  cbn zeta. destruct (calculateMultiplayerElo _ _) as [res|e]; [|done].
  intros [= <-]. by rewrite finished_increments, finished_scores.
Qed.

(** The condition of the claim: the row is there and unfinished. *)
Lemma meets_unfinished matchId d :
  meets (mkMatchWhere matchId (Some FINISHED)) d = bool_decide (db_finished d matchId = Some false).
Proof.
  unfold meets, db_finished. cbn. destruct (db_status d matchId) as [status|]; cbn; [|by rewrite bool_decide_eq_false_2].
  by destruct status.
Qed.

(** A transaction that does not claim leaves the database. *)
Lemma finish_unclaimed matchId winnerId roomId admin sm t d o d' :
  finish_transaction matchId winnerId roomId admin sm t d = (o, d') -> o <> Ok true -> d' = d.
Proof.
  unfold finish_transaction. set (w := mkMatchWhere _ _). set (x := mkMatchData _ _ _).
  pose proof (update_nothing w x d) as Hn. pose proof (update_count w x d) as Hc.
  destruct (db_update_matches w x d) as [count d1]. cbn [fst snd] in Hn, Hc.
  destruct (count =? 0) eqn:E.
  { bool_to_prop. intros [= <- <-] _. apply Hn. destruct (meets w d); [lia|done]. }
  destruct admin; [|destruct (buildScoreUpdateOps _ _ _ _); [|by intros [= <- <-]]].
  all: destruct (db_finish_room _ _); intros [= <- <-]; done.
Qed.

Lemma finish_claims matchId winnerId roomId admin sm t d d' :
  finish_transaction matchId winnerId roomId admin sm t d = (Ok true, d') ->
  db_finished d matchId = Some false /\ db_finished d' matchId = Some true.
Proof.
  unfold finish_transaction. pose proof (meets_unfinished matchId d) as Hm.
  set (w := mkMatchWhere _ _) in *. set (x := mkMatchData _ _ _).
  pose proof (update_count w x d) as Hc. pose proof (update_status w x d matchId) as Hf.
  destruct (db_update_matches w x d) as [count d1]. cbn [fst snd] in Hc, Hf.
  destruct (count =? 0) eqn:E; [done|]. apply Z.eqb_neq in E.
  destruct (meets w d) eqn:Ew; [|lia]. symmetry in Hm. bool_to_prop.
  rewrite bool_decide_eq_true_2 in Hf by done. cbn in Hf.
  assert (Hf1 : db_finished d1 matchId = Some true) by (unfold db_finished; by rewrite Hf).
  intros Hrun. split; [done|].
  destruct admin; [|destruct (buildScoreUpdateOps _ _ _ _) as [d2|] eqn:Hb; [|done]];
    (destruct (db_finish_room _ _) as [d3|] eqn:Hr; [|done]); injection Hrun as <-;
    unfold db_finished; rewrite (status_room _ _ _ _ Hr); fold (db_finished d1 matchId); [done|].
  fold (db_finished d2 matchId). by rewrite (finished_build _ _ _ _ _ _ Hb).
Qed.

(** C31: a match is finished once, completely or not at all.  A transaction that
    claims the match found it unfinished and leaves it finished; every later
    attempt, with whatever winner, room, machine or admin flag, reports that it
    did not claim and writes nothing; and an attempt that throws (no machine,
    no scores, a rating that is not finite, a missing room) has written
    nothing, so that no player is scored or rated twice. *)
Theorem finish_at_most_once matchId winnerId roomId admin sm t d o d' :
  finish_transaction matchId winnerId roomId admin sm t d = (o, d') ->
  (o = Ok true -> db_finished d matchId = Some false /\ db_finished d' matchId = Some true
     /\ forall winnerId' roomId' admin' sm' t',
          finish_transaction matchId winnerId' roomId' admin' sm' t' d' = (Ok false, d'))
  /\ (o <> Ok true -> d' = d).
Proof.
  intros Hrun. split; [intros ->|by intros; eapply finish_unclaimed].
  destruct (finish_claims _ _ _ _ _ _ _ _ Hrun) as [H0 H1]. split_and!; [done|done|].
  intros w r a sm' t'. unfold finish_transaction. pose proof (meets_unfinished matchId d') as Hm.
  rewrite H1, bool_decide_eq_false_2 in Hm by done. set (wh := mkMatchWhere _ _) in *. set (x := mkMatchData _ _ _).
  pose proof (update_count wh x d') as Hc. pose proof (update_nothing wh x d' Hm) as Hn. rewrite Hm in Hc.
  destruct (db_update_matches wh x d') as [count d1]. cbn [fst snd] in *. by subst.
Qed.

(** ** Ratings *)

(** What the grouped increments add to a user's rating. *)
Definition increment_of (groups : JsMap R (list jstr)) (userId : jstr) : R :=
  Rsum ((fun '(delta, ids) => if decide (userId ∈ ids) then delta else 0%R) <$> groups).

Definition with_delta (x : R) (results : list EloCalculationResult) : list jstr :=
  er_userId <$> filter (fun r => er_delta r = x) results.

Lemma groups_wf results : map_wf (deltaToUserIds results).
Proof.
  unfold deltaToUserIds. induction results as [|r l IH] using rev_ind; [constructor|].
  rewrite foldl_app. cbn. by apply map_set_wf.
Qed.

Lemma groups_get results x :
  default [] (map_get x (deltaToUserIds results)) = with_delta x results.
Proof.
  unfold deltaToUserIds, with_delta. induction results as [|r l IH] using rev_ind; [done|].
  rewrite foldl_app, filter_app, fmap_app. cbn [foldl]. rewrite <- IH.
  destruct (decide (er_delta r = x)) as [<-|Hne].
  - rewrite map_get_set_eq, filter_cons_True by done. done.
  - rewrite map_get_set_ne by congruence. rewrite filter_cons_False by done. by rewrite app_nil_r.
Qed.

Lemma Rsum_one {A} (f : A -> R) (l : list A) (x : A) :
  NoDup l -> x ∈ l -> (forall y, y ∈ l -> y <> x -> f y = 0%R) -> Rsum (f <$> l) = f x.
Proof.
  induction 1 as [|z l Hz Hd IH]; [by intros ?%elem_of_nil|]. intros Hx Hf. cbn.
  apply elem_of_cons in Hx as [->|Hx].
  - replace (Rsum (f <$> l)) with 0%R; [lra|]. clear IH Hd.
    induction l as [|y l IH]; [done|]. cbn. rewrite <- IH.
    + rewrite (Hf y); [lra|set_solver|set_solver].
    + set_solver.
    + intros y' Hy'. apply Hf. set_solver.
  - rewrite (Hf z); [|set_solver|by intros ->]. rewrite IH; [lra|done|].
    intros y Hy. apply Hf. set_solver.
Qed.

(** The increments are those of the results. *)
Lemma increment_of_results results r :
  NoDup (er_userId <$> results) -> r ∈ results ->
  increment_of (deltaToUserIds results) (er_userId r) = er_delta r.
Proof.
  intros Hd Hr. unfold increment_of.
  assert (Hu : forall r', r' ∈ results -> er_userId r' = er_userId r -> r' = r).
  { intros r' Hr' He. apply list_elem_of_lookup in Hr as [i Hi].
    apply list_elem_of_lookup in Hr' as [j Hj].
    enough (j = i) as -> by congruence.
    eapply NoDup_lookup; [exact Hd|by rewrite list_lookup_fmap, Hj|by rewrite list_lookup_fmap, Hi, He]. }
  assert (Hin : forall x, er_userId r ∈ with_delta x results <-> x = er_delta r).
  { intros x. unfold with_delta. rewrite list_elem_of_fmap. split.
    - intros (r' & He & [Hx Hr']%list_elem_of_filter). rewrite (Hu r') in Hx by done. done.
    - intros ->. exists r. split; [done|]. by apply list_elem_of_filter. }
  pose proof (groups_get results (er_delta r)) as Hg.
  destruct (map_get (er_delta r) (deltaToUserIds results)) as [ids|] eqn:E.
  2: { pose proof (proj2 (Hin _) eq_refl) as H. rewrite <- Hg in H. by apply elem_of_nil in H. }
  cbn in Hg. rewrite (Rsum_one _ _ (er_delta r, ids)).
  - rewrite decide_True; [done|]. rewrite Hg. by apply Hin.
  - apply NoDup_fmap_1 with fst, groups_wf.
  - by apply map_get_Some_elem.
  - intros [x ids'] Hx Hne. case_decide as Hc; [|done]. exfalso. apply Hne.
    apply (map_get_elem _ _ _ (groups_wf results)) in Hx.
    pose proof (groups_get results x) as Hg'. rewrite Hx in Hg'. cbn in Hg'. rewrite Hg' in Hc.
    apply Hin in Hc. congruence.
Qed.

Lemma calculated_users (inputs : list EloPlayerInput) k results :
  calculateMultiplayerElo inputs k = Ok results ->
  er_userId <$> results = ei_userId <$> inputs
  /\ Forall (fun r => er_delta r = (er_newElo r - er_currentElo r)%R) results.
Proof.
  unfold calculateMultiplayerElo. destruct (negb _); [done|].
  destruct inputs as [|p [|q l]]; intros H.
  - injection H as <-. by split.
  - injection H as <-. split; [done|]. repeat constructor. cbn. lra.
  - set (all := p :: q :: l) in *. set (kn := (k / _)%R) in H.
    assert (results = imap (updated kn all) all) as -> by congruence. clear H. split.
    + apply list_eq. intros i. rewrite !list_lookup_fmap, list_lookup_imap. by destruct (all !! i).
    + apply Forall_lookup. intros i r. rewrite list_lookup_imap.
      destruct (all !! i); [|done]. intros [= <-]. done.
Qed.

Lemma elo_inputs_finite eloByUser placed : all_finite (elo_input eloByUser <$> placed).
Proof. unfold all_finite. apply Forall_fmap, Forall_true. intros p. by eexists. Qed.

Lemma calculate_total players k : all_finite players -> exists results, calculateMultiplayerElo players k = Ok results.
Proof.
  intros Hf. unfold calculateMultiplayerElo. rewrite (proj2 (forallb_forall _ _)); [cbn; repeat case_match; eauto|].
  intros p Hp. apply bool_decide_eq_true. unfold all_finite in Hf. rewrite Forall_forall in Hf.
  by apply Hf, list_elem_of_In.
Qed.

(** With a machine that has players, the scores are always written. *)
Lemma build_total matchId sm (d : D) :
  getPlayerScores sm <> [] ->
  exists d', buildScoreUpdateOps matchId (Some sm) (getPlayerScores sm) d = Ok d'.
Proof.
  intros Hne. unfold buildScoreUpdateOps. rewrite bool_decide_eq_false_2 by done. cbn zeta.
  destruct (calculate_total _ (IZR DEFAULT_K_FACTOR) (elo_inputs_finite
    (map_of_entries (db_elo d (set_of_list ((fun '(userId, _, _) => userId) <$> getPlayerScores sm))))
    (placedPlayers sm))) as [results ->]. eauto.
Qed.

Context `{!Comparator localeCompare}.

(** The users of a match, in placement order. *)
Lemma placed_users sm :
  (fun p : PlacementPlayer * Z => pp_userId p.1) <$> placedPlayers sm ≡ₚ (ms_players (m_state sm)).*1.
Proof.
  change (fun p : PlacementPlayer * Z => pp_userId p.1) with (pp_userId ∘ @fst PlacementPlayer Z).
  unfold placedPlayers. rewrite list_fmap_compose, placed_fst.
  rewrite js_sort_perm. unfold getPlayerScores. rewrite <- !list_fmap_compose.
  match goal with |- ?f <$> ?l ≡ₚ ?g <$> ?l => assert (f <$> l = g <$> l) as ->; [|done] end.
  apply list_fmap_ext. by intros _ [userId p] _.
Qed.

(** The plays of a user in a log. *)
Definition plays (u : jstr) (e : Event) : bool :=
  match ev_payload e with
  | E_CARD_RESOLVED payload => bool_decide (cr_playedByPlayerId payload = u)
  | _ => false
  end.

Lemma cards_counted log u :
  u <> [] ->
  default 0 (map_get u (cardsPlayedByUser log)) = Z.of_nat (length (filter (plays u) log)).
Proof.
  intros Hu. unfold cardsPlayedByUser. induction log as [|e l IH] using rev_ind; [done|].
  rewrite foldl_app, filter_app, length_app, Nat2Z.inj_add, <- IH. cbn [foldl].
  unfold count_card at 1. destruct (plays u e) eqn:Hp.
  - rewrite filter_cons_True by (by rewrite Hp). cbn [length]. unfold plays in Hp.
    destruct (ev_payload e); try done. bool_to_prop.
    rewrite bool_decide_eq_false_2 by congruence. subst. rewrite map_get_set_eq. done.
  - rewrite filter_cons_False by (rewrite Hp; tauto). cbn. rewrite Z.add_0_r. unfold plays in Hp.
    destruct (ev_payload e); try done. bool_to_prop. case_bool_decide; [done|].
    by rewrite map_get_set_ne by congruence.
Qed.

(** What a finished match writes.  When the scores of a match with distinct
    players are written, every player's row carries their score, the number of
    cards they played, a rating before, one after and the difference of the two, and the
    grouped increments move each player's rating by exactly that difference. *)
Theorem scores_and_ratings matchId sm (d d' : D) :
  map_wf (ms_players (m_state sm)) ->
  buildScoreUpdateOps matchId (Some sm) (getPlayerScores sm) d = Ok d' ->
  exists results,
    let byUser := map_of_entries ((fun r => (er_userId r, r)) <$> results) in
    d' = foldl (fun d '(delta, ids) => db_increment ids delta d)
           (foldl (fun d p => db_score matchId p.1.1 (score_row sm byUser p) d) d (getPlayerScores sm))
           (deltaToUserIds results)
    /\ forall u player, map_get u (ms_players (m_state sm)) = Some player -> u <> [] ->
       exists before after classId,
         (exists avg, (u, pl_score player, avg) ∈ getPlayerScores sm
            /\ score_row sm byUser (u, pl_score player, avg)
               = mkScoreRow (pl_score player)
                   (Z.of_nat (length (filter (plays u) (getEventLog sm)))) classId
                   (Some before) (Some after) (Some (after - before)%R))
         /\ increment_of (deltaToUserIds results) u = (after - before)%R.
Proof.
  intros Hwf. unfold buildScoreUpdateOps. case_bool_decide; [done|]. cbn zeta.
  destruct (calculateMultiplayerElo _ _) as [results|e] eqn:Hc; [|done]. intros [= <-].
  exists results. split; [done|]. intros u player Hu Hne.
  destruct (calculated_users _ _ _ Hc) as [Hids Hdelta].
  assert (er_userId <$> results ≡ₚ (ms_players (m_state sm)).*1) as Hperm.
  { rewrite Hids, <- list_fmap_compose. exact (placed_users sm). }
  assert (NoDup (er_userId <$> results)) as Hd by (rewrite Hperm; exact Hwf).
  assert (u ∈ er_userId <$> results) as Hin.
  { rewrite Hperm. apply list_elem_of_fmap. exists (u, player). split; [done|].
    by apply map_get_Some_elem. }
  apply list_elem_of_fmap in Hin as (r & -> & Hr).
  pose proof (proj1 (Forall_forall _ _) Hdelta r Hr) as Hdr. cbn beta in Hdr.
  exists (er_currentElo r), (er_newElo r), (map_get (er_userId r) (classByUser (getEventLog sm))).
  split; [|by rewrite increment_of_results].
  eexists. split.
  - unfold getPlayerScores. apply list_elem_of_fmap. exists (er_userId r, player).
    split; [reflexivity|]. by apply map_get_Some_elem.
  - unfold score_row. rewrite cards_counted by done.
    rewrite (map_get_elem _ r); [cbn; by rewrite Hdr|apply map_of_entries_wf|].
    rewrite map_of_entries_id by (unfold map_wf; by rewrite <- list_fmap_compose).
    apply list_elem_of_fmap. by exists r.
Qed.
End Finish.

(** ** Placements and the rounds survived *)

Definition verdict (e : Event) : option (Z * list jstr) :=
  match ev_payload e with E_ROUND_EVALUATED no _ _ _ ids => Some (no, ids) | _ => None end.

(** The evaluated rounds of a match, with the players each eliminated. *)
Definition verdicts (m : Machine) : list (Z * list jstr) := omap verdict (m_log m).

Lemma note_eliminated_get n ids rounds p :
  map_get p (note_eliminated n ids rounds) = if decide (p ∈ ids) then Some n else map_get p rounds.
Proof.
  unfold note_eliminated. induction ids as [|q l IH] using rev_ind; [done|].
  rewrite foldl_app. cbn [foldl]. destruct (decide (p = q)) as [->|Hne].
  - by rewrite map_get_set_eq, decide_True by set_solver.
  - rewrite map_get_set_ne, IH by done. by do 2 case_decide; set_solver.
Qed.

Lemma eliminatedRoundByUser_verdicts log :
  eliminatedRoundByUser log
  = foldl (fun rounds v => note_eliminated v.1 v.2 rounds) [] (omap verdict log).
Proof.
  unfold eliminatedRoundByUser. induction log as [|e l IH] using rev_ind; [done|].
  rewrite foldl_app, omap_snoc, foldl_app, <- IH. cbn [foldl]. unfold note_verdict at 1, verdict.
  by destruct (ev_payload e).
Qed.

Lemma verdicts_length m : Z.of_nat (length (verdicts m)) = evaluated_rounds m.
Proof.
  unfold verdicts, evaluated_rounds. f_equal. induction (m_log m) as [|e l IH]; [done|].
  cbn [omap list_omap]. unfold verdict at 1, is_evaluation.
  destruct (ev_payload e) eqn:E; cbn [omap option_bind];
    first [rewrite filter_cons_False by (rewrite E; tauto); exact IH
          |rewrite filter_cons_True by (rewrite E; exact I); cbn; by f_equal].
Qed.

Lemma verdicts_after op m c : evaluates op = false -> verdicts (after op m c) = verdicts m.
Proof.
  intros Hop. unfold verdicts. destruct op; try discriminate; unfold_ops; run; state_simpl;
    chase_players; rewrite ?omap_snoc; cbn; rewrite ?app_nil_r; reflexivity.
Qed.

(** A round that is active was active before, or is the next one. *)
Lemma active_round_after op m c r' :
  evaluates op = false -> m_round (after op m c) = Some r' -> rd_status r' = RACTIVE ->
  (exists r, m_round m = Some r /\ rd_status r = RACTIVE /\ rd_roundNo r = rd_roundNo r'
             /\ ms_currentRoundNo (m_state (after op m c)) = ms_currentRoundNo (m_state m))
  \/ rd_roundNo r' = ms_currentRoundNo (m_state m) + 1
     /\ ms_currentRoundNo (m_state (after op m c)) = ms_currentRoundNo (m_state m) + 1.
Proof.
  intros Hop. destruct op; try discriminate; unfold_ops; run; state_simpl; chase_players; intros Hr Ha.
  all: try (left; exists r'; split_and!; [assumption|assumption|reflexivity|reflexivity]).
  all: try discriminate.
  all: try (injection Hr as <-; cbn [rd_status rd_roundNo rd_set_answers rd_set_status rd_set_correctAnswer] in *).
  all: try (right; split; reflexivity).
  all: try (left; eexists; split_and!; [first [eassumption|reflexivity]|assumption|reflexivity|reflexivity]).
  all: try (left; exists r'; split_and!; [congruence|assumption|reflexivity|reflexivity]).
  all: apply fmap_Some in Hr as (r0 & Hr0 & ->); left; exists r0; cbn beta in *.
  all: repeat case_bool_decide; try contradiction;
    (split_and!; [first [exact Hr0|congruence]|assumption|reflexivity|reflexivity]).
Qed.

Lemma currentRoundNo_after op m c :
  evaluates op = false ->
  ms_currentRoundNo (m_state m) <= ms_currentRoundNo (m_state (after op m c)).
Proof.
  intros Hop. destruct op; try discriminate; unfold_ops; run; state_simpl; chase_players; lia.
Qed.

(** The rounds are evaluated in order; an eliminated player's round is the one
    after those they answered. *)
Definition verdicts_ok (ids : list jstr) (m : Machine) : Prop :=
  records_ok ids m
  /\ StronglySorted Z.lt (verdicts m).*1
  /\ Forall (fun n => n <= ms_currentRoundNo (m_state m)) (verdicts m).*1
  /\ (forall r, m_round m = Some r -> rd_status r = RACTIVE ->
        rd_roundNo r <= ms_currentRoundNo (m_state m)
        /\ Forall (fun n => n < rd_roundNo r) (verdicts m).*1)
  /\ (forall p, p ∈ ms_eliminatedPlayerIds (m_state m) ->
        0 <= correct_of (ms_players (m_state m)) p
        /\ exists n, map_get p (eliminatedRoundByUser (m_log m)) = Some n
           /\ (verdicts m).*1 !! Z.to_nat (correct_of (ms_players (m_state m)) p) = Some n).

Lemma StronglySorted_snoc {A} (R : A -> A -> Prop) l x :
  StronglySorted R l -> Forall (fun y => R y x) l -> StronglySorted R (l ++ [x]).
Proof.
  induction 1 as [|y l Hs IH Hy]; intros Hx; cbn; [by repeat constructor|].
  apply Forall_cons in Hx as [Hyx Hx]. constructor; [by apply IH|].
  apply Forall_app. by split; [|constructor].
Qed.

Lemma correct_after_evaluation m c r p :
  m_round m = Some r -> m_elimFrozen m = false -> NoDup (round_starting m r) ->
  p ∉ round_starting m r \/ wrong_in r p = true ->
  correct_of (ms_players (m_state (run_state evaluateRound m c))) p
  = correct_of (ms_players (m_state m)) p.
Proof.
  intros Hr Hf Hd Hp. unfold run_state. rewrite (evaluateRound_run m c r Hr Hf). cbn [fst snd].
  unfold evaluated_machine. state_simpl. unfold correct_of. rewrite evaluate_loop_get by done.
  case_decide as Hin; [|done]. destruct Hp as [Hp|Hp]; [done|].
  destruct (map_get p _) as [x|]; [|done]. cbn. rewrite evaluated_outcome by done.
  unfold round_outcome. unfold wrong_in in Hp. by destruct (correct_in r p).
Qed.

Lemma verdicts_ok_evaluate ids m c :
  NoDup ids -> verdicts_ok ids m -> rd_status <$> m_round m = Some RACTIVE ->
  verdicts_ok ids (run_state evaluateRound m c).
Proof.
  intros Hd (Hre & Hso & Hle & Hac & Hel) Hop.
  pose proof (records_ok_evaluate ids m c Hd Hre Hop) as Hre'. split; [done|]. clear Hre'.
  destruct Hre as (Hro & Hk & Hsc & Hec).
  destruct (m_round m) as [r|] eqn:Hr; [|done]. cbn in Hop. injection Hop as Ha.
  pose proof (roster_ok_starting ids m r Hro Hr Ha) as Hst. destruct Hro as (Hp & _ & Hf).
  destruct (Hac r eq_refl Ha) as [Hno Hlt].
  destruct (m_elimFrozen m) eqn:Hfr.
  { rewrite (evaluateRound_frozen_state m c r Hr Hfr) by (by rewrite Hst, Hf).
    unfold verdicts. state_simpl. rewrite Hr. split_and!; try done. by intros ? [= <-]. }
  rewrite <- Hp in Hd. apply NoDup_app in Hd as (Hds & Hdis & _).
  assert (Hcor := fun p => correct_after_evaluation m c r p Hr Hfr ltac:(by rewrite Hst)).
  revert Hcor. unfold run_state. rewrite (evaluateRound_run m c r Hr Hfr). cbn [fst snd].
  unfold evaluated_machine, verdicts. state_simpl. rewrite omap_snoc. cbn [verdict ev_payload].
  change (option_list (Some ?x)) with [x].
  fold (verdicts m). rewrite fmap_app. cbn [fmap list_fmap fst]. rewrite Hr. intros Hcor. split_and!.
  - by apply StronglySorted_snoc.
  - apply Forall_app. split; [done|by repeat constructor].
  - by intros ? [= <-].
  - intros p Hin. rewrite eliminatedRoundByUser_verdicts, omap_snoc, foldl_app.
    cbn [verdict ev_payload]. change (option_list (Some ?x)) with [x]. cbn [foldl fst snd].
    rewrite <- eliminatedRoundByUser_verdicts.
    rewrite note_eliminated_get. apply elem_of_app in Hin as [Hin|Hin].
    + assert (p ∉ ms_survivingPlayerIds (m_state m)) as Hns by (intros Hs; by apply (Hdis p)).
      rewrite Hcor by (left; by rewrite Hst).
      rewrite decide_False by (rewrite eliminated_by_eq, Hst; intros [_ ?]%list_elem_of_filter; done).
      destruct (Hel p Hin) as (H0 & n & Hg & Hl). split; [done|]. exists n. split; [done|].
      by apply lookup_app_l_Some.
    + pose proof Hin as Hin'. rewrite eliminated_by_eq in Hin'.
      apply list_elem_of_filter in Hin' as [Hw Hin']. apply Is_true_true in Hw.
      rewrite Hcor by (by right). rewrite decide_True by done. rewrite Hst in Hin'.
      rewrite (Hsc p Hin'), <- verdicts_length. split; [lia|]. exists (rd_roundNo r). split; [done|].
      rewrite Nat2Z.id, <- (length_fmap fst). by apply list_lookup_middle.
Qed.

Lemma verdicts_ok_after ids op m c :
  NoDup ids -> verdicts_ok ids m -> evaluate_once m op -> verdicts_ok ids (after op m c).
Proof.
  intros Hd H Hop. destruct (evaluates op) eqn:Hev.
  - destruct op; try discriminate. unfold after, exec, discard, run_state, bind.
    pose proof (verdicts_ok_evaluate ids m c Hd H Hop) as He. unfold run_state in He.
    by destruct (evaluateRound m c) as [[[] ?] ?].
  - destruct H as (Hre & Hso & Hle & Hac & Hel).
    pose proof (same_stats_after op m c Hev) as Hst.
    pose proof (currentRoundNo_after op m c Hev) as Hcr.
    destruct (standing_after op m c Hev) as [Hsd _]. unfold standing in Hsd. injection Hsd as _ Hse.
    split; [by apply records_ok_after|].
    rewrite (verdicts_after op m c Hev), Hse, eliminatedRoundByUser_verdicts.
    fold (verdicts (after op m c)). rewrite (verdicts_after op m c Hev). split_and!.
    + done.
    + eapply Forall_impl; [exact Hle|]. cbn. lia.
    + intros r Hr Ha. destruct (active_round_after op m c r Hev Hr Ha)
        as [(r0 & Hr0 & Ha0 & Hn & Hc)|[Hn Hc]].
      * rewrite Hc, <- Hn. by apply Hac.
      * rewrite Hc, Hn. split; [done|]. eapply Forall_impl; [exact Hle|]. cbn. lia.
    + intros p Hp. rewrite (correct_of_stats _ _ Hst). destruct (Hel p Hp) as (H0 & n & Hg & Hl).
      split; [done|]. exists n. split; [|done].
      by rewrite eliminatedRoundByUser_verdicts in Hg.
Qed.

Lemma verdicts_ok_reachable matchId roomId (players : list PlayerInfo) m :
  NoDup (pl_id <$> players) -> Forall (fun p => pl_correctAnswers p = 0) players ->
  reachable (eq (new_machine matchId roomId players)) evaluate_once m ->
  verdicts_ok (pl_id <$> players) m.
Proof.
  intros Hd H0. apply reachable_inv; [|intros; by apply verdicts_ok_after].
  intros ? <-. split; [by apply records_ok_new|]. unfold verdicts. cbn.
  split_and!; [constructor|constructor|done|by intros ? ?%elem_of_nil].
Qed.

(** [evaluate_once] along a list of operations. *)
Fixpoint evaluates_once (ops : list Op) (m : Machine) (c : Clock) : bool :=
  match ops with
  | [] => true
  | op :: ops' =>
      (negb (evaluates op) || bool_decide (rd_status <$> m_round m = Some RACTIVE))
      && evaluates_once ops' (after op m c) c
  end.

Lemma exec_all_once Init ops m c :
  reachable Init evaluate_once m -> clock_in_range c -> evaluates_once ops m c = true ->
  reachable Init evaluate_once (exec_all ops m c).
Proof.
  intros Hm Hc. revert m Hm. induction ops as [|op ops IH]; intros m Hm; [done|].
  cbn [evaluates_once exec_all foldl]. intros [Hop Hops]%andb_true_iff.
  apply (IH (after op m c)); [|done]. apply reach_step; [done| |done].
  destruct op; try exact I. cbn in Hop. by apply bool_decide_eq_true_1 in Hop.
Qed.

Section Outlasting.
Context (localeCompare : jstr -> jstr -> Z) `{!Comparator localeCompare}.

Lemma placed_input sm a :
  a ∈ placedPlayers localeCompare sm ->
  exists score, score ∈ getPlayerScores sm /\ a.1 = placement_input sm score.
Proof.
  intros Ha. unfold placedPlayers in Ha. apply (list_elem_of_fmap_2 fst) in Ha.
  rewrite placed_fst in Ha. apply js_sort_elem, list_elem_of_fmap in Ha as (score & -> & Hs). eauto.
Qed.

(** The winner of the machine is the effective one. *)
Lemma placed_winner sm a :
  a ∈ placedPlayers localeCompare sm ->
  is_winner (effectiveWinnerId (placement_input sm <$> getPlayerScores sm) (ms_winnerId (m_state sm))) a.1
  = bool_decide (Some (pp_userId a.1) = ms_winnerId (m_state sm)).
Proof.
  intros Ha. destruct (placed_input sm a Ha) as ([[u pts] avg] & Hs & E). rewrite E. cbn.
  unfold effectiveWinnerId, is_winner, getState.
  destruct (ms_winnerId (m_state sm)) as [w|] eqn:Hw; [|done].
  destruct (negb _ && _) eqn:Hc; cbn; [apply bool_decide_ext; naive_solver|done].
Qed.

Lemma placed_rounds sm a :
  a ∈ placedPlayers localeCompare sm -> ms_winnerId (m_state sm) <> Some (pp_userId a.1) ->
  rounds_of a.1 = default 0 (map_get (pp_userId a.1) (eliminatedRoundByUser (m_log sm))).
Proof.
  intros Ha Hw. destruct (placed_input sm a Ha) as ([[u pts] avg] & _ & E). rewrite E in *. cbn in *.
  unfold getState, getEventLog. by rewrite bool_decide_eq_false_2 by congruence.
Qed.

(** Outlasting another player places better.  In a reachable match over
    distinct players, each round evaluated once, take two players of whom one
    answered more rounds correctly than the other and is the winner or was
    eliminated later: the first is placed strictly ahead of the other, unless
    the other is the declared winner. *)
Theorem outlasting_places_better matchId roomId (players : list PlayerInfo) m a b :
  NoDup (pl_id <$> players) -> Forall (fun p => pl_correctAnswers p = 0) players ->
  reachable (eq (new_machine matchId roomId players)) evaluate_once m ->
  a ∈ placedPlayers localeCompare m -> b ∈ placedPlayers localeCompare m ->
  let correct p := correct_of (ms_players (m_state m)) (pp_userId p) in
  correct b.1 < correct a.1 ->
  (ms_winnerId (m_state m) = Some (pp_userId a.1)
   \/ pp_userId a.1 ∈ ms_eliminatedPlayerIds (m_state m)) ->
  pp_userId b.1 ∈ ms_eliminatedPlayerIds (m_state m) ->
  ms_winnerId (m_state m) <> Some (pp_userId b.1) ->
  a.2 < b.2.
Proof.
  intros Hd H0 Hr Ha Hb correct Hlt Hwa Heb Hwb.
  destruct (verdicts_ok_reachable _ _ _ _ Hd H0 Hr) as (_ & Hso & _ & _ & Hel).
  destruct (Z.lt_ge_cases a.2 b.2) as [|Hle]; [done|]. exfalso.
  destruct (decide (a.2 = b.2)) as [Heq|Hne].
  { apply list_elem_of_lookup in Ha as [i Hi], Hb as [j Hj].
    apply placed_lookup in Hi as [Hi Hi2], Hj as [Hj Hj2].
    assert (i = j) as -> by lia. assert (a.1 = b.1) as E by congruence. unfold correct in Hlt.
    rewrite E in Hlt. lia. }
  pose proof (placed_order localeCompare _ _ b a Hb Ha ltac:(lia)) as Hcmp.
  pose proof (placed_winner m a Ha) as Hia. pose proof (placed_winner m b Hb) as Hib.
  rewrite (bool_decide_eq_false_2 (Some (pp_userId b.1) = _)) in Hib by congruence.
  apply placement_cmp_rounds in Hcmp as [Hw Hrounds]; [|by rewrite <- Hib].
  assert (ms_winnerId (m_state m) <> Some (pp_userId a.1)) as Hwa'.
  { intros E. rewrite bool_decide_eq_true_2 in Hia by done. unfold getState in Hw. congruence. }
  rewrite (placed_rounds m a Ha), (placed_rounds m b Hb) in Hrounds by congruence.
  destruct Hwa as [|Hea]; [congruence|].
  destruct (Hel _ Hea) as (Hca & na & Hga & Hla), (Hel _ Heb) as (Hcb & nb & Hgb & Hlb).
  rewrite Hga, Hgb in Hrounds.
  assert (nb < na); [|cbn in Hrounds; lia].
  eapply (StronglySorted_at Z.lt _ _ _ _ _ Hso); [|exact Hlb|exact Hla]. unfold correct in Hlt. lia.
Qed.
End Outlasting.

(** ** A finalist who does not win *)

(** One round: p1 and p2 answer correctly, p3 does not; the match then ends with
    two survivors. *)
Definition two_finalists_ops : list Op :=
  [OTransition COUNTDOWN; OTransition ROUND_ACTIVE; OStartRound demo_question None;
   OSubmitAnswer (js "p1") (js "B") 1200 (Some (js "s1"));
   OSubmitAnswer (js "p2") (js "B") 1300 (Some (js "s2"));
   OTransition ROUND_EVALUATING; OEvaluateRound; OTransition ROUND_RESULT;
   OFinishMatch; OTransition FINISHED].
Definition two_finalists : Machine := exec_all two_finalists_ops demo_start demo_clock.

(** A finalist who does not win is placed behind players eliminated before.
    The rounds a player survived are taken from the elimination events and
    default to zero, which is also what a surviving player gets: when a match
    ends with two survivors, here after one round, p2, who answered it and is
    still standing, is placed third, behind p3, who was eliminated. *)
Theorem finalist_placed_last :
  ms_survivingPlayerIds (m_state two_finalists) = [js "p1"; js "p2"]
  /\ ms_winnerId (m_state two_finalists) = Some (js "p1")
  /\ (fun p : PlacementPlayer * Z => (pp_userId p.1, p.2)) <$> placedPlayers str_cmp two_finalists
     = [(js "p1", 1); (js "p3", 2); (js "p2", 3)].
Proof. vm_compute. by repeat split. Qed.

(** ** Witnesses *)

(** A database of four tables. *)
Record Tables := mkTables {
  tb_matches : JsMap jstr MatchStatus;
  tb_users : JsMap jstr R;
  tb_scores : list (jstr * jstr * ScoreRow);
  tb_rooms : JsMap jstr bool;
}.

#[export] Instance tables_db : MatchDb Tables := {
  db_update_matches w x d :=
    match map_get (mw_id w) (tb_matches d) with
    | None => (0, d)
    | Some status =>
        if bool_decide (mw_status_not w = Some status) then (0, d)
        else (1, mkTables (map_set (mw_id w) (md_status x) (tb_matches d)) (tb_users d) (tb_scores d) (tb_rooms d))
    end;
  db_status d id := map_get id (tb_matches d);
  db_elo d ids := filter (fun u => u.1 ∈ ids) (tb_users d);
  db_score id u row d :=
    mkTables (tb_matches d) (tb_users d) (tb_scores d ++ [(id, u, row)]) (tb_rooms d);
  db_increment ids x d :=
    mkTables (tb_matches d)
      ((fun u => (u.1, if bool_decide (u.1 ∈ ids) then (u.2 + x)%R else u.2)) <$> tb_users d)
      (tb_scores d) (tb_rooms d);
  db_finish_room r d :=
    if map_has r (tb_rooms d)
    then Some (mkTables (tb_matches d) (tb_users d) (tb_scores d) (map_set r true (tb_rooms d)))
    else None;
}.

#[export] Instance tables_db_laws : MatchDbLaws Tables.
Proof.
  assert (Hm : forall w (d : Tables), meets w d = match map_get (mw_id w) (tb_matches d) with
    None => false | Some status => negb (bool_decide (mw_status_not w = Some status)) end) by done.
  split; cbn [db_update_matches db_status tables_db].
  - intros w x d. rewrite Hm. destruct (map_get _ _); [|done]. by case_bool_decide.
  - intros w x d j. rewrite Hm. destruct (map_get (mw_id w) (tb_matches d)) as [status|] eqn:E; [|by rewrite andb_false_r].
    case_bool_decide; cbn; [by rewrite andb_false_r|]. rewrite andb_true_r. case_bool_decide; subst;
      [by rewrite map_get_set_eq|by rewrite map_get_set_ne].
  - intros w x d. rewrite Hm. destruct (map_get _ _); [|done]. by case_bool_decide.
  - done.
  - done.
  - intros r d d' j. cbn. destruct (map_has _ _); [|done]. by intros [= <-].
Qed.

Definition demo_tables : Tables := mkTables [(js "m1", ROUND_RESULT)] [] [] [(js "r1", false)].
Definition demo_tables' : Tables := mkTables [(js "m1", FINISHED)] [] [] [(js "r1", true)].

Lemma finish_at_most_once_witness :
  finish_transaction str_cmp (js "m1") None (js "r1") true None 0 demo_tables = (Ok true, demo_tables')
  /\ finish_transaction str_cmp (js "m1") (Some (js "p1")) (js "r1") false (Some two_finalists) 5 demo_tables'
     = (Ok false, demo_tables').
Proof.
  assert (finish_transaction str_cmp (js "m1") None (js "r1") true None 0 demo_tables
          = (Ok true, demo_tables')) as H by reflexivity.
  split; [exact H|].
  destruct (finish_at_most_once str_cmp (js "m1") None (js "r1") true None 0 demo_tables _ _ H) as [Hk _].
  destruct (Hk eq_refl) as (_ & _ & Hl). apply Hl.
Defined.

Definition p3_record : PlayerInfo :=
  Eval vm_compute in default (demo_player []) (map_get (js "p3") (ms_players (m_state two_finalists))).

Lemma scores_and_ratings_witness :
  exists d' results before after,
    buildScoreUpdateOps str_cmp (js "m1") (Some two_finalists) (getPlayerScores two_finalists) demo_tables = Ok d'
    /\ increment_of (deltaToUserIds results) (js "p3") = (after - before)%R.
Proof.
  assert (map_wf (ms_players (m_state two_finalists))) as Hwf
    by (apply (bool_decide_eq_true_1 (NoDup _)); vm_compute; reflexivity).
  assert (getPlayerScores two_finalists <> []) as Hne
    by (intros H; apply (f_equal length) in H; vm_compute in H; discriminate H).
  assert (map_get (js "p3") (ms_players (m_state two_finalists)) = Some p3_record) as H3
    by (vm_compute; reflexivity).
  destruct (build_total str_cmp (js "m1") two_finalists demo_tables Hne) as [d' Hd'].
  destruct (scores_and_ratings str_cmp (js "m1") two_finalists demo_tables d' Hwf Hd')
    as (results & _ & Hu).
  destruct (Hu (js "p3") p3_record H3 ltac:(discriminate)) as (b & a & _ & _ & Hi).
  exists d', results, b, a. split; [exact Hd'|exact Hi].
Defined.

(** Two rounds: p3 falls in the first, p2 in the second, p1 wins. *)
Definition two_rounds_ops : list Op :=
  [OTransition COUNTDOWN; OTransition ROUND_ACTIVE; OStartRound demo_question None;
   OSubmitAnswer (js "p1") (js "B") 1200 (Some (js "s1"));
   OSubmitAnswer (js "p2") (js "B") 1300 (Some (js "s2"));
   OTransition ROUND_EVALUATING; OEvaluateRound; OTransition ROUND_RESULT;
   OTransition ROUND_ACTIVE; OStartRound demo_question None;
   OSubmitAnswer (js "p1") (js "B") 1250 (Some (js "s3"));
   OTransition ROUND_EVALUATING; OEvaluateRound; OTransition ROUND_RESULT;
   OFinishMatch; OTransition FINISHED].
Definition two_rounds : Machine := exec_all two_rounds_ops demo_start demo_clock.
Definition two_rounds_placed : list (PlacementPlayer * Z) :=
  Eval vm_compute in placedPlayers str_cmp two_rounds.

Lemma two_rounds_once : reachable (eq demo_start) evaluate_once two_rounds.
Proof.
  apply exec_all_once; [by apply reach_init|apply demo_clock_in_range|vm_compute; reflexivity].
Qed.

Lemma two_rounds_placed_eq : placedPlayers str_cmp two_rounds = two_rounds_placed.
Proof. vm_compute. reflexivity. Qed.

Lemma outlasting_places_better_witness :
  exists a b, two_rounds_placed !! 1%nat = Some a /\ two_rounds_placed !! 2%nat = Some b
    /\ pp_userId a.1 = js "p2" /\ pp_userId b.1 = js "p3" /\ a.2 < b.2.
Proof.
  eexists _, _. split; [reflexivity|]. split; [reflexivity|]. split; [reflexivity|]. split; [reflexivity|].
  apply (outlasting_places_better str_cmp (js "m1") (js "r1")
    (demo_player <$> [js "p1"; js "p2"; js "p3"]) two_rounds).
  - apply (bool_decide_eq_true_1 (NoDup _)). vm_compute. reflexivity.
  - repeat constructor.
  - exact two_rounds_once.
  - rewrite two_rounds_placed_eq. apply list_elem_of_lookup_2 with 1%nat. reflexivity.
  - rewrite two_rounds_placed_eq. apply list_elem_of_lookup_2 with 2%nat. reflexivity.
  - apply Z.ltb_lt. vm_compute. reflexivity.
  - right. apply (bool_decide_eq_true_1 (_ ∈ _)). vm_compute. reflexivity.
  - apply (bool_decide_eq_true_1 (_ ∈ _)). vm_compute. reflexivity.
  - apply (bool_decide_eq_true_1 (_ <> _)). vm_compute. reflexivity.
Defined.
