(* ===== verification/Events.v ===== *)
(** * What the server emits

    [game-loop.events.ts], the emitters of [game-loop.helpers.ts], and the
    channels of [packages/shared/src/socket.ts].  An emission is a value: the
    channel it goes to, the channels it leaves out, and the payload. *)

From Stdlib Require Import QArith.
From S2P Require Import Prelude JsData Effects Shared Cards Prng CardEngine Scoring.
From S2P Require Import TieBreak TopicVoting ClassEngine Machine.
#[local] Open Scope Z_scope.

Inductive EliminationReason := WRONG_ANSWER | AFK | TIMEOUT.
Inductive LeaveReason := LEFT | STALE | LEFT_DISCONNECTED | HOST_STALE.

Record MatchmakingStatusPayload := mkQueueStatus {
  qs_isQueued : bool;
  qs_queuedAt : option Z;
  qs_elapsedSeconds : Z;
  qs_estimatedWaitSeconds : Z;
  qs_playersInQueue : Z;
}.

Inductive ServerPayload :=
| S_ERROR (code : ErrorCode) (failedEvent : jstr) (commandId submissionId : option jstr)
| S_CARD_RESOLVED (frame : CardResolvedPayload)
| S_CARD_PICKED (matchId : jstr) (roundNo : Z) (playerId : jstr) (selectedCardId : CardId) (offerSeqNo : Z)
| S_ANSWER_RESULT (matchId userId submissionId : jstr) (roundNo : Z) (isCorrect : option bool)
    (responseTimeMs : Z)
| S_TOPIC_VOTING_STARTED (matchId : jstr) (candidateTopics : list jstr) (endsAt durationMs : Z)
| S_TOPIC_VOTING_SUMMARY (matchId : jstr) (voteCounts : JsMap jstr Z) (totalVotes : Z)
| S_TOPIC_VOTING_FINISHED (matchId : jstr) (bannedTopics activeTopics : list jstr)
    (voteCounts : JsMap jstr Z)
| S_MATCH_STARTED (matchId roomId : jstr) (countdownMs : Z)
| S_ROUND_STARTED (matchId : jstr) (roundNo : Z) (question : QuestionState) (endsAt roundDurationMs : Z)
| S_ROUND_ENDED (matchId : jstr) (roundNo : Z) (correctAnswer : option jstr)
    (survivingPlayerIds eliminatedPlayerIds : list jstr) (playerResults : list PlayerInfo)
| S_PLAYER_ELIMINATED (matchId : jstr) (roundNo : Z) (playerId playerName : jstr)
    (reason : EliminationReason)
| S_MATCH_FINISHED (matchId : jstr) (winnerId : option jstr) (totalRounds : Z)
    (players : list PlayerInfo)
| S_PLAYER_LEFT (roomId playerId : jstr) (reason : LeaveReason)
| S_CLASS_ASSIGNED (matchId : jstr) (assignments : list ClassAssignment) (seedUsed : jstr)
| S_CARD_OFFER (matchId : jstr) (roundNo : Z) (playerId : jstr)
    (secret : option (list CardId * jstr)) (offerSeqNo : Z)
| S_ROOM_STATUS_UPDATED (roomId : jstr) (roomStatus : RoomStatus) (currentMatchId : option jstr)
    (updatedAt : Z)
| S_ROOM_COUNTDOWN_CANCELLED (roomId : jstr) (roomStatus : RoomStatus) (reason : jstr) (cancelledAt : Z)
| S_MATCH_STARTING (matchId : jstr) (countdown : Z)
| S_ROOM_TERMINATED (roomId : jstr) (matchId message : option jstr) (terminatedAt : Z)
| S_ROOM_COUNTDOWN_STARTED (roomId : jstr) (countdownEndsAt countdownMs startedAt : Z)
(** MATCH_FINISHED of a disbanded room, and ERROR outside of a command. *)
| S_MATCH_CLOSED (matchId : jstr) (winnerId : option jstr) (totalRounds finishedAt : Z)
| S_ERROR_MESSAGE (code : ErrorCode) (message : jstr)
| S_MATCHMAKING_STATUS (status : MatchmakingStatusPayload)
| S_MATCHMAKING_MATCHED (roomId roomCode matchId : jstr).

(** [server.to(em_to).except(em_except).emit(...)] *)
Record Emission := mkEmission {
  em_to : jstr;
  em_except : list jstr;
  em_payload : ServerPayload;
}.

Definition room_channel (roomId : jstr) : jstr := js "room:" ++ roomId.
Definition player_channel (playerId : jstr) : jstr := js "player:" ++ playerId.

(** socket.io delivers to the sockets of the room that are in none of the
    excepted rooms. *)
Definition delivered (channels : list jstr) (e : Emission) : bool :=
  set_has (em_to e) channels && forallb (fun r => negb (set_has r channels)) (em_except e).

Definition to_room (roomId : jstr) (payload : ServerPayload) : Emission :=
  mkEmission (room_channel roomId) [] payload.
Definition to_player (playerId : jstr) (payload : ServerPayload) : Emission :=
  mkEmission (player_channel playerId) [] payload.

Definition emitAnswerResult (matchId userId : jstr) (result : AnswerState) (roundNo : Z) : Emission :=
  to_player userId (S_ANSWER_RESULT matchId userId (an_submissionId result) roundNo
                      (an_isCorrect result) (an_responseTimeMs result)).

Definition emitRoundStarted (roomId matchId : jstr) (state : MatchState) (question : QuestionState)
    (endsAt : Z) : Emission :=
  to_room roomId (S_ROUND_STARTED matchId (ms_currentRoundNo state) question endsAt
                    GAME_CONFIG.ROUND_DURATION_MS).

Definition emitRoundEnded (roomId matchId : jstr) (state : MatchState) (correctAnswer : option jstr)
    (survivingIds eliminatedIds : list jstr) : Emission :=
  to_room roomId (S_ROUND_ENDED matchId (ms_currentRoundNo state) correctAnswer survivingIds
                    eliminatedIds (ms_players state).*2).

Definition elimination_reason (answeredThisRound wasOnline : bool) : EliminationReason :=
  if answeredThisRound then WRONG_ANSWER else if wasOnline then AFK else TIMEOUT.

Definition emitPlayerEliminated (roomId matchId : jstr) (state : MatchState)
    (playerId playerName : jstr) (answeredThisRound wasOnline : bool) : Emission :=
  to_room roomId (S_PLAYER_ELIMINATED matchId (ms_currentRoundNo state) playerId playerName
                    (elimination_reason answeredThisRound wasOnline)).

Definition emitMatchFinished (roomId matchId : jstr) (state : MatchState) (winnerId : option jstr)
    : Emission :=
  to_room roomId (S_MATCH_FINISHED matchId winnerId (ms_currentRoundNo state) (ms_players state).*2).

Definition emitMatchPlayerLeft (roomId playerId : jstr) (reason : LeaveReason) : Emission :=
  to_room roomId (S_PLAYER_LEFT roomId playerId reason).

Definition emitMatchDisconnected (roomId playerId : jstr) : Emission :=
  to_room roomId (S_PLAYER_LEFT roomId playerId LEFT_DISCONNECTED).

Definition emitTopicVotingStarted (roomId matchId : jstr) (candidateTopics : list jstr)
    (endsAt durationMs : Z) : Emission :=
  to_room roomId (S_TOPIC_VOTING_STARTED matchId candidateTopics endsAt durationMs).

Definition emitTopicVotingSummary (roomId matchId : jstr) (voteCounts : JsMap jstr Z) (totalVotes : Z)
    : Emission :=
  to_room roomId (S_TOPIC_VOTING_SUMMARY matchId voteCounts totalVotes).

Definition emitTopicVotingFinished (roomId matchId : jstr) (result : TopicVotingResult) : Emission :=
  to_room roomId (S_TOPIC_VOTING_FINISHED matchId (tv_bannedTopics result) (tv_activeTopics result)
                    (tv_voteCounts result)).

Definition emitClassAssigned (roomId matchId : jstr) (assignments : list ClassAssignment)
    (seedUsed : jstr) : Emission :=
  to_room roomId (S_CLASS_ASSIGNED matchId assignments seedUsed).

(** The player gets the cards and the seed, the rest of the room does not. *)
Definition emitCardOffer (playerId roomId matchId : jstr) (roundNo : Z)
    (offeredCardIds : list CardId) (offerSeqNo : Z) (seedUsed : jstr) : list Emission :=
  [to_player playerId (S_CARD_OFFER matchId roundNo playerId (Some (offeredCardIds, seedUsed)) offerSeqNo);
   mkEmission (room_channel roomId) [player_channel playerId]
     (S_CARD_OFFER matchId roundNo playerId None offerSeqNo)].

Definition emitRoomStatusUpdated (roomId : jstr) (roomStatus : RoomStatus)
    (currentMatchId : option jstr) (updatedAt : Z) : Emission :=
  to_room roomId (S_ROOM_STATUS_UPDATED roomId roomStatus currentMatchId updatedAt).

Definition emitMatchStarted (roomId matchId : jstr) (countdownMs : Z) : Emission :=
  to_room roomId (S_MATCH_STARTED matchId roomId countdownMs).

Definition emitWaitingRoomState (roomId reason : jstr) (roomStatus : RoomStatus) (updatedAt : Z) : list Emission :=
  [to_room roomId (S_ROOM_COUNTDOWN_CANCELLED roomId roomStatus reason updatedAt);
   emitRoomStatusUpdated roomId roomStatus None updatedAt].

Definition emitMatchStarting (roomId matchId : jstr) (countdownSeconds : Z) : Emission :=
  to_room roomId (S_MATCH_STARTING matchId countdownSeconds).

Definition emitRoomTerminated (roomId : jstr) (matchId message : option jstr) (terminatedAt : Z)
    : Emission :=
  to_room roomId (S_ROOM_TERMINATED roomId matchId message terminatedAt).
