(* ===== verification/CardCommands.v ===== *)
(** * Card commands: validation, targets, broadcasts

    [card-validator.ts], [match-card-targeting.ts], [aoe-cap.ts],
    [match-card-command.helpers.ts], and the decision of a card play in
    [match-card-command-authoritative.ts], from the state the owner loads to
    the call of [playCard]. *)

From Stdlib Require Import QArith.
From S2P Require Import Prelude JsData Effects Shared Cards Prng CardEngine Scoring.
From S2P Require Import TieBreak TopicVoting ClassEngine Machine MachineCards MachineOps MachineRounds Events.
#[local] Open Scope Z_scope.

(** ** card-validator.ts *)

(** A value of the wire that should be a string; [None] is any other value. *)
Abbreviation wire_str := (option jstr).

(** [!x], for an optional string. *)
Definition falsy (x : option jstr) : bool :=
  match x with None | Some [] => true | _ => false end.

Definition assertValidCommandId (commandId : wire_str) : outcome exn jstr :=
  match commandId with
  | None => Throw (RoomError INVALID_COMMAND_ID)
  | Some s =>
      let len := Z.of_nat (length s) in
      if (len <? 1) || (COMMAND_ID_MAX_LENGTH <? len) then Throw (RoomError INVALID_COMMAND_ID)
      else Ok s
  end.

(** The string as a [CardId]. *)
Definition card_of_str (s : jstr) : option CardId :=
  List.find (fun id => bool_decide (card_str id = s)) all_card_ids.

Definition assertCardId (cardId : wire_str) : outcome exn CardId :=
  match cardId with
  | Some s =>
      if negb (hasCardDefinition s) then Throw (RoomError CARD_NOT_FOUND)
      else match card_of_str s with
           | Some id => Ok id
           | None => Throw (RoomError CARD_NOT_FOUND)
           end
  | None => Throw (RoomError CARD_NOT_FOUND)
  end.

Definition catalogHasCard (cardId : wire_str) : bool :=
  match cardId with Some s => hasCardDefinition s | None => false end.

Definition isCardAlreadyPlayed (cardId : CardId) (playedCardIds : list CardId) : bool :=
  set_has cardId playedCardIds.

(** [template.targetCount], on the templates that have one. *)
Definition targetCount (t : CardEffectTemplate) : option Z :=
  match t with
  | T_TIMER_MODIFY _ n | T_DELAY_RENDER _ n => Some n
  | _ => None
  end.

Definition isAoeCard (cardId : CardId) : bool :=
  match targetCount (cd_effectTemplate (card_def cardId)) with
  | Some n => 1 <? n
  | None => false
  end.

Definition isAttackCard (cardId : CardId) : bool :=
  bool_decide (cd_classId (card_def cardId) = ATTACK).

Definition validateTarget (cardId : CardId) (targetPlayerId : option jstr)
    (rosterPlayerIds : list jstr) (actingPlayerId : option jstr) : outcome exn unit :=
  if isAttackCard cardId then
    if negb (isAoeCard cardId) && falsy targetPlayerId then Throw (RoomError INVALID_PAYLOAD)
    else if negb (falsy targetPlayerId) && negb (falsy actingPlayerId)
            && bool_decide (targetPlayerId = actingPlayerId)
    then Throw (RoomError INVALID_PAYLOAD)
    else if negb (falsy targetPlayerId)
            && negb (set_has (default [] targetPlayerId) rosterPlayerIds)
    then Throw (RoomError PLAYER_NOT_IN_ROOM)
    else Ok tt
  else if bool_decide (is_Some targetPlayerId) then Throw (RoomError INVALID_PAYLOAD)
  else Ok tt.

Definition validatePickedCard (cardId : CardId) (pickedCards : list CardId) : outcome exn unit :=
  if negb (set_has cardId pickedCards) then Throw (RoomError CARD_NOT_IN_HAND) else Ok tt.

Definition validateOfferCorrelation (cardId : CardId) (offeredCardIds : list CardId)
    : outcome exn unit :=
  if negb (set_has cardId offeredCardIds) then Throw (RoomError CARD_NOT_IN_HAND) else Ok tt.

Definition validateAoeBudget (cardId : CardId) (currentAoeCount : Z) : outcome exn unit :=
  if negb (isAoeCard cardId) then Ok tt
  else if AOE_CAP_PER_ROUND <=? currentAoeCount then Throw (RoomError AOE_CAP_EXHAUSTED)
  else Ok tt.

Record ValidateArgs := mkValidateArgs {
  va_cardId : wire_str;
  va_offeredCardIds : list CardId;
  va_targetPlayerId : option jstr;
  va_rosterPlayerIds : list jstr;
  va_currentAoeCount : Z;
  va_playedCardIds : list CardId;
  va_pickedCards : list CardId;
  va_actingPlayerId : option jstr;
  va_matchStatus : option MatchStatus;
  va_roundStatus : option RoundStatus;
}.

(** Sequencing of outcomes: the first throw wins. *)
Definition andThen {E A B} (o : outcome E A) (k : A -> outcome E B) : outcome E B :=
  match o with Ok a => k a | Throw e => Throw e end.

Definition validateCardCommand (args : ValidateArgs) : outcome exn (CardId * CardEffectTemplate) :=
  if negb (bool_decide (va_matchStatus args = None)) && negb (bool_decide (va_matchStatus args = Some ROUND_ACTIVE))
  then Throw (RoomError ROUND_NOT_ACTIVE)
  else if negb (bool_decide (va_roundStatus args = None)) && negb (bool_decide (va_roundStatus args = Some RACTIVE))
  then Throw (RoomError ROUND_NOT_ACTIVE)
  else
    andThen (assertCardId (va_cardId args)) (fun cardId =>
    andThen (validatePickedCard cardId (va_pickedCards args)) (fun _ =>
    andThen (validateOfferCorrelation cardId (va_offeredCardIds args)) (fun _ =>
    if isCardAlreadyPlayed cardId (va_playedCardIds args) then Throw (RoomError CARD_NOT_IN_HAND)
    else
      andThen (validateTarget cardId (va_targetPlayerId args) (va_rosterPlayerIds args)
                 (va_actingPlayerId args)) (fun _ =>
      andThen (validateAoeBudget cardId (va_currentAoeCount args)) (fun _ =>
      andThen (getCardDefinition cardId) (fun def => Ok (cardId, cd_effectTemplate def))))))).

Definition isMilestoneRound (roundNo : Z) : bool := set_has roundNo MILESTONE_ROUNDS.

(** ** match-card-targeting.ts *)

(** [`${matchId}|${userId}|${roundNo}|${offerSeqNo}|${cardId}`] *)
Definition command_seed (matchId userId : jstr) (roundNo offerSeqNo : Z) (cardId : CardId) : jstr :=
  matchId ++ js "|" ++ userId ++ js "|" ++ js_of_Z roundNo ++ js "|" ++ js_of_Z offerSeqNo
  ++ js "|" ++ card_str cardId.

(** The generator is its state. *)
Definition makeCardResolveRng (matchId userId : jstr) (roundNo offerSeqNo : Z) (cardId : CardId) : Z :=
  mulberry32 (deriveSubstream (command_seed matchId userId roundNo offerSeqNo cardId)
                (js "resolve|" ++ card_str cardId)).

Definition isEligible (stateMachine : Machine) (id : jstr) : bool :=
  match map_get id (ms_players (getState stateMachine)) with
  | Some player =>
      negb (bool_decide (pl_status player = ELIMINATED))
      && negb (bool_decide (pl_status player = WINNER))
      && negb (bool_decide (pl_status player = DISCONNECTED))
  | None => false
  end.

(** The selection loop; [remaining[index]] is in range ([floor_scaled_range]). *)
Fixpoint select_loop (n : nat) (remaining selected : list jstr) (rng : Z) : list jstr :=
  match n with
  | O => selected
  | S n' =>
      let '(u, rng') := rng_next rng in
      let index := floor_scaled u (Z.of_nat (length remaining)) in
      select_loop n' (delete (Z.to_nat index) remaining)
        (selected ++ [default [] (js_nth remaining index)]) rng'
  end.

Definition expandCardTargets (matchId : jstr) (cardId : CardId) (playedByPlayerId : jstr)
    (targetPlayerId : option jstr) (roundNo offerSeqNo : Z) (stateMachine : Machine) : list jstr :=
  let count := default 1 (targetCount (cd_effectTemplate (card_def cardId))) in
  if count <=? 1 then
    let targetId := default playedByPlayerId targetPlayerId in
    if isEligible stateMachine targetId then [targetId] else []
  else
    let targetRng := mulberry32 (deriveSubstream
      (command_seed matchId playedByPlayerId roundNo offerSeqNo cardId)
      (js "targets|" ++ card_str cardId)) in
    let eligible := js_sort str_cmp
      (filter (fun id => negb (bool_decide (id = playedByPlayerId)) && isEligible stateMachine id)
         (ms_players (getState stateMachine)).*1) in
    let numToPick := Z.min count (Z.of_nat (length eligible)) in
    select_loop (Z.to_nat numToPick) eligible [] targetRng.

(** ** aoe-cap.ts *)

Definition is_aoe (matchId : jstr) (roundNo : Z) (e : Event) : bool :=
  match ev_payload e with
  | E_CARD_RESOLVED p =>
      bool_decide (cr_matchId p = matchId) && (cr_roundNo p =? roundNo)
      && (1 <? Z.of_nat (length (cr_targetPlayerIds p)))
  | _ => false
  end.

Definition countAoeResolved (events : list Event) (matchId : jstr) (roundNo : Z) : Z :=
  foldl (fun count e => if is_aoe matchId roundNo e then count + 1 else count) 0 events.

Record AoeCapTracker := mkTracker {
  at_matchId : jstr;
  at_currentRoundNo : Z;
  at_currentAoeCount : Z;
}.

Module Tracker.
Definition empty (matchId : jstr) : AoeCapTracker := mkTracker matchId 0 0.
Definition rebuildFromLog (matchId : jstr) (currentRoundNo : Z) (events : list Event) : AoeCapTracker :=
  mkTracker matchId currentRoundNo (countAoeResolved events matchId currentRoundNo).
Definition onCardResolved (event : CardResolvedPayload) (t : AoeCapTracker) : AoeCapTracker :=
  if negb (bool_decide (cr_matchId event = at_matchId t)) then t
  else if negb (cr_roundNo event =? at_currentRoundNo t) then t
  else if 1 <? Z.of_nat (length (cr_targetPlayerIds event))
  then mkTracker (at_matchId t) (at_currentRoundNo t) (at_currentAoeCount t + 1)
  else t.
Definition onEndRound (nextRoundNo : Z) (t : AoeCapTracker) : AoeCapTracker :=
  mkTracker (at_matchId t) nextRoundNo 0.
Definition isExhausted (t : AoeCapTracker) : bool := AOE_CAP_PER_ROUND <=? at_currentAoeCount t.
End Tracker.

(** ** match-card-command.helpers.ts *)

Inductive CardEventType := CARD_PICKED_EVENT | CARD_RESOLVED_EVENT.

Definition is_card_event (type : CardEventType) (playerId cardId : jstr) (offerSeqNo : Z) (e : Event)
    : bool :=
  match type, ev_payload e with
  | CARD_PICKED_EVENT, E_CARD_PICKED _ p c o _ _ =>
      bool_decide (p = playerId) && bool_decide (card_str c = cardId) && (o =? offerSeqNo)
  | CARD_RESOLVED_EVENT, E_CARD_RESOLVED r =>
      bool_decide (cr_playedByPlayerId r = playerId) && bool_decide (card_str (cr_cardId r) = cardId)
      && (cr_offerSeqNo r =? offerSeqNo)
  | _, _ => false
  end.

(** The latest matching event: the walk goes backwards and stops at a match. *)
Definition findCanonicalCardEvent (stateMachine : Machine) (type : CardEventType)
    (playerId cardId : jstr) (offerSeqNo : Z) : option Event :=
  head (filter (is_card_event type playerId cardId offerSeqNo) (rev (getEventLog stateMachine))).

(** *** Broadcasts *)

Definition emitPlayerCommandError (userId failedEvent : jstr) (commandId : option jstr) (error : exn)
    (submissionId : option jstr) : Emission :=
  let commandPayload := if falsy commandId then None else commandId in
  to_player userId
    (S_ERROR (match error with RoomError code => code | _ => INVALID_PAYLOAD end)
       failedEvent commandPayload submissionId).

Definition sanitizeCardEffect (effect : CardEffect) : CardEffect :=
  match effect with
  | OPTION_DISABLE _ count available durationMs => OPTION_DISABLE [] count available durationMs
  | OPTION_FAKE _ durationMs => OPTION_FAKE [] durationMs
  | HINT_REVEAL _ => HINT_REVEAL []
  | HAND_DESTROY count available _ => HAND_DESTROY count available []
  | _ => effect
  end.

Definition with_effect (effect : CardEffect) (p : CardResolvedPayload) : CardResolvedPayload :=
  mkResolved (cr_seqNo p) (cr_matchId p) (cr_roundNo p) (cr_targetRoundNo p) (cr_cardId p)
    (cr_offerSeqNo p) (cr_playedByPlayerId p) (cr_targetPlayerIds p) effect (cr_resolution p)
    (cr_serverTimestamp p) (cr_expiresAtServer p) (cr_remainingMs p) None None.

(** The typed payload has its targets and its effect; a missing room id skips
    the broadcast. *)
Definition emitCardResolved (roomId : option jstr) (payload : CardResolvedPayload) : list Emission :=
  if falsy roomId then []
  else
    let targetPlayerIds := cr_targetPlayerIds payload in
    mkEmission (room_channel (default [] roomId)) (player_channel <$> targetPlayerIds)
      (S_CARD_RESOLVED (with_effect (sanitizeCardEffect (cr_effect payload)) payload))
    :: ((fun targetId => to_player targetId
                           (S_CARD_RESOLVED (with_effect (cr_effect payload) payload)))
        <$> targetPlayerIds).

(** ** The decision of a card play *)

(** What the owner does with a play: an error to the player, the recovery of a
    play it already holds, or the call of [playCard]. *)
Inductive PlayDecision :=
| PlayRejected (e : exn)
| PlayDuplicate
| PlayAccepted (cardId : CardId) (effect : CardEffect) (targetPlayerIds : list jstr) (roundNo : Z).

Record CardPlayBody := mkCardPlay {
  cp_userId : jstr;
  cp_cardId : jstr;
  cp_offerSeqNo : Z;
  cp_targetPlayerId : option jstr;
  cp_commandId : jstr;
}.

(** [set.has(cardId as CardId)] on the wire's string. *)
Definition has_card_str (cardId : jstr) (cards : list CardId) : bool :=
  existsb (fun c => bool_decide (card_str c = cardId)) cards.

Definition decideCardPlay (stateMachine : Machine) (matchId : jstr) (body : CardPlayBody)
    : PlayDecision :=
  let state := getState stateMachine in
  let userId := cp_userId body in
  match map_get userId (ms_players state) with
  | None => PlayRejected (RoomError SPECTATOR_CANNOT_ANSWER)
  | Some player =>
      if bool_decide (pl_status player = ELIMINATED) || bool_decide (pl_status player = WINNER)
         || bool_decide (pl_status player = DISCONNECTED)
      then PlayRejected (RoomError (if bool_decide (pl_status player = DISCONNECTED)
                                    then PLAYER_DISCONNECTED else SPECTATOR_CANNOT_ANSWER))
      else if has_card_str (cp_cardId body) (getPlayedCards stateMachine userId) then PlayDuplicate
      else
        match getCurrentRound stateMachine with
        | None => PlayRejected (RoomError ROUND_NOT_ACTIVE)
        | Some currentRound =>
            if negb (bool_decide (ms_status state = ROUND_ACTIVE))
               || negb (bool_decide (rd_status currentRound = RACTIVE))
            then PlayRejected (RoomError ROUND_NOT_ACTIVE)
            else
              let currentRoundNo := rd_roundNo currentRound in
              let offeredCardIds :=
                default [] (getCardOfferForPlayer stateMachine userId (cp_offerSeqNo body)) in
              match validateCardCommand (mkValidateArgs (Some (cp_cardId body)) offeredCardIds
                      (cp_targetPlayerId body) (ms_players state).*1
                      (getAoeCountForRound stateMachine currentRoundNo)
                      (getPlayedCards stateMachine userId) (getPickedCards stateMachine userId)
                      (Some userId) (Some (ms_status state)) (Some (rd_status currentRound))) with
              | Throw e => PlayRejected e
              | Ok (cardId, template) =>
                  let resolveRng := makeCardResolveRng matchId userId currentRoundNo
                                      (cp_offerSeqNo body) cardId in
                  let targetPlayerIds := expandCardTargets matchId cardId userId
                    (cp_targetPlayerId body) currentRoundNo (cp_offerSeqNo body) stateMachine in
                  match targetPlayerIds with
                  | [] => PlayRejected (RoomError PLAYER_DISCONNECTED)
                  | target :: _ =>
                      match resolveCardEffect cardId template resolveRng
                              (mkCtx (Some (getHand stateMachine target))
                                 (Some (q_options (rd_question currentRound)))
                                 (getCorrectAnswer stateMachine) (Some currentRoundNo)) with
                      | Throw e => PlayRejected e
                      | Ok (resolved, _) => PlayAccepted cardId resolved targetPlayerIds currentRoundNo
                      end
                  end
              end
        end
  end.

(** ** Targets *)

Lemma select_loop_spec n (remaining selected : list jstr) rng :
  (n <= length remaining)%nat ->
  exists new left, select_loop n remaining selected rng = selected ++ new
    /\ new ++ left ≡ₚ remaining /\ length new = n.
Proof.
  revert remaining selected rng. induction n as [|n IH]; intros * Hn; cbn [select_loop].
  - exists [], remaining. by rewrite app_nil_r.
  - destruct (random_index_ok remaining rng) as (x & Hx); [by destruct remaining; cbn in *; [lia|]|].
    destruct (rng_next rng) as [u rng']. cbn [fst] in Hx. rewrite Hx. change (default [] (Some x)) with x.
    pose proof (js_nth_delete _ _ _ Hx) as Hp.
    destruct (IH (delete (Z.to_nat (floor_scaled u (Z.of_nat (length remaining)))) remaining)
                 (selected ++ [x]) rng') as (new & left & -> & Hnew & Hlen).
    { apply Permutation_length in Hp. cbn in Hp. lia. }
    exists (x :: new), left. rewrite <- app_assoc. split_and!; [done| |cbn; lia].
    cbn. rewrite Hnew. by symmetry.
Qed.

(** The players an area card may hit. *)
Definition aoe_candidates (m : Machine) (caster : jstr) : list jstr :=
  filter (fun id => negb (bool_decide (id = caster)) && isEligible m id) (ms_players (m_state m)).*1.

Definition aoe_size (cardId : CardId) : Z :=
  default 1 (targetCount (cd_effectTemplate (card_def cardId))).

Lemma isAoeCard_size cardId : isAoeCard cardId = (1 <? aoe_size cardId).
Proof. unfold isAoeCard, aoe_size. by destruct (targetCount _). Qed.

Lemma expandCardTargets_single matchId cardId p target no o m :
  isAoeCard cardId = false ->
  expandCardTargets matchId cardId p target no o m
  = if isEligible m (default p target) then [default p target] else [].
Proof.
  rewrite isAoeCard_size. intros H. bool_to_prop. unfold expandCardTargets. fold (aoe_size cardId).
  by rewrite (proj2 (Z.leb_le _ _)).
Qed.

Lemma expandCardTargets_aoe matchId cardId p target no o m :
  isAoeCard cardId = true ->
  exists left, expandCardTargets matchId cardId p target no o m ++ left ≡ₚ aoe_candidates m p
  /\ Z.of_nat (length (expandCardTargets matchId cardId p target no o m))
     = Z.min (aoe_size cardId) (Z.of_nat (length (aoe_candidates m p))).
Proof.
  rewrite isAoeCard_size. intros H. bool_to_prop. unfold expandCardTargets. fold (aoe_size cardId).
  rewrite (proj2 (Z.leb_gt _ _)) by done. cbn zeta. unfold getState. fold (aoe_candidates m p).
  edestruct (select_loop_spec (Z.to_nat (Z.min (aoe_size cardId)
    (Z.of_nat (length (js_sort str_cmp (aoe_candidates m p)))))) (js_sort str_cmp (aoe_candidates m p)) [])
    as (new & left & -> & Hp & Hl); [lia|].
  exists left. cbn [app]. rewrite Hp, js_sort_perm. split; [done|]. rewrite Hl, js_sort_length. lia.
Qed.

(** ** What an accepted play has passed *)

Lemma card_of_str_spec s id : card_of_str s = Some id -> s = card_str id.
Proof.
  unfold card_of_str. intros H. apply find_some in H as [_ H]. by apply bool_decide_eq_true_1 in H.
Qed.

Lemma validateCardCommand_ok args id t :
  validateCardCommand args = Ok (id, t) ->
  va_cardId args = Some (card_str id) /\ t = cd_effectTemplate (card_def id)
  /\ id ∈ va_pickedCards args /\ id ∈ va_offeredCardIds args /\ (id ∉ va_playedCardIds args)
  /\ validateTarget id (va_targetPlayerId args) (va_rosterPlayerIds args) (va_actingPlayerId args) = Ok tt
  /\ (isAoeCard id = true -> va_currentAoeCount args < AOE_CAP_PER_ROUND).
Proof.
  unfold validateCardCommand. destruct (_ && _); [done|]. destruct (_ && _); [done|].
  unfold andThen. destruct (assertCardId (va_cardId args)) as [c|] eqn:Hc; [|done].
  unfold validatePickedCard, validateOfferCorrelation, isCardAlreadyPlayed, validateAoeBudget.
  destruct (set_has c (va_pickedCards args)) eqn:Hp; [|done]. cbn [negb].
  destruct (set_has c (va_offeredCardIds args)) eqn:Ho; [|done]. cbn [negb].
  destruct (set_has c (va_playedCardIds args)) eqn:Hd; [done|].
  destruct (validateTarget c _ _ _) as [[]|] eqn:Ht; [|done].
  rewrite getCardDefinition_total.
  assert (va_cardId args = Some (card_str c)) as Hs.
  { unfold assertCardId in Hc. destruct (va_cardId args) as [s|]; [|done].
    destruct (negb _); [done|]. destruct (card_of_str s) as [x|] eqn:E; [|done].
    injection Hc as <-. by rewrite (card_of_str_spec s x). }
  destruct (isAoeCard c) eqn:Ha; cbn [negb].
  - destruct (AOE_CAP_PER_ROUND <=? _) eqn:Hb; [done|]. intros [= <- <-]. bool_to_prop.
    split_and!; try done; try (by apply set_has_spec). intros Hin%set_has_spec. congruence.
  - intros [= <- <-]. split_and!; try done; try (by apply set_has_spec).
    + intros Hin%set_has_spec. congruence.
    + by rewrite Ha.
Qed.

(** An accepted play: its caster may act, the card was offered in the named
    offer, picked, not played; the targets are those of the expansion; an area
    card finds room under the cap. *)
Record accepted (m : Machine) (matchId : jstr) (body : CardPlayBody) (id : CardId)
    (effect : CardEffect) (targets : list jstr) (no : Z) : Prop := {
  acc_caster : isEligible m (cp_userId body) = true;
  acc_round : exists r, m_round m = Some r /\ rd_status r = RACTIVE /\ rd_roundNo r = no;
  acc_status : ms_status (m_state m) = ROUND_ACTIVE;
  acc_card : cp_cardId body = card_str id;
  acc_offered : exists ids, getCardOfferForPlayer m (cp_userId body) (cp_offerSeqNo body) = Some ids
                            /\ id ∈ ids;
  acc_picked : id ∈ getPickedCards m (cp_userId body);
  acc_fresh : id ∉ getPlayedCards m (cp_userId body);
  acc_target : validateTarget id (cp_targetPlayerId body) (ms_players (m_state m)).*1
                 (Some (cp_userId body)) = Ok tt;
  acc_aoe : isAoeCard id = true -> getAoeCountForRound m no < AOE_CAP_PER_ROUND;
  acc_targets : targets = expandCardTargets matchId id (cp_userId body) (cp_targetPlayerId body) no
                            (cp_offerSeqNo body) m;
  acc_some : targets <> [];
}.

Lemma decideCardPlay_accepted m matchId body id effect targets no :
  decideCardPlay m matchId body = PlayAccepted id effect targets no ->
  accepted m matchId body id effect targets no.
Proof.
  unfold decideCardPlay, getState, getCurrentRound. cbn zeta.
  destruct (map_get (cp_userId body) (ms_players (m_state m))) as [player|] eqn:Hpl; [|done].
  destruct (_ || _ || _) eqn:Hst; [done|]. destruct (has_card_str _ _); [done|].
  destruct (m_round m) as [r|] eqn:Hr; [|done].
  destruct (negb _ || negb _) eqn:Hact; [done|].
  destruct (validateCardCommand _) as [[c t]|] eqn:Hv; [|done].
  apply validateCardCommand_ok in Hv as (Hc & -> & Hp & Ho & Hd & Ht & Ha).
  cbn [va_cardId va_pickedCards va_offeredCardIds va_playedCardIds va_targetPlayerId
       va_rosterPlayerIds va_actingPlayerId va_currentAoeCount] in *.
  destruct (expandCardTargets _ _ _ _ _ _ _) as [|t0 ts] eqn:Hts; [done|].
  destruct (resolveCardEffect _ _ _ _) as [[e rng]|]; [|done]. intros [= -> -> <- <-].
  bool_to_prop. split; try done.
  - unfold isEligible, getState. rewrite Hpl. rewrite !bool_decide_eq_false_2 by done. done.
  - eauto.
  - by injection Hc.
  - destruct (getCardOfferForPlayer _ _ _) as [ids|]; cbn in Ho; [eauto|by apply elem_of_nil in Ho].
Qed.

(** ** Matches whose plays all come from commands *)

(** Every play was decided on the machine it is applied to. *)
Definition plays_by_command (m : Machine) (op : Op) : Prop :=
  match op with
  | OPlayCard p id o effect targets _ _ _ =>
      exists target commandId no,
        decideCardPlay m (ms_id (m_state m)) (mkCardPlay p (card_str id) o target commandId)
        = PlayAccepted id effect targets no
  | _ => True
  end.

Definition resolved (e : Event) : option CardResolvedPayload :=
  match ev_payload e with E_CARD_RESOLVED p => Some p | _ => None end.

(** The plays of a match, from its log. *)
Definition resolutions (m : Machine) : list CardResolvedPayload := omap resolved (m_log m).

Definition is_play (op : Op) : bool :=
  match op with OPlayCard _ _ _ _ _ _ _ _ => true | _ => false end.

Lemma assign_classes_mirror_other l c :
  cs_played (assign_classes_mirror l c) = cs_played c
  /\ cs_aoe (assign_classes_mirror l c) = cs_aoe c.
Proof.
  unfold assign_classes_mirror. revert c. induction l as [|a l IH]; intros c; [done|].
  cbn [foldl]. by destruct (IH (cs_set_classes (map_set (ca_playerId a) (ca_classId a) (cs_classes c)) c)).
Qed.

(** Only a play touches the plays, their counters and the played cards. *)
Lemma no_play_after op m c :
  is_play op = false ->
  resolutions (after op m c) = resolutions m
  /\ cs_played (m_cards (after op m c)) = cs_played (m_cards m)
  /\ cs_aoe (m_cards (after op m c)) = cs_aoe (m_cards m)
  /\ ms_id (m_state (after op m c)) = ms_id (m_state m).
Proof.
  intros Hop. unfold resolutions.
  destruct op; try discriminate; unfold_ops; run; state_simpl; chase_players;
    rewrite ?omap_snoc; cards_simpl; cbn; rewrite ?app_nil_r; try (split_and!; reflexivity).
  destruct (assign_classes_mirror_other (assignClasses playerIds seedUsed) (m_cards m)) as [-> ->].
  done.
Qed.

(** The play itself. *)
Lemma play_after p id o effect targets now e k m c r :
  m_round m = Some r -> rd_status r = RACTIVE -> ms_status (m_state m) = ROUND_ACTIVE ->
  let m' := after (OPlayCard p id o effect targets now e k) m c in
  (exists x, resolutions m' = resolutions m ++ [x]
     /\ cr_matchId x = ms_id (m_state m) /\ cr_roundNo x = rd_roundNo r
     /\ cr_playedByPlayerId x = p /\ cr_cardId x = id /\ cr_offerSeqNo x = o
     /\ cr_seqNo x = m_seq m + 1
     /\ cr_targetPlayerIds x = targets /\ cr_effect x = effect)
  /\ cs_played (m_cards m') = add_to_set p id (cs_played (m_cards m))
  /\ cs_aoe (m_cards m')
     = (if 1 <? Z.of_nat (length targets)
        then map_set (rd_roundNo r) (getAoeCountForRound m (rd_roundNo r) + 1) (cs_aoe (m_cards m))
        else cs_aoe (m_cards m))
  /\ ms_id (m_state m') = ms_id (m_state m).
Proof.
  intros Hr Ha Hs. cbn zeta. unfold resolutions, getAoeCountForRound.
  unfold_ops. unfold run_state, discard, bind, get. rewrite Hr, Ha, Hs.
  rewrite !bool_decide_eq_true_2 by done. cbn [negb andb].
  run; state_simpl; rewrite ?omap_snoc; cards_simpl; cbn.
  all: try (match goal with H : negb (_ =? _) = true |- _ => rewrite Z.eqb_refl in H; done end).
  all: rewrite ?app_nil_r; split_and!; try reflexivity; try (eexists; split_and!; reflexivity).
Qed.

(** *** Counting area cards *)

Definition aoe_resolution (matchId : jstr) (no : Z) (p : CardResolvedPayload) : bool :=
  bool_decide (cr_matchId p = matchId) && (cr_roundNo p =? no)
  && (1 <? Z.of_nat (length (cr_targetPlayerIds p))).

Definition aoe_count (matchId : jstr) (no : Z) (l : list CardResolvedPayload) : Z :=
  foldl (fun n p => if aoe_resolution matchId no p then n + 1 else n) 0 l.

Lemma aoe_count_snoc matchId no l p :
  aoe_count matchId no (l ++ [p])
  = if aoe_resolution matchId no p then aoe_count matchId no l + 1 else aoe_count matchId no l.
Proof. unfold aoe_count. by rewrite foldl_app. Qed.

Lemma countAoeResolved_eq events matchId no :
  countAoeResolved events matchId no = aoe_count matchId no (omap resolved events).
Proof.
  induction events as [|e events IH] using rev_ind; [done|].
  rewrite omap_snoc. unfold countAoeResolved in *. rewrite foldl_app, IH. cbn [foldl].
  assert (is_aoe matchId no e
          = match resolved e with Some p => aoe_resolution matchId no p | None => false end) as ->.
  { unfold is_aoe, resolved. by destruct (ev_payload e). }
  destruct (resolved e) as [p|]; cbn [option_list]; [|by rewrite app_nil_r].
  change (option_list (Some p)) with [p]. by rewrite aoe_count_snoc.
Qed.

(** *** The targets of an accepted play *)

Lemma aoe_is_attack id : isAoeCard id = true -> isAttackCard id = true.
Proof. by destruct id. Qed.

(** Where a play may land: an attack on players other than its caster, any
    other card on its caster; nobody is hit twice, everybody is in the match. *)
Definition targets_ok (players : list jstr) (x : CardResolvedPayload) : Prop :=
  cr_targetPlayerIds x <> [] /\ NoDup (cr_targetPlayerIds x)
  /\ cr_targetPlayerIds x ⊆ players
  /\ (isAoeCard (cr_cardId x) = false -> length (cr_targetPlayerIds x) = 1%nat)
  /\ (if isAttackCard (cr_cardId x)
      then cr_playedByPlayerId x <> [] -> cr_playedByPlayerId x ∉ cr_targetPlayerIds x
      else cr_targetPlayerIds x = [cr_playedByPlayerId x]).

Lemma isEligible_known m (p : jstr) : isEligible m p = true -> p ∈ (ms_players (m_state m)).*1.
Proof.
  unfold isEligible, getState. destruct (map_get p _) eqn:H; [|done]. intros _.
  apply map_get_Some_elem in H. by apply (list_elem_of_fmap_2' fst _ _ _ H).
Qed.

Lemma accepted_targets m matchId body id effect targets no x :
  NoDup (ms_players (m_state m)).*1 ->
  accepted m matchId body id effect targets no ->
  cr_playedByPlayerId x = cp_userId body -> cr_cardId x = id -> cr_targetPlayerIds x = targets ->
  targets_ok (ms_players (m_state m)).*1 x.
Proof.
  intros Hnd [_ _ _ _ _ _ _ Ht _ Hts Hne] Hp Hid Hx. unfold targets_ok. rewrite Hp, Hid, Hx.
  destruct (isAoeCard id) eqn:Ha.
  - rewrite (aoe_is_attack _ Ha).
    edestruct (expandCardTargets_aoe matchId id (cp_userId body) (cp_targetPlayerId body) no
                 (cp_offerSeqNo body) m Ha) as (left & Hperm & _).
    rewrite <- Hts in Hperm.
    assert (NoDup targets) as Hnt.
    { assert (NoDup (targets ++ left)) as H%NoDup_app by (rewrite Hperm; by apply NoDup_filter).
      apply H. }
    assert (forall t, t ∈ targets -> t ∈ aoe_candidates m (cp_userId body)) as Hin.
    { intros t H. rewrite <- Hperm. apply elem_of_app. by left. }
    split_and!; try done.
    + intros t Hin'%Hin. unfold aoe_candidates in Hin'. by apply list_elem_of_filter in Hin' as [_ ?].
    + intros _ Hin'%Hin. unfold aoe_candidates in Hin'. apply list_elem_of_filter in Hin' as [Hb _].
      rewrite bool_decide_eq_true_2 in Hb by done. done.
  - rewrite expandCardTargets_single in Hts by done.
    destruct (isEligible m _) eqn:He; [|by subst]. subst targets.
    unfold validateTarget in Ht. rewrite Ha in Ht. cbn [negb andb] in Ht.
    split_and!; try done; [apply NoDup_singleton|..].
    + intros t ->%list_elem_of_singleton. by apply isEligible_known.
    + destruct (isAttackCard id).
      * destruct (falsy (cp_targetPlayerId body)) eqn:Hf; [done|]. cbn [negb andb falsy] in Ht.
        destruct (cp_targetPlayerId body) as [t|]; [|done]. cbn [default] in *.
        intros Hu Hin%list_elem_of_singleton. cbn in Hin. subst t.
        destruct (cp_userId body) eqn:Hu'; [done|]. cbn in Ht.
        rewrite bool_decide_eq_true_2 in Ht by done. done.
      * destruct (cp_targetPlayerId body) as [t|]; [|done].
        by rewrite bool_decide_eq_true_2 in Ht by eauto.
Qed.

(** *** The invariant of validated plays *)

(** The card was offered to its player, before the play, in the offer it names. *)
Definition offered (log : list Event) (x : CardResolvedPayload) : Prop :=
  cr_offerSeqNo x < cr_seqNo x
  /\ exists e no ids seed, e ∈ log /\ ev_seqNo e = cr_offerSeqNo x
     /\ ev_payload e = E_CARD_OFFER no (cr_playedByPlayerId x) ids seed /\ cr_cardId x ∈ ids.

Definition play_key (x : CardResolvedPayload) : jstr * CardId :=
  (cr_playedByPlayerId x, cr_cardId x).

Definition plays_ok (m : Machine) : Prop :=
  numbered m /\ NoDup (ms_players (m_state m)).*1
  /\ (forall no, getAoeCountForRound m no = aoe_count (ms_id (m_state m)) no (resolutions m)
                 /\ getAoeCountForRound m no <= AOE_CAP_PER_ROUND)
  /\ NoDup (play_key <$> resolutions m)
  /\ forall x, x ∈ resolutions m ->
       cr_cardId x ∈ getPlayedCards m (cr_playedByPlayerId x)
       /\ offered (m_log m) x /\ targets_ok (ms_players (m_state m)).*1 x.

Lemma getCardOfferForPlayer_spec m p o ids :
  getCardOfferForPlayer m p o = Some ids ->
  exists e no seed, e ∈ m_log m /\ ev_seqNo e = o /\ ev_payload e = E_CARD_OFFER no p ids seed.
Proof.
  unfold getCardOfferForPlayer. destruct (head _) as [e|] eqn:Hh; [|done].
  assert (e ∈ filter (is_offer_entry p o) (m_log m)) as Hin.
  { destruct (filter _ _); [done|]. injection Hh as ->. by left. }
  apply list_elem_of_filter in Hin as [Hb Hin]. unfold is_offer_entry in Hb.
  destruct e as [pl t k]. cbn in *. destruct pl; try done.
  destruct (bool_decide (length _ = _)); [|done]. intros [= ->]. apply Is_true_true in Hb. bool_to_prop. subst.
  eexists _, _, _. split_and!; done.
Qed.

Lemma offered_extends log log' x : log `prefix_of` log' -> offered log x -> offered log' x.
Proof.
  intros [l ->] (Hlt & e & no & ids & seed & He & H). split; [done|].
  exists e, no, ids, seed. split; [apply elem_of_app; by left|done].
Qed.

Lemma numbered_seqs m e : numbered m -> e ∈ m_log m -> ev_seqNo e <= m_seq m.
Proof.
  intros [-> Hs] He. apply (list_elem_of_fmap_2 ev_seqNo) in He. rewrite Hs in He.
  apply elem_of_seqZ in He. lia.
Qed.

Lemma add_to_set_played p id sets q c :
  c ∈ default [] (map_get q (add_to_set p id sets))
  <-> (q = p /\ c = id) \/ c ∈ default [] (map_get q sets).
Proof.
  unfold add_to_set. destruct (decide (q = p)) as [->|Hne].
  - rewrite map_get_set_eq. cbn. rewrite elem_of_set_add. naive_solver.
  - rewrite map_get_set_ne by done. naive_solver.
Qed.

Lemma aoe_lookup_bump r n no (sets : JsMap Z Z) :
  default 0 (map_get no (map_set r (n + 1) sets))
  = if decide (no = r) then n + 1 else default 0 (map_get no sets).
Proof.
  case_decide as Hd; [subst; by rewrite map_get_set_eq|by rewrite map_get_set_ne].
Qed.

Lemma plays_ok_play p id o effect targets now e k m c :
  plays_ok m -> plays_by_command m (OPlayCard p id o effect targets now e k) ->
  plays_ok (after (OPlayCard p id o effect targets now e k) m c).
Proof.
  intros (Hn & Hnd & Haoe & Hkeys & Hall) (target & cmd & no & Hdec).
  apply decideCardPlay_accepted in Hdec. pose proof Hdec as [_ (r & Hr & Ha & Hno) Hs _ Hoff _ Hfresh _ Hcap _ _].
  cbn [cp_userId cp_offerSeqNo] in *.
  destruct (play_after p id o effect targets now e k m c r Hr Ha Hs)
    as ((x & Hres & Hmid & Hrd & Hp & Hid & Ho & Hseq & Htg & _) & Hpl & Hcnt & Hms).
  pose proof (log_extends_after (OPlayCard p id o effect targets now e k) m c) as Hext.
  set (m' := after _ m c) in *.
  assert (targets_ok (ms_players (m_state m)).*1 x) as Hx.
  { by eapply accepted_targets. }
  assert (NoDup (ms_players (m_state m')).*1) as Hnd' by (unfold m'; by rewrite players_keys_after).
  split_and!; [by apply numbered_after|done| | |].
  - intros no'. unfold getAoeCountForRound at 1 2. rewrite Hres, aoe_count_snoc, Hms, Hcnt.
    unfold aoe_resolution. rewrite Hmid, Hrd, Htg, bool_decide_eq_true_2 by done. cbn [andb].
    destruct (Haoe no') as [Heq Hle]. rewrite <- Heq.
    destruct (1 <? _) eqn:Hlen; [|by rewrite andb_false_r].
    rewrite aoe_lookup_bump, andb_true_r.
    destruct (decide (no' = rd_roundNo r)) as [->|Hne];
      [|by rewrite (proj2 (Z.eqb_neq _ _)) by congruence].
    rewrite Z.eqb_refl. split; [done|]. subst no.
    assert (isAoeCard id = true) as Hisaoe; [|specialize (Hcap Hisaoe); lia].
    destruct (isAoeCard id) eqn:Hi; [done|]. destruct Hx as (_ & _ & _ & Hone & _).
    rewrite Hid, Htg in Hone. specialize (Hone Hi). rewrite Hone in Hlen. done.
  - rewrite Hres, fmap_app. apply NoDup_app. split_and!; [done| |apply NoDup_singleton].
    intros key Hk ->%list_elem_of_singleton. apply list_elem_of_fmap in Hk as (y & Hy & Hyin).
    unfold play_key in Hy. rewrite Hp, Hid in Hy. injection Hy as Hy1 Hy2.
    apply Hall in Hyin as (Hplayed & _). congruence.
  - intros y. rewrite Hres. intros Hy. unfold getPlayedCards.
    unfold m' at 3. rewrite players_keys_after. fold m'. rewrite Hpl, add_to_set_played.
    apply elem_of_app in Hy as [Hy|Hy%list_elem_of_singleton]; [|subst y].
    + destruct (Hall y Hy) as (H1 & H2 & H3). split_and!; [by right| |done].
      by apply (offered_extends (m_log m)).
    + split_and!; [by left| |done]. apply (offered_extends (m_log m)); [done|].
      destruct Hoff as (ids & Hoff & Hin). apply getCardOfferForPlayer_spec in Hoff as (ev & no' & seed & Hev & Hs' & Hpay).
      split; [rewrite Ho, Hseq, <- Hs'; pose proof (numbered_seqs _ _ Hn Hev); lia|].
      exists ev, no', ids, seed. rewrite Ho, Hp, Hid. done.
Qed.

Lemma plays_ok_after op m c : plays_ok m -> plays_by_command m op -> plays_ok (after op m c).
Proof.
  intros H Hop. destruct (is_play op) eqn:Hp.
  { destruct op; try discriminate. by apply plays_ok_play. }
  destruct H as (Hn & Hnd & Haoe & Hkeys & Hall).
  destruct (no_play_after op m c Hp) as (Hres & Hpl & Hcnt & Hid).
  unfold plays_ok, getAoeCountForRound, getPlayedCards. rewrite players_keys_after, Hres, Hpl, Hcnt, Hid.
  split_and!; try done; [by apply numbered_after|].
  intros x Hx. destruct (Hall x Hx) as (H1 & H2 & H3). split_and!; try done.
  apply (offered_extends (m_log m)); [apply log_extends_after|done].
Qed.

Lemma plays_ok_reachable m : reachable fresh plays_by_command m -> plays_ok m.
Proof.
  apply reachable_inv; [|intros; by apply plays_ok_after].
  intros ? (matchId & roomId & players & ->). split_and!; try done.
  - cbn. apply map_of_entries_wf.
  - apply NoDup_nil_2.
  - intros x Hx. by apply elem_of_nil in Hx.
Qed.

(** C18: whatever cards players ask to play, a match whose plays were decided by
    the command handler stays within the rules of the card phase: the counter
    of area cards of every round is the number of area resolutions the log
    holds and never passes the cap; no player plays a card twice; every card
    played was offered to its player earlier, in the offer the play names; an
    attack lands on distinct other players of the match, any other card on its
    caster alone, a card with one target on exactly one player. *)
Theorem validated_plays (m : Machine) :
  reachable fresh plays_by_command m ->
  (forall no, getAoeCountForRound m no
              = countAoeResolved (getEventLog m) (ms_id (m_state m)) no
              /\ getAoeCountForRound m no <= AOE_CAP_PER_ROUND)
  /\ NoDup (play_key <$> resolutions m)
  /\ forall x, x ∈ resolutions m ->
       offered (getEventLog m) x /\ targets_ok (ms_players (m_state m)).*1 x.
Proof.
  intros (_ & _ & Haoe & Hkeys & Hall)%plays_ok_reachable. split_and!; [|done|].
  - intros no. rewrite countAoeResolved_eq. apply Haoe.
  - intros x Hx. by apply Hall.
Qed.

(** *** A match with an area card *)

Definition aoe_setup : list Op :=
  [OTransition COUNTDOWN; OClassAssignment [js "p1"; js "p2"; js "p3"] (js "seed");
   OTransition ROUND_ACTIVE; OStartRound demo_question None;
   OPickOffer (js "p2") 1 (js "seed"); OPickCard (js "p2") CB_8 5 None None].
Definition aoe_before : Machine := exec_all aoe_setup demo_start demo_clock.
Definition aoe_request : CardPlayBody := mkCardPlay (js "p2") (card_str CB_8) 5 None (js "c1").
Definition aoe_play : Op :=
  OPlayCard (js "p2") CB_8 5 (DELAY_RENDER 2000 3) [js "p3"; js "p1"] 1100 (Some (js "e1"))
    (Some (js "c1")).
Definition aoe_after : Machine := after aoe_play aoe_before demo_clock.

Lemma aoe_request_accepted :
  decideCardPlay aoe_before (ms_id (m_state aoe_before)) aoe_request
  = PlayAccepted CB_8 (DELAY_RENDER 2000 3) [js "p3"; js "p1"] 1.
Proof. vm_compute. reflexivity. Qed.

Lemma aoe_after_reachable : reachable fresh plays_by_command aoe_after.
Proof.
  apply reach_step; [|exists None, (js "c1"), 1; exact aoe_request_accepted|apply demo_clock_in_range].
  apply exec_all_reachable; [apply reach_init, demo_start_fresh|apply demo_clock_in_range|].
  intros m' op Hin. unfold aoe_setup in Hin.
  repeat (apply elem_of_cons in Hin as [->|Hin]; [exact I|]).
  by apply elem_of_nil in Hin.
Qed.

Lemma validated_plays_witness :
  getAoeCountForRound aoe_after 1 = 1 /\ cr_targetPlayerIds <$> resolutions aoe_after = [[js "p3"; js "p1"]]
  /\ getAoeCountForRound aoe_after 1 <= AOE_CAP_PER_ROUND.
Proof.
  split; [vm_compute; reflexivity|]. split; [vm_compute; reflexivity|].
  exact (proj2 (proj1 (validated_plays aoe_after aoe_after_reachable) 1)).
Defined.

(** ** What a broadcast tells to whom *)

(** What a socket in these rooms receives. *)
Definition received (channels : list jstr) (l : list Emission) : list ServerPayload :=
  em_payload <$> filter (delivered channels) l.

(** Effects that differ only in what the targets alone may know: the options
    that are wrong, the text of a hint, the cards destroyed in a hand. *)
Inductive same_public : CardEffect -> CardEffect -> Prop :=
| sp_refl e : same_public e e
| sp_disable i i' count available d :
    same_public (OPTION_DISABLE i count available d) (OPTION_DISABLE i' count available d)
| sp_fake i i' d : same_public (OPTION_FAKE i d) (OPTION_FAKE i' d)
| sp_hint p p' : same_public (HINT_REVEAL p) (HINT_REVEAL p')
| sp_destroy count available l l' :
    same_public (HAND_DESTROY count available l) (HAND_DESTROY count available l').

(** The sockets of a player who is in the room. *)
Definition player_rooms (roomId q : jstr) : list jstr := [player_channel q; room_channel roomId].

Lemma room_player_ne r q : room_channel r <> player_channel q.
Proof. discriminate. Qed.

Lemma player_channel_in q (l : list jstr) : player_channel q ∈ player_channel <$> l <-> q ∈ l.
Proof.
  rewrite list_elem_of_fmap. split; [|eauto].
  by intros (x & H%app_inv_head & Hx); subst.
Qed.

Lemma delivered_room roomId q targets frame :
  delivered (player_rooms roomId q) (mkEmission (room_channel roomId) (player_channel <$> targets) frame)
  = negb (set_has q targets).
Proof.
  unfold delivered. cbn [em_to em_except].
  rewrite (proj2 (set_has_spec (room_channel roomId) _)) by (unfold player_rooms; right; left). cbn [andb].
  induction targets as [|t l IH]; [done|]. cbn [fmap list_fmap forallb]. rewrite IH.
  destruct (decide (q = t)) as [->|Hne].
  - rewrite (proj2 (set_has_spec (player_channel t) _)) by (unfold player_rooms; left).
    by rewrite (proj2 (set_has_spec t (t :: l))) by left.
  - assert (set_has (player_channel t) (player_rooms roomId q) = false) as ->.
    { apply not_true_iff_false. rewrite set_has_spec. unfold player_rooms.
      intros [H|[H|H]%elem_of_cons]%elem_of_cons; [by apply app_inv_head in H| |by apply elem_of_nil in H].
      by symmetry in H; apply room_player_ne in H. }
    cbn [negb andb]. f_equal. apply eq_true_iff_eq. rewrite !set_has_spec, elem_of_cons. naive_solver.
Qed.

Lemma received_own roomId q targets frame :
  NoDup targets ->
  received (player_rooms roomId q) ((fun t => to_player t frame) <$> targets)
  = if set_has q targets then [frame] else [].
Proof.
  induction 1 as [|t l Ht Hnd IH]; [done|]. unfold received in *. cbn [fmap list_fmap].
  assert (delivered (player_rooms roomId q) (to_player t frame)
          = bool_decide (q = t)) as Hd.
  { unfold delivered, to_player. cbn [em_to em_except forallb]. rewrite andb_true_r. apply eq_true_iff_eq.
    rewrite set_has_spec, bool_decide_eq_true. unfold player_rooms. rewrite !elem_of_cons. split.
    - intros [H|[H|H]]; [by apply app_inv_head in H| |by apply elem_of_nil in H].
      by symmetry in H; apply room_player_ne in H.
    - intros ->. by left. }
  rewrite filter_cons, Hd. destruct (decide (q = t)) as [->|Hne].
  - rewrite bool_decide_eq_true_2, decide_True by done. cbn [fmap list_fmap em_payload to_player]. rewrite IH.
    rewrite (proj2 (set_has_spec t (t :: l))) by left.
    destruct (set_has t l) eqn:E; [by apply set_has_spec in E|done].
  - rewrite bool_decide_eq_false_2, decide_False by naive_solver. rewrite IH.
    assert (set_has q (t :: l) = set_has q l) as ->; [|done].
    apply eq_true_iff_eq. rewrite !set_has_spec, elem_of_cons. naive_solver.
Qed.

(** C30: every player in the room receives one frame of a resolved card.  A
    target gets the effect as it was resolved; any other player, the caster of
    an attack included, gets a frame that does not depend on the hidden part of
    the effect; a player who is not in the room and not a target gets nothing. *)
Theorem card_broadcast_secrecy (roomId q : jstr) (x : CardResolvedPayload) :
  roomId <> [] -> NoDup (cr_targetPlayerIds x) ->
  let inside y := received (player_rooms roomId q) (emitCardResolved (Some roomId) y) in
  (q ∈ cr_targetPlayerIds x -> inside x = [S_CARD_RESOLVED (with_effect (cr_effect x) x)])
  /\ (q ∉ cr_targetPlayerIds x ->
      length (inside x) = 1%nat
      /\ (forall effect, same_public (cr_effect x) effect -> inside (with_effect effect x) = inside x)
      /\ forall r, r <> roomId -> received (player_rooms r q) (emitCardResolved (Some roomId) x) = []).
Proof.
  intros Hr Hnd inside.
  assert (forall y, cr_targetPlayerIds y = cr_targetPlayerIds x ->
    inside y = [S_CARD_RESOLVED (with_effect (if set_has q (cr_targetPlayerIds x) then cr_effect y
                                              else sanitizeCardEffect (cr_effect y)) y)]) as Hin.
  { intros y Hy. unfold inside, emitCardResolved. destruct roomId as [|c cs] eqn:Hroom; [done|].
    rewrite <- Hroom in *. replace (falsy (Some roomId)) with false by (by rewrite Hroom).
    cbn [default]. unfold received. rewrite filter_cons, delivered_room, Hy.
    pose proof (received_own roomId q (cr_targetPlayerIds x)
                  (S_CARD_RESOLVED (with_effect (cr_effect y) y)) Hnd) as Hown.
    unfold received in Hown.
    destruct (set_has q (cr_targetPlayerIds x)); cbn [negb].
    - rewrite decide_False by (by intros []). exact Hown.
    - rewrite decide_True by exact I. cbn [fmap list_fmap em_payload]. by rewrite Hown. }
  split.
  - intros Hq%set_has_spec. by rewrite Hin, Hq.
  - intros Hq. assert (set_has q (cr_targetPlayerIds x) = false) as Hq'.
    { apply not_true_iff_false. by rewrite set_has_spec. }
    split_and!.
    + by rewrite Hin.
    + intros effect Hs. rewrite !Hin, Hq' by done. cbn [with_effect cr_effect].
      assert (sanitizeCardEffect (cr_effect x) = sanitizeCardEffect effect) as -> by (by destruct Hs).
      done.
    + intros r Hne. unfold emitCardResolved. destruct roomId as [|c cs] eqn:Hroom; [done|].
      rewrite <- Hroom in *. replace (falsy (Some roomId)) with false by (by rewrite Hroom).
      cbn [default]. unfold received. rewrite filter_cons, decide_False.
      * pose proof (received_own r q (cr_targetPlayerIds x)
          (S_CARD_RESOLVED (with_effect (cr_effect x) x)) Hnd) as Hown.
        unfold received in Hown. by rewrite Hown, Hq'.
      * unfold delivered. cbn [em_to]. replace (set_has _ _) with false; [by intros []|].
        symmetry. apply not_true_iff_false. rewrite set_has_spec. unfold player_rooms.
        intros [H|[H|H]%elem_of_cons]%elem_of_cons; [by apply room_player_ne in H| |by apply elem_of_nil in H].
        by apply app_inv_head in H.
Qed.

Definition peek : CardResolvedPayload :=
  mkResolved 9 (js "m1") 1 1 TN_7 5 (js "p1") [js "p2"] (OPTION_DISABLE [0; 2] 2 4 5000) TEMPORARY
    1100 (Some 6100) (Some 5000) None None.

Lemma card_broadcast_secrecy_witness :
  received (player_rooms (js "r1") (js "p1")) (emitCardResolved (Some (js "r1")) peek)
  = received (player_rooms (js "r1") (js "p1"))
      (emitCardResolved (Some (js "r1")) (with_effect (OPTION_DISABLE [1; 3] 2 4 5000) peek)).
Proof.
  symmetry. refine (proj1 (proj2 (proj2 (card_broadcast_secrecy (js "r1") (js "p1") peek _ _) _)) _ _).
  - discriminate.
  - apply NoDup_singleton.
  - intros H. by apply list_elem_of_singleton in H.
  - apply sp_disable.
Defined.
