(* ===== verification/Envelopes.v ===== *)
(** * The envelopes of the owner command channel

    The types of [dto/match-command.dto.ts], and the entries of a stream. *)

From S2P Require Import Prelude JsData Effects Shared Cards CardEngine Machine CardCommands.
#[local] Open Scope Z_scope.

Record SubmitAnswerBody := mkSubmitAnswer {
  sa_userId : jstr;
  sa_answer : jstr;
  sa_submissionId : jstr;
  sa_commandId : jstr;
}.

Record CardPickBody := mkCardPick {
  ck_userId : jstr;
  ck_cardId : jstr;
  ck_offerSeqNo : Z;
  ck_commandId : jstr;
}.

Record VoteBanTopicBody := mkVoteBan {
  vb_userId : jstr;
  vb_topic : jstr;
  vb_commandId : option jstr;
}.

Inductive OwnerCommandBody :=
| submit_answer (b : SubmitAnswerBody)
| player_disconnect (userId : jstr)
| card_pick (b : CardPickBody)
| card_play (b : CardPlayBody)
| vote_ban_topic (b : VoteBanTopicBody).

Record CommandEnvelope := mkEnvelope {
  env_eventId : jstr;
  env_matchId : jstr;
  env_body : OwnerCommandBody;
}.

(** An entry of a Redis stream: its id and its text. *)
Record StreamEntry := mkEntry { se_id : jstr; se_data : jstr }.
