(* ===== verification/Async.v ===== *)
(** * Asynchronous programs

    An [async] function of the server is a program: synchronous segments that
    read and write the memory of the process, events it emits, and [await]s of
    requests whose promise is settled later with a value or a rejection.  A
    process runs one segment at a time; while a program awaits, anything else
    may happen. *)

From S2P Require Import Prelude JsData Effects Shared.
#[local] Open Scope Z_scope.

Section Programs.
(** [W]: the memory of the process; [O]: what it emits; [Q]: the requests. *)
Context {W O : Type} {Q : Type -> Type}.

Inductive Prog (R : Type) : Type :=
| Done (o : outcome exn R)
| Act {X : Type} (f : W -> X * W) (k : X -> Prog R)
| Say (x : O) (k : Prog R)
| Await {X : Type} (q : Q X) (k : outcome exn X -> Prog R).
Arguments Done {R} o.
Arguments Act {R X} f k.
Arguments Say {R} x k.
Arguments Await {R X} q k.

Definition pret {R} (r : R) : Prog R := Done (Ok r).
Definition raise {R} (e : exn) : Prog R := Done (Throw e).
Definition act {X} (f : W -> X * W) : Prog X := Act f pret.
Definition say (x : O) : Prog unit := Say x (pret tt).
Definition await {X} (q : Q X) : Prog X := Await q Done.
Definition reads {X} (f : W -> X) : Prog X := act (fun w => (f w, w)).
Definition writes (f : W -> W) : Prog unit := act (fun w => (tt, f w)).

Fixpoint pbind {A B} (p : Prog A) (k : A -> Prog B) : Prog B :=
  match p with
  | Done (Ok a) => k a
  | Done (Throw e) => Done (Throw e)
  | Act f c => Act f (fun x => pbind (c x) k)
  | Say x c => Say x (pbind c k)
  | Await q c => Await q (fun r => pbind (c r) k)
  end.

(** [try { p } catch]: the outcome of [p] as a value. *)
Fixpoint attempt {A} (p : Prog A) : Prog (outcome exn A) :=
  match p with
  | Done o => pret o
  | Act f c => Act f (fun x => attempt (c x))
  | Say x c => Say x (attempt c)
  | Await q c => Await q (fun r => attempt (c r))
  end.

(** [try { p } finally { f }], for a synchronous [f]. *)
Definition finally {A} (p : Prog A) (f : W -> W) : Prog A :=
  pbind (attempt p) (fun o => Act (fun w => (tt, f w)) (fun _ => Done o)).

(** [for (const x of l) { ... }] *)
Fixpoint for_each {A} (l : list A) (body : A -> Prog unit) : Prog unit :=
  match l with
  | [] => pret tt
  | x :: l' => pbind (body x) (fun _ => for_each l' body)
  end.

(** ** Runs *)

(** What can be seen of a run: emissions, and requests with their replies. *)
Inductive Item :=
| Said (x : O)
| Asked {X : Type} (q : Q X) (r : outcome exn X).

Section Runs.
(** What the rest of the process may do to the memory during an [await]. *)
Context (Env : W -> W -> Prop).

Inductive runs {R} : Prog R -> W -> list Item -> outcome exn R -> W -> Prop :=
| runs_done o w : runs (Done o) w [] o w
| runs_act {X} (f : W -> X * W) k w t o w' :
    runs (k (f w).1) (f w).2 t o w' -> runs (Act f k) w t o w'
| runs_say x k w t o w' : runs k w t o w' -> runs (Say x k) w (Said x :: t) o w'
| runs_await {X} (q : Q X) k w w1 r t o w' :
    Env w w1 -> runs (k r) w1 t o w' -> runs (Await q k) w (Asked q r :: t) o w'.

(** [always p w Post]: every run of [p] from [w] ends in [Post]. *)
Fixpoint always {R} (p : Prog R) (w : W) (Post : outcome exn R -> W -> list Item -> Prop) : Prop :=
  match p with
  | Done o => Post o w []
  | Act f k => always (k (f w).1) (f w).2 Post
  | Say x k => always k w (fun o w' t => Post o w' (Said x :: t))
  | Await q k => forall w1 r, Env w w1 ->
      always (k r) w1 (fun o w' t => Post o w' (Asked q r :: t))
  end.

Lemma always_mono {R} (p : Prog R) w (Post Post' : outcome exn R -> W -> list Item -> Prop) :
  (forall o w' t, Post o w' t -> Post' o w' t) -> always p w Post -> always p w Post'.
Proof.
  revert w Post Post'. induction p as [o|X f k IH|x k IH|X q k IH]; intros w Post Post' HP; cbn.
  - apply HP.
  - apply IH, HP.
  - apply IH. intros. by apply HP.
  - intros H w1 r Hw. eapply IH; [|by apply H]. intros. by apply HP.
Qed.

Lemma always_runs {R} (p : Prog R) w Post t o w' : always p w Post -> runs p w t o w' -> Post o w' t.
Proof.
  intros Ha Hr. revert Post Ha. induction Hr as [|X f k w t o w' Hr IH|x k w t o w' Hr IH|X q k w w1 r t o w' Hw Hr IH];
    intros Post Ha; cbn in Ha; [done|by apply (IH Post)| |].
  - apply (IH (fun o w' t => Post o w' (Said x :: t))), Ha.
  - apply (IH (fun o w' t => Post o w' (Asked q r :: t))). by apply Ha.
Qed.

Lemma runs_always {R} (p : Prog R) w : always p w (fun o w' t => runs p w t o w').
Proof.
  revert w. induction p as [o|X f k IH|x k IH|X q k IH]; intros w; cbn.
  - constructor.
  - eapply always_mono; [|apply IH]. intros. by constructor.
  - eapply always_mono; [|apply IH]. intros. by constructor.
  - intros w1 r Hw. eapply always_mono; [|apply IH]. intros. by econstructor.
Qed.

(** What follows a program starts where it stops. *)
Definition then_always {A B} (k : A -> Prog B) (Post : outcome exn B -> W -> list Item -> Prop)
    (o : outcome exn A) (w : W) (t : list Item) : Prop :=
  match o with
  | Ok a => always (k a) w (fun o' w' t' => Post o' w' (t ++ t'))
  | Throw e => Post (Throw e) w t
  end.

Lemma always_bind {A B} (p : Prog A) (k : A -> Prog B) w Post :
  always p w (then_always k Post) -> always (pbind p k) w Post.
Proof.
  revert w Post. induction p as [o|X f c IH|x c IH|X q c IH]; intros w Post; cbn.
  - by destruct o.
  - apply IH.
  - intros H. apply IH. eapply always_mono; [|exact H]. by intros [a|e] w' t.
  - intros H w1 r Hw. apply IH. eapply always_mono; [|by apply H]. by intros [a|e] w' t.
Qed.

Lemma always_attempt {A} (p : Prog A) w Post :
  always p w (fun o w' t => Post (Ok o) w' t) -> always (attempt p) w Post.
Proof.
  revert w Post. induction p as [o|X f c IH|x c IH|X q c IH]; intros w Post; cbn; try done.
  - apply IH.
  - intros H. by apply IH.
  - intros H w1 r Hw. apply IH. by apply H.
Qed.

Lemma always_and {R} (p : Prog R) w (P1 P2 : outcome exn R -> W -> list Item -> Prop) :
  always p w P1 -> always p w P2 -> always p w (fun o w' t => P1 o w' t /\ P2 o w' t).
Proof.
  revert w P1 P2. induction p as [o|X f c IH|x c IH|X q c IH]; intros w P1 P2; cbn; try done.
  - apply IH.
  - apply IH.
  - intros H1 H2 w1 r Hw. by apply IH; [apply H1|apply H2].
Qed.
End Runs.

(** ** Specifications that do not depend on the memory *)

(** Every run, whatever the memory and whatever happens to it meanwhile. *)
Definition every_run {R} (p : Prog R) (P : outcome exn R -> list Item -> Prop) : Prop :=
  forall Env w, always Env p w (fun o _ t => P o t).

Lemma every_run_runs {R} (p : Prog R) P Env w t o w' : every_run p P -> runs Env p w t o w' -> P o t.
Proof. intros H. apply (always_runs Env p w (fun o _ t => P o t)), H. Qed.

Lemma every_mono {R} (p : Prog R) (P P' : outcome exn R -> list Item -> Prop) :
  (forall o t, P o t -> P' o t) -> every_run p P -> every_run p P'.
Proof. intros HP H Env w. eapply always_mono; [|apply H]. intros. by apply HP. Qed.

Lemma every_done {R} (o : outcome exn R) (P : outcome exn R -> list Item -> Prop) :
  P o [] -> every_run (Done o) P.
Proof. by intros H Env w. Qed.

Lemma every_ret {R} (r : R) (P : outcome exn R -> list Item -> Prop) :
  P (Ok r) [] -> every_run (pret r) P.
Proof. apply every_done. Qed.

Lemma every_bind {A B} (p : Prog A) (k : A -> Prog B) P1 P :
  every_run p P1 ->
  (forall o t, P1 o t -> match o with
                         | Ok a => every_run (k a) (fun o' t' => P o' (t ++ t'))
                         | Throw e => P (Throw e) t
                         end) ->
  every_run (pbind p k) P.
Proof.
  intros H1 H2 Env w. apply always_bind. eapply always_mono; [|apply H1].
  intros [a|e] w' t Ht; apply H2 in Ht; [apply Ht|done].
Qed.

Lemma every_act {X B} (f : W -> X * W) (k : X -> Prog B) P :
  (forall x, every_run (k x) P) -> every_run (pbind (act f) k) P.
Proof. intros H Env w. apply H. Qed.

Lemma every_say {B} (x : O) (k : unit -> Prog B) (P : outcome exn B -> list Item -> Prop) :
  every_run (k tt) (fun o t => P o (Said x :: t)) -> every_run (pbind (say x) k) P.
Proof. intros H Env w. apply H. Qed.

Lemma every_await {X B} (q : Q X) (k : X -> Prog B) (P : outcome exn B -> list Item -> Prop) :
  (forall r, every_run (match r with Ok x => k x | Throw e => Done (Throw e) end)
               (fun o t => P o (Asked q r :: t))) ->
  every_run (pbind (await q) k) P.
Proof.
  intros H Env w. cbn. intros w1 r _. specialize (H r Env w1). by destruct r.
Qed.

Lemma every_attempt {A} (p : Prog A) P :
  every_run p (fun o t => P (Ok o) t) -> every_run (attempt p) P.
Proof. intros H Env w. apply always_attempt, H. Qed.

Lemma every_try {X B} (q : Q X) (k : outcome exn X -> Prog B) (P : outcome exn B -> list Item -> Prop) :
  (forall r, every_run (k r) (fun o t => P o (Asked q r :: t))) ->
  every_run (pbind (attempt (await q)) k) P.
Proof. intros H Env w. cbn. intros w1 r _. apply H. Qed.

Lemma every_await_last {X} (q : Q X) (P : outcome exn X -> list Item -> Prop) :
  (forall r, P r [Asked q r]) -> every_run (await q) P.
Proof. intros H Env w. cbn. intros. apply H. Qed.

Lemma every_assoc {A B C} (p : Prog A) (k : A -> Prog B) (k2 : B -> Prog C) P :
  every_run (pbind p (fun a => pbind (k a) k2)) P -> every_run (pbind (pbind p k) k2) P.
Proof.
  intros H Env w. specialize (H Env w). revert H. generalize (fun o (_ : W) t => P o t). revert w.
  induction p as [[a|e]|X f c IH|x c IH|X q c IH]; intros w Post; cbn; try done.
  - apply IH.
  - apply IH.
  - intros H w1 r Hw. apply IH. by apply H.
Qed.

Lemma every_last {A} (p : Prog A) P : every_run (pbind p pret) P -> every_run p P.
Proof.
  intros H Env w. specialize (H Env w). revert H. generalize (fun o (_ : W) t => P o t). revert w.
  induction p as [[a|e]|X f c IH|x c IH|X q c IH]; intros w Post; cbn; try done.
  - apply IH.
  - apply IH.
  - intros H w1 r Hw. apply IH. by apply H.
Qed.

Lemma every_finally {A} (p : Prog A) f P : every_run p P -> every_run (finally p f) P.
Proof.
  intros H. unfold finally.
  apply (every_bind _ _ (fun o t => match o with Ok o' => P o' t | Throw _ => False end)).
  - by apply every_attempt.
  - intros [o|e] t Ht; [|done]. intros Env w. cbn. by rewrite app_nil_r.
Qed.

(** ** Specifications of cooperative runs *)

(** [said t]: what a run emitted. *)
Definition said (t : list Item) : list O :=
  omap (fun i => match i with Said x => Some x | Asked _ _ => None end) t.

Section Cooperative.
(** What may happen during an [await], and which replies are looked at. *)
Context (Env : W -> W -> Prop) (Reply : forall X, Q X -> outcome exn X -> Prop).

(** Every reply of the run is one of those looked at. *)
Fixpoint obliged (t : list Item) : Prop :=
  match t with
  | [] => True
  | Said _ :: t' => obliged t'
  | Asked q r :: t' => Reply _ q r /\ obliged t'
  end.

(** Every obliged run of [p] from [w] ends in [Post]. *)
Fixpoint wp {R} (p : Prog R) (w : W) (Post : outcome exn R -> W -> list O -> Prop) : Prop :=
  match p with
  | Done o => Post o w []
  | Act f k => wp (k (f w).1) (f w).2 Post
  | Say x k => wp k w (fun o w' l => Post o w' (x :: l))
  | Await q k => forall w1 r, Env w w1 -> Reply _ q r -> wp (k r) w1 Post
  end.

Lemma wp_mono {R} (p : Prog R) w (Post Post' : outcome exn R -> W -> list O -> Prop) :
  (forall o w' l, Post o w' l -> Post' o w' l) -> wp p w Post -> wp p w Post'.
Proof.
  revert w Post Post'. induction p as [o|X f k IH|x k IH|X q k IH]; intros w Post Post' HP; cbn.
  - apply HP.
  - apply IH, HP.
  - apply IH. intros. by apply HP.
  - intros H w1 r Hw Hr. eapply IH; [exact HP|by apply H].
Qed.

Lemma wp_bind {A B} (p : Prog A) (k : A -> Prog B) w Post :
  wp p w (fun o w' l =>
    match o with
    | Ok a => wp (k a) w' (fun o' w2 l' => Post o' w2 (l ++ l'))
    | Throw e => Post (Throw e) w' l
    end) ->
  wp (pbind p k) w Post.
Proof.
  revert w Post. induction p as [[a|e]|X f c IH|x c IH|X q c IH]; intros w Post; cbn; try done.
  - apply IH.
  - intros H. apply IH. exact H.
  - intros H w1 r Hw Hr. by apply IH, H.
Qed.

Lemma wp_attempt {A} (p : Prog A) w Post :
  wp p w (fun o w' l => Post (Ok o) w' l) -> wp (attempt p) w Post.
Proof.
  revert w Post. induction p as [o|X f c IH|x c IH|X q c IH]; intros w Post; cbn; try done.
  - apply IH.
  - intros H. by apply IH.
  - intros H w1 r Hw Hr. by apply IH, H.
Qed.

Lemma wp_finally {A} (p : Prog A) f w Post :
  wp p w (fun o w' l => Post o (f w') l) -> wp (finally p f) w Post.
Proof.
  intros H. unfold finally. apply wp_bind, wp_attempt. eapply wp_mono; [|exact H].
  intros o w' l HP. cbn. by rewrite app_nil_r.
Qed.

Lemma wp_runs {R} (p : Prog R) w Post t o w' :
  wp p w Post -> runs Env p w t o w' -> obliged t -> Post o w' (said t).
Proof.
  intros Ha Hr. revert Post Ha. induction Hr as [|X f k w t o w' Hr IH|x k w t o w' Hr IH|X q k w w1 r t o w' Hw Hr IH];
    intros Post Ha Ho; cbn in Ha, Ho; [done|by apply IH| |].
  - apply (IH (fun o w' l => Post o w' (x :: l)) Ha Ho).
  - destruct Ho as [Hq Ho]. exact (IH Post (Ha _ _ Hw Hq) Ho).
Qed.

(** When every request has a reply that is looked at, there is such a run. *)
Lemma wp_inhabited {R} (p : Prog R) w :
  (forall w, Env w w) -> (forall X (q : Q X), exists r, Reply X q r) ->
  exists t o w', runs Env p w t o w' /\ obliged t.
Proof.
  intros HE HR. revert w. induction p as [o|X f k IH|x k IH|X q k IH]; intros w.
  - exists [], o, w. by split; [constructor|].
  - destruct (IH (f w).1 (f w).2) as (t & o & w' & Hr & Ho). exists t, o, w'. by split; [constructor|].
  - destruct (IH w) as (t & o & w' & Hr & Ho). exists (Said x :: t), o, w'. by split; [constructor|].
  - destruct (HR X q) as [r Hq]. destruct (IH r w) as (t & o & w' & Hr & Ho).
    exists (Asked q r :: t), o, w'. by split; [econstructor|].
Qed.
End Cooperative.

(** ** Executing a program alone *)

(** The requests are answered one after the other by an environment [E]. *)
Fixpoint drive {E R} (answer : forall X, Q X -> W -> E -> outcome exn X * E) (p : Prog R) (w : W) (e : E)
    : outcome exn R * W * E * list O :=
  match p with
  | Done o => (o, w, e, [])
  | Act f k => drive answer (k (f w).1) (f w).2 e
  | Say x k => let '(o, w', e', l) := drive answer k w e in (o, w', e', x :: l)
  | Await q k => let '(r, e1) := answer _ q w e in drive answer (k r) w e1
  end.

Lemma drive_runs {E R} (Env : W -> W -> Prop) `{!Reflexive Env}
    (answer : forall X, Q X -> W -> E -> outcome exn X * E) (p : Prog R) w e o w' e' l :
  drive answer p w e = (o, w', e', l) -> exists t, runs Env p w t o w' /\ said t = l.
Proof.
  revert w e o w' e' l. induction p as [o0|X f k IH|x k IH|X q k IH]; intros * H; cbn in H.
  - injection H as <- <- _ <-. eexists. split; [constructor|done].
  - apply IH in H as (t & Ht & <-). eexists. split; [by constructor|done].
  - destruct (drive answer k w e) as [[[o1 w1] e1] l1] eqn:Hd. injection H as <- <- _ <-.
    apply IH in Hd as (t & Ht & <-). eexists. split; [by constructor|done].
  - destruct (answer X q w e) as [r e1] eqn:Ha.
    apply IH in H as (t & Ht & <-). eexists. split; [by econstructor|done].
Qed.

Lemma drive_outcome {E R} (Env : W -> W -> Prop) `{!Reflexive Env}
    (answer : forall X, Q X -> W -> E -> outcome exn X * E) (p : Prog R) w e o :
  (drive answer p w e).1.1.1 = o ->
  exists t w', runs Env p w t o w' /\ said t = (drive answer p w e).2.
Proof.
  destruct (drive answer p w e) as [[[o1 w1] e1] l] eqn:Hd. cbn. intros <-.
  destruct (drive_runs Env answer p w e _ _ _ _ Hd) as (t & Hr & <-). by exists t, w1.
Qed.
End Programs.

Arguments Prog : clear implicits.
Arguments Item : clear implicits.
Arguments Done {W O Q R} o.
Arguments Act {W O Q R X} f k.
Arguments Say {W O Q R} x k.
Arguments Await {W O Q R X} q k.

Declare Scope prog_scope.
Delimit Scope prog_scope with prog.
Notation "x <- p ;; k" := (pbind p (fun x => k))
  (at level 100, p at next level, right associativity) : prog_scope.
Notation "p ;; k" := (pbind p (fun _ => k))
  (at level 100, right associativity) : prog_scope.
