(* ===== verification/Timers.v ===== *)
(** * [match-timer.registry.ts]

    The timers of the match loops and the bookkeeping that lives only in the
    memory of a process: used questions, expected answers, the guards of the
    end of a round and of a match. *)

From stdpp Require Import gmap.
From S2P Require Import Prelude JsData Effects Shared Cards Machine.
#[local] Open Scope Z_scope.

(** What a timer does when it fires. *)
Inductive Callback :=
| CbTopicVoting | CbCountdown | CbRoundEnd | CbMatchEnd
| CbBotAnswer (userId answer submissionId : jstr)
| CbBotCard (botId : jstr) (cardId : CardId) (offerSeqNo : Z) (question : QuestionInput).

(** A live [setTimeout] handle: its callback and its delay. *)
Record Timer := mkTimer {
  tm_callback : Callback;
  tm_roomId : jstr;
  tm_delay : Z;
}.

Record TimerRegistry := mkTimers {
  tr_activeTimers : gmap jstr (list Timer);
  tr_usedQuestionIds : gmap jstr (list jstr);
  tr_expectedAnswers : gmap jstr Z;
  tr_endingRounds : gset jstr;
  tr_finishingMatches : gset jstr;
  tr_finishingPromises : gmap jstr nat;
}.

Definition no_timers : TimerRegistry := mkTimers ∅ ∅ ∅ ∅ ∅ ∅.

Section Registry.
Implicit Types (matchId : jstr) (t : TimerRegistry).

Definition set_active v t := mkTimers v (tr_usedQuestionIds t) (tr_expectedAnswers t)
  (tr_endingRounds t) (tr_finishingMatches t) (tr_finishingPromises t).
Definition set_used v t := mkTimers (tr_activeTimers t) v (tr_expectedAnswers t)
  (tr_endingRounds t) (tr_finishingMatches t) (tr_finishingPromises t).
Definition set_expected v t := mkTimers (tr_activeTimers t) (tr_usedQuestionIds t) v
  (tr_endingRounds t) (tr_finishingMatches t) (tr_finishingPromises t).
Definition set_ending v t := mkTimers (tr_activeTimers t) (tr_usedQuestionIds t)
  (tr_expectedAnswers t) v (tr_finishingMatches t) (tr_finishingPromises t).
Definition set_finishing v p t := mkTimers (tr_activeTimers t) (tr_usedQuestionIds t)
  (tr_expectedAnswers t) (tr_endingRounds t) v p.

(** [ensureMatch(matchId).add(timer)] *)
Definition addTimer matchId (timer : Timer) t : TimerRegistry :=
  set_active (<[matchId := default [] (tr_activeTimers t !! matchId) ++ [timer]]> (tr_activeTimers t)) t.

Definition clearTimers matchId t : TimerRegistry := set_active (delete matchId (tr_activeTimers t)) t.
Definition hasTimers matchId t : bool := bool_decide (is_Some (tr_activeTimers t !! matchId)).

Definition initUsedQuestions matchId t : TimerRegistry :=
  set_used (<[matchId := []]> (tr_usedQuestionIds t)) t.
Definition markQuestionUsed matchId (questionId : jstr) t : TimerRegistry :=
  set_used (<[matchId := set_add questionId (default [] (tr_usedQuestionIds t !! matchId))]>
              (tr_usedQuestionIds t)) t.
Definition getUsedQuestions matchId t : option (list jstr) := tr_usedQuestionIds t !! matchId.

Definition setExpectedAnswers matchId (count : Z) t : TimerRegistry :=
  set_expected (<[matchId := count]> (tr_expectedAnswers t)) t.
Definition getExpectedAnswers matchId t : Z := default 0 (tr_expectedAnswers t !! matchId).

(** The guards: whether the caller got in, and the registry after. *)
Definition beginEndRound matchId t : bool * TimerRegistry :=
  if bool_decide (matchId ∈ tr_endingRounds t) then (false, t)
  else (true, set_ending ({[matchId]} ∪ tr_endingRounds t) t).
Definition endEndRound matchId t : TimerRegistry := set_ending (tr_endingRounds t ∖ {[matchId]}) t.
Definition isEndingRound matchId t : bool := bool_decide (matchId ∈ tr_endingRounds t).

Definition beginFinish matchId t : bool * TimerRegistry :=
  if bool_decide (matchId ∈ tr_finishingMatches t) then (false, t)
  else (true, set_finishing ({[matchId]} ∪ tr_finishingMatches t) (tr_finishingPromises t) t).
Definition endFinish matchId t : TimerRegistry :=
  set_finishing (tr_finishingMatches t ∖ {[matchId]}) (delete matchId (tr_finishingPromises t)) t.
Definition isFinishing matchId t : bool := bool_decide (matchId ∈ tr_finishingMatches t).
Definition registerFinishPromise matchId (promise : nat) t : TimerRegistry :=
  set_finishing (tr_finishingMatches t) (<[matchId := promise]> (tr_finishingPromises t)) t.

Definition disposeMatch matchId t : TimerRegistry :=
  let t1 := clearTimers matchId t in
  set_expected (delete matchId (tr_expectedAnswers t1))
    (set_used (delete matchId (tr_usedQuestionIds t1)) t1).
End Registry.
