(* ===== verification/Node.v ===== *)
(** * The memory of a server process, and [match.service.ts]

    A process holds match state machines as shared objects, a cache from match
    ids to them, the ownership it believes in, the timers of the match loops.
    The methods of [MatchService] on the live state are programs over it:
    the cached load, the eviction, the serialised and fenced persist. *)

From stdpp Require Import gmap.
From S2P Require Import Prelude JsData Doubles Effects Shared Decimal Redis Lease Fencing.
From S2P Require Import Cards Scoring TopicVoting ClassEngine Machine MachineCards MachineOps MachineRounds MatchCodec.
From S2P Require Import Events CardCommands Envelopes Async Timers.
#[local] Open Scope Z_scope.
#[local] Open Scope prog_scope.

(** ** Requests *)

(** The row of a room, with the number of its players. *)
Record RoomRow := mkRoomRow {
  rr_status : RoomStatus;
  rr_players : Z;
  rr_currentMatchId : option jstr;
}.

(** What a process waits for: a command of the Redis server, a read or a
    transaction of the database, another service, its own promise chains.
    [RFinishRow]: whether the match was claimed, and the winner in its row if
    there is a row. *)
Inductive Req : Type -> Type :=
| RRedis {X : Type} (c : Cmd (B := WireMatch) X) : Req X
| RTurn (prev : option nat) : Req unit
| RQuestionKey (questionId : jstr) : Req (option jstr)
| RMatchRoom (matchId : jstr) : Req (option jstr)
| RBotPlayers (matchId : jstr) : Req (list jstr)
| RRandomQuestion (excludeIds : list jstr) (categories : option (list jstr)) : Req QuestionInput
| RSaveRound (matchId : jstr) (roundNo : Z) (questionId : jstr) (answers : list (jstr * AnswerState))
    : Req unit
| RFinishRow (matchId : jstr) (winnerId : option jstr) (roomId : jstr) (stateMachine : option Machine)
    : Req (bool * option (option jstr))
| RRoomInGame (roomId matchId : jstr) : Req unit
| RRoomCategory (roomId : jstr) : Req (option jstr)
| RRoomCacheGet (matchId : jstr) : Req (option jstr)
| RRoomCacheSet (matchId roomId : jstr) : Req unit
| RBumpGeneration (matchId : jstr) : Req unit
| RCacheClear (matchId : jstr) : Req unit
| RRoomRow (roomId : jstr) : Req RoomRow
| RRoomLock (roomId : jstr) : Req unit
| RRoomStatus (roomId : jstr) (status : RoomStatus) (currentMatchId : option (option jstr)) : Req unit
| RClearCountdown (roomId : jstr) : Req unit
| RMatchRows (roomId : jstr) : Req (jstr * list (jstr * jstr))
| RDeleteMatch (matchId : jstr) : Req unit
| RGroupCreate (matchId : jstr) : Req unit
| RAutoClaim (matchId cursor : jstr) : Req (jstr * list StreamEntry)
| RReadGroup (matchId : jstr) : Req (list StreamEntry)
| RStreamAdd (matchId : jstr) (env : CommandEnvelope) : Req unit
| RStreamAck (matchId entryId : jstr) : Req unit
| RStreamDel (matchId entryId : jstr) : Req unit
| RStreamDispose (matchId : jstr) : Req unit
| RPublishClock : Req unit
| RDeadLetterAdd (matchId : jstr) : Req unit
| RDeadLetterSet (matchId entryId data : jstr) : Req unit.

(** ** Memory *)

Record OwnedEntry := mkOwned {
  oe_roomId : jstr;
  oe_fence : Z;
  oe_leaseValue : jstr;
  (** The identity of the object: entries are compared with [!==]. *)
  oe_ref : nat;
}.

(** [ctx.timer] is the delay of the pending timer. *)
Record RetryContext := mkRetry { rc_count : Z; rc_timer : option Z }.

(** Calls that are started without waiting for them. *)
Inductive Job :=
| JRecover (matchId : jstr)
| JFinalize (matchId : jstr) (reason : TombstoneReason)
| JRenew (matchId : jstr) (entry : OwnedEntry) (promise : nat)
| JPoll (matchId : jstr) (registration : nat).

(** A registered stream; [rg_ref] is the identity of its abort signal, which
    is aborted exactly when the registration leaves the map. *)
Record Registration := mkRegistration { rg_ref : nat; rg_lastClaimAt : Z }.

Record Node := mkNode {
  nd_heap : list Machine;
  nd_machines : gmap jstr nat;
  nd_revisions : gmap jstr (Z * Z);
  nd_chains : gmap jstr nat;
  nd_settled : gset nat;
  nd_refs : nat;
  nd_bots : gmap jstr (list jstr);
  nd_owned : gmap jstr OwnedEntry;
  nd_recovering : gset jstr;
  nd_retries : gmap jstr RetryContext;
  nd_pending : list jstr;
  nd_serverUp : bool;
  nd_timers : TimerRegistry;
  nd_jobs : list Job;
  nd_registered : gmap jstr Registration;
  nd_inFlight : gset jstr;
  nd_polling : bool;
  nd_beating : bool;
  nd_sweeping : bool;
  (** [Math.random()]: the numbers to come, and how many were drawn. *)
  nd_dice : nat -> nat;
  nd_rolls : nat;
  nd_clock : Clock;
}.

#[export] Instance Machine_inhabited : Inhabited Machine := populate (new_machine [] [] []).

Definition set_heap v n := mkNode v (nd_machines n) (nd_revisions n) (nd_chains n) (nd_settled
  n) (nd_refs n) (nd_bots n) (nd_owned n) (nd_recovering n) (nd_retries n) (nd_pending n)
  (nd_serverUp n) (nd_timers n) (nd_jobs n) (nd_registered n) (nd_inFlight n) (nd_polling n)
  (nd_beating n) (nd_sweeping n) (nd_dice n) (nd_rolls n) (nd_clock n).
Definition set_machines v n := mkNode (nd_heap n) v (nd_revisions n) (nd_chains n) (nd_settled
  n) (nd_refs n) (nd_bots n) (nd_owned n) (nd_recovering n) (nd_retries n) (nd_pending n)
  (nd_serverUp n) (nd_timers n) (nd_jobs n) (nd_registered n) (nd_inFlight n) (nd_polling n)
  (nd_beating n) (nd_sweeping n) (nd_dice n) (nd_rolls n) (nd_clock n).
Definition set_revisions v n := mkNode (nd_heap n) (nd_machines n) v (nd_chains n) (nd_settled
  n) (nd_refs n) (nd_bots n) (nd_owned n) (nd_recovering n) (nd_retries n) (nd_pending n)
  (nd_serverUp n) (nd_timers n) (nd_jobs n) (nd_registered n) (nd_inFlight n) (nd_polling n)
  (nd_beating n) (nd_sweeping n) (nd_dice n) (nd_rolls n) (nd_clock n).
Definition set_chains v n := mkNode (nd_heap n) (nd_machines n) (nd_revisions n) v (nd_settled
  n) (nd_refs n) (nd_bots n) (nd_owned n) (nd_recovering n) (nd_retries n) (nd_pending n)
  (nd_serverUp n) (nd_timers n) (nd_jobs n) (nd_registered n) (nd_inFlight n) (nd_polling n)
  (nd_beating n) (nd_sweeping n) (nd_dice n) (nd_rolls n) (nd_clock n).
Definition set_settled v n := mkNode (nd_heap n) (nd_machines n) (nd_revisions n) (nd_chains n)
  v (nd_refs n) (nd_bots n) (nd_owned n) (nd_recovering n) (nd_retries n) (nd_pending n)
  (nd_serverUp n) (nd_timers n) (nd_jobs n) (nd_registered n) (nd_inFlight n) (nd_polling n)
  (nd_beating n) (nd_sweeping n) (nd_dice n) (nd_rolls n) (nd_clock n).
Definition set_refs v n := mkNode (nd_heap n) (nd_machines n) (nd_revisions n) (nd_chains n)
  (nd_settled n) v (nd_bots n) (nd_owned n) (nd_recovering n) (nd_retries n) (nd_pending n)
  (nd_serverUp n) (nd_timers n) (nd_jobs n) (nd_registered n) (nd_inFlight n) (nd_polling n)
  (nd_beating n) (nd_sweeping n) (nd_dice n) (nd_rolls n) (nd_clock n).
Definition set_bots v n := mkNode (nd_heap n) (nd_machines n) (nd_revisions n) (nd_chains n)
  (nd_settled n) (nd_refs n) v (nd_owned n) (nd_recovering n) (nd_retries n) (nd_pending n)
  (nd_serverUp n) (nd_timers n) (nd_jobs n) (nd_registered n) (nd_inFlight n) (nd_polling n)
  (nd_beating n) (nd_sweeping n) (nd_dice n) (nd_rolls n) (nd_clock n).
Definition set_owned v n := mkNode (nd_heap n) (nd_machines n) (nd_revisions n) (nd_chains n)
  (nd_settled n) (nd_refs n) (nd_bots n) v (nd_recovering n) (nd_retries n) (nd_pending n)
  (nd_serverUp n) (nd_timers n) (nd_jobs n) (nd_registered n) (nd_inFlight n) (nd_polling n)
  (nd_beating n) (nd_sweeping n) (nd_dice n) (nd_rolls n) (nd_clock n).
Definition set_recovering v n := mkNode (nd_heap n) (nd_machines n) (nd_revisions n) (nd_chains
  n) (nd_settled n) (nd_refs n) (nd_bots n) (nd_owned n) v (nd_retries n) (nd_pending n)
  (nd_serverUp n) (nd_timers n) (nd_jobs n) (nd_registered n) (nd_inFlight n) (nd_polling n)
  (nd_beating n) (nd_sweeping n) (nd_dice n) (nd_rolls n) (nd_clock n).
Definition set_retries v n := mkNode (nd_heap n) (nd_machines n) (nd_revisions n) (nd_chains n)
  (nd_settled n) (nd_refs n) (nd_bots n) (nd_owned n) (nd_recovering n) v (nd_pending n)
  (nd_serverUp n) (nd_timers n) (nd_jobs n) (nd_registered n) (nd_inFlight n) (nd_polling n)
  (nd_beating n) (nd_sweeping n) (nd_dice n) (nd_rolls n) (nd_clock n).
Definition set_pending v n := mkNode (nd_heap n) (nd_machines n) (nd_revisions n) (nd_chains n)
  (nd_settled n) (nd_refs n) (nd_bots n) (nd_owned n) (nd_recovering n) (nd_retries n) v
  (nd_serverUp n) (nd_timers n) (nd_jobs n) (nd_registered n) (nd_inFlight n) (nd_polling n)
  (nd_beating n) (nd_sweeping n) (nd_dice n) (nd_rolls n) (nd_clock n).
Definition set_serverUp v n := mkNode (nd_heap n) (nd_machines n) (nd_revisions n) (nd_chains n)
  (nd_settled n) (nd_refs n) (nd_bots n) (nd_owned n) (nd_recovering n) (nd_retries n)
  (nd_pending n) v (nd_timers n) (nd_jobs n) (nd_registered n) (nd_inFlight n) (nd_polling n)
  (nd_beating n) (nd_sweeping n) (nd_dice n) (nd_rolls n) (nd_clock n).
Definition set_timers v n := mkNode (nd_heap n) (nd_machines n) (nd_revisions n) (nd_chains n)
  (nd_settled n) (nd_refs n) (nd_bots n) (nd_owned n) (nd_recovering n) (nd_retries n)
  (nd_pending n) (nd_serverUp n) v (nd_jobs n) (nd_registered n) (nd_inFlight n) (nd_polling n)
  (nd_beating n) (nd_sweeping n) (nd_dice n) (nd_rolls n) (nd_clock n).
Definition set_jobs v n := mkNode (nd_heap n) (nd_machines n) (nd_revisions n) (nd_chains n)
  (nd_settled n) (nd_refs n) (nd_bots n) (nd_owned n) (nd_recovering n) (nd_retries n)
  (nd_pending n) (nd_serverUp n) (nd_timers n) v (nd_registered n) (nd_inFlight n) (nd_polling
  n) (nd_beating n) (nd_sweeping n) (nd_dice n) (nd_rolls n) (nd_clock n).
Definition set_registered v n := mkNode (nd_heap n) (nd_machines n) (nd_revisions n) (nd_chains
  n) (nd_settled n) (nd_refs n) (nd_bots n) (nd_owned n) (nd_recovering n) (nd_retries n)
  (nd_pending n) (nd_serverUp n) (nd_timers n) (nd_jobs n) v (nd_inFlight n) (nd_polling n)
  (nd_beating n) (nd_sweeping n) (nd_dice n) (nd_rolls n) (nd_clock n).
Definition set_inFlight v n := mkNode (nd_heap n) (nd_machines n) (nd_revisions n) (nd_chains n)
  (nd_settled n) (nd_refs n) (nd_bots n) (nd_owned n) (nd_recovering n) (nd_retries n)
  (nd_pending n) (nd_serverUp n) (nd_timers n) (nd_jobs n) (nd_registered n) v (nd_polling n)
  (nd_beating n) (nd_sweeping n) (nd_dice n) (nd_rolls n) (nd_clock n).
Definition set_polling v n := mkNode (nd_heap n) (nd_machines n) (nd_revisions n) (nd_chains n)
  (nd_settled n) (nd_refs n) (nd_bots n) (nd_owned n) (nd_recovering n) (nd_retries n)
  (nd_pending n) (nd_serverUp n) (nd_timers n) (nd_jobs n) (nd_registered n) (nd_inFlight n) v
  (nd_beating n) (nd_sweeping n) (nd_dice n) (nd_rolls n) (nd_clock n).
Definition set_beating v n := mkNode (nd_heap n) (nd_machines n) (nd_revisions n) (nd_chains n)
  (nd_settled n) (nd_refs n) (nd_bots n) (nd_owned n) (nd_recovering n) (nd_retries n)
  (nd_pending n) (nd_serverUp n) (nd_timers n) (nd_jobs n) (nd_registered n) (nd_inFlight n)
  (nd_polling n) v (nd_sweeping n) (nd_dice n) (nd_rolls n) (nd_clock n).
Definition set_sweeping v n := mkNode (nd_heap n) (nd_machines n) (nd_revisions n) (nd_chains n)
  (nd_settled n) (nd_refs n) (nd_bots n) (nd_owned n) (nd_recovering n) (nd_retries n)
  (nd_pending n) (nd_serverUp n) (nd_timers n) (nd_jobs n) (nd_registered n) (nd_inFlight n)
  (nd_polling n) (nd_beating n) v (nd_dice n) (nd_rolls n) (nd_clock n).
Definition set_rolls v n := mkNode (nd_heap n) (nd_machines n) (nd_revisions n) (nd_chains n)
  (nd_settled n) (nd_refs n) (nd_bots n) (nd_owned n) (nd_recovering n) (nd_retries n)
  (nd_pending n) (nd_serverUp n) (nd_timers n) (nd_jobs n) (nd_registered n) (nd_inFlight n)
  (nd_polling n) (nd_beating n) (nd_sweeping n) (nd_dice n) v (nd_clock n).
Definition set_clock v n := mkNode (nd_heap n) (nd_machines n) (nd_revisions n) (nd_chains n)
  (nd_settled n) (nd_refs n) (nd_bots n) (nd_owned n) (nd_recovering n) (nd_retries n)
  (nd_pending n) (nd_serverUp n) (nd_timers n) (nd_jobs n) (nd_registered n) (nd_inFlight n)
  (nd_polling n) (nd_beating n) (nd_sweeping n) (nd_dice n) (nd_rolls n) v.

Abbreviation Task := (Prog Node Emission Req).

(** ** Objects and the clock *)

Definition deref (a : nat) (n : Node) : Machine := nd_heap n !!! a.

Definition now : Task Z :=
  act (fun n => let '(t, c) := clock_tick (nd_clock n) in (t, set_clock c n)).

(** [Math.floor(Math.random() * size)]: an index below [size]. *)
Definition random_below (size : nat) : Task nat :=
  act (fun n => (Nat.modulo (nd_dice n (nd_rolls n)) size, set_rolls (S (nd_rolls n)) n)).

(** A method called on a state machine object; what it throws is returned. *)
Definition call {A} (a : nat) (method : M exn Machine A) : Task (outcome exn A) :=
  act (fun n => let '(o, m, c) := method (deref a n) (nd_clock n) in
                (o, set_heap (<[a := m]> (nd_heap n)) (set_clock c n))).

(** A method whose exception goes to the caller. *)
Definition call_or_throw {A} (a : nat) (method : M exn Machine A) : Task A :=
  o <- call a method ;; Done o.

Definition peek {A} (a : nat) (f : Machine -> A) : Task A := reads (fun n => f (deref a n)).

(** A fresh reference. *)
Definition fresh_ref (n : Node) : nat * Node := (nd_refs n, set_refs (S (nd_refs n)) n).

(** ** Ownership as the process sees it *)

Definition getOwnershipSnapshot (matchId : jstr) (n : Node) : option Lease :=
  (fun e => mkLease (oe_fence e) (oe_leaseValue e)) <$> nd_owned n !! matchId.

Definition currentFence (matchId : jstr) (n : Node) : option Lease := getOwnershipSnapshot matchId n.

(** ** [MatchService]: the live state *)

Definition evictStateMachine (matchId : jstr) : Task unit :=
  writes (fun n => set_bots (delete matchId (nd_bots n)) (set_machines (delete matchId (nd_machines n)) n)).

(** No exception leaves the lookup: without a key the round is graded without
    one. *)
Definition rehydrateCorrectAnswer (a : nat) : Task unit :=
  round <- peek a getCurrentRound ;;
  match round with
  | Some r =>
      if negb (bool_decide (rd_status r = RACTIVE)) then pret tt
      else if bool_decide (q_id (rd_question r) = []) then pret tt
      else
        key <- attempt (await (RQuestionKey (q_id (rd_question r)))) ;;
        match key with
        | Ok (Some k) => call a (attachCorrectAnswer k) ;; pret tt
        | _ => pret tt
        end
  | None => pret tt
  end.

(** The stored value as [JSON.parse] and [deserialize] see it: a document, or a
    text that is no document. *)
Definition stored_document (v : rvalue WireMatch) : option WireMatch :=
  match v with Blob w => Some w | Text _ => None end.

Definition getStateMachine (matchId : jstr) : Task (option nat) :=
  cached <- reads (fun n => nd_machines n !! matchId) ;;
  match cached with
  | Some a => pret (Some a)
  | None =>
      json <- await (RRedis (GetState matchId)) ;;
      match json with
      | None | Some (Text []) => pret None
      | Some v =>
          match deserialize (stored_document v) with
          | Throw _ => await (RRedis (DelState matchId)) ;; pret None
          | Ok m =>
              a <- act (fun n => (length (nd_heap n), set_heap (nd_heap n ++ [m]) n)) ;;
              rehydrateCorrectAnswer a ;;
              writes (fun n => set_machines (<[matchId := a]> (nd_machines n)) n) ;;
              pret (Some a)
          end
      end
  end.

Definition getRoomIdByMatchId (matchId : jstr) : Task (option jstr) :=
  cached <- reads (fun n => option_map (fun a => ms_roomId (m_state (deref a n))) (nd_machines n !! matchId)) ;;
  match cached with
  | Some roomId => pret (Some roomId)
  | None =>
      cachedRoomId <- attempt (await (RRoomCacheGet matchId)) ;;
      match cachedRoomId with
      | Ok (Some (c :: r)) => pret (Some (c :: r))
      | _ =>
          room <- await (RMatchRoom matchId) ;;
          match room with
          | Some (c :: r) => attempt (await (RRoomCacheSet matchId (c :: r))) ;; pret (Some (c :: r))
          | _ => pret room
          end
      end
  end.

Definition getBotPlayerIds (matchId : jstr) : Task (list jstr) :=
  cached <- reads (fun n => nd_bots n !! matchId) ;;
  match cached with
  | Some bots => pret bots
  | None =>
      bots <- await (RBotPlayers matchId) ;;
      writes (fun n => set_bots (<[matchId := bots]> (nd_bots n)) n) ;;
      pret bots
  end.

(** ** Persisting *)

Inductive PersistOutcome := APPLIED | RETRY | BLIND.
#[export] Instance PersistOutcome_eq : EqDecision PersistOutcome.
Proof. solve_decision. Defined.

Definition INITIAL_STATE_REVISION : Z := 0.

(** [Number(raw)], when it is a non-negative integer.  The scripts write plain
    numerals; of the other notations [Number] accepts, the empty string is
    read as zero and the rest are taken for malformed. *)
Definition number_of_revision (raw : jstr) : option Z :=
  if all_digits raw then round_to_double (dec_value 0 raw) else None.

Definition readPersistedRevision (matchId : jstr) : Task Z :=
  raw <- attempt (await (RRedis (GetRevision matchId))) ;;
  match raw with
  | Ok (Some (Text t)) => pret (default INITIAL_STATE_REVISION (number_of_revision t))
  | _ => pret INITIAL_STATE_REVISION
  end.

Definition persistStateMachineInner (matchId : jstr) (allowBlindBootstrap : bool) : Task PersistOutcome :=
  blob <- reads (fun n => option_map (fun a => serialize (deref a n)) (nd_machines n !! matchId)) ;;
  match blob with
  | None => pret BLIND
  | Some blob =>
      snapshot <- reads (getOwnershipSnapshot matchId) ;;
      match snapshot with
      | None =>
          if allowBlindBootstrap then await (RRedis (SetStateBlind matchId blob)) ;; pret BLIND
          else pret RETRY
      | Some lease =>
          cached <- reads (fun n => nd_revisions n !! matchId) ;;
          expectedRevision <-
            match cached with
            | Some (fence, revision) =>
                if fence =? le_fence lease then pret revision else readPersistedRevision matchId
            | None => readPersistedRevision matchId
            end ;;
          let nextRevision := expectedRevision + 1 in
          outcome <- await (RRedis (FencedStateSet matchId
            (mkFencedSet (le_value lease) (le_fence lease) blob STATE_TTL_SEC
               expectedRevision nextRevision))) ;;
          match outcome with
          | SetApplied =>
              writes (fun n => set_revisions (<[matchId := (le_fence lease, nextRevision)]> (nd_revisions n)) n) ;;
              pret APPLIED
          | SetRetry => pret RETRY
          end
      end
  end.

(** A promise of the process: its settling is recorded under a reference. *)
Definition runPersistExclusive (matchId : jstr) (fn : Task PersistOutcome) : Task PersistOutcome :=
  turn <- act (fun n => let '(next, n') := fresh_ref n in
                        ((nd_chains n !! matchId, next), set_chains (<[matchId := next]> (nd_chains n)) n')) ;;
  attempt (await (RTurn (fst turn))) ;;
  finally fn (fun n => set_settled ({[ snd turn ]} ∪ nd_settled n) n).

Definition persistStateMachine_opts (matchId : jstr) (allowBlindBootstrap : bool) : Task PersistOutcome :=
  runPersistExclusive matchId (persistStateMachineInner matchId allowBlindBootstrap).

Definition persistStateMachine (matchId : jstr) : Task PersistOutcome :=
  persistStateMachine_opts matchId false.
