(* ===== verification/World.v ===== *)
(** * A concrete world around one process

    A Redis store, a bank of questions and the row of a match, for runs of a
    process alone: the examples and witnesses evaluate programs against it. *)

From stdpp Require Import gmap.
From S2P Require Import Prelude JsData Doubles Effects Shared Decimal Redis Lease Fencing.
From S2P Require Import Cards Scoring TopicVoting ClassEngine Machine MachineCards MachineOps MatchCodec.
From S2P Require Import Events CardCommands Async Envelopes Timers Node.
#[local] Open Scope Z_scope.

Record World := mkWorld {
  wd_store : store WireMatch;
  wd_questions : list QuestionInput;
  wd_bots : list jstr;
  wd_finished : bool;
}.

Definition answer_from {A} (o : option A) : outcome exn A :=
  match o with Some a => Ok a | None => Throw (JsError "not found") end.

Definition serve (X : Type) (q : Req X) (n : Node) (w : World) : outcome exn X * World :=
  match q in Req X return outcome exn X * World with
  | RRedis c =>
      let '(o, s) := exec_cmd c (wd_store w) in
      (o, mkWorld s (wd_questions w) (wd_bots w) (wd_finished w))
  | RTurn _ => (Ok tt, w)
  | RQuestionKey id =>
      (Ok (qi_correctAnswer <$> list_find (fun q => qi_id q = id) (wd_questions w) ≫= fun q => Some q.2), w)
  | RMatchRoom _ => (Ok None, w)
  | RBotPlayers _ => (Ok (wd_bots w), w)
  | RRandomQuestion excludeIds _ =>
      (answer_from (snd <$> list_find (fun q => qi_id q ∉ excludeIds) (wd_questions w)), w)
  | RSaveRound _ _ _ _ => (Ok tt, w)
  | RFinishRow _ winnerId _ _ =>
      (Ok (negb (wd_finished w), Some winnerId), mkWorld (wd_store w) (wd_questions w) (wd_bots w) true)
  | RRoomInGame _ _ => (Ok tt, w)
  | RRoomCategory _ => (Ok None, w)
  | RRoomCacheGet _ => (Ok None, w)
  | RRoomCacheSet _ _ => (Ok tt, w)
  | RBumpGeneration _ => (Ok tt, w)
  | RCacheClear _ => (Ok tt, w)
  | RRoomRow _ => (Ok (mkRoomRow RWAITING 2 None), w)
  | RRoomLock _ => (Ok tt, w)
  | RRoomStatus _ _ _ => (Ok tt, w)
  | RClearCountdown _ => (Ok tt, w)
  | RMatchRows _ => (Ok (js "m1", []), w)
  | RDeleteMatch _ => (Ok tt, w)
  | RGroupCreate _ => (Ok tt, w)
  | RAutoClaim _ _ => (Ok (js "0-0", []), w)
  | RReadGroup _ => (Ok [], w)
  | RStreamAdd _ _ => (Ok tt, w)
  | RStreamAck _ _ => (Ok tt, w)
  | RStreamDel _ _ => (Ok tt, w)
  | RStreamDispose _ => (Ok tt, w)
  | RPublishClock => (Ok tt, w)
  | RDeadLetterAdd _ => (Ok tt, w)
  | RDeadLetterSet _ _ _ => (Ok tt, w)
  end.

(** A process that has just started. *)
Definition new_node (clock : Clock) : Node :=
  mkNode [] ∅ ∅ ∅ ∅ 0 ∅ ∅ ∅ ∅ [] true no_timers [] ∅ ∅ false false false (fun _ => 0%nat) 0 clock.

(** [m] is cached for [id], owned with fence 1, and saved at revision 1. *)
Definition node_with (id : jstr) (m : Machine) : Node :=
  let n := new_node demo_clock in
  set_revisions {[ id := (1, 1) ]}
    (set_owned {[ id := mkOwned (ms_roomId (m_state m)) 1 (leaseValue (js "A") 1) 0 ]}
      (set_refs 1 (set_machines {[ id := 0%nat ]} (set_heap [m] n)))).

Definition store_with (id : jstr) (m : Machine) : store WireMatch :=
  r_set (revisionKey id) (Text (js_of_Z 1)) (Some STATE_TTL_SEC)
    (r_set (stateKey id) (Blob (serialize m)) (Some STATE_TTL_SEC)
      (r_set (ownerKey id) (Text (leaseValue (js "A") 1)) (Some LEASE_TTL_SEC)
        (r_set (fenceKey id) (Text (js_of_Z 1)) None (mkStore ∅ ∅)))).

Definition world_with (id : jstr) (m : Machine) (questions : list QuestionInput) : World :=
  mkWorld (store_with id m) questions [] false.

Lemma deref_node_with id m : deref 0 (node_with id m) = m.
Proof. reflexivity. Qed.
