(* ===== verification/PersistRedis.v ===== *)
(** * Persisting against one Redis server

    [persistStateMachine] run to its end against the server of [World]: the
    revision the node remembers and the revision the server stores. *)

From stdpp Require Import gmap.
From S2P Require Import Prelude JsData Doubles Effects Shared Decimal Redis Lease Fencing.
From S2P Require Import Cards Scoring TopicVoting ClassEngine Machine MachineCards MachineOps MachineRounds MatchCodec.
From S2P Require Import Events CardCommands Async Envelopes Timers Node World.
#[local] Open Scope Z_scope.

(** The node caches the match at [a], owns it under fence [f] with lease [v],
    and remembers that it wrote revision [e] under that fence; the server
    knows the same owner and the same fence. *)
Record owner_of (id : jstr) (a : nat) (f : Z) (v : jstr) (e : Z) (n : Node) (s : store WireMatch) : Prop := {
  ow_cached : nd_machines n !! id = Some a;
  ow_owned : exists roomId ref, nd_owned n !! id = Some (mkOwned roomId f v ref);
  ow_revision : nd_revisions n !! id = Some (f, e);
  ow_owner : r_get s (ownerKey id) = Some (Text v);
  ow_fence : r_get s (fenceKey id) = Some (Text (js_of_Z f));
}.

(** The server executes a write and its reply is lost. *)
Definition lose {X} (q : Req X) : outcome exn X -> outcome exn X :=
  match q in Req X return outcome exn X -> outcome exn X with
  | RRedis c =>
      match c in Cmd R return outcome exn R -> outcome exn R with
      | FencedStateSet _ _ => fun _ => Throw (JsError "connection closed")
      | _ => fun r => r
      end
  | _ => fun r => r
  end.
Definition serve_lost (X : Type) (q : Req X) (n : Node) (w : World) : outcome exn X * World :=
  let '(r, w') := serve X q n w in (lose q r, w').

Definition persist_write (id : jstr) (a : nat) (f : Z) (v : jstr) (e : Z) (n : Node) :=
  FencedStateSet id (mkFencedSet v f (serialize (deref a n)) STATE_TTL_SEC e (e + 1)).

Lemma persist_drive id a f v e n w (answer : forall X, Req X -> Node -> World -> outcome exn X * World) :
  owner_of id a f v e n (wd_store w) ->
  (forall p n w, answer _ (RTurn p) n w = (Ok tt, w)) ->
  exists n1, nd_revisions n1 = nd_revisions n /\ nd_machines n1 = nd_machines n
    /\ nd_owned n1 = nd_owned n /\ nd_heap n1 = nd_heap n
    /\ let '(r, w1) := answer _ (RRedis (persist_write id a f v e n)) n1 w in
       exists n2, drive answer (persistStateMachine id) n w
            = (match r with Ok SetApplied => Ok APPLIED | Ok SetRetry => Ok RETRY | Throw x => Throw x end,
               n2, w1, [])
         /\ nd_machines n2 = nd_machines n /\ nd_owned n2 = nd_owned n /\ nd_heap n2 = nd_heap n
         /\ nd_revisions n2 = match r with
                              | Ok SetApplied => <[id := (f, e + 1)]> (nd_revisions n)
                              | _ => nd_revisions n
                              end.
Proof.
  intros [Hc (roomId & ref & Ho) Hr _ _] Ht.
  set (n1 := set_chains (<[id := nd_refs n]> (nd_chains n)) (set_refs (S (nd_refs n)) n)).
  exists n1. do 4 (split; [done|]).
  destruct (answer _ (RRedis (persist_write id a f v e n)) n1 w) as [r w1] eqn:Ha.
  unfold persistStateMachine, persistStateMachine_opts, runPersistExclusive, finally,
    persistStateMachineInner, reads, writes, await, act.
  cbn [pbind attempt drive pret fresh_ref fst snd]. rewrite Ht.
  cbn [pbind attempt drive pret fst snd]. fold n1.
  change (nd_machines n1) with (nd_machines n). rewrite Hc.
  cbn [fmap option_fmap option_map pbind attempt drive pret fst snd]. unfold getOwnershipSnapshot.
  change (nd_owned n1) with (nd_owned n). rewrite Ho.
  cbn [fmap option_fmap option_map pbind attempt drive pret fst snd oe_fence oe_leaseValue le_fence le_value].
  change (nd_revisions n1) with (nd_revisions n). rewrite Hr, Z.eqb_refl.
  cbn [pbind attempt drive pret fst snd]. change (deref a n1) with (deref a n).
  change (FencedStateSet id _) with (persist_write id a f v e n). rewrite Ha.
  destruct r as [[]|x]; cbn [pbind attempt drive pret fst snd]; eexists; split_and!; reflexivity.
Qed.

(** What the server holds after the owner's write was applied. *)
Definition written (id : jstr) (blob : WireMatch) (rev : Z) (s : store WireMatch) : store WireMatch :=
  r_set (revisionKey id) (Text (js_of_Z rev)) (Some STATE_TTL_SEC)
    (r_set (stateKey id) (Blob blob) (Some STATE_TTL_SEC) s).

Lemma write_at id a f v e stored n (s : store WireMatch) :
  owner_of id a f v e n s ->
  r_get s (revisionKey id) = Some (Text (js_of_Z stored)) ->
  exec_cmd (persist_write id a f v e n) s
  = if decide (stored = e) then (Ok SetApplied, written id (serialize (deref a n)) (e + 1) s)
    else (Ok SetRetry, s).
Proof.
  intros [_ _ _ Hown Hf] Hs. unfold persist_write. rewrite fencedStateSet_cases. unfold holds_lease.
  cbn [fs_leaseValue fs_expectedFence fs_expectedRevision fs_nextRevision fs_blob fs_ttlSec].
  rewrite Hown, Hf, Hs. cbn [is_text]. rewrite !bool_decide_eq_true_2 by done. cbn [andb].
  destruct (decide (stored = e)) as [->|Hne].
  - rewrite (proj2 (revision_ok_spec _ _ _)); auto.
  - destruct (revision_ok _ _ _) eqn:Hrev; [|done].
    apply revision_ok_spec in Hrev as [[Hrev|[Hrev _]] _]; [|done]. exfalso. apply Hne.
    apply js_of_Z_inj. congruence.
Qed.

(** The server after a write still knows the owner, and holds the machine at
    the next revision. *)
Lemma written_owner id a a2 f v e e2 n n2 (s : store WireMatch) blob :
  owner_of id a f v e n s ->
  nd_machines n2 !! id = Some a2 -> nd_owned n2 = nd_owned n -> nd_revisions n2 !! id = Some (f, e2) ->
  owner_of id a2 f v e2 n2 (written id blob (e + 1) s)
  /\ r_get (written id blob (e + 1) s) (revisionKey id) = Some (Text (js_of_Z (e + 1)))
  /\ r_get (written id blob (e + 1) s) (stateKey id) = Some (Blob blob).
Proof.
  intros [_ (roomId & ref & Ho) _ Hown Hf] Hc Ho2 Hr. unfold written. split_and!.
  - split; [done|exists roomId, ref; by rewrite Ho2|done| |]; rewrite !get_set; key_cases; done.
  - rewrite !get_set. key_cases. done.
  - rewrite !get_set. key_cases. done.
Qed.

(** At another revision a persist of the owner is a RETRY that changes
    neither the server nor what the node remembers. *)
Lemma persist_behind id a f v e stored n w :
  owner_of id a f v e n (wd_store w) ->
  r_get (wd_store w) (revisionKey id) = Some (Text (js_of_Z stored)) -> stored <> e ->
  exists n' w', drive serve (persistStateMachine id) n w = (Ok RETRY, n', w', [])
    /\ nd_heap n' = nd_heap n
    /\ owner_of id a f v e n' (wd_store w') /\ wd_store w' = wd_store w.
Proof.
  intros Hw Hs Hne. destruct (persist_drive id a f v e n w serve Hw (fun _ _ _ => eq_refl))
    as (n1 & _ & _ & _ & _ & H).
  cbn [serve] in H. rewrite (write_at _ _ _ _ _ _ _ _ Hw Hs), decide_False in H by done.
  destruct H as (n2 & Hd & Hm & Ho & Hh & Hr). exists n2. eexists. split; [exact Hd|]. split; [done|].
  cbn [wd_store]. split; [|done]. destruct Hw as [? (roomId & ref & ?) ? ? ?].
  split; [congruence|exists roomId, ref; congruence|congruence|done|done].
Qed.

(** C25: a persist tracks the revision.  Let the owner of a match, which wrote
    revision [e] under its fence, persist its machine on a server that still
    knows this owner and this fence.  At stored revision [e] the write is
    APPLIED: the server then holds exactly the serialised machine at revision
    [e + 1], which the node remembers, so that the next persist finds the same
    situation.  At any other stored revision the outcome is RETRY, and neither
    the server nor what the node remembers changes. *)
Theorem persist_tracks_the_revision (id : jstr) (a : nat) (f e stored : Z) (v : jstr) (n : Node) (w : World) :
  owner_of id a f v e n (wd_store w) ->
  r_get (wd_store w) (revisionKey id) = Some (Text (js_of_Z stored)) ->
  exists n' w',
    drive serve (persistStateMachine id) n w
    = (Ok (if bool_decide (stored = e) then APPLIED else RETRY), n', w', [])
    /\ nd_heap n' = nd_heap n
    /\ (stored = e -> owner_of id a f v (e + 1) n' (wd_store w')
          /\ r_get (wd_store w') (revisionKey id) = Some (Text (js_of_Z (e + 1)))
          /\ r_get (wd_store w') (stateKey id) = Some (Blob (serialize (deref a n))))
    /\ (stored <> e -> owner_of id a f v e n' (wd_store w') /\ wd_store w' = wd_store w).
Proof.
  intros Hw Hs. destruct (decide (stored = e)) as [->|Hne].
  - destruct (persist_drive id a f v e n w serve Hw (fun _ _ _ => eq_refl)) as (n1 & _ & _ & _ & _ & H).
    cbn [serve] in H. rewrite (write_at _ _ _ _ _ _ _ _ Hw Hs), decide_True in H by done.
    destruct H as (n2 & Hd & Hm & Ho & Hh & Hr). exists n2. eexists.
    rewrite bool_decide_eq_true_2 by done. split; [exact Hd|]. split; [done|]. split; [|done].
    intros _. cbn [wd_store]. eapply written_owner; [exact Hw|by rewrite Hm; apply Hw|done|].
    by rewrite Hr, lookup_insert_eq.
  - destruct (persist_behind _ _ _ _ _ _ _ _ Hw Hs Hne) as (n' & w' & Hd & Hh & Hb).
    exists n', w'. rewrite bool_decide_eq_false_2 by done. naive_solver.
Qed.

(** A lost reply strands the owner.  If the server applies a write of the
    owner and the reply is lost, the persist fails, the server is one revision
    ahead, and the node still remembers the old one; from then on every persist
    under the same fence, of whatever machine, is a RETRY that changes
    nothing. *)
Theorem lost_reply_strands_owner (id : jstr) (a : nat) (f e : Z) (v : jstr) (n : Node) (w : World) :
  owner_of id a f v e n (wd_store w) ->
  r_get (wd_store w) (revisionKey id) = Some (Text (js_of_Z e)) ->
  exists x n' w',
    drive serve_lost (persistStateMachine id) n w = (Throw x, n', w', [])
    /\ owner_of id a f v e n' (wd_store w')
    /\ r_get (wd_store w') (revisionKey id) = Some (Text (js_of_Z (e + 1)))
    /\ forall a2 n2 w2, wd_store w2 = wd_store w' -> owner_of id a2 f v e n2 (wd_store w2) ->
         exists n3 w3, drive serve (persistStateMachine id) n2 w2 = (Ok RETRY, n3, w3, [])
           /\ owner_of id a2 f v e n3 (wd_store w3) /\ wd_store w3 = wd_store w'.
Proof.
  intros Hw Hs.
  destruct (persist_drive id a f v e n w serve_lost Hw (fun _ _ _ => eq_refl)) as (n1 & _ & _ & _ & _ & H).
  unfold serve_lost at 1 in H. cbn [serve] in H.
  rewrite (write_at _ _ _ _ _ _ _ _ Hw Hs), decide_True in H by done. cbn [lose persist_write] in H.
  destruct H as (n2 & Hd & Hm & Ho & Hh & Hr). do 3 eexists. split; [exact Hd|]. cbn [wd_store].
  destruct (written_owner id a a f v e e n n2 _ (serialize (deref a n)) Hw) as (Ha & Hb & _);
    [rewrite Hm; apply Hw|done|rewrite Hr; apply Hw|].
  split; [exact Ha|]. split; [exact Hb|]. intros a3 n3 w3 Hw3 Hown3.
  destruct (persist_behind id a3 f v e (e + 1) n3 w3 Hown3) as (n4 & w4 & Hd4 & _ & Ho4 & Hw4).
  { by rewrite Hw3. }
  { lia. }
  exists n4, w4. by rewrite Hw4, Hw3 in *.
Qed.

Lemma owner_with id m : owner_of id 0 1 (leaseValue (js "A") 1) 1 (node_with id m) (wd_store (world_with id m [])).
Proof.
  unfold world_with, store_with. cbn [wd_store]. split.
  - apply lookup_singleton_eq.
  - exists (ms_roomId (m_state m)), 0%nat. apply lookup_singleton_eq.
  - apply lookup_singleton_eq.
  - rewrite !get_set. key_cases. done.
  - rewrite !get_set. key_cases. done.
Qed.

Lemma revision_with id m : r_get (wd_store (world_with id m [])) (revisionKey id) = Some (Text (js_of_Z 1)).
Proof. unfold world_with, store_with. cbn [wd_store]. rewrite !get_set. key_cases. done. Qed.

Lemma persist_tracks_the_revision_witness :
  exists n' w',
    drive serve (persistStateMachine (js "m1")) (node_with (js "m1") demo_mid) (world_with (js "m1") demo_mid [])
    = (Ok APPLIED, n', w', [])
    /\ r_get (wd_store w') (revisionKey (js "m1")) = Some (Text (js_of_Z 2))
    /\ r_get (wd_store w') (stateKey (js "m1")) = Some (Blob (serialize demo_mid)).
Proof.
  destruct (persist_tracks_the_revision (js "m1") 0 1 1 1 (leaseValue (js "A") 1) (node_with (js "m1") demo_mid)
    (world_with (js "m1") demo_mid []) (owner_with _ _) (revision_with _ _)) as (n' & w' & Hd & _ & H & _).
  exists n', w'. destruct (H eq_refl) as (_ & Hr & Hs). split; [exact Hd|]. split; [exact Hr|].
  rewrite <- (deref_node_with (js "m1") demo_mid). exact Hs.
Defined.

Lemma lost_reply_strands_owner_witness :
  exists x n' w',
    drive serve_lost (persistStateMachine (js "m1")) (node_with (js "m1") demo_mid) (world_with (js "m1") demo_mid [])
    = (Throw x, n', w', [])
    /\ exists n3 w3, drive serve (persistStateMachine (js "m1")) n' w' = (Ok RETRY, n3, w3, []).
Proof.
  destruct (lost_reply_strands_owner (js "m1") 0 1 1 (leaseValue (js "A") 1) (node_with (js "m1") demo_mid)
    (world_with (js "m1") demo_mid []) (owner_with _ _) (revision_with _ _)) as (x & n' & w' & Hd & Ho & _ & H).
  exists x, n', w'. split; [exact Hd|].
  destruct (H 0%nat n' w' eq_refl Ho) as (n3 & w3 & Hd3 & _). exists n3, w3. exact Hd3.
Defined.
