(* ===== verification/Commands.v ===== *)
(** * The owner command channel

    [match-command.service.ts] from [processEntry] down, the handlers of
    [match-command-authoritative.ts] and [match-card-command-authoritative.ts],
    and [match-player-lifecycle.ts].  A handler loads the cached state machine,
    mutates it, persists it under the fence, and only then tells the players. *)

From stdpp Require Import gmap.
From S2P Require Import Prelude JsData Doubles Effects Shared Decimal Redis Lease Fencing.
From S2P Require Import Cards Scoring TopicVoting ClassEngine Machine MachineCards MachineOps MachineRounds MatchCodec.
From S2P Require Import Events CardCommands Async Envelopes Node.
#[local] Open Scope Z_scope.
#[local] Open Scope prog_scope.

(** ** Outcomes *)

Inductive CommandOutcome := C_APPLIED | C_DUPLICATE_EVENT | C_DUPLICATE_SUBMISSION | C_RETRY.
#[export] Instance CommandOutcome_eq : EqDecision CommandOutcome.
Proof. solve_decision. Defined.

Definition SUBMIT_ANSWER : jstr := js "submit_answer".
Definition CARD_PICK : jstr := js "card_pick".
Definition CARD_PLAY : jstr := js "card_play".
Definition VOTE_BAN_TOPIC : jstr := js "vote_ban_topic".

(** The side effects the game loop wires in. *)
Record CommandSideEffects := mkSideEffects {
  publishAnswerResult : CommandEnvelope -> jstr -> AnswerState -> Z -> Task unit;
  checkEarlyTermination : jstr -> jstr -> Task unit;
  handlePlayerDisconnect : option (CommandEnvelope -> Task CommandOutcome);
}.

Definition disconnect_hook (sideEffects : option CommandSideEffects)
    : option (CommandEnvelope -> Task CommandOutcome) :=
  match sideEffects with Some effects => handlePlayerDisconnect effects | None => None end.

(** ** match-player-lifecycle.ts *)

Inductive DisconnectOutcome := DisconnectPersisted (o : PersistOutcome) | DisconnectNoop.

Definition disconnectMatchPlayer (matchId userId : jstr) : Task DisconnectOutcome :=
  sm <- getStateMachine matchId ;;
  match sm with
  | None => pret DisconnectNoop
  | Some a =>
      state <- peek a getState ;;
      if negb (bool_decide (is_Some (map_get userId (ms_players state)))) then pret DisconnectNoop
      else
        call_or_throw a (disconnectPlayer userId) ;;
        outcome <- persistStateMachine matchId ;;
        if bool_decide (outcome = APPLIED) then
          say (emitMatchDisconnected (ms_roomId state) userId) ;;
          pret (DisconnectPersisted APPLIED)
        else
          evictStateMachine matchId ;; pret (DisconnectPersisted outcome)
  end.

Definition leaveMatchPlayer (matchId roomId userId : jstr) (reason : LeaveReason) : Task unit :=
  sm <- getStateMachine matchId ;;
  match sm with
  | None => say (emitMatchPlayerLeft roomId userId reason)
  | Some a =>
      state <- peek a getState ;;
      if negb (bool_decide (is_Some (map_get userId (ms_players state))))
      then say (emitMatchPlayerLeft roomId userId reason)
      else
        call_or_throw a (disconnectPlayer userId) ;;
        outcome <- persistStateMachine matchId ;;
        if bool_decide (outcome = APPLIED) then say (emitMatchPlayerLeft roomId userId reason)
        else evictStateMachine matchId
  end.

(** ** Deduplication *)

(** [sismember] on the applied set; a failed read is a retry. *)
Definition dedup (env : CommandEnvelope) (fresh known : Task CommandOutcome) : Task CommandOutcome :=
  alreadyApplied <- attempt (await (RRedis (AppliedHas (env_matchId env) (env_eventId env)))) ;;
  match alreadyApplied with
  | Throw _ => pret C_RETRY
  | Ok true => known
  | Ok false => fresh
  end.

(** [sadd] on the applied set; a failure is ignored. *)
Definition mark_applied (env : CommandEnvelope) : Task unit :=
  attempt (await (RRedis (AppliedAdd (env_matchId env) (env_eventId env)))) ;; pret tt.

Definition owns (matchId : jstr) : Task bool :=
  reads (fun n => bool_decide (is_Some (currentFence matchId n))).

(** Any outcome of the persist but APPLIED drops the cached machine. *)
Definition persist_or_evict (matchId : jstr) (published : Task CommandOutcome) : Task CommandOutcome :=
  persisted <- persistStateMachine matchId ;;
  if bool_decide (persisted = APPLIED) then published
  else evictStateMachine matchId ;; pret C_RETRY.

Definition reject (userId failedEvent : jstr) (commandId : option jstr) (error : exn)
    (submissionId : option jstr) : Task CommandOutcome :=
  say (emitPlayerCommandError userId failedEvent commandId error submissionId) ;;
  pret C_DUPLICATE_SUBMISSION.

Section Handlers.
Context (sideEffects : option CommandSideEffects).

(** ** Disconnects *)

Definition applyDisconnectCommand (env : CommandEnvelope) : Task CommandOutcome :=
  match disconnect_hook sideEffects with
  | None => pret C_RETRY
  | Some handle =>
      dedup env
        (outcome <- handle env ;;
         (if bool_decide (outcome = C_APPLIED) then mark_applied env else pret tt) ;;
         pret outcome)
        (pret C_APPLIED)
  end.

(** ** Answers *)

Definition round_number (m : Machine) (round : option RoundRuntimeState) : Z :=
  match round with Some r => rd_roundNo r | None => ms_currentRoundNo (m_state m) end.

Definition recoverDuplicateAnswer (env : CommandEnvelope) (body : SubmitAnswerBody)
    : Task CommandOutcome :=
  match sideEffects with
  | None => pret C_RETRY
  | Some effects =>
      own <- owns (env_matchId env) ;;
      if negb own then pret C_RETRY
      else
        sm <- getStateMachine (env_matchId env) ;;
        match sm with
        | None => pret C_DUPLICATE_EVENT
        | Some a =>
            round <- peek a getCurrentRound ;;
            match round ≫= (fun r => map_get (sa_userId body) (rd_answers r)) with
            | None => pret C_DUPLICATE_EVENT
            | Some answer =>
                own <- owns (env_matchId env) ;;
                if negb own then pret C_RETRY
                else
                  roomId <- peek a (fun m => ms_roomId (m_state m)) ;;
                  roundNo <- peek a (fun m => round_number m round) ;;
                  publishAnswerResult effects env roomId answer roundNo ;;
                  own <- owns (env_matchId env) ;;
                  if negb own then pret C_RETRY
                  else
                    checkEarlyTermination effects (env_matchId env) roomId ;;
                    pret C_DUPLICATE_EVENT
            end
        end
  end.

Definition applyAnswerCommand (env : CommandEnvelope) (body : SubmitAnswerBody) : Task CommandOutcome :=
  match sideEffects with
  | None => pret C_RETRY
  | Some effects =>
      dedup env
        (sm <- getStateMachine (env_matchId env) ;;
         match sm with
         | None => pret C_RETRY
         | Some a =>
             round <- peek a getCurrentRound ;;
             let existing := round ≫= (fun r => map_get (sa_userId body) (rd_answers r)) in
             if bool_decide (an_submissionId <$> existing = Some (sa_submissionId body))
             then recoverDuplicateAnswer env body
             else
               t <- now ;;
               result <- call a (submitAnswer (sa_userId body) (sa_answer body) t
                                   (Some (sa_submissionId body))) ;;
               match result with
               | Throw error =>
                   reject (sa_userId body) SUBMIT_ANSWER (Some (sa_commandId body)) error
                     (Some (sa_submissionId body))
               | Ok answer =>
                   persist_or_evict (env_matchId env)
                     (roomId <- peek a (fun m => ms_roomId (m_state m)) ;;
                      roundNo <- peek a (fun m => round_number m round) ;;
                      publishAnswerResult effects env roomId answer roundNo ;;
                      checkEarlyTermination effects (env_matchId env) roomId ;;
                      mark_applied env ;;
                      pret C_APPLIED)
               end
         end)
        (recoverDuplicateAnswer env body)
  end.

(** ** Cards *)

Inductive DuplicateRecovery := RECOVERED | UNVERIFIED | R_RETRY | R_DUPLICATE_EVENT.

(** The ids an event carries. *)
Definition event_ids (e : Event) : option jstr * option jstr :=
  match ev_payload e with
  | E_CARD_PICKED _ _ _ _ eventId commandId => (eventId, commandId)
  | E_CARD_RESOLVED p => (cr_eventId p, cr_commandId p)
  | _ => (None, None)
  end.

(** The event of the log belongs to this very command. *)
Definition same_command (env : CommandEnvelope) (commandId : jstr) (e : Event) : bool :=
  bool_decide (event_ids e = (Some (env_eventId env), Some commandId)).

(** The part the two recoveries share: find the canonical event, check that it
    is this command's, tell the players again. *)
Definition recoverDuplicateCardEvent (env : CommandEnvelope) (commandId : jstr)
    (canonical : Machine -> option Event) (frames : Machine -> Event -> list Emission)
    : Task DuplicateRecovery :=
  own <- owns (env_matchId env) ;;
  if negb own then pret R_RETRY
  else
    sm <- getStateMachine (env_matchId env) ;;
    match sm with
    | None => pret R_RETRY
    | Some a =>
        found <- peek a canonical ;;
        match found with
        | None => pret R_DUPLICATE_EVENT
        | Some e =>
            if negb (same_command env commandId e) then pret UNVERIFIED
            else
              own <- owns (env_matchId env) ;;
              if negb own then pret R_RETRY
              else
                emissions <- peek a (fun m => frames m e) ;;
                for_each emissions say ;;
                pret RECOVERED
        end
    end.

Definition card_picked_frames (matchId : jstr) (m : Machine) (e : Event) : list Emission :=
  match ev_payload e, ms_roomId (m_state m) with
  | E_CARD_PICKED roundNo p c o _ _, (_ :: _) as roomId =>
      [to_room roomId (S_CARD_PICKED matchId roundNo p c o)]
  | _, _ => []
  end.

Definition recoverDuplicatePickEvent (env : CommandEnvelope) (body : CardPickBody)
    : Task DuplicateRecovery :=
  recoverDuplicateCardEvent env (ck_commandId body)
    (fun m => findCanonicalCardEvent m CARD_PICKED_EVENT (ck_userId body) (ck_cardId body) (ck_offerSeqNo body))
    (card_picked_frames (env_matchId env)).

Definition card_resolved_frames (m : Machine) (e : Event) : list Emission :=
  match ev_payload e with
  | E_CARD_RESOLVED p => emitCardResolved (Some (ms_roomId (m_state m))) p
  | _ => []
  end.

Definition recoverDuplicatePlayEvent (env : CommandEnvelope) (body : CardPlayBody) (cardId : jstr)
    : Task DuplicateRecovery :=
  recoverDuplicateCardEvent env (cp_commandId body)
    (fun m => findCanonicalCardEvent m CARD_RESOLVED_EVENT (cp_userId body) cardId (cp_offerSeqNo body))
    card_resolved_frames.

Definition handleDuplicateRecovery (recovery : Task DuplicateRecovery) (userId failedEvent commandId : jstr)
    : Task CommandOutcome :=
  r <- recovery ;;
  match r with
  | RECOVERED | R_DUPLICATE_EVENT => pret C_DUPLICATE_EVENT
  | R_RETRY => pret C_RETRY
  | UNVERIFIED => reject userId failedEvent (Some commandId) (RoomError COMMAND_ID_CONFLICT) None
  end.

Definition handleDuplicatePickRecovery (env : CommandEnvelope) (body : CardPickBody) : Task CommandOutcome :=
  handleDuplicateRecovery (recoverDuplicatePickEvent env body) (ck_userId body) CARD_PICK
    (ck_commandId body).

Definition handleDuplicatePlayRecovery (env : CommandEnvelope) (body : CardPlayBody) (cardId : jstr)
    : Task CommandOutcome :=
  handleDuplicateRecovery (recoverDuplicatePlayEvent env body cardId) (cp_userId body) CARD_PLAY
    (cp_commandId body).

(** The checks of a pick before the state machine's own. *)
Definition check_pick (m : Machine) (body : CardPickBody) : outcome exn CardId :=
  andThen (assertCardId (Some (ck_cardId body))) (fun cardId =>
  andThen (validateOfferCorrelation cardId
             (default [] (getCardOfferForPlayer m (ck_userId body) (ck_offerSeqNo body))))
    (fun _ => Ok cardId)).

Definition inactive_code (status : PlayerStatus) : option ErrorCode :=
  match status with
  | ELIMINATED | WINNER => Some SPECTATOR_CANNOT_ANSWER
  | DISCONNECTED => Some PLAYER_DISCONNECTED
  | ACTIVE => None
  end.

Definition applyCardPickCommand (env : CommandEnvelope) (body : CardPickBody) : Task CommandOutcome :=
  let userId := ck_userId body in
  let refuse error := reject userId CARD_PICK (Some (ck_commandId body)) error None in
  dedup env
    (sm <- getStateMachine (env_matchId env) ;;
     match sm with
     | None => pret C_RETRY
     | Some a =>
         player <- peek a (fun m => map_get userId (ms_players (getState m))) ;;
         match player with
         | None => refuse (RoomError SPECTATOR_CANNOT_ANSWER)
         | Some pl =>
             match inactive_code (pl_status pl) with
             | Some code => refuse (RoomError code)
             | None =>
                 checked <- peek a (fun m => check_pick m body) ;;
                 picked <-
                   match checked with
                   | Ok cardId =>
                       call a (pickCard userId cardId (ck_offerSeqNo body) (Some (env_eventId env))
                                 (Some (ck_commandId body)))
                   | Throw error => pret (Throw error)
                   end ;;
                 match picked with
                 | Throw error =>
                     already <- peek a (fun m => has_card_str (ck_cardId body) (getPickedCards m userId)) ;;
                     if already : bool then handleDuplicatePickRecovery env body else refuse error
                 | Ok _ =>
                     persist_or_evict (env_matchId env)
                       (frames <- peek a (fun m =>
                          match ms_roomId (m_state m), card_of_str (ck_cardId body) with
                          | (_ :: _) as roomId, Some cardId =>
                              [to_room roomId (S_CARD_PICKED (env_matchId env) (current_round_no m) userId
                                                 cardId (ck_offerSeqNo body))]
                          | _, _ => []
                          end) ;;
                        for_each frames say ;;
                        mark_applied env ;;
                        pret C_APPLIED)
                 end
             end
         end
     end)
    (handleDuplicatePickRecovery env body).

(** The frame the handler builds from the result of [playCard]. *)
Definition played_frame (env : CommandEnvelope) (body : CardPlayBody) (cardId : CardId)
    (effect : CardEffect) (targets : list jstr) (roundNo serverNow : Z) (result : PlayResult)
    : CardResolvedPayload :=
  mkResolved (pr_seqNo result) (env_matchId env) roundNo
    (match effect with SHIELD expiresAtRound => expiresAtRound | _ => roundNo end)
    cardId (cp_offerSeqNo body) (cp_userId body) targets effect
    (match pr_expiresAtServer result with None => MUTATION | Some _ => TEMPORARY end)
    serverNow (pr_expiresAtServer result) (pr_remainingMs result) None None.

Definition applyCardPlayCommand (env : CommandEnvelope) (body : CardPlayBody) : Task CommandOutcome :=
  let userId := cp_userId body in
  let refuse error := reject userId CARD_PLAY (Some (cp_commandId body)) error None in
  dedup env
    (sm <- getStateMachine (env_matchId env) ;;
     match sm with
     | None => pret C_RETRY
     | Some a =>
         decision <- peek a (fun m => decideCardPlay m (env_matchId env) body) ;;
         match decision with
         | PlayRejected error => refuse error
         | PlayDuplicate => handleDuplicatePlayRecovery env body (cp_cardId body)
         | PlayAccepted cardId effect targets roundNo =>
             serverNow <- now ;;
             played <- call a (playCard userId cardId (cp_offerSeqNo body) effect targets serverNow
                                 (Some (env_eventId env)) (Some (cp_commandId body))) ;;
             match played with
             | Throw error =>
                 already <- peek a (fun m => set_has cardId (getPlayedCards m userId)) ;;
                 if already : bool then handleDuplicatePlayRecovery env body (card_str cardId)
                 else refuse error
             | Ok result =>
                 persist_or_evict (env_matchId env)
                   (roomId <- peek a (fun m => ms_roomId (m_state m)) ;;
                    for_each (emitCardResolved (Some roomId)
                      (played_frame env body cardId effect targets roundNo serverNow result)) say ;;
                    mark_applied env ;;
                    pret C_APPLIED)
             end
         end
     end)
    (handleDuplicatePlayRecovery env body (cp_cardId body)).

(** ** Votes *)

(** The clock is read only while the vote is open. *)
Definition isTopicVotingClosed (a : nat) : Task bool :=
  state <- peek a getState ;;
  if negb (bool_decide (ms_status state = TOPIC_VOTING)) then pret true
  else match ms_phaseEndsAt state with
       | Some t => n <- now ;; pret (t <=? n)
       | None => pret false
       end.

Definition emitTopicVotingSummaryFromSM (matchId : jstr) (a : nat) : Task unit :=
  closed <- isTopicVotingClosed a ;;
  if closed : bool then pret tt
  else
    updatedState <- peek a getState ;;
    let voteCounts := tallyTopicVotes (default [] (ms_topicVotes updatedState))
                        (default [] (ms_candidateTopics updatedState)) in
    let totalVotes := foldl Z.add 0 voteCounts.*2 in
    roomId <- getRoomIdByMatchId matchId ;;
    match roomId with
    | Some ((_ :: _) as roomId) =>
        closed <- isTopicVotingClosed a ;;
        if closed : bool then pret tt else say (emitTopicVotingSummary roomId matchId voteCounts totalVotes)
    | _ => pret tt
    end.

Definition is_vote_of (eventId : jstr) (e : Event) : bool :=
  match ev_payload e with
  | E_TOPIC_VOTE_SUBMITTED _ _ _ id => bool_decide (id = Some eventId)
  | _ => false
  end.

Definition is_vote_by (eventId userId : jstr) (e : Event) : bool :=
  match ev_payload e with
  | E_TOPIC_VOTE_SUBMITTED _ p _ id => bool_decide (id = Some eventId) || bool_decide (p = userId)
  | _ => false
  end.

Definition recoverDuplicateVoteBanTopic (env : CommandEnvelope) (body : VoteBanTopicBody)
    : Task CommandOutcome :=
  sm <- getStateMachine (env_matchId env) ;;
  match sm with
  | None => pret C_DUPLICATE_EVENT
  | Some a =>
      closed <- isTopicVotingClosed a ;;
      if closed : bool then pret C_DUPLICATE_EVENT
      else
        has <- peek a (fun m => existsb (is_vote_by (env_eventId env) (vb_userId body)) (getEventLog m)) ;;
        if has : bool then emitTopicVotingSummaryFromSM (env_matchId env) a ;; pret C_DUPLICATE_EVENT
        else pret C_DUPLICATE_EVENT
  end.

(** [Object.assign(stateMachine, MatchStateMachine.deserialize(serialized))];
    a document of [serialize] is one [deserialize] accepts. *)
Definition restore (a : nat) (serialized : WireMatch) : Task unit :=
  match deserialize (Some serialized) with
  | Ok canonical => writes (fun n => set_heap (<[a := canonical]> (nd_heap n)) n)
  | Throw e => raise e
  end.

Definition applyVoteBanTopicAuthoritative (env : CommandEnvelope) (body : VoteBanTopicBody)
    : Task CommandOutcome :=
  let refuse error := reject (vb_userId body) VOTE_BAN_TOPIC (vb_commandId body) error None in
  dedup env
    (sm <- getStateMachine (env_matchId env) ;;
     match sm with
     | None => pret C_RETRY
     | Some a =>
         closed <- isTopicVotingClosed a ;;
         if closed : bool then refuse (RoomError TOPIC_VOTING_CLOSED)
         else
           has <- peek a (fun m => existsb (is_vote_of (env_eventId env)) (getEventLog m)) ;;
           if has : bool then recoverDuplicateVoteBanTopic env body
           else
             serialized <- peek a serialize ;;
             voted <- call a (voteBanTopic (vb_userId body) (vb_topic body) (Some (env_eventId env))) ;;
             match voted with
             | Throw error => refuse error
             | Ok _ =>
                 persisted <- persistStateMachine (env_matchId env) ;;
                 if negb (bool_decide (persisted = APPLIED)) then
                   evictStateMachine (env_matchId env) ;;
                   restore a serialized ;;
                   pret C_RETRY
                 else
                   emitTopicVotingSummaryFromSM (env_matchId env) a ;;
                   mark_applied env ;;
                   pret C_APPLIED
             end
     end)
    (recoverDuplicateVoteBanTopic env body).

(** ** Dispatch and acknowledgement *)

Definition dispatchBuiltin (env : CommandEnvelope) : Task CommandOutcome :=
  match env_body env with
  | submit_answer body =>
      match sideEffects with None => pret C_RETRY | Some _ => applyAnswerCommand env body end
  | card_pick body => applyCardPickCommand env body
  | card_play body => applyCardPlayCommand env body
  | vote_ban_topic body => applyVoteBanTopicAuthoritative env body
  | player_disconnect _ =>
      match disconnect_hook sideEffects with
      | Some _ => applyDisconnectCommand env
      | None => pret C_RETRY
      end
  end.

(** The lease is checked before anything is applied. *)
Definition apply_command (env : CommandEnvelope) : Task CommandOutcome :=
  own <- owns (env_matchId env) ;;
  if negb own then pret C_RETRY else dispatchBuiltin env.

Definition deadLetterEntry (matchId : jstr) (entry : StreamEntry) : Task bool :=
  persisted <- attempt (await (RDeadLetterAdd matchId) ;; await (RDeadLetterSet matchId (se_id entry) (se_data entry))) ;;
  pret (match persisted with Ok _ => true | Throw _ => false end).

(** [parseAndValidate] reads the text of an entry. *)
Context (parseAndValidate : jstr -> jstr -> option CommandEnvelope).

Definition processEntry (matchId : jstr) (entry : StreamEntry) : Task unit :=
  match parseAndValidate (se_data entry) matchId with
  | None =>
      persisted <- deadLetterEntry matchId entry ;;
      if persisted : bool then
        await (RStreamAck matchId (se_id entry)) ;; await (RStreamDel matchId (se_id entry))
      else pret tt
  | Some env =>
      outcome <- apply_command env ;;
      if bool_decide (outcome = C_RETRY) then pret tt else await (RStreamAck matchId (se_id entry))
  end.
End Handlers.

(** The wiring of [GameLoopService]: a disconnect is handled by the runner and
    its outcome translated; what it throws is a retry. *)
Definition game_loop_disconnect (env : CommandEnvelope) : Task CommandOutcome :=
  match env_body env with
  | player_disconnect userId =>
      outcome <- attempt (disconnectMatchPlayer (env_matchId env) userId) ;;
      pret (match outcome with
            | Ok (DisconnectPersisted APPLIED) | Ok DisconnectNoop => C_APPLIED
            | _ => C_RETRY
            end)
  | _ => pret C_APPLIED
  end.

Definition game_loop_side_effects (checkEarlyTermination : jstr -> jstr -> Task unit)
    : CommandSideEffects :=
  mkSideEffects
    (fun env _ result roundNo =>
       match env_body env with
       | submit_answer b => say (emitAnswerResult (env_matchId env) (sa_userId b) result roundNo)
       | _ => pret tt
       end)
    checkEarlyTermination
    (Some game_loop_disconnect).
