(* ===== verification/CommandTraces.v ===== *)
(** * What the handlers of commands let be seen

    Runs of the handlers under any interference and with any replies: when
    they write, what they emit, in which order.  The memory is left free, so
    the statements hold for any concurrent activity of the process. *)

From stdpp Require Import gmap.
From S2P Require Import Prelude JsData Doubles Effects Shared Decimal Redis Lease Fencing.
From S2P Require Import Cards Scoring TopicVoting ClassEngine Machine MachineCards MachineOps MachineRounds MatchCodec.
From S2P Require Import Events CardCommands Async Envelopes Node World Commands.
#[local] Open Scope Z_scope.
#[local] Open Scope prog_scope.

Abbreviation Trace := (list (Item Emission Req)).

(** A fenced write of the match was asked for. *)
Definition write_of {X} (matchId : jstr) (q : Req X) : option (outcome exn X -> bool) :=
  match q in Req X return option (outcome exn X -> bool) with
  | @RRedis X c =>
      match c in Cmd R return option (outcome exn R -> bool) with
      | FencedStateSet id _ =>
          if bool_decide (id = matchId)
          then Some (fun r => match r with Ok SetApplied => true | _ => false end) else None
      | _ => None
      end
  | _ => None
  end.

Definition is_write (matchId : jstr) (i : Item Emission Req) : bool :=
  match i with
  | Said _ => false
  | Asked q _ => match write_of matchId q with Some _ => true | None => false end
  end.

(** ... and the server applied it. *)
Definition is_applied (matchId : jstr) (i : Item Emission Req) : bool :=
  match i with
  | Said _ => false
  | Asked q r => match write_of matchId q with Some applied => applied r | None => false end
  end.

Definition asked_write (matchId : jstr) (t : Trace) : bool := existsb (is_write matchId) t.
Definition wrote (matchId : jstr) (t : Trace) : bool := existsb (is_applied matchId) t.

(** Every emission comes after an applied write of the match. *)
Fixpoint after_write (matchId : jstr) (written : bool) (t : Trace) : Prop :=
  match t with
  | [] => True
  | Said _ :: t' => written = true /\ after_write matchId written t'
  | i :: t' => after_write matchId (written || is_applied matchId i) t'
  end.

Lemma said_app (t1 t2 : Trace) : said (t1 ++ t2) = said t1 ++ said t2.
Proof. unfold said. apply omap_app. Qed.

Lemma asked_write_app matchId t1 t2 :
  asked_write matchId (t1 ++ t2) = asked_write matchId t1 || asked_write matchId t2.
Proof. apply existsb_app. Qed.

Lemma wrote_app matchId t1 t2 : wrote matchId (t1 ++ t2) = wrote matchId t1 || wrote matchId t2.
Proof. apply existsb_app. Qed.

Lemma after_write_app matchId b t1 t2 :
  after_write matchId b (t1 ++ t2)
  <-> after_write matchId b t1 /\ after_write matchId (b || wrote matchId t1) t2.
Proof.
  revert b. induction t1 as [|[x|X q r] t1 IH]; intros b; cbn [app after_write wrote existsb].
  - rewrite orb_false_r. tauto.
  - cbn [is_applied orb]. rewrite IH. tauto.
  - rewrite IH. fold (wrote matchId t1). by rewrite orb_assoc.
Qed.

Lemma after_write_silent matchId b t : said t = [] -> after_write matchId b t.
Proof.
  revert b. induction t as [|[x|X q r] t IH]; intros b H; [done|discriminate|]. by apply IH.
Qed.

Lemma after_write_written matchId t : after_write matchId true t.
Proof. induction t as [|[x|X q r] t IH]; [done|by split|exact IH]. Qed.

(** Neither a word nor a write. *)
Definition quiet (matchId : jstr) (t : Trace) : Prop := said t = [] /\ asked_write matchId t = false.

Lemma quiet_nil matchId : quiet matchId [].
Proof. done. Qed.

Lemma quiet_app matchId t1 t2 : quiet matchId t1 -> quiet matchId t2 -> quiet matchId (t1 ++ t2).
Proof.
  intros [H1 H2] [H3 H4]. split; [by rewrite said_app, H1, H3|by rewrite asked_write_app, H2, H4].
Qed.

Lemma quiet_not_wrote matchId t : quiet matchId t -> wrote matchId t = false.
Proof.
  intros [_ H]. unfold asked_write, wrote in *. induction t as [|i t IH]; [done|].
  cbn [existsb] in *. apply orb_false_iff in H as [Hi Ht]. rewrite IH by done.
  destruct i as [x|X q r]; [done|]. cbn in *. by destruct (write_of matchId q).
Qed.

(** ** The methods the handlers call *)

(** Splits the programs that read no memory into their runs. *)
Ltac every_step :=
  match goal with
  | |- every_run (pret _) _ => apply every_ret
  | |- every_run (Done _) _ => apply every_done
  | |- every_run (raise _) _ => apply every_done
  | |- every_run (pbind (pret _) _) _ => cbn [pbind pret]
  | |- every_run (pbind (Done (Ok _)) _) _ => cbn [pbind]
  | |- every_run (pbind (Done (Throw _)) _) _ => cbn [pbind]
  | |- every_run (pbind (Done ?o) _) _ => destruct o
  | |- every_run (pbind (act _) _) _ => apply every_act; intros ?
  | |- every_run (pbind (reads _) _) _ => apply every_act; intros ?
  | |- every_run (pbind (writes _) _) _ => apply every_act; intros ?
  | |- every_run (pbind now _) _ => apply every_act; intros ?
  | |- every_run (pbind (call _ _) _) _ => apply every_act; intros ?
  | |- every_run (pbind (peek _ _) _) _ => apply every_act; intros ?
  | |- every_run (pbind (owns _) _) _ => apply every_act; intros ?
  | |- every_run (pbind (evictStateMachine _) _) _ => apply every_act; intros ?
  | |- every_run (pbind (say _) _) _ => apply every_say
  | |- every_run (pbind (await _) _) _ => apply every_await; intros [?|?]
  | |- every_run (pbind (attempt (await _)) _) _ => apply every_try; intros [?|?]
  | |- every_run (pbind (pbind _ _) _) _ => apply every_assoc
  | |- every_run (await _) _ => apply every_await_last; intros [?|?]
  | |- every_run (act _) _ => let Env := fresh in let w := fresh in intros Env w; cbn
  | |- every_run (reads _) _ => let Env := fresh in let w := fresh in intros Env w; cbn
  | |- every_run (writes _) _ => let Env := fresh in let w := fresh in intros Env w; cbn
  | |- every_run (match ?x with _ => _ end) _ => destruct x eqn:?
  | |- every_run (pbind (match ?x with _ => _ end) _) _ => destruct x eqn:?
  end.

Lemma rehydrate_quiet matchId a : every_run (rehydrateCorrectAnswer a) (fun _ t => quiet matchId t).
Proof. unfold rehydrateCorrectAnswer. repeat every_step; done. Qed.

Lemma getStateMachine_quiet matchId id : every_run (getStateMachine id) (fun _ t => quiet matchId t).
Proof.
  unfold getStateMachine. repeat every_step; try done.
  all: eapply every_bind; [apply (rehydrate_quiet matchId)|].
  all: intros [|e] t Ht; repeat every_step; rewrite ?app_nil_r; exact Ht.
Qed.

Lemma getRoomIdByMatchId_quiet matchId id : every_run (getRoomIdByMatchId id) (fun _ t => quiet matchId t).
Proof. unfold getRoomIdByMatchId. repeat every_step; done. Qed.

(** Persisting is mute, and applied exactly when it says so. *)
Definition applied (o : outcome exn PersistOutcome) : bool :=
  match o with Ok APPLIED => true | _ => false end.
Definition persists (matchId : jstr) (o : outcome exn PersistOutcome) (t : Trace) : Prop :=
  said t = [] /\ wrote matchId t = applied o.

Lemma readPersistedRevision_quiet matchId id : every_run (readPersistedRevision id) (fun o t =>
  quiet matchId t /\ is_Some (ok_value o)).
Proof. unfold readPersistedRevision. repeat every_step; done. Qed.

Lemma persistInner_spec matchId b : every_run (persistStateMachineInner matchId b) (persists matchId).
Proof.
  unfold persistStateMachineInner. repeat every_step; try done.
  all: try (unfold persists; cbn; by rewrite bool_decide_eq_true_2 by done).
  all: eapply every_bind; [apply (readPersistedRevision_quiet matchId)|].
  all: intros [r|e] t [Hq He]; [|by destruct He].
  all: pose proof (quiet_not_wrote _ _ Hq) as Hw; destruct Hq as [Hs Ha].
  all: repeat every_step; unfold persists; rewrite said_app, wrote_app, Hs, Hw; cbn;
    rewrite ?bool_decide_eq_true_2 by done; done.
Qed.

Lemma persist_spec matchId : every_run (persistStateMachine matchId) (persists matchId).
Proof.
  unfold persistStateMachine, persistStateMachine_opts, runPersistExclusive.
  repeat every_step; apply every_finally, persistInner_spec.
Qed.

Lemma every_true {R} (p : Task R) : every_run p (fun _ _ => True).
Proof.
  intros Env w. generalize (fun (_ : outcome exn R) (_ : Node) (_ : Trace) => I).
  intros _. revert w. cut (forall w (P : outcome exn R -> Node -> Trace -> Prop),
    (forall o w' t, P o w' t) -> always Env p w P); [intros H w; by apply H|].
  induction p as [o|X f k IH|x k IH|X q k IH]; intros w P HP; cbn; auto.
Qed.

(** ** Outcomes *)

Definition sender_of (body : OwnerCommandBody) : jstr :=
  match body with
  | submit_answer b => sa_userId b
  | player_disconnect userId => userId
  | card_pick b => ck_userId b
  | card_play b => cp_userId b
  | vote_ban_topic b => vb_userId b
  end.

Definition is_error (e : Emission) : bool :=
  match em_payload e with S_ERROR _ _ _ _ => true | _ => false end.

Definition is_answer (body : OwnerCommandBody) : bool :=
  match body with submit_answer _ => true | _ => false end.
Definition is_disconnect (body : OwnerCommandBody) : bool :=
  match body with player_disconnect _ => true | _ => false end.

(** What the outcome of a command says about the run.  APPLIED: the state was
    written, and everything said was said afterwards (a disconnect of somebody
    who is not there writes nothing and says nothing).  RETRY: nothing was
    written; after a refused write nothing is said, and at most the sender is
    told its recorded answer again.  DUPLICATE_SUBMISSION: one error to the
    sender, no write.  DUPLICATE_EVENT: no write (the check for early
    termination that follows an answer is a step of the round). *)
Definition outcome_spec (env : CommandEnvelope) (o : outcome exn CommandOutcome) (t : Trace) : Prop :=
  let id := env_matchId env in
  let sender := player_channel (sender_of (env_body env)) in
  match o with
  | Ok C_APPLIED =>
      after_write id false t
      /\ (wrote id t = true \/ is_disconnect (env_body env) = true /\ said t = [])
  | Ok C_RETRY =>
      wrote id t = false /\ (asked_write id t = true -> said t = [])
      /\ Forall (fun e => em_to e = sender) (said t)
  | Ok C_DUPLICATE_SUBMISSION =>
      asked_write id t = false /\ exists e, said t = [e] /\ is_error e = true /\ em_to e = sender
  | Ok C_DUPLICATE_EVENT => is_answer (env_body env) = true \/ asked_write id t = false
  | Throw _ => True
  end.

Lemma outcome_quiet env t1 o t2 :
  quiet (env_matchId env) t1 -> outcome_spec env o t2 -> outcome_spec env o (t1 ++ t2).
Proof.
  intros Hq. pose proof (quiet_not_wrote _ _ Hq) as Hw. destruct Hq as [Hs Ha].
  destruct o as [[]|]; cbn; rewrite ?after_write_app, ?wrote_app, ?said_app, ?asked_write_app,
    ?Hs, ?Ha, ?Hw; cbn [orb app]; try done.
  intros [? ?]. split; [|done]. split; [by apply after_write_silent|done].
Qed.

Lemma every_quiet {A} env (p : Task A) (k : A -> Task CommandOutcome) :
  every_run p (fun _ t => quiet (env_matchId env) t) ->
  (forall a, every_run (k a) (outcome_spec env)) ->
  every_run (pbind p k) (outcome_spec env).
Proof.
  intros H1 H2. eapply every_bind; [exact H1|]. intros [a|e] t Ht; [|done].
  eapply every_mono; [|apply H2]. intros o t'. by apply outcome_quiet.
Qed.

Lemma every_dedup env fresh known :
  every_run fresh (outcome_spec env) -> every_run known (outcome_spec env) ->
  every_run (dedup env fresh known) (outcome_spec env).
Proof.
  intros Hf Hk. unfold dedup. apply every_try. intros [[]|e]; [exact Hk|exact Hf|].
  by apply every_ret.
Qed.

(** What follows an applied write ends in APPLIED or throws. *)
Definition finishes (o : outcome exn CommandOutcome) (_ : Trace) : Prop :=
  match o with Ok C_APPLIED | Throw _ => True | _ => False end.

Lemma persisted_outcome env o t1 t2 :
  persists (env_matchId env) (Ok APPLIED) t1 -> finishes o t2 -> outcome_spec env o (t1 ++ t2).
Proof.
  intros [Hs Hw] Ho. destruct o as [[]|]; try done. cbn. cbn in Hw.
  rewrite after_write_app, wrote_app, Hw. split; [|by left].
  split; [by apply after_write_silent|apply after_write_written].
Qed.

Lemma unpersisted_outcome env o t :
  persists (env_matchId env) o t -> applied o = false -> outcome_spec env (Ok C_RETRY) t.
Proof. intros [Hs Hw] Ho. cbn. by rewrite Hs, Hw, Ho. Qed.

Lemma every_persist env published :
  every_run published finishes ->
  every_run (persist_or_evict (env_matchId env) published) (outcome_spec env).
Proof.
  intros Hp. unfold persist_or_evict. eapply every_bind; [apply persist_spec|].
  intros [o|e] t Ht; [|done]. destruct (bool_decide (o = APPLIED)) eqn:Ho; bool_to_prop.
  - subst o. eapply every_mono; [|exact Hp]. intros. by apply persisted_outcome.
  - repeat every_step. rewrite app_nil_r. apply (unpersisted_outcome _ _ _ Ht). by destruct o.
Qed.

Lemma every_reject env userId failedEvent commandId error submissionId :
  userId = sender_of (env_body env) ->
  every_run (reject userId failedEvent commandId error submissionId) (outcome_spec env).
Proof.
  intros ->. unfold reject. repeat every_step. cbn. split; [done|]. eauto.
Qed.

Lemma for_each_say_spec matchId l : every_run (for_each l say : Task unit) (fun o t =>
  o = Ok tt /\ asked_write matchId t = false /\ said t = l).
Proof.
  induction l as [|x l IH]; [by apply every_ret|].
  change (for_each (x :: l) say) with (pbind (say x) (fun _ => for_each l say) : Task unit).
  apply every_say. eapply every_mono; [|exact IH]. intros o t (-> & H & <-). done.
Qed.

Lemma every_mark_applied env (k : unit -> Task CommandOutcome) P :
  (forall r : outcome exn unit, every_run (k tt) (fun o t =>
     P o (Asked (RRedis (AppliedAdd (env_matchId env) (env_eventId env))) r :: t))) ->
  every_run (pbind (mark_applied env) k) P.
Proof. intros H. unfold mark_applied. apply every_assoc. apply every_try. intros r. apply H. Qed.

(** After the emissions of a recovery the outcome is DUPLICATE_EVENT. *)
Lemma every_card_recovery env commandId canonical frames userId failedEvent :
  userId = sender_of (env_body env) ->
  every_run (handleDuplicateRecovery (recoverDuplicateCardEvent env commandId canonical frames)
               userId failedEvent commandId) (outcome_spec env).
Proof.
  intros Hu. unfold handleDuplicateRecovery, recoverDuplicateCardEvent.
  repeat every_step; try done. apply every_quiet; [apply getStateMachine_quiet|intros [a|]];
    repeat every_step; try first [done|by right].
  - by apply every_reject.
  - eapply every_bind; [apply (for_each_say_spec (env_matchId env))|].
    intros o t (-> & Ha & _). repeat every_step. cbn. right. by rewrite app_nil_r.
Qed.

Section WithEffects.
Context (cet : jstr -> jstr -> Task unit).
Let effects := game_loop_side_effects cet.

Lemma publish_say env b roomId answer roundNo :
  env_body env = submit_answer b ->
  publishAnswerResult effects env roomId answer roundNo
  = say (emitAnswerResult (env_matchId env) (sa_userId b) answer roundNo).
Proof. unfold effects, game_loop_side_effects. cbn. by intros ->. Qed.

Lemma every_finishes_tail env (p : Task unit) :
  every_run (pbind p (fun _ => pbind (mark_applied env) (fun _ => pret C_APPLIED))) finishes.
Proof.
  eapply every_bind; [apply every_true|]. intros [a|e] t _; [|done].
  apply every_mark_applied. intros r. by apply every_ret.
Qed.

Lemma recover_answer_spec env b :
  env_body env = submit_answer b ->
  every_run (recoverDuplicateAnswer (Some effects) env b) (outcome_spec env).
Proof.
  intros Hb. unfold recoverDuplicateAnswer. repeat every_step; try done.
  apply every_quiet; [apply getStateMachine_quiet|intros [a|]]; repeat every_step;
    try first [done|by right].
  rewrite (publish_say _ _ _ _ _ Hb). repeat every_step.
  - cbn. rewrite Hb. split_and!; [done|done|]. by apply Forall_singleton.
  - eapply every_bind; [apply every_true|]. intros [u|e] t _; [|done]. repeat every_step.
    cbn. left. by rewrite Hb.
Qed.

Lemma answer_spec env b :
  env_body env = submit_answer b ->
  every_run (applyAnswerCommand (Some effects) env b) (outcome_spec env).
Proof.
  intros Hb. unfold applyAnswerCommand. apply every_dedup; [|by apply recover_answer_spec].
  apply every_quiet; [apply getStateMachine_quiet|intros [a|]]; repeat every_step; try done.
  - by apply recover_answer_spec.
  - apply every_persist. repeat every_step. rewrite (publish_say _ _ _ _ _ Hb).
    repeat every_step. apply every_finishes_tail.
  - apply every_reject. by rewrite Hb.
Qed.

Lemma pick_spec env b :
  env_body env = card_pick b -> every_run (applyCardPickCommand env b) (outcome_spec env).
Proof.
  intros Hb. assert (ck_userId b = sender_of (env_body env)) as Hu by (by rewrite Hb).
  unfold applyCardPickCommand. apply every_dedup; [|by apply every_card_recovery].
  apply every_quiet; [apply getStateMachine_quiet|intros [a|]]; repeat every_step; try done;
    try first [by apply every_reject|by apply every_card_recovery].
  apply every_persist. repeat every_step. apply every_finishes_tail.
Qed.

Lemma play_spec env b :
  env_body env = card_play b -> every_run (applyCardPlayCommand env b) (outcome_spec env).
Proof.
  intros Hb. assert (cp_userId b = sender_of (env_body env)) as Hu by (by rewrite Hb).
  unfold applyCardPlayCommand. apply every_dedup; [|by apply every_card_recovery].
  apply every_quiet; [apply getStateMachine_quiet|intros [a|]]; repeat every_step; try done;
    try first [by apply every_reject|by apply every_card_recovery].
  apply every_persist. repeat every_step. apply every_finishes_tail.
Qed.
End WithEffects.

Lemma closed_quiet matchId a : every_run (isTopicVotingClosed a) (fun _ t => quiet matchId t).
Proof. unfold isTopicVotingClosed. repeat every_step; done. Qed.

Lemma summary_spec matchId id a :
  every_run (emitTopicVotingSummaryFromSM id a) (fun _ t => asked_write matchId t = false).
Proof.
  unfold emitTopicVotingSummaryFromSM.
  eapply every_bind; [apply (closed_quiet matchId)|intros [b|e] t [_ Ht]; [|done]].
  destruct b; [by apply every_ret; rewrite asked_write_app, Ht|].
  repeat every_step. eapply every_bind; [apply (getRoomIdByMatchId_quiet matchId)|].
  intros [r|e] t1 [_ Ht1]; [|by rewrite asked_write_app, Ht, Ht1].
  repeat every_step; rewrite ?asked_write_app, ?Ht, ?Ht1; try done.
  eapply every_bind; [apply (closed_quiet matchId)|].
  intros [b|e] t2 [_ Ht2]; [|by rewrite !asked_write_app, Ht, Ht1, Ht2].
  destruct b; [by apply every_ret; rewrite !asked_write_app, Ht, Ht1, Ht2|].
  intros Env w. cbn. by rewrite !asked_write_app, Ht, Ht1, Ht2.
Qed.

Lemma recover_vote_spec env b : every_run (recoverDuplicateVoteBanTopic env b) (outcome_spec env).
Proof.
  unfold recoverDuplicateVoteBanTopic.
  apply every_quiet; [apply getStateMachine_quiet|intros [a|]]; [|by repeat every_step; right].
  apply every_quiet; [apply closed_quiet|intros [|]]; [by repeat every_step; right|].
  repeat every_step; [|by right]. eapply every_bind; [apply (summary_spec (env_matchId env))|].
  intros [u|e] t Ht; [|done]. repeat every_step. cbn. right. by rewrite app_nil_r.
Qed.

Lemma vote_spec env b :
  env_body env = vote_ban_topic b ->
  every_run (applyVoteBanTopicAuthoritative env b) (outcome_spec env).
Proof.
  intros Hb. assert (vb_userId b = sender_of (env_body env)) as Hu by (by rewrite Hb).
  unfold applyVoteBanTopicAuthoritative. apply every_dedup; [|by apply recover_vote_spec].
  apply every_quiet; [apply getStateMachine_quiet|intros [a|]]; [|by repeat every_step].
  apply every_quiet; [apply closed_quiet|intros [|]]; [by apply every_reject|].
  repeat every_step; try first [by apply every_reject|by apply recover_vote_spec].
  eapply every_bind; [apply persist_spec|]. intros [o|e] t Ht; [|done].
  destruct (negb (bool_decide (o = APPLIED))) eqn:Ho; bool_to_prop.
  - repeat every_step. unfold restore. repeat every_step; try done.
    rewrite app_nil_r. apply (unpersisted_outcome _ _ _ Ht). by destruct o.
  - subst o. eapply every_mono; [intros o' t'; by apply persisted_outcome|].
    eapply every_bind; [apply every_true|]. intros [u|e] t' _; [|done].
    apply every_mark_applied. intros r. by apply every_ret.
Qed.

(** A disconnect is announced only once it is written; an unknown player or
    match is applied without a word. *)
Definition disconnect_post (matchId : jstr) (o : outcome exn DisconnectOutcome) (t : Trace) : Prop :=
  match o with
  | Ok (DisconnectPersisted APPLIED) => after_write matchId false t /\ wrote matchId t = true
  | _ => said t = [] /\ wrote matchId t = false
  end.

Lemma disconnect_spec matchId userId :
  every_run (disconnectMatchPlayer matchId userId) (disconnect_post matchId).
Proof.
  unfold disconnectMatchPlayer.
  eapply every_bind; [apply (getStateMachine_quiet matchId)|]. intros [sm|e] t Hq.
  2:{ split; [apply Hq|by apply quiet_not_wrote]. }
  pose proof (quiet_not_wrote _ _ Hq) as Hw. destruct Hq as [Hs _].
  destruct sm as [a|]; [|apply every_ret; rewrite app_nil_r; done].
  repeat every_step; [by rewrite app_nil_r|]. unfold call_or_throw. repeat every_step.
  2:{ by rewrite app_nil_r. }
  eapply every_bind; [apply persist_spec|]. intros [o|e] t1 [Hs1 Hw1].
  2:{ cbn. by rewrite said_app, wrote_app, Hs, Hs1, Hw. }
  destruct (bool_decide (o = APPLIED)) eqn:Ho; bool_to_prop.
  - subst o. repeat every_step. cbn in Hw1. cbn.
    rewrite !after_write_app, !wrote_app, Hw, Hw1. cbn. split; [|done].
    split; [by apply after_write_silent|]. split; [by apply after_write_silent|done].
  - repeat every_step. rewrite app_nil_r.
    assert (said (t ++ t1) = [] /\ wrote matchId (t ++ t1) = false) as H.
    { rewrite said_app, wrote_app, Hs, Hs1, Hw, Hw1. by destruct o. }
    by destruct o.
Qed.

Lemma disconnect_command_spec cet env :
  is_disconnect (env_body env) = true ->
  every_run (applyDisconnectCommand (Some (game_loop_side_effects cet)) env) (outcome_spec env).
Proof.
  intros Hd. unfold applyDisconnectCommand. cbn [disconnect_hook game_loop_side_effects handlePlayerDisconnect].
  apply every_dedup; [|by apply every_ret; cbn; split; [|right]].
  unfold game_loop_disconnect. destruct (env_body env) as [|userId| | |] eqn:Hb; try discriminate.
  apply every_assoc.
  apply (every_bind _ _ (fun o t => match o with Ok o' => disconnect_post (env_matchId env) o' t
                                               | Throw _ => False end)).
  { apply every_attempt, disconnect_spec. }
  intros [o|e] t Ht; [|done]. cbn [pbind pret].
  assert (forall o', disconnect_post (env_matchId env) o' t ->
            said t = [] /\ wrote (env_matchId env) t = false \/
            after_write (env_matchId env) false t /\ wrote (env_matchId env) t = true) as Hc.
  { intros [[[]|]|] H; cbn in H; tauto. }
  apply Hc in Ht as Hcases. clear Hc.
  destruct o as [[[]|]|e]; cbn in Ht;
    try rewrite (bool_decide_eq_true_2 (C_APPLIED = C_APPLIED)) by done;
    try rewrite (bool_decide_eq_false_2 (C_RETRY = C_APPLIED)) by done; repeat every_step.
  all: try (rewrite app_nil_r; destruct Ht as [Hs Hw]; cbn; rewrite Hs, Hw; done).
  all: apply every_mark_applied; intros r; apply every_ret; cbn.
  all: rewrite after_write_app, wrote_app, said_app, Hb; cbn; rewrite orb_false_r.
  - destruct Ht as [Ha Hw]. rewrite Hw. split; [done|by left].
  - destruct Ht as [Hs Hw]. rewrite Hs. split; [split; [by apply after_write_silent|done]|by right].
Qed.

(** What a command tells and what it has saved.  Whatever else the
    process does meanwhile and however Redis answers, in every run of the
    owner's handler: an APPLIED command that is no duplicate and no disconnection of
    somebody who is gone has written the match under the fence, and every
    emission came after that write; a RETRY has written nothing, is
    silent once a write was refused and otherwise at most repeats the recorded
    answer to its sender; a rejected command sends one error to its sender and
    writes nothing; a duplicate writes nothing. *)
Theorem commands_tell_only_what_is_saved (cet : jstr -> jstr -> Task unit) (env : CommandEnvelope)
    (Env : Node -> Node -> Prop) (n n' : Node) (t : Trace) (o : outcome exn CommandOutcome) :
  runs Env (apply_command (Some (game_loop_side_effects cet)) env) n t o n' -> outcome_spec env o t.
Proof.
  intros Hr. refine (every_run_runs _ (outcome_spec env) _ _ _ _ _ _ Hr). clear.
  unfold apply_command. repeat every_step; [done|]. unfold dispatchBuiltin.
  destruct (env_body env) as [b|userId|b|b|b] eqn:Hb; cbn [disconnect_hook game_loop_side_effects handlePlayerDisconnect].
  - by apply answer_spec.
  - apply disconnect_command_spec. by rewrite Hb.
  - by apply pick_spec.
  - by apply play_spec.
  - by apply vote_spec.
Qed.

(** The third player's answer, in a match the others have answered in. *)
Definition answer_env : CommandEnvelope :=
  mkEnvelope (js "e3") (js "m1")
    (submit_answer (mkSubmitAnswer (js "p3") (js "B") (js "s3") (js "c3"))).
Definition answer_effects : CommandSideEffects := game_loop_side_effects (fun _ _ => pret tt).
Definition answer_run :=
  drive serve (apply_command (Some answer_effects) answer_env)
    (node_with (js "m1") demo_mid) (world_with (js "m1") demo_mid []).

Lemma commands_tell_only_what_is_saved_witness :
  exists t n', runs eq (apply_command (Some answer_effects) answer_env)
                 (node_with (js "m1") demo_mid) t (Ok C_APPLIED) n'
               /\ em_to <$> said t = [player_channel (js "p3")]
               /\ outcome_spec answer_env (Ok C_APPLIED) t.
Proof.
  assert (H : (answer_run.1.1.1, em_to <$> answer_run.2) = (Ok C_APPLIED, [player_channel (js "p3")]))
    by (vm_compute; reflexivity).
  destruct answer_run as [[[o n'] w'] l] eqn:Hd. injection H as -> Hl.
  destruct (drive_runs eq serve _ _ _ _ _ _ _ Hd) as (t & Hr & <-).
  exists t, n'. split; [exact Hr|]. split; [exact Hl|].
  exact (commands_tell_only_what_is_saved (fun _ _ => pret tt) answer_env eq _ n' t _ Hr).
Defined.
