(* ===== verification/Ownership.v ===== *)
(** * [match-ownership.service.ts]

    Claiming a match at launch, renewing the leases, giving up, and taking over
    the matches of a dead owner, as programs of one node.  Recovery resumes the
    match loop through [RecoveryDeps]; a retry is a timer, dead-lettering a job
    started without waiting for it. *)

From stdpp Require Import gmap.
From S2P Require Import Prelude JsData Doubles Effects Shared Decimal Redis Lease Fencing.
From S2P Require Import Cards Scoring TopicVoting ClassEngine Machine MatchCodec.
From S2P Require Import Events CardCommands Async Envelopes Timers Node.
#[local] Open Scope Z_scope.
#[local] Open Scope prog_scope.

Definition RECOVERY_MAX_RETRIES : Z := 5.
Definition ASSERT_RENEW_ATTEMPTS : nat := 3.

Definition redis {X} (c : Cmd (B := WireMatch) X) : Task X := await (RRedis c).

(** ** The map of owned matches *)

(** [this.owned.set(matchId, { ... })]: a new object. *)
Definition own (matchId roomId : jstr) (fence : Z) (leaseValue : jstr) : Task unit :=
  writes (fun n => let '(ref, n') := fresh_ref n in
                   set_owned (<[matchId := mkOwned roomId fence leaseValue ref]> (nd_owned n')) n').

Definition disown (matchId : jstr) : Task unit :=
  writes (fun n => set_owned (delete matchId (nd_owned n)) n).

Definition owned_entry (matchId : jstr) : Task (option OwnedEntry) :=
  reads (fun n => nd_owned n !! matchId).

(** [this.owned.get(matchId) === entry] *)
Definition still_entry (matchId : jstr) (entry : OwnedEntry) : Task bool :=
  reads (fun n => bool_decide (oe_ref <$> nd_owned n !! matchId = Some (oe_ref entry))).

Definition cancelMatchLoop (matchId : jstr) : Task unit :=
  writes (fun n => set_timers (disposeMatch matchId (nd_timers n)) n).

Definition relinquish (matchId : jstr) : Task unit := cancelMatchLoop matchId ;; disown matchId.

Definition start_job (j : Job) : Task unit := writes (fun n => set_jobs (nd_jobs n ++ [j]) n).

(** ** Renewal *)

Fixpoint assert_loop (attempts : nat) (matchId : jstr) (entry : OwnedEntry) : Task bool :=
  match attempts with
  | O =>
      same <- still_entry matchId entry ;;
      if negb same then pret false else relinquish matchId ;; pret false
  | S attempts' =>
      same <- still_entry matchId entry ;;
      if negb same then pret false
      else
        held <- attempt (redis (RenewLease matchId (oe_leaseValue entry))) ;;
        match held with
        | Throw _ => assert_loop attempts' matchId entry
        | Ok held =>
            same <- still_entry matchId entry ;;
            if negb same then pret false
            else if negb held then relinquish matchId ;; pret false
            else pret true
        end
  end.

Definition assertOwnership (matchId : jstr) : Task bool :=
  entry <- owned_entry matchId ;;
  match entry with
  | None => pret false
  | Some entry => assert_loop ASSERT_RENEW_ATTEMPTS matchId entry
  end.

(** One renewal of a heartbeat; [promise] is what the heartbeat waits for. *)
Definition renew_owned (matchId : jstr) (entry : OwnedEntry) (promise : nat) : Task unit :=
  held <- attempt (redis (RenewLease matchId (oe_leaseValue entry))) ;;
  (match held with
   | Throw _ | Ok true => pret tt
   | Ok false =>
       same <- still_entry matchId entry ;;
       if negb same then pret tt else relinquish matchId
   end) ;;
  writes (fun n => set_settled ({[ promise ]} ∪ nd_settled n) n).

(** [Promise.all] of one renewal per owned match. *)
Fixpoint start_renewals (entries : list (jstr * OwnedEntry)) (promises : list nat) (n : Node)
    : list nat * Node :=
  match entries with
  | [] => (promises, n)
  | (matchId, entry) :: entries' =>
      let '(p, n') := fresh_ref n in
      start_renewals entries' (promises ++ [p]) (set_jobs (nd_jobs n' ++ [JRenew matchId entry p]) n')
  end.

Definition heartbeat : Task unit :=
  beating <- reads nd_beating ;;
  if beating : bool then pret tt
  else
    writes (set_beating true) ;;
    finally
      (promises <- act (fun n => start_renewals (map_to_list (nd_owned n)) [] n) ;;
       for_each promises (fun p => await (RTurn (Some p))) ;;
       await RPublishClock)
      (set_beating false).

(** ** Launch *)

Definition recoveryHandoff (matchId : jstr) : Task unit :=
  attempt (redis (AddActive matchId)) ;; pret tt.

Section Service.
Context (nodeId : jstr).

Definition tryAcquireLaunchLease (matchId : jstr) : Task (option Lease) :=
  acquired <- attempt (redis (AcquireMatchLease matchId nodeId)) ;;
  match acquired with
  | Throw _ => recoveryHandoff matchId ;; pret None
  | Ok Terminal | Ok LiveOwner => pret None
  | Ok (Granted l) => pret (Some l)
  end.

Inductive Indexed := IndexedOk | IndexFailed | LOST_LEASE.

Fixpoint index_loop (attempts : nat) (matchId roomId : jstr) (lease : Lease) : Task Indexed :=
  match attempts with
  | O => pret IndexFailed
  | S attempts' =>
      stillHeld <- attempt (redis (AddActive matchId) ;; redis (RenewLease matchId (le_value lease))) ;;
      match stillHeld with
      | Throw _ => index_loop attempts' matchId roomId lease
      | Ok false => pret LOST_LEASE
      | Ok true => own matchId roomId (le_fence lease) (le_value lease) ;; pret IndexedOk
      end
  end.

Definition indexActiveAndRevalidate := index_loop 3.

Fixpoint compensate_loop (attempts : nat) (matchId leaseValue : jstr) : Task bool :=
  match attempts with
  | O => pret false
  | S attempts' =>
      released <- attempt
        (released <- redis (ReleaseLeaseAndIndex matchId leaseValue) ;;
         if released : bool then pret true
         else cur <- redis (GetOwner matchId) ;; pret (negb (is_text cur leaseValue))) ;;
      match released with
      | Ok true => pret true
      | _ => compensate_loop attempts' matchId leaseValue
      end
  end.

Definition compensateLaunchFailure (matchId leaseValue : jstr) : Task unit :=
  released <- compensate_loop 3 matchId leaseValue ;;
  if released : bool then pret tt else recoveryHandoff matchId.

Definition acquireOnLaunch (matchId roomId : jstr) : Task bool :=
  acquired <- tryAcquireLaunchLease matchId ;;
  match acquired with
  | None => pret false
  | Some lease =>
      result <- indexActiveAndRevalidate matchId roomId lease ;;
      match result with
      | IndexedOk => pret true
      | LOST_LEASE => pret false
      | IndexFailed =>
          compensateLaunchFailure matchId (le_value lease) ;;
          disown matchId ;;
          pret false
      end
  end.

(** ** Release *)

Fixpoint release_loop (attempts : nat) (matchId leaseValue : jstr) : Task (option bool) :=
  match attempts with
  | O => pret None
  | S attempts' =>
      outcome <- attempt (redis (ReleaseLeaseAndIndex matchId leaseValue)) ;;
      match outcome with
      | Ok released => pret (Some released)
      | Throw _ => release_loop attempts' matchId leaseValue
      end
  end.

Definition release (matchId : jstr) : Task unit :=
  entry <- owned_entry matchId ;;
  disown matchId ;;
  match entry with
  | None => pret tt
  | Some entry => release_loop 3 matchId (oe_leaseValue entry) ;; pret tt
  end.

(** ** Retries and dead letters *)

Definition clearRecoveryRetry (matchId : jstr) : Task unit :=
  writes (fun n => set_retries (delete matchId (nd_retries n)) n).

Definition retry_delay (count : Z) : Z := Z.min (1000 * 2 ^ (count - 1)) 8000.

Definition schedule_retry (matchId : jstr) (n : Node) : Node :=
  let ctx := default (mkRetry 0 None) (nd_retries n !! matchId) in
  match rc_timer ctx with
  | Some _ => n
  | None =>
      if RECOVERY_MAX_RETRIES <=? rc_count ctx
      then set_jobs (nd_jobs n ++ [JFinalize matchId dead_letter]) n
      else
        let count := rc_count ctx + 1 in
        set_retries (<[matchId := mkRetry count (Some (retry_delay count))]> (nd_retries n)) n
  end.

Definition scheduleRecoveryRetry (matchId : jstr) : Task unit := writes (schedule_retry matchId).

Definition finalizeTerminal (matchId : jstr) (reason : TombstoneReason) : Task unit :=
  entry <- owned_entry matchId ;;
  match entry with
  | None => clearRecoveryRetry matchId
  | Some entry =>
      outcome <- attempt (redis (FinalizeMatchTombstone matchId (oe_leaseValue entry) (oe_fence entry)
                                   reason)) ;;
      match outcome with
      | Throw _ => disown matchId ;; clearRecoveryRetry matchId
      | Ok outcome =>
          (if bool_decide (outcome = js "FINALIZED")
           then attempt (redis (ReleaseLease matchId (oe_leaseValue entry))) ;; pret tt
           else pret tt) ;;
          disown matchId ;;
          clearRecoveryRetry matchId
      end
  end.

(** ** Recovery *)

Inductive Reacquired := R_acquired | R_held | R_abort.

Definition acquireForRecovery (matchId : jstr) : Task Reacquired :=
  result <- attempt (redis (AcquireMatchLease matchId nodeId)) ;;
  match result with
  | Throw _ => pret R_held
  | Ok Terminal => attempt (redis (RemoveActiveIfTombstoned matchId)) ;; pret R_abort
  | Ok LiveOwner => pret R_held
  | Ok (Granted l) => own matchId [] (le_fence l) (le_value l) ;; pret R_acquired
  end.

(** [None] stands for both ["STOP"] and ["RETRY"]: the caller returns. *)
Definition reverifyOwnedRecoveryLease (matchId : jstr) (entry : OwnedEntry) : Task (option OwnedEntry) :=
  held <- attempt (redis (RenewLease matchId (oe_leaseValue entry))) ;;
  match held with
  | Throw _ => scheduleRecoveryRetry matchId ;; pret None
  | Ok true => pret (Some entry)
  | Ok false =>
      reacquired <- acquireForRecovery matchId ;;
      match reacquired with
      | R_abort => disown matchId ;; clearRecoveryRetry matchId ;; pret None
      | R_held => disown matchId ;; pret None
      | R_acquired => owned_entry matchId
      end
  end.

Definition acquireNewRecoveryLease (matchId : jstr) : Task (option OwnedEntry) :=
  acquired <- acquireForRecovery matchId ;;
  match acquired with
  | R_abort => clearRecoveryRetry matchId ;; pret None
  | R_held => pret None
  | R_acquired => owned_entry matchId
  end.

Definition ensureRecoveryLease (matchId : jstr) : Task (option OwnedEntry) :=
  entry <- owned_entry matchId ;;
  match entry with
  | Some entry => reverifyOwnedRecoveryLease matchId entry
  | None => acquireNewRecoveryLease matchId
  end.

Definition revalidateOwnershipBeforeResume (matchId leaseValue : jstr) : Task bool :=
  stillOwner <- attempt (redis (RenewLease matchId leaseValue)) ;;
  match stillOwner with
  | Throw _ => scheduleRecoveryRetry matchId ;; pret false
  | Ok false => disown matchId ;; pret false
  | Ok true => pret true
  end.

(** [MatchRoundRunner.resumeMatchLoop], wired by [GameLoopService]. *)
Context (resumeMatchLoop : jstr -> nat -> jstr -> Task unit).

Definition resumeRecoveryLoop (matchId : jstr) (sm : nat) (entry : OwnedEntry) : Task unit :=
  smRoomId <- peek sm (fun m => ms_roomId (m_state m)) ;;
  roomId <-
    match smRoomId with
    | [] => room <- getRoomIdByMatchId matchId ;; pret (default [] room)
    | _ => pret smRoomId
    end ;;
  own matchId roomId (oe_fence entry) (oe_leaseValue entry) ;;
  resumed <- attempt (resumeMatchLoop matchId sm roomId) ;;
  match resumed with
  | Ok _ => clearRecoveryRetry matchId
  | Throw _ => scheduleRecoveryRetry matchId
  end.

Definition attemptRecovery (matchId : jstr) : Task unit :=
  busy <- reads (fun n => bool_decide (matchId ∈ nd_recovering n)) ;;
  if busy : bool then pret tt
  else
    writes (fun n => set_recovering ({[matchId]} ∪ nd_recovering n) n) ;;
    finally
      (lease <- ensureRecoveryLease matchId ;;
       match lease with
       | None => pret tt
       | Some entry =>
           hydrated <- attempt (getStateMachine matchId) ;;
           match hydrated with
           | Throw _ => scheduleRecoveryRetry matchId
           | Ok None => finalizeTerminal matchId cleaned
           | Ok (Some sm) =>
               revalid <- revalidateOwnershipBeforeResume matchId (oe_leaseValue entry) ;;
               if revalid : bool then resumeRecoveryLoop matchId sm entry else pret tt
           end
       end)
      (fun n => set_recovering (nd_recovering n ∖ {[matchId]}) n).

(** The timer of a retry fires. *)
Definition retry_fires (matchId : jstr) : Task unit :=
  writes (fun n =>
    match nd_retries n !! matchId with
    | Some ctx => set_retries (<[matchId := mkRetry (rc_count ctx) None]> (nd_retries n)) n
    | None => n
    end) ;;
  attemptRecovery matchId.

Definition recover_on_boot_one (matchId : jstr) : Task unit :=
  attempt
    (cleanup <- redis (RemoveActiveIfStateAbsent matchId) ;;
     if bool_decide (cleanup = js "REMOVED") then pret tt
     else
       up <- reads nd_serverUp ;;
       if negb up then writes (fun n => set_pending (nd_pending n ++ [matchId]) n)
       else start_job (JRecover matchId)) ;;
  pret tt.

Definition recoverOnBoot : Task unit :=
  matchIds <- attempt (redis ListActive) ;;
  match matchIds with
  | Throw _ => pret tt
  | Ok matchIds => for_each matchIds recover_on_boot_one
  end.

(** [setServer] and [drainPendingRecovery]. *)
Definition setServer : Task unit :=
  writes (fun n => set_jobs (nd_jobs n ++ (JRecover <$> nd_pending n))
                     (set_pending [] (set_serverUp true n))).

Definition orphanSweep : Task unit :=
  skip <- reads (fun n => nd_sweeping n || negb (nd_serverUp n)) ;;
  if skip : bool then pret tt
  else
    writes (set_sweeping true) ;;
    finally
      (attempt
         (matchIds <- redis ListActive ;;
          for_each matchIds (fun matchId =>
            mine <- reads (fun n => bool_decide (is_Some (nd_owned n !! matchId))) ;;
            if mine : bool then pret tt else attemptRecovery matchId)) ;;
       pret tt)
      (set_sweeping false).

Definition requeueMatch (matchId : jstr) (force : bool) : Task jstr :=
  redis (RequeueDeadLetter matchId force).

(** The job a call without [await] starts; [poll] is the reader of the command
    stream. *)
Definition run_job (poll : jstr -> nat -> Task unit) (j : Job) : Task unit :=
  match j with
  | JRecover matchId => attemptRecovery matchId
  | JFinalize matchId reason => finalizeTerminal matchId reason
  | JRenew matchId entry promise => renew_owned matchId entry promise
  | JPoll matchId registration => poll matchId registration
  end.
End Service.
