(* ===== verification/CommandStream.v ===== *)
(** * The reader of the command stream

    The transport of [match-command.service.ts]: registering a match, the
    consumer that reads new entries, the sweep that takes over the entries a
    dead consumer left pending. *)

From stdpp Require Import gmap.
From S2P Require Import Prelude JsData Doubles Effects Shared Decimal Redis Lease Fencing.
From S2P Require Import Cards Scoring TopicVoting ClassEngine Machine MatchCodec.
From S2P Require Import Events CardCommands Async Envelopes Timers Node Commands Ownership.
#[local] Open Scope Z_scope.
#[local] Open Scope prog_scope.

Definition CLAIM_INTERVAL_MS : Z := 5000.
Definition BLOCK_MS : Z := 1000.
Definition MIN_BLOCKING_ITERATION_MS : Z := BLOCK_MS / 2.
Definition BATCH : Z := 128.
Definition MAX_SWEEP_ENTRIES : Z := BATCH * 4.

(** [makeCommandEnvelope]: the fields the owner reads. *)
Definition makeCommandEnvelope (eventId matchId : jstr) (body : OwnerCommandBody) : CommandEnvelope :=
  mkEnvelope eventId matchId body.

Definition forward (env : CommandEnvelope) : Task unit := await (RStreamAdd (env_matchId env) env).

(** ** Registrations *)

Definition registration (matchId : jstr) : Task (option Registration) :=
  reads (fun n => nd_registered n !! matchId).

(** [signal.aborted] *)
Definition aborted (matchId : jstr) (reg : nat) : Task bool :=
  reads (fun n => negb (bool_decide (rg_ref <$> nd_registered n !! matchId = Some reg))).

Definition schedulePoll (matchId : jstr) (reg : nat) : Task unit :=
  busy <- reads (fun n => bool_decide (matchId ∈ nd_inFlight n)) ;;
  gone <- aborted matchId reg ;;
  if busy || gone then pret tt
  else
    writes (fun n => set_inFlight ({[matchId]} ∪ nd_inFlight n) n) ;;
    start_job (JPoll matchId reg).

Definition dispatchPolls : Task unit :=
  regs <- reads (fun n => map_to_list (nd_registered n)) ;;
  for_each regs (fun kv => schedulePoll kv.1 (rg_ref kv.2)).

Definition ensurePolling : Task unit :=
  writes (set_polling true) ;;
  dispatchPolls.

Definition registerMatch (matchId : jstr) : Task unit :=
  existing <- registration matchId ;;
  match existing with
  | Some _ => pret tt
  | None =>
      writes (fun n => let '(ref, n') := fresh_ref n in
                set_registered (<[matchId := mkRegistration ref 0]> (nd_registered n')) n') ;;
      attempt (await (RGroupCreate matchId)) ;;
      ensurePolling
  end.

Definition deregisterMatch (matchId : jstr) : Task unit :=
  writes (fun n =>
    let regs := delete matchId (nd_registered n) in
    set_polling (nd_polling n && negb (bool_decide (regs = ∅))) (set_registered regs n)).

(** ** Reading *)

Section Reader.
Context (sideEffects : option CommandSideEffects).
Context (parseAndValidate : jstr -> jstr -> option CommandEnvelope).

Abbreviation process matchId entry := (processEntry sideEffects parseAndValidate matchId entry).

(** What a loop over entries comes to: the signal was aborted, the sweep is
    full, or all entries were seen. *)
Inductive Sweep := Aborted | Full | Seen.

(** The entries of a page: how many are processed in all, and why it stopped. *)
Fixpoint claim_page (matchId : jstr) (reg : nat) (claimed : list StreamEntry) (processed : Z)
    : Task (Z * Sweep) :=
  match claimed with
  | [] => pret (processed, Seen)
  | entry :: claimed' =>
      gone <- aborted matchId reg ;;
      if gone : bool then pret (processed, Aborted)
      else if MAX_SWEEP_ENTRIES <=? processed then pret (processed, Full)
      else process matchId entry ;; claim_page matchId reg claimed' (processed + 1)
  end.

Definition CURSOR_END : jstr := js "0-0".

(** [pages] bounds the pages of one sweep; [true]: the last cursor was
    reached. *)
Fixpoint claim_pages (pages : nat) (matchId : jstr) (reg : nat) (cursor : jstr) (processed : Z)
    : Task (Z * option bool) :=
  match pages with
  | O => pret (processed, Some false)
  | S pages' =>
      gone <- aborted matchId reg ;;
      if gone : bool then pret (processed, None)
      else
        page <- await (RAutoClaim matchId cursor) ;;
        swept <- claim_page matchId reg (snd page) processed ;;
        match snd swept with
        | Aborted => pret (fst swept, None)
        | Full | Seen =>
            if bool_decide (fst page = CURSOR_END) then pret (fst swept, Some true)
            else if fst swept <? MAX_SWEEP_ENTRIES
            then claim_pages pages' matchId reg (fst page) (fst swept)
            else pret (fst swept, Some false)
        end
  end.

Definition claimIdleEntries (pages : nat) (matchId : jstr) (reg : nat) : Task Z :=
  current <- registration matchId ;;
  match current with
  | None => pret 0
  | Some r =>
      t <- now ;;
      if t - rg_lastClaimAt r <? CLAIM_INTERVAL_MS then pret 0
      else
        swept <- claim_pages pages matchId reg CURSOR_END 0 ;;
        match snd swept with
        | Some true =>
            gone <- aborted matchId reg ;;
            if gone : bool then pret (fst swept)
            else
              t <- now ;;
              writes (fun n => set_registered (<[matchId := mkRegistration reg t]> (nd_registered n)) n) ;;
              pret (fst swept)
        | _ => pret (fst swept)
        end
  end.

(** New entries; what a handler throws ends the read. *)
Fixpoint read_entries (matchId : jstr) (reg : nat) (entries : list StreamEntry) (processed : Z) : Task Z :=
  match entries with
  | [] => pret processed
  | entry :: entries' =>
      gone <- aborted matchId reg ;;
      if gone : bool then pret processed
      else
        handled <- attempt (process matchId entry) ;;
        match handled with
        | Throw _ => pret processed
        | Ok _ => read_entries matchId reg entries' (processed + 1)
        end
  end.

Definition pollOnce (pages : nat) (matchId : jstr) (reg : nat) : Task Z :=
  claimed <- attempt (claimIdleEntries pages matchId reg) ;;
  match claimed with
  | Throw _ => pret 0
  | Ok processed =>
      gone <- aborted matchId reg ;;
      if gone : bool then pret processed
      else
        entries <- attempt (await (RReadGroup matchId)) ;;
        match entries with
        | Throw _ => pret processed
        | Ok entries => read_entries matchId reg entries processed
        end
  end.

(** The promise [schedulePoll] starts. *)
Definition poll (pages : nat) (matchId : jstr) (reg : nat) : Task unit :=
  startedAt <- now ;;
  processed <- pollOnce pages matchId reg ;;
  rearm <-
    (if 0 <? processed then pret true
     else t <- now ;; pret (MIN_BLOCKING_ITERATION_MS <=? t - startedAt)) ;;
  writes (fun n => set_inFlight (nd_inFlight n ∖ {[matchId]}) n) ;;
  if negb rearm then pret tt
  else
    current <- registration matchId ;;
    match current with
    | None => pret tt
    | Some r => schedulePoll matchId (rg_ref r)
    end.
End Reader.
