(* ===== verification/RoundRecovery.v ===== *)
(** * [match-round-recovery.ts]

    What a new owner reports for a round its predecessor had evaluated: the
    verdict is taken from the event log when it can be checked against the
    answers, else recomputed, else read off the standing. *)

From stdpp Require Import gmap.
From S2P Require Import Prelude JsData Doubles Effects Shared Cards Prng CardEngine Scoring.
From S2P Require Import TopicVoting ClassEngine Machine MachineCards MachineOps MachineRounds MatchCodec.
From S2P Require Import Events Async Envelopes Node World.
#[local] Open Scope Z_scope.
#[local] Open Scope prog_scope.

Record RoundEndContext := mkRoundEnd {
  re_survivingIds : list jstr;
  re_eliminatedIds : list jstr;
  re_correctAnswer : option jstr;
}.

Definition getRecoveryStartingPlayers (round : RoundRuntimeState) : option (list jstr) :=
  match rd_startingPlayers round with
  | Some (StartingPlayers ids) => Some ids
  | Some UNAVAILABLE | None => None
  end.

(** The [eliminatedIds] of the ROUND_EVALUATED events of a round. *)
Definition evaluation_of (roundNo : Z) (e : Event) : option (list jstr) :=
  match ev_payload e with
  | E_ROUND_EVALUATED no _ _ _ eliminatedIds => if no =? roundNo then Some eliminatedIds else None
  | _ => None
  end.
Definition roundEvaluatedEvents (roundNo : Z) (m : Machine) : list (list jstr) :=
  omap (evaluation_of roundNo) (getEventLog m).

(** [eliminationsForRound({ ...recoveryRound, correctAnswer, startingPlayers })] *)
Definition recovery_eliminations (round : RoundRuntimeState) (startingPlayers : list jstr)
    (correctAnswer : jstr) : list jstr :=
  eliminationsForRound (rd_answers round) (q_options (rd_question round)) (Some correctAnswer)
    startingPlayers.

Definition getRecoveryEliminatedIdsFromEventLog (evaluations : list (list jstr))
    (recoveryRound : RoundRuntimeState) (startingPlayers : option (list jstr)) (correctAnswer : jstr)
    : option (list jstr) :=
  match evaluations with
  | [eliminatedIds] =>
      if negb (Z.of_nat (length (set_of_list eliminatedIds)) =? Z.of_nat (length eliminatedIds)) then None
      else
        match startingPlayers with
        | None => None
        | Some ids =>
            if bool_decide (correctAnswer = []) then None
            else if negb (forallb (fun playerId => set_has playerId (set_of_list ids)) eliminatedIds)
            then None
            else
              let expected := recovery_eliminations recoveryRound ids correctAnswer in
              if (Z.of_nat (length expected) =? Z.of_nat (length eliminatedIds))
                 && forallb (fun playerId => set_has playerId (set_of_list expected)) eliminatedIds
              then Some eliminatedIds else None
        end
  | _ => None
  end.

(** The verdict, once the key is known or given up. *)
Definition recovered_context (m : Machine) (state : MatchState) (round : RoundRuntimeState)
    (correctAnswer : jstr) : RoundEndContext :=
  let survivingIds := ms_survivingPlayerIds state in
  let startingPlayers := getRecoveryStartingPlayers round in
  match getRecoveryEliminatedIdsFromEventLog (roundEvaluatedEvents (rd_roundNo round) m) round
          startingPlayers correctAnswer with
  | Some ids => mkRoundEnd survivingIds ids (Some correctAnswer)
  | None =>
      match startingPlayers with
      | None => mkRoundEnd survivingIds [] (Some correctAnswer)
      | Some ids =>
          if bool_decide (correctAnswer = []) then
            mkRoundEnd survivingIds
              (filter (fun playerId => negb (set_has playerId (set_of_list survivingIds))) ids)
              (Some correctAnswer)
          else
            mkRoundEnd survivingIds (recovery_eliminations round ids correctAnswer) (Some correctAnswer)
      end
  end.

(** [a] is the state machine, [state] and [round] are copies taken before. *)
Definition recoverRoundEnd (a : nat) (state : MatchState) (round : RoundRuntimeState)
    : Task RoundEndContext :=
  correctAnswer <-
    match rd_correctAnswer round with
    | Some ((_ :: _) as key) => pret key
    | _ =>
        question <- attempt (await (RQuestionKey (q_id (rd_question round)))) ;;
        pret (match question with Ok (Some key) => key | _ => [] end)
    end ;;
  peek a (fun m => recovered_context m state round correctAnswer).

(** ** The new owner reports what the old one decided *)

Lemma log_verdict_last prior verdict round starting key ids :
  getRecoveryEliminatedIdsFromEventLog (prior ++ [verdict]) round starting key = Some ids ->
  ids = verdict.
Proof.
  unfold getRecoveryEliminatedIdsFromEventLog. destruct prior as [|p [|q prior]]; cbn [app]; [|done..].
  repeat case_match; congruence.
Qed.

Lemma evaluated_round m r t :
  m_round m = Some r ->
  m_round (recovered (evaluated_machine m r t)) = Some (forget_answer (rd_set_status COMPLETED r)).
Proof. intros Hr. unfold recovered, evaluated_machine. state_simpl. rewrite Hr. by destruct r. Qed.

(** The verdict the key gives again. *)
Lemma recovery_eliminations_eq m r key :
  rd_correctAnswer r = Some key ->
  recovery_eliminations (forget_answer (rd_set_status COMPLETED r)) (round_starting m r) key
  = eliminated_by m r.
Proof. intros Hk. unfold recovery_eliminations, eliminated_by. rewrite Hk. by destruct r. Qed.

(** The verdict the standing gives, without the key. *)
Lemma standing_eliminations_eq m r :
  filter (fun p => negb (set_has p (set_of_list (filter (correct_in r) (round_starting m r)))))
    (round_starting m r) = eliminated_by m r.
Proof.
  rewrite eliminated_by_eq.
  assert (H : forall l : list jstr, (forall p, p ∈ l -> p ∈ round_starting m r) ->
    filter (fun p => negb (set_has p (set_of_list (filter (correct_in r) (round_starting m r))))) l
    = filter (wrong_in r) l); [|by apply H].
  induction l as [|p l IH]; intros Hl; [done|]. rewrite !filter_cons, IH by (intros; apply Hl; by right).
  assert (set_has p (set_of_list (filter (correct_in r) (round_starting m r))) = correct_in r p) as ->;
    [|done].
  apply eq_bool_prop_intro. unfold set_has. rewrite bool_decide_spec.
  rewrite (proj2 (set_of_list_spec _)), list_elem_of_filter. split; [by intros []|].
  intros Hc. split; [done|apply Hl; by left].
Qed.

Lemma recovered_context_agrees m r t ids key :
  m_round m = Some r -> rd_startingPlayers r = Some (StartingPlayers ids) ->
  key = [] \/ rd_correctAnswer r = Some key ->
  let m2 := evaluated_machine m r t in
  recovered_context (recovered m2) (m_state m2) (forget_answer (rd_set_status COMPLETED r)) key
  = mkRoundEnd (filter (correct_in r) (round_starting m r)) (eliminated_by m r) (Some key).
Proof.
  intros Hr Hs Hk m2. unfold recovered_context.
  replace (ms_survivingPlayerIds (m_state m2)) with (filter (correct_in r) (round_starting m r)) by done.
  assert (He : exists prior, roundEvaluatedEvents (rd_roundNo r) (recovered m2) = prior ++ [eliminated_by m r]).
  { exists (omap (evaluation_of (rd_roundNo r)) (m_log m)).
    unfold roundEvaluatedEvents, getEventLog, recovered, m2, evaluated_machine. state_simpl.
    rewrite omap_app. f_equal. cbn. by rewrite Z.eqb_refl. }
  destruct He as [prior He].
  replace (rd_roundNo (forget_answer (rd_set_status COMPLETED r))) with (rd_roundNo r) by (by destruct r).
  rewrite He.
  assert (getRecoveryStartingPlayers (forget_answer (rd_set_status COMPLETED r))
          = Some (round_starting m r)) as ->.
  { unfold getRecoveryStartingPlayers, round_starting. destruct r; cbn in *. by rewrite Hs. }
  destruct (getRecoveryEliminatedIdsFromEventLog _ _ _ _) as [l|] eqn:E.
  { by apply log_verdict_last in E as ->. }
  destruct (bool_decide (key = [])) eqn:Hkey; bool_to_prop.
  - by rewrite standing_eliminations_eq.
  - destruct Hk as [|Hk]; [done|]. by rewrite recovery_eliminations_eq.
Qed.

Lemma evaluateRound_inv m c ev m2 c2 :
  evaluateRound m c = (Ok ev, m2, c2) ->
  exists r, m_round m = Some r
    /\ ev = mkEvaluation (filter (correct_in r) (round_starting m r)) (eliminated_by m r)
              (rd_correctAnswer r)
    /\ exists t, m2 = evaluated_machine m r t.
Proof.
  intros He. destruct (m_round m) as [r|] eqn:Hr.
  - exists r. split; [done|]. destruct (m_elimFrozen m) eqn:Hf.
    + exfalso. revert He. unfold evaluateRound. run_simpl. rewrite Hr.
      destruct (foldl _ _ _). run_simpl. state_simpl. by rewrite Hf.
    + rewrite (evaluateRound_run m c r Hr Hf) in He. injection He as <- <- _. eauto.
  - exfalso. revert He. unfold evaluateRound. run_simpl. by rewrite Hr.
Qed.

(** The key a lookup comes to. *)
Definition key_of (reply : outcome exn (option jstr)) : jstr :=
  match reply with Ok (Some key) => key | _ => [] end.

(** C24: a round evaluated by a node that then died is reported by its successor
    exactly as the dead node would have.  Take the machine right after
    [evaluateRound], persist it, reload it on another node: [recoverRoundEnd]
    asks the question service once, and whether the service answers with the
    key or not at all, the survivors and the eliminated are those of the
    original verdict, in the same order; only the key it reports may be
    missing. *)
Theorem recovery_reports_the_verdict (m m2 : Machine) (c c2 : Clock) (ev : Evaluation) :
  reachable fresh_roster codec_op m -> clock_in_range c ->
  evaluateRound m c = (Ok ev, m2, c2) ->
  exists m3 r3, deserialize (Some (serialize m2)) = Ok m3 /\ m_round m3 = Some r3
    /\ forall (Env : Node -> Node -> Prop) (a : nat) (n n' : Node) t o,
       (forall n1 n2, Env n1 n2 -> deref a n2 = deref a n1) -> deref a n = m3 ->
       runs Env (recoverRoundEnd a (m_state m3) r3) n t o n' ->
       exists reply, t = [Asked (RQuestionKey (q_id (rd_question r3))) reply]
         /\ (key_of reply = [] \/ evl_correctAnswer ev = Some (key_of reply) ->
             o = Ok (mkRoundEnd (evl_survivingIds ev) (evl_eliminatedIds ev) (Some (key_of reply)))).
Proof.
  intros Hm Hc He.
  assert (Hm2 : storable m2).
  { apply storable_reachable. assert (m2 = after OEvaluateRound m c) as ->.
    { unfold after, run_state, exec, discard, bind. by rewrite He. }
    by apply reach_step; [|split|]. }
  apply evaluateRound_inv in He as (r & Hr & -> & Ht). destruct Ht as [t ->].
  destruct (storable_reachable m Hm) as (_ & _ & _ & _ & Hrounds).
  destruct (Hrounds r Hr) as (_ & _ & _ & ids & Hs & _). clear Hrounds.
  exists (recovered (evaluated_machine m r t)), (forget_answer (rd_set_status COMPLETED r)).
  split; [by apply deserialize_serialize|]. split; [by apply evaluated_round|].
  intros Env a n n' tr o Hkeep Hd Hrun.
  refine (always_runs Env _ n (fun o _ tr => exists reply, tr = [Asked _ reply] /\ (_ -> o = _))
            _ _ _ _ Hrun).
  unfold recoverRoundEnd.
  replace (rd_correctAnswer (forget_answer (rd_set_status COMPLETED r))) with (@None jstr) by by destruct r.
  unfold peek, reads, act. cbn [pbind attempt await pret always fst snd app].
  intros n1 reply Henv. exists reply. split; [done|]. cbn [evl_correctAnswer evl_survivingIds evl_eliminatedIds].
  intros Hkey. rewrite (Hkeep _ _ Henv), Hd. f_equal.
  exact (recovered_context_agrees m r t ids (key_of reply) Hr Hs Hkey).
Qed.

(** ** A round evaluated, reloaded, reported *)

Definition evaluating : Machine := exec_all [OTransition ROUND_EVALUATING] demo_mid demo_clock.
Definition evaluated_demo : Machine := run_state evaluateRound evaluating demo_clock.

Lemma evaluating_reachable : reachable fresh_roster codec_op evaluating.
Proof.
  apply exec_all_reachable; [apply demo_mid_codec|apply demo_clock_in_range|].
  intros m' op Hin. apply list_elem_of_singleton in Hin as ->. by split.
Qed.

Definition reloaded : Machine := recovered evaluated_demo.
Definition reloaded_round : RoundRuntimeState :=
  default (mkRound [] 0 (clientQuestion demo_question) 0 0 [] PENDING None None) (m_round reloaded).
Lemma default_some {A} (d x : A) o : o = Some x -> default d o = x.
Proof. by intros ->. Qed.

Definition demo_verdict : Evaluation := mkEvaluation [js "p1"] [js "p2"; js "p3"] (Some (js "B")).

Lemma run_parts {E S A} (f : M E S A) s c a :
  run_outcome f s c = Ok a -> exists c2, f s c = (Ok a, run_state f s c, c2).
Proof.
  unfold run_outcome, run_state. destruct (f s c) as [[o s'] c2]. cbn. intros ->. by exists c2.
Qed.

Lemma evaluated_demo_run : exists c2, evaluateRound evaluating demo_clock = (Ok demo_verdict, evaluated_demo, c2).
Proof. apply (run_parts evaluateRound). vm_compute. reflexivity. Qed.

Lemma reloads_to : deserialize (Some (serialize evaluated_demo)) = Ok reloaded.
Proof. vm_compute. reflexivity. Qed.

Lemma recovery_runs : exists t n',
  runs eq (recoverRoundEnd 0 (m_state reloaded) reloaded_round) (node_with (js "m1") reloaded) t
    (Ok (mkRoundEnd [js "p1"] [js "p2"; js "p3"] (Some (js "B")))) n'
  /\ said t = (drive serve (recoverRoundEnd 0 (m_state reloaded) reloaded_round)
       (node_with (js "m1") reloaded) (world_with (js "m1") reloaded [demo_question])).2.
Proof. apply drive_outcome; [exact _|]. vm_compute. reflexivity. Qed.

Lemma recovery_reports_the_verdict_witness :
  exists t n', runs eq (recoverRoundEnd 0 (m_state reloaded) reloaded_round)
      (node_with (js "m1") reloaded) t (Ok (mkRoundEnd [js "p1"] [js "p2"; js "p3"] (Some (js "B")))) n'
    /\ exists reply, t = [Asked (RQuestionKey (q_id (rd_question reloaded_round))) reply].
Proof.
  destruct recovery_runs as (t & n' & Hr & _). exists t, n'. split; [exact Hr|].
  destruct evaluated_demo_run as (c2 & He).
  destruct (recovery_reports_the_verdict evaluating evaluated_demo demo_clock c2 demo_verdict
              evaluating_reachable demo_clock_in_range He) as (m3 & r3 & Hdes & Hround & H).
  rewrite reloads_to in Hdes. injection Hdes as <-.
  assert (Hr3 : reloaded_round = r3) by exact (default_some _ _ _ Hround).
  rewrite Hr3 in Hr |- *.
  destruct (H eq 0%nat _ n' t _ (fun n1 n2 E => f_equal (deref 0) (eq_sym E))
              (deref_node_with (js "m1") reloaded) Hr) as (reply & Ht & _).
  exists reply. exact Ht.
Defined.
