(* ===== verification/Bots.v ===== *)
(** * Simulated players

    [simulateBotAnswers] of [bot.service.ts]: what each bot of a round answers
    and when.  The numbers of [Math.random] are drawn from the node's dice. *)

From stdpp Require Import gmap.
From S2P Require Import Prelude JsData Doubles Effects Shared Cards Scoring Machine.
From S2P Require Import Events Async Envelopes Node.
#[local] Open Scope Z_scope.
#[local] Open Scope prog_scope.

(** [Math.floor(lo + Math.random() * (hi - lo))]: rounding may reach [hi]. *)
Definition random_between (lo hi : Z) : Task Z :=
  k <- random_below (S (Z.to_nat (hi - lo))) ;; pret (lo + Z.of_nat k).

(** The chance of a right answer, in hundredths. *)
Definition correctProbability (difficulty : option Difficulty) : nat :=
  match difficulty with Some EASY => 85 | Some HARD => 45 | _ => 65 end%nat.

Record BotAnswerSimulation := mkSimulation {
  bs_userId : jstr;
  bs_answer : jstr;
  bs_responseTimeMs : Z;
  bs_submissionId : jstr;
}.

Section Bots.
(** [nanoid(10)]: the text drawn with the n-th die. *)
Context (nanoid : nat -> jstr).

Definition simulate_one (correctAnswer : jstr) (wrongOptions : list jstr)
    (difficulty : option Difficulty) (userId : jstr) : Task BotAnswerSimulation :=
  roll <- random_below 100 ;;
  answer <-
    (if (roll <? correctProbability difficulty)%nat || bool_decide (wrongOptions = [])
     then pret correctAnswer
     else
       i <- random_below (length wrongOptions) ;;
       pret (match wrongOptions !! i with Some ((_ :: _) as o) => o | _ => correctAnswer end)) ;;
  delay <- random_between MATCHMAKING_CONFIG.MIN_BOT_ANSWER_DELAY_MS MATCHMAKING_CONFIG.MAX_BOT_ANSWER_DELAY_MS ;;
  id <- act (fun n => (nanoid (nd_rolls n), set_rolls (S (nd_rolls n)) n)) ;;
  pret (mkSimulation userId answer delay (js "bot_sub_" ++ id)).

Fixpoint simulate_all (correctAnswer : jstr) (wrongOptions : list jstr)
    (difficulty : option Difficulty) (botUserIds : list jstr) : Task (list BotAnswerSimulation) :=
  match botUserIds with
  | [] => pret []
  | userId :: ids =>
      s <- simulate_one correctAnswer wrongOptions difficulty userId ;;
      l <- simulate_all correctAnswer wrongOptions difficulty ids ;;
      pret (s :: l)
  end.

Definition simulateBotAnswers (question : QuestionInput) (botUserIds : list jstr)
    : Task (list BotAnswerSimulation) :=
  match qi_correctAnswer question with
  | [] => raise (JsError "simulateBotAnswers requires question to have a non-empty 'correctAnswer' or 'answer'")
  | correctAnswer =>
      now ;;
      simulate_all correctAnswer
        (filter (fun opt => opt <> correctAnswer) (qi_options question))
        (qi_difficulty question) botUserIds
  end.
End Bots.
