(* ===== verification/RoundRunner.v ===== *)
(** * [match-round-runner.ts]

    The timer-driven loop of a live match: topic vote, countdown, round, the
    end of a round, the decision about the next, the end of the match; the
    resumption of a loop from persisted state; the simulated players.  A timer
    is registered with its callback; [timer_fires] runs the callback. *)

From stdpp Require Import gmap.
From S2P Require Import Prelude JsData Doubles Effects Shared Decimal Redis Lease Fencing.
From S2P Require Import Cards Prng CardEngine Scoring TopicVoting ClassEngine Machine MachineCards MachineOps MachineRounds.
From S2P Require Import MatchCodec Events CardCommands Async Envelopes Timers Node Commands Ownership RoundRecovery Bots.
#[local] Open Scope Z_scope.
#[local] Open Scope prog_scope.

(** ** Timers *)

Definition on_timers (f : TimerRegistry -> TimerRegistry) : Task unit :=
  writes (fun n => set_timers (f (nd_timers n)) n).

Definition armPhaseTimer (matchId roomId : jstr) (callback : Callback) (remaining : Z) : Task unit :=
  on_timers (addTimer matchId (mkTimer callback roomId remaining)).

Definition executeCountdown (matchId roomId : jstr) : Task unit :=
  armPhaseTimer matchId roomId CbCountdown GAME_CONFIG.COUNTDOWN_DURATION_MS.

Definition scheduleMatchEndCheck (matchId roomId : jstr) : Task unit :=
  armPhaseTimer matchId roomId CbMatchEnd GAME_CONFIG.RESULT_DISPLAY_MS.

(** [disposeCommandStream]: the wiring drops the stream and the applied set,
    and lets no failure out. *)
Definition disposeCommandStream (matchId : jstr) : Task unit :=
  attempt (await (RStreamDispose matchId)) ;; pret tt.

(** [(await persist(matchId)) !== "APPLIED"] *)
Definition applied (o : PersistOutcome) : bool := bool_decide (o = APPLIED).

(** ** The deadline of a resumed phase *)

Definition resolvePhaseDeadline (m : Machine) (status : MatchStatus) : option Z :=
  let state := getState m in
  match ms_phaseEndsAt state with
  | Some t => Some t
  | None =>
      match status with
      | ROUND_ACTIVE => rd_endsAt <$> getCurrentRound m
      | TOPIC_VOTING => (fun t => t + GAME_CONFIG.TOPIC_VOTING_DURATION_MS) <$> ms_startedAt state
      | COUNTDOWN => (fun t => t + GAME_CONFIG.COUNTDOWN_DURATION_MS) <$> ms_startedAt state
      | ROUND_RESULT => (fun t => t + GAME_CONFIG.RESULT_DISPLAY_MS) <$> ms_roundResultStartedAt state
      | _ => None
      end
  end.

(** The delay at time [t]. *)
Definition phase_remaining (deadline : option Z) (t phaseMax : Z) : Z :=
  match deadline with
  | None => 0
  | Some deadline => Z.min (Z.max (deadline - t) 0) phaseMax
  end.

Definition resumePhaseRemaining (a : nat) (status : MatchStatus) (phaseMax : Z) : Task Z :=
  deadline <- peek a (fun m => resolvePhaseDeadline m status) ;;
  match deadline with
  | None => pret (phase_remaining None 0 phaseMax)
  | Some _ => t <- now ;; pret (phase_remaining deadline t phaseMax)
  end.

(** ** [MatchService.finishMatch]

    It returns the row of the match, also when it claimed nothing. *)

Definition machine_of (a : option nat) : Task (option Machine) :=
  match a with
  | Some a => m <- peek a (fun m => m) ;; pret (Some m)
  | None => pret None
  end.

Definition finishMatch_load (matchId : jstr) (isAdminTermination : bool) : Task (option Machine) :=
  if isAdminTermination then pret None
  else
    cached <- reads (fun n => nd_machines n !! matchId) ;;
    a <- match cached with Some a => pret (Some a) | None => getStateMachine matchId end ;;
    machine_of a.

Definition drop_match (matchId : jstr) (n : Node) : Node :=
  set_chains (delete matchId (nd_chains n))
    (set_revisions (delete matchId (nd_revisions n))
      (set_bots (delete matchId (nd_bots n))
        (set_machines (delete matchId (nd_machines n)) n))).

Definition finishMatch (matchId : jstr) (winnerId : option jstr) (roomId : jstr)
    (isAdminTermination : bool) : Task (option (option jstr)) :=
  stateMachine <- finishMatch_load matchId isAdminTermination ;;
  result <- await (RFinishRow matchId winnerId roomId stateMachine) ;;
  if negb (fst result) then pret (snd result)
  else
    attempt (await (RBumpGeneration matchId)) ;;
    attempt
      (snapshot <- reads (getOwnershipSnapshot matchId) ;;
       match snapshot with
       | Some lease => redis (FencedStateDelete matchId (le_value lease) (le_fence lease)) ;; pret tt
       | None => redis (DelState matchId) ;; redis (DelRevision matchId)
       end) ;;
    attempt (await (RCacheClear matchId)) ;;
    writes (drop_match matchId) ;;
    pret (snd result).

(** ** The end of a match *)

Definition finishMatchLoopInner (matchId roomId : jstr) : Task unit :=
  own <- assertOwnership matchId ;;
  if negb own then pret tt
  else
    sm <- getStateMachine matchId ;;
    match sm with
    | None => pret tt
    | Some a =>
        call_or_throw a (transition FINISHED) ;;
        call_or_throw a Machine.finishMatch ;;
        state <- peek a getState ;;
        outcome <- persistStateMachine matchId ;;
        if negb (applied outcome) then pret tt
        else
          finishMatch matchId (ms_winnerId state) roomId false ;;
          say (emitMatchFinished roomId matchId state (ms_winnerId state)) ;;
          on_timers (disposeMatch matchId) ;;
          release matchId ;;
          disposeCommandStream matchId
    end.

(** The promise is registered while its first segment, which only reads the
    owned entry, has already run. *)
Definition finishMatchLoop (matchId roomId : jstr) : Task unit :=
  entered <- act (fun n => let '(b, t) := beginFinish matchId (nd_timers n) in (b, set_timers t n)) ;;
  if negb entered then pret tt
  else
    p <- act fresh_ref ;;
    on_timers (registerFinishPromise matchId p) ;;
    finally (finishMatchLoopInner matchId roomId)
      (fun n => set_settled ({[ p ]} ∪ nd_settled n)
                  (set_timers (endFinish matchId (nd_timers n)) n)).

(** ** The end of a round *)

Definition handleActiveRoundEnd (matchId : jstr) (a : nat) : Task (option RoundEndContext) :=
  call_or_throw a (transition ROUND_EVALUATING) ;;
  evaluation <- call_or_throw a evaluateRound ;;
  outcome <- persistStateMachine matchId ;;
  if negb (applied outcome) then pret None
  else pret (Some (mkRoundEnd (evl_survivingIds evaluation) (evl_eliminatedIds evaluation)
                     (evl_correctAnswer evaluation))).

(** The notifications of the eliminated, from the copy [state]; whether they
    answered is read off the round now. *)
Definition elimination_notice (roomId matchId : jstr) (state : MatchState) (m : Machine)
    (playerId : jstr) : option Emission :=
  match map_get playerId (ms_players state) with
  | None => None
  | Some player =>
      let answered := match getCurrentRound m with
                      | Some round => bool_decide (is_Some (map_get playerId (rd_answers round)))
                      | None => false
                      end in
      Some (emitPlayerEliminated roomId matchId state playerId (pl_name player) answered (pl_isOnline player))
  end.

(** From the verdict on: the rows, the snapshot, the result phase, the
    broadcast, the timer of the next decision. *)
Definition concludeRound (matchId roomId : jstr) (a : nat) (state : MatchState) (ctx : RoundEndContext)
    : Task unit :=
  currentRoundForSave <- peek a getCurrentRound ;;
  match currentRoundForSave with
  | None => raise (JsError "Cannot read properties of null")
  | Some round =>
      await (RSaveRound matchId (ms_currentRoundNo state) (q_id (rd_question round)) (rd_answers round)) ;;
      evalOutcome <- persistStateMachine matchId ;;
      if negb (applied evalOutcome) then pret tt
      else
        call_or_throw a (transition ROUND_RESULT) ;;
        resultOutcome <- persistStateMachine matchId ;;
        if negb (applied resultOutcome) then pret tt
        else
          say (emitRoundEnded roomId matchId state (re_correctAnswer ctx) (re_survivingIds ctx)
                 (re_eliminatedIds ctx)) ;;
          notices <- peek (A := list Emission) a (fun m => omap (elimination_notice roomId matchId state m) (re_eliminatedIds ctx)) ;;
          for_each notices say ;;
          scheduleMatchEndCheck matchId roomId
  end.

Definition conclude_if (matchId roomId : jstr) (a : nat) (state : MatchState)
    (ctx : option RoundEndContext) : Task unit :=
  match ctx with None => pret tt | Some ctx => concludeRound matchId roomId a state ctx end.

Definition endRound_guarded (matchId roomId : jstr) : Task unit :=
  sm <- getStateMachine matchId ;;
  match sm with
  | None => pret tt
  | Some a =>
      state <- peek a getState ;;
      round <- peek a getCurrentRound ;;
      match round with
      | None => pret tt
      | Some round =>
          match ms_status state with
          | ROUND_ACTIVE =>
              if negb (bool_decide (rd_status round = RACTIVE)) then pret tt
              else ctx <- handleActiveRoundEnd matchId a ;; conclude_if matchId roomId a state ctx
          | ROUND_EVALUATING =>
              if negb (bool_decide (rd_status round = COMPLETED)) then pret tt
              else ctx <- recoverRoundEnd a state round ;; concludeRound matchId roomId a state ctx
          | ROUND_RESULT => scheduleMatchEndCheck matchId roomId
          | _ => pret tt
          end
      end
  end.

Definition endRound (matchId roomId : jstr) : Task unit :=
  own <- assertOwnership matchId ;;
  if negb own then pret tt
  else
    entered <- act (fun n => let '(b, t) := beginEndRound matchId (nd_timers n) in (b, set_timers t n)) ;;
    if negb entered then pret tt
    else finally (endRound_guarded matchId roomId)
           (fun n => set_timers (endEndRound matchId (nd_timers n)) n).

Definition checkEarlyTermination (matchId roomId : jstr) : Task unit :=
  ending <- reads (fun n => isEndingRound matchId (nd_timers n)) ;;
  if ending : bool then pret tt
  else
    sm <- getStateMachine matchId ;;
    match sm with
    | None => pret tt
    | Some a =>
        round <- peek a getCurrentRound ;;
        expected <- reads (fun n => getExpectedAnswers matchId (nd_timers n)) ;;
        match round with
        | None => pret tt
        | Some round =>
            if (0 <? expected) && (expected <=? Z.of_nat (length (rd_answers round)))
               && bool_decide (rd_status round = RACTIVE)
            then on_timers (clearTimers matchId) ;; endRound matchId roomId
            else pret tt
        end
    end.

(** ** Simulated players in a round *)

Section Runner.
Context (nanoid : nat -> jstr).

(** What the loop does when a machine could not be saved: forget the cached
    object and put the object back into the state it had. *)
Definition rollback (matchId : jstr) (a : nat) (serialized : WireMatch) : Task unit :=
  evictStateMachine matchId ;; restore a serialized.

(** The guards the callbacks of the bots share: the owner, an active round, a
    deadline ahead.  The body gets the machine, the round and the time. *)
Definition during_round (matchId : jstr) (body : nat -> RoundRuntimeState -> Z -> Task unit) : Task unit :=
  own <- assertOwnership matchId ;;
  if negb own then pret tt
  else
    sm <- getStateMachine matchId ;;
    match sm with
    | None => pret tt
    | Some a =>
        status <- peek a (fun m => ms_status (getState m)) ;;
        if negb (bool_decide (status = ROUND_ACTIVE)) then pret tt
        else
          round <- peek a getCurrentRound ;;
          match round with
          | None => pret tt
          | Some round =>
              t <- now ;;
              if rd_endsAt round <=? t then pret tt else body a round t
          end
    end.

Definition bot_answer (matchId roomId userId answer submissionId : jstr) : Task unit :=
  during_round matchId (fun a round t =>
    serialized <- peek a serialize ;;
    result <- call_or_throw a (submitAnswer userId answer t (Some submissionId)) ;;
    outcome <- persistStateMachine matchId ;;
    if negb (applied outcome) then rollback matchId a serialized
    else
      say (emitAnswerResult matchId userId result (rd_roundNo round)) ;;
      checkEarlyTermination matchId roomId).

(** The target of a bot's card: a random enemy, or itself. *)
Definition bot_targets (botId : jstr) (cardId : CardId) (currentSurviving : list jstr)
    : Task (option (list jstr)) :=
  if isAttackCard cardId then
    let enemies := filter (fun id => id <> botId) currentSurviving in
    match enemies with
    | [] => pret None
    | _ =>
        i <- random_below (length enemies) ;;
        pret ((fun chosenTarget => [chosenTarget]) <$> enemies !! i)
    end
  else pret (Some [botId]).

Definition bot_frame (matchId botId : jstr) (cardId : CardId) (offerSeqNo : Z) (effect : CardEffect)
    (targets : list jstr) (roundNo serverTimestamp : Z) (result : PlayResult) : CardResolvedPayload :=
  mkResolved (pr_seqNo result) matchId roundNo
    (match effect with SHIELD expiresAtRound => expiresAtRound | _ => roundNo end)
    cardId offerSeqNo botId targets effect
    (match pr_expiresAtServer result with None => MUTATION | Some _ => TEMPORARY end)
    serverTimestamp (pr_expiresAtServer result) (pr_remainingMs result) None None.

Definition bot_card (matchId roomId botId : jstr) (cardId : CardId) (offerSeqNo : Z)
    (question : QuestionInput) : Task unit :=
  during_round matchId (fun a round t =>
    currentSurviving <- peek a (fun m => ms_survivingPlayerIds (getState m)) ;;
    targets <- bot_targets botId cardId currentSurviving ;;
    match targets with
    | None => pret tt
    | Some targetPlayerIds =>
        hand <- peek a (fun m => getHand m (default [] (head targetPlayerIds))) ;;
        resolved <- Done (resolveCardEffect cardId (cd_effectTemplate (card_def cardId))
          (makeCardResolveRng matchId botId (rd_roundNo round) offerSeqNo cardId)
          (mkCtx (Some hand) (Some (qi_options question)) (Some (qi_correctAnswer question))
             (Some (rd_roundNo round)))) ;;
        let effect := fst resolved in
        let serverTimestamp := Z.min t (rd_endsAt round) in
        serialized <- peek a serialize ;;
        playResult <- call_or_throw a
          (playCard botId cardId offerSeqNo effect targetPlayerIds serverTimestamp None None) ;;
        outcome <- persistStateMachine matchId ;;
        if negb (applied outcome) then rollback matchId a serialized
        else
          for_each (emitCardResolved (Some roomId)
            (bot_frame matchId botId cardId offerSeqNo effect targetPlayerIds (rd_roundNo round)
               serverTimestamp playResult)) say
    end).

(** One iteration of [scheduleBotCardPlays]. *)
Definition schedule_bot_card (matchId roomId : jstr) (a : nat) (question : QuestionInput)
    (botOfferSeqNos : JsMap jstr Z) (botId : jstr) : Task unit :=
  match map_get botId botOfferSeqNos with
  | None => pret tt
  | Some offerSeqNo =>
      playableCards <- peek a (fun m =>
        filter (fun c => negb (set_has c (getPlayedCards m botId))) (getPickedCards m botId)) ;;
      match playableCards with
      | [] => pret tt
      | _ =>
          i <- random_below (length playableCards) ;;
          delayMs <- random_between 800 2500 ;;
          match playableCards !! i with
          | Some cardId => armPhaseTimer matchId roomId (CbBotCard botId cardId offerSeqNo question) delayMs
          | None => pret tt
          end
      end
  end.

Definition scheduleBotCardPlays (matchId roomId : jstr) (a : nat) (botPlayerIds : list jstr)
    (question : QuestionInput) (botOfferSeqNos : JsMap jstr Z) : Task unit :=
  survivingPlayerIds <- peek a (fun m => ms_survivingPlayerIds (getState m)) ;;
  if Z.of_nat (length survivingPlayerIds) <=? 1 then pret tt
  else for_each botPlayerIds (schedule_bot_card matchId roomId a question botOfferSeqNos).

Definition scheduleBotAnswers (matchId roomId : jstr) (a : nat) (question : QuestionInput)
    (botOfferSeqNos : JsMap jstr Z) : Task unit :=
  state <- peek a getState ;;
  bots <- attempt (getBotPlayerIds matchId) ;;
  match bots with
  | Throw _ => pret tt
  | Ok botIds =>
      match filter (fun pid => set_has pid botIds) (ms_survivingPlayerIds state) with
      | [] => pret tt
      | botPlayerIds =>
          scheduleBotCardPlays matchId roomId a botPlayerIds question botOfferSeqNos ;;
          simulations <- simulateBotAnswers nanoid question botPlayerIds ;;
          for_each simulations (fun sim =>
            armPhaseTimer matchId roomId
              (CbBotAnswer (bs_userId sim) (bs_answer sim) (bs_submissionId sim)) (bs_responseTimeMs sim))
      end
  end.

(** ** Card offers of the milestone rounds *)

Record CardOfferToEmit := mkOfferToEmit {
  co_playerId : jstr;
  co_offeredCards : list CardId;
  co_offerSeqNo : Z;
  co_offerSeed : jstr;
}.

(** [`${matchId}:offer:r${roundNo}:${playerId}`] *)
Definition offer_seed (matchId playerId : jstr) (roundNo : Z) : jstr :=
  matchId ++ js ":offer:r" ++ js_of_Z roundNo ++ js ":" ++ playerId.

Definition class_seed (matchId : jstr) : jstr := matchId ++ js ":class".

(** A bot picks one of its offered cards; its failure is ignored. *)
Definition bot_pick (a : nat) (playerId : jstr) (offeredCards : list CardId) (offerSeqNo : Z) : Task unit :=
  match offeredCards with
  | [] => pret tt
  | _ =>
      i <- random_below (length offeredCards) ;;
      match offeredCards !! i with
      | Some chosenCard => call a (pickCard playerId chosenCard offerSeqNo None None) ;; pret tt
      | None => pret tt
      end
  end.

Definition offer_one (matchId : jstr) (a : nat) (roundNo : Z) (botIds : list jstr) (playerId : jstr)
    : Task (option CardOfferToEmit) :=
  let offerSeed := offer_seed matchId playerId roundNo in
  offered <- call a (pickOffer playerId roundNo offerSeed) ;;
  match offered with
  | Throw _ => pret None
  | Ok (c1, c2, c3) =>
      let offeredCards := [c1; c2; c3] in
      offerSeqNo <- peek a getHeadSeqNo ;;
      (if set_has playerId botIds then bot_pick a playerId offeredCards offerSeqNo else pret tt) ;;
      pret (Some (mkOfferToEmit playerId offeredCards offerSeqNo offerSeed))
  end.

Fixpoint offer_all (matchId : jstr) (a : nat) (roundNo : Z) (botIds playerIds : list jstr)
    : Task (list CardOfferToEmit) :=
  match playerIds with
  | [] => pret []
  | playerId :: ids =>
      o <- offer_one matchId a roundNo botIds playerId ;;
      l <- offer_all matchId a roundNo botIds ids ;;
      pret (option_list o ++ l)
  end.

(** [botOfferSeqNos] *)
Definition bot_offers (botIds : list jstr) (offers : list CardOfferToEmit) : JsMap jstr Z :=
  foldl (fun seqNos o => if set_has (co_playerId o) botIds
                         then map_set (co_playerId o) (co_offerSeqNo o) seqNos else seqNos) [] offers.

Definition triggerMilestoneCardOffers (matchId roomId : jstr) (a : nat) (roundNo : Z)
    : Task (JsMap jstr Z) :=
  own <- assertOwnership matchId ;;
  if negb own then pret []
  else
    state <- peek a getState ;;
    serialized <- peek a serialize ;;
    assigned <- peek a hasClassAssignments ;;
    classAssignmentEvent <-
      (if assigned : bool then pret None
       else
         assignments <- call_or_throw a (classAssignment (ms_players state).*1 (class_seed matchId)) ;;
         pret (Some assignments)) ;;
    bots <- attempt (getBotPlayerIds matchId) ;;
    let botIds := match bots with Ok ids => ids | Throw _ => [] end in
    cardOffersToEmit <- offer_all matchId a roundNo botIds (ms_survivingPlayerIds state) ;;
    outcome <- persistStateMachine matchId ;;
    if negb (applied outcome) then rollback matchId a serialized ;; pret []
    else
      (match classAssignmentEvent with
       | Some assignments => say (emitClassAssigned roomId matchId assignments (class_seed matchId))
       | None => pret tt
       end) ;;
      for_each cardOffersToEmit (fun o =>
        for_each (emitCardOffer (co_playerId o) roomId matchId roundNo (co_offeredCards o)
                    (co_offerSeqNo o) (co_offerSeed o)) say) ;;
      pret (bot_offers botIds cardOffersToEmit).

(** ** A round *)

Definition allowed_categories (state : MatchState) : option (list jstr) :=
  match ms_activeTopics state with Some (t :: ts) => Some (t :: ts) | _ => None end.

Definition client_view (question : QuestionInput) : QuestionState :=
  mkQuestion (qi_id question) (qi_content question) (qi_options question) (qi_difficulty question).

Definition executeRound (matchId roomId : jstr) : Task unit :=
  own <- assertOwnership matchId ;;
  if negb own then pret tt
  else
    sm <- getStateMachine matchId ;;
    match sm with
    | None => pret tt
    | Some a =>
        call_or_throw a (transition ROUND_ACTIVE) ;;
        excludeIds <- reads (fun n => default [] (getUsedQuestions matchId (nd_timers n))) ;;
        categories <- peek a (fun m => allowed_categories (getState m)) ;;
        fetched <- attempt (await (RRandomQuestion excludeIds categories)) ;;
        match fetched with
        | Throw _ => finishMatchLoop matchId roomId
        | Ok question =>
            on_timers (markQuestionUsed matchId (qi_id question)) ;;
            call_or_throw a (startRound question None) ;;
            startOutcome <- persistStateMachine matchId ;;
            if negb (applied startOutcome) then pret tt
            else
              state <- peek a getState ;;
              on_timers (setExpectedAnswers matchId (Z.of_nat (length (ms_survivingPlayerIds state)))) ;;
              round <- peek a getCurrentRound ;;
              match round with
              | None => raise (JsError "Cannot read properties of null")
              | Some round =>
                  say (emitRoundStarted roomId matchId state (client_view question) (rd_endsAt round)) ;;
                  armPhaseTimer matchId roomId CbRoundEnd GAME_CONFIG.ROUND_DURATION_MS ;;
                  botOfferSeqNos <-
                    (if isMilestoneRound (ms_currentRoundNo state)
                     then triggerMilestoneCardOffers matchId roomId a (ms_currentRoundNo state)
                     else pret []) ;;
                  scheduleBotAnswers matchId roomId a question botOfferSeqNos
              end
        end
    end.

Definition checkMatchEnd (matchId roomId : jstr) : Task unit :=
  own <- assertOwnership matchId ;;
  if negb own then pret tt
  else
    sm <- getStateMachine matchId ;;
    match sm with
    | None => pret tt
    | Some a =>
        over <- peek a (fun m => shouldEndMatch m (Some GAME_CONFIG.MAX_ROUNDS)) ;;
        if over : bool then finishMatchLoop matchId roomId else executeRound matchId roomId
    end.

(** ** Timer callbacks *)

Definition topic_voting_ends (matchId roomId : jstr) : Task unit :=
  own <- assertOwnership matchId ;;
  if negb own then pret tt
  else
    sm <- getStateMachine matchId ;;
    match sm with
    | None => pret tt
    | Some a =>
        status <- peek a (fun m => ms_status (getState m)) ;;
        if negb (bool_decide (status = TOPIC_VOTING)) then pret tt
        else
          serialized <- peek a serialize ;;
          result <- call_or_throw a (resolveTopicVoting None) ;;
          call_or_throw a (transition COUNTDOWN) ;;
          persistOutcome <- persistStateMachine matchId ;;
          if negb (applied persistOutcome) then rollback matchId a serialized
          else
            say (emitTopicVotingFinished roomId matchId result) ;;
            say (emitMatchStarted roomId matchId GAME_CONFIG.COUNTDOWN_DURATION_MS) ;;
            executeCountdown matchId roomId
    end.

Definition countdown_ends (matchId roomId : jstr) : Task unit :=
  sm <- getStateMachine matchId ;;
  match sm with
  | None => pret tt
  | Some _ => executeRound matchId roomId
  end.

Definition callback_body (matchId roomId : jstr) (cb : Callback) : Task unit :=
  match cb with
  | CbTopicVoting => topic_voting_ends matchId roomId
  | CbCountdown => countdown_ends matchId roomId
  | CbRoundEnd => endRound matchId roomId
  | CbMatchEnd => checkMatchEnd matchId roomId
  | CbBotAnswer userId answer submissionId => bot_answer matchId roomId userId answer submissionId
  | CbBotCard botId cardId offerSeqNo question =>
      bot_card matchId roomId botId cardId offerSeqNo question
  end.

(** Every callback catches what it throws. *)
Definition timer_fires (matchId : jstr) (timer : Timer) : Task unit :=
  attempt (callback_body matchId (tm_roomId timer) (tm_callback timer)) ;; pret tt.

(** ** Starting and resuming *)

Definition startMatchLoop (matchId roomId : jstr) : Task unit :=
  sm <- getStateMachine matchId ;;
  match sm with
  | None => raise (RoomError MATCH_NOT_FOUND)
  | Some a =>
      await (RRoomInGame roomId matchId) ;;
      updatedAt <- now ;;
      say (emitRoomStatusUpdated roomId RIN_GAME (Some matchId) updatedAt) ;;
      on_timers (initUsedQuestions matchId) ;;
      category <- await (RRoomCategory roomId) ;;
      let isAllCategory := match category with
                           | None | Some [] => true
                           | Some c => bool_decide (c = js "ALL")
                           end in
      if isAllCategory : bool then
        candidates <- call_or_throw a (initTopicVoting None None) ;;
        startOutcome <- persistStateMachine matchId ;;
        if negb (applied startOutcome) then pret tt
        else
          state <- peek a getState ;;
          endsAt <- match ms_phaseEndsAt state with
                    | Some t => pret t
                    | None => t <- now ;; pret (t + GAME_CONFIG.TOPIC_VOTING_DURATION_MS)
                    end ;;
          say (emitTopicVotingStarted roomId matchId candidates endsAt GAME_CONFIG.TOPIC_VOTING_DURATION_MS) ;;
          remainingMs <- resumePhaseRemaining a TOPIC_VOTING GAME_CONFIG.TOPIC_VOTING_DURATION_MS ;;
          armPhaseTimer matchId roomId CbTopicVoting remainingMs
      else
        call_or_throw a (transition COUNTDOWN) ;;
        startOutcome <- persistStateMachine matchId ;;
        if negb (applied startOutcome) then pret tt
        else
          say (emitMatchStarted roomId matchId GAME_CONFIG.COUNTDOWN_DURATION_MS) ;;
          executeCountdown matchId roomId
  end.

(** The questions the event log says were used. *)
Definition started_question (e : Event) : option jstr :=
  match ev_payload e with E_ROUND_STARTED _ questionId _ _ => Some questionId | _ => None end.

Definition rebuild_used (matchId : jstr) (log : list Event) (t : TimerRegistry) : TimerRegistry :=
  foldl (fun t questionId => markQuestionUsed matchId questionId t) (initUsedQuestions matchId t)
    (omap started_question log).

(** The phase a status waits in: its callback and its length. *)
Definition resume_phase (status : MatchStatus) : option (Callback * Z) :=
  match status with
  | TOPIC_VOTING => Some (CbTopicVoting, GAME_CONFIG.TOPIC_VOTING_DURATION_MS)
  | COUNTDOWN => Some (CbCountdown, GAME_CONFIG.COUNTDOWN_DURATION_MS)
  | ROUND_ACTIVE => Some (CbRoundEnd, GAME_CONFIG.ROUND_DURATION_MS)
  | ROUND_RESULT => Some (CbMatchEnd, GAME_CONFIG.RESULT_DISPLAY_MS)
  | ROUND_EVALUATING | FINISHED | CREATED => None
  end.

Definition resumeMatchLoop (matchId : jstr) (hydratedSm : nat) (roomId : jstr) : Task unit :=
  state <- peek hydratedSm getState ;;
  log <- peek hydratedSm getEventLog ;;
  on_timers (rebuild_used matchId log) ;;
  (if bool_decide (ms_status state = ROUND_ACTIVE)
   then on_timers (setExpectedAnswers matchId (Z.of_nat (length (ms_survivingPlayerIds state))))
   else pret tt) ;;
  match resume_phase (ms_status state) with
  | Some (callback, phaseMax) =>
      remaining <- resumePhaseRemaining hydratedSm (ms_status state) phaseMax ;;
      armPhaseTimer matchId roomId callback remaining
  | None =>
      match ms_status state with
      | ROUND_EVALUATING => endRound matchId roomId
      | FINISHED =>
          on_timers (disposeMatch matchId) ;;
          release matchId ;;
          disposeCommandStream matchId
      | _ =>
          on_timers (disposeMatch matchId) ;;
          attempt (disposeCommandStream matchId) ;;
          release matchId
      end
  end.
End Runner.
