(* ===== verification/RunnerTraces.v ===== *)
(** * What the match loop lets be seen

    The order of renewals, fenced writes and emissions in the runs of the timer
    callbacks, under any interference and with any replies.  A program is
    followed by a monitor of two bits: did the latest renewal of the lease
    succeed, did the latest write land. *)

From stdpp Require Import gmap.
From S2P Require Import Prelude JsData Doubles Effects Shared Decimal Redis Lease Fencing.
From S2P Require Import Cards Prng CardEngine Scoring TopicVoting ClassEngine Machine MachineCards MachineOps MachineRounds.
From S2P Require Import MatchCodec Events CardCommands Async Envelopes Timers Node World Commands Ownership.
From S2P Require Import RoundRecovery Bots RoundRunner.
#[local] Open Scope Z_scope.
#[local] Open Scope prog_scope.

Abbreviation Trace := (list (Item Emission Req)).

(** ** The monitor *)

Record Status := mkStatus { renewed : bool; saved : bool }.

Section Monitor.
Context (id : jstr).

Definition is_ok_true (r : outcome exn bool) : bool := match r with Ok true => true | _ => false end.
Definition is_ok_applied (r : outcome exn SetOutcome) : bool :=
  match r with Ok SetApplied => true | _ => false end.

(** The status after a request and its reply. *)
Definition status_after {X} (s : Status) (q : Req X) : outcome exn X -> Status :=
  match q in Req X return outcome exn X -> Status with
  | RRedis c =>
      match c in Cmd R return outcome exn R -> Status with
      | RenewLease id' _ => fun r => if bool_decide (id' = id) then mkStatus (is_ok_true r) (saved s) else s
      | FencedStateSet id' _ =>
          fun r => if bool_decide (id' = id) then mkStatus (renewed s) (is_ok_applied r) else s
      | _ => fun _ => s
      end
  | _ => fun _ => s
  end.

(** A fenced write of the match needs a renewed lease. *)
Definition may_ask {X} (s : Status) (q : Req X) : Prop :=
  match q with
  | RRedis (FencedStateSet id' _) => id' = id -> renewed s = true
  | _ => True
  end.

Fixpoint status_at (s : Status) (t : Trace) : Status :=
  match t with
  | [] => s
  | Said _ :: t' => status_at s t'
  | Asked q r :: t' => status_at (status_after s q r) t'
  end.

(** Renew, then write, then speak. *)
Fixpoint lawful (s : Status) (t : Trace) : Prop :=
  match t with
  | [] => True
  | Said _ :: t' => saved s = true /\ lawful s t'
  | Asked q r :: t' => may_ask s q /\ lawful (status_after s q r) t'
  end.

Lemma status_at_app s t1 t2 : status_at s (t1 ++ t2) = status_at (status_at s t1) t2.
Proof. revert s. induction t1 as [|[x|X q r] t1 IH]; intros s; cbn; auto. Qed.

Lemma lawful_app s t1 t2 : lawful s (t1 ++ t2) <-> lawful s t1 /\ lawful (status_at s t1) t2.
Proof.
  revert s. induction t1 as [|[x|X q r] t1 IH]; intros s; cbn; [tauto| |]; rewrite IH; tauto.
Qed.

(** [flow s p Q]: from status [s] every run of [p] is lawful, and its outcome
    and last status satisfy [Q]. *)
Definition flow {R} (s : Status) (p : Task R) (Q : outcome exn R -> Status -> Prop) : Prop :=
  every_run p (fun o t => lawful s t /\ Q o (status_at s t)).

(** The post-conditions used most: anything goes, nothing changed. *)
Definition any_end {R} : outcome exn R -> Status -> Prop := fun _ _ => True.
Definition same_end {R} (s : Status) : outcome exn R -> Status -> Prop := fun _ s' => s' = s.

Lemma flow_mono {R} s (p : Task R) (Q Q' : outcome exn R -> Status -> Prop) :
  (forall o s', Q o s' -> Q' o s') -> flow s p Q -> flow s p Q'.
Proof. intros HQ. apply every_mono. intros o t [Hl Hq]. split; auto. Qed.

Lemma flow_done {R} s (o : outcome exn R) (Q : outcome exn R -> Status -> Prop) :
  Q o s -> flow s (Done o) Q.
Proof. intros H. by apply every_done. Qed.

Lemma flow_bind {A B} s (p : Task A) (k : A -> Task B) Q1 Q :
  flow s p Q1 ->
  (forall a s', Q1 (Ok a) s' -> flow s' (k a) Q) ->
  (forall e s', Q1 (Throw e) s' -> Q (Throw e) s') ->
  flow s (pbind p k) Q.
Proof.
  intros H1 H2 H3. eapply every_bind; [exact H1|]. intros [a|e] t [Hl Hq].
  - eapply every_mono; [|by apply H2]. intros o t' [Hl' Hq'].
    by rewrite lawful_app, status_at_app.
  - split; [done|by apply H3].
Qed.

Lemma flow_act {X B} s (f : Node -> X * Node) (k : X -> Task B) Q :
  (forall x, flow s (k x) Q) -> flow s (pbind (act f) k) Q.
Proof. intros H. apply every_act, H. Qed.

Lemma flow_say {B} s (x : Emission) (k : unit -> Task B) Q :
  saved s = true -> flow s (k tt) Q -> flow s (pbind (say x) k) Q.
Proof.
  intros Hs H. apply every_say. eapply every_mono; [|exact H]. intros o t [Hl Hq]. by cbn.
Qed.

Lemma flow_await {X B} s (q : Req X) (k : X -> Task B) (Q : outcome exn B -> Status -> Prop) :
  may_ask s q ->
  (forall r, flow (status_after s q r) (match r with Ok x => k x | Throw e => Done (Throw e) end) Q) ->
  flow s (pbind (await q) k) Q.
Proof.
  intros Hm H. apply every_await. intros r. eapply every_mono; [|apply H].
  intros o t [Hl Hq]. by cbn.
Qed.

Lemma flow_try {X B} s (q : Req X) (k : outcome exn X -> Task B) Q :
  may_ask s q -> (forall r, flow (status_after s q r) (k r) Q) ->
  flow s (pbind (attempt (await q)) k) Q.
Proof.
  intros Hm H. apply every_try. intros r. eapply every_mono; [|apply H].
  intros o t [Hl Hq]. by cbn.
Qed.

Lemma flow_assoc {A B C} s (p : Task A) (k : A -> Task B) (k2 : B -> Task C) Q :
  flow s (pbind p (fun a => pbind (k a) k2)) Q -> flow s (pbind (pbind p k) k2) Q.
Proof. apply every_assoc. Qed.

Lemma flow_attempt {A} s (p : Task A) Q :
  flow s p (fun o s' => Q (Ok o) s') -> flow s (attempt p) Q.
Proof. apply (every_attempt p (fun o t => lawful s t /\ Q o (status_at s t))). Qed.

Lemma flow_finally {A} s (p : Task A) f Q : flow s p Q -> flow s (finally p f) Q.
Proof. apply (every_finally p f (fun o t => lawful s t /\ Q o (status_at s t))). Qed.

(** A program is followed by what it leads into. *)
Lemma flow_seq {A B} s (p : Task A) (k : A -> Task B) Q :
  flow s p (same_end s) -> (forall a, flow s (k a) Q) -> (forall e, Q (Throw e) s) ->
  flow s (pbind p k) Q.
Proof.
  intros Hp Hk He. eapply flow_bind; [exact Hp| |]; cbn.
  - intros a s' ->. apply Hk.
  - intros e s' ->. apply He.
Qed.

Lemma flow_last {A} s (p : Task A) Q : flow s (pbind p pret) Q -> flow s p Q.
Proof. apply every_last. Qed.
End Monitor.

(** ** Following the methods *)

(** Splits a program into its steps; the requests that matter to the monitor
    are left to the lemmas. *)
Ltac flow_step :=
  match goal with
  | |- flow _ _ (pret _) _ => apply flow_done
  | |- flow _ _ (Done _) _ => apply flow_done
  | |- flow _ _ (raise _) _ => apply flow_done
  | |- flow _ _ (pbind (pret _) _) _ => cbn [pbind pret]
  | |- flow _ _ (pbind (Done (Ok _)) _) _ => cbn [pbind]
  | |- flow _ _ (pbind (Done (Throw _)) _) _ => cbn [pbind]
  | |- flow _ _ (pbind (Done ?o) _) _ => destruct o
  | |- flow _ _ (pbind (pbind _ _) _) _ => apply flow_assoc
  | |- flow _ _ (pbind (call_or_throw _ _) _) _ => apply flow_assoc
  | |- flow _ _ (pbind (say _) _) _ => apply flow_say; [by auto|]
  | |- flow _ _ (pbind (await _) _) _ =>
      apply flow_await; [exact I|cbn [status_after]; intros [?|?]]
  | |- flow _ _ (pbind (attempt (await _)) _) _ =>
      apply flow_try; [exact I|cbn [status_after]; intros [?|?]]
  | |- flow _ _ (pbind (attempt (redis (RenewLease _ _))) _) _ => fail 1
  | |- flow _ _ (pbind (redis _) _) _ =>
      apply flow_await; [exact I|cbn [status_after]; intros [?|?]]
  | |- flow _ _ (pbind (attempt (redis _)) _) _ =>
      apply flow_try; [exact I|cbn [status_after]; intros [?|?]]
  | |- flow _ _ (pbind (match ?x with _ => _ end) _) _ => destruct x eqn:?
  | |- flow _ _ (match ?x with _ => _ end) _ => destruct x eqn:?
  | |- flow _ _ (pbind ?p _) _ =>
      match p with
      | act _ => idtac | reads _ => idtac | writes _ => idtac | now => idtac
      | call _ _ => idtac | peek _ _ => idtac | evictStateMachine _ => idtac
      | on_timers _ => idtac | armPhaseTimer _ _ _ _ => idtac | executeCountdown _ _ => idtac
      | scheduleMatchEndCheck _ _ => idtac | owned_entry _ => idtac | still_entry _ _ => idtac
      | disown _ => idtac | cancelMatchLoop _ => idtac | random_below _ => idtac
      end; apply flow_act; intros ?
  | |- flow _ _ ?p _ =>
      match p with
      | act _ => idtac | reads _ => idtac | writes _ => idtac | now => idtac
      | call _ _ => idtac | call_or_throw _ _ => idtac | peek _ _ => idtac
      | evictStateMachine _ => idtac | on_timers _ => idtac | armPhaseTimer _ _ _ _ => idtac
      | executeCountdown _ _ => idtac | scheduleMatchEndCheck _ _ => idtac | await _ => idtac
      | redis _ => idtac | say _ => idtac | random_below _ => idtac
      end; apply flow_last
  end.

Ltac flow_steps := repeat flow_step.

(** The next program is known not to move the monitor. *)
Tactic Notation "flow_same" uconstr(lem) :=
  eapply flow_seq; [apply lem| |]; [intros ?|intros ?; try exact I; try reflexivity].

Lemma rehydrate_same id s a : flow id s (rehydrateCorrectAnswer a) (same_end s).
Proof. unfold rehydrateCorrectAnswer. flow_steps; done. Qed.

Lemma getStateMachine_same id s matchId : flow id s (getStateMachine matchId) (same_end s).
Proof.
  unfold getStateMachine. flow_steps; try done.
  all: flow_same rehydrate_same; flow_steps; done.
Qed.

Lemma getBotPlayerIds_same id s matchId : flow id s (getBotPlayerIds matchId) (same_end s).
Proof. unfold getBotPlayerIds. flow_steps; done. Qed.

Lemma readPersistedRevision_same id s matchId :
  flow id s (readPersistedRevision matchId) (same_end s).
Proof. unfold readPersistedRevision. flow_steps; done. Qed.

Lemma restore_same id s a w : flow id s (restore a w) (same_end s).
Proof. unfold restore. flow_steps; done. Qed.

Lemma rollback_same id s matchId a w : flow id s (rollback matchId a w) (same_end s).
Proof. unfold rollback. flow_steps. apply restore_same. Qed.

Lemma for_each_same {A} id s (l : list A) (body : A -> Task unit) :
  (forall x, flow id s (body x) (same_end s)) -> flow id s (for_each l body) (same_end s).
Proof.
  intros H. induction l as [|x l IH]; [by apply flow_done|]. cbn. flow_same H. exact IH.
Qed.

Lemma say_same id s l : saved s = true -> flow id s (for_each l say) (same_end s).
Proof. intros Hs. apply for_each_same. intros x. flow_steps; done. Qed.

(** Renewing: an answer [true] is a renewal that just succeeded. *)
Definition renewing (s : Status) (o : outcome exn bool) (s' : Status) : Prop :=
  saved s' = saved s /\ (o = Ok true -> renewed s' = true).

Lemma flow_renew {B} id s lease (k : outcome exn bool -> Task B) Q :
  (forall r, flow id (mkStatus (is_ok_true r) (saved s)) (k r) Q) ->
  flow id s (pbind (attempt (redis (RenewLease id lease))) k) Q.
Proof.
  intros H. apply flow_try; [exact I|]. cbn [status_after]. rewrite bool_decide_eq_true_2 by done.
  exact H.
Qed.

Lemma assertOwnership_renews id s : flow id s (assertOwnership id) (renewing s).
Proof.
  unfold assertOwnership. flow_steps; [|by split].
  generalize ASSERT_RENEW_ATTEMPTS as k. revert s.
  assert (forall k s s0, saved s = saved s0 -> flow id s (assert_loop k id o) (renewing s0)) as H.
  2:{ intros s k. by apply H. }
  induction k as [|k IH]; intros s s0 Hs; cbn [assert_loop].
  - unfold relinquish. flow_steps; by split.
  - flow_steps; [by split|]. apply flow_renew. intros [[]|e]; unfold relinquish; flow_steps;
      try (by split). by apply IH.
Qed.

(** Persisting under a renewed lease. *)
Definition persisting (o : outcome exn PersistOutcome) (s' : Status) : Prop :=
  renewed s' = true /\ (o = Ok APPLIED -> saved s' = true).

Lemma flow_write {B} id s opts (k : SetOutcome -> Task B) (Q : outcome exn B -> Status -> Prop) :
  renewed s = true ->
  (forall b, flow id (mkStatus true b) (k (if b then SetApplied else SetRetry)) Q) ->
  (forall e, Q (Throw e) (mkStatus true false)) ->
  flow id s (pbind (await (RRedis (FencedStateSet id opts))) k) Q.
Proof.
  intros Hr Hk He. apply flow_await; [by intros _|]. cbn [status_after].
  rewrite bool_decide_eq_true_2, Hr by done.
  intros [[]|e]; [apply (Hk true)|apply (Hk false)|]. apply flow_done, He.
Qed.

Lemma persist_persists id s : renewed s = true -> flow id s (persistStateMachine id) persisting.
Proof.
  intros Hr. unfold persistStateMachine, persistStateMachine_opts, runPersistExclusive.
  flow_step. flow_step; apply flow_finally; unfold persistStateMachineInner.
  all: flow_steps; try (by split).
  all: repeat first [flow_same readPersistedRevision_same | flow_step]; try (by split).
  all: apply flow_write; [done|intros []; flow_steps; by split|by split].
Qed.

(** ** Following the loop *)

(** A program whose failure is not looked at. *)
Abbreviation ends id s p := (flow id s p any_end).

Lemma ends_seq {A B} id s (p : Task A) (k : A -> Task B) Q1 :
  flow id s p Q1 -> (forall a s', Q1 (Ok a) s' -> ends id s' (k a)) -> ends id s (pbind p k).
Proof. intros H1 H2. eapply flow_bind; [exact H1|exact H2|]. by intros. Qed.

(** A guard: what follows runs only under a renewed lease. *)
Lemma ends_guarded {B} id s (k : Task B) (r : B) :
  (forall s', renewed s' = true -> ends id s' k) ->
  ends id s (own <- assertOwnership id ;; if negb own then pret r else k).
Proof.
  intros H. eapply ends_seq; [apply assertOwnership_renews|].
  intros [] s' [_ Hr]; cbn [negb]; [by apply H, Hr|by apply flow_done].
Qed.

(** Two continuations: the write landed, or it did not. *)
Lemma ends_persist {B} id s (k : PersistOutcome -> Task B) :
  renewed s = true ->
  (forall s', renewed s' = true -> saved s' = true -> ends id s' (k APPLIED)) ->
  (forall s' o, renewed s' = true -> o <> APPLIED -> ends id s' (k o)) ->
  ends id s (pbind (persistStateMachine id) k).
Proof.
  intros Hr Ha Ho. eapply ends_seq; [by apply persist_persists|].
  intros o s' [Hr' Hs]. destruct (decide (o = APPLIED)) as [->|Hne]; [by apply Ha; [|apply Hs]|by apply Ho].
Qed.

Lemma negb_applied o : o <> APPLIED -> negb (applied o) = true.
Proof. intros H. unfold applied. by rewrite bool_decide_eq_false_2. Qed.

Ltac loop_step :=
  match goal with
  | |- flow _ _ (pbind (assertOwnership _) _) _ => apply ends_guarded; intros ? ?
  | |- flow _ _ (pbind (persistStateMachine _) _) _ =>
      apply ends_persist; [by auto|intros ? ? ?|intros ? ? ? ?; rewrite ?negb_applied by done]
  | |- flow _ _ (pbind (getStateMachine _) _) _ => flow_same getStateMachine_same
  | |- flow _ _ (pbind (rollback _ _ _) _) _ => flow_same rollback_same
  | |- flow _ _ (rollback _ _ _) _ => apply flow_last
  | |- flow _ _ (pbind (for_each _ say) _) _ => 
      eapply flow_seq; [apply say_same; by auto|intros ?|intros ?; exact I]
  | |- _ => flow_step
  end.
Ltac loop_steps := repeat loop_step; try exact I.

Lemma release_same id s matchId : flow id s (release matchId) (same_end s).
Proof.
  unfold release. flow_steps; [|done].
  enough (forall k, flow id s (release_loop k matchId (oe_leaseValue o)) (same_end s)) as H
    by (flow_same (H 3%nat); flow_steps; done).
  induction k as [|k IH]; cbn [release_loop]; flow_steps; [done|done|exact IH].
Qed.

Lemma disposeCommandStream_same id s matchId : flow id s (disposeCommandStream matchId) (same_end s).
Proof. unfold disposeCommandStream. flow_steps; done. Qed.

Lemma finishMatch_same id s matchId winnerId roomId b :
  flow id s (finishMatch matchId winnerId roomId b) (same_end s).
Proof.
  unfold finishMatch, finishMatch_load.
  assert (flow id s (if b then pret None else
    (cached <- reads (fun n => nd_machines n !! matchId) ;;
     a <- match cached with Some a => pret (Some a) | None => getStateMachine matchId end ;;
     machine_of a)) (same_end s)) as H.
  { destruct b; flow_steps; try done; unfold machine_of; flow_steps; try done.
    flow_same getStateMachine_same. flow_steps; done. }
  flow_same H. flow_steps; try done.
  all: eapply (flow_bind id s (attempt _) _ (same_end s));
    [apply flow_attempt; flow_steps; try done|intros ? s' ->; flow_steps; done|by intros ? s' ->].
Qed.

Lemma recoverRoundEnd_same id s a state round : flow id s (recoverRoundEnd a state round) (same_end s).
Proof. unfold recoverRoundEnd. flow_steps; done. Qed.

Lemma finishMatchLoopInner_ends id s roomId : ends id s (finishMatchLoopInner id roomId).
Proof.
  unfold finishMatchLoopInner. loop_steps.
  change (negb (applied APPLIED)) with false. cbn iota.
  flow_same finishMatch_same. loop_steps. flow_same release_same.
  apply flow_last. flow_same disposeCommandStream_same. by apply flow_done.
Qed.

Lemma finishMatchLoop_ends id s roomId : ends id s (finishMatchLoop id roomId).
Proof. unfold finishMatchLoop. loop_steps. apply flow_finally, finishMatchLoopInner_ends. Qed.

Lemma concludeRound_ends id s roomId a state ctx :
  renewed s = true -> ends id s (concludeRound id roomId a state ctx).
Proof.
  intros Hr. unfold concludeRound. loop_steps.
Qed.

Lemma handleActiveRoundEnd_keeps id s a :
  renewed s = true -> flow id s (handleActiveRoundEnd id a) (fun _ s' => renewed s' = true).
Proof.
  intros Hr. unfold handleActiveRoundEnd. flow_steps; try done.
  eapply flow_bind; [by apply persist_persists| |by intros e s' []].
  intros o s' [Hr' _]. flow_steps; done.
Qed.

Lemma endRound_ends id s roomId : ends id s (endRound id roomId).
Proof.
  unfold endRound. loop_steps. apply flow_finally. unfold endRound_guarded. loop_steps.
  - eapply flow_bind; [by apply handleActiveRoundEnd_keeps| |by intros].
    intros [ctx|] s'' Hr; cbn; [by apply concludeRound_ends|by apply flow_done].
  - flow_same recoverRoundEnd_same. by apply concludeRound_ends.
Qed.

Lemma checkEarlyTermination_ends id s roomId : ends id s (checkEarlyTermination id roomId).
Proof. unfold checkEarlyTermination. loop_steps. apply endRound_ends. Qed.

Lemma during_round_ends id s body :
  (forall a round t s', renewed s' = true -> ends id s' (body a round t)) ->
  ends id s (during_round id body).
Proof. intros H. unfold during_round. loop_steps. by apply H. Qed.

Lemma bot_answer_ends id s roomId userId answer submissionId :
  ends id s (bot_answer id roomId userId answer submissionId).
Proof.
  apply during_round_ends. intros a round t s' Hr. loop_steps. apply checkEarlyTermination_ends.
Qed.

Lemma bot_card_ends id s roomId botId cardId offerSeqNo question :
  ends id s (bot_card id roomId botId cardId offerSeqNo question).
Proof.
  apply during_round_ends. intros a round t s' Hr. unfold bot_targets. loop_steps.
  all: eapply flow_mono; [|by apply say_same]; done.
Qed.

Lemma flow_try_same {A B} id s (p : Task A) (k : outcome exn A -> Task B) Q :
  flow id s p (same_end s) -> (forall o, flow id s (k o) Q) -> flow id s (pbind (attempt p) k) Q.
Proof.
  intros Hp Hk. eapply flow_bind; [by apply (flow_attempt id s p (fun o s' =>
    match o with Ok _ => s' = s | Throw _ => False end))| |by intros].
  intros o s' ->. apply Hk.
Qed.

Lemma simulateBotAnswers_same nanoid id s question ids :
  flow id s (simulateBotAnswers nanoid question ids) (same_end s).
Proof.
  unfold simulateBotAnswers. flow_steps; [done|].
  generalize (z :: l) as correct. generalize (filter (fun opt => opt <> z :: l) (qi_options question)) as wrong.
  intros wrong correct. induction ids as [|i ids IH]; cbn [simulate_all]; [by apply flow_done|].
  unfold simulate_one, random_between. flow_steps.
  all: flow_same IH; flow_steps; done.
Qed.

Lemma scheduleBotCardPlays_same id s matchId roomId a ids question seqNos :
  flow id s (scheduleBotCardPlays matchId roomId a ids question seqNos) (same_end s).
Proof.
  unfold scheduleBotCardPlays. flow_steps; [done|]. apply for_each_same. intros b.
  unfold schedule_bot_card, random_between. flow_steps; done.
Qed.

Lemma scheduleBotAnswers_ends nanoid id s matchId roomId a question seqNos :
  ends id s (scheduleBotAnswers nanoid matchId roomId a question seqNos).
Proof.
  unfold scheduleBotAnswers. flow_step. apply flow_try_same; [apply getBotPlayerIds_same|]. intros o.
  loop_steps. flow_same scheduleBotCardPlays_same. flow_same simulateBotAnswers_same.
  eapply flow_mono; [|apply for_each_same; intros sim; flow_steps; done]. done.
Qed.

Lemma offer_all_same id s matchId a roundNo botIds ids :
  flow id s (offer_all matchId a roundNo botIds ids) (same_end s).
Proof.
  induction ids as [|i ids IH]; cbn [offer_all]; [by apply flow_done|].
  unfold offer_one, bot_pick. flow_steps; try done.
  all: flow_same IH; flow_steps; done.
Qed.

Lemma triggerMilestoneCardOffers_ends id s roomId a roundNo :
  ends id s (triggerMilestoneCardOffers id roomId a roundNo).
Proof.
  unfold triggerMilestoneCardOffers. apply ends_guarded. intros s' Hr. flow_steps; try exact I.
  all: apply flow_try_same; [apply getBotPlayerIds_same|]; intros o; flow_same offer_all_same; loop_steps.
  all: eapply flow_seq; [apply for_each_same; intros; by apply say_same|intros ?; by apply flow_done|done].
Qed.

Lemma executeRound_ends nanoid id s roomId : ends id s (executeRound nanoid id roomId).
Proof.
  unfold executeRound. loop_steps;
    [|apply scheduleBotAnswers_ends|apply finishMatchLoop_ends].
  eapply ends_seq; [apply triggerMilestoneCardOffers_ends|].
  intros seqNos s'' _. apply scheduleBotAnswers_ends.
Qed.

Lemma checkMatchEnd_ends nanoid id s roomId : ends id s (checkMatchEnd nanoid id roomId).
Proof. unfold checkMatchEnd. loop_steps; [apply finishMatchLoop_ends|apply executeRound_ends]. Qed.

Lemma callback_ends nanoid id s roomId cb : ends id s (callback_body nanoid id roomId cb).
Proof.
  destruct cb; cbn [callback_body].
  - unfold topic_voting_ends. loop_steps.
  - unfold countdown_ends. loop_steps. apply executeRound_ends.
  - apply endRound_ends.
  - apply checkMatchEnd_ends.
  - apply bot_answer_ends.
  - apply bot_card_ends.
Qed.

Lemma resumeMatchLoop_ends id s a roomId : ends id s (resumeMatchLoop id a roomId).
Proof.
  unfold resumeMatchLoop, resumePhaseRemaining. loop_steps.
  all: first
    [ apply endRound_ends
    | flow_same release_same; eapply flow_mono; [|apply disposeCommandStream_same]; done
    | apply flow_try_same; [apply disposeCommandStream_same|]; intros o;
      eapply flow_mono; [|apply release_same]; done ].
Qed.

Lemma timer_fires_ends nanoid id s timer : ends id s (timer_fires nanoid id timer).
Proof.
  unfold timer_fires. eapply ends_seq with (Q1 := any_end).
  - apply flow_attempt. eapply flow_mono; [|apply callback_ends]. done.
  - intros o s' _. by apply flow_done.
Qed.

(** What drives the loop of a match: a timer, the takeover, the check after an
    answer. *)
Inductive drives (nanoid : nat -> jstr) (id : jstr) : Task unit -> Prop :=
| drives_timer timer : drives nanoid id (timer_fires nanoid id timer)
| drives_resume a roomId : drives nanoid id (resumeMatchLoop id a roomId)
| drives_early roomId : drives nanoid id (checkEarlyTermination id roomId).

(** C3: the match loop renews, then writes, then speaks.  In every run of a
    timer callback, of the resumption of a loop or of the check for early
    termination, whatever the process does meanwhile and however Redis, the
    database and the question service answer: a fenced write is asked for only
    while the latest renewal of the lease in the run succeeded, and anything is
    emitted only while the latest write of the run was applied.  So a node that
    lost its lease, or whose write was refused, is silent. *)
Theorem loop_renews_writes_speaks (nanoid : nat -> jstr) (id : jstr) (p : Task unit)
    (Env : Node -> Node -> Prop) (n n' : Node) (t : Trace) (o : outcome exn unit) :
  drives nanoid id p -> runs Env p n t o n' -> lawful id (mkStatus false false) t.
Proof.
  intros Hp Hr. assert (ends id (mkStatus false false) p) as H.
  { destruct Hp; [apply timer_fires_ends|apply resumeMatchLoop_ends|apply checkEarlyTermination_ends]. }
  exact (proj1 (every_run_runs _ _ _ _ _ _ _ H Hr)).
Qed.

(** ** A round ends *)

Definition end_timer : Timer := mkTimer CbRoundEnd (js "r1") 15000.
Definition demo_nanoid (k : nat) : jstr := js_of_Z (Z.of_nat k).
Definition end_run :=
  drive serve (timer_fires demo_nanoid (js "m1") end_timer)
    (node_with (js "m1") demo_mid) (world_with (js "m1") demo_mid []).

Definition payload_kind (e : Emission) : Z :=
  match em_payload e with
  | S_ROUND_ENDED _ _ _ _ _ _ => 1
  | S_PLAYER_ELIMINATED _ _ _ _ _ => 2
  | S_MATCH_FINISHED _ _ _ _ => 3
  | _ => 0
  end.

Lemma loop_renews_writes_speaks_witness :
  exists t o n', runs eq (timer_fires demo_nanoid (js "m1") end_timer)
                   (node_with (js "m1") demo_mid) t o n'
    /\ payload_kind <$> said t = [1; 2; 2]
    /\ lawful (js "m1") (mkStatus false false) t.
Proof.
  assert (H : payload_kind <$> end_run.2 = [1; 2; 2]) by (vm_compute; reflexivity).
  destruct end_run as [[[o n'] w'] l] eqn:Hd.
  destruct (drive_runs eq serve _ _ _ _ _ _ _ Hd) as (t & Hr & <-).
  exists t, o, n'. split; [exact Hr|]. split; [exact H|].
  exact (loop_renews_writes_speaks demo_nanoid (js "m1") _ eq _ n' t o
           (drives_timer _ _ end_timer) Hr).
Defined.
