(* ===== verification/Progress.v ===== *)
(** * A match comes to its end

    The match loop under a Redis and a database that answer: each timer of a
    phase that fires brings the match to a later phase and arms the timer of
    that phase, until the end is announced.  The players may act at every await
    and between the firings, and the process may do anything else that leaves
    this match alone. *)

From stdpp Require Import gmap.
From S2P Require Import Prelude JsData Doubles Effects Shared Decimal Redis Lease Fencing.
From S2P Require Import Cards Prng CardEngine Scoring TopicVoting ClassEngine Machine MachineCards MachineOps MachineRounds.
From S2P Require Import MatchCodec Events CardCommands Async Envelopes Timers Node World Commands Ownership.
From S2P Require Import RoundRecovery Bots RoundRunner.
#[local] Open Scope Z_scope.
#[local] Open Scope prog_scope.

(** ** What the methods of the machine do to the phase *)

(** Status, round number, status of the round; the eliminated list is not
    frozen. *)
Definition phase_is (st : MatchStatus) (k : Z) (rs : option RoundStatus) (m : Machine) : Prop :=
  ms_status (m_state m) = st /\ ms_currentRoundNo (m_state m) = k
  /\ rd_status <$> m_round m = rs /\ m_elimFrozen m = false.

(** [f] returns, from any clock, and leaves [Post]. *)
Definition returns {A} (f : M exn Machine A) (m : Machine) (Post : A -> Machine -> Prop) : Prop :=
  forall c, exists a m' c', f m c = (Ok a, m', c') /\ Post a m'.

Lemma transition_phase to m st k rs :
  phase_is st k rs m -> to ∈ VALID_TRANSITIONS st ->
  returns (transition to) m (fun _ => phase_is to k (if bool_decide (to = ROUND_ACTIVE) then None else rs)).
Proof.
  intros (Hst & Hk & Hr & Hf) Hto c. unfold transition. run_simpl.
  unfold canTransition. rewrite Hst, bool_decide_eq_true_2 by done.
  destruct to; cbn [negb]; run_simpl;
    try rewrite (bool_decide_eq_true_2 (ROUND_ACTIVE = ROUND_ACTIVE)) by done;
    try rewrite (bool_decide_eq_false_2 (_ = ROUND_ACTIVE)) by done;
    eexists _, _, _; (split; [reflexivity|]); unfold phase_is; state_simpl; auto.
Qed.

Lemma resolveTopicVoting_phase b m st k rs :
  phase_is st k rs m -> returns (resolveTopicVoting b) m (fun _ => phase_is st k rs).
Proof.
  intros (Hst & Hk & Hr & Hf) c. unfold resolveTopicVoting. run_simpl.
  eexists _, _, _. split; [reflexivity|]. unfold phase_is. state_simpl. auto.
Qed.

Lemma startRound_phase q d m k rs :
  phase_is ROUND_ACTIVE k rs m ->
  returns (startRound q d) m (fun _ => phase_is ROUND_ACTIVE (k + 1) (Some RACTIVE)).
Proof.
  intros (Hst & Hk & Hr & Hf) c. unfold startRound. run_simpl.
  rewrite Hst, bool_decide_eq_true_2 by done. cbn [negb]. run_simpl.
  eexists _, _, _. split; [reflexivity|]. unfold phase_is. state_simpl. rewrite Hk. auto.
Qed.

Lemma evaluateRound_phase m st k rs :
  phase_is st k (Some rs) m -> returns evaluateRound m (fun _ => phase_is st k (Some COMPLETED)).
Proof.
  intros (Hst & Hk & Hr & Hf) c. destruct (m_round m) as [r|] eqn:E; [|done].
  rewrite (evaluateRound_run m c r E Hf). eexists _, _, _. split; [reflexivity|].
  unfold phase_is, evaluated_machine. state_simpl. rewrite E. auto.
Qed.

Lemma finishMatch_returns m : returns Machine.finishMatch m (fun _ _ => True).
Proof.
  intros c. unfold Machine.finishMatch, determineWinner, tieBreak. run;
    eexists _, _, _; (split; [reflexivity|done]).
Qed.

(** The methods of the card game leave the phase alone, thrown or not. *)
Definition same_phase (m m' : Machine) : Prop :=
  forall st k rs, phase_is st k rs m -> phase_is st k rs m'.
#[export] Instance same_phase_PreOrder : PreOrder same_phase.
Proof. split; [by intros m st k rs|]. intros m1 m2 m3 H1 H2 st k rs H. by apply H2, H1. Qed.

Lemma classAssignment_phase ids seed m c : same_phase m (run_state (classAssignment ids seed) m c).
Proof. intros st k rs H. unfold classAssignment. run; exact H. Qed.

Lemma pickOffer_phase p no seed m c : same_phase m (run_state (pickOffer p no seed) m c).
Proof. intros st k rs H. unfold pickOffer. run; exact H. Qed.

Lemma pickCard_phase p card no e1 e2 m c : same_phase m (run_state (pickCard p card no e1 e2) m c).
Proof. intros st k rs H. unfold pickCard. run; exact H. Qed.

(** ** The part of a process one match uses *)

Record Share := mkShare {
  sh_addr : nat;
  sh_machine : Machine;
  sh_entry : OwnedEntry;
  sh_timers : list Timer;
  sh_ending : bool;
  sh_finishing : bool;
}.

Definition with_machine m s := mkShare (sh_addr s) m (sh_entry s) (sh_timers s) (sh_ending s) (sh_finishing s).
Definition with_timers l s := mkShare (sh_addr s) (sh_machine s) (sh_entry s) l (sh_ending s) (sh_finishing s).
Definition with_ending b s := mkShare (sh_addr s) (sh_machine s) (sh_entry s) (sh_timers s) b (sh_finishing s).
Definition with_finishing b s := mkShare (sh_addr s) (sh_machine s) (sh_entry s) (sh_timers s) (sh_ending s) b.

Definition timers_of (id : jstr) (n : Node) : list Timer :=
  default [] (tr_activeTimers (nd_timers n) !! id).

(** The match is cached and owned; its timers and guards are those of [s], and
    its machine is in the phase of the machine of [s]. *)
Definition at_phase (id : jstr) (s : Share) (n : Node) : Prop :=
  nd_machines n !! id = Some (sh_addr s)
  /\ (sh_addr s < length (nd_heap n))%nat
  /\ same_phase (sh_machine s) (deref (sh_addr s) n)
  /\ nd_owned n !! id = Some (sh_entry s)
  /\ timers_of id n = sh_timers s
  /\ isEndingRound id (nd_timers n) = sh_ending s
  /\ isFinishing id (nd_timers n) = sh_finishing s.

(** Its machine is that of [s]. *)
Definition at_match (id : jstr) (s : Share) (n : Node) : Prop :=
  at_phase id s n /\ deref (sh_addr s) n = sh_machine s.

Lemma at_phase_lift id s n st k rs :
  at_phase id s n -> phase_is st k rs (sh_machine s) -> phase_is st k rs (deref (sh_addr s) n).
Proof. intros (_ & _ & H & _). apply H. Qed.

Lemma at_set_machine id s n m c :
  at_phase id s n ->
  at_phase id (with_machine m s) (set_heap (<[sh_addr s := m]> (nd_heap n)) (set_clock c n)).
Proof.
  intros (H1 & H2 & H3 & H4). unfold at_phase, deref. cbn. rewrite length_insert.
  split_and!; try tauto. by rewrite list_lookup_total_insert_eq.
Qed.

Lemma at_arm id s n tm :
  at_phase id s n ->
  at_phase id (with_timers (sh_timers s ++ [tm]) s) (set_timers (addTimer id tm (nd_timers n)) n).
Proof.
  intros (H1 & H2 & H3 & H4 & H5 & H6 & H7). unfold at_phase, timers_of in *. cbn.
  rewrite lookup_insert_eq. cbn. rewrite H5. auto 8.
Qed.

Section Alone.
Context (id : jstr) (Env : Node -> Node -> Prop).

(** What the database makes of the rows of a round. *)
Context (save : outcome exn unit).

(** What happens during an [await] leaves the match alone. *)
Context (Henv : forall s n n', at_phase id s n -> Env n n' -> at_phase id s n').

(** The replies looked at: the lease is renewed, a fenced write lands, the row
    of the match is finished, [save] is the fate of the rows of a round.  Any
    other request may fail or answer anything. *)
Definition obliging (X : Type) (q : Req X) : outcome exn X -> Prop :=
  match q in Req X return outcome exn X -> Prop with
  | RRedis c =>
      match c in Cmd R return outcome exn R -> Prop with
      | RenewLease id' _ => fun r => id' = id -> r = Ok true
      | FencedStateSet id' _ => fun r => id' = id -> r = Ok SetApplied
      | _ => fun _ => True
      end
  | RSaveRound _ _ _ _ => fun r => r = save
  | RFinishRow _ _ _ _ => fun r => exists x, r = Ok x
  | _ => fun _ => True
  end.

Abbreviation spec p n Q := (wp Env obliging p n Q).

(** ** Rules *)

Lemma spec_act {X B} (f : Node -> X * Node) (k : X -> Task B) n Q :
  spec (k (f n).1) (f n).2 Q -> spec (pbind (act f) k) n Q.
Proof. exact (fun H => H). Qed.

Lemma spec_say {B} x (k : unit -> Task B) n (Q : outcome exn B -> Node -> list Emission -> Prop) :
  spec (k tt) n (fun o n' l => Q o n' (x :: l)) -> spec (pbind (say x) k) n Q.
Proof. exact (fun H => H). Qed.

Lemma spec_await {X B} (q : Req X) (k : X -> Task B) s n (Q : outcome exn B -> Node -> list Emission -> Prop) :
  at_phase id s n ->
  (forall n1 r, at_phase id s n1 -> obliging X q r ->
    spec (match r with Ok x => k x | Throw e => Done (Throw e) end) n1 Q) ->
  spec (pbind (await q) k) n Q.
Proof. intros Hn H n1 r He Hr. cbn. specialize (H n1 r (Henv _ _ _ Hn He) Hr). by destruct r. Qed.

Lemma spec_try {X B} (q : Req X) (k : outcome exn X -> Task B) s n Q :
  at_phase id s n ->
  (forall n1 r, at_phase id s n1 -> obliging X q r -> spec (k r) n1 Q) ->
  spec (pbind (attempt (await q)) k) n Q.
Proof. intros Hn H n1 r He Hr. exact (H n1 r (Henv _ _ _ Hn He) Hr). Qed.

Lemma spec_assoc {A B C} (p : Task A) (k : A -> Task B) (k2 : B -> Task C) n Q :
  spec (pbind p (fun a => pbind (k a) k2)) n Q -> spec (pbind (pbind p k) k2) n Q.
Proof.
  revert n Q. induction p as [[a|e]|X f c IH|x c IH|X q c IH]; intros n Q; cbn; try done.
  - apply IH.
  - apply IH.
  - intros H n1 r He Hr. by apply IH, H.
Qed.

(** A program whose outcome, memory and silence are known. *)
Lemma spec_then {A B} (p : Task A) (k : A -> Task B) n (P : A -> Node -> Prop) Q :
  (forall Q', (forall a n', P a n' -> Q' (Ok a) n' []) -> spec p n Q') ->
  (forall a n', P a n' -> spec (k a) n' Q) ->
  spec (pbind p k) n Q.
Proof.
  intros Hp Hk. apply wp_bind, Hp. intros a n' Ha. eapply wp_mono; [|by apply Hk].
  intros o n2 l Hq. exact Hq.
Qed.

(** The same for a program that may throw. *)
Lemma spec_then_try {A B} (p : Task A) (k : outcome exn A -> Task B) n (P : Node -> Prop) Q :
  (forall Q', (forall o n', P n' -> Q' o n' []) -> spec p n Q') ->
  (forall o n', P n' -> spec (k o) n' Q) ->
  spec (pbind (attempt p) k) n Q.
Proof.
  intros Hp Hk. apply wp_bind, wp_attempt, Hp. intros o n' Ha. eapply wp_mono; [|by apply Hk].
  intros o' n2 l Hq. exact Hq.
Qed.

Lemma spec_call {A B} (f : M exn Machine A) (k : A -> Task B) s n st no rs P Q :
  at_phase id s n -> phase_is st no rs (sh_machine s) -> (forall m, phase_is st no rs m -> returns f m P) ->
  (forall x m' n', P x m' -> at_phase id (with_machine m' s) n' -> spec (k x) n' Q) ->
  spec (pbind (call_or_throw (sh_addr s) f) k) n Q.
Proof.
  intros Hn Hp Hf Hk. destruct (Hf _ (at_phase_lift _ _ _ _ _ _ Hn Hp) (nd_clock n)) as (x & m' & c' & E & HP).
  unfold call_or_throw. apply spec_assoc, spec_act. rewrite E. cbn.
  eapply Hk; [exact HP|]. by apply at_set_machine.
Qed.

Lemma spec_peek {A B} (f : Machine -> A) (k : A -> Task B) s n Q :
  at_phase id s n ->
  (forall m, (forall st no rs, phase_is st no rs (sh_machine s) -> phase_is st no rs m) -> spec (k (f m)) n Q) ->
  spec (pbind (peek (sh_addr s) f) k) n Q.
Proof. intros Hn H. apply spec_act. apply H. intros st no rs. by eapply at_phase_lift. Qed.

Lemma spec_arm {B} roomId cb d (k : unit -> Task B) s n Q :
  at_phase id s n ->
  (forall n', at_phase id (with_timers (sh_timers s ++ [mkTimer cb roomId d]) s) n' -> spec (k tt) n' Q) ->
  spec (pbind (armPhaseTimer id roomId cb d) k) n Q.
Proof. intros Hn H. apply spec_act. by apply H, at_arm. Qed.

(** ** The methods *)

Lemma at_entry s n : at_phase id s n ->
  bool_decide (oe_ref <$> nd_owned n !! id = Some (oe_ref (sh_entry s))) = true.
Proof. intros (_ & _ & _ & H & _). rewrite H. by apply bool_decide_eq_true. Qed.

Lemma assertOwnership_spec s n (Q : outcome exn bool -> Node -> list Emission -> Prop) :
  at_phase id s n -> (forall n', at_phase id s n' -> Q (Ok true) n' []) ->
  spec (assertOwnership id) n Q.
Proof.
  intros Hn HQ. unfold assertOwnership. apply spec_act. cbn [fst snd].
  assert (nd_owned n !! id = Some (sh_entry s)) as -> by apply Hn.
  unfold ASSERT_RENEW_ATTEMPTS. cbn [assert_loop]. apply spec_act. cbn [fst snd].
  rewrite (at_entry s n Hn). cbn [negb].
  apply (spec_try _ _ s n); [done|]. intros n1 r Hn1 Hr. rewrite (Hr eq_refl).
  apply spec_act. cbn [fst snd]. rewrite (at_entry s n1 Hn1). cbn. by apply HQ.
Qed.

Lemma getStateMachine_spec s n (Q : outcome exn (option nat) -> Node -> list Emission -> Prop) :
  at_phase id s n -> Q (Ok (Some (sh_addr s))) n [] -> spec (getStateMachine id) n Q.
Proof.
  intros Hn HQ. unfold getStateMachine. apply spec_act. cbn [fst snd].
  assert (nd_machines n !! id = Some (sh_addr s)) as -> by apply Hn. exact HQ.
Qed.

Lemma readPersistedRevision_spec s n (Q : outcome exn Z -> Node -> list Emission -> Prop) :
  at_phase id s n -> (forall z n', at_phase id s n' -> Q (Ok z) n' []) ->
  spec (readPersistedRevision id) n Q.
Proof.
  intros Hn HQ. unfold readPersistedRevision. apply (spec_try _ _ s n); [done|].
  intros n1 r Hn1 _. destruct r as [[[t|b]|]|e]; by apply HQ.
Qed.

Lemma persistInner_keeps s n (Q : outcome exn PersistOutcome -> Node -> list Emission -> Prop) :
  at_phase id s n -> (forall n', at_phase id s n' -> Q (Ok APPLIED) n' []) ->
  spec (persistStateMachineInner id false) n Q.
Proof.
  intros Hn HQ. unfold persistStateMachineInner. apply spec_act. cbn [fst snd].
  assert (nd_machines n !! id = Some (sh_addr s)) as -> by apply Hn. cbn [fmap option_fmap option_map].
  apply spec_act. cbn [fst snd]. unfold getOwnershipSnapshot.
  assert (nd_owned n !! id = Some (sh_entry s)) as -> by apply Hn. cbn [fmap option_fmap option_map].
  apply spec_act. cbn [fst snd].
  assert (Hw : forall z n1, at_phase id s n1 -> spec
    (outcome <- await (RRedis (FencedStateSet id
        (mkFencedSet (oe_leaseValue (sh_entry s)) (oe_fence (sh_entry s))
           (serialize (deref (sh_addr s) n)) STATE_TTL_SEC z (z + 1)))) ;;
     match outcome with
     | SetApplied =>
         writes (fun n => set_revisions (<[id := (oe_fence (sh_entry s), z + 1)]> (nd_revisions n)) n) ;;
         pret APPLIED
     | SetRetry => pret RETRY
     end) n1 Q).
  { intros z n1 Hn1. apply (spec_await _ _ s n1); [done|]. intros n2 r Hn2 Hr.
    rewrite (Hr eq_refl). by apply HQ. }
  destruct (nd_revisions n !! id) as [[fence revision]|]; [destruct (fence =? _)|].
  - by apply Hw.
  - apply (spec_then _ _ _ (fun _ n' => at_phase id s n')); [|intros z n'; apply Hw].
    intros Q' HQ'. by apply (readPersistedRevision_spec s).
  - apply (spec_then _ _ _ (fun _ n' => at_phase id s n')); [|intros z n'; apply Hw].
    intros Q' HQ'. by apply (readPersistedRevision_spec s).
Qed.

Lemma persist_keeps s n (Q : outcome exn PersistOutcome -> Node -> list Emission -> Prop) :
  at_phase id s n -> (forall n', at_phase id s n' -> Q (Ok APPLIED) n' []) ->
  spec (persistStateMachine id) n Q.
Proof.
  intros Hn HQ. unfold persistStateMachine, persistStateMachine_opts, runPersistExclusive.
  apply spec_act. cbn [fst snd fresh_ref]. apply (spec_try _ _ s); [exact Hn|].
  intros n1 r Hn1 _. apply wp_finally. apply (persistInner_keeps s); [done|].
  intros n' Hn'. by apply HQ.
Qed.

Lemma getBotPlayerIds_spec s n (Q : outcome exn (list jstr) -> Node -> list Emission -> Prop) :
  at_phase id s n -> (forall o n', at_phase id s n' -> Q o n' []) -> spec (getBotPlayerIds id) n Q.
Proof.
  intros Hn HQ. unfold getBotPlayerIds. apply spec_act. cbn [fst snd].
  destruct (nd_bots n !! id); [by apply HQ|]. apply (spec_await _ _ s n); [done|].
  intros n1 [bots|e] Hn1 _; by apply HQ.
Qed.

(** ** Rules for the methods *)

Lemma spec_own {B} (r k : Task B) s n Q :
  at_phase id s n -> (forall n', at_phase id s n' -> spec k n' Q) ->
  spec (own <- assertOwnership id ;; if negb own then r else k) n Q.
Proof.
  intros Hn Hk. apply (spec_then _ _ _ (fun b n' => b = true /\ at_phase id s n')).
  - intros Q' HQ'. apply (assertOwnership_spec s); [done|]. intros n' Hn'. by apply HQ'.
  - intros b n' [-> Hn']. by apply Hk.
Qed.

Lemma spec_load {B} (k : option nat -> Task B) s n Q :
  at_phase id s n -> spec (k (Some (sh_addr s))) n Q -> spec (pbind (getStateMachine id) k) n Q.
Proof.
  intros Hn Hk. apply (spec_then _ _ _ (fun a n' => a = Some (sh_addr s) /\ n' = n)).
  - intros Q' HQ'. apply (getStateMachine_spec s); [done|]. by apply HQ'.
  - by intros a n' [-> ->].
Qed.

Lemma spec_saved {B} (k : PersistOutcome -> Task B) s n Q :
  at_phase id s n -> (forall n', at_phase id s n' -> spec (k APPLIED) n' Q) ->
  spec (pbind (persistStateMachine id) k) n Q.
Proof.
  intros Hn Hk. apply (spec_then _ _ _ (fun o n' => o = APPLIED /\ at_phase id s n')).
  - intros Q' HQ'. apply (persist_keeps s); [done|]. intros n' Hn'. by apply HQ'.
  - intros o n' [-> Hn']. by apply Hk.
Qed.

Lemma spec_say_all {B} l (k : unit -> Task B) n (Q : outcome exn B -> Node -> list Emission -> Prop) :
  spec (k tt) n (fun o n' l' => Q o n' (l ++ l')) -> spec (pbind (for_each l say) k) n Q.
Proof.
  revert Q. induction l as [|x l IH]; intros Q H; [exact H|].
  cbn [for_each]. apply spec_assoc, spec_say, IH. exact H.
Qed.

(** ** What leaves the phase alone *)

(** The machine may change within its phase, timers may be added. *)
Definition ext (s s' : Share) : Prop :=
  sh_addr s' = sh_addr s /\ sh_entry s' = sh_entry s /\ sh_ending s' = sh_ending s
  /\ sh_finishing s' = sh_finishing s /\ (exists l, sh_timers s' = sh_timers s ++ l)
  /\ same_phase (sh_machine s) (sh_machine s').

Lemma ext_refl s : ext s s.
Proof. split_and!; try done. exists []. by rewrite app_nil_r. Qed.

Lemma ext_trans s1 s2 s3 : ext s1 s2 -> ext s2 s3 -> ext s1 s3.
Proof.
  intros (?&?&?&?&[l1 E1]&Hp1) (?&?&?&?&[l2 E2]&Hp2). split_and!; try congruence.
  - exists (l1 ++ l2). by rewrite E2, E1, app_assoc.
  - by etransitivity.
Qed.

Definition kept (s : Share) {A} : outcome exn A -> Node -> list Emission -> Prop :=
  fun _ n' _ => exists s', ext s s' /\ at_phase id s' n'.

Definition keeps {A} (p : Task A) : Prop := forall s n, at_phase id s n -> spec p n (kept s).

Lemma keeps_done {A} (o : outcome exn A) : keeps (Done o).
Proof. intros s n Hn. exists s. split; [apply ext_refl|done]. Qed.

Lemma keeps_bind {A B} (p : Task A) (k : A -> Task B) :
  keeps p -> (forall a, keeps (k a)) -> keeps (pbind p k).
Proof.
  intros Hp Hk s n Hn. apply wp_bind. eapply wp_mono; [|by apply Hp].
  intros [a|e] n' l (s' & He & Hn').
  - eapply wp_mono; [|by apply Hk]. intros o n2 l2 (s2 & He2 & Hn2).
    exists s2. split; [by eapply ext_trans|done].
  - by exists s'.
Qed.

Lemma keeps_attempt {A} (p : Task A) : keeps p -> keeps (attempt p).
Proof. intros Hp s n Hn. apply wp_attempt. eapply wp_mono; [|by apply Hp]. done. Qed.

Lemma keeps_reads {A} (f : Node -> A) : keeps (reads f).
Proof. intros s n Hn. exists s. split; [apply ext_refl|done]. Qed.

Lemma keeps_say x : keeps (say x).
Proof. intros s n Hn. exists s. split; [apply ext_refl|done]. Qed.

Lemma keeps_await {X} (q : Req X) : keeps (await q).
Proof. intros s n Hn n1 r He Hr. exists s. split; [apply ext_refl|by eapply Henv]. Qed.

(** A write to a part of the memory the match does not use. *)
Lemma keeps_act {X} (f : Node -> X * Node) :
  (forall s n, at_phase id s n -> at_phase id s (f n).2) -> keeps (act f).
Proof. intros Hf s n Hn. exists s. split; [apply ext_refl|by apply Hf]. Qed.

Lemma keeps_arm roomId cb d : keeps (armPhaseTimer id roomId cb d).
Proof.
  intros s n Hn. exists (with_timers (sh_timers s ++ [mkTimer cb roomId d]) s).
  split; [|by apply at_arm]. split_and!; try done. by eexists.
Qed.

Lemma keeps_call {A} a (f : M exn Machine A) :
  (forall m c, same_phase m (run_state f m c)) -> keeps (call a f).
Proof.
  intros Hf s n Hn. unfold call, act. cbn.
  destruct (f (deref a n) (nd_clock n)) as [[o m'] c'] eqn:E. cbn.
  assert (Hm : m' = run_state f (deref a n) (nd_clock n)) by (unfold run_state; by rewrite E).
  destruct (decide (a = sh_addr s)) as [->|Hne].
  - exists (with_machine m' s). split; [|by apply at_set_machine].
    split_and!; try done; [exists []; by rewrite app_nil_r|]. cbn.
    rewrite Hm. etransitivity; [apply Hn|apply Hf].
  - exists s. split; [apply ext_refl|]. destruct Hn as (H1 & H2 & H3 & H4).
    unfold at_phase, deref in *. cbn. rewrite length_insert.
    split_and!; try tauto. by rewrite list_lookup_total_insert_ne.
Qed.

Lemma keeps_call_or_throw {A} a (f : M exn Machine A) :
  (forall m c, same_phase m (run_state f m c)) -> keeps (call_or_throw a f).
Proof. intros Hf. apply keeps_bind; [by apply keeps_call|]. intros o. apply keeps_done. Qed.

Lemma keeps_own {B} (r : B) (k : Task B) :
  keeps k -> keeps (own <- assertOwnership id ;; if negb own then pret r else k).
Proof. intros Hk s n Hn. apply (spec_own _ _ s); [done|]. by apply Hk. Qed.

Lemma keeps_saved {B} (k : PersistOutcome -> Task B) :
  keeps (k APPLIED) -> keeps (pbind (persistStateMachine id) k).
Proof. intros Hk s n Hn. apply (spec_saved _ s); [done|]. by apply Hk. Qed.

Lemma keeps_bots : keeps (getBotPlayerIds id).
Proof.
  intros s n Hn. apply (getBotPlayerIds_spec s); [done|]. intros o n' Hn'.
  exists s. split; [apply ext_refl|done].
Qed.

Lemma keeps_for_each {A} (l : list A) body : (forall x, keeps (body x)) -> keeps (for_each l body).
Proof.
  intros H. induction l as [|x l IH]; [apply keeps_done|]. cbn. by apply keeps_bind.
Qed.

Ltac landed := change (negb (applied APPLIED)) with false; cbv iota.

Ltac keep :=
  repeat match goal with
  | |- context [negb (applied APPLIED)] => landed
  | |- keeps (pret _) => apply keeps_done
  | |- keeps (Done _) => apply keeps_done
  | |- keeps (raise _) => apply keeps_done
  | |- keeps (say _) => apply keeps_say
  | |- keeps (reads _) => apply keeps_reads
  | |- keeps (peek _ _) => apply keeps_reads
  | |- keeps (await _) => apply keeps_await
  | |- keeps (attempt _) => apply keeps_attempt
  | |- keeps (getBotPlayerIds id) => apply keeps_bots
  | |- keeps (armPhaseTimer id _ _ _) => apply keeps_arm
  | |- keeps now => apply keeps_act; intros ? ? ?; assumption
  | |- keeps (random_below _) => apply keeps_act; intros ? ? ?; assumption
  | |- keeps (act _) => apply keeps_act; intros ? ? ?; assumption
  | |- keeps (for_each _ _) => apply keeps_for_each; intros ?
  | |- keeps (call_or_throw _ _) => apply keeps_call_or_throw; intros ? ?
  | |- keeps (call _ _) => apply keeps_call; intros ? ?
  | |- keeps (pbind (assertOwnership id) _) => apply keeps_own
  | |- keeps (pbind (persistStateMachine id) _) => apply keeps_saved
  | |- keeps (pbind _ _) => apply keeps_bind; [|intros ?]
  | |- keeps (match ?x with _ => _ end) => destruct x
  | |- same_phase _ (run_state (pickOffer _ _ _) _ _) => apply pickOffer_phase
  | |- same_phase _ (run_state (pickCard _ _ _ _ _) _ _) => apply pickCard_phase
  | |- same_phase _ (run_state (classAssignment _ _) _ _) => apply classAssignment_phase
  end.

Lemma keeps_simulate nanoid question ids : keeps (simulateBotAnswers nanoid question ids).
Proof.
  unfold simulateBotAnswers. keep. generalize (filter (fun opt => opt <> z :: l) (qi_options question)).
  intros wrong. induction ids as [|i ids IH]; cbn [simulate_all]; unfold simulate_one, random_between; keep.
  exact IH.
Qed.

Lemma keeps_schedule nanoid roomId a question seqNos :
  keeps (scheduleBotAnswers nanoid id roomId a question seqNos).
Proof.
  unfold scheduleBotAnswers, scheduleBotCardPlays, schedule_bot_card, random_between. keep;
    apply keeps_simulate.
Qed.

Lemma keeps_offers a roundNo botIds ids : keeps (offer_all id a roundNo botIds ids).
Proof.
  induction ids as [|i ids IH]; cbn [offer_all]; unfold offer_one, bot_pick; keep; exact IH.
Qed.

Lemma keeps_milestone roomId a roundNo : keeps (triggerMilestoneCardOffers id roomId a roundNo).
Proof. unfold triggerMilestoneCardOffers. keep; apply keeps_offers. Qed.

(** ** The end is announced *)

Definition announced (l : list Emission) : Prop :=
  exists e winner rounds players, e ∈ l /\ em_payload e = S_MATCH_FINISHED id winner rounds players.

Lemma announced_app l1 l2 : announced l2 -> announced (l1 ++ l2).
Proof. intros (e & w & k & ps & Hin & E). exists e, w, k, ps. split; [set_solver|done]. Qed.

Lemma spec_true {A} (p : Task A) n (Q : outcome exn A -> Node -> list Emission -> Prop) :
  (forall o n' l, Q o n' l) -> spec p n Q.
Proof.
  revert n Q. induction p as [o|X f k IH|x k IH|X q k IH]; intros n Q HQ; cbn; auto.
Qed.

Lemma spec_snapshot {B} s n (k : outcome exn unit -> Task B) Q :
  at_phase id s n -> (forall o n', at_phase id s n' -> spec (k o) n' Q) ->
  spec (pbind (attempt
    (snapshot <- reads (getOwnershipSnapshot id) ;;
     match snapshot with
     | Some lease => redis (FencedStateDelete id (le_value lease) (le_fence lease)) ;; pret tt
     | None => redis (DelState id) ;; redis (DelRevision id)
     end)) k) n Q.
Proof.
  intros Hn Hk. apply (spec_then_try _ _ _ (at_phase id s)); [|exact Hk].
  intros Q' HQ'. apply spec_act. cbn [fst snd]. destruct (getOwnershipSnapshot id n) as [lease|].
  - apply (spec_await _ _ s); [done|]. intros n1 [b|e] Hn1 _; by apply HQ'.
  - apply (spec_await _ _ s); [done|]. intros n1 [b|e] Hn1 _; [|by apply HQ'].
    intros n2 r He _. apply HQ'. by eapply Henv.
Qed.

Lemma finishMatch_spec {B} s n winnerId roomId (k : option (option jstr) -> Task B) Q :
  at_phase id s n -> (forall row n', spec (k row) n' Q) ->
  spec (pbind (RoundRunner.finishMatch id winnerId roomId false) k) n Q.
Proof.
  intros Hn Hk. unfold RoundRunner.finishMatch, finishMatch_load. apply spec_assoc.
  apply spec_assoc, spec_act. cbn [fst snd].
  assert (nd_machines n !! id = Some (sh_addr s)) as -> by apply Hn. cbn [pbind pret machine_of].
  apply spec_assoc, spec_act. cbn [fst snd pbind pret].
  apply spec_assoc, (spec_await _ _ s); [done|]. intros n1 r Hn1 [[claimed row] ->]. cbn [fst snd].
  destruct claimed; cbn [negb]; [|apply Hk].
  apply spec_assoc, (spec_try _ _ s); [done|]. intros n2 r Hn2 _.
  apply spec_assoc, (spec_snapshot s); [done|]. intros o n3 Hn3.
  apply spec_assoc, (spec_try _ _ s); [done|]. intros n4 r' Hn4 _.
  apply spec_assoc, spec_act. apply Hk.
Qed.

Lemma at_begin_finish s n p :
  at_phase id s n ->
  at_phase id (with_finishing true s)
    (set_timers (registerFinishPromise id p (set_finishing ({[id]} ∪ tr_finishingMatches (nd_timers n))
       (tr_finishingPromises (nd_timers n)) (nd_timers n))) (set_refs (S p) (set_timers
       (set_finishing ({[id]} ∪ tr_finishingMatches (nd_timers n))
       (tr_finishingPromises (nd_timers n)) (nd_timers n)) n))).
Proof.
  intros (H1 & H2 & H3 & H4 & H5 & H6 & H7). unfold at_phase, timers_of, isFinishing, isEndingRound in *.
  cbn. split_and!; try done. apply bool_decide_eq_true. set_solver.
Qed.

Lemma finishInner_spec s n roomId st k rs (Q : outcome exn unit -> Node -> list Emission -> Prop) :
  at_phase id s n -> phase_is st k rs (sh_machine s) -> FINISHED ∈ VALID_TRANSITIONS st ->
  (forall o n' l, announced l -> Q o n' l) ->
  spec (finishMatchLoopInner id roomId) n Q.
Proof.
  intros Hn Hp Hv HQ. unfold finishMatchLoopInner. apply (spec_own _ _ s); [done|]. intros n1 Hn1.
  apply (spec_load _ s); [done|].
  apply (spec_call _ _ s _ _ _ _ _ _ Hn1 Hp (fun m H => transition_phase FINISHED m _ _ _ H Hv)). intros _ m2 n2 Hp2 Hn2.
  apply (spec_call _ _ (with_machine m2 s) _ _ _ _ _ _ Hn2 Hp2 (fun m _ => finishMatch_returns m)). intros _ m3 n3 _ Hn3.
  apply (spec_peek _ _ (with_machine m3 s)); [done|]. intros m4 _.
  apply (spec_saved _ (with_machine m3 s)); [done|]. intros n4 Hn4. landed.
  apply (finishMatch_spec (with_machine m3 s)); [done|]. intros row n5.
  apply spec_say, spec_true. intros o n' l. apply HQ.
  eexists _, _, _, _. split; [left|reflexivity].
Qed.

Lemma finishMatchLoop_spec s n roomId st k rs (Q : outcome exn unit -> Node -> list Emission -> Prop) :
  at_phase id s n -> sh_finishing s = false ->
  phase_is st k rs (sh_machine s) -> FINISHED ∈ VALID_TRANSITIONS st ->
  (forall o n' l, announced l -> Q o n' l) ->
  spec (finishMatchLoop id roomId) n Q.
Proof.
  intros Hn Hf Hp Hv HQ. unfold finishMatchLoop. apply spec_act. unfold beginFinish.
  assert (isFinishing id (nd_timers n) = false) as Hfin by (rewrite <- Hf; apply Hn).
  unfold isFinishing in Hfin. rewrite Hfin. cbn [fst snd negb].
  apply spec_act. cbn [fst snd fresh_ref]. apply spec_act. cbn [fst snd].
  apply wp_finally. eapply (finishInner_spec (with_finishing true s)); [|exact Hp|exact Hv|auto].
  exact (at_begin_finish s n (nd_refs n) Hn).
Qed.

(** ** Moving on *)

Definition rank (m : Machine) : nat :=
  Z.to_nat (2 * (GAME_CONFIG.MAX_ROUNDS - ms_currentRoundNo (m_state m)))
  + match ms_status (m_state m) with
    | TOPIC_VOTING => 4 | COUNTDOWN => 3 | ROUND_ACTIVE => 2 | ROUND_RESULT => 1 | _ => 0
    end.

(** The match waits for the timer of its phase. *)
Definition playable (m : Machine) : Prop :=
  exists st k rs, phase_is st k rs m /\ is_Some (resume_phase st)
    /\ (st = ROUND_ACTIVE -> rs = Some RACTIVE).

(** The callback of the phase a machine is in. *)
Definition phase_callback (m : Machine) : option Callback := fst <$> resume_phase (ms_status (m_state m)).

(** Later in the match, waiting again, its timer among those armed since. *)
Definition advanced (s s' : Share) : Prop :=
  sh_ending s' = false /\ sh_finishing s' = false /\ playable (sh_machine s')
  /\ (rank (sh_machine s') < rank (sh_machine s))%nat
  /\ exists tm, tm ∈ drop (length (sh_timers s)) (sh_timers s')
       /\ phase_callback (sh_machine s') = Some (tm_callback tm).

Definition moved_on (s : Share) {A} : outcome exn A -> Node -> list Emission -> Prop :=
  fun _ n' l => announced l \/ exists s', at_phase id s' n' /\ advanced s s'.

Lemma moved_on_app {A} s (o : outcome exn A) n l1 l2 : moved_on s o n l2 -> moved_on s o n (l1 ++ l2).
Proof. intros [H|H]; [left; by apply announced_app|by right]. Qed.

Lemma spec_say_on {A} s x (k : unit -> Task A) n :
  spec (k tt) n (moved_on s (A := A)) -> spec (pbind (say x) k) n (moved_on s (A := A)).
Proof.
  intros H. apply spec_say. eapply wp_mono; [|exact H]. intros o n' l. apply (moved_on_app s o n' [x]).
Qed.

Lemma spec_say_all_on {A} s l (k : unit -> Task A) n :
  spec (k tt) n (moved_on s) -> spec (pbind (for_each l say) k) n (moved_on s).
Proof.
  intros H. apply spec_say_all. eapply wp_mono; [|exact H]. intros o n' l'. apply moved_on_app.
Qed.

(** Where a phase method ends up. *)
Lemma advance s s' st k rs cb roomId d :
  phase_is st k rs (sh_machine s') -> (st = ROUND_ACTIVE -> rs = Some RACTIVE) ->
  (fst <$> resume_phase st) = Some cb ->
  sh_timers s' = sh_timers s ++ [mkTimer cb roomId d] ->
  sh_ending s' = false -> sh_finishing s' = false ->
  (rank (sh_machine s') < rank (sh_machine s))%nat ->
  advanced s s'.
Proof.
  intros Hp Hr Hcb Ht He Hf Hrank. split_and!; try done.
  - exists st, k, rs. split_and!; [done| |done]. by destruct (resume_phase st).
  - exists (mkTimer cb roomId d). rewrite Ht, drop_app_length. split; [by left|].
    unfold phase_callback. destruct Hp as (-> & _). exact Hcb.
Qed.

(** A later change within the phase does not matter. *)
Lemma advanced_ext s s1 s2 : advanced s s1 -> (length (sh_timers s) <= length (sh_timers s1))%nat ->
  ext s1 s2 -> advanced s s2.
Proof.
  intros (He & Hf & (st & k & rs & Hp & Hst & Hr) & Hrank & tm & Htm & Hcb) Hlen
    (_ & _ & Hee & Hff & [l Hl] & Hphase).
  pose proof (Hphase _ _ _ Hp) as Hp2. split_and!; try congruence.
  - by exists st, k, rs.
  - revert Hrank. unfold rank. destruct Hp as (-> & -> & _), Hp2 as (-> & -> & _). done.
  - exists tm. split.
    + rewrite Hl, drop_app_le by done. apply elem_of_app. by left.
    + rewrite <- Hcb. unfold phase_callback. destruct Hp as (-> & _), Hp2 as (-> & _). done.
Qed.

Lemma keeps_moved {A} s s1 n (p : Task A) :
  keeps p -> at_phase id s1 n -> advanced s s1 ->
  (length (sh_timers s) <= length (sh_timers s1))%nat -> spec p n (moved_on s).
Proof.
  intros Hp Hn Ha Hl. eapply wp_mono; [|by apply Hp]. intros o n' l (s' & He & Hn').
  right. exists s'. split; [done|by eapply advanced_ext].
Qed.

(** ** The phases *)

Lemma round_there m st k rs : phase_is st k (Some rs) m -> exists r, m_round m = Some r /\ rd_status r = rs.
Proof. intros (_ & _ & H & _). destruct (m_round m) as [r|]; [|done]. exists r. split; [done|]. by injection H. Qed.

Lemma executeRound_on nanoid roomId s n st k rs :
  at_phase id s n -> sh_ending s = false -> sh_finishing s = false ->
  phase_is st k rs (sh_machine s) -> ROUND_ACTIVE ∈ VALID_TRANSITIONS st ->
  st = COUNTDOWN \/ k < GAME_CONFIG.MAX_ROUNDS ->
  spec (executeRound nanoid id roomId) n (moved_on s).
Proof.
  intros Hn He Hf Hp Hv Hk. unfold executeRound. apply (spec_own _ _ s); [done|]. intros n1 Hn1.
  apply (spec_load _ s); [done|].
  apply (spec_call _ _ s _ _ _ _ _ _ Hn1 Hp (fun m H => transition_phase ROUND_ACTIVE m _ _ _ H Hv)).
  intros _ m2 n2 Hp2 Hn2. rewrite bool_decide_eq_true_2 in Hp2 by done.
  apply spec_act. cbn [fst snd]. apply (spec_peek _ _ (with_machine m2 s)); [done|]. intros m3 _.
  apply (spec_try _ _ (with_machine m2 s)); [done|]. intros n3 [question|e] Hn3 _.
  2:{ eapply (finishMatchLoop_spec (with_machine m2 s)); [done|done|exact Hp2|by right; left|].
      intros o n' l Hl. by left. }
  apply spec_act. cbn [fst snd].
  eapply (spec_call _ _ (with_machine m2 s)); [exact Hn3|exact Hp2|exact (fun m H => startRound_phase question None m _ _ H)|].
  intros r4 m4 n4 Hp4 Hn4. cbn [with_machine sh_addr sh_machine] in *.
  apply (spec_saved _ (with_machine m4 s)); [exact Hn4|]. intros n5 Hn5. landed.
  apply (spec_peek _ _ (with_machine m4 s)); [done|]. intros m5 _. apply spec_act. cbn [fst snd].
  apply (spec_peek _ _ (with_machine m4 s)); [exact Hn5|]. intros m6 Hm6.
  destruct (round_there _ _ _ _ (Hm6 _ _ _ Hp4)) as (r & Hr & _). unfold getCurrentRound. rewrite Hr.
  apply spec_say_on, (spec_arm _ _ _ _ (with_machine m4 s)); [exact Hn5|]. intros n6 Hn6.
  cbn [with_machine with_timers sh_addr sh_machine sh_timers sh_entry sh_ending sh_finishing] in *.
  eapply keeps_moved; [|exact Hn6| |].
  - destruct (isMilestoneRound _); (apply keeps_bind; [|intros seqNos; apply keeps_schedule]).
    + apply keeps_milestone.
    + apply keeps_done.
  - eapply (advance _ _ ROUND_ACTIVE (k + 1) (Some RACTIVE)); try done.
    unfold rank. cbn [with_timers with_machine sh_machine]. destruct Hp4 as (-> & -> & _), Hp as (-> & -> & _).
    assert (st = COUNTDOWN \/ st = ROUND_RESULT) as Hst.
    { destruct st; cbn in Hv; rewrite ?elem_of_cons, ?elem_of_nil in Hv; naive_solver. }
    unfold GAME_CONFIG.MAX_ROUNDS in *. destruct Hst as [->| ->]; [lia|]. destruct Hk; [done|]. lia.
  - cbn. rewrite length_app. lia.
Qed.

Lemma checkMatchEnd_on nanoid roomId s n k rs :
  at_phase id s n -> sh_ending s = false -> sh_finishing s = false ->
  phase_is ROUND_RESULT k rs (sh_machine s) ->
  spec (checkMatchEnd nanoid id roomId) n (moved_on s).
Proof.
  intros Hn He Hf Hp. unfold checkMatchEnd. apply (spec_own _ _ s); [done|]. intros n1 Hn1.
  apply (spec_load _ s); [done|]. apply (spec_peek _ _ s); [done|]. intros m0 Hm0.
  destruct (shouldEndMatch _ _) eqn:Hend.
  - eapply (finishMatchLoop_spec s); [done|done|exact Hp|by right; left|].
    intros o n' l Hl. by left.
  - apply (executeRound_on _ _ _ _ ROUND_RESULT k rs); try done; [by left|]. right.
    unfold shouldEndMatch in Hend. destruct (Hm0 _ _ _ Hp) as (_ & Hk & _). rewrite Hk in Hend.
    destruct (_ <=? 1); [done|]. bool_to_prop. lia.
Qed.

Lemma at_begin_end s n :
  at_phase id s n ->
  at_phase id (with_ending true s)
    (set_timers (set_ending ({[id]} ∪ tr_endingRounds (nd_timers n)) (nd_timers n)) n).
Proof.
  intros (H1 & H2 & H3 & H4 & H5 & H6 & H7). unfold at_phase, timers_of, isFinishing, isEndingRound in *.
  cbn. split_and!; try done. apply bool_decide_eq_true. set_solver.
Qed.

Lemma at_end_end s n :
  at_phase id s n ->
  at_phase id (with_ending false s) (set_timers (endEndRound id (nd_timers n)) n).
Proof.
  intros (H1 & H2 & H3 & H4 & H5 & H6 & H7). unfold at_phase, timers_of, isFinishing, isEndingRound in *.
  cbn. split_and!; try done. apply bool_decide_eq_false. set_solver.
Qed.

(** The end of a round up to the release of its guard. *)
Lemma conclude_on roomId s n k ctx state (Q : outcome exn unit -> Node -> list Emission -> Prop) :
  save = Ok tt ->
  at_phase id s n -> phase_is ROUND_EVALUATING k (Some COMPLETED) (sh_machine s) ->
  (forall n' m' l, phase_is ROUND_RESULT k (Some COMPLETED) m' ->
     at_phase id (with_timers (sh_timers s ++ [mkTimer CbMatchEnd roomId GAME_CONFIG.RESULT_DISPLAY_MS])
                    (with_machine m' s)) n' -> Q (Ok tt) n' l) ->
  spec (concludeRound id roomId (sh_addr s) state ctx) n Q.
Proof.
  intros Hsave Hn Hp HQ. unfold concludeRound. apply (spec_peek _ _ s); [done|]. intros m0 Hm0. unfold getCurrentRound.
  destruct (round_there _ _ _ _ (Hm0 _ _ _ Hp)) as (r & Hr & _). rewrite Hr.
  apply (spec_await _ _ s); [done|]. intros n1 r1 Hn1 ->.
  rewrite Hsave. apply (spec_saved _ s); [done|]. intros n2 Hn2. landed.
  assert (Hv : ROUND_RESULT ∈ VALID_TRANSITIONS ROUND_EVALUATING) by left.
  apply (spec_call _ _ s _ _ _ _ _ _ Hn2 Hp (fun m H => transition_phase ROUND_RESULT m _ _ _ H Hv)).
  intros _ m3 n3 Hp3 Hn3. rewrite bool_decide_eq_false_2 in Hp3 by done.
  apply (spec_saved _ (with_machine m3 s)); [done|]. intros n4 Hn4. landed.
  apply spec_say, (spec_peek _ _ (with_machine m3 s)); [done|]. intros m5 _. apply spec_say_all.
  apply (at_arm id _ _ (mkTimer CbMatchEnd roomId GAME_CONFIG.RESULT_DISPLAY_MS)) in Hn4.
  by eapply HQ.
Qed.

(** The end of a round up to the saved verdict; what follows is under the guard. *)
Lemma endRound_spec roomId s n k (Q : outcome exn unit -> Node -> list Emission -> Prop) :
  at_phase id s n -> sh_ending s = false -> phase_is ROUND_ACTIVE k (Some RACTIVE) (sh_machine s) ->
  (forall m' n' ctx state, phase_is ROUND_EVALUATING k (Some COMPLETED) m' ->
     at_phase id (with_machine m' (with_ending true s)) n' ->
     spec (concludeRound id roomId (sh_addr s) state ctx) n'
       (fun o n2 l => Q o (set_timers (endEndRound id (nd_timers n2)) n2) l)) ->
  spec (endRound id roomId) n Q.
Proof.
  intros Hn He Hp HQ. unfold endRound. apply (spec_own _ _ s); [done|]. intros n1 Hn1.
  apply spec_act. unfold beginEndRound.
  assert (isEndingRound id (nd_timers n1) = false) as Hend by (rewrite <- He; apply Hn1).
  unfold isEndingRound in Hend. rewrite Hend. cbn [fst snd negb].
  apply at_begin_end in Hn1. revert Hn1. generalize (set_timers (set_ending
    ({[id]} ∪ tr_endingRounds (nd_timers n1)) (nd_timers n1)) n1). clear n n1 Hn Hend. intros n Hn.
  apply wp_finally. unfold endRound_guarded. apply (spec_load _ (with_ending true s)); [done|].
  apply (spec_peek _ _ (with_ending true s)); [done|]. intros m0 Hm0.
  apply (spec_peek _ _ (with_ending true s)); [done|]. intros m1 Hm1. cbn [with_ending sh_machine sh_addr] in *.
  unfold getCurrentRound, getState. destruct (Hm0 _ _ _ Hp) as (Hst & _).
  destruct (round_there _ _ _ _ (Hm1 _ _ _ Hp)) as (r & Hround & Hr). rewrite Hround, Hst, bool_decide_eq_true_2 by done. cbn [negb].
  unfold handleActiveRoundEnd. apply spec_assoc.
  assert (Hv : ROUND_EVALUATING ∈ VALID_TRANSITIONS ROUND_ACTIVE) by left.
  apply (spec_call _ _ (with_ending true s) _ _ _ _ _ _ Hn Hp (fun m H => transition_phase ROUND_EVALUATING m _ _ _ H Hv)).
  intros _ m2 n2 Hp2 Hn2. rewrite bool_decide_eq_false_2 in Hp2 by done.
  apply spec_assoc.
  apply (spec_call _ _ (with_machine m2 (with_ending true s)) _ _ _ _ _ _ Hn2 Hp2 (fun m H => evaluateRound_phase m _ _ _ H)).
  intros ev m3 n3 Hp3 Hn3. apply spec_assoc.
  apply (spec_saved _ (with_machine m3 (with_ending true s))); [exact Hn3|]. intros n4 Hn4. landed.
  cbn [pbind pret conclude_if]. by apply (HQ m3).
Qed.

Lemma endRound_on roomId s n k :
  save = Ok tt ->
  at_phase id s n -> sh_ending s = false -> sh_finishing s = false ->
  phase_is ROUND_ACTIVE k (Some RACTIVE) (sh_machine s) ->
  spec (endRound id roomId) n (moved_on s).
Proof.
  intros Hsave Hn He Hf Hp. apply (endRound_spec _ s n k); [done..|]. intros m4 n4 ctx state Hp4 Hn4.
  apply (conclude_on roomId (with_machine m4 (with_ending true s)) n4 k); [done|done|exact Hp4|].
  intros n5 m5 l Hp5 Hn5. right. eexists. split; [apply at_end_end, Hn5|].
  eapply (advance _ _ ROUND_RESULT k); [exact Hp5|done|done|done|done|done|].
  unfold rank. cbn [with_timers with_ending with_machine sh_machine].
  destruct Hp5 as (-> & -> & _), Hp as (-> & -> & _). lia.
Qed.

(** When the rows of the round cannot be written, the callback is over. *)
Lemma endRound_unsaved roomId s n k e :
  save = Throw e ->
  at_phase id s n -> sh_ending s = false ->
  phase_is ROUND_ACTIVE k (Some RACTIVE) (sh_machine s) ->
  spec (endRound id roomId) n (fun o n' l => l = [] /\ exists m',
    phase_is ROUND_EVALUATING k (Some COMPLETED) m'
    /\ at_phase id (with_ending false (with_machine m' s)) n').
Proof.
  intros Hsave Hn He Hp. apply (endRound_spec _ s n k); [done..|]. intros m4 n4 ctx state Hp4 Hn4.
  unfold concludeRound. apply (spec_peek _ _ (with_machine m4 (with_ending true s))); [done|]. intros m0 _.
  unfold getCurrentRound. destruct (m_round m0) as [r|] eqn:Hr.
  - apply (spec_await _ _ (with_machine m4 (with_ending true s))); [done|].
    intros n5 r5 Hn5 ->. rewrite Hsave. split; [done|]. exists m4. split; [done|].
    exact (at_end_end _ _ Hn5).
  - split; [done|]. exists m4. split; [done|]. exact (at_end_end _ _ Hn4).
Qed.

Lemma topicVoting_on roomId s n k rs :
  at_phase id s n -> sh_ending s = false -> sh_finishing s = false ->
  phase_is TOPIC_VOTING k rs (sh_machine s) ->
  spec (topic_voting_ends id roomId) n (moved_on s).
Proof.
  intros Hn He Hf Hp. unfold topic_voting_ends. apply (spec_own _ _ s); [done|]. intros n1 Hn1.
  apply (spec_load _ s); [done|]. apply (spec_peek _ _ s); [done|]. intros m0 Hm0. unfold getState.
  rewrite (proj1 (Hm0 _ _ _ Hp)), bool_decide_eq_true_2 by done. cbn [negb].
  apply (spec_peek _ _ s); [done|]. intros m1 _.
  apply (spec_call _ _ s _ _ _ _ _ _ Hn1 Hp (fun m H => resolveTopicVoting_phase None m _ _ _ H)). intros result m2 n2 Hp2 Hn2.
  assert (Hv : COUNTDOWN ∈ VALID_TRANSITIONS TOPIC_VOTING) by left.
  apply (spec_call _ _ (with_machine m2 s) _ _ _ _ _ _ Hn2 Hp2 (fun m H => transition_phase COUNTDOWN m _ _ _ H Hv)).
  intros _ m3 n3 Hp3 Hn3. rewrite bool_decide_eq_false_2 in Hp3 by done.
  apply (spec_saved _ (with_machine m3 s)); [exact Hn3|]. intros n4 Hn4. landed.
  apply spec_say_on, spec_say_on. right. eexists. split; [apply at_arm, Hn4|].
  eapply (advance _ _ COUNTDOWN k); [exact Hp3|done|done|done|done|done|].
  unfold rank. cbn [with_timers with_machine sh_machine].
  destruct Hp3 as (-> & -> & _), Hp as (-> & -> & _). lia.
Qed.

(** The timer of the phase fires. *)
Lemma phase_timer_on nanoid s n tm :
  save = Ok tt -> at_phase id s n -> sh_ending s = false -> sh_finishing s = false -> playable (sh_machine s) ->
  phase_callback (sh_machine s) = Some (tm_callback tm) ->
  spec (timer_fires nanoid id tm) n (moved_on s).
Proof.
  intros Hsave Hn He Hf (st & k & rs & Hp & Hst & Hr) Hcb. unfold phase_callback in Hcb.
  rewrite (proj1 Hp) in Hcb.
  assert (H : spec (callback_body nanoid id (tm_roomId tm) (tm_callback tm)) n (moved_on s)).
  { destruct st; cbn in Hcb; try discriminate; injection Hcb as <-; cbn [callback_body].
    - by eapply topicVoting_on.
    - unfold countdown_ends. apply (spec_load _ s); [done|].
      apply (executeRound_on _ _ _ _ COUNTDOWN k rs); try done; by left.
    - rewrite Hr in Hp by done. by eapply endRound_on.
    - by eapply checkMatchEnd_on. }
  unfold timer_fires. apply wp_bind, wp_attempt. eapply wp_mono; [|exact H].
  intros o n' l Ho. cbn. by rewrite app_nil_r.
Qed.

(** ** To the end *)

(** One firing of a timer, with obliging replies: what it emits, where it
    leads. *)
Definition fires (nanoid : nat -> jstr) (n : Node) (tm : Timer) (l : list Emission) (n' : Node) : Prop :=
  exists t o, runs Env (timer_fires nanoid id tm) n t o n' /\ obliged obliging t /\ said t = l.

(** After at most [k] firings the end is announced: the timer can fire, and
    whatever the firing does, it announces the end, or it has armed a timer
    that is again on the way to the end, after whatever happens meanwhile. *)
Fixpoint ends_within (nanoid : nat -> jstr) (k : nat) (n : Node) (tm : Timer) : Prop :=
  match k with
  | O => False
  | S k' =>
      (exists l n', fires nanoid n tm l n')
      /\ forall l n', fires nanoid n tm l n' ->
           announced l
           \/ exists tm', tm' ∈ drop (length (timers_of id n)) (timers_of id n')
                /\ forall n2, Env n' n2 -> ends_within nanoid k' n2 tm'
  end.

Lemma obliging_inhabited X (q : Req X) : exists r, obliging X q r.
Proof.
  destruct q; try by exists (Throw (JsError "")).
  - destruct c; try by exists (Throw (JsError "")); by eexists.
    + by exists (Ok true).
    + by exists (Ok SetApplied).
  - by exists save.
  - exists (Ok (false, None)). by eexists.
Qed.

Lemma ends_from nanoid k : save = Ok tt -> (forall n, Env n n) -> forall s n tm,
  at_phase id s n -> sh_ending s = false -> sh_finishing s = false -> playable (sh_machine s) ->
  phase_callback (sh_machine s) = Some (tm_callback tm) ->
  (rank (sh_machine s) <= k)%nat -> ends_within nanoid k n tm.
Proof.
  intros Hsave Hrefl. induction k as [|k IH]; intros s n tm Hn He Hf Hp Hcb Hk.
  - exfalso. destruct Hp as (st & k & rs & (Hst & _) & Hph & _). revert Hk. unfold rank. rewrite Hst.
    destruct st; cbn in Hph; try lia; by destruct Hph.
  - split.
    + destruct (wp_inhabited Env obliging (timer_fires nanoid id tm) n Hrefl obliging_inhabited)
        as (t & o & n' & Hr & Ho). exists (said t), n'. by exists t, o.
    + intros l n' (t & o & Hr & Ho & <-).
      destruct (wp_runs Env obliging _ n (moved_on s) t o n' (phase_timer_on nanoid s n tm Hsave Hn He Hf Hp Hcb) Hr Ho)
        as [Ha|(s' & Hn' & He' & Hf' & Hp' & Hrank & tm' & Htm & Hcb')]; [by left|right].
      assert (timers_of id n = sh_timers s) as -> by apply Hn.
      assert (timers_of id n' = sh_timers s') as -> by apply Hn'.
      exists tm'. split; [done|]. intros n2 Hn2. eapply IH; try done; [by eapply Henv|lia].
Qed.
End Alone.

(** ** What players do meanwhile *)

Definition by_player (op : Op) : bool :=
  match op with
  | OSubmitAnswer _ _ _ _ | OVoteBanTopic _ _ _ | OPickCard _ _ _ _ _ | OPlayCard _ _ _ _ _ _ _ _
  | ODisconnectPlayer _ | OReconnectPlayer _ => true
  | _ => false
  end.

Lemma by_player_phase op m c : by_player op = true -> same_phase m (after op m c).
Proof.
  intros Hop st k rs (Hst & Hk & Hr & Hf). unfold after. destruct op; try discriminate Hop; cbn [exec];
    unfold discard, submitAnswer, voteBanTopic, pickCard, playCard, disconnectPlayer, reconnectPlayer, update_player;
    run; unfold phase_is in *; state_simpl; repeat (case_match; state_simpl);
    split_and!; try congruence; destruct (m_round m); cbn in *; congruence.
Qed.

(** Any number of answers, votes, cards, disconnections and reconnections,
    accepted or refused. *)
Inductive played : Machine -> Machine -> Prop :=
| played_none m : played m m
| played_more m op c m' : by_player op = true -> played (after op m c) m' -> played m m'.

Lemma played_phase m m' : played m m' -> same_phase m m'.
Proof. induction 1 as [m|m op c m' Hop _ IH]; [done|]. etransitivity; [by apply by_player_phase|done]. Qed.

(** The players have acted; of the match, the process has touched nothing else. *)
Definition meanwhile (id : jstr) (n n' : Node) : Prop :=
  forall s, at_match id s n -> exists m', played (sh_machine s) m' /\ at_match id (with_machine m' s) n'.

Lemma meanwhile_refl id n : meanwhile id n n.
Proof. intros s Hs. exists (sh_machine s). split; [constructor|]. by destruct s. Qed.

Lemma meanwhile_phase id s n n' : at_phase id s n -> meanwhile id n n' -> at_phase id s n'.
Proof.
  intros Hn Hm. destruct (Hm (with_machine (deref (sh_addr s) n) s)) as (m' & Hp & Hn' & Hd).
  - split; [|done]. destruct Hn as (H1 & H2 & H3 & H4). by split_and!; try apply H4.
  - destruct Hn as (_ & _ & H3 & _), Hn' as (G1 & G2 & _ & G4). cbn [with_machine sh_addr sh_machine] in *.
    split_and!; try apply G4; [done|done|]. rewrite Hd. etransitivity; [exact H3|by apply played_phase].
Qed.


Definition counting : Machine := MachineOps.exec_all [OTransition COUNTDOWN] demo_start demo_clock.
Definition counting_share : Share :=
  mkShare 0 counting (mkOwned (ms_roomId (m_state counting)) 1 (leaseValue (js "A") 1) 0) [] false false.
Definition counting_timer : Timer := mkTimer CbCountdown (js "r1") 5000.

Lemma at_node_with id m :
  at_match id (mkShare 0 m (mkOwned (ms_roomId (m_state m)) 1 (leaseValue (js "A") 1) 0) [] false false)
    (node_with id m).
Proof.
  split; [|done]. unfold at_phase, timers_of, isEndingRound, isFinishing. cbn. rewrite !lookup_singleton_eq.
  split_and!; try done. lia.
Qed.


(** ** A round that cannot be saved *)

(** A failed write of a round's rows strands the match.  When the timer of a
    round fires on the owner and the database rejects the rows of the round,
    then, with the lease and Redis in order and whatever the players do
    meanwhile, the match is left evaluating with nothing said, the timers it had
    before and no other, and cached and owned by the same node: nothing is
    scheduled that would try again. *)
Lemma unsaved_round_strands_the_match (id : jstr) (nanoid : nat -> jstr) (s : Share) (n n' : Node) (k : Z)
    (roomId : jstr) (d : Z) (e : exn) (t : list (Item Emission Req)) (o : outcome exn unit) :
  at_match id s n -> sh_ending s = false -> phase_is ROUND_ACTIVE k (Some RACTIVE) (sh_machine s) ->
  runs (meanwhile id) (timer_fires nanoid id (mkTimer CbRoundEnd roomId d)) n t o n' ->
  obliged (obliging id (Throw e)) t ->
  said t = [] /\ timers_of id n' = timers_of id n /\ nd_owned n' !! id = nd_owned n !! id
  /\ nd_machines n' !! id = nd_machines n !! id
  /\ phase_is ROUND_EVALUATING k (Some COMPLETED) (deref (sh_addr s) n').
Proof.
  intros [Hn _] He Hp Hr Ho.
  assert (H : wp (meanwhile id) (obliging id (Throw e)) (timer_fires nanoid id (mkTimer CbRoundEnd roomId d)) n
    (fun _ n' l => l = [] /\ exists m', phase_is ROUND_EVALUATING k (Some COMPLETED) m'
       /\ at_phase id (with_ending false (with_machine m' s)) n')).
  { unfold timer_fires. apply wp_bind, wp_attempt. cbn [tm_callback tm_roomId callback_body].
    eapply wp_mono; [|by apply (endRound_unsaved id (meanwhile id) (Throw e) (meanwhile_phase id) roomId s n k e)].
    intros o' n2 l [-> Hm]. by split. }
  destruct (wp_runs (meanwhile id) (obliging id (Throw e)) _ n _ t o n' H Hr Ho)
    as (Hs & m' & Hp' & (H1 & _ & H3 & H4 & H5 & _)).
  destruct Hn as (G1 & _ & _ & G4 & G5 & _). split_and!.
  - done.
  - by rewrite H5, G5.
  - by rewrite H4, G4.
  - by rewrite H1, G1.
  - by apply H3.
Qed.
