(* ===== verification/GameLoop.v ===== *)
(** * [game-loop.service.ts]

    The service that owns the runner: it launches a match, tears one down, and
    wires the runner, the command channel and the recovery together. *)

From stdpp Require Import gmap.
From S2P Require Import Prelude JsData Doubles Effects Shared Decimal Redis Lease Fencing.
From S2P Require Import Cards Scoring TopicVoting ClassEngine Machine MachineCards MatchCodec.
From S2P Require Import Events CardCommands Async Envelopes Timers Node Commands Ownership CommandStream.
From S2P Require Import RoundRecovery Bots RoundRunner.
#[local] Open Scope Z_scope.
#[local] Open Scope prog_scope.

(** ** [MatchService.createMatch], from the rows it wrote on *)

Definition fresh_player (user : jstr * jstr) : PlayerInfo :=
  mkPlayer (fst user) (snd user) ACTIVE 0 0 0 true.

Definition createMatch (roomId : jstr) : Task jstr :=
  rows <- await (RMatchRows roomId) ;;
  let matchId := fst rows in
  writes (fun n =>
    set_machines (<[matchId := length (nd_heap n)]> (nd_machines n))
      (set_heap (nd_heap n ++ [new_machine matchId roomId (map fresh_player (snd rows))]) n)) ;;
  await (RRoomStatus roomId RSTARTING (Some (Some matchId))) ;;
  attempt (persistStateMachine_opts matchId true) ;;
  pret matchId.

(** ** Launching *)

(** The transaction of [acquireRoomLaunchLock] on the locked row. *)
Definition launch_lock (row : option RoomRow) : outcome exn RoomRow :=
  match row with
  | None => Throw (RoomError ROOM_NOT_FOUND)
  | Some r =>
      if negb (bool_decide (rr_status r = RWAITING) || bool_decide (rr_status r = RCOUNTDOWN))
      then Throw (RoomError ROOM_ALREADY_STARTED)
      else if bool_decide (is_Some (rr_currentMatchId r)) then Throw (RoomError ROOM_ALREADY_STARTED)
      else Ok (mkRoomRow RSTARTING (rr_players r) (rr_currentMatchId r))
  end.

Definition validateRoomForLaunch (room : RoomRow) (roomId : jstr) (isAutoStart : bool) : Task unit :=
  if negb (bool_decide (rr_status room = RWAITING) || bool_decide (rr_status room = RCOUNTDOWN))
  then raise (RoomError ROOM_ALREADY_STARTED)
  else
    await (RClearCountdown roomId) ;;
    if rr_players room <? GAME_CONFIG.MIN_PLAYERS_TO_START then
      (if bool_decide (rr_status room = RWAITING) then pret tt
       else await (RRoomStatus roomId RWAITING None)) ;;
      (if isAutoStart then t <- now ;; for_each (emitWaitingRoomState roomId (js "NOT_ENOUGH_PLAYERS") RWAITING t) say else pret tt) ;;
      raise (RoomError NOT_ENOUGH_PLAYERS)
    else pret tt.

Definition is_room_error (code : ErrorCode) (e : exn) : bool :=
  match e with RoomError c => bool_decide (c = code) | _ => false end.

Definition cleanupOrphanedMatch (matchId : jstr) (ownershipAcquired : bool) : Task unit :=
  (if ownershipAcquired then
     cancelMatchLoop matchId ;;
     deregisterMatch matchId ;;
     disposeCommandStream matchId ;;
     attempt (release matchId) ;; pret tt
   else pret tt) ;;
  attempt (await (RDeleteMatch matchId)) ;; pret tt.

Definition revertRoomStatusToWaiting (roomId : jstr) : Task unit :=
  attempt
    (await (RRoomStatus roomId RWAITING (Some None)) ;;
     t <- now ;;
     say (emitRoomStatusUpdated roomId RWAITING None t)) ;;
  pret tt.

Definition handleLaunchError {R} (error : exn) (roomId : jstr) (created : option jstr)
    (ownershipAcquired : bool) : Task R :=
  if is_room_error ROOM_ALREADY_STARTED error || is_room_error ROOM_NOT_FOUND error then raise error
  else
    (match created with
     | Some matchId => cleanupOrphanedMatch matchId ownershipAcquired
     | None => pret tt
     end) ;;
    revertRoomStatusToWaiting roomId ;;
    raise error.

Section Launch.
Context (nodeId : jstr).

Definition open_match (roomId : jstr) (room : RoomRow) : Task jstr :=
  await (RRoomLock roomId) ;;
  t <- now ;;
  say (emitRoomStatusUpdated roomId RSTARTING (rr_currentMatchId room) t) ;;
  createMatch roomId.

Definition claim_match (roomId matchId : jstr) : Task unit :=
  say (emitMatchStarting roomId matchId (GAME_CONFIG.COUNTDOWN_DURATION_MS / 1000)) ;;
  acquired <- acquireOnLaunch nodeId matchId roomId ;;
  if acquired : bool then pret tt else raise (JsError "could not acquire owner lease").

Definition start_match (roomId matchId : jstr) : Task unit :=
  registerMatch matchId ;; startMatchLoop matchId roomId.

(** The one [try] block: what is cleaned up depends on how far it came. *)
Definition launchRoomMatch (roomId : jstr) (isAutoStart : bool) : Task jstr :=
  room <- await (RRoomRow roomId) ;;
  validateRoomForLaunch room roomId isAutoStart ;;
  opened <- attempt (open_match roomId room) ;;
  match opened with
  | Throw error => handleLaunchError error roomId None false
  | Ok matchId =>
      claimed <- attempt (claim_match roomId matchId) ;;
      match claimed with
      | Throw error => handleLaunchError error roomId (Some matchId) false
      | Ok _ =>
          started <- attempt (start_match roomId matchId) ;;
          match started with
          | Throw error => handleLaunchError error roomId (Some matchId) true
          | Ok _ => pret matchId
          end
      end
  end.
End Launch.

(** ** Tearing down *)

Definition stopRoomRuntime (roomId : jstr) (matchId : option jstr) : Task unit :=
  await (RClearCountdown roomId) ;;
  match matchId with
  | None | Some [] => pret tt
  | Some matchId =>
      cancelMatchLoop matchId ;;
      release matchId ;;
      deregisterMatch matchId ;;
      disposeCommandStream matchId
  end.

Definition awaitFinish (matchId : jstr) : Task unit :=
  promise <- reads (fun n => tr_finishingPromises (nd_timers n) !! matchId) ;;
  await (RTurn promise).

(** [canTransition] first: a match that may not finish from here is finished
    in its winner and its log only. *)
Definition force_finish (a : nat) (matchId : jstr) : Task unit :=
  status <- peek a (fun m => ms_status (getState m)) ;;
  if bool_decide (status = FINISHED) then pret tt
  else
    can <- peek a (fun m => canTransition m FINISHED) ;;
    (if can : bool then call_or_throw a (transition FINISHED) else pret tt) ;;
    call_or_throw a Machine.finishMatch ;;
    persistStateMachine matchId ;; pret tt.

(** The result carries the winner of the row and the number of rounds; [None]
    tells the caller that another call announces the end. *)
Definition forceFinishMatchForDisband (matchId roomId : jstr) : Task (option (option jstr * Z)) :=
  cancelMatchLoop matchId ;;
  release matchId ;;
  finishing <- reads (fun n => isFinishing matchId (nd_timers n)) ;;
  if finishing : bool then
    awaitFinish matchId ;;
    deregisterMatch matchId ;;
    disposeCommandStream matchId ;;
    pret None
  else
    sm <- getStateMachine matchId ;;
    totalRounds <-
      match sm with
      | None => pret 0
      | Some a => force_finish a matchId ;; peek a (fun m => ms_currentRoundNo (getState m))
      end ;;
    row <- finishMatch matchId None roomId true ;;
    deregisterMatch matchId ;;
    disposeCommandStream matchId ;;
    pret ((fun winnerId => (winnerId, totalRounds)) <$> row).

(** ** The wiring *)

Section Wiring.
Context (nodeId : jstr) (nanoid : nat -> jstr) (pages : nat).
Context (parseAndValidate : jstr -> jstr -> option CommandEnvelope).

Definition sideEffects : CommandSideEffects := game_loop_side_effects checkEarlyTermination.

(** [RecoveryDeps.resumeMatchLoop]. *)
Definition resume_recovered (matchId : jstr) (sm : nat) (roomId : jstr) : Task unit :=
  registerMatch matchId ;; resumeMatchLoop matchId sm roomId.

(** What a process can start. *)
Inductive Activity :=
| A_launch (roomId : jstr) (isAutoStart : bool)
| A_timer (matchId : jstr) (timer : Timer)
| A_job (j : Job)
| A_retry (matchId : jstr)
| A_heartbeat
| A_sweep
| A_boot
| A_server
| A_poll_tick
| A_left (matchId roomId userId : jstr) (reason : LeaveReason)
| A_stop (roomId : jstr) (matchId : option jstr)
| A_disband (matchId roomId : jstr)
| A_forward (env : CommandEnvelope).

Definition ignore {R} (p : Task R) : Task unit := attempt p ;; pret tt.

Definition activity (x : Activity) : Task unit :=
  match x with
  | A_launch roomId isAutoStart => ignore (launchRoomMatch nodeId roomId isAutoStart)
  | A_timer matchId timer => timer_fires nanoid matchId timer
  | A_job j => ignore (run_job nodeId resume_recovered (poll (Some sideEffects) parseAndValidate pages) j)
  | A_retry matchId => retry_fires nodeId resume_recovered matchId
  | A_heartbeat => ignore heartbeat
  | A_sweep => orphanSweep nodeId resume_recovered
  | A_boot => recoverOnBoot
  | A_server => setServer
  | A_poll_tick => dispatchPolls
  | A_left matchId roomId userId reason => ignore (leaveMatchPlayer matchId roomId userId reason)
  | A_stop roomId matchId => ignore (stopRoomRuntime roomId matchId)
  | A_disband matchId roomId => ignore (forceFinishMatchForDisband matchId roomId)
  | A_forward env => ignore (forward env)
  end.
End Wiring.
