(* ===== verification/ClientState.v ===== *)
(** * The state of the web client

    [apps/web/src/stores/socket-store.types.ts] and [socket-store.state-maps.ts].
    The store is a zustand store: an updater returns a partial state that [set]
    merges into the current one; in the client files an updater is the function
    from the current state to the state after the merge, so a field the partial
    does not mention keeps its value.  A [Socket] object and the handle of an
    interval are represented by their identities. *)

From S2P Require Import Prelude JsData Effects Shared Cards Prng CardEngine Scoring.
From S2P Require Import TieBreak TopicVoting ClassEngine Machine MachineCards Events.
From coqutil Require Export Datatypes.RecordSettersUsingExistingGetters.
#[local] Open Scope Z_scope.

(** [{ s with f := v }] is [{...s, f: v}]. *)
#[global] Arguments RecordSettersUsingExistingGetters.const {E} newValue / _.

(** ** socket-store.types.ts *)

Inductive JoinMode := PLAYER | SPECTATOR.

Record Player := mkClientPlayer {
  cp_id : jstr;
  cp_name : jstr;
  cp_status : PlayerStatus;
  cp_score : Z;
  cp_isOnline : bool;
  cp_avatarUrl : option jstr;
  cp_classId : option ClassId;
}.

Record Room := mkRoom {
  rm_id : jstr;
  rm_code : jstr;
  rm_status : RoomStatus;
  rm_hostId : jstr;
  rm_roomType : RoomType;
  rm_maxPlayers : Z;
  rm_currentMatchId : option jstr;
  rm_countdownEndsAt : option Z;
  rm_players : list Player;
  rm_joinMode : JoinMode;
}.

(** The question a client is shown carries no answer key. *)
Record Match := mkMatch {
  mt_id : jstr;
  mt_status : MatchStatus;
  mt_currentRoundNo : Z;
  mt_players : list Player;
  mt_currentQuestion : option QuestionState;
  mt_roundEndTime : option Z;
}.

Record LastAnswerResult := mkLastAnswer {
  la_matchId : jstr;
  la_roundNo : Z;
  la_submissionId : option jstr;
  la_isCorrect : option bool;
  la_responseTimeMs : option Z;
  la_correctAnswer : option jstr;
  la_submittedAnswer : option jstr;
}.

Record PendingAnswer := mkPendingAnswer {
  pa_matchId : jstr;
  pa_roundNo : Z;
  pa_answer : jstr;
  pa_submissionId : jstr;
}.

Record TopicVotingState := mkVoting {
  tvs_matchId : jstr;
  tvs_candidateTopics : list jstr;
  tvs_endsAt : Z;
  tvs_durationMs : Z;
  tvs_myVotedTopic : option jstr;
  tvs_voteCounts : JsMap jstr Z;
  tvs_totalVotes : Z;
  tvs_bannedTopics : list jstr;
  tvs_activeTopics : list jstr;
  tvs_isFinished : bool;
}.

Record MatchmakingState := mkMatchmaking {
  mk_isQueued : bool;
  mk_queuedAt : option Z;
  mk_elapsedSeconds : Z;
  mk_estimatedWaitSeconds : Z;
  mk_playersInQueue : Z;
  mk_matchedRoomCode : option jstr;
  mk_matchedRoomId : option jstr;
  mk_matchedMatchId : option jstr;
}.

Record CardOfferState := mkOfferState {
  of_matchId : jstr;
  of_roundNo : Z;
  of_offeredCardIds : list CardId;
  of_offerSeqNo : Z;
  of_seedUsed : jstr;
  of_expiresAt : Z;
}.

(** The fields of [CardEffectEvent] (events.ts) that the client reads. *)
Record CardEffectEvent := mkEffectEvent {
  ee_matchId : jstr;
  ee_roundNo : Z;
  ee_targetRoundNo : option Z;
  ee_cardId : CardId;
  ee_offerSeqNo : Z;
  ee_playedByPlayerId : jstr;
  ee_targetPlayerIds : list jstr;
  ee_effect : CardEffect;
  ee_serverTimestamp : Z;
  ee_eventId : option jstr;
  ee_commandId : option jstr;
}.

(** The [CardState] of the client. *)
Record ClientCards := mkClientCards {
  cc_classId : option ClassId;
  cc_hand : list CardId;
  cc_playedCardIds : list CardId;
  cc_offerSeqNoByCardId : JsMap CardId Z;
  cc_currentOffer : option CardOfferState;
  cc_lastResolvedEffect : option CardEffectEvent;
  cc_pendingNextRoundEffects : list CardEffectEvent;
  cc_activeRoundEffects : list CardEffectEvent;
  cc_consumedEffectIds : list jstr;
}.

Definition createInitialCardState : ClientCards := mkClientCards None [] [] [] None None [] [] [].

Record SocketState := mkSocketState {
  st_isConnected : bool;
  st_isAuthenticated : bool;
  st_userId : option jstr;
  st_username : option jstr;
  st_accessToken : option jstr;
  st_userRole : option jstr;
  st_socket : option Z;
  st_room : option Room;
  st_match : option Match;
  st_topicVoting : option TopicVotingState;
  st_matchmaking : MatchmakingState;
  st_cardState : ClientCards;
  st_lastAnswerResult : option LastAnswerResult;
  st_pendingAnswer : option PendingAnswer;
  st_remainingCount : option Z;
  st_lastSeenSeqNo : Z;
  st_error : option jstr;
  st_heartbeatInterval : option Z;
  st_isEliminated : bool;
  st_eliminationReason : option EliminationReason;
  st_roomTerminated : bool;
  st_roomTerminationMessage : option jstr;
}.

(** [state.room?.currentMatchId ?? state.match?.id ?? null] *)
Definition activeMatchId (s : SocketState) : option jstr :=
  match st_room s ≫= rm_currentMatchId with
  | Some matchId => Some matchId
  | None => mt_id <$> st_match s
  end.

(** ** socket-store.state-maps.ts

    Module-level maps, kept beside the store: the votes and card commands that
    were sent and are not confirmed yet. *)

Record PendingTopicVoteCommand := mkPendingVote {
  pv_commandId : jstr;
  pv_matchId : jstr;
  pv_topic : jstr;
}.

Inductive PendingKind :=
| PICK (addedToHand : bool) (previousOffer : option CardOfferState)
| PLAY (addedToPlayed : bool).

Record PendingCardCommand := mkPendingCard {
  pk_commandId : jstr;
  pk_matchId : jstr;
  pk_cardId : CardId;
  pk_offerSeqNo : Z;
  pk_kind : PendingKind;
}.

Record PendingSecondChanceConsumption := mkPendingSecondChance {
  sc_matchId : jstr;
  sc_cardState : ClientCards;
}.

Record ClientMaps := mkClientMaps {
  pendingTopicVoteCommandsByMatch : JsMap jstr (list PendingTopicVoteCommand);
  confirmedTopicVoteBaselineByMatch : JsMap jstr (option jstr);
  pendingCardCommands : JsMap jstr PendingCardCommand;
  consumedSecondChanceBySubmissionId : JsMap jstr PendingSecondChanceConsumption;
}.

Definition resetSocketStateMaps (_ : ClientMaps) : ClientMaps := mkClientMaps [] [] [] [].

Definition clearTopicVoteState (matchId : option jstr) (maps : ClientMaps) : ClientMaps :=
  match truthy_str matchId with
  | Some id => { maps with pendingTopicVoteCommandsByMatch ::= map_delete id;
                           confirmedTopicVoteBaselineByMatch ::= map_delete id }
  | None => { maps with pendingTopicVoteCommandsByMatch := [];
                        confirmedTopicVoteBaselineByMatch := [] }
  end.

Definition clearCardCommandState (matchId : option jstr) (maps : ClientMaps) : ClientMaps :=
  match truthy_str matchId with
  | Some id =>
      { maps with
        pendingCardCommands ::= filter (fun kv => pk_matchId kv.2 <> id);
        consumedSecondChanceBySubmissionId ::= filter (fun kv => sc_matchId kv.2 <> id) }
  | None => { maps with pendingCardCommands := []; consumedSecondChanceBySubmissionId := [] }
  end.

Definition getEffectiveTopicVote (matchId : jstr) (maps : ClientMaps) : option jstr :=
  match map_get matchId (pendingTopicVoteCommandsByMatch maps) ≫= last with
  | Some cmd => Some (pv_topic cmd)
  | None => default None (map_get matchId (confirmedTopicVoteBaselineByMatch maps))
  end.

Definition is_pick (k : PendingKind) : bool := match k with PICK _ _ => true | PLAY _ => false end.

(** Deletes the entry of the command, or without its id the oldest one of the
    same kind, match and card. *)
Definition resolvePendingCardCommand (pick : bool) (matchId : jstr) (cardId : CardId)
    (commandId : option jstr) (maps : ClientMaps) : ClientMaps :=
  let by_content :=
    match list_find (fun kv => is_pick (pk_kind kv.2) = pick /\ pk_matchId kv.2 = matchId
                               /\ pk_cardId kv.2 = cardId) (pendingCardCommands maps) with
    | Some (_, (cmdId, _)) => { maps with pendingCardCommands ::= map_delete cmdId }
    | None => maps
    end in
  match truthy_str commandId with
  | Some id => if map_has id (pendingCardCommands maps)
               then { maps with pendingCardCommands ::= map_delete id } else by_content
  | None => by_content
  end.
