(* ===== verification/ClientUpdaters.v ===== *)
(** * The match, vote, room and account updaters of the web client

    [apps/web/src/stores/updaters]: match.updaters.ts, topic.updaters.ts,
    room.updaters.ts and auth.updaters.ts.  [Date.now()] is an argument where a
    value of the state depends on it. *)

From S2P Require Import Prelude JsData Effects Shared Cards Prng CardEngine Scoring.
From S2P Require Import TieBreak TopicVoting ClassEngine Machine MachineCards Events ClientState.
#[local] Open Scope Z_scope.

Section MatchUpdaters.
Implicit Types (s : SocketState).

(** ** match.updaters.ts: the phases of a match *)

Definition applyMatchStartingState (matchId : jstr) s : SocketState :=
  { s with
    st_remainingCount := None;
    st_cardState := createInitialCardState;
    st_lastAnswerResult := None;
    st_pendingAnswer := None;
    st_room ::= fmap (fun r => { r with rm_status := RSTARTING; rm_currentMatchId := Some matchId;
                                        rm_countdownEndsAt := None }) }.

Definition room_players s : list Player := default [] (rm_players <$> st_room s).

Definition applyMatchStartedState (matchId : jstr) (status : MatchStatus) s : SocketState :=
  { s with
    st_isEliminated := false;
    st_eliminationReason := None;
    st_room ::= fmap (fun r => { r with rm_status := RIN_GAME; rm_currentMatchId := Some matchId;
                                        rm_countdownEndsAt := None });
    st_match := Some (mkMatch matchId status 0 (room_players s) None None);
    st_lastSeenSeqNo := 0 }.

(** [state.match?.id === matchId ? state.match : null] *)
Definition currentMatch (matchId : jstr) s : option Match :=
  match st_match s with
  | Some m => if bool_decide (mt_id m = matchId) then Some m else None
  | None => None
  end.

(** [currentMatch?.players ?? state.room?.players ?? []] *)
Definition basePlayers (matchId : jstr) s : list Player :=
  match currentMatch matchId s with Some m => mt_players m | None => room_players s end.

Definition effect_round (e : CardEffectEvent) : Z := default (ee_roundNo e + 1) (ee_targetRoundNo e).

Definition applyRoundStartedState (matchId : jstr) (roundNo : Z) (question : QuestionState)
    (endsAt : Z) s : SocketState :=
  if negb (bool_decide (activeMatchId s = Some matchId)) then s
  else
    let pendingEffects := cc_pendingNextRoundEffects (st_cardState s) in
    let activatingEffects := filter (fun e => effect_round e <= roundNo) pendingEffects in
    let remainingPending := filter (fun e => roundNo < effect_round e) pendingEffects in
    { s with
      st_match := Some match currentMatch matchId s with
                       | Some m => { m with mt_id := matchId; mt_status := ROUND_ACTIVE;
                                            mt_currentRoundNo := roundNo;
                                            mt_currentQuestion := Some question;
                                            mt_roundEndTime := Some endsAt }
                       | None => mkMatch matchId ROUND_ACTIVE roundNo (basePlayers matchId s)
                                   (Some question) (Some endsAt)
                       end;
      st_cardState ::= (fun c => { c with cc_activeRoundEffects := activatingEffects;
                                          cc_pendingNextRoundEffects := remainingPending });
      st_topicVoting := None;
      st_lastAnswerResult := None;
      st_pendingAnswer := None }.

(** The payload of ROUND_ENDED, or what the replay passes. *)
Record RoundEndedData := mkRoundEnded {
  re_matchId : jstr;
  re_roundNo : Z;
  re_correctAnswer : option jstr;
  re_eliminatedPlayerIds : list jstr;
  re_survivingCount : option Z;
  re_survivingPlayerIds : option (list jstr);
}.

Definition ended_player (d : RoundEndedData) (player : Player) : Player :=
  if set_has (cp_id player) (re_eliminatedPlayerIds d)
  then { player with cp_status := ELIMINATED }
  else match re_survivingPlayerIds d with
       | Some surviving =>
           if negb (set_has (cp_id player) surviving) then { player with cp_status := ELIMINATED }
           else if bool_decide (cp_status player = ELIMINATED)
                then { player with cp_status := ACTIVE } else player
       | None => player
       end.

(** [players.find((p) => p.id === userId)] *)
Definition find_player (userId : jstr) (players : list Player) : option Player :=
  snd <$> list_find (fun p => cp_id p = userId) players.

Definition is_eliminated (p : Player) : bool := bool_decide (cp_status p = ELIMINATED).

Definition ended_isEliminated (d : RoundEndedData) (updatedPlayers : list Player) s : bool :=
  match truthy_str (st_userId s) with
  | None => st_isEliminated s
  | Some userId =>
      if set_has userId (re_eliminatedPlayerIds d) then true
      else if match re_survivingPlayerIds d with
              | Some surviving => set_has userId surviving
              | None => false
              end then false
      else match find_player userId updatedPlayers with
           | Some p => is_eliminated p
           | None => st_isEliminated s
           end
  end.

Definition pending_of_round (matchId : jstr) (roundNo : Z) (o : option PendingAnswer)
    : option PendingAnswer :=
  match o with
  | Some p => if bool_decide (pa_matchId p = matchId) && bool_decide (pa_roundNo p = roundNo)
              then Some p else None
  | None => None
  end.

Definition applyRoundEndedState (d : RoundEndedData) (prior : option LastAnswerResult) s
    : SocketState :=
  let matchId := re_matchId d in
  if negb (bool_decide (activeMatchId s = Some matchId)) then s
  else
    let updatedPlayers := ended_player d <$> basePlayers matchId s in
    let survivingCount :=
      match re_survivingCount d with
      | Some n => Some n
      | None => (fun ids => Z.of_nat (length (set_of_list ids))) <$> re_survivingPlayerIds d
      end in
    let isEliminated := ended_isEliminated d updatedPlayers s in
    { s with
      st_match := Some match currentMatch matchId s with
                       | Some m => { m with mt_id := matchId; mt_players := updatedPlayers;
                                            mt_status := ROUND_RESULT; mt_roundEndTime := None }
                       | None => mkMatch matchId ROUND_RESULT (re_roundNo d) updatedPlayers None None
                       end;
      st_lastAnswerResult :=
        Some (mkLastAnswer matchId (re_roundNo d) (prior ≫= la_submissionId) (prior ≫= la_isCorrect)
                (prior ≫= la_responseTimeMs) (re_correctAnswer d) (prior ≫= la_submittedAnswer));
      st_remainingCount := survivingCount;
      st_isEliminated := isEliminated;
      st_eliminationReason := if isEliminated then st_eliminationReason s else None;
      st_pendingAnswer :=
        match pending_of_round matchId (re_roundNo d) (st_pendingAnswer s) with
        | Some _ => None
        | None => st_pendingAnswer s
        end }.

Definition applyPlayerEliminatedState (playerId : jstr) s : SocketState :=
  { s with st_match ::= fmap (fun m =>
      { m with mt_players ::= fmap (fun p =>
          if bool_decide (cp_id p = playerId) then { p with cp_status := ELIMINATED } else p) }) }.

Definition applyMatchFinishedState (matchId : jstr) s : SocketState :=
  if negb (bool_decide (activeMatchId s = Some matchId)) then s
  else
    { s with
      st_cardState := createInitialCardState;
      st_room ::= fmap (fun r => { r with rm_status := RFINISHED; rm_countdownEndsAt := None });
      st_match := Some match currentMatch matchId s with
                       | Some m => { m with mt_id := matchId; mt_status := FINISHED;
                                            mt_roundEndTime := None }
                       | None => mkMatch matchId FINISHED 0 (room_players s) None None
                       end }.
End MatchUpdaters.

(** ** match.updaters.ts: hydration from a snapshot *)

(** [Object.values(MatchStatus)], [Object.values(PlayerStatus)]. *)
Definition match_status_str (status : MatchStatus) : jstr :=
  match status with
  | CREATED => js "CREATED"
  | TOPIC_VOTING => js "TOPIC_VOTING"
  | COUNTDOWN => js "COUNTDOWN"
  | ROUND_ACTIVE => js "ROUND_ACTIVE"
  | ROUND_EVALUATING => js "ROUND_EVALUATING"
  | ROUND_RESULT => js "ROUND_RESULT"
  | FINISHED => js "FINISHED"
  end.

Definition player_status_str (status : PlayerStatus) : jstr :=
  match status with
  | ACTIVE => js "ACTIVE"
  | ELIMINATED => js "ELIMINATED"
  | DISCONNECTED => js "DISCONNECTED"
  | WINNER => js "WINNER"
  end.

Definition MATCH_STATUSES : list MatchStatus :=
  [CREATED; TOPIC_VOTING; COUNTDOWN; ROUND_ACTIVE; ROUND_EVALUATING; ROUND_RESULT; FINISHED].
Definition PLAYER_STATUSES : list PlayerStatus := [ACTIVE; ELIMINATED; DISCONNECTED; WINNER].

Definition normalizeMatchStatus (status : jstr) : option MatchStatus :=
  snd <$> list_find (fun v => match_status_str v = status) MATCH_STATUSES.
Definition normalizePlayerStatus (status : jstr) : option PlayerStatus :=
  snd <$> list_find (fun v => player_status_str v = status) PLAYER_STATUSES.

Record SnapshotPlayer := mkSnapshotPlayer {
  sp_id : jstr;
  sp_name : jstr;
  sp_status : jstr;
  sp_score : Z;
  sp_isOnline : option bool;
}.

(** [SnapshotPayload] (socket.ts) as it arrives: [None] for [players] is a
    value that is not an array. *)
Record SnapshotPayload := mkSnapshotPayload {
  sy_matchId : jstr;
  sy_status : jstr;
  sy_currentRoundNo : Z;
  sy_players : option (list SnapshotPlayer);
  sy_currentQuestion : option QuestionState;
  sy_roundEndTime : option Z;
  sy_lastEventSeqNo : Z;
  sy_candidateTopics : option (list jstr);
  sy_voteCounts : option (JsMap jstr Z);
  sy_phaseEndsAt : option Z;
  sy_bannedTopics : option (list jstr);
  sy_activeTopics : option (list jstr);
}.

Definition or_else {A} (o o' : option A) : option A := match o with Some x => Some x | None => o' end.
Definition nonempty {A} (o : option (list A)) : bool := match o with Some (_ :: _) => true | _ => false end.

Section SnapshotUpdaters.
Implicit Types (s : SocketState) (data : SnapshotPayload).

(** [state.topicVoting?.matchId === data.matchId ? state.topicVoting : null] *)
Definition votingOf (matchId : jstr) s : option TopicVotingState :=
  match st_topicVoting s with
  | Some v => if bool_decide (tvs_matchId v = matchId) then Some v else None
  | None => None
  end.

Definition resolveSnapshotTopicVoting s data : option TopicVotingState :=
  match normalizeMatchStatus (sy_status data) with
  | None => st_topicVoting s
  | Some matchStatus =>
      if negb (bool_decide (matchStatus = TOPIC_VOTING)) && negb (bool_decide (matchStatus = COUNTDOWN))
      then None
      else
        let voteCounts := default [] (sy_voteCounts data) in
        let totalVotes := foldl Z.add 0 voteCounts.*2 in
        let endsAt := default 0 (or_else (sy_phaseEndsAt data) (sy_roundEndTime data)) in
        let ended := negb (bool_decide (matchStatus = TOPIC_VOTING)) in
        let own := votingOf (sy_matchId data) s in
        if nonempty (sy_candidateTopics data) then
          Some (mkVoting (sy_matchId data) (default [] (sy_candidateTopics data)) endsAt
                  GAME_CONFIG.TOPIC_VOTING_DURATION_MS (own ≫= tvs_myVotedTopic) voteCounts totalVotes
                  (default [] (or_else (sy_bannedTopics data) (tvs_bannedTopics <$> own)))
                  (default [] (or_else (sy_activeTopics data) (tvs_activeTopics <$> own))) ended)
        else match own with
        | Some v =>
            Some { v with tvs_bannedTopics := default (tvs_bannedTopics v) (sy_bannedTopics data);
                          tvs_activeTopics := default (tvs_activeTopics v) (sy_activeTopics data);
                          tvs_isFinished := if ended then true else tvs_isFinished v }
        | None =>
            if nonempty (sy_bannedTopics data) || nonempty (sy_activeTopics data) then
              Some (mkVoting (sy_matchId data) (default [] (sy_candidateTopics data)) endsAt
                      GAME_CONFIG.TOPIC_VOTING_DURATION_MS None voteCounts totalVotes
                      (default [] (sy_bannedTopics data)) (default [] (sy_activeTopics data)) ended)
            else None
        end
  end.

Definition hydrate_player (player : SnapshotPlayer) : option Player :=
  status ← normalizePlayerStatus (sp_status player);
  Some (mkClientPlayer (sp_id player) (sp_name player) status (sp_score player)
          (default true (sp_isOnline player)) None None).

(** Drops a snapshot with a status it does not know. *)
Definition applySnapshotState data s : SocketState :=
  match normalizeMatchStatus (sy_status data), sy_players data ≫= mapM hydrate_player with
  | Some matchStatus, Some players =>
      let selfEliminated :=
        match truthy_str (st_userId s) with
        | Some userId => match find_player userId players with
                         | Some p => is_eliminated p
                         | None => false
                         end
        | None => false
        end in
      { s with
        st_room ::= fmap (fun r => { r with rm_status := RIN_GAME;
                                            rm_currentMatchId := Some (sy_matchId data);
                                            rm_countdownEndsAt := None });
        st_match := Some (mkMatch (sy_matchId data) matchStatus (sy_currentRoundNo data) players
                            (sy_currentQuestion data) (sy_roundEndTime data));
        st_isEliminated := selfEliminated;
        st_eliminationReason := None;
        st_remainingCount := None;
        st_lastAnswerResult := None;
        st_pendingAnswer := None;
        st_lastSeenSeqNo := sy_lastEventSeqNo data;
        st_topicVoting := resolveSnapshotTopicVoting s data }
  | _, _ => s
  end.
End SnapshotUpdaters.

(** ** match.updaters.ts: the replay of a batch of events *)

(** The events [ReplayEventSchema] (packages/shared/src/schemas.ts) accepts;
    [type] names another event than these: it does not parse. *)
Inductive ReplayEvent :=
| R_STATE_TRANSITION (from to : MatchStatus)
| R_ROUND_STARTED (roundNo : Z) (questionId : jstr) (question : QuestionState) (endsAt : Z)
| R_ANSWER_SUBMITTED (playerId : jstr) (isCorrect : bool) (responseTimeMs : Z)
| R_ROUND_EVALUATED (roundNo : Z) (correctAnswer : jstr) (survivingCount eliminatedCount : Z)
    (eliminatedIds : list jstr)
| R_TIE_BREAK (winnerId : option jstr) (tiedPlayerIds : list jstr)
| R_MATCH_FINISHED (winnerId : option jstr) (totalRounds : Z)
| R_PLAYER_DISCONNECTED (playerId : jstr)
| R_PLAYER_RECONNECTED (playerId : jstr).

Definition min1 (s : jstr) : bool := negb (bool_decide (s = [])).
Definition min1_nullable (o : option jstr) : bool := match o with Some s => min1 s | None => true end.
Definition nonnegative (n : Z) : bool := 0 <=? n.
Definition positive (n : Z) : bool := 0 <? n.

Definition refine {A} (ok : bool) (x : A) : option A := if ok then Some x else None.

(** [ReplayEventSchema.safeParse] of an event the server logged.  A field that
    is [undefined] there is absent from the message. *)
Definition parse_replay (e : EventPayload) : option ReplayEvent :=
  match e with
  | E_STATE_TRANSITION from to => Some (R_STATE_TRANSITION from to)
  | E_ROUND_STARTED roundNo questionId question endsAt =>
      refine (positive roundNo && min1 questionId && min1 (q_id question) && nonnegative endsAt)
        (R_ROUND_STARTED roundNo questionId question endsAt)
  | E_ANSWER_SUBMITTED playerId isCorrect responseTimeMs =>
      refine (min1 playerId && nonnegative responseTimeMs)
        (R_ANSWER_SUBMITTED playerId isCorrect responseTimeMs)
  | E_ROUND_EVALUATED roundNo (Some correctAnswer) survivingCount eliminatedCount eliminatedIds =>
      refine (positive roundNo && nonnegative survivingCount && nonnegative eliminatedCount)
        (R_ROUND_EVALUATED roundNo correctAnswer survivingCount eliminatedCount eliminatedIds)
  | E_TIE_BREAK winnerId tied => refine (min1_nullable winnerId) (R_TIE_BREAK winnerId tied)
  | E_MATCH_FINISHED winnerId totalRounds =>
      refine (min1_nullable winnerId && nonnegative totalRounds) (R_MATCH_FINISHED winnerId totalRounds)
  | E_PLAYER_DISCONNECTED playerId => refine (min1 playerId) (R_PLAYER_DISCONNECTED playerId)
  | E_PLAYER_RECONNECTED playerId => refine (min1 playerId) (R_PLAYER_RECONNECTED playerId)
  | _ => None
  end.

Record ReplayAccumulator := mkAccumulator {
  ra_match : Match;
  ra_room : option Room;
  ra_remainingCount : option Z;
  ra_lastAnswerResult : option LastAnswerResult;
  ra_pendingAnswer : option PendingAnswer;
  ra_topicVoting : option TopicVotingState;
  ra_cardState : ClientCards;
}.

(** The fields of a state an object literal does not give. *)
Definition no_state : SocketState :=
  mkSocketState false false None None None None None None None None
    (mkMatchmaking false None 0 0 0 None None None) createInitialCardState None None None 0 None
    None false None false None.

Definition synthState (acc : ReplayAccumulator) : SocketState :=
  { no_state with
    st_room := ra_room acc;
    st_match := Some (ra_match acc);
    st_remainingCount := ra_remainingCount acc;
    st_lastAnswerResult := ra_lastAnswerResult acc;
    st_pendingAnswer := ra_pendingAnswer acc;
    st_topicVoting := ra_topicVoting acc;
    st_cardState := ra_cardState acc }.

(** The seven fields of the result; an updater that changes nothing leaves
    those of [synthState]. *)
Definition mergeAccumulator (acc : ReplayAccumulator) (res : SocketState) : ReplayAccumulator :=
  mkAccumulator (default (ra_match acc) (st_match res)) (st_room res) (st_remainingCount res)
    (st_lastAnswerResult res) (st_pendingAnswer res) (st_topicVoting res) (st_cardState res).

Definition foldReplayEvent (matchId : jstr) (acc : ReplayAccumulator) (event : ReplayEvent)
    : ReplayAccumulator :=
  match event with
  | R_STATE_TRANSITION _ to => { acc with ra_match ::= (fun m => { m with mt_status := to }) }
  | R_ROUND_STARTED roundNo _ question endsAt =>
      mergeAccumulator acc (applyRoundStartedState matchId roundNo question endsAt (synthState acc))
  | R_ROUND_EVALUATED roundNo correctAnswer survivingCount _ eliminatedIds =>
      mergeAccumulator acc
        (applyRoundEndedState
           (mkRoundEnded matchId roundNo (Some correctAnswer) eliminatedIds (Some survivingCount) None)
           (ra_lastAnswerResult acc) (synthState acc))
  | R_MATCH_FINISHED _ _ => mergeAccumulator acc (applyMatchFinishedState matchId (synthState acc))
  | _ => acc
  end.

Definition computeIsEliminated (userId : option jstr) (m : Match) (fallback : bool) : bool :=
  match truthy_str userId with
  | None => fallback
  | Some userId => match find_player userId (mt_players m) with
                   | Some p => is_eliminated p
                   | None => fallback
                   end
  end.

(** One iteration of the loop: events up to the cursor are skipped, an event
    that does not parse moves the cursor and nothing else. *)
Definition replay_event (matchId : jstr) (acc : ReplayAccumulator * Z) (rawEvent : Event)
    : ReplayAccumulator * Z :=
  let '(current, cursor) := acc in
  if ev_seqNo rawEvent <=? cursor then acc
  else match parse_replay (ev_payload rawEvent) with
       | None => (current, ev_seqNo rawEvent)
       | Some event => (foldReplayEvent matchId current event, ev_seqNo rawEvent)
       end.

Definition applyEventBatchState (matchId : jstr) (events : list DeltaEvent) (s : SocketState)
    : SocketState :=
  if negb (bool_decide (truthy_str (activeMatchId s) = Some matchId)) then s
  else match currentMatch matchId s with
       | None => s
       | Some m =>
           let start := mkAccumulator m (st_room s) (st_remainingCount s) (st_lastAnswerResult s)
                          (st_pendingAnswer s) (st_topicVoting s) (st_cardState s) in
           let '(current, cursor) :=
             foldl (replay_event matchId) (start, st_lastSeenSeqNo s) (de_event <$> events) in
           { s with
             st_match := Some (ra_match current);
             st_room := ra_room current;
             st_remainingCount := ra_remainingCount current;
             st_lastAnswerResult := ra_lastAnswerResult current;
             st_pendingAnswer := ra_pendingAnswer current;
             st_topicVoting := ra_topicVoting current;
             st_cardState := ra_cardState current;
             st_isEliminated :=
               computeIsEliminated (st_userId s) (ra_match current) (st_isEliminated s);
             st_lastSeenSeqNo := cursor }
       end.

(** ** topic.updaters.ts *)

Section TopicUpdaters.
Implicit Types (s : SocketState).

Definition vote_is_over (status : MatchStatus) : bool :=
  match status with
  | FINISHED | ROUND_ACTIVE | ROUND_EVALUATING | ROUND_RESULT => true
  | _ => false
  end.

Definition applyTopicVotingStartedState (matchId : jstr) (candidateTopics : list jstr)
    (endsAt durationMs : Z) s : SocketState :=
  let roomMatch := truthy_str (st_room s ≫= rm_currentMatchId) in
  let other_room := match roomMatch with
                    | Some id => negb (bool_decide (id = matchId))
                    | None => false
                    end in
  let other_match := match st_match s with
                     | Some m => min1 (mt_id m) && negb (bool_decide (mt_id m = matchId))
                                 && negb (bool_decide (mt_status m = FINISHED))
                                 && bool_decide (roomMatch = None)
                     | None => false
                     end in
  let stale := match currentMatch matchId s with
               | Some m => default false (tvs_isFinished <$> st_topicVoting s)
                           || vote_is_over (mt_status m)
               | None => false
               end in
  if other_room || other_match || stale then s
  else
    { s with
      st_room ::= fmap (fun r => { r with rm_currentMatchId := Some matchId;
                                          rm_status := RIN_GAME });
      st_match := Some match currentMatch matchId s with
                       | Some m => { m with mt_status := TOPIC_VOTING }
                       | None => mkMatch matchId TOPIC_VOTING 0 (room_players s) None None
                       end;
      st_topicVoting :=
        Some (mkVoting matchId candidateTopics endsAt durationMs None
                (foldl (fun counts t => map_set t 0 counts) [] candidateTopics) 0 [] [] false) }.

Definition applyTopicVotingSummaryState (matchId : jstr) (voteCounts : JsMap jstr Z)
    (totalVotes : Z) s : SocketState :=
  match votingOf matchId s with
  | None => s
  | Some v => { s with st_topicVoting :=
                  Some { v with tvs_voteCounts := voteCounts; tvs_totalVotes := totalVotes } }
  end.

Definition applyTopicVotingFinishedState (matchId : jstr) (bannedTopics activeTopics : list jstr)
    (voteCounts : JsMap jstr Z) s : SocketState :=
  match votingOf matchId s with
  | None => s
  | Some v => { s with st_topicVoting :=
                  Some { v with tvs_bannedTopics := bannedTopics; tvs_activeTopics := activeTopics;
                                tvs_voteCounts := voteCounts; tvs_isFinished := true } }
  end.

(** The first list of commands, in the order of the map, that holds the
    command; the command is taken out of it. *)
Definition take_vote_command (commandId : jstr)
    (pending : JsMap jstr (list PendingTopicVoteCommand))
    : option (PendingTopicVoteCommand * JsMap jstr (list PendingTopicVoteCommand)) :=
  '(_, (matchId, cmds)) ← list_find (fun kv => Exists (fun c => pv_commandId c = commandId) kv.2)
                            pending;
  '(cmdIndex, failedCmd) ← list_find (fun c => pv_commandId c = commandId) cmds;
  let rest := delete cmdIndex cmds in
  Some (failedCmd, if decide (rest = []) then map_delete matchId pending
                   else map_set matchId rest pending).

Definition removePendingTopicVoteCommand (commandId : jstr) (maps : ClientMaps)
    : (option jstr * option jstr) * ClientMaps :=
  match take_vote_command commandId (pendingTopicVoteCommandsByMatch maps) with
  | None => ((None, None), maps)
  | Some (failedCmd, pending) =>
      let matchId := pv_matchId failedCmd in
      let maps1 := { maps with pendingTopicVoteCommandsByMatch := pending } in
      let matchPending := default [] (map_get matchId pending) in
      ((Some matchId, getEffectiveTopicVote matchId maps1),
       if decide (matchPending = [])
       then { maps1 with confirmedTopicVoteBaselineByMatch ::= map_delete matchId } else maps1)
  end.

Definition applyTopicVoteErrorState (matchId recomputedTopic : option jstr) s : SocketState :=
  match truthy_str matchId with
  | None => s
  | Some id => match votingOf id s with
               | None => s
               | Some v => { s with st_topicVoting :=
                               Some { v with tvs_myVotedTopic := recomputedTopic } }
               end
  end.
End TopicUpdaters.

(** ** room.updaters.ts *)

Record RoomPlayerSummary := mkRoomPlayer {
  rp_playerId : jstr;
  rp_playerName : jstr;
  rp_isOnline : bool;
}.

(** [RoomCreatedPayload] and [RoomJoinedPayload]; only the latter has a
    countdown. *)
Record RoomEnteredPayload := mkRoomEntered {
  rj_roomId : jstr;
  rj_code : jstr;
  rj_hostId : jstr;
  rj_roomType : RoomType;
  rj_roomStatus : RoomStatus;
  rj_maxPlayers : Z;
  rj_currentMatchId : option jstr;
  rj_countdownEndsAt : option Z;
  rj_players : list RoomPlayerSummary;
  rj_joinedAs : option JoinMode;
}.

Definition new_room_player (playerId playerName : jstr) (isOnline : bool) : Player :=
  mkClientPlayer playerId playerName ACTIVE 0 isOnline None None.

Definition mapSocketPlayers (players : list RoomPlayerSummary) : list Player :=
  (fun p => new_room_player (rp_playerId p) (rp_playerName p) (rp_isOnline p)) <$> players.

Section RoomUpdaters.
Implicit Types (s : SocketState).

Definition createRoomEnteredState (data : RoomEnteredPayload) (countdownEndsAt : option Z) s
    : SocketState :=
  { s with
    st_match := None;
    st_cardState := createInitialCardState;
    st_topicVoting := None;
    st_lastAnswerResult := None;
    st_pendingAnswer := None;
    st_remainingCount := None;
    st_lastSeenSeqNo := 0;
    st_isEliminated := false;
    st_eliminationReason := None;
    st_room := Some (mkRoom (rj_roomId data) (rj_code data) (rj_roomStatus data) (rj_hostId data)
                       (rj_roomType data) (rj_maxPlayers data) (rj_currentMatchId data)
                       countdownEndsAt (mapSocketPlayers (rj_players data))
                       (default PLAYER (rj_joinedAs data))) }.

Definition applyRoomCreatedState (data : RoomEnteredPayload) s : SocketState :=
  createRoomEnteredState data None s.
Definition applyRoomJoinedState (data : RoomEnteredPayload) s : SocketState :=
  createRoomEnteredState data (rj_countdownEndsAt data) s.

(** The updaters of the room the client is in: [state.room?.id !== roomId]
    leaves the state as it is. *)
Definition on_room (roomId : jstr) (f : Room -> Room) s : SocketState :=
  match st_room s with
  | Some r => if bool_decide (rm_id r = roomId) then { s with st_room := Some (f r) } else s
  | None => s
  end.

Definition applyPlayerJoinedState (roomId playerId playerName : jstr) (isOnline : bool) s
    : SocketState :=
  on_room roomId (fun r =>
    { r with rm_players := if existsb (fun p => bool_decide (cp_id p = playerId)) (rm_players r)
        then (fun p => if bool_decide (cp_id p = playerId)
                       then { p with cp_name := playerName; cp_isOnline := isOnline } else p)
             <$> rm_players r
        else rm_players r ++ [new_room_player playerId playerName isOnline] }) s.

Definition applyPlayerLeftState (roomId playerId : jstr) s : SocketState :=
  on_room roomId (fun r => { r with rm_players ::= filter (fun p => cp_id p <> playerId) }) s.

Definition applyRoomStatusUpdatedState (roomId : jstr) (roomStatus : RoomStatus)
    (currentMatchId : option jstr) s : SocketState :=
  on_room roomId (fun r => { r with rm_status := roomStatus; rm_currentMatchId := currentMatchId;
                                    rm_countdownEndsAt := None }) s.

Definition applyRoomCountdownStartedState (roomId : jstr) (roomStatus : RoomStatus)
    (countdownEndsAt : Z) s : SocketState :=
  on_room roomId (fun r => { r with rm_status := roomStatus;
                                    rm_countdownEndsAt := Some countdownEndsAt }) s.

Definition applyRoomCountdownCancelledState (roomId : jstr) (roomStatus : RoomStatus) s
    : SocketState :=
  on_room roomId (fun r => { r with rm_status := roomStatus; rm_countdownEndsAt := None }) s.

Definition applyRoomPresenceUpdatedState (roomId playerId : jstr) (isOnline : bool) s
    : SocketState :=
  on_room roomId (fun r => { r with rm_players ::= fmap (fun p =>
    if bool_decide (cp_id p = playerId) then { p with cp_isOnline := isOnline } else p) }) s.

Definition applyRoomTerminatedState (message : option jstr) s : SocketState :=
  { s with
    st_room := None;
    st_match := None;
    st_topicVoting := None;
    st_lastSeenSeqNo := 0;
    st_cardState := createInitialCardState;
    st_remainingCount := None;
    st_lastAnswerResult := None;
    st_pendingAnswer := None;
    st_isEliminated := false;
    st_eliminationReason := None;
    st_roomTerminated := true;
    st_roomTerminationMessage := message }.

Definition applyMatchmakingStatusState (isQueued : bool) (queuedAt : option Z)
    (elapsedSeconds estimatedWaitSeconds playersInQueue : Z) s : SocketState :=
  { s with
    st_error ::= (fun e => if isQueued then None else e);
    st_matchmaking ::= (fun q => { q with
      mk_isQueued := isQueued; mk_queuedAt := queuedAt; mk_elapsedSeconds := elapsedSeconds;
      mk_estimatedWaitSeconds := estimatedWaitSeconds; mk_playersInQueue := playersInQueue }) }.

Definition applyMatchmakingMatchedState (roomCode roomId : jstr) (matchId : option jstr) s
    : SocketState :=
  let same := match truthy_str matchId with Some id => currentMatch id s | None => None end in
  let sameVoting := match truthy_str matchId with Some id => votingOf id s | None => None end in
  let isSame := bool_decide (is_Some same) in
  { s with
    st_match := match same, truthy_str matchId with
                | Some m, _ => Some m
                | None, Some id => Some (mkMatch id TOPIC_VOTING 0 (room_players s) None None)
                | None, None => None
                end;
    st_topicVoting := sameVoting;
    st_cardState := if isSame then st_cardState s else createInitialCardState;
    st_lastAnswerResult := if isSame then st_lastAnswerResult s else None;
    st_pendingAnswer := if isSame then st_pendingAnswer s else None;
    st_remainingCount := if isSame then st_remainingCount s else None;
    st_isEliminated := if isSame then st_isEliminated s else false;
    st_eliminationReason := if isSame then st_eliminationReason s else None;
    st_matchmaking := mkMatchmaking false None 0 0 (mk_playersInQueue (st_matchmaking s))
                        (Some roomCode) (Some roomId) matchId }.

(** ** auth.updaters.ts *)

Definition applyAuthenticatedState (userId username : jstr) s : SocketState :=
  { s with st_isAuthenticated := true; st_userId := Some userId; st_username := Some username }.

Definition applyUnauthorizedErrorState (errorMessage : option jstr) s : SocketState :=
  { s with
    st_socket := None;
    st_isConnected := false;
    st_isAuthenticated := false;
    st_accessToken := None;
    st_userRole := None;
    st_userId := None;
    st_username := None;
    st_room := None;
    st_match := None;
    st_cardState := createInitialCardState;
    st_topicVoting := None;
    st_remainingCount := None;
    st_lastAnswerResult := None;
    st_pendingAnswer := None;
    st_isEliminated := false;
    st_eliminationReason := None;
    st_heartbeatInterval := None;
    st_roomTerminated := false;
    st_roomTerminationMessage := None;
    st_lastSeenSeqNo := 0;
    st_matchmaking ::= (fun q => mkMatchmaking false None 0 0 0 (mk_matchedRoomCode q)
                                   (mk_matchedRoomId q) (mk_matchedMatchId q));
    st_error := errorMessage }.
End RoomUpdaters.
