(* ===== verification/ClientCardUpdaters.v ===== *)
(** * The card updaters of the web client

    [apps/web/src/stores/updaters/card.updaters.ts], and the result of an
    answer ([applyAnswerResultState] of match.updaters.ts), which may use up a
    second chance. *)

From S2P Require Import Prelude JsData Effects Shared Cards Prng CardEngine Scoring.
From S2P Require Import TieBreak TopicVoting ClassEngine Machine MachineCards Events ClientState ClientUpdaters.
#[local] Open Scope Z_scope.

(** [ClientEvent] (packages/shared/src/socket.ts): the names of the events a
    client sends. *)
Module ClientEvent.
Definition JOIN_ROOM : jstr := js "join_room".
Definition LEAVE_ROOM : jstr := js "leave_room".
Definition CREATE_ROOM : jstr := js "create_room".
Definition START_MATCH : jstr := js "start_match".
Definition SUBMIT_ANSWER : jstr := js "submit_answer".
Definition REQUEST_SNAPSHOT : jstr := js "request_snapshot".
Definition CARD_PICK : jstr := js "card_pick".
Definition CARD_PLAY : jstr := js "card_play".
Definition VOTE_BAN_TOPIC : jstr := js "vote_ban_topic".
Definition JOIN_MATCHMAKING : jstr := js "join_matchmaking".
Definition LEAVE_MATCHMAKING : jstr := js "leave_matchmaking".
End ClientEvent.

Definition getEffectId (eff : CardEffectEvent) : jstr :=
  match truthy_str (ee_eventId eff), truthy_str (ee_commandId eff) with
  | Some id, _ => id
  | None, Some id => id
  | None, None =>
      ee_matchId eff ++ js "-" ++ js_of_Z (ee_roundNo eff) ++ js "-" ++ card_str (ee_cardId eff)
        ++ js "-" ++ ee_playedByPlayerId eff ++ js "-" ++ js_of_Z (ee_offerSeqNo eff)
        ++ js "-" ++ js_of_Z (ee_serverTimestamp eff)
  end.

Definition is_second_chance (e : CardEffectEvent) : bool := bool_decide (ee_effect e = SECOND_CHANCE).

(** The effect is a second chance played by the player or on the player. *)
Definition second_chance_of (playerId : jstr) (e : CardEffectEvent) : bool :=
  (bool_decide (ee_playedByPlayerId e = playerId) || set_has playerId (ee_targetPlayerIds e))
  && is_second_chance e.

Definition grants (userId : jstr) (roundNo : Z) (e : CardEffectEvent) : bool :=
  second_chance_of userId e && (default (ee_roundNo e) (ee_targetRoundNo e) =? roundNo).

Definition hasSecondChance (cards : ClientCards) (userId : option jstr) (roundNo : Z) : bool :=
  match truthy_str userId with
  | None => false
  | Some userId =>
      if existsb (grants userId roundNo) (cc_activeRoundEffects cards) then true
      else match cc_lastResolvedEffect cards with
           | Some e => grants userId roundNo e
           | None => false
           end
  end.

(** [hasSecondChancePermission] of socket-store.helpers.ts. *)
Definition hasSecondChancePermission (cards : ClientCards) (userId : option jstr) (roundNo : Z)
    : bool :=
  match truthy_str userId with
  | None => false
  | Some userId =>
      let hasInActive := existsb (grants userId roundNo) (cc_activeRoundEffects cards) in
      let hasInLastResolved := match cc_lastResolvedEffect cards with
                               | Some e => grants userId roundNo e
                               | None => false
                               end in
      hasInActive || hasInLastResolved
  end.

Section CardUpdaters.
Implicit Types (s : SocketState).

Definition assign_class (assignmentMap : JsMap jstr ClassId) (p : Player) : Player :=
  match map_get (cp_id p) assignmentMap with
  | Some classId => { p with cp_classId := Some classId }
  | None => p
  end.

Definition applyClassAssignedState (matchId : jstr) (assignments : list ClassAssignment) s
    : SocketState :=
  if negb (bool_decide (truthy_str (activeMatchId s) = Some matchId)) then s
  else
    let assignmentMap :=
      foldl (fun m a => map_set (ca_playerId a) (ca_classId a) m) [] assignments in
    let ownClassId := or_else (truthy_str (st_userId s) ≫= fun id => map_get id assignmentMap)
                        (cc_classId (st_cardState s)) in
    { s with
      st_cardState ::= (fun c => { c with cc_classId := ownClassId });
      st_room ::= fmap (fun r => { r with rm_players ::= fmap (assign_class assignmentMap) });
      st_match ::= fmap (fun m => { m with mt_players ::= fmap (assign_class assignmentMap) }) }.

(** [state.userId && data.playerId !== state.userId] *)
Definition for_someone_else (playerId : jstr) s : bool :=
  match truthy_str (st_userId s) with
  | Some userId => negb (bool_decide (playerId = userId))
  | None => false
  end.

Definition applyCardOfferState (matchId : jstr) (roundNo : Z) (playerId : jstr)
    (offeredCardIds : list CardId) (offerSeqNo : Z) (seedUsed : jstr)
    (durationMs expiresAt : option Z) (now : Z) s : SocketState :=
  let current := cc_currentOffer (st_cardState s) in
  let older := match current with Some o => offerSeqNo <? of_offerSeqNo o | None => false end in
  if negb (bool_decide (activeMatchId s = Some matchId)) || for_someone_else playerId s || older
  then s
  else
    let kept := match current with
                | Some o => if (of_offerSeqNo o =? offerSeqNo) && negb (of_expiresAt o =? 0)
                            then Some (of_expiresAt o) else None
                | None => None
                end in
    let computed := match durationMs with
                    | Some d => if d =? 0 then now + GAME_CONFIG.CARD_OFFER_DURATION_MS else now + d
                    | None => now + GAME_CONFIG.CARD_OFFER_DURATION_MS
                    end in
    { s with st_cardState ::= (fun c => { c with cc_currentOffer :=
        Some (mkOfferState matchId roundNo offeredCardIds offerSeqNo seedUsed
                (default computed (or_else expiresAt kept))) }) }.

Definition add_card (cardId : CardId) (cards : list CardId) : list CardId :=
  if set_has cardId cards then cards else cards ++ [cardId].

Definition applyCardPickedState (matchId playerId : jstr) (selectedCardId : CardId)
    (offerSeqNo : Z) s : SocketState :=
  let stale := match cc_currentOffer (st_cardState s) with
               | Some o => negb (offerSeqNo =? of_offerSeqNo o)
               | None => false
               end in
  if negb (bool_decide (activeMatchId s = Some matchId)) || for_someone_else playerId s || stale
  then s
  else
    { s with st_cardState ::= (fun c => { c with
        cc_hand ::= add_card selectedCardId;
        cc_offerSeqNoByCardId ::= map_set selectedCardId offerSeqNo;
        cc_currentOffer := None }) }.

Definition applyCardResolvedState (data : CardEffectEvent) s : SocketState :=
  if negb (bool_decide (activeMatchId s = Some (ee_matchId data))) then s
  else
    let cards := st_cardState s in
    let isPlayedBySelf := match truthy_str (st_userId s) with
                          | Some userId => bool_decide (ee_playedByPlayerId data = userId)
                          | None => false
                          end in
    let nextPlayed := if isPlayedBySelf then add_card (ee_cardId data) (cc_playedCardIds cards)
                      else cc_playedCardIds cards in
    let currentRoundNo := default (ee_roundNo data) (mt_currentRoundNo <$> st_match s) in
    let isCurrentRound := default (ee_roundNo data) (ee_targetRoundNo data) <=? currentRoundNo in
    let effectId := getEffectId data in
    let known := existsb (fun e => bool_decide (getEffectId e = effectId)) in
    if set_has effectId (cc_consumedEffectIds cards) then
      { s with st_cardState := { cards with cc_playedCardIds := nextPlayed } }
    else if known (cc_activeRoundEffects cards) || known (cc_pendingNextRoundEffects cards) then
      { s with st_cardState := { cards with cc_playedCardIds := nextPlayed;
                                            cc_lastResolvedEffect := Some data } }
    else
      { s with st_cardState := { cards with
          cc_playedCardIds := nextPlayed;
          cc_lastResolvedEffect := Some data;
          cc_activeRoundEffects ::= (fun l => if isCurrentRound then l ++ [data] else l);
          cc_pendingNextRoundEffects ::= (fun l => if isCurrentRound then l else l ++ [data]) } }.

Definition applyConsumeSecondChance (playerId : option jstr) s : SocketState :=
  match truthy_str (or_else playerId (st_userId s)) with
  | None => s
  | Some targetId =>
      let cards := st_cardState s in
      let isTarget := second_chance_of targetId in
      let lastTarget := match cc_lastResolvedEffect cards with
                        | Some e => if isTarget e then Some e else None
                        | None => None
                        end in
      let consumed := (getEffectId <$> filter isTarget (cc_activeRoundEffects cards))
                      ++ match lastTarget with Some e => [getEffectId e] | None => [] end in
      { s with st_cardState := { cards with
          cc_activeRoundEffects := filter (fun e => negb (isTarget e)) (cc_activeRoundEffects cards);
          cc_lastResolvedEffect :=
            match lastTarget with Some _ => None | None => cc_lastResolvedEffect cards end;
          cc_consumedEffectIds := set_of_list (cc_consumedEffectIds cards ++ consumed) } }
  end.

(** ** Optimistic commands and their rollback *)

Definition applyOptimisticCardPick (cardId : CardId) (offerSeqNo : Z) s : SocketState :=
  { s with st_cardState ::= (fun c => { c with
      cc_hand ::= add_card cardId;
      cc_offerSeqNoByCardId ::= map_set cardId offerSeqNo;
      cc_currentOffer := None }) }.

Definition applyOptimisticCardPlay (cardId : CardId) s : SocketState :=
  { s with st_cardState ::= (fun c => { c with cc_playedCardIds ::= add_card cardId }) }.

Definition applySubmitAnswerErrorState (failedEvent : option jstr)
    (submissionId : option jstr) (saved : option PendingSecondChanceConsumption) s : SocketState :=
  match st_pendingAnswer s with
  | None => s
  | Some pending =>
      if negb (bool_decide (failedEvent = Some ClientEvent.SUBMIT_ANSWER))
         || negb (bool_decide (submissionId = Some (pa_submissionId pending)))
      then s
      else
        let restored :=
          match saved, truthy_str (activeMatchId s) with
          | Some sv, Some id => if bool_decide (sc_matchId sv = id) then Some (sc_cardState sv) else None
          | Some sv, None => Some (sc_cardState sv)
          | None, _ => None
          end in
        { s with st_pendingAnswer := None;
                 st_cardState ::= (fun c => default c restored) }
  end.

Definition applyCardCommandErrorState (failedEvent : option jstr) (commandId : option jstr)
    (pending : option PendingCardCommand) s : SocketState :=
  let card_event := bool_decide (failedEvent = Some ClientEvent.CARD_PICK)
                    || bool_decide (failedEvent = Some ClientEvent.CARD_PLAY) in
  match pending, truthy_str commandId with
  | Some cmd, Some _ =>
      if negb card_event || negb (bool_decide (activeMatchId s = Some (pk_matchId cmd))) then s
      else
        let cardId := pk_cardId cmd in
        match pk_kind cmd with
        | PICK addedToHand previousOffer =>
            let previous := match previousOffer with
                            | Some o => if bool_decide (of_matchId o = pk_matchId cmd) then Some o else None
                            | None => None
                            end in
            { s with st_cardState ::= (fun c => { c with
                cc_offerSeqNoByCardId ::= (fun m => if addedToHand then map_delete cardId m else m);
                cc_hand ::= (fun h => if addedToHand then filter (fun id => id <> cardId) h else h);
                cc_currentOffer ::= (fun o => or_else o previous) }) }
        | PLAY addedToPlayed =>
            { s with st_cardState ::= (fun c => { c with
                cc_playedCardIds ::= (fun l => if addedToPlayed then filter (fun id => id <> cardId) l
                                               else l) }) }
        end
  | _, _ => s
  end.

(** ** match.updaters.ts: the result of an answer *)

Record AnswerResultPayload := mkAnswerResult {
  ar_matchId : jstr;
  ar_roundNo : Z;
  ar_submissionId : option jstr;
  ar_isCorrect : option bool;
  ar_responseTimeMs : Z;
  ar_correctAnswer : option jstr;
}.

Definition applyAnswerResultState (data : AnswerResultPayload) s : SocketState :=
  if negb (bool_decide (activeMatchId s = Some (ar_matchId data))) then s
  else
    let own_pending :=
      match pending_of_round (ar_matchId data) (ar_roundNo data) (st_pendingAnswer s) with
      | Some p => if bool_decide (ar_submissionId data = Some (pa_submissionId p)) then Some p else None
      | None => None
      end in
    let prior :=
      match st_lastAnswerResult s with
      | Some r => if bool_decide (la_matchId r = ar_matchId data)
                     && bool_decide (la_roundNo r = ar_roundNo data) then Some r else None
      | None => None
      end in
    let submittedAnswer := match own_pending with
                           | Some p => Some (pa_answer p)
                           | None => prior ≫= la_submittedAnswer
                           end in
    let isRetry := match truthy_str (prior ≫= la_submissionId), truthy_str (ar_submissionId data) with
                   | Some a, Some b => negb (bool_decide (a = b))
                   | _, _ => false
                   end in
    let s' := if isRetry then applyConsumeSecondChance (st_userId s) s else s in
    { s' with
      st_lastAnswerResult :=
        Some (mkLastAnswer (ar_matchId data) (ar_roundNo data) (ar_submissionId data)
                (ar_isCorrect data) (Some (ar_responseTimeMs data)) (ar_correctAnswer data)
                submittedAnswer);
      st_pendingAnswer := match own_pending with Some _ => None | None => st_pendingAnswer s end }.
End CardUpdaters.
