(* ===== verification/ClientStore.v ===== *)
(** * The store of the web client

    [apps/web/src/stores/slices]: connection.slice.ts (the handlers of the
    server's messages), match.slice.ts, card.slice.ts and room.slice.ts.  A
    [Client] is the store, its module-level maps, the variables the connection
    closes over and what the socket was told to send.  The identifiers
    [generateId] returns are arguments. *)

From S2P Require Import Prelude JsData Effects Shared Cards Prng CardEngine Scoring.
From S2P Require Import TieBreak TopicVoting ClassEngine Machine MachineCards Events ClientState ClientUpdaters.
From S2P Require Import ClientCardUpdaters.
#[local] Open Scope Z_scope.

(** ** What arrives and what is sent *)

(** The [ServerEvent]s the connection listens to. *)
Inductive ServerMessage :=
| M_AUTHENTICATED (userId username : jstr)
| M_ROOM_CREATED (data : RoomEnteredPayload)
| M_ROOM_JOINED (data : RoomEnteredPayload)
| M_PLAYER_JOINED (roomId playerId playerName : jstr) (isOnline : bool)
| M_PLAYER_LEFT (roomId playerId : jstr)
| M_ROOM_STATUS_UPDATED (roomId : jstr) (roomStatus : RoomStatus) (currentMatchId : option jstr)
| M_ROOM_COUNTDOWN_STARTED (roomId : jstr) (roomStatus : RoomStatus) (countdownEndsAt : Z)
| M_ROOM_COUNTDOWN_CANCELLED (roomId : jstr) (roomStatus : RoomStatus)
| M_ROOM_PRESENCE_UPDATED (roomId playerId : jstr) (isOnline : bool)
| M_ROOM_TERMINATED (message : option jstr)
| M_TOPIC_VOTING_STARTED (matchId : jstr) (candidateTopics : list jstr) (endsAt durationMs : Z)
| M_TOPIC_VOTING_SUMMARY (matchId : jstr) (voteCounts : JsMap jstr Z) (totalVotes : Z)
| M_TOPIC_VOTING_FINISHED (matchId : jstr) (bannedTopics activeTopics : list jstr)
    (voteCounts : JsMap jstr Z)
| M_MATCHMAKING_STATUS (isQueued : bool) (queuedAt : option Z)
    (elapsedSeconds estimatedWaitSeconds playersInQueue : Z)
| M_MATCHMAKING_MATCHED (roomCode roomId : jstr) (matchId : option jstr)
| M_MATCH_STARTING (matchId : jstr)
| M_MATCH_STARTED (matchId : jstr) (status : MatchStatus)
| M_ROUND_STARTED (matchId : jstr) (roundNo : Z) (question : QuestionState) (endsAt : Z)
| M_ROUND_ENDED (data : RoundEndedData)
| M_PLAYER_ELIMINATED (matchId playerId : jstr) (reason : EliminationReason)
| M_MATCH_FINISHED (matchId : jstr)
| M_SNAPSHOT (data : SnapshotPayload)
| M_EVENT_BATCH (matchId : jstr) (events : list DeltaEvent)
| M_ANSWER_RESULT (data : AnswerResultPayload)
| M_CLASS_ASSIGNED (matchId : jstr) (assignments : list ClassAssignment)
| M_CARD_OFFER (matchId : jstr) (roundNo : Z) (playerId : jstr) (offeredCardIds : list CardId)
    (offerSeqNo : Z) (seedUsed : jstr) (durationMs expiresAt : option Z)
| M_CARD_PICKED (matchId playerId : jstr) (selectedCardId : CardId) (offerSeqNo : Z)
    (commandId : option jstr)
| M_CARD_RESOLVED (data : CardEffectEvent)
| M_CARD_RESOLVED_BATCH (effects : list CardEffectEvent)
| M_ERROR (code : ErrorCode) (message : jstr) (failedEvent submissionId commandId : option jstr).

Inductive ClientMessage :=
| C_VOTE_BAN_TOPIC (matchId topic commandId : jstr)
| C_SUBMIT_ANSWER (matchId : jstr) (roundNo : Z) (answer submissionId : jstr)
| C_REQUEST_SNAPSHOT (matchId : jstr) (lastSeenSeqNo : Z)
| C_CARD_PICK (matchId : jstr) (cardId : CardId) (offerSeqNo : Z) (commandId : jstr)
| C_CARD_PLAY (matchId : jstr) (cardId : CardId) (offerSeqNo : Z) (targetPlayerId : option jstr)
    (commandId : jstr)
| C_LEAVE_ROOM (roomId : jstr)
| C_START_MATCH (roomId : jstr)
| C_JOIN_MATCHMAKING (category : option jstr)
| C_LEAVE_MATCHMAKING.

(** The listeners [requestSnapshot] installs when it has a snapshot to fall
    back to: the socket, the match, the snapshot. *)
Record Fallback := mkFallback {
  fb_socket : Z;
  fb_matchId : jstr;
  fb_snapshot : SnapshotPayload;
}.

Record Client := mkClient {
  cl_state : SocketState;
  cl_maps : ClientMaps;
  cl_connected : bool;                              (* [socket.connected] *)
  cl_pendingSnapshotRequest : option (jstr * Z);
  cl_fallbacks : list Fallback;
  cl_sent : list ClientMessage;
}.

Section Store.
Implicit Types (c : Client).

Definition set (f : SocketState -> SocketState) c : Client := { c with cl_state ::= f }.
Definition on_maps (f : ClientMaps -> ClientMaps) c : Client := { c with cl_maps ::= f }.

(** [socket?.connected] *)
Definition socket_up c : bool := bool_decide (is_Some (st_socket (cl_state c))) && cl_connected c.

Definition emitIfConnected (msg : ClientMessage) c : Client :=
  if socket_up c then { c with cl_sent ::= fun sent => sent ++ [msg] } else c.

(** ** match.slice.ts *)

Definition voteBanTopic (matchId topic commandId : jstr) c : Client :=
  if negb (socket_up c) then c
  else
    emitIfConnected (C_VOTE_BAN_TOPIC matchId topic commandId)
      match votingOf matchId (cl_state c) with
      | None => c
      | Some v =>
          let maps := cl_maps c in
          let matchCmds := default [] (map_get matchId (pendingTopicVoteCommandsByMatch maps)) in
          let fresh := negb (map_has matchId (confirmedTopicVoteBaselineByMatch maps))
                       || bool_decide (matchCmds = []) in
          let maps' :=
            { maps with
              confirmedTopicVoteBaselineByMatch ::=
                (fun m => if fresh then map_set matchId (tvs_myVotedTopic v) m else m);
              pendingTopicVoteCommandsByMatch ::=
                map_set matchId (matchCmds ++ [mkPendingVote commandId matchId topic]) } in
          { c with
            cl_maps := maps';
            cl_state ::= (fun s => { s with st_topicVoting :=
              Some { v with tvs_myVotedTopic := getEffectiveTopicVote matchId maps' } }) }
      end.

Definition answered_before (matchId : jstr) (roundNo : Z) (s : SocketState) : bool :=
  bool_decide (is_Some (pending_of_round matchId roundNo (st_pendingAnswer s)))
  || match st_lastAnswerResult s with
     | Some r => bool_decide (la_matchId r = matchId) && bool_decide (la_roundNo r = roundNo)
     | None => false
     end.

Definition submitAnswer (matchId : jstr) (roundNo : Z) (answer submissionId : jstr) c
    : option jstr * Client :=
  if negb (socket_up c) then (None, c)
  else
    let s := cl_state c in
    let hasExistingSubmission := answered_before matchId roundNo s in
    if hasExistingSubmission && negb (hasSecondChance (st_cardState s) (st_userId s) roundNo)
    then (None, c)
    else
      let c1 := if hasExistingSubmission
                then on_maps (fun maps => { maps with consumedSecondChanceBySubmissionId ::=
                       map_set submissionId (mkPendingSecondChance matchId (st_cardState s)) }) c
                else c in
      let c2 := set (fun s =>
        let s' := if hasExistingSubmission then applyConsumeSecondChance (st_userId s) s else s in
        { s' with st_pendingAnswer :=
            Some (mkPendingAnswer matchId roundNo answer submissionId) }) c1 in
      (Some submissionId, emitIfConnected (C_SUBMIT_ANSWER matchId roundNo answer submissionId) c2).

Definition requestSnapshot (matchId : jstr) (lastSeenSeqNo : Z)
    (fallbackSnapshot : option SnapshotPayload) c : Client :=
  match st_socket (cl_state c) with
  | None => c
  | Some socket =>
      let c1 := emitIfConnected (C_REQUEST_SNAPSHOT matchId lastSeenSeqNo) c in
      match fallbackSnapshot with
      | None => c1
      | Some snapshot =>
          { c1 with cl_fallbacks ::= fun l => l ++ [mkFallback socket matchId snapshot] }
      end
  end.

(** [applyFallback]: the listeners are taken off; the snapshot is hydrated if
    the socket is still the store's and the match still the one shown. *)
Definition applyFallback (fb : Fallback) c : Client :=
  if bool_decide (st_socket (cl_state c) = Some (fb_socket fb))
     && bool_decide (mt_id <$> st_match (cl_state c) = Some (fb_matchId fb))
  then set (applySnapshotState (fb_snapshot fb)) c else c.

(** The timer of the listeners at a position fires. *)
Definition fallback_timeout (i : nat) c : Client :=
  match cl_fallbacks c !! i with
  | None => c
  | Some fb => applyFallback fb { c with cl_fallbacks ::= delete i }
  end.

(** [handleMatchEvent] on EVENT_BATCH and SNAPSHOT. *)
Definition fallbacks_answered (socket : Z) (matchId : jstr) c : Client :=
  { c with cl_fallbacks ::= filter (fun fb => ~ (fb_socket fb = socket /\ fb_matchId fb = matchId)) }.

(** [handleError], [handleDisconnect]: every listener of the socket falls back. *)
Definition fallbacks_failed (socket : Z) c : Client :=
  let '(mine, others) := (filter (fun fb => fb_socket fb = socket) (cl_fallbacks c),
                          filter (fun fb => fb_socket fb <> socket) (cl_fallbacks c)) in
  foldl (fun c fb => applyFallback fb c) { c with cl_fallbacks := others } mine.

(** ** card.slice.ts *)

Definition pickCard (cardId : CardId) (offerSeqNo : Z) (commandId : jstr) c : Client :=
  if offerSeqNo <=? 0 then c
  else match truthy_str (activeMatchId (cl_state c)) with
       | None => c
       | Some matchId =>
           if negb (socket_up c) then c
           else
             let cards := st_cardState (cl_state c) in
             let cmd := mkPendingCard commandId matchId cardId offerSeqNo
                          (PICK (negb (set_has cardId (cc_hand cards))) (cc_currentOffer cards)) in
             emitIfConnected (C_CARD_PICK matchId cardId offerSeqNo commandId)
               (set (applyOptimisticCardPick cardId offerSeqNo)
                  (on_maps (fun maps => { maps with pendingCardCommands ::= map_set commandId cmd }) c))
       end.

Definition playCard (cardId : CardId) (offerSeqNo : Z) (targetPlayerId : option jstr)
    (commandId : jstr) c : Client :=
  if offerSeqNo <=? 0 then c
  else match truthy_str (activeMatchId (cl_state c)) with
       | None => c
       | Some matchId =>
           if negb (socket_up c) then c
           else
             let cards := st_cardState (cl_state c) in
             let cmd := mkPendingCard commandId matchId cardId offerSeqNo
                          (PLAY (negb (set_has cardId (cc_playedCardIds cards)))) in
             emitIfConnected (C_CARD_PLAY matchId cardId offerSeqNo (truthy_str targetPlayerId) commandId)
               (set (applyOptimisticCardPlay cardId)
                  (on_maps (fun maps => { maps with pendingCardCommands ::= map_set commandId cmd }) c))
       end.

Definition dismissCardOffer c : Client :=
  set (fun s => { s with st_cardState ::= fun k => { k with cc_currentOffer := None } }) c.
Definition clearResolvedCardEffect c : Client :=
  set (fun s => { s with st_cardState ::= fun k => { k with cc_lastResolvedEffect := None } }) c.
Definition consumeSecondChance (playerId : option jstr) c : Client :=
  set (applyConsumeSecondChance playerId) c.

(** ** room.slice.ts *)

Definition getMatchLeavingResetState (s : SocketState) : SocketState :=
  { s with
    st_room := None;
    st_match := None;
    st_cardState := createInitialCardState;
    st_topicVoting := None;
    st_lastAnswerResult := None;
    st_pendingAnswer := None;
    st_remainingCount := None;
    st_lastSeenSeqNo := 0;
    st_isEliminated := false;
    st_eliminationReason := None;
    st_roomTerminated := false;
    st_roomTerminationMessage := None }.

Definition clear_all_maps c : Client :=
  on_maps (fun maps => clearCardCommandState None (clearTopicVoteState None maps)) c.

Definition leaveRoom (roomId : jstr) c : Client :=
  set getMatchLeavingResetState (emitIfConnected (C_LEAVE_ROOM roomId) (clear_all_maps c)).

Definition startMatch (roomId : jstr) c : Client := emitIfConnected (C_START_MATCH roomId) c.

Definition joinMatchmaking (category : option jstr) c : Client :=
  if negb (socket_up c)
  then set (fun s => { s with st_error := Some (js "Socket is not connected") }) c
  else
    emitIfConnected
      (C_JOIN_MATCHMAKING (match truthy_str category with
                           | Some k => if bool_decide (k = js "ALL") then None else Some k
                           | None => None
                           end))
      (set getMatchLeavingResetState (clear_all_maps c)).

Definition leaveMatchmaking c : Client :=
  set (fun s => { s with st_cardState := createInitialCardState;
                         st_matchmaking := mkMatchmaking false None 0 0 0 None None None })
    (emitIfConnected C_LEAVE_MATCHMAKING (clear_all_maps c)).

Definition clearMatchmakingMatched c : Client :=
  set (fun s => { s with st_matchmaking ::= fun q =>
    { q with mk_matchedRoomCode := None; mk_matchedRoomId := None; mk_matchedMatchId := None } }) c.

(** ** connection.slice.ts *)

(** [const matchId = match?.id ?? room?.currentMatchId] *)
Definition shownMatchId (s : SocketState) : option jstr :=
  or_else (mt_id <$> st_match s) (st_room s ≫= rm_currentMatchId).

Definition onAuthenticated (userId username : jstr) c : Client :=
  let c1 := set (applyAuthenticatedState userId username) c in
  { c1 with cl_pendingSnapshotRequest :=
      (fun matchId => (matchId, st_lastSeenSeqNo (cl_state c1)))
        <$> truthy_str (shownMatchId (cl_state c1)) }.

(** A snapshot that answers a reconnection keeps the old cursor, and the events
    since then are asked for. *)
Definition onSnapshot (data : SnapshotPayload) c : Client :=
  let c1 := { c with cl_pendingSnapshotRequest := None } in
  match cl_pendingSnapshotRequest c with
  | Some (matchId, lastSeenSeqNo) =>
      if bool_decide (matchId = sy_matchId data) then
        requestSnapshot matchId lastSeenSeqNo (Some data)
          (set (fun s => { applySnapshotState data s with st_lastSeenSeqNo := st_lastSeenSeqNo s }) c1)
      else set (applySnapshotState data) c1
  | None => set (applySnapshotState data) c1
  end.

Definition onRoundEnded (data : RoundEndedData) c : Client :=
  let priorForThisRound :=
    match st_lastAnswerResult (cl_state c) with
    | Some r => if bool_decide (la_matchId r = re_matchId data)
                   && bool_decide (la_roundNo r = re_roundNo data) then Some r else None
    | None => None
    end in
  set (applyRoundEndedState data priorForThisRound) c.

Definition onPlayerEliminated (matchId playerId : jstr) (reason : EliminationReason) c : Client :=
  if negb (bool_decide (activeMatchId (cl_state c) = Some matchId)) then c
  else
    let c1 := if bool_decide (st_userId (cl_state c) = Some playerId)
              then set (fun s => { s with st_isEliminated := true;
                                          st_eliminationReason := Some reason }) c
              else c in
    set (applyPlayerEliminatedState playerId) c1.

Definition onAnswerResult (data : AnswerResultPayload) c : Client :=
  set (applyAnswerResultState data)
    match truthy_str (ar_submissionId data) with
    | Some id => on_maps (fun maps => { maps with
                   consumedSecondChanceBySubmissionId ::= map_delete id }) c
    | None => c
    end.

Definition onCardPicked (matchId playerId : jstr) (selectedCardId : CardId) (offerSeqNo : Z)
    (commandId : option jstr) c : Client :=
  set (applyCardPickedState matchId playerId selectedCardId offerSeqNo)
    (if bool_decide (st_userId (cl_state c) = Some playerId)
     then on_maps (resolvePendingCardCommand true matchId selectedCardId commandId) c else c).

Definition settle_play (data : CardEffectEvent) : ClientMaps -> ClientMaps :=
  resolvePendingCardCommand false (ee_matchId data) (ee_cardId data) (ee_commandId data).

Definition onCardResolved (data : CardEffectEvent) c : Client :=
  set (applyCardResolvedState data)
    (if bool_decide (st_userId (cl_state c) = Some (ee_playedByPlayerId data))
     then on_maps (settle_play data) c else c).

Definition onCardResolvedBatch (effects : list CardEffectEvent) c : Client :=
  let own effect := bool_decide (st_userId (cl_state c) = Some (ee_playedByPlayerId effect))
                    && bool_decide (activeMatchId (cl_state c) = Some (ee_matchId effect)) in
  set (fun s => foldl (fun s effect => applyCardResolvedState effect s) s effects)
    (on_maps (fun maps => foldl (fun maps effect => if own effect then settle_play effect maps else maps)
                            maps effects) c).

(** [newSocket.disconnect()] once the store has let go of the socket: a
    connected socket emits ["disconnect"] at once, which only the listeners of
    [requestSnapshot] act on. *)
Definition close_socket (socket : Z) c : Client :=
  if cl_connected c then fallbacks_failed socket { c with cl_connected := false } else c.

Definition onError (socket : Z) (code : ErrorCode) (message : jstr)
    (failedEvent submissionId commandId : option jstr) c : Client :=
  let maps := cl_maps c in
  let c1 :=
    if bool_decide (failedEvent = Some ClientEvent.SUBMIT_ANSWER) then
      let id := truthy_str submissionId in
      let saved := id ≫= fun id => map_get id (consumedSecondChanceBySubmissionId maps) in
      set (applySubmitAnswerErrorState failedEvent submissionId saved)
        (on_maps (fun maps => match id with
                              | Some id => { maps with
                                  consumedSecondChanceBySubmissionId ::= map_delete id }
                              | None => maps
                              end) c)
    else if bool_decide (failedEvent = Some ClientEvent.CARD_PICK)
            || bool_decide (failedEvent = Some ClientEvent.CARD_PLAY) then
      let id := truthy_str commandId in
      let pending := id ≫= fun id => map_get id (pendingCardCommands maps) in
      set (applyCardCommandErrorState failedEvent commandId pending)
        (on_maps (fun maps => match id with
                              | Some id => { maps with pendingCardCommands ::= map_delete id }
                              | None => maps
                              end) c)
    else if bool_decide (failedEvent = Some ClientEvent.VOTE_BAN_TOPIC) then
      match truthy_str commandId with
      | Some id =>
          let '((matchId, recomputedTopic), maps') := removePendingTopicVoteCommand id maps in
          set (applyTopicVoteErrorState matchId recomputedTopic) (on_maps (fun _ => maps') c)
      | None => c
      end
    else c in
  let c2 :=
    if bool_decide (code = INVALID_TOKEN) || bool_decide (code = UNAUTHORIZED)
    then close_socket socket (set (applyUnauthorizedErrorState (Some message)) c1) else c1 in
  if bool_decide (failedEvent = Some ClientEvent.REQUEST_SNAPSHOT)
  then fallbacks_failed socket c2 else c2.

(** The handler of every message; [if (get().socket !== newSocket) return]
    guards each of them.  [now] is [Date.now()]. *)
Definition on_server (socket now : Z) (msg : ServerMessage) c : Client :=
  if negb (bool_decide (st_socket (cl_state c) = Some socket)) then c
  else match msg with
  | M_AUTHENTICATED userId username => onAuthenticated userId username c
  | M_ROOM_CREATED data => set (applyRoomCreatedState data) c
  | M_ROOM_JOINED data => set (applyRoomJoinedState data) c
  | M_PLAYER_JOINED roomId playerId playerName isOnline =>
      set (applyPlayerJoinedState roomId playerId playerName isOnline) c
  | M_PLAYER_LEFT roomId playerId => set (applyPlayerLeftState roomId playerId) c
  | M_ROOM_STATUS_UPDATED roomId roomStatus currentMatchId =>
      set (applyRoomStatusUpdatedState roomId roomStatus currentMatchId) c
  | M_ROOM_COUNTDOWN_STARTED roomId roomStatus countdownEndsAt =>
      set (applyRoomCountdownStartedState roomId roomStatus countdownEndsAt) c
  | M_ROOM_COUNTDOWN_CANCELLED roomId roomStatus =>
      set (applyRoomCountdownCancelledState roomId roomStatus) c
  | M_ROOM_PRESENCE_UPDATED roomId playerId isOnline =>
      set (applyRoomPresenceUpdatedState roomId playerId isOnline) c
  | M_ROOM_TERMINATED message =>
      set (applyRoomTerminatedState message) (on_maps (clearCardCommandState None) c)
  | M_TOPIC_VOTING_STARTED matchId candidateTopics endsAt durationMs =>
      set (applyTopicVotingStartedState matchId candidateTopics endsAt durationMs)
        (on_maps (clearTopicVoteState (Some matchId)) c)
  | M_TOPIC_VOTING_SUMMARY matchId voteCounts totalVotes =>
      set (applyTopicVotingSummaryState matchId voteCounts totalVotes) c
  | M_TOPIC_VOTING_FINISHED matchId bannedTopics activeTopics voteCounts =>
      set (applyTopicVotingFinishedState matchId bannedTopics activeTopics voteCounts)
        (on_maps (clearTopicVoteState (Some matchId)) c)
  | M_MATCHMAKING_STATUS isQueued queuedAt elapsed wait queue =>
      set (applyMatchmakingStatusState isQueued queuedAt elapsed wait queue) c
  | M_MATCHMAKING_MATCHED roomCode roomId matchId =>
      set (applyMatchmakingMatchedState roomCode roomId matchId) c
  | M_MATCH_STARTING matchId =>
      set (applyMatchStartingState matchId) (on_maps (clearCardCommandState None) c)
  | M_MATCH_STARTED matchId status => set (applyMatchStartedState matchId status) c
  | M_ROUND_STARTED matchId roundNo question endsAt =>
      set (applyRoundStartedState matchId roundNo question endsAt) c
  | M_ROUND_ENDED data => onRoundEnded data c
  | M_PLAYER_ELIMINATED matchId playerId reason => onPlayerEliminated matchId playerId reason c
  | M_MATCH_FINISHED matchId => set (applyMatchFinishedState matchId) c
  | M_SNAPSHOT data =>
      (* the listeners added while an event is emitted do not hear that event *)
      let answered := fallbacks_answered socket (sy_matchId data) c in
      { onSnapshot data c with cl_fallbacks ::= fun l =>
          cl_fallbacks answered ++ drop (length (cl_fallbacks c)) l }
  | M_EVENT_BATCH matchId events =>
      fallbacks_answered socket matchId (set (applyEventBatchState matchId events) c)
  | M_ANSWER_RESULT data => onAnswerResult data c
  | M_CLASS_ASSIGNED matchId assignments => set (applyClassAssignedState matchId assignments) c
  | M_CARD_OFFER matchId roundNo playerId offered offerSeqNo seedUsed durationMs expiresAt =>
      set (applyCardOfferState matchId roundNo playerId offered offerSeqNo seedUsed durationMs
             expiresAt now) c
  | M_CARD_PICKED matchId playerId selectedCardId offerSeqNo commandId =>
      onCardPicked matchId playerId selectedCardId offerSeqNo commandId c
  | M_CARD_RESOLVED data => onCardResolved data c
  | M_CARD_RESOLVED_BATCH effects => onCardResolvedBatch effects c
  | M_ERROR code message failedEvent submissionId commandId =>
      onError socket code message failedEvent submissionId commandId c
  end.

Definition idle_queue (q : MatchmakingState) : MatchmakingState :=
  { q with mk_isQueued := false; mk_queuedAt := None; mk_elapsedSeconds := 0;
           mk_estimatedWaitSeconds := 0; mk_playersInQueue := 0 }.

(** ["connect"]: the first time, [connect] itself sends the token. *)
Definition on_connect (socket : Z) c : Client :=
  if negb (bool_decide (st_socket (cl_state c) = Some socket)) then c
  else set (fun s => { s with st_isConnected := true; st_error := None })
         { c with cl_connected := true }.

(** ["disconnect"]: the connection is lost. *)
Definition on_disconnect (socket : Z) c : Client :=
  if negb (bool_decide (st_socket (cl_state c) = Some socket))
  then fallbacks_failed socket c
  else
    fallbacks_failed socket
      (set (fun s => { s with st_isConnected := false; st_isAuthenticated := false;
                              st_pendingAnswer := None; st_heartbeatInterval := None;
                              st_matchmaking ::= idle_queue })
         { c with cl_connected := false }).

(** [disconnect()], called by the application. *)
Definition disconnect c : Client :=
  match st_socket (cl_state c) with
  | None => c
  | Some socket =>
      set (fun s => { s with
        st_socket := None; st_isConnected := false; st_isAuthenticated := false;
        st_userId := None; st_username := None; st_accessToken := None; st_userRole := None;
        st_room := None; st_match := None; st_topicVoting := None; st_remainingCount := None;
        st_lastAnswerResult := None; st_pendingAnswer := None; st_heartbeatInterval := None;
        st_roomTerminated := false; st_roomTerminationMessage := None;
        st_matchmaking ::= idle_queue; st_lastSeenSeqNo := 0 })
        (if cl_connected c then on_disconnect socket (clear_all_maps c) else clear_all_maps c)
  end.
End Store.
