(* ===== verification/LogView.v ===== *)
(** * What the event log shows of a match

    The part of a match that a replay of its log rebuilds ([View]), as a fold of
    the log, and the agreement of that fold with the state of the machine at
    every point of a match.  A fold may start from what a snapshot showed and
    may run again over events the snapshot already contains. *)

From S2P Require Import Prelude JsData Effects Shared Cards Prng CardEngine Scoring.
From S2P Require Import TieBreak TopicVoting ClassEngine Machine MachineCards MachineOps MachineRounds.
From S2P Require Import Events ClientState ClientUpdaters.
#[local] Open Scope Z_scope.

(** ** The fold *)

Record View := mkView {
  v_status : MatchStatus;
  v_roundNo : Z;
  v_question : option QuestionState;
  v_endsAt : option Z;
  v_out : list jstr;
}.

Definition view_step (v : View) (e : EventPayload) : View :=
  match parse_replay e with
  | Some (R_STATE_TRANSITION _ to) => { v with v_status := to }
  | Some (R_ROUND_STARTED roundNo _ question endsAt) =>
      { v with v_status := ROUND_ACTIVE; v_roundNo := roundNo; v_question := Some question;
               v_endsAt := Some endsAt }
  | Some (R_ROUND_EVALUATED _ _ _ _ eliminatedIds) =>
      { v with v_status := ROUND_RESULT; v_endsAt := None;
               v_out ::= fun out => out ++ eliminatedIds }
  | Some (R_MATCH_FINISHED _ _) => { v with v_status := FINISHED; v_endsAt := None }
  | _ => v
  end.

Definition replay_view (v : View) (es : list Event) : View := foldl view_step v (ev_payload <$> es).

(** The fold of the events from a position of the log on. *)
Definition view_since (v : View) (k : nat) (log : list Event) : View := replay_view v (drop k log).

Lemma view_since_snoc v k log p t n :
  (k <= length log)%nat -> view_since v k (log ++ [mkEvent p t n]) = view_step (view_since v k log) p.
Proof.
  intros Hk. unfold view_since, replay_view. rewrite drop_app_le by done.
  by rewrite fmap_app, foldl_app.
Qed.

(** ** Callers *)

(** How the server drives a match: a round is evaluated once, after the match
    left ROUND_ACTIVE; the match is marked finished before its winner is; a
    question has an id and a round does not end before the epoch. *)
Definition paced (m : Machine) (op : Op) : Prop :=
  match op with
  | OEvaluateRound => ms_status (m_state m) = ROUND_EVALUATING /\ evaluate_once m op
  | OFinishMatch => ms_status (m_state m) = FINISHED
  | OStartRound q d => qi_id q <> [] /\ 0 <= default GAME_CONFIG.ROUND_DURATION_MS d
  | _ => True
  end.

Lemma paced_evaluate_once m op : paced m op -> evaluate_once m op.
Proof. destruct op; try done. by intros []. Qed.

Lemma reachable_weaken Init (A A' : Machine -> Op -> Prop) m :
  (forall m op, A m op -> A' m op) -> reachable Init A m -> reachable Init A' m.
Proof. intros H Hr. induction Hr; [by apply reach_init|apply reach_step; auto]. Qed.

(** What makes the events of a round parse. *)
Definition round_parses (m : Machine) : Prop :=
  0 <= ms_currentRoundNo (m_state m)
  /\ forall r, m_round m = Some r -> 1 <= rd_roundNo r /\ is_Some (rd_correctAnswer r).

Lemma round_parses_after op m c : round_parses m -> round_parses (after op m c).
Proof.
  unfold round_parses. intros [H0 H]. run_op op; state_simpl; chase_players; try (by split).
  all: (split; [lia|]); intros r' Hr'; try discriminate.
  all: try (injection Hr' as <-; cbn; split; [lia|by eexists]).
  all: destruct (m_round m) as [r0|] eqn:Hr; try discriminate.
  all: simplify_option_eq; repeat case_match; simplify_eq; cbn; 
    destruct (H _ eq_refl); split; try done; by eexists.
Qed.

(** ** Agreement with the machine *)

(** What a message about the round says. *)
Definition round_view (m : Machine) : option (QuestionState * Z) :=
  (fun r => (rd_question r, rd_endsAt r)) <$> m_round m.

(** While a round is evaluated the replay already shows its result. *)
Definition shows_fields (m : Machine) (v : View) : Prop :=
  (v_status v = ms_status (m_state m)
   \/ v_status v = ROUND_RESULT /\ ms_status (m_state m) = ROUND_EVALUATING)
  /\ v_roundNo v = ms_currentRoundNo (m_state m)
  /\ forall q endsAt, round_view m = Some (q, endsAt) ->
       v_question v = Some q
       /\ (ms_status (m_state m) = ROUND_ACTIVE -> v_endsAt v = Some endsAt).

Lemma shows_fields_same m m' v :
  ms_status (m_state m') = ms_status (m_state m) ->
  ms_currentRoundNo (m_state m') = ms_currentRoundNo (m_state m) ->
  round_view m' = round_view m -> shows_fields m v -> shows_fields m' v.
Proof. unfold shows_fields. by intros -> -> ->. Qed.

Lemma positive_true n : 0 < n -> positive n = true.
Proof. unfold positive. by rewrite Z.ltb_lt. Qed.
Lemma nonnegative_true n : 0 <= n -> nonnegative n = true.
Proof. unfold nonnegative. by rewrite Z.leb_le. Qed.
Lemma min1_true s : s <> [] -> min1 s = true.
Proof. intros H. unfold min1. by rewrite bool_decide_eq_false_2. Qed.

Lemma view_step_started v roundNo q endsAt :
  0 < roundNo -> qi_id q <> [] -> 0 <= endsAt ->
  view_step v (E_ROUND_STARTED roundNo (qi_id q) (clientQuestion q) endsAt)
  = { v with v_status := ROUND_ACTIVE; v_roundNo := roundNo; v_question := Some (clientQuestion q);
             v_endsAt := Some endsAt }.
Proof.
  intros Hn Hq He. unfold view_step, parse_replay.
  by rewrite positive_true, min1_true, (min1_true (q_id _)), nonnegative_true.
Qed.

Lemma view_step_evaluated v roundNo correct ids (n1 n2 : nat) :
  1 <= roundNo -> is_Some correct ->
  view_step v (E_ROUND_EVALUATED roundNo correct (Z.of_nat n1) (Z.of_nat n2) ids)
  = { v with v_status := ROUND_RESULT; v_endsAt := None; v_out ::= fun out => out ++ ids }.
Proof.
  intros Hn [a ->]. unfold view_step, parse_replay.
  by rewrite positive_true, !nonnegative_true by lia.
Qed.

(** The events a replay skips. *)
Definition unseen (e : EventPayload) : bool :=
  match e with
  | E_STATE_TRANSITION _ _ | E_ROUND_STARTED _ _ _ _ | E_ROUND_EVALUATED _ _ _ _ _
  | E_MATCH_FINISHED _ _ => false
  | _ => true
  end.

Lemma view_step_unseen v e : unseen e = true -> view_step v e = v.
Proof.
  destruct e; intros H; try discriminate; unfold view_step; cbn;
    try done; unfold refine; by repeat (case_match; simplify_eq).
Qed.

Lemma view_step_finished v w n :
  view_step v (E_MATCH_FINISHED w n) = v
  \/ view_step v (E_MATCH_FINISHED w n) = { v with v_status := FINISHED; v_endsAt := None }.
Proof. unfold view_step. cbn. unfold refine.
  destruct (_ && _); [by right|by left]. Qed.

Lemma shows_fields_finished m v w n :
  ms_status (m_state m) = FINISHED -> shows_fields m v ->
  shows_fields m (view_step v (E_MATCH_FINISHED w n)).
Proof.
  intros Hf (Hst & Hno & Hq).
  destruct (view_step_finished v w n) as [->| ->]; [done|]. split_and!; cbn; [by left|done|].
  intros q e He. split; [by apply (Hq q e)|congruence].
Qed.

Lemma shows_fields_evaluated m m' r roundNo ids (n1 n2 : nat) v :
  1 <= roundNo -> is_Some (rd_correctAnswer r) ->
  ms_status (m_state m) = ROUND_EVALUATING ->
  ms_status (m_state m') = ms_status (m_state m) ->
  ms_currentRoundNo (m_state m') = ms_currentRoundNo (m_state m) ->
  round_view m' = round_view m -> shows_fields m v ->
  shows_fields m' (view_step v
    (E_ROUND_EVALUATED roundNo (rd_correctAnswer r) (Z.of_nat n1) (Z.of_nat n2) ids)).
Proof.
  intros Hn Hc Hev Hst Hno Hq (_ & Hno' & Hq'). rewrite view_step_evaluated by done.
  unfold shows_fields. rewrite Hst, Hno, Hq. cbn. split_and!; [by right|done|].
  intros q e He. split; [by apply (Hq' q e)|congruence].
Qed.

(** An evaluation in a match whose roster is in order: it either finds nobody to
    judge and throws at the frozen array, or logs its verdict. *)
Lemma after_evaluate m c : after OEvaluateRound m c = run_state evaluateRound m c.
Proof.
  unfold after, exec, discard, run_state, bind. by destruct (evaluateRound m c) as [[[] ?] ?].
Qed.

Lemma evaluate_cases ids m c :
  roster_ok ids m -> rd_status <$> m_round m = Some RACTIVE ->
  exists r, m_round m = Some r
  /\ (run_state evaluateRound m c
      = on_state (set_standing [] (ms_eliminatedPlayerIds (m_state m)))
          (on_round (rd_set_status EVALUATING) m)
      /\ round_starting m r = []
     \/ run_state evaluateRound m c = evaluated_machine m r (clock_tick c).1
      /\ round_starting m r = ms_survivingPlayerIds (m_state m)).
Proof.
  intros H Hop. destruct (m_round m) as [r|] eqn:Hr; [|done]. injection Hop as Ha.
  exists r. split; [done|]. pose proof (roster_ok_starting ids m r H Hr Ha) as Hs.
  destruct H as (_ & _ & Hf). destruct (m_elimFrozen m) eqn:Hfr.
  - left. assert (He : round_starting m r = []) by (rewrite Hs; by apply Hf).
    split; [by apply (evaluateRound_frozen_state m c r)|done].
  - right. unfold run_state. by rewrite (evaluateRound_run m c r Hr Hfr).
Qed.

Section Fields.
Context (v0 : View) (k : nat).

Definition view_at (m : Machine) : View := view_since v0 k (m_log m).

Lemma shows_fields_evaluate ids m c :
  (k <= length (m_log m))%nat -> ms_status (m_state m) = ROUND_EVALUATING ->
  rd_status <$> m_round m = Some RACTIVE -> roster_ok ids m -> round_parses m ->
  shows_fields m (view_at m) ->
  shows_fields (after OEvaluateRound m c) (view_at (after OEvaluateRound m c)).
Proof.
  intros Hk Hst Hop Hro [Hn Hr] Hs. rewrite after_evaluate.
  destruct (evaluate_cases ids m c Hro Hop) as (r & Hrd & [[-> _]|(-> & _)]).
  - unfold view_at. state_simpl. eapply shows_fields_same; [..|exact Hs]; try done.
    unfold round_view. state_simpl. by rewrite Hrd.
  - unfold view_at, evaluated_machine. state_simpl. rewrite view_since_snoc by done.
    destruct (Hr r Hrd). eapply shows_fields_evaluated; [..|exact Hs]; try done.
    unfold round_view. state_simpl. by rewrite Hrd.
Qed.

Lemma shows_fields_after ids op m c :
  (k <= length (m_log m))%nat -> paced m op -> clock_in_range c -> roster_ok ids m ->
  round_parses m -> shows_fields m (view_at m) -> shows_fields (after op m c) (view_at (after op m c)).
Proof.
  intros Hk Hp Hc Hro [Hn Hr]. set (v := view_at m). assert (Hv : view_at m = v) by done.
  clearbody v. intros Hs. destruct op; cbn [paced] in Hp.
  4: { apply (shows_fields_evaluate ids); [done|by apply Hp..|done|done|by rewrite Hv]. }
  all: unfold_ops; run; state_simpl.
  all: unfold view_at in *; state_simpl; rewrite ?view_since_snoc by (rewrite ?length_app; lia).
  all: rewrite ?Hv, ?(view_step_unseen _ (E_TIE_BREAK _ _)), ?view_step_unseen by reflexivity.
  all: try apply shows_fields_finished; try (eapply shows_fields_same; [..|exact Hs]).
  all: try (unfold round_view; state_simpl; chase_players; first
    [reflexivity|assumption|by destruct (m_round m)|destruct (m_round m) as [r0|]; [cbn; by case_match|done]]).
  all: destruct Hs as (Hst & Hno & Hq).
  (* a transition moves the status on both sides *)
  all: try (split_and!; [by left|exact Hno|]; intros q e Hqe; state_simpl; first
    [discriminate|split; [by apply (Hq q e)|intros Hbad; discriminate Hbad]]).
  (* a round starts *)
  bool_to_prop. destruct Hp as [Hid Hd]. pose proof (Hc (clock_ticks c)).
  rewrite view_step_started by (try done; lia). split_and!; cbn; [by left|done|].
  intros q e [= <- <-]. done.
Qed.
End Fields.

(** ** Who is out *)

(** A status moves to WINNER, or among those of players still in. *)
Definition standing_step (st st' : PlayerStatus) : Prop :=
  st' = st \/ st' = WINNER \/ (st <> ELIMINATED /\ st <> WINNER /\ st' <> ELIMINATED).

#[export] Instance standing_step_PreOrder : PreOrder standing_step.
Proof. unfold standing_step. split; [intros s; by left|intros s1 s2 s3; intuition congruence]. Qed.

Definition same_out (ps ps' : JsMap jstr PlayerInfo) : Prop :=
  forall q : jstr, option_relation standing_step (fun _ => False) (fun _ => False)
    (pl_status <$> map_get q ps) (pl_status <$> map_get q ps').

Lemma same_out_refl ps : same_out ps ps.
Proof. intros q. destruct (map_get q ps); cbn; [reflexivity|done]. Qed.

Lemma same_out_set (ps0 ps : JsMap jstr PlayerInfo) (p : jstr) pl f :
  same_out ps0 ps -> map_get p ps = Some pl -> standing_step (pl_status pl) (pl_status (f pl)) ->
  same_out ps0 (map_set p (f pl) ps).
Proof.
  intros H Hp Hf q. destruct (decide (q = p)) as [->|Hne].
  - rewrite map_get_set_eq. specialize (H p). rewrite Hp in H.
    destruct (map_get p ps0); cbn in *; [by etransitivity|done].
  - rewrite map_get_set_ne by done. apply H.
Qed.

Lemma same_out_after op m c :
  evaluates op = false -> same_out (ms_players (m_state m)) (ms_players (m_state (after op m c))).
Proof.
  intros Hop. destruct op; try discriminate; unfold_ops; run; state_simpl; chase_players;
    try apply same_out_refl; bool_to_prop.
  all: repeat first
    [ apply same_out_refl
    | eapply (same_out_set _ _ _ _ (pl_set_status _)); [|eassumption|]
    | eapply (same_out_set _ _ _ _ (pl_set_online _)); [|eassumption|by left]
    | eapply (same_out_set _ _ _ _ (pl_set_status _)); [|apply map_get_set_eq|] ].
  all: unfold standing_step; cbn; by intuition congruence.
Qed.

Lemma v_out_step v e :
  (forall no a n1 n2 ids, e <> E_ROUND_EVALUATED no a n1 n2 ids) -> v_out (view_step v e) = v_out v.
Proof.
  intros H. unfold view_step. destruct e; try reflexivity; cbn; unfold refine;
    try (by repeat (case_match; simplify_eq)). by destruct (H roundNo correctAnswer survivingCount eliminatedCount eliminatedIds).
Qed.

(** [gone] are the players a snapshot showed as eliminated.  A player who won
    after being eliminated stays among those the log names. *)
Definition shows_out (gone : jstr -> Prop) (m : Machine) (v : View) : Prop :=
  forall p player, map_get p (ms_players (m_state m)) = Some player ->
    (pl_status player = ELIMINATED -> gone p \/ p ∈ v_out v)
    /\ (gone p \/ p ∈ v_out v -> pl_status player = ELIMINATED \/ pl_status player = WINNER).

Lemma shows_out_same gone m m' v v' :
  same_out (ms_players (m_state m)) (ms_players (m_state m')) -> v_out v' = v_out v ->
  shows_out gone m v -> shows_out gone m' v'.
Proof.
  intros Hs Hv H p player' Hp. specialize (Hs p). rewrite Hp in Hs. rewrite Hv.
  destruct (map_get p (ms_players (m_state m))) as [player|] eqn:E; [|done]. cbn in Hs.
  destruct (H p player E) as [H1 H2]. unfold standing_step in Hs.
  split; intros Hx; [apply H1|specialize (H2 Hx)]; intuition congruence.
Qed.

Lemma elem_eliminated_by m r p : p ∈ eliminated_by m r -> p ∈ round_starting m r.
Proof. rewrite eliminated_by_eq, list_elem_of_filter. by intros []. Qed.

Lemma shows_out_evaluated gone m m' r v v' :
  NoDup (round_starting m r) ->
  ms_players (m_state m') = foldl (evaluate_one (rd_answers r) (eliminated_by m r))
                              (ms_players (m_state m)) (round_starting m r) ->
  v_out v' = v_out v ++ eliminated_by m r ->
  shows_out gone m v -> shows_out gone m' v'.
Proof.
  intros Hd Hps Hv H p player' Hp. rewrite Hps, evaluate_loop_get in Hp by done. rewrite Hv.
  destruct (map_get p (ms_players (m_state m))) as [player|] eqn:E.
  2: { by destruct (decide _). }
  destruct (H p player E) as [H1 H2]. rewrite elem_of_app.
  assert (Hcase : p ∈ eliminated_by m r /\ pl_status player' = ELIMINATED
                  \/ (p ∉ eliminated_by m r) /\ pl_status player' = pl_status player).
  { destruct (decide (p ∈ round_starting m r)) as [Hin|Hin]; cbn in Hp; injection Hp as <-.
    - unfold evaluated. destruct (set_has p (eliminated_by m r)) eqn:Es.
      + apply set_has_spec in Es. by left.
      + right. split; [by rewrite <- set_has_spec, Es|]. by case_match.
    - right. split; [|done]. by intros ?%elem_eliminated_by. }
  destruct Hcase as [[Hin ->]|[Hni ->]]; [by auto|]. split; [intuition|]. intros Hx. apply H2.
  by intuition.
Qed.

Definition server_ok (ids : list jstr) (m : Machine) : Prop := roster_ok ids m /\ round_parses m.

Lemma server_ok_after ids op m c : paced m op -> server_ok ids m -> server_ok ids (after op m c).
Proof.
  intros Hp [Hr Hq]. split; [|by apply round_parses_after].
  apply roster_ok_after; [done|by apply paced_evaluate_once].
Qed.

Lemma v_out_after v0 k op m c :
  evaluates op = false -> (k <= length (m_log m))%nat ->
  v_out (view_at v0 k (after op m c)) = v_out (view_at v0 k m).
Proof.
  intros Hop Hk. unfold view_at. destruct op; try discriminate; unfold_ops; run; state_simpl;
    rewrite ?view_since_snoc by (rewrite ?length_app; lia); by rewrite ?v_out_step.
Qed.

Lemma shows_out_after ids gone v0 k op m c :
  NoDup ids -> (k <= length (m_log m))%nat -> paced m op -> server_ok ids m ->
  shows_out gone m (view_at v0 k m) -> shows_out gone (after op m c) (view_at v0 k (after op m c)).
Proof.
  intros Hd Hk Hp [Hro [Hn Hr]] Hs. destruct (evaluates op) eqn:Hev.
  2: { eapply shows_out_same; [by apply same_out_after|by apply v_out_after|done]. }
  destruct op; try discriminate. destruct Hp as [_ Hop]. rewrite after_evaluate.
  destruct (evaluate_cases ids m c Hro Hop) as (r & Hrd & [[-> _]|[-> Hst]]).
  - eapply shows_out_same; [apply same_out_refl|reflexivity|exact Hs].
  - destruct (Hr r Hrd). apply (shows_out_evaluated gone m _ r (view_at v0 k m)); try done.
    + rewrite Hst. destruct Hro as (Hperm & _). rewrite <- Hperm in Hd.
      by apply NoDup_app in Hd as (? & _).
    + unfold view_at, evaluated_machine. state_simpl. rewrite view_since_snoc by done.
      by rewrite view_step_evaluated.
Qed.

Definition shows (gone : jstr -> Prop) (m : Machine) (v : View) : Prop :=
  shows_fields m v /\ shows_out gone m v.

Lemma log_length_after op m c : (length (m_log m) <= length (m_log (after op m c)))%nat.
Proof. destruct (log_extends_after op m c) as [l ->]. rewrite length_app. lia. Qed.

(** A fold that shows the match at one point shows it at every later one. *)
Lemma shows_reachable ids gone v0 k m m' :
  NoDup ids -> (k <= length (m_log m))%nat -> server_ok ids m -> shows gone m (view_at v0 k m) ->
  reachable (eq m) paced m' ->
  shows gone m' (view_at v0 k m') /\ server_ok ids m' /\ (k <= length (m_log m'))%nat.
Proof.
  intros Hd Hk Hok Hs. revert m'. apply (reachable_inv _ _ (fun m' =>
    shows gone m' (view_at v0 k m') /\ server_ok ids m' /\ (k <= length (m_log m'))%nat));
    [by intros ? <-|].
  intros m0 op c ([Hs1 Hs2] & Hok0 & Hk0) Hp Hc. pose proof (log_length_after op m0 c).
  split_and!; [|by apply server_ok_after|lia]. destruct Hok0 as [Hro Hrp]. split.
  - by apply (shows_fields_after v0 k ids).
  - by apply (shows_out_after ids).
Qed.

(** ** A fold that starts from a snapshot *)

Definition initial_view : View := mkView CREATED 0 None None [].

Definition snapshot_view (m : Machine) : View :=
  mkView (ms_status (m_state m)) (ms_currentRoundNo (m_state m)) (rd_question <$> m_round m)
    (rd_endsAt <$> m_round m) [].

Definition snapshot_gone (m : Machine) (p : jstr) : Prop :=
  pl_status <$> map_get p (ms_players (m_state m)) = Some ELIMINATED.

(** Folding the end of a log from any start gives, field by field, the start's
    value or that of the fold of the whole log. *)
Definition field_of (v0 v1 v : View) : Prop :=
  (v_status v = v_status v0 \/ v_status v = v_status v1)
  /\ (v_roundNo v = v_roundNo v0 \/ v_roundNo v = v_roundNo v1)
  /\ (v_question v = v_question v0 \/ v_question v = v_question v1)
  /\ (v_endsAt v = v_endsAt v0 \/ v_endsAt v = v_endsAt v1).

Lemma field_of_step v0 v1 v e :
  field_of v0 v1 v -> field_of v0 (view_step v1 e) (view_step v e).
Proof.
  unfold field_of, view_step. destruct (parse_replay e) as [[]|]; cbn; tauto.
Qed.

Lemma field_of_replay v0 v1 es : field_of v0 (replay_view v1 es) (replay_view v0 es).
Proof.
  unfold replay_view. assert (H : forall v, field_of v0 v1 v ->
    field_of v0 (foldl view_step v1 (ev_payload <$> es)) (foldl view_step v (ev_payload <$> es))).
  { revert v1. induction es as [|e es IH]; intros v1 v Hv; [done|]. cbn.
    apply IH. by apply field_of_step. }
  apply H. unfold field_of. tauto.
Qed.

Lemma v_out_mono v es p : p ∈ v_out v -> p ∈ v_out (replay_view v es).
Proof.
  unfold replay_view. revert v. induction es as [|e es IH]; intros v Hp; [done|]. cbn. apply IH.
  unfold view_step. destruct (parse_replay (ev_payload e)) as [[]|]; cbn; try done. rewrite elem_of_app. by left.
Qed.

Lemma v_out_replay v1 es p : p ∈ v_out (replay_view v1 es) <-> p ∈ v_out v1 \/ p ∈ v_out (replay_view initial_view es).
Proof.
  assert (H : forall v0, v_out v0 = [] ->
    p ∈ v_out (replay_view v1 es) <-> p ∈ v_out v1 \/ p ∈ v_out (replay_view v0 es)); [|by apply H].
  unfold replay_view. intros v0 Hv0.
  assert (Hgen : forall a b (P : Prop), (p ∈ v_out a <-> P \/ p ∈ v_out b) ->
    p ∈ v_out (foldl view_step a (ev_payload <$> es))
    <-> P \/ p ∈ v_out (foldl view_step b (ev_payload <$> es))).
  { induction es as [|e es IH]; intros a b P Hab; [done|]. cbn. apply IH.
    unfold view_step. destruct (parse_replay (ev_payload e)) as [[]|]; cbn; try done.
    rewrite !elem_of_app, Hab. tauto. }
  apply Hgen. rewrite Hv0. set_solver.
Qed.

(** The view of a snapshot, after a replay of events it may already contain,
    still shows the match the snapshot was taken of. *)
Lemma shows_snapshot ids m0 m k :
  NoDup ids -> m_log m0 = [] -> m_round m0 = None -> ms_status (m_state m0) = CREATED ->
  ms_currentRoundNo (m_state m0) = 0 -> server_ok ids m0 -> reachable (eq m0) paced m ->
  shows (snapshot_gone m) m (view_at (snapshot_view m) k m).
Proof.
  intros Hd Hlog Hround Hst Hno Hok Hr.
  assert (Hinit : shows (snapshot_gone m0) m0 (view_at initial_view 0 m0)).
  { unfold view_at, view_since. rewrite Hlog. split.
    - split_and!; cbn; [by left|done|]. unfold round_view. by rewrite Hround.
    - intros p player Hp. unfold snapshot_gone. rewrite Hp. cbn. split; [intros ->; by left|].
      intros [[= ->]|Hin]; [by left|by apply elem_of_nil in Hin]. }
  destruct (shows_reachable ids _ initial_view 0 m0 m Hd ltac:(lia) Hok Hinit Hr) as ([Hf Ho] & _).
  unfold view_at, view_since in *. rewrite drop_0 in *.
  set (D := replay_view initial_view (m_log m)) in *. split.
  - pose proof (field_of_replay (snapshot_view m) (replay_view initial_view (take k (m_log m)))
      (drop k (m_log m))) as Hfo.
    replace (replay_view (replay_view initial_view _) _) with D in Hfo.
    2: { unfold D, replay_view. rewrite <- foldl_app, <- fmap_app. by rewrite take_drop. }
    set (v := replay_view (snapshot_view m) _) in *. clearbody v D.
    destruct Hf as (H1 & H2 & H3). destruct Hfo as (F1 & F2 & F3 & F4). cbn in F1, F2, F3, F4.
    split_and!.
    + destruct F1 as [->|F1]; [by left|rewrite F1; exact H1].
    + destruct F2 as [->|F2]; [done|by rewrite F2].
    + intros q e He. destruct (H3 q e He) as [G1 G2]. unfold round_view in He.
      destruct (m_round m) as [r|]; [|done]. injection He as <- <-. split.
      * destruct F3 as [->|F3]; [done|by rewrite F3].
      * intros Ha. destruct F4 as [->|F4]; [done|rewrite F4; by apply G2].
  - intros p player Hp. unfold snapshot_gone. rewrite Hp. cbn. split; [intros ->; by left|].
    intros [[= ->]|Hin]; [by left|]. apply (Ho p player Hp). right.
    unfold D, replay_view. rewrite <- (take_drop k (m_log m)), fmap_app, foldl_app.
    fold (replay_view initial_view (take k (m_log m))).
    fold (replay_view (replay_view initial_view (take k (m_log m))) (drop k (m_log m))).
    rewrite v_out_replay. right. apply v_out_replay in Hin as [Hin|Hin]; [|done].
    by apply elem_of_nil in Hin.
Qed.

(** A snapshot at one point of a match, a replay of the log from any earlier
    position up to a later point: what is shown is the later match. *)
Lemma snapshot_then_delta ids m0 m m' k :
  NoDup ids -> m_log m0 = [] -> m_round m0 = None -> ms_status (m_state m0) = CREATED ->
  ms_currentRoundNo (m_state m0) = 0 -> server_ok ids m0 -> reachable (eq m0) paced m ->
  (k <= length (m_log m))%nat -> reachable (eq m) paced m' ->
  shows (snapshot_gone m) m' (view_at (snapshot_view m) k m').
Proof.
  intros Hd Hlog Hround Hst Hno Hok Hr Hk Hr'.
  eapply (shows_reachable ids); [done|exact Hk| |by apply (shows_snapshot ids m0)|done].
  revert Hr. apply reachable_inv; [by intros ? <-|]. intros m1 op c H1 Hp _. by apply server_ok_after.
Qed.
