(* ===== verification/ClientReplay.v ===== *)
(** * A client that reconnects shows the match

    [handleRequestSnapshot] of gateways/handlers/match.handler.ts decides what a
    client that asks for a match gets: the events after its cursor or a whole
    snapshot.  The replay of the events by the client's store is a refinement
    of the fold of LogView, so what the client shows afterwards is the match. *)

From S2P Require Import Prelude JsData Effects Shared Cards Prng CardEngine Scoring.
From S2P Require Import TieBreak TopicVoting ClassEngine Machine MachineCards MachineOps MachineRounds.
From S2P Require Import Events ClientState ClientUpdaters ClientCardUpdaters ClientStore LogView.
#[local] Open Scope Z_scope.

(** ** The reply to REQUEST_SNAPSHOT *)

(** A snapshot as a message. *)
Definition wire_player (p : PlayerInfo) : SnapshotPlayer :=
  mkSnapshotPlayer (pl_id p) (pl_name p) (player_status_str (pl_status p)) (pl_score p)
    (Some (pl_isOnline p)).

Definition wire_snapshot (sn : Snapshot) : SnapshotPayload :=
  mkSnapshotPayload (sn_matchId sn) (match_status_str (sn_status sn)) (sn_currentRoundNo sn)
    (Some (wire_player <$> sn_players sn)) (sn_currentQuestion sn) (sn_roundEndTime sn)
    (sn_lastEventSeqNo sn) (sn_candidateTopics sn) (sn_voteCounts sn) (sn_phaseEndsAt sn)
    (sn_bannedTopics sn) (sn_activeTopics sn).

(** The events after the cursor when the log still has all of them, else the
    whole state with the head of the log. *)
Definition canDelta (stateMachine : Machine) (cursor : Z) : bool :=
  let head := getHeadSeqNo stateMachine in
  let floor := getFloorSeqNo stateMachine in
  (0 <? cursor) && (0 <? head) && (floor <=? cursor) && (cursor <=? head).

Definition snapshot_reply (stateMachine : Machine) (matchId : jstr) (cursor : Z) : ServerMessage :=
  if canDelta stateMachine cursor then M_EVENT_BATCH matchId (getDelta stateMachine cursor)
  else M_SNAPSHOT (wire_snapshot (getSnapshot stateMachine (getHeadSeqNo stateMachine))).

(** ** The client's replay refines the fold of the log *)

Definition out_player (out : list jstr) (p : Player) : Player :=
  if set_has (cp_id p) out then { p with cp_status := ELIMINATED } else p.

Definition match_of_view (matchId : jstr) (base : list Player) (v : View) : Match :=
  mkMatch matchId (v_status v) (v_roundNo v) (out_player (v_out v) <$> base) (v_question v)
    (v_endsAt v).

Definition in_match (matchId : jstr) (o : option Room) : Prop :=
  forall r, o = Some r -> rm_currentMatchId r = Some matchId.

Lemma active_of matchId o m s :
  in_match matchId o -> mt_id m = matchId -> st_room s = o -> st_match s = Some m ->
  activeMatchId s = Some matchId.
Proof.
  intros Ho Hm Hr Hs. unfold activeMatchId. rewrite Hr, Hs. destruct o as [r|]; cbn.
  - by rewrite (Ho r eq_refl).
  - by rewrite Hm.
Qed.

Lemma ended_players matchId roundNo correct n (base : list Player) out ids :
  ended_player (mkRoundEnded matchId roundNo correct ids n None) <$> (out_player out <$> base)
  = out_player (out ++ ids) <$> base.
Proof.
  rewrite <- list_fmap_compose. apply list_fmap_ext. intros i p _. unfold compose, ended_player, out_player.
  cbn [re_eliminatedPlayerIds re_survivingPlayerIds].
  assert (Hid : cp_id (if set_has (cp_id p) out then { p with cp_status := ELIMINATED } else p) = cp_id p)
    by by destruct (set_has _ _).
  rewrite Hid. destruct (set_has (cp_id p) (out ++ ids)) eqn:E.
  - apply set_has_spec, elem_of_app in E as [E|E]; apply set_has_spec in E; rewrite E.
    + by destruct (set_has _ ids).
    + by destruct (set_has _ out).
  - assert (H : cp_id p ∉ out ++ ids) by by rewrite <- set_has_spec, E.
    rewrite elem_of_app in H. unfold set_has.
    by rewrite !bool_decide_eq_false_2 by tauto.
Qed.

(** The accumulator shows a view of the match. *)
Definition acc_shows (matchId : jstr) (base : list Player) (acc : ReplayAccumulator) (v : View) : Prop :=
  ra_match acc = match_of_view matchId base v /\ in_match matchId (ra_room acc).

Lemma fold_refines matchId base acc v e event :
  acc_shows matchId base acc v -> parse_replay e = Some event ->
  acc_shows matchId base (foldReplayEvent matchId acc event) (view_step v e).
Proof.
  intros [Hm Hroom] Hp. unfold view_step. rewrite Hp.
  assert (Hact : activeMatchId (synthState acc) = Some matchId).
  { apply (active_of _ (ra_room acc) (ra_match acc)); try done. by rewrite Hm. }
  assert (Hcur : currentMatch matchId (synthState acc) = Some (match_of_view matchId base v)).
  { unfold currentMatch. cbn. rewrite Hm. by rewrite bool_decide_eq_true_2. }
  destruct event; cbn [foldReplayEvent]; try by split.
  - split; [|done]. cbn. by rewrite Hm.
  - unfold applyRoundStartedState. rewrite Hact, bool_decide_eq_true_2 by done. cbn [negb].
    rewrite Hcur. by split.
  - unfold applyRoundEndedState. cbn [re_matchId]. rewrite Hact, bool_decide_eq_true_2 by done.
    cbn [negb]. unfold basePlayers. rewrite Hcur. split; [|done]. cbn.
    unfold match_of_view. cbn.
    rewrite <- (ended_players matchId roundNo (Some correctAnswer) (Some survivingCount)). reflexivity.
  - unfold applyMatchFinishedState. rewrite Hact, bool_decide_eq_true_2 by done. cbn [negb].
    rewrite Hcur. split; [done|]. cbn. intros r Hr. destruct (ra_room acc) as [r0|]; [|done].
    injection Hr as <-. exact (Hroom r0 eq_refl).
Qed.

Lemma replay_refines matchId base es :
  forall acc v cursor,
  acc_shows matchId base acc v ->
  ev_seqNo <$> es = seqZ (cursor + 1) (Z.of_nat (length es)) ->
  let r := foldl (replay_event matchId) (acc, cursor) es in
  acc_shows matchId base r.1 (replay_view v es) /\ r.2 = cursor + Z.of_nat (length es).
Proof.
  induction es as [|e es IH]; intros acc v cursor Hs Hseq; cbn zeta.
  - cbn. split; [done|lia].
  - cbn [length fmap list_fmap] in Hseq. rewrite seqZ_cons in Hseq by lia. injection Hseq as He Hseq.
    cbn [foldl]. unfold replay_event at 2 4. rewrite (proj2 (Z.leb_gt _ _)) by lia. rewrite He.
    assert (Hn : Z.pred (Z.of_nat (S (length es))) = Z.of_nat (length es)) by lia.
    rewrite Hn in Hseq. replace (Z.succ (cursor + 1)) with (cursor + 1 + 1) in Hseq by lia.
    unfold replay_view. cbn [fmap list_fmap foldl]. fold (replay_view (view_step v (ev_payload e)) es).
    destruct (parse_replay (ev_payload e)) as [event|] eqn:Hp.
    + destruct (IH _ (view_step v (ev_payload e)) _ (fold_refines _ _ _ _ _ _ Hs Hp) Hseq) as [H1 H2].
      split; [exact H1|]. rewrite H2. cbn [length]. lia.
    + replace (view_step v (ev_payload e)) with v by (unfold view_step; by rewrite Hp).
      destruct (IH _ v _ Hs Hseq) as [H1 H2]. split; [exact H1|]. rewrite H2. cbn [length]. lia.
Qed.

(** ** Hydration *)

Lemma normalizeMatchStatus_str status : normalizeMatchStatus (match_status_str status) = Some status.
Proof. by destruct status; vm_compute. Qed.

Lemma normalizePlayerStatus_str status : normalizePlayerStatus (player_status_str status) = Some status.
Proof. by destruct status; vm_compute. Qed.

Definition shown_player (p : PlayerInfo) : Player :=
  mkClientPlayer (pl_id p) (pl_name p) (pl_status p) (pl_score p) (pl_isOnline p) None None.

Lemma hydrate_wire p : hydrate_player (wire_player p) = Some (shown_player p).
Proof. unfold hydrate_player. cbn [wire_player sp_status]. by rewrite normalizePlayerStatus_str. Qed.

Lemma hydrate_players (l : list PlayerInfo) :
  mapM hydrate_player (wire_player <$> l) = Some (shown_player <$> l).
Proof.
  induction l as [|p l IH]; [done|].
  cbn [fmap list_fmap mapM]. rewrite hydrate_wire. cbn. by rewrite IH.
Qed.

Definition roster_shown (m : Machine) : list Player := shown_player <$> (ms_players (m_state m)).*2.

Lemma out_player_nil (l : list Player) : out_player [] <$> l = l.
Proof.
  rewrite <- (list_fmap_id l) at 2. apply list_fmap_ext. intros i p _. reflexivity.
Qed.

Lemma snapshot_hydrated m n s :
  let s' := applySnapshotState (wire_snapshot (getSnapshot m n)) s in
  st_match s' = Some (match_of_view (ms_id (m_state m)) (roster_shown m) (snapshot_view m))
  /\ in_match (ms_id (m_state m)) (st_room s')
  /\ st_lastSeenSeqNo s' = n /\ st_userId s' = st_userId s /\ st_socket s' = st_socket s
  /\ (forall u, truthy_str (st_userId s) = Some u ->
      st_isEliminated s' = match find_player u (roster_shown m) with
                           | Some p => is_eliminated p
                           | None => false
                           end).
Proof.
  cbn zeta. unfold applySnapshotState. cbn [wire_snapshot sy_status sy_players sn_status sn_players getSnapshot].
  rewrite normalizeMatchStatus_str. cbn [mbind option_bind]. rewrite hydrate_players. cbn.
  split_and!; try done.
  - unfold match_of_view, snapshot_view. cbn. by rewrite out_player_nil.
  - intros r Hr. destruct (st_room s); [|done]. by injection Hr as <-.
  - by intros u ->.
Qed.

(** ** What the client shows of a match *)

(** The server's players are stored under their ids, once each. *)
Definition keyed (m : Machine) : Prop :=
  map_wf (ms_players (m_state m))
  /\ forall p player, map_get p (ms_players (m_state m)) = Some player -> pl_id player = p.

(** While the round is evaluated the client may show its result already; the
    winner's row is left open, since a winner is announced, not replayed. *)
Definition client_shows (m : Machine) (mt : Match) : Prop :=
  mt_id mt = ms_id (m_state m)
  /\ (mt_status mt = ms_status (m_state m)
      \/ mt_status mt = ROUND_RESULT /\ ms_status (m_state m) = ROUND_EVALUATING)
  /\ mt_currentRoundNo mt = ms_currentRoundNo (m_state m)
  /\ (forall r, m_round m = Some r ->
        mt_currentQuestion mt = Some (rd_question r)
        /\ (ms_status (m_state m) = ROUND_ACTIVE -> mt_roundEndTime mt = Some (rd_endsAt r)))
  /\ cp_id <$> mt_players mt = (ms_players (m_state m)).*1
  /\ forall p player, p ∈ mt_players mt ->
       map_get (cp_id p) (ms_players (m_state m)) = Some player -> pl_status player <> WINNER ->
       (cp_status p = ELIMINATED <-> pl_status player = ELIMINATED).

Lemma keyed_ids m : keyed m -> cp_id <$> roster_shown m = (ms_players (m_state m)).*1.
Proof.
  intros [Hwf Hk]. unfold roster_shown. rewrite <- !list_fmap_compose. apply list_fmap_ext.
  intros i [k pl] Hi. cbn. apply Hk, map_get_elem; [done|]. by eapply list_elem_of_lookup_2.
Qed.

Lemma roster_shown_elem m p :
  keyed m -> p ∈ roster_shown m ->
  exists pl, map_get (cp_id p) (ms_players (m_state m)) = Some pl /\ p = shown_player pl.
Proof.
  intros [Hwf Hk] (pl & -> & Hpl)%list_elem_of_fmap.
  apply list_elem_of_fmap in Hpl as ([k pl'] & -> & Hin). cbn. exists pl'. split; [|done].
  apply map_get_elem in Hin; [|done]. by rewrite (Hk k pl' Hin).
Qed.

(** A view that shows a later match, over the roster of an earlier snapshot. *)
Lemma view_shows_match m m' v :
  keyed m -> (ms_players (m_state m')).*1 = (ms_players (m_state m)).*1 ->
  ms_id (m_state m') = ms_id (m_state m) -> shows (snapshot_gone m) m' v ->
  client_shows m' (match_of_view (ms_id (m_state m)) (roster_shown m) v).
Proof.
  intros Hk Hkeys Hid [(H1 & H2 & H3) Ho]. split_and!; cbn; try done.
  - intros r Hr. apply (H3 (rd_question r) (rd_endsAt r)). unfold round_view. by rewrite Hr.
  - rewrite Hkeys, <- keyed_ids by done. rewrite <- list_fmap_compose. apply list_fmap_ext.
    intros i p _. unfold compose, out_player. by destruct (set_has _ _).
  - intros p player (p0 & -> & Hp0)%list_elem_of_fmap Hget Hnw.
    destruct (roster_shown_elem m p0 Hk Hp0) as (pl & Hpl & ->).
    assert (Hcp : cp_id (out_player (v_out v) (shown_player pl)) = cp_id (shown_player pl))
      by (unfold out_player; by destruct (set_has _ _)).
    rewrite Hcp in Hget. destruct (Ho _ player Hget) as [Ho1 Ho2]. unfold snapshot_gone in Ho1, Ho2.
    rewrite Hpl in Ho1, Ho2. cbn in Ho1, Ho2.
    unfold out_player. destruct (set_has (cp_id (shown_player pl)) (v_out v)) eqn:E; cbn.
    + apply set_has_spec in E. cbn in E. split; [intros _|done]. destruct (Ho2 (or_intror E)); [done|by destruct Hnw].
    + assert (Hni : pl_id pl ∉ v_out v) by (rewrite <- set_has_spec; cbn in E; by rewrite E).
      split; intros Hs.
      * destruct Ho2; [left; by f_equal|done|by destruct Hnw].
      * destruct Ho1 as [Ho1|Ho1]; [done|by injection Ho1|done].
Qed.

(** ** The roster never changes *)

Definition same_ids (ps ps' : JsMap jstr PlayerInfo) : Prop :=
  forall q : jstr, pl_id <$> map_get q ps' = pl_id <$> map_get q ps.

Lemma same_ids_set (ps0 ps : JsMap jstr PlayerInfo) (p : jstr) pl f :
  same_ids ps0 ps -> map_get p ps = Some pl -> pl_id (f pl) = pl_id pl ->
  same_ids ps0 (map_set p (f pl) ps).
Proof.
  intros H Hp Hf q. rewrite <- H. destruct (decide (q = p)) as [->|Hne].
  - rewrite map_get_set_eq, Hp. cbn. by rewrite Hf.
  - by rewrite map_get_set_ne.
Qed.

Lemma same_ids_evaluate answers elim l ps : same_ids ps (foldl (evaluate_one answers elim) ps l).
Proof.
  assert (H : forall ps', same_ids ps ps' -> same_ids ps (foldl (evaluate_one answers elim) ps' l)).
  { induction l as [|p l IH]; intros ps' Hs; [done|]. cbn. apply IH. intros q.
    rewrite evaluate_one_get. destruct (decide _); [|apply Hs]. rewrite <- Hs.
    destruct (map_get q ps'); [|done]. cbn. f_equal. unfold evaluated. by repeat case_match. }
  by apply H.
Qed.

Lemma same_ids_after op m c : same_ids (ms_players (m_state m)) (ms_players (m_state (after op m c))).
Proof.
  destruct op; unfold_ops; run; state_simpl; chase_players; rewrite ?evaluate_loop in *; simplify_eq;
    try apply same_ids_evaluate.
  all: repeat first
    [ by intros q
    | eapply (same_ids_set _ _ _ _ (pl_set_status _)); [|eassumption|reflexivity]
    | eapply (same_ids_set _ _ _ _ (pl_set_online _)); [|eassumption|reflexivity]
    | eapply (same_ids_set _ _ _ _ (pl_set_status _)); [|apply map_get_set_eq|reflexivity] ].
Qed.

Lemma match_id_after op m c : ms_id (m_state (after op m c)) = ms_id (m_state m).
Proof. destruct op; unfold_ops; run; state_simpl; chase_players; reflexivity. Qed.

Lemma roster_kept m m' :
  reachable (eq m) paced m' ->
  (ms_players (m_state m')).*1 = (ms_players (m_state m)).*1
  /\ ms_id (m_state m') = ms_id (m_state m)
  /\ same_ids (ms_players (m_state m)) (ms_players (m_state m')).
Proof.
  revert m'. apply (reachable_inv _ _ (fun m' => _)); [by intros ? <-|].
  intros m0 op c (H1 & H2 & H3) _ _. rewrite players_keys_after, match_id_after.
  split_and!; [done|done|]. intros q. by rewrite (same_ids_after op m0 c q).
Qed.

Lemma keyed_new matchId roomId players :
  NoDup (pl_id <$> players) -> keyed (new_machine matchId roomId players).
Proof.
  intros Hd. unfold keyed. cbn. rewrite map_of_entries_id.
  2: { unfold map_wf. by rewrite <- list_fmap_compose. }
  split; [unfold map_wf; by rewrite <- list_fmap_compose|].
  intros p player Hp%map_get_Some_elem. apply list_elem_of_fmap in Hp as (x & [= -> ->] & _). done.
Qed.

Lemma keyed_kept m m' : reachable (eq m) paced m' -> keyed m -> keyed m'.
Proof.
  intros (Hk & _ & Hs)%roster_kept [Hwf Hid]. split; [unfold map_wf; by rewrite Hk|].
  intros p player Hp. specialize (Hs p). rewrite Hp in Hs. cbn in Hs.
  destruct (map_get p (ms_players (m_state m))) eqn:E; [|done]. injection Hs as Hs.
  rewrite Hs. by apply Hid.
Qed.

Lemma server_ok_new matchId roomId players :
  server_ok (pl_id <$> players) (new_machine matchId roomId players).
Proof.
  split; [apply (roster_ok_reachable matchId roomId), reach_init; done|]. by split.
Qed.

(** ** The reply to a reconnected client *)

Lemma delta_events m (k : nat) :
  numbered m -> (k <= length (m_log m))%nat ->
  de_event <$> getDelta m (Z.of_nat k) = drop k (m_log m)
  /\ ev_seqNo <$> drop k (m_log m) = seqZ (Z.of_nat k + 1) (Z.of_nat (length (drop k (m_log m)))).
Proof.
  intros Hm Hk. split.
  - unfold getDelta. rewrite <- list_fmap_compose, (filter_after_cursor _ 0) by first [apply Hm|lia].
    rewrite Z.sub_0_r, Nat2Z.id. rewrite (list_fmap_ext _ id), list_fmap_id by done. done.
  - rewrite fmap_drop, (proj2 Hm), length_drop.
    replace (Z.of_nat (length (m_log m))) with (Z.of_nat k + Z.of_nat (length (m_log m) - k)) by lia.
    rewrite seqZ_app by lia. rewrite drop_app_ge by (by rewrite length_seqZ, Nat2Z.id).
    by rewrite length_seqZ, Nat2Z.id, Nat.sub_diag, drop_0, Z.add_comm.
Qed.

(** The batch from the client's cursor, on a client that shows a view. *)
Lemma batch_applied matchId base v m (k : nat) s :
  matchId <> [] -> numbered m -> (k <= length (m_log m))%nat ->
  st_match s = Some (match_of_view matchId base v) -> in_match matchId (st_room s) ->
  st_lastSeenSeqNo s = Z.of_nat k ->
  let s' := applyEventBatchState matchId (getDelta m (Z.of_nat k)) s in
  let mt := match_of_view matchId base (view_at v k m) in
  st_match s' = Some mt /\ st_lastSeenSeqNo s' = getHeadSeqNo m
  /\ st_isEliminated s' = computeIsEliminated (st_userId s) mt (st_isEliminated s).
Proof.
  intros Hne Hm Hk Hmt Hroom Hcur. cbn zeta. unfold applyEventBatchState.
  assert (Hact : activeMatchId s = Some matchId)
    by by apply (active_of matchId (st_room s) (match_of_view matchId base v)).
  assert (Htr : truthy_str (activeMatchId s) = Some matchId) by (rewrite Hact; by destruct matchId).
  rewrite Htr, bool_decide_eq_true_2 by done. cbn [negb].
  assert (Hc : currentMatch matchId s = Some (match_of_view matchId base v)).
  { unfold currentMatch. rewrite Hmt. cbn. by rewrite bool_decide_eq_true_2. }
  rewrite Hc. destruct (delta_events m k Hm Hk) as [-> Hseq]. rewrite Hcur.
  pose proof (replay_refines matchId base (drop k (m_log m)) (mkAccumulator (match_of_view matchId base v)
    (st_room s) (st_remainingCount s) (st_lastAnswerResult s) (st_pendingAnswer s) (st_topicVoting s)
    (st_cardState s)) v (Z.of_nat k)) as Hr. cbn zeta in Hr.
  destruct (foldl _ _ _) as [acc cursor]. cbn [fst snd] in Hr.
  destruct Hr as [[Hacc _] Hcursor]; [by split|exact Hseq|]. cbn. rewrite Hacc.
  split_and!; [done| |done]. rewrite Hcursor, (proj1 (numbered_cursors m Hm)), length_drop. lia.
Qed.

(** The client shows the match and holds the head of its log as its cursor; it
    knows whether its own player is out. *)
Definition synced (m : Machine) (s : SocketState) : Prop :=
  (exists mt, st_match s = Some mt /\ client_shows m mt)
  /\ st_lastSeenSeqNo s = getHeadSeqNo m
  /\ forall u player, truthy_str (st_userId s) = Some u ->
       map_get u (ms_players (m_state m)) = Some player -> pl_status player <> WINNER ->
       st_isEliminated s = bool_decide (pl_status player = ELIMINATED).

Lemma find_known u (players : list Player) :
  u ∈ cp_id <$> players -> exists p, find_player u players = Some p /\ p ∈ players /\ cp_id p = u.
Proof.
  intros (p & -> & Hp)%list_elem_of_fmap. unfold find_player.
  destruct (list_find _ players) as [[i q]|] eqn:E.
  - apply list_find_Some in E as (Hi & Hq & _). exists q.
    split_and!; [done|by eapply list_elem_of_lookup_2|done].
  - rewrite list_find_None, Forall_forall in E. by destruct (E p Hp).
Qed.

Lemma own_elimination m mt u player :
  client_shows m mt -> map_get u (ms_players (m_state m)) = Some player -> pl_status player <> WINNER ->
  exists p, find_player u (mt_players mt) = Some p
    /\ is_eliminated p = bool_decide (pl_status player = ELIMINATED).
Proof.
  intros (_ & _ & _ & _ & Hids & Hst) Hu Hnw.
  destruct (find_known u (mt_players mt)) as (p & Hf & Hp & Hid).
  { rewrite Hids. apply map_get_Some_elem in Hu. apply list_elem_of_fmap. by exists (u, player). }
  exists p. split; [done|]. apply bool_decide_ext. apply Hst; [done|by rewrite Hid|done].
Qed.

Lemma snapshot_synced ids m0 m s :
  NoDup ids -> m_log m0 = [] -> m_round m0 = None -> ms_status (m_state m0) = CREATED ->
  ms_currentRoundNo (m_state m0) = 0 -> server_ok ids m0 -> keyed m0 -> reachable (eq m0) paced m ->
  synced m (applySnapshotState (wire_snapshot (getSnapshot m (getHeadSeqNo m))) s).
Proof.
  intros Hd Hl Hro Hst Hno Hok Hk Hr.
  destruct (snapshot_hydrated m (getHeadSeqNo m) s) as (Hm & _ & Hcur & Hu & _ & Hel).
  assert (Hshow : client_shows m (match_of_view (ms_id (m_state m)) (roster_shown m) (snapshot_view m))).
  { apply view_shows_match; [by eapply keyed_kept|done|done|].
    pose proof (shows_snapshot ids m0 m (length (m_log m)) Hd Hl Hro Hst Hno Hok Hr) as H.
    unfold view_at, view_since in H. by rewrite drop_all in H. }
  split_and!; [by eexists|done|]. rewrite Hu. intros u player Htr Hp Hnw.
  rewrite (Hel u Htr). destruct (own_elimination _ _ _ _ Hshow Hp Hnw) as (p & Hf & <-).
  cbn [mt_players match_of_view snapshot_view v_out] in Hf. rewrite out_player_nil in Hf. by rewrite Hf.
Qed.

Lemma batch_synced ids m0 m m' (k : nat) s :
  NoDup ids -> m_log m0 = [] -> m_round m0 = None -> ms_status (m_state m0) = CREATED ->
  ms_currentRoundNo (m_state m0) = 0 -> server_ok ids m0 -> keyed m0 -> reachable (eq m0) paced m ->
  reachable (eq m) paced m' -> numbered m' -> ms_id (m_state m) <> [] -> (k <= length (m_log m))%nat ->
  st_match s = Some (match_of_view (ms_id (m_state m)) (roster_shown m) (snapshot_view m)) ->
  in_match (ms_id (m_state m)) (st_room s) -> st_lastSeenSeqNo s = Z.of_nat k ->
  synced m' (applyEventBatchState (ms_id (m_state m)) (getDelta m' (Z.of_nat k)) s).
Proof.
  intros Hd Hl Hro Hst Hno Hok Hk Hr Hr' Hnum Hne Hle Hm Hroom Hcur.
  destruct (roster_kept m m' Hr') as (Hkeys & Hid & _).
  assert (Hlen : (length (m_log m) <= length (m_log m'))%nat).
  { destruct (log_extends_reachable _ _ _ Hr') as [l ->]. rewrite length_app. lia. }
  destruct (batch_applied _ _ _ m' k s Hne Hnum ltac:(lia) Hm Hroom Hcur) as (Hm' & Hcur' & Hel).
  assert (Hshow : client_shows m' (match_of_view (ms_id (m_state m)) (roster_shown m)
                                     (view_at (snapshot_view m) k m'))).
  { apply view_shows_match; [by eapply keyed_kept|done|done|]. by apply (snapshot_then_delta ids m0). }
  split_and!; [by eexists|done|]. intros u player Htr Hp Hnw.
  assert (Hus : st_userId (applyEventBatchState (ms_id (m_state m)) (getDelta m' (Z.of_nat k)) s) = st_userId s).
  { unfold applyEventBatchState. repeat case_match; reflexivity. }
  rewrite Hus in Htr. rewrite Hel. unfold computeIsEliminated. rewrite Htr.
  destruct (own_elimination _ _ _ _ Hshow Hp Hnw) as (p & -> & <-). done.
Qed.

Lemma reachable_from_new A matchId roomId players m :
  reachable (eq (new_machine matchId roomId players)) A m -> reachable fresh any_op m.
Proof.
  intros Hr. induction Hr as [? <-|]; [|by apply reach_step].
  apply reach_init. by exists matchId, roomId, players.
Qed.

Lemma reachable_then A m0 m m' : reachable (eq m0) A m -> reachable (eq m) A m' -> reachable (eq m0) A m'.
Proof. intros Hr Hr'. induction Hr' as [? <-|]; [done|]. by apply reach_step. Qed.

(** A snapshot the connection was waiting for: it is shown, the cursor stays,
    and the events after it are asked for. *)
Lemma snapshot_received sn c socket now matchId k :
  st_socket (cl_state c) = Some socket -> st_socket (applySnapshotState sn (cl_state c)) = Some socket ->
  cl_pendingSnapshotRequest c = Some (matchId, k) -> sy_matchId sn = matchId ->
  let c1 := on_server socket now (M_SNAPSHOT sn) c in
  cl_state c1 = { applySnapshotState sn (cl_state c) with
                  st_lastSeenSeqNo := st_lastSeenSeqNo (cl_state c) }
  /\ cl_pendingSnapshotRequest c1 = None
  /\ (cl_connected c = true -> cl_sent c1 = cl_sent c ++ [C_REQUEST_SNAPSHOT matchId k]).
Proof.
  intros Hsock Hs Hpend Hid. cbn zeta. unfold on_server.
  rewrite Hsock, bool_decide_eq_true_2 by done. cbn [negb]. cbn.
  unfold onSnapshot. rewrite Hpend, bool_decide_eq_true_2 by done.
  unfold requestSnapshot. cbn. rewrite Hs. cbn.
  unfold emitIfConnected, socket_up. cbn. rewrite Hs.
  rewrite bool_decide_eq_true_2 by by eexists. destruct (cl_connected c); by cbn.
Qed.

(** C13: a client that reconnects ends up showing the match.  It asked for the
    match [matchId] with its old cursor [k]; a snapshot is shown, but the cursor
    is kept and the events since then are asked for; at any later moment of the
    match the server answers with those events, or with a whole snapshot.
    Either way the client then shows the id, round number and question, the
    deadline while the match is in ROUND_ACTIVE, and the players in their order.
    It shows the status the match has now, except that it may show ROUND_RESULT
    while the server is in ROUND_EVALUATING, since the logged verdict moves it
    on.  It marks as eliminated exactly the players who are, itself included,
    except that nothing is claimed of one whom the server has made the WINNER:
    the winner of a wipe-out stays marked.  This is so although the batch
    repeats events of the snapshot; its cursor is the head of the log, and no
    listener is left that would put the old snapshot back. *)
Theorem reconnection_shows_the_match (matchId roomId : jstr) (players : list PlayerInfo)
    (m m' : Machine) (c : Client) (socket now now' : Z) (k : nat) :
  NoDup (pl_id <$> players) -> matchId <> [] ->
  reachable (eq (new_machine matchId roomId players)) paced m -> reachable (eq m) paced m' ->
  st_socket (cl_state c) = Some socket ->
  cl_pendingSnapshotRequest c = Some (matchId, Z.of_nat k) ->
  st_lastSeenSeqNo (cl_state c) = Z.of_nat k -> (k <= length (m_log m))%nat ->
  let snapshot := M_SNAPSHOT (wire_snapshot (getSnapshot m (getHeadSeqNo m))) in
  let c1 := on_server socket now snapshot c in
  let c2 := on_server socket now' (snapshot_reply m' matchId (Z.of_nat k)) c1 in
  (cl_connected c = true -> cl_sent c1 = cl_sent c ++ [C_REQUEST_SNAPSHOT matchId (Z.of_nat k)])
  /\ synced m' (cl_state c2)
  /\ (forall fb, fb ∈ cl_fallbacks c2 -> fb_socket fb = socket -> fb_matchId fb <> matchId).
Proof.
  intros Hd Hne Hr Hr' Hsock Hpend Hcur Hk. cbn zeta.
  set (m0 := new_machine matchId roomId players) in *.
  destruct (roster_kept m0 m Hr) as (_ & Hid & _). destruct (roster_kept m m' Hr') as (_ & Hid' & _).
  change (ms_id (m_state m0)) with matchId in Hid. rewrite Hid in Hid'.
  pose proof (reachable_then _ _ _ _ Hr Hr') as Hr0.
  assert (Hnum : numbered m') by by apply numbered_reachable, (reachable_from_new paced matchId roomId players).
  destruct (snapshot_hydrated m (getHeadSeqNo m) (cl_state c)) as (Hm & Hroom & _ & _ & Hs & _).
  set (sn := wire_snapshot (getSnapshot m (getHeadSeqNo m))) in *.
  assert (Hsn : sy_matchId sn = matchId) by done.
  destruct (snapshot_received sn c socket now matchId (Z.of_nat k)) as (Hs1 & Hp1 & Hsent);
    [done|by rewrite Hs|done|done|]. split; [exact Hsent|].
  set (c1 := on_server socket now (M_SNAPSHOT sn) c) in *. clearbody c1.
  assert (Hsock1 : st_socket (cl_state c1) = Some socket) by (rewrite Hs1; cbn; by rewrite Hs).
  unfold on_server. rewrite Hsock1, bool_decide_eq_true_2 by done. cbn [negb].
  unfold snapshot_reply. destruct (canDelta m' (Z.of_nat k)).
  - split.
    + cbn. rewrite Hs1, <- Hid. apply (batch_synced (pl_id <$> players) m0); try done.
      * apply server_ok_new.
      * by apply keyed_new.
      * by rewrite Hid.
    + cbn. intros fb Hfb Hf Hmid. apply list_elem_of_filter in Hfb as [Hn _]. by apply Hn.
  - split.
    + unfold onSnapshot. rewrite Hp1. cbn.
      apply (snapshot_synced (pl_id <$> players) m0); try done; [apply server_ok_new|by apply keyed_new].
    + unfold onSnapshot. rewrite Hp1. cbn. rewrite drop_all, app_nil_r.
      intros fb Hfb Hf Hmid. apply list_elem_of_filter in Hfb as [Hn _]. apply Hn. by rewrite Hid'.
Qed.

(** A client that lost its connection in the lobby of the demonstration match,
    after three events. *)
Definition demo_client : Client :=
  mkClient { no_state with st_socket := Some 1; st_userId := Some (js "p2"); st_lastSeenSeqNo := 3 }
    (mkClientMaps [] [] [] []) true (Some (js "m1", 3)) [] [].

Lemma demo_mid_paced : reachable (eq demo_start) paced demo_mid.
Proof.
  apply exec_all_reachable; [by apply reach_init|apply demo_clock_in_range|].
  intros m' op Hin. unfold demo_round_ops in Hin.
  repeat (apply elem_of_cons in Hin as [->|Hin]; [first [exact I|split; [done|vm_compute; done]]|]).
  by apply elem_of_nil in Hin.
Qed.

Lemma demo_end_paced : reachable (eq demo_mid) paced demo_end.
Proof.
  change demo_end with
    (after (OTransition ROUND_RESULT) (after OEvaluateRound (after (OTransition ROUND_EVALUATING)
       demo_mid demo_clock) demo_clock) demo_clock).
  apply reach_step; [|exact I|apply demo_clock_in_range].
  apply reach_step; [|split; vm_compute; reflexivity|apply demo_clock_in_range].
  apply reach_step; [by apply reach_init|exact I|apply demo_clock_in_range].
Qed.

Definition demo_reconnected : Client :=
  on_server 1 0 (snapshot_reply demo_end (js "m1") 3)
    (on_server 1 0 (M_SNAPSHOT (wire_snapshot (getSnapshot demo_mid (getHeadSeqNo demo_mid)))) demo_client).

Lemma demo_reconnected_shows :
  mt_status <$> st_match (cl_state demo_reconnected) = Some ROUND_RESULT
  /\ st_isEliminated (cl_state demo_reconnected) = true
  /\ st_lastSeenSeqNo (cl_state demo_reconnected) = 12.
Proof. vm_compute. done. Qed.

Lemma reconnection_shows_the_match_witness :
  synced demo_end (cl_state demo_reconnected)
  /\ mt_status <$> st_match (cl_state demo_reconnected) = Some ROUND_RESULT.
Proof.
  split; [|exact (proj1 demo_reconnected_shows)].
  refine (proj1 (proj2 (reconnection_shows_the_match (js "m1") (js "r1")
    (demo_player <$> [js "p1"; js "p2"; js "p3"]) demo_mid demo_end demo_client 1 0 0 3
    _ _ demo_mid_paced demo_end_paced eq_refl eq_refl eq_refl _))).
  - apply (bool_decide_eq_true_1 (NoDup _)). vm_compute. reflexivity.
  - discriminate.
  - apply Nat.leb_le. vm_compute. reflexivity.
Defined.
