(* ===== verification/ClientCommands.v ===== *)
(** * Optimistic commands of the client

    A vote, a card or a second answer is shown before the server has accepted
    it.  Here: which vote is shown while some votes fail, how a second chance is
    spent and given back, and that an effect frame may arrive twice. *)

From S2P Require Import Prelude JsData Effects Shared Cards Prng CardEngine Scoring.
From S2P Require Import TieBreak TopicVoting ClassEngine Machine MachineCards Events ClientState ClientUpdaters.
From S2P Require Import ClientCardUpdaters ClientStore.
#[local] Open Scope Z_scope.

(** ** A second chance *)

Lemma hasSecondChance_permission cards userId roundNo :
  hasSecondChance cards userId roundNo = hasSecondChancePermission cards userId roundNo.
Proof. unfold hasSecondChance, hasSecondChancePermission. by repeat case_match. Qed.

(** The cards after a second chance of a player was spent. *)
Definition spent (userId : jstr) (cards : ClientCards) : Prop :=
  (forall e, e ∈ cc_activeRoundEffects cards -> second_chance_of userId e = false)
  /\ (forall e, cc_lastResolvedEffect cards = Some e -> second_chance_of userId e = false).

Lemma spent_no_chance userId cards roundNo :
  spent userId cards -> hasSecondChance cards (Some userId) roundNo = false.
Proof.
  intros [Ha Hl]. unfold hasSecondChance, grants. destruct (truthy_str (Some userId)) as [u|] eqn:Hu; [|done].
  assert (u = userId) as -> by (destruct userId; simplify_eq/=; done).
  assert (Hex : existsb (fun e => second_chance_of userId e
      && (default (ee_roundNo e) (ee_targetRoundNo e) =? roundNo)) (cc_activeRoundEffects cards) = false).
  { apply not_true_is_false. rewrite existsb_exists. intros (e & He & Hg).
    rewrite (Ha e) in Hg; [done|]. by apply list_elem_of_In. }
  rewrite Hex. destruct (cc_lastResolvedEffect cards) as [e|]; [|done]. by rewrite (Hl e).
Qed.

Lemma consume_spends userId s :
  userId <> [] -> spent userId (st_cardState (applyConsumeSecondChance (Some userId) s)).
Proof.
  intros Hne. unfold applyConsumeSecondChance. cbn [or_else].
  destruct userId as [|u us] eqn:Hu; [done|]. cbn [truthy_str]. rewrite <- Hu. cbn. split; cbn.
  - intros e [Hn _]%list_elem_of_filter. by destruct (second_chance_of userId e).
  - intros e. destruct (cc_lastResolvedEffect (st_cardState s)) as [l|]; [|done].
    destruct (second_chance_of userId l) eqn:E; [done|]. by intros [= <-].
Qed.

(** A frame of an effect that was consumed changes neither the active effects
    nor the last one. *)
Lemma consumed_frame data s :
  getEffectId data ∈ cc_consumedEffectIds (st_cardState s) ->
  let s' := applyCardResolvedState data s in
  cc_activeRoundEffects (st_cardState s') = cc_activeRoundEffects (st_cardState s)
  /\ cc_lastResolvedEffect (st_cardState s') = cc_lastResolvedEffect (st_cardState s)
  /\ cc_consumedEffectIds (st_cardState s') = cc_consumedEffectIds (st_cardState s).
Proof.
  intros Hin. cbn zeta. unfold applyCardResolvedState. destruct (negb _); [done|].
  rewrite (proj2 (set_has_spec _ _) Hin). by cbn.
Qed.

Definition frames (effects : list CardEffectEvent) (s : SocketState) : SocketState :=
  foldl (fun s e => applyCardResolvedState e s) s effects.

Lemma consumed_frames userId effects s :
  (forall e, e ∈ effects -> getEffectId e ∈ cc_consumedEffectIds (st_cardState s)) ->
  spent userId (st_cardState s) -> spent userId (st_cardState (frames effects s)).
Proof.
  unfold frames. revert s. induction effects as [|e effects IH]; intros s Hin Hs; [done|]. cbn.
  destruct (consumed_frame e s) as (Ha & Hl & Hc); [apply Hin; by left|]. apply IH.
  - intros e' He'. rewrite Hc. apply Hin. by right.
  - unfold spent. by rewrite Ha, Hl.
Qed.

(** The effects a consumption uses up. *)
Definition chances (userId : jstr) (cards : ClientCards) : list CardEffectEvent :=
  filter (fun e => second_chance_of userId e) (cc_activeRoundEffects cards)
  ++ filter (fun e => second_chance_of userId e) (option_list (cc_lastResolvedEffect cards)).

Lemma chances_consumed userId s e :
  userId <> [] -> e ∈ chances userId (st_cardState s) ->
  getEffectId e ∈ cc_consumedEffectIds (st_cardState (applyConsumeSecondChance (Some userId) s)).
Proof.
  intros Hne He. unfold applyConsumeSecondChance. cbn [or_else].
  destruct userId as [|u us] eqn:Hu; [done|]. cbn [truthy_str]. rewrite <- Hu in *. cbn.
  apply (proj2 (proj2 (set_of_list_spec _) _)). rewrite !elem_of_app. right.
  apply elem_of_app in He as [He|He].
  - left. apply list_elem_of_fmap. by exists e.
  - right. apply list_elem_of_filter in He as [Ht He].
    destruct (cc_lastResolvedEffect (st_cardState s)) as [l|]; cbn in He; [|by apply elem_of_nil in He].
    apply list_elem_of_singleton in He as ->. destruct (second_chance_of userId l); [|done]. by left.
Qed.

(** Frames touch the cards alone. *)
Lemma frames_elsewhere effects s :
  st_pendingAnswer (frames effects s) = st_pendingAnswer s
  /\ st_lastAnswerResult (frames effects s) = st_lastAnswerResult s
  /\ activeMatchId (frames effects s) = activeMatchId s
  /\ st_userId (frames effects s) = st_userId s /\ st_socket (frames effects s) = st_socket s.
Proof.
  unfold frames. revert s. induction effects as [|e effects IH]; intros s; [done|]. cbn.
  destruct (IH (applyCardResolvedState e s)) as (-> & -> & -> & -> & ->).
  unfold applyCardResolvedState. by repeat case_match.
Qed.

Lemma settle_keeps_saved pick matchId cardId commandId maps :
  consumedSecondChanceBySubmissionId (resolvePendingCardCommand pick matchId cardId commandId maps)
  = consumedSecondChanceBySubmissionId maps.
Proof. unfold resolvePendingCardCommand. by repeat case_match. Qed.

Lemma batch_received socket now effects c :
  st_socket (cl_state c) = Some socket ->
  let c' := on_server socket now (M_CARD_RESOLVED_BATCH effects) c in
  cl_state c' = frames effects (cl_state c)
  /\ consumedSecondChanceBySubmissionId (cl_maps c') = consumedSecondChanceBySubmissionId (cl_maps c)
  /\ cl_connected c' = cl_connected c.
Proof.
  intros Hs. cbn zeta. unfold on_server. rewrite Hs, bool_decide_eq_true_2 by done. cbn [negb].
  unfold onCardResolvedBatch. cbn. split_and!; [done| |done].
  set (own := fun e => bool_decide (st_userId (cl_state c) = Some (ee_playedByPlayerId e))
                       && bool_decide (activeMatchId (cl_state c) = Some (ee_matchId e))).
  change (consumedSecondChanceBySubmissionId
    (foldl (fun maps e => if own e then settle_play e maps else maps) (cl_maps c) effects)
    = consumedSecondChanceBySubmissionId (cl_maps c)).
  generalize (cl_maps c). induction effects as [|e effects IH]; intros maps; [done|]. cbn. rewrite IH.
  destruct (own e); [apply settle_keeps_saved|done].
Qed.

Lemma answer_rejected socket now code message sid c matchId cards pending :
  st_socket (cl_state c) = Some socket -> code <> INVALID_TOKEN -> code <> UNAUTHORIZED ->
  sid <> [] -> st_pendingAnswer (cl_state c) = Some pending -> pa_submissionId pending = sid ->
  map_get sid (consumedSecondChanceBySubmissionId (cl_maps c)) = Some (mkPendingSecondChance matchId cards) ->
  activeMatchId (cl_state c) = Some matchId ->
  cl_state (on_server socket now (M_ERROR code message (Some ClientEvent.SUBMIT_ANSWER) (Some sid) None) c)
  = { cl_state c with st_pendingAnswer := None; st_cardState := cards }.
Proof.
  intros Hs Hc1 Hc2 Hne Hp Hsid Hsaved Hact. unfold on_server.
  rewrite Hs, bool_decide_eq_true_2 by done. cbn [negb]. unfold onError.
  rewrite (bool_decide_eq_true_2 (Some ClientEvent.SUBMIT_ANSWER = Some ClientEvent.SUBMIT_ANSWER)) by done.
  rewrite !(bool_decide_eq_false_2 (code = _)) by done. cbn [orb].
  rewrite (bool_decide_eq_false_2 (_ = Some ClientEvent.REQUEST_SNAPSHOT)) by (vm_compute; discriminate).
  assert (Ht : truthy_str (Some sid) = Some sid) by by destruct sid.
  rewrite Ht. cbn [mbind option_bind]. rewrite Hsaved. cbn.
  unfold applySubmitAnswerErrorState. rewrite Hp, Hsid, Hact.
  rewrite !bool_decide_eq_true_2 by done. cbn [negb orb].
  destruct (truthy_str (Some matchId)) as [id|] eqn:Hm; cbn; [|done].
  assert (id = matchId) as -> by (destruct matchId; simplify_eq/=; done).
  by rewrite bool_decide_eq_true_2.
Qed.

(** A second chance is spent once, and given back when the server refuses
    the answer.  A player who has answered the round answers it again; from then
    on, whatever frames of the same second chances still arrive, the client
    sends no third answer.  If the server rejects the second one, the cards are
    those of the moment it was sent and the player may answer again. *)
Theorem second_chance_spent_once (c c' : Client) (userId matchId answer sid : jstr)
    (roundNo socket now : Z) (effects : list CardEffectEvent) :
  st_socket (cl_state c) = Some socket -> st_userId (cl_state c) = Some userId -> userId <> [] ->
  activeMatchId (cl_state c) = Some matchId -> sid <> [] ->
  answered_before matchId roundNo (cl_state c) = true ->
  submitAnswer matchId roundNo answer sid c = (Some sid, c') ->
  (forall e, e ∈ effects -> e ∈ chances userId (st_cardState (cl_state c))) ->
  let c2 := on_server socket now (M_CARD_RESOLVED_BATCH effects) c' in
  hasSecondChance (st_cardState (cl_state c)) (Some userId) roundNo = true
  /\ (forall answer' sid', submitAnswer matchId roundNo answer' sid' c2 = (None, c2))
  /\ (forall now' code message, code <> INVALID_TOKEN -> code <> UNAUTHORIZED ->
      let c3 := on_server socket now'
                  (M_ERROR code message (Some ClientEvent.SUBMIT_ANSWER) (Some sid) None) c2 in
      st_cardState (cl_state c3) = st_cardState (cl_state c)
      /\ st_pendingAnswer (cl_state c3) = None
      /\ hasSecondChance (st_cardState (cl_state c3)) (Some userId) roundNo = true).
Proof.
  intros Hs Hu Hne Hact Hsid Hbefore Hsub Heff. cbn zeta. unfold submitAnswer in Hsub.
  destruct (socket_up c) eqn:Hup; cbn [negb] in Hsub; [|by injection Hsub].
  rewrite Hbefore, Hu in Hsub. cbn [andb] in Hsub.
  destruct (hasSecondChance (st_cardState (cl_state c)) (Some userId) roundNo) eqn:Hhas;
    cbn [negb] in Hsub; [|by injection Hsub].
  injection Hsub as Hc'.
  set (s1 := applyConsumeSecondChance (Some userId) (cl_state c)) in *.
  assert (Hst : cl_state c' = { s1 with st_pendingAnswer := Some (mkPendingAnswer matchId roundNo answer sid) }).
  { rewrite <- Hc'. unfold emitIfConnected. unfold s1. rewrite <- Hu. destruct (socket_up (set _ _)); reflexivity. }
  assert (Hsaved : map_get sid (consumedSecondChanceBySubmissionId (cl_maps c'))
                   = Some (mkPendingSecondChance matchId (st_cardState (cl_state c)))).
  { rewrite <- Hc'. unfold emitIfConnected.
    destruct (socket_up (set _ _)); cbn; apply map_get_set_eq. }
  assert (Hs1 : st_socket s1 = Some socket /\ st_userId s1 = Some userId /\ activeMatchId s1 = Some matchId).
  { unfold s1, applyConsumeSecondChance. cbn [or_else]. destruct (truthy_str (Some userId)); cbn; by rewrite ?Hs, ?Hu. }
  destruct Hs1 as (Hss & Hsu & Hsa).
  destruct (batch_received socket now effects c') as (H2 & Hm2 & _); [by rewrite Hst|].
  rewrite Hst in H2.
  set (c2 := on_server socket now (M_CARD_RESOLVED_BATCH effects) c') in *. clearbody c2.
  destruct (frames_elsewhere effects { s1 with st_pendingAnswer := Some (mkPendingAnswer matchId roundNo answer sid) })
    as (F1 & F2 & F3 & F4 & F5). rewrite <- H2 in F1, F2, F3, F4, F5. cbn in F1, F4, F5.
  assert (Fact : activeMatchId (cl_state c2) = Some matchId) by (rewrite F3; exact Hsa).
  split_and!; [done| |].
  - intros answer' sid'. unfold submitAnswer. destruct (socket_up c2); cbn [negb]; [|done].
    assert (Hb : answered_before matchId roundNo (cl_state c2) = true).
    { unfold answered_before, pending_of_round. rewrite F1. cbn [pa_matchId pa_roundNo].
      rewrite !(bool_decide_eq_true_2 (_ = _)) by done. done. }
    rewrite Hb, F4, Hsu, spent_no_chance; [done|]. rewrite H2. apply consumed_frames.
    + intros e He. apply chances_consumed; [done|by apply Heff].
    + by apply consume_spends.
  - intros now' code message Hc1 Hc2.
    rewrite (answer_rejected socket now' code message sid c2 matchId (st_cardState (cl_state c))
      (mkPendingAnswer matchId roundNo answer sid)); try done; [by rewrite F5|by rewrite Hm2].
Qed.

Definition demo_second_chance : CardEffectEvent :=
  mkEffectEvent (js "m1") 1 (Some 1) TN_7 1 (js "p1") [js "p1"] SECOND_CHANCE 1000 (Some (js "e1")) None.

Definition demo_answering : Client :=
  mkClient
    { no_state with
      st_socket := Some 1;
      st_userId := Some (js "p1");
      st_match := Some (mkMatch (js "m1") ROUND_ACTIVE 1 [] None None);
      st_pendingAnswer := Some (mkPendingAnswer (js "m1") 1 (js "A") (js "s1"));
      st_cardState := { createInitialCardState with cc_activeRoundEffects := [demo_second_chance] } }
    (mkClientMaps [] [] [] []) true None [] [].

Lemma second_chance_spent_once_witness :
  let c' := (submitAnswer (js "m1") 1 (js "B") (js "s2") demo_answering).2 in
  cl_sent c' = [C_SUBMIT_ANSWER (js "m1") 1 (js "B") (js "s2")]
  /\ submitAnswer (js "m1") 1 (js "C") (js "s3") (on_server 1 0 (M_CARD_RESOLVED_BATCH [demo_second_chance]) c')
     = (None, on_server 1 0 (M_CARD_RESOLVED_BATCH [demo_second_chance]) c').
Proof.
  split; [vm_compute; reflexivity|].
  refine (proj1 (proj2 (second_chance_spent_once demo_answering _ (js "p1") (js "m1") (js "B") (js "s2")
    1 1 0 [demo_second_chance] eq_refl eq_refl _ eq_refl _ eq_refl _ _)) (js "C") (js "s3")).
  - discriminate.
  - discriminate.
  - vm_compute. reflexivity.
  - intros e ->%list_elem_of_singleton. apply elem_of_app. left. apply list_elem_of_filter.
    split; [vm_compute; exact I|left].
Defined.

(** ** Votes *)

(** What happens to the votes of one match while its vote runs: the player
    votes, the server refuses a vote, a summary arrives. *)
Inductive VoteOp :=
| Cast (topic commandId : jstr)
| Refused (code : ErrorCode) (message commandId : jstr)
| Summary (voteCounts : JsMap jstr Z) (totalVotes : Z).

Definition vote_ok (op : VoteOp) : Prop :=
  match op with
  | Cast _ id => id <> []
  | Refused code _ _ => code <> INVALID_TOKEN /\ code <> UNAUTHORIZED
  | Summary _ _ => True
  end.

Definition run_vote (socket : Z) (matchId : jstr) (c : Client) (op : VoteOp) : Client :=
  match op with
  | Cast topic id => voteBanTopic matchId topic id c
  | Refused code message id =>
      on_server socket 0 (M_ERROR code message (Some ClientEvent.VOTE_BAN_TOPIC) None (Some id)) c
  | Summary counts total => on_server socket 0 (M_TOPIC_VOTING_SUMMARY matchId counts total) c
  end.

(** The specification: the votes not refused, oldest first, and the one shown. *)
Definition spec_vote (l : list (jstr * jstr)) (op : VoteOp) : list (jstr * jstr) :=
  match op with
  | Cast topic id => l ++ [(id, topic)]
  | Refused _ _ id => match list_find (fun kv => kv.1 = id) l with
                      | Some (i, _) => delete i l
                      | None => l
                      end
  | Summary _ _ => l
  end.

Definition spec_shown (before : option jstr) (l : list (jstr * jstr)) : option jstr :=
  match last l with Some (_, topic) => Some topic | None => before end.

Section Votes.
Context (socket : Z) (matchId : jstr) (before : option jstr).
Hypothesis matchId_ne : matchId <> [].

Definition vote_command (kv : jstr * jstr) : PendingTopicVoteCommand := mkPendingVote kv.1 matchId kv.2.

(** The client refines the specification. *)
Definition votes_refine (l : list (jstr * jstr)) (c : Client) : Prop :=
  st_socket (cl_state c) = Some socket /\ cl_connected c = true
  /\ (exists v, votingOf matchId (cl_state c) = Some v /\ tvs_myVotedTopic v = spec_shown before l)
  /\ pendingTopicVoteCommandsByMatch (cl_maps c)
     = (if decide (l = []) then [] else [(matchId, vote_command <$> l)])
  /\ (l <> [] -> map_get matchId (confirmedTopicVoteBaselineByMatch (cl_maps c)) = Some before)
  /\ Forall (fun kv => kv.1 <> []) l.

Lemma votingOf_id s v : votingOf matchId s = Some v -> tvs_matchId v = matchId.
Proof.
  unfold votingOf. destruct (st_topicVoting s) as [w|]; [|done]. case_bool_decide; [|done]. by intros [= ->].
Qed.

Lemma pending_of l maps :
  pendingTopicVoteCommandsByMatch maps = (if decide (l = []) then [] else [(matchId, vote_command <$> l)]) ->
  default [] (map_get matchId (pendingTopicVoteCommandsByMatch maps)) = vote_command <$> l.
Proof.
  intros ->. destruct (decide (l = [])) as [->|]; [done|]. cbn. by rewrite decide_True.
Qed.

Lemma effective_of l maps :
  pendingTopicVoteCommandsByMatch maps = (if decide (l = []) then [] else [(matchId, vote_command <$> l)]) ->
  map_get matchId (confirmedTopicVoteBaselineByMatch maps) = Some before ->
  getEffectiveTopicVote matchId maps = spec_shown before l.
Proof.
  intros Hp Hb. unfold getEffectiveTopicVote, spec_shown. rewrite Hp, Hb.
  destruct (decide (l = [])) as [->|Hne]; [done|]. cbn. rewrite decide_True by done. cbn.
  rewrite fmap_last. by destruct (last l) as [[]|].
Qed.

Lemma cast_refines l c topic id :
  id <> [] -> votes_refine l c -> votes_refine (l ++ [(id, topic)]) (voteBanTopic matchId topic id c).
Proof.
  intros Hid (Hs & Hc & (v & Hv & Hshown) & Hp & Hb & Hids). unfold voteBanTopic.
  assert (Hup : socket_up c = true).
  { unfold socket_up. rewrite Hs, Hc. by rewrite bool_decide_eq_true_2 by by eexists. }
  rewrite Hup, Hv, (pending_of l) by done. cbn [negb].
  set (fresh := negb _ || _).
  set (maps' := { cl_maps c with confirmedTopicVoteBaselineByMatch ::= _; pendingTopicVoteCommandsByMatch ::= _ }).
  assert (Hp' : pendingTopicVoteCommandsByMatch maps' = [(matchId, vote_command <$> (l ++ [(id, topic)]))]).
  { unfold maps'. cbn. rewrite Hp, fmap_app. destruct (decide (l = [])) as [->|]; [done|].
    cbn. by rewrite decide_True. }
  assert (Hb' : map_get matchId (confirmedTopicVoteBaselineByMatch maps') = Some before).
  { unfold maps'. cbn. destruct fresh eqn:Ef.
    - rewrite map_get_set_eq. f_equal. rewrite Hshown. unfold fresh in Ef.
      destruct (decide (l = [])) as [->|Hne]; [done|].
      apply orb_true_iff in Ef as [Ef|Ef].
      + unfold map_has in Ef. rewrite (Hb Hne), bool_decide_eq_true_2 in Ef by by eexists. done.
      + bool_to_prop. by destruct l.
    - apply Hb. intros ->. unfold fresh in Ef. apply orb_false_iff in Ef as [_ Ef]. by bool_to_prop. }
  assert (Hne : l ++ [(id, topic)] <> []) by by destruct l.
  unfold emitIfConnected. destruct (socket_up _); unfold votes_refine; cbn; 
    (split_and!; [done|done| |by rewrite decide_False by done|done|by apply Forall_app_2; [|constructor]]);
    (eexists; split; [unfold votingOf; cbn; by rewrite (votingOf_id _ _ Hv), bool_decide_eq_true_2|]);
    cbn; apply effective_of; by rewrite ?decide_False.
Qed.
Lemma list_find_commands id (l : list (jstr * jstr)) :
  list_find (fun c => pv_commandId c = id) (vote_command <$> l)
  = prod_map (fun i : nat => i) vote_command <$> list_find (fun kv => kv.1 = id) l.
Proof. apply list_find_fmap. Qed.

Lemma take_known id l i kv :
  l <> [] -> list_find (fun kv => kv.1 = id) l = Some (i, kv) ->
  take_vote_command id [(matchId, vote_command <$> l)]
  = Some (vote_command kv, if decide (delete i l = []) then [] else [(matchId, vote_command <$> delete i l)]).
Proof.
  intros Hne Hf. unfold take_vote_command. cbn [list_find].
  assert (Hex : Exists (fun c => pv_commandId c = id) (vote_command <$> l)).
  { apply list_find_Some in Hf as (Hi & Hid & _). apply Exists_exists. exists (vote_command kv).
    split; [|done]. apply list_elem_of_fmap. exists kv. split; [done|]. by eapply list_elem_of_lookup_2. }
  rewrite decide_True by done. cbn [mbind option_bind]. rewrite list_find_commands, Hf. cbn.
  rewrite <- list_fmap_delete. destruct (decide (delete i l = [])) as [->|Hd].
  - rewrite decide_True by done. by rewrite decide_False by (intros Hx; by apply Hx).
  - rewrite decide_False by (intros Hx; apply Hd; by destruct (delete i l)).
    by rewrite decide_True by done.
Qed.

Lemma take_unknown id l :
  list_find (fun kv => kv.1 = id) l = None ->
  take_vote_command id (if decide (l = []) then [] else [(matchId, vote_command <$> l)]) = None.
Proof.
  intros Hf. unfold take_vote_command. destruct (decide (l = [])); [done|]. cbn [list_find].
  rewrite decide_False; [done|]. intros (c & Hc & Hid)%Exists_exists.
  apply list_elem_of_fmap in Hc as (kv & -> & Hkv). rewrite list_find_None, Forall_forall in Hf.
  by apply (Hf kv Hkv).
Qed.

Lemma spec_refused l code message id i kv :
  list_find (fun kv => kv.1 = id) l = Some (i, kv) -> spec_vote l (Refused code message id) = delete i l.
Proof. intros H. cbn. by rewrite H. Qed.

Lemma refused_state code message id c :
  st_socket (cl_state c) = Some socket -> code <> INVALID_TOKEN -> code <> UNAUTHORIZED ->
  run_vote socket matchId c (Refused code message id)
  = match truthy_str (Some id) with
    | Some id => let '((m, t), maps) := removePendingTopicVoteCommand id (cl_maps c) in
                 set (applyTopicVoteErrorState m t) (on_maps (fun _ => maps) c)
    | None => c
    end.
Proof.
  intros Hs Hc1 Hc2. unfold run_vote, on_server. rewrite Hs, bool_decide_eq_true_2 by done. cbn [negb].
  unfold onError. rewrite !(bool_decide_eq_false_2 (code = _)) by done. cbn [orb].
  rewrite !(bool_decide_eq_false_2 (Some ClientEvent.VOTE_BAN_TOPIC = _)) by (vm_compute; discriminate).
  cbn [orb]. rewrite bool_decide_eq_true_2 by done. by destruct (truthy_str (Some id)).
Qed.

Lemma refused_refines l c code message id :
  vote_ok (Refused code message id) -> votes_refine l c ->
  votes_refine (spec_vote l (Refused code message id)) (run_vote socket matchId c (Refused code message id)).
Proof.
  intros [Hc1 Hc2] H. pose proof H as (Hs & Hc & (v & Hv & Hshown) & Hp & Hb & Hids).
  rewrite refused_state by done. destruct id as [|u us] eqn:Hid.
  { cbn [truthy_str spec_vote]. destruct (list_find _ l) as [[i kv]|] eqn:Hf; [|done].
    apply list_find_Some in Hf as (Hi & Hk & _). rewrite Forall_forall in Hids.
    by destruct (Hids kv); [by eapply list_elem_of_lookup_2|]. }
  cbn [truthy_str]. rewrite <- Hid. unfold removePendingTopicVoteCommand. rewrite Hp.
  destruct (list_find (fun kv => kv.1 = id) l) as [[i kv]|] eqn:Hf.
  - assert (Hne : l <> []) by by intros ->.
    rewrite (spec_refused _ _ _ _ _ _ Hf). rewrite decide_False by done.
    rewrite (take_known id l i kv Hne Hf). cbn [pv_matchId vote_command].
    set (maps1 := { cl_maps c with pendingTopicVoteCommandsByMatch := _ }).
    assert (Hp1 : pendingTopicVoteCommandsByMatch maps1
      = (if decide (delete i l = []) then [] else [(matchId, vote_command <$> delete i l)])) by done.
    assert (Hb1 : map_get matchId (confirmedTopicVoteBaselineByMatch maps1) = Some before) by by apply Hb.
    rewrite (effective_of _ maps1 Hp1 Hb1).
    change (default [] (map_get matchId (if decide (delete i l = []) then [] else _)))
      with (default [] (map_get matchId (pendingTopicVoteCommandsByMatch maps1))).
    rewrite (pending_of _ maps1 Hp1). unfold votes_refine.
    assert (Ht : truthy_str (Some matchId) = Some matchId) by by destruct matchId.
    unfold set, on_maps, applyTopicVoteErrorState. rewrite Ht. cbn. rewrite Hv. cbn. split_and!; try done.
    + eexists. split; [unfold votingOf; cbn; by rewrite (votingOf_id _ _ Hv), bool_decide_eq_true_2|done].
    + destruct (decide (vote_command <$> delete i l = [])); by rewrite <- Hp1.
    + intros Hd. rewrite decide_False; [done|]. intros Hx. apply Hd. by destruct (delete i l).
    + by apply Forall_delete.
  - cbn [spec_vote]. rewrite Hf, take_unknown by done. unfold set, on_maps. cbn. 
    destruct c. exact H.
Qed.

Lemma summary_refines l c counts total :
  votes_refine l c -> votes_refine l (run_vote socket matchId c (Summary counts total)).
Proof.
  intros (Hs & Hc & (v & Hv & Hshown) & Hp & Hb & Hids). unfold run_vote, on_server.
  rewrite Hs, bool_decide_eq_true_2 by done. cbn [negb]. unfold applyTopicVotingSummaryState, set.
  unfold votes_refine. cbn. rewrite Hv. cbn. split_and!; try done.
  eexists. split; [unfold votingOf; cbn; by rewrite (votingOf_id _ _ Hv), bool_decide_eq_true_2|done].
Qed.

Lemma votes_refine_run ops : forall l c,
  Forall vote_ok ops -> votes_refine l c ->
  votes_refine (foldl spec_vote l ops) (foldl (run_vote socket matchId) c ops).
Proof.
  induction ops as [|op ops IH]; intros l c Hok H; [done|]. apply Forall_cons in Hok as [Hop Hok].
  cbn [foldl]. apply IH; [done|].
  destruct op; [by apply cast_refines|by apply refused_refines|by apply summary_refines].
Qed.
End Votes.

(** C29: the vote a player sees is the latest that was not refused.  While a
    topic vote runs, the player may vote any number of times before the server
    answers; each refusal takes back the vote it names, in any order, and
    summaries of everybody's votes come in between.  At every moment the client
    shows the last vote not refused, or the one shown at first if all were. *)
Theorem last_standing_vote_shown (socket : Z) (matchId : jstr) (c : Client) (v0 : TopicVotingState)
    (ops : list VoteOp) :
  matchId <> [] -> st_socket (cl_state c) = Some socket -> cl_connected c = true ->
  votingOf matchId (cl_state c) = Some v0 -> pendingTopicVoteCommandsByMatch (cl_maps c) = [] ->
  Forall vote_ok ops ->
  let c' := foldl (run_vote socket matchId) c ops in
  exists v, votingOf matchId (cl_state c') = Some v
  /\ tvs_myVotedTopic v = spec_shown (tvs_myVotedTopic v0) (foldl spec_vote [] ops)
  /\ default [] (map_get matchId (pendingTopicVoteCommandsByMatch (cl_maps c')))
     = vote_command matchId <$> foldl spec_vote [] ops.
Proof.
  intros Hne Hs Hc Hv Hp Hok. cbn zeta.
  destruct (votes_refine_run socket matchId (tvs_myVotedTopic v0) Hne ops [] c Hok)
    as (_ & _ & (v & H1 & H2) & H3 & _).
  - split_and!; [done|done|by exists v0|done|done|constructor].
  - exists v. split_and!; [done|done|]. by apply pending_of.
Qed.

Definition demo_voter : Client :=
  mkClient
    { no_state with st_socket := Some 1; st_topicVoting :=
        Some (mkVoting (js "m1") [js "SPORTS"; js "LOGIC"] 1000 10000 None [] 0 [] [] false) }
    (mkClientMaps [] [] [] []) true None [] [].

(** Two votes, the second is refused, then the first. *)
Definition demo_votes : list VoteOp :=
  [Cast (js "SPORTS") (js "v1"); Cast (js "LOGIC") (js "v2"); Summary [] 0;
   Refused RATE_LIMITED [] (js "v2"); Cast (js "LOGIC") (js "v3"); Refused RATE_LIMITED [] (js "v1")].

Lemma last_standing_vote_shown_witness :
  spec_shown None (foldl spec_vote [] demo_votes) = Some (js "LOGIC")
  /\ exists v, votingOf (js "m1") (cl_state (foldl (run_vote 1 (js "m1")) demo_voter demo_votes)) = Some v
     /\ tvs_myVotedTopic v = spec_shown None (foldl spec_vote [] demo_votes).
Proof.
  split; [vm_compute; reflexivity|].
  destruct (last_standing_vote_shown 1 (js "m1") demo_voter
    (mkVoting (js "m1") [js "SPORTS"; js "LOGIC"] 1000 10000 None [] 0 [] [] false) demo_votes)
    as (v & H1 & H2 & _).
  1: discriminate. 1-4: reflexivity.
  1: { repeat (apply Forall_cons; split; [first [exact I|discriminate|split; discriminate]|]). constructor. }
  by exists v.
Defined.

(** ** Frames that arrive twice *)

Lemma add_card_twice id cards : add_card id (add_card id cards) = add_card id cards.
Proof.
  unfold add_card at 1. assert (H : set_has id (add_card id cards) = true); [|by rewrite H].
  apply set_has_spec. unfold add_card. destruct (set_has id cards) eqn:E; [by apply set_has_spec|].
  apply elem_of_app. right. by left.
Qed.

(** A target of a play gets the frame on its own channel and, sanitised or not,
    on the room's: the second one changes nothing. *)
Lemma frame_twice data s :
  applyCardResolvedState data (applyCardResolvedState data s) = applyCardResolvedState data s.
Proof.
  set (s' := applyCardResolvedState data s).
  unfold applyCardResolvedState in s'.
  destruct (bool_decide (activeMatchId s = Some (ee_matchId data))) eqn:Ha; cbn [negb] in s'.
  2: { unfold applyCardResolvedState, s'. by rewrite Ha. }
  set (cards := st_cardState s) in *.
  set (self := match truthy_str (st_userId s) with Some _ => _ | None => _ end) in *.
  assert (Htwice : forall l : list CardId,
    (if self then add_card (ee_cardId data) (if self then add_card (ee_cardId data) l else l)
     else (if self then add_card (ee_cardId data) l else l))
    = (if self then add_card (ee_cardId data) l else l)).
  { intros l. destruct self; [apply add_card_twice|done]. }
  set (known := existsb (fun e => bool_decide (getEffectId e = getEffectId data))) in *.
  assert (Hsnoc : forall l, known (l ++ [data]) = true).
  { intros l. unfold known. rewrite existsb_app. cbn. by rewrite bool_decide_eq_true_2, orb_true_r. }
  destruct (set_has (getEffectId data) (cc_consumedEffectIds cards)) eqn:Hc.
  - unfold applyCardResolvedState, s'. cbn. fold self cards. change (activeMatchId _) with (activeMatchId s).
    rewrite Ha. cbn [negb]. rewrite Hc. fold cards. by rewrite Htwice.
  - destruct (known (cc_activeRoundEffects cards) || known (cc_pendingNextRoundEffects cards)) eqn:Hk.
    + unfold applyCardResolvedState, s'. cbn. fold self cards. change (activeMatchId _) with (activeMatchId s).
      rewrite Ha. cbn [negb]. rewrite Hc. fold known. rewrite Hk. by rewrite Htwice.
    + unfold applyCardResolvedState, s'. cbn. fold self cards. change (activeMatchId _) with (activeMatchId s).
      rewrite Ha. cbn [negb]. rewrite Hc. fold known.
      destruct (_ <=? _); rewrite Hsnoc, ?orb_true_r; cbn [orb]; by rewrite Htwice.
Qed.

(** ** What a rejected second answer takes with it *)

Definition demo_offer : ServerMessage :=
  M_CARD_OFFER (js "m1") 1 (js "p1") [TN_7; TN_7; TN_7] 4 (js "seed") None (Some 9000).

(** The cards are put back as they were when the answer was sent: an offer that
    arrived in between is gone. *)
Example rejected_answer_drops_offer :
  let sent := (submitAnswer (js "m1") 1 (js "B") (js "s2") demo_answering).2 in
  let offered := on_server 1 0 demo_offer sent in
  let rejected := on_server 1 0
    (M_ERROR ANSWER_SUBMISSION_CLOSED [] (Some ClientEvent.SUBMIT_ANSWER) (Some (js "s2")) None) offered in
  is_Some (cc_currentOffer (st_cardState (cl_state offered)))
  /\ cc_currentOffer (st_cardState (cl_state rejected)) = None.
Proof. vm_compute. split; [by eexists|done]. Qed.

(** ** A card command that is refused *)

Lemma filter_all {A} (P : A -> Prop) `{!forall x, Decision (P x)} (l : list A) :
  (forall x, x ∈ l -> P x) -> filter P l = l.
Proof.
  induction l as [|x l IH]; intros Hl; [done|]. rewrite filter_cons, decide_True by (apply Hl; by left).
  f_equal. apply IH. intros y Hy. apply Hl. by right.
Qed.

Lemma map_delete_set_fresh {V} (k : CardId) (v : V) (m : JsMap CardId V) :
  map_get k m = None -> map_delete k (map_set k v m) = m.
Proof.
  intros Hk. rewrite map_get_None in Hk. rewrite map_set_fresh by done. unfold map_delete.
  rewrite filter_app, filter_cons, decide_False, app_nil_r by (intros Hx; by apply Hx).
  apply filter_all. intros [k' v'] Hin Hx. cbn in Hx. subst k'. apply Hk.
  apply list_elem_of_fmap. by exists (k, v').
Qed.

Lemma remove_added (id : CardId) (l : list CardId) :
  set_has id l = false -> filter (fun x => x <> id) (add_card id l) = l.
Proof.
  intros H. unfold add_card. rewrite H, filter_app, filter_cons, decide_False, app_nil_r
    by (intros Hx; by apply Hx).
  apply filter_all. intros x Hx ->. by rewrite (proj2 (set_has_spec _ _) Hx) in H.
Qed.

Lemma card_refused socket now code message event id c cmd :
  st_socket (cl_state c) = Some socket -> code <> INVALID_TOKEN -> code <> UNAUTHORIZED -> id <> [] ->
  event = ClientEvent.CARD_PICK \/ event = ClientEvent.CARD_PLAY ->
  map_get id (pendingCardCommands (cl_maps c)) = Some cmd ->
  cl_state (on_server socket now (M_ERROR code message (Some event) None (Some id)) c)
  = applyCardCommandErrorState (Some event) (Some id) (Some cmd) (cl_state c).
Proof.
  intros Hs Hc1 Hc2 Hid He Hcmd. unfold on_server. rewrite Hs, bool_decide_eq_true_2 by done. cbn [negb].
  unfold onError. rewrite !(bool_decide_eq_false_2 (code = _)) by done. cbn [orb].
  assert (Ht : truthy_str (Some id) = Some id) by by destruct id.
  rewrite Ht. cbn [mbind option_bind]. rewrite Hcmd.
  rewrite (bool_decide_eq_false_2 (Some event = Some ClientEvent.SUBMIT_ANSWER))
    by (destruct He as [->| ->]; vm_compute; discriminate).
  rewrite (bool_decide_eq_false_2 (Some event = Some ClientEvent.REQUEST_SNAPSHOT))
    by (destruct He as [->| ->]; vm_compute; discriminate).
  by destruct He as [->| ->].
Qed.

Lemma cards_undone (f g : ClientCards -> ClientCards) s :
  g (f (st_cardState s)) = st_cardState s ->
  { { s with st_cardState ::= f } with st_cardState ::= g } = s.
Proof.
  destruct s. unfold tset, RecordSettersUsingExistingGetters.set. cbn. by intros ->.
Qed.

(** The refusal of a pick undoes what the client showed. *)
Lemma pick_rolled_back c socket now matchId cardId offerSeqNo id code message :
  st_socket (cl_state c) = Some socket -> cl_connected c = true -> 0 < offerSeqNo -> id <> [] ->
  code <> INVALID_TOKEN -> code <> UNAUTHORIZED ->
  activeMatchId (cl_state c) = Some matchId -> matchId <> [] ->
  set_has cardId (cc_hand (st_cardState (cl_state c))) = false ->
  map_get cardId (cc_offerSeqNoByCardId (st_cardState (cl_state c))) = None ->
  (forall o, cc_currentOffer (st_cardState (cl_state c)) = Some o -> of_matchId o = matchId) ->
  cl_state (on_server socket now (M_ERROR code message (Some ClientEvent.CARD_PICK) None (Some id))
              (pickCard cardId offerSeqNo id c)) = cl_state c.
Proof.
  intros Hs Hcon Hn Hid Hc1 Hc2 Hact Hne Hhand Hseq Hoffer. unfold pickCard.
  rewrite (proj2 (Z.leb_gt _ _)) by done.
  assert (Hup : socket_up c = true).
  { unfold socket_up. rewrite Hs, Hcon. by rewrite bool_decide_eq_true_2 by by eexists. }
  assert (Ht : truthy_str (activeMatchId (cl_state c)) = Some matchId) by (rewrite Hact; by destruct matchId).
  rewrite Hup, Ht. cbn [negb]. set (cmd := mkPendingCard _ _ _ _ _).
  unfold emitIfConnected. destruct (socket_up (set _ _)).
  all: erewrite (card_refused _ _ _ _ _ _ _ cmd); [|done..|by left|cbn; apply map_get_set_eq].
  all: unfold applyCardCommandErrorState, cmd; cbn [pk_matchId pk_kind pk_cardId].
  all: assert (Ht' : truthy_str (Some id) = Some id) by by destruct id.
  all: rewrite Ht', (bool_decide_eq_true_2 (_ = Some ClientEvent.CARD_PICK)) by done; cbn [orb negb].
  all: cbn; change (activeMatchId (applyOptimisticCardPick cardId offerSeqNo (cl_state c))) with (activeMatchId (cl_state c)).
  all: rewrite Hact, bool_decide_eq_true_2 by done; cbn [negb]; rewrite Hhand; cbn [negb].
  all: apply cards_undone; destruct (st_cardState (cl_state c)) as [? ? ? ? offer ? ? ? ?].
  all: unfold tset, RecordSettersUsingExistingGetters.set; cbn -[map_delete map_set map_get] in *.
  all: rewrite remove_added, map_delete_set_fresh by done.
  all: destruct offer as [o|]; [rewrite (Hoffer o eq_refl), bool_decide_eq_true_2 by done|]; reflexivity.
Qed.
