(* ===== verification/LobbyStore.v ===== *)
(** * What the lobby services share

    [room.service.ts], [room-cache.store.ts], [matchmaking-*.ts],
    [lobby-countdown.service.ts] and [presence.service.ts] work on the tables of
    rooms and players and on keys of Redis.  The tables are the interface
    [RoomDb] with the laws [RoomDbLaws]; Redis is that of [Redis.v].  Here are
    both, the statements and commands the services issue, and their effect. *)

From stdpp Require Import gmap.
From S2P Require Import Prelude JsData Effects Shared Decimal Redis Lease.
#[local] Open Scope Z_scope.

(** ** The tables *)

(** A row of [rooms]. *)
Record RoomRecord := mkRoomRecord {
  ro_id : jstr;
  ro_code : jstr;
  ro_type : RoomType;
  ro_status : RoomStatus;
  ro_hostId : jstr;
  ro_maxPlayers : Z;
  ro_timeLimit : Z;
  ro_category : jstr;
  ro_currentMatchId : option jstr;
  ro_createdAt : Z;
}.

(** [status], and [currentMatchId] when the update gives one. *)
Definition update_room (status : RoomStatus) (currentMatchId : option (option jstr)) (r : RoomRecord)
    : RoomRecord :=
  mkRoomRecord (ro_id r) (ro_code r) (ro_type r) status (ro_hostId r) (ro_maxPlayers r) (ro_timeLimit r)
    (ro_category r) (default (ro_currentMatchId r) currentMatchId) (ro_createdAt r).

Record NewRoom := mkNewRoom {
  nr_code : jstr;
  nr_type : RoomType;
  nr_hostId : jstr;
  nr_maxPlayers : Z;
  nr_timeLimit : Z;
  nr_category : jstr;
}.

(** The row a [room.create] makes; the database gives the id and the time. *)
Definition new_room (id : jstr) (createdAt : Z) (n : NewRoom) : RoomRecord :=
  mkRoomRecord id (nr_code n) (nr_type n) RWAITING (nr_hostId n) (nr_maxPlayers n) (nr_timeLimit n)
    (nr_category n) None createdAt.

Class RoomDb (D : Type) := {
  rdb_rooms : D -> list RoomRecord;
  (** The users of the [room_players] of a room. *)
  rdb_players : D -> jstr -> list jstr;
  (** The matches of a room, and whether each is FINISHED. *)
  rdb_matches : D -> jstr -> list (jstr * bool);
  (** The row of a user: its [guestId] and its rating. *)
  rdb_user : D -> jstr -> option (option jstr * option Z);
  (** [room.create]; [None]: the code is taken or there is no such host. *)
  rdb_create : NewRoom -> D -> option (RoomRecord * D);
  (** [room.update] of an existing row. *)
  rdb_update : jstr -> RoomStatus -> option (option jstr) -> D -> D;
  (** [room.delete]. *)
  rdb_delete : jstr -> D -> D;
  (** [roomPlayer.create]; [None]: a constraint is violated. *)
  rdb_add : jstr -> jstr -> D -> option D;
  (** [roomPlayer.deleteMany] of users of a room, of all of them. *)
  rdb_remove : jstr -> list jstr -> D -> D;
  rdb_clear : jstr -> D -> D;
  (** [match.updateMany] of the ids to FINISHED: the count. *)
  rdb_finish : list jstr -> Z -> D -> Z * D;
  (** [eventLog.create] of a MATCH_FORCE_FINISHED. *)
  rdb_audit : jstr -> list jstr -> D -> D;
}.

Definition rdb_room {D} `{!RoomDb D} (d : D) (roomId : jstr) : option RoomRecord :=
  snd <$> list_find (fun r => ro_id r = roomId) (rdb_rooms d).
Definition rdb_by_code {D} `{!RoomDb D} (d : D) (code : jstr) : option RoomRecord :=
  snd <$> list_find (fun r => ro_code r = code) (rdb_rooms d).

Class RoomDbLaws (D : Type) `{!RoomDb D} := {
  (** Keys and the unique constraint on the code. *)
  rooms_ids d : NoDup (ro_id <$> rdb_rooms d);
  rooms_codes d : NoDup (ro_code <$> rdb_rooms d);
  (** [@@unique([roomId, userId])] and the foreign key. *)
  players_nodup d r : NoDup (rdb_players d r);
  matches_nodup d r : NoDup (rdb_matches d r).*1;
  players_room d r : rdb_players d r <> [] -> is_Some (rdb_room d r);
  (** [room.create] *)
  create_room n d room d' r :
    rdb_create n d = Some (room, d') ->
    rdb_room d' r = if decide (r = ro_id room) then Some room else rdb_room d r;
  create_fresh n d room d' : rdb_create n d = Some (room, d') -> rdb_room d (ro_id room) = None;
  create_row n d room d' : rdb_create n d = Some (room, d') -> exists t, room = new_room (ro_id room) t n;
  create_players n d room d' r : rdb_create n d = Some (room, d') -> rdb_players d' r = rdb_players d r;
  (** [room.update], [room.delete] *)
  update_row r st mid d r' :
    rdb_room (rdb_update r st mid d) r'
    = if decide (r' = r) then update_room st mid <$> rdb_room d r else rdb_room d r';
  update_players r st mid d r' : rdb_players (rdb_update r st mid d) r' = rdb_players d r';
  delete_row r d r' : rdb_room (rdb_delete r d) r' = if decide (r' = r) then None else rdb_room d r';
  delete_players r d r' :
    rdb_players (rdb_delete r d) r' = if decide (r' = r) then [] else rdb_players d r';
  (** [roomPlayer.create] succeeds on a new user of a room. *)
  add_some r u d :
    is_Some (rdb_add r u d) <-> is_Some (rdb_room d r) /\ is_Some (rdb_user d u) /\ u ∉ rdb_players d r;
  add_players r u d d' r' :
    rdb_add r u d = Some d' ->
    rdb_players d' r' = if decide (r' = r) then rdb_players d r ++ [u] else rdb_players d r';
  add_rooms r u d d' : rdb_add r u d = Some d' -> rdb_rooms d' = rdb_rooms d;
  (** [roomPlayer.deleteMany] *)
  remove_players r us d r' :
    rdb_players (rdb_remove r us d) r'
    = if decide (r' = r) then filter (fun u => u ∉ us) (rdb_players d r) else rdb_players d r';
  remove_rooms r us d : rdb_rooms (rdb_remove r us d) = rdb_rooms d;
  clear_players r d r' : rdb_players (rdb_clear r d) r' = if decide (r' = r) then [] else rdb_players d r';
  clear_rooms r d : rdb_rooms (rdb_clear r d) = rdb_rooms d;
  (** [match.updateMany] *)
  finish_count ids t d r :
    NoDup ids -> ids ⊆ (rdb_matches d r).*1 -> (rdb_finish ids t d).1 = Z.of_nat (length ids);
  finish_matches ids t d r :
    rdb_matches (rdb_finish ids t d).2 r
    = (fun m => (m.1, m.2 || bool_decide (m.1 ∈ ids))) <$> rdb_matches d r;
  finish_rooms ids t d : rdb_rooms (rdb_finish ids t d).2 = rdb_rooms d;
  finish_players ids t d r : rdb_players (rdb_finish ids t d).2 r = rdb_players d r;
  audit_rooms r ids d : rdb_rooms (rdb_audit r ids d) = rdb_rooms d;
  audit_players r ids d r' : rdb_players (rdb_audit r ids d) r' = rdb_players d r';
  (** Matches are in no other table. *)
  update_matches r st mid d r' : rdb_matches (rdb_update r st mid d) r' = rdb_matches d r';
  clear_matches r d r' : rdb_matches (rdb_clear r d) r' = rdb_matches d r';
  audit_matches r ids d r' : rdb_matches (rdb_audit r ids d) r' = rdb_matches d r';
}.

(** ** Transactions and statements *)

(** A room with its players. *)
Record RoomView := mkRoomView { rv_room : RoomRecord; rv_players : list jstr }.

(** A player of a room with the [guestId] of the user. *)
Record ActiveRoom := mkActiveRoom { ar_room : RoomRecord; ar_players : list (jstr * option jstr) }.

Section Database.
Context {D : Type} `{!RoomDb D}.
Implicit Types d : D.

Definition room_view d (r : RoomRecord) : RoomView := mkRoomView r (rdb_players d (ro_id r)).

(** The specification of the transaction of [joinRoom], as one request: the
    statements, the row lock and their interleavings are in
    JoinLocks, which shows that they meet it.  The boolean is [didCreate]; a
    throw rolls back. *)
Definition join_transaction (roomId userId : jstr) d : outcome exn bool * D :=
  match rdb_room d roomId with
  | None => (Throw (RoomError ROOM_NOT_FOUND), d)
  | Some lockedRoom =>
      if bool_decide (userId ∈ rdb_players d roomId) then (Ok false, d)
      else if ro_maxPlayers lockedRoom <=? Z.of_nat (length (rdb_players d roomId))
      then (Throw (RoomError ROOM_FULL), d)
      else match rdb_add roomId userId d with
           | None => (Throw (JsError "Foreign key constraint violated"), d)
           | Some d' => (Ok true, d')
           end
  end.

(** The transaction of [disbandRoom]: the ids of the matches it finished. *)
Definition disband_transaction (roomId : jstr) (now : Z) d : list jstr * D :=
  match rdb_room d roomId with
  | None => ([], d)
  | Some _ =>
      if bool_decide (rdb_matches d roomId = []) then ([], rdb_delete roomId (rdb_clear roomId d))
      else
        let terminatedIds := fst <$> filter (fun m => m.2 = false) (rdb_matches d roomId) in
        let '(safetyNetMatchIds, d1) :=
          if bool_decide (terminatedIds = []) then ([], d)
          else
            let '(count, d1) := rdb_finish terminatedIds now d in
            if 0 <? count then (terminatedIds, rdb_audit roomId terminatedIds d1) else ([], d1) in
        (safetyNetMatchIds, rdb_clear roomId (rdb_update roomId RFINISHED (Some None) d1))
  end.

(** What [where: { status, currentMatchId }] asks of the row; an option that is
    not given asks nothing. *)
Definition as_expected (expectedStatus : option RoomStatus) (expectedMatch : option (option jstr))
    (r : RoomRecord) : bool :=
  match expectedStatus with Some s => bool_decide (ro_status r = s) | None => true end
  && match expectedMatch with Some m => bool_decide (ro_currentMatchId r = m) | None => true end.

Inductive DbCmd : Type -> Type :=
| DRoomCreate (n : NewRoom) : DbCmd RoomRecord
| DRoomByCode (code : jstr) : DbCmd (option RoomView)
| DRoomById (roomId : jstr) : DbCmd (option RoomView)
| DPlayerCreate (roomId userId : jstr) : DbCmd unit
| DPlayerFind (roomId userId : jstr) : DbCmd bool
| DPlayersDelete (roomId : jstr) (userIds : list jstr) : DbCmd Z
| DJoin (roomId userId : jstr) : DbCmd bool
| DRoomUpdate (roomId : jstr) (status : RoomStatus) (currentMatchId : option (option jstr)) : DbCmd RoomView
| DRoomUpdateIf (roomId : jstr) (status : RoomStatus) (currentMatchId : option (option jstr))
    (expectedStatus : option RoomStatus) (expectedMatch : option (option jstr)) : DbCmd (option RoomView)
| DPublicRooms : DbCmd (list (RoomRecord * Z))
| DUserRooms (userId : jstr) : DbCmd (list RoomView)
| DActiveRooms : DbCmd (list ActiveRoom)
| DDisband (roomId : jstr) (now : Z) : DbCmd (list jstr)
| DUserElo (userId : jstr) : DbCmd (option Z).

Definition not_finished (r : RoomRecord) : bool := negb (bool_decide (ro_status r = RFINISHED)).

(** [createdAt: "desc"] *)
Definition newest_first (a b : RoomRecord) : Z := ro_createdAt b - ro_createdAt a.

Definition exec_db {X} (c : DbCmd X) : D -> outcome exn X * D :=
  match c in DbCmd X return D -> outcome exn X * D with
  | DRoomCreate n => fun d =>
      match rdb_create n d with
      | Some (room, d') => (Ok room, d')
      | None => (Throw (JsError "Unique constraint failed"), d)
      end
  | DRoomByCode code => fun d => (Ok (room_view d <$> rdb_by_code d code), d)
  | DRoomById roomId => fun d => (Ok (room_view d <$> rdb_room d roomId), d)
  | DPlayerCreate roomId userId => fun d =>
      match rdb_add roomId userId d with
      | Some d' => (Ok tt, d')
      | None => (Throw (JsError "Unique constraint failed"), d)
      end
  | DPlayerFind roomId userId => fun d => (Ok (bool_decide (userId ∈ rdb_players d roomId)), d)
  | DPlayersDelete roomId userIds => fun d =>
      (Ok (Z.of_nat (length (filter (fun u => u ∈ userIds) (rdb_players d roomId)))),
       rdb_remove roomId userIds d)
  | DJoin roomId userId => join_transaction roomId userId
  | DRoomUpdate roomId status currentMatchId => fun d =>
      let d' := rdb_update roomId status currentMatchId d in
      match rdb_room d' roomId with
      | Some room => (Ok (room_view d' room), d')
      | None => (Throw (JsError "Record to update not found"), d)
      end
  | DRoomUpdateIf roomId status currentMatchId expectedStatus expectedMatch => fun d =>
      match rdb_room d roomId with
      | Some room =>
          if as_expected expectedStatus expectedMatch room then
            let d' := rdb_update roomId status currentMatchId d in
            (Ok (room_view d' <$> rdb_room d' roomId), d')
          else (Ok None, d)
      | None => (Ok None, d)
      end
  | DPublicRooms => fun d =>
      (Ok ((fun r => (r, Z.of_nat (length (rdb_players d (ro_id r)))))
             <$> take 20 (js_sort newest_first
                   (filter (fun r => ro_type r = PUBLIC /\ ro_status r = RWAITING) (rdb_rooms d)))), d)
  | DUserRooms userId => fun d =>
      (Ok (room_view d <$> filter (fun r => not_finished r /\ userId ∈ rdb_players d (ro_id r)) (rdb_rooms d)), d)
  | DActiveRooms => fun d =>
      (Ok ((fun r => mkActiveRoom r
              ((fun u => (u, rdb_user d u ≫= fst)) <$> rdb_players d (ro_id r)))
             <$> filter not_finished (rdb_rooms d)), d)
  | DDisband roomId now => fun d => let '(ids, d') := disband_transaction roomId now d in (Ok ids, d')
  | DUserElo userId => fun d => (Ok (rdb_user d userId ≫= snd), d)
  end.
End Database.

(** ** Redis *)

(** [roomSnapshotKey(id)]: what [setSnapshot] writes. *)
Record RoomSnapshot := mkSnapshot {
  sn_id : jstr;
  sn_code : jstr;
  sn_status : RoomStatus;
  sn_hostId : jstr;
  sn_playerCount : Z;
  sn_currentMatchId : option jstr;
  sn_timeLimit : Z;
  sn_category : jstr;
}.

Record MatchmakingTicket := mkTicket {
  tk_userId : jstr;
  tk_username : jstr;
  tk_elo : Z;
  tk_socketId : jstr;
  tk_category : option jstr;
  tk_joinedAt : Z;
}.

(** The JSON documents the lobby keeps. *)
Inductive LobbyDoc :=
| DocRoom (s : RoomSnapshot)
| DocTicket (t : MatchmakingTicket).

#[export] Instance Ticket_eq : EqDecision MatchmakingTicket.
Proof. solve_decision. Defined.

Definition roomSnapshotKey (roomId : jstr) : jstr := js "room:" ++ roomId.
Definition roomPlayerCountKey (roomId : jstr) : jstr := js "room:" ++ roomId ++ js ":playerCount".
Definition roomPlayersKey (roomId : jstr) : jstr := js "room:" ++ roomId ++ js ":players".
Definition presenceKey (roomId userId : jstr) : jstr := js "room:presence:" ++ roomId ++ js ":" ++ userId.
Definition countdownKey (roomId : jstr) : jstr := js "room:countdown:" ++ roomId.
Definition COUNTDOWN_INDEX_KEY : jstr := js "room:countdowns".
Definition ticketKey (userId : jstr) : jstr := js "matchmaking:ticket:" ++ userId.
Definition MATCHMAKING_QUEUE_ZSET : jstr := js "matchmaking:queue:zset".

(** Sorted sets; members with equal scores are ordered by their bytes. *)
Class RedisZset (S : Type) := {
  r_zadd : jstr -> Z -> jstr -> S -> S;
  r_zrem : jstr -> jstr -> S -> S;
  (** [ZRANGE k 0 -1] *)
  r_zmembers : S -> jstr -> list jstr;
}.

Class RedisZsetLaws (B S : Type) `{!RedisOps B S} `{!RedisZset S} := {
  get_zadd k sc m s k' : r_get (B := B) (r_zadd k sc m s) k' = r_get s k';
  get_zrem k m s k' : r_get (B := B) (r_zrem k m s) k' = r_get s k';
  zmembers_nodup s k : NoDup (r_zmembers s k);
  zmembers_zadd k sc m s k' m' :
    m' ∈ r_zmembers (r_zadd k sc m s) k' <-> (k' = k /\ m' = m) \/ m' ∈ r_zmembers s k';
  zmembers_zrem k m s k' m' :
    m' ∈ r_zmembers (r_zrem k m s) k' <-> ~ (k' = k /\ m' = m) /\ m' ∈ r_zmembers s k';
  zmembers_set k (v : rvalue B) ttl s k' : k <> k' -> r_zmembers (r_set k v ttl s) k' = r_zmembers s k';
  zmembers_del k s k' : k <> k' -> r_zmembers (r_del k s) k' = r_zmembers s k';
}.

Section Commands.
Context {S : Type} `{!RedisOps LobbyDoc S} `{!RedisZset S}.
Implicit Types s : S.

(** [Number(text)] of what the code and the server write there: a plain
    numeral. *)
Definition lua_number (v : option (rvalue LobbyDoc)) : option Z :=
  match v with Some (Text t) => integer_value t | _ => None end.

(** [SET k v KEEPTTL] *)
Definition set_keepttl (k : jstr) (v : rvalue LobbyDoc) (ttl : Z) : S -> S := fun s =>
  r_set k v (if r_volatile s k then Some ttl else None) s.

Definition DECR_PLAYER_COUNT_SCRIPT (k : jstr) (by_ ttl : Z) : Script S := fun s =>
  let existed := bool_decide (is_Some (r_get s k)) in
  match lua_number (if existed then r_get s k else Some (Text (js "0"))) with
  | None => (None, s)
  | Some v0 =>
      let v := if v0 - by_ <? 0 then 0 else v0 - by_ in
      (Some (RInt v),
       if existed then set_keepttl k (Text (js_of_Z v)) ttl s
       else r_pexpire k (ttl * 1000) (r_set k (Text (js_of_Z v)) None s))
  end.

Definition INCR_PLAYER_COUNT_SCRIPT (k : jstr) (ttl : Z) : Script S := fun s =>
  match r_incr k s with
  | None => (None, s)
  | Some (v, s1) => (Some (RInt v), if r_volatile s1 k then s1 else r_pexpire k (ttl * 1000) s1)
  end.

Definition with_count (count : Z) (sn : RoomSnapshot) : RoomSnapshot :=
  mkSnapshot (sn_id sn) (sn_code sn) (sn_status sn) (sn_hostId sn) count (sn_currentMatchId sn)
    (sn_timeLimit sn) (sn_category sn).

(** A snapshot is never anything but the JSON of [setSnapshot]; on another
    value [cjson] stops the script. *)
Definition SET_PLAYER_COUNT_FIELD_SCRIPT (k : jstr) (count : Z) : Script S := fun s =>
  match r_get s k with
  | None => (Some RNil, s)
  | Some (Blob (DocRoom sn)) => (Some (RInt 1), set_keepttl k (Blob (DocRoom (with_count count sn))) 3600 s)
  | Some _ => (None, s)
  end.

(** The script of [removeTicket] for one socket. *)
Definition removeTicket_script (userId socketId : jstr) : Script S := fun s =>
  match r_get s (ticketKey userId) with
  | None => (Some (RInt 0), s)
  | Some (Blob (DocTicket t)) =>
      if negb (bool_decide (tk_socketId t = socketId)) then (Some (RInt 0), s)
      else
        let s1 := r_del (ticketKey userId) s in
        (Some (RInt (if bool_decide (userId ∈ r_zmembers s1 MATCHMAKING_QUEUE_ZSET) then 1 else 0)),
         r_zrem MATCHMAKING_QUEUE_ZSET userId s1)
  | Some _ => (None, s)
  end.

(** The script of [atomicPopTickets]; its reply is the list of values. *)
Definition atomicPopTickets_script (userIds : list jstr) (s : S) : list (rvalue LobbyDoc) * S :=
  let vals := (fun u => r_get s (ticketKey u)) <$> userIds in
  if forallb (fun v => bool_decide (is_Some v)) vals then
    (omap id vals,
     foldl (fun s u => r_del (ticketKey u) (r_zrem MATCHMAKING_QUEUE_ZSET u s)) s userIds)
  else
    ([], foldl (fun s u => if bool_decide (is_Some (r_get s (ticketKey u))) then s
                           else r_zrem MATCHMAKING_QUEUE_ZSET u s) s userIds).

Definition zrem_all (key : jstr) (members : list jstr) (s : S) : S :=
  foldl (fun s m => r_zrem key m s) s members.

Inductive RedisCmd : Type -> Type :=
| KGet (key : jstr) : RedisCmd (option (rvalue LobbyDoc))
| KMget (keys : list jstr) : RedisCmd (list (option (rvalue LobbyDoc)))
| KSet (key : jstr) (value : rvalue LobbyDoc) (ttlSec : Z) : RedisCmd unit
| KSetIfAbsent (key : jstr) (value : rvalue LobbyDoc) (ttlSec : Z) : RedisCmd bool
| KDel (key : jstr) : RedisCmd unit
| KExists (key : jstr) : RedisCmd bool
| KIncr (key : jstr) : RedisCmd Z
| KSadd (key : jstr) (members : list jstr) : RedisCmd unit
| KSrem (key : jstr) (members : list jstr) : RedisCmd unit
| KSmembers (key : jstr) : RedisCmd (list jstr)
| KZcard (key : jstr) : RedisCmd Z
| KZrange (key : jstr) : RedisCmd (list jstr)
| KZrem (key : jstr) (members : list jstr) : RedisCmd unit
| KDecrCount (key : jstr) (by_ ttlSec : Z) : RedisCmd Z
| KIncrCount (key : jstr) (ttlSec : Z) : RedisCmd Z
| KCountField (key : jstr) (count : Z) : RedisCmd unit
| KAcquireLease (key value : jstr) (ttlSec : Z) : RedisCmd bool
| KRenewLease (key value : jstr) (ttlSec : Z) : RedisCmd bool
| KReleaseLease (key value : jstr) : RedisCmd bool
(** The [MULTI] of [persistLobbyCountdown], of [clearPersistedCountdown]. *)
| KPersistCountdown (roomId : jstr) (countdownEndsAt ttlSec : Z) : RedisCmd unit
| KClearCountdown (roomId : jstr) : RedisCmd unit
(** The pipeline of [addTicket] (which of its two commands succeeded) and of
    its cleanup, the two ways of [removeTicket], the pop. *)
| KAddTicket (t : MatchmakingTicket) (ttlSec : Z) : RedisCmd (bool * bool)
| KDropTicket (userId : jstr) (del zrem : bool) : RedisCmd unit
| KRemoveTicket (userId : jstr) : RedisCmd bool
| KRemoveTicketOf (userId socketId : jstr) : RedisCmd bool
| KPopTickets (userIds : list jstr) : RedisCmd (list (rvalue LobbyDoc)).

Definition number_reply (r : reply) : outcome exn Z :=
  match r with RInt n => Ok n | _ => Throw (JsError "NaN") end.
Definition ignore_reply (r : reply) : outcome exn unit := Ok tt.

Definition exec_redis {X} (c : RedisCmd X) : S -> outcome exn X * S :=
  match c in RedisCmd X return S -> outcome exn X * S with
  | KGet key => fun s => (Ok (r_get s key), s)
  | KMget keys => fun s => (Ok (r_get s <$> keys), s)
  | KSet key value ttlSec => fun s => (Ok tt, r_set key value (Some ttlSec) s)
  | KSetIfAbsent key value ttlSec => fun s =>
      match r_get s key with
      | None => (Ok true, r_set key value (Some ttlSec) s)
      | Some _ => (Ok false, s)
      end
  | KDel key => fun s => (Ok tt, r_del key s)
  | KExists key => fun s => (Ok (bool_decide (is_Some (r_get s key))), s)
  | KIncr key => fun s =>
      match r_incr key s with
      | Some (n, s') => (Ok n, s')
      | None => (Throw (JsError "ReplyError"), s)
      end
  | KSadd key members => fun s => (Ok tt, foldl (fun s m => r_sadd key m s) s members)
  | KSrem key members => fun s => (Ok tt, foldl (fun s m => r_srem key m s) s members)
  | KSmembers key => fun s => (Ok (r_smembers s key), s)
  | KZcard key => fun s => (Ok (Z.of_nat (length (r_zmembers s key))), s)
  | KZrange key => fun s => (Ok (r_zmembers s key), s)
  | KZrem key members => fun s => (Ok tt, zrem_all key members s)
  | KDecrCount key by_ ttlSec => eval (DECR_PLAYER_COUNT_SCRIPT key by_ ttlSec) number_reply
  | KIncrCount key ttlSec => eval (INCR_PLAYER_COUNT_SCRIPT key ttlSec) number_reply
  | KCountField key count => eval (SET_PLAYER_COUNT_FIELD_SCRIPT key count) ignore_reply
  | KAcquireLease key value ttlSec => acquireLease key value ttlSec
  | KRenewLease key value ttlSec => renewLease key value ttlSec
  | KReleaseLease key value => releaseLease key value
  | KPersistCountdown roomId countdownEndsAt ttlSec => fun s =>
      (Ok tt, r_sadd COUNTDOWN_INDEX_KEY roomId
                (r_set (countdownKey roomId) (Text (js_of_Z countdownEndsAt)) (Some ttlSec) s))
  | KClearCountdown roomId => fun s =>
      (Ok tt, r_srem COUNTDOWN_INDEX_KEY roomId (r_del (countdownKey roomId) s))
  | KAddTicket t ttlSec => fun s =>
      (Ok (true, true), r_zadd MATCHMAKING_QUEUE_ZSET (tk_elo t) (tk_userId t)
                (r_set (ticketKey (tk_userId t)) (Blob (DocTicket t)) (Some ttlSec) s))
  | KDropTicket userId del zrem => fun s =>
      let s1 := if del then r_del (ticketKey userId) s else s in
      (Ok tt, if zrem then r_zrem MATCHMAKING_QUEUE_ZSET userId s1 else s1)
  | KRemoveTicket userId => fun s =>
      let s1 := r_del (ticketKey userId) s in
      (Ok (bool_decide (userId ∈ r_zmembers s1 MATCHMAKING_QUEUE_ZSET)),
       r_zrem MATCHMAKING_QUEUE_ZSET userId s1)
  | KRemoveTicketOf userId socketId =>
      eval (removeTicket_script userId socketId)
        (fun r => match r with RInt n => Ok (0 <? n) | _ => Ok false end)
  | KPopTickets userIds => fun s => let '(vals, s') := atomicPopTickets_script userIds s in (Ok vals, s')
  end.
End Commands.
