(* ===== verification/LobbyTables.v ===== *)
(** * Concrete tables and a concrete Redis for the lobby

    Instances of [RoomDb] and of the sorted sets, which satisfy their laws: the
    witnesses and examples evaluate the lobby services on them. *)

From stdpp Require Import gmap.
From S2P Require Import Prelude JsData Effects Shared Decimal Redis Lease LobbyStore.
#[local] Open Scope Z_scope.

(** ** Tables *)

Record RawTables := mkTables {
  tb_rooms : list RoomRecord;
  tb_players : gmap jstr (list jstr);
  tb_matches : gmap jstr (list (jstr * bool));
  tb_users : gmap jstr (option jstr * option Z);
  tb_audit : list (jstr * list jstr);
}.

Record tables_ok (t : RawTables) : Prop := {
  tok_ids : NoDup (ro_id <$> tb_rooms t);
  tok_codes : NoDup (ro_code <$> tb_rooms t);
  tok_players r : NoDup (default [] (tb_players t !! r));
  tok_matches r : NoDup (default [] (tb_matches t !! r)).*1;
}.

Definition Tables : Type := { t : RawTables | tables_ok t }.

Definition has_room (t : RawTables) (r : jstr) : bool := bool_decide (r ∈ (ro_id <$> tb_rooms t)).
Definition players_of (t : RawTables) (r : jstr) : list jstr :=
  if has_room t r then default [] (tb_players t !! r) else [].

Definition raw_id (t : RawTables) : jstr := js "r" ++ js_of_Z (Z.of_nat (length (tb_rooms t))).
Definition raw_create (n : NewRoom) (t : RawTables) : RawTables :=
  mkTables (tb_rooms t ++ [new_room (raw_id t) 0 n]) (delete (raw_id t) (tb_players t))
    (tb_matches t) (tb_users t) (tb_audit t).
Definition may_create (n : NewRoom) (t : RawTables) : Prop :=
  (raw_id t ∉ (ro_id <$> tb_rooms t)) /\ (nr_code n ∉ (ro_code <$> tb_rooms t)) /\ is_Some (tb_users t !! nr_hostId n).
Definition raw_update (r : jstr) (status : RoomStatus) (m : option (option jstr)) (t : RawTables) : RawTables :=
  mkTables ((fun x => if decide (ro_id x = r) then update_room status m x else x) <$> tb_rooms t)
    (tb_players t) (tb_matches t) (tb_users t) (tb_audit t).
Definition raw_delete (r : jstr) (t : RawTables) : RawTables :=
  mkTables (filter (fun x => ro_id x <> r) (tb_rooms t)) (delete r (tb_players t))
    (tb_matches t) (tb_users t) (tb_audit t).
Definition with_players (r : jstr) (l : list jstr) (t : RawTables) : RawTables :=
  mkTables (tb_rooms t) (<[r := l]> (tb_players t)) (tb_matches t) (tb_users t) (tb_audit t).
Definition may_add (r u : jstr) (t : RawTables) : Prop :=
  has_room t r /\ is_Some (tb_users t !! u) /\ u ∉ players_of t r.
Definition raw_finish (ids : list jstr) (t : RawTables) : RawTables :=
  mkTables (tb_rooms t) (tb_players t)
    (fmap (M := gmap jstr) (map (fun m : jstr * bool => (m.1, m.2 || bool_decide (m.1 ∈ ids)))) (tb_matches t))
    (tb_users t) (tb_audit t).
Definition raw_audit (r : jstr) (ids : list jstr) (t : RawTables) : RawTables :=
  mkTables (tb_rooms t) (tb_players t) (tb_matches t) (tb_users t) (tb_audit t ++ [(r, ids)]).

Lemma players_of_nodup t r : tables_ok t -> NoDup (players_of t r).
Proof. intros Ht. unfold players_of. destruct (has_room t r); [apply Ht|constructor]. Qed.

Lemma ok_create n t : may_create n t -> tables_ok t -> tables_ok (raw_create n t).
Proof.
  intros (Hi & Hc & _) [H1 H2 H3 H4]. split; cbn; rewrite ?fmap_app.
  - apply NoDup_app. split_and!; [done| |apply NoDup_singleton]. set_solver.
  - apply NoDup_app. split_and!; [done| |apply NoDup_singleton]. set_solver.
  - intros r. destruct (decide (raw_id t = r)) as [<-|]; [|by rewrite lookup_delete_ne].
    rewrite lookup_delete_eq. constructor.
  - exact H4.
Qed.

Lemma fmap_same {B} (f : RoomRecord -> B) g (l : list RoomRecord) : (forall x, f (g x) = f x) -> f <$> (g <$> l) = f <$> l.
Proof. intros H. rewrite <- list_fmap_compose. apply list_fmap_ext. intros i x _. apply H. Qed.

Lemma ok_update r st m t : tables_ok t -> tables_ok (raw_update r st m t).
Proof.
  intros [H1 H2 H3 H4]. split; cbn; [| |done|done];
    rewrite fmap_same; first [exact H1|exact H2|intros x; by case_decide].
Qed.

Lemma ok_delete r t : tables_ok t -> tables_ok (raw_delete r t).
Proof.
  intros [H1 H2 H3 H4]. split; cbn.
  - eapply sublist_NoDup; [exact H1|]. apply fmap_sublist, sublist_filter.
  - eapply sublist_NoDup; [exact H2|]. apply fmap_sublist, sublist_filter.
  - intros r'. destruct (decide (r = r')) as [->|]; [|by rewrite lookup_delete_ne].
    rewrite lookup_delete_eq. constructor.
  - exact H4.
Qed.

Lemma ok_players r l t : NoDup l -> tables_ok t -> tables_ok (with_players r l t).
Proof.
  intros Hl [H1 H2 H3 H4]. split; [done|done| |done]. intros r'. cbn.
  destruct (decide (r = r')) as [->|]; [by rewrite lookup_insert_eq|by rewrite lookup_insert_ne].
Qed.

Lemma ok_add r u t : may_add r u t -> tables_ok t -> tables_ok (with_players r (players_of t r ++ [u]) t).
Proof.
  intros (_ & _ & Hu) Ht. apply ok_players; [|done]. apply NoDup_app.
  split_and!; [by apply players_of_nodup| |apply NoDup_singleton]. set_solver.
Qed.

Lemma ok_remove (r : jstr) (us : list jstr) (t : RawTables) :
  tables_ok t -> tables_ok (with_players r (filter (fun u => u ∉ us) (players_of t r)) t).
Proof. intros Ht. apply ok_players; [|done]. by apply NoDup_filter, players_of_nodup. Qed.

Lemma ok_clear r t : tables_ok t -> tables_ok (with_players r [] t).
Proof. apply ok_players. constructor. Qed.

Lemma ok_finish ids t : tables_ok t -> tables_ok (raw_finish ids t).
Proof.
  intros [H1 H2 H3 H4]. split; [done|done|done|]. intros r. cbn. rewrite lookup_fmap. specialize (H4 r).
  destruct (tb_matches t !! r) as [l|]; cbn in *; [|done].
  enough ((map (fun m : jstr * bool => (m.1, m.2 || bool_decide (m.1 ∈ ids))) l).*1 = l.*1) as -> by done.
  change (map ?f l) with (f <$> l). rewrite <- list_fmap_compose. done.
Qed.
Lemma ok_audit r ids t : tables_ok t -> tables_ok (raw_audit r ids t).
Proof. by intros [H1 H2 H3 H4]. Qed.

#[export] Instance may_create_dec n t : Decision (may_create n t).
Proof. unfold may_create. apply _. Defined.
#[export] Instance may_add_dec r u t : Decision (may_add r u t).
Proof. unfold may_add. apply _. Defined.

#[export] Instance tables_room_db : RoomDb Tables := {
  rdb_rooms d := tb_rooms (`d);
  rdb_players d r := players_of (`d) r;
  rdb_matches d r := default [] (tb_matches (`d) !! r);
  rdb_user d u := tb_users (`d) !! u;
  rdb_create n d :=
    match decide (may_create n (`d)) with
    | left H => Some (new_room (raw_id (`d)) 0 n, exist _ _ (ok_create _ _ H (proj2_sig d)))
    | right _ => None
    end;
  rdb_update r st m d := exist _ _ (ok_update r st m _ (proj2_sig d));
  rdb_delete r d := exist _ _ (ok_delete r _ (proj2_sig d));
  rdb_add r u d :=
    match decide (may_add r u (`d)) with
    | left H => Some (exist _ _ (ok_add _ _ _ H (proj2_sig d)))
    | right _ => None
    end;
  rdb_remove r us d := exist _ _ (ok_remove r us _ (proj2_sig d));
  rdb_clear r d := exist _ _ (ok_clear r _ (proj2_sig d));
  rdb_finish ids t d :=
    (Z.of_nat (length (filter (fun id => id ∈ (fst <$> concat (snd <$> map_to_list (tb_matches (`d))))) ids)),
     exist _ _ (ok_finish ids _ (proj2_sig d)));
  rdb_audit r ids d := exist _ _ (ok_audit r ids _ (proj2_sig d));
}.

(** ** The laws hold *)

Lemma rdb_room_spec (d : Tables) r room : rdb_room d r = Some room <-> room ∈ tb_rooms (`d) /\ ro_id room = r.
Proof.
  unfold rdb_room. cbn. destruct (list_find _ _) as [[i x]|] eqn:E; cbn.
  - apply list_find_Some in E as (Hi & Hx & _). split.
    + intros [= <-]. split; [by eapply list_elem_of_lookup_2|done].
    + intros [Hin Hid]. f_equal. apply list_elem_of_lookup in Hin as [j Hj].
      enough (i = j) as -> by congruence.
      eapply NoDup_lookup; [apply (tok_ids _ (proj2_sig d))|..]; rewrite list_lookup_fmap.
      * by rewrite Hi.
      * rewrite Hj. cbn. congruence.
  - split; [done|]. intros [Hin Hid]. apply list_find_None in E. rewrite Forall_forall in E. by eapply E in Hin.
Qed.

Lemma rdb_room_None (d : Tables) r : rdb_room d r = None <-> r ∉ (ro_id <$> tb_rooms (`d)).
Proof.
  rewrite list_elem_of_fmap. split.
  - intros H (room & -> & Hin). by rewrite (proj2 (rdb_room_spec d _ room) (conj Hin eq_refl)) in H.
  - intros H. destruct (rdb_room d r) as [room|] eqn:E; [|done]. apply rdb_room_spec in E as [Hin <-].
    destruct H. by exists room.
Qed.

Lemma has_room_spec (d : Tables) r : has_room (`d) r = bool_decide (is_Some (rdb_room d r)).
Proof.
  unfold has_room. apply bool_decide_ext. pose proof (rdb_room_None d r) as H.
  destruct (decide (r ∈ (ro_id <$> tb_rooms (`d)))); destruct (rdb_room d r); naive_solver.
Qed.

(** Two tables agree on a room when they have the same row. *)
Lemma room_row (d : Tables) r (o : option RoomRecord) :
  (forall room, o = Some room <-> room ∈ tb_rooms (`d) /\ ro_id room = r) -> rdb_room d r = o.
Proof.
  intros H. destruct (rdb_room d r) as [room|] eqn:E.
  - symmetry. apply H. by apply rdb_room_spec in E.
  - destruct o as [room|]; [|done]. pose proof (proj1 (H room) eq_refl) as Hr.
    apply rdb_room_spec in Hr. congruence.
Qed.

#[export] Instance tables_room_db_laws : RoomDbLaws Tables.
Proof.
  split.
  - intros d. apply (tok_ids _ (proj2_sig d)).
  - intros d. apply (tok_codes _ (proj2_sig d)).
  - intros d r. apply players_of_nodup, (proj2_sig d).
  - intros d r. apply (tok_matches _ (proj2_sig d)).
  - intros d r. cbn. unfold players_of. rewrite has_room_spec. by case_bool_decide.
  - intros n d room d' r. cbn [rdb_create tables_room_db]. destruct (decide _) as [Hm|]; [|done]. intros [= <- <-].
    apply room_row. intros room. cbn [proj1_sig tb_rooms raw_create]. case_decide as He.
    + split; [intros [= <-]; split; [set_solver|done]|].
      intros [[Hin|Hin]%elem_of_app Hid]; [|by apply list_elem_of_singleton in Hin as ->].
      destruct Hm as (Hm & _). destruct Hm. apply list_elem_of_fmap. exists room. by rewrite Hid, He.
    + rewrite rdb_room_spec. split; [set_solver|].
      intros [[Hin|Hin]%elem_of_app Hid]; [done|]. apply list_elem_of_singleton in Hin as ->. by destruct He.
  - intros n d room d'. cbn [rdb_create tables_room_db]. destruct (decide _) as [Hm|]; [|done]. intros [= <- <-]. apply rdb_room_None. apply Hm.
  - intros n d room d'. cbn [rdb_create tables_room_db]. destruct (decide _) as [Hm|]; [|done]. intros [= <- <-]. by eexists.
  - intros n d room d' r. cbn. destruct (decide _) as [Hm|]; [|done]. intros [= <- <-]. cbn. unfold players_of, has_room. cbn.
    destruct (decide (r = raw_id (`d))) as [->|Hr].
    + rewrite lookup_delete_eq. destruct Hm as (Hm & _). rewrite (bool_decide_eq_false_2 (raw_id (`d) ∈ (ro_id <$> tb_rooms (`d)))) by done.
      by destruct (bool_decide _).
    + rewrite lookup_delete_ne by done. rewrite fmap_app. cbn.
      erewrite bool_decide_ext; [done|]. set_solver.
  - intros r st m d r'. apply room_row. intros room. cbn [rdb_update rdb_delete tables_room_db proj1_sig tb_rooms raw_update raw_delete]. rewrite list_elem_of_fmap. case_decide as He.
    + rewrite fmap_Some. setoid_rewrite rdb_room_spec. split.
      * intros (x & [Hin Hid] & ->). split; [|cbn; congruence]. exists x. by rewrite decide_True.
      * intros [(x & -> & Hin) Hid]. case_decide as Hx; [|by rewrite He in Hid]. exists x. done.
    + rewrite rdb_room_spec. split.
      * intros [Hin Hid]. split; [|done]. exists room. by rewrite decide_False by congruence.
      * intros [(x & -> & Hin) Hid]. case_decide as Hx; [|done]. cbn in Hid. congruence.
  - intros r st m d r'. cbn. unfold players_of, has_room. cbn. by rewrite fmap_same by (intros x; by case_decide).
  - intros r d r'. apply room_row. intros room. cbn [rdb_update rdb_delete tables_room_db proj1_sig tb_rooms raw_update raw_delete]. rewrite list_elem_of_filter. case_decide as He.
    + split; [done|]. intros [[Hne _] Hid]. congruence.
    + rewrite rdb_room_spec. naive_solver.
  - intros r d r'. cbn. unfold players_of, has_room. cbn. case_decide as He.
    + subst. rewrite lookup_delete_eq. by destruct (bool_decide _).
    + rewrite lookup_delete_ne by done. erewrite bool_decide_ext; [done|].
      rewrite !list_elem_of_fmap. setoid_rewrite list_elem_of_filter. naive_solver.
  - intros r u d. cbn. destruct (decide _) as [Hm|Hm]; split; try done.
    + intros _. destruct Hm as (Hr & Hu & Hp). split_and!; [|done|done]. rewrite has_room_spec in Hr. by apply bool_decide_unpack in Hr.
    + intros (Hr & Hu & Hp). destruct Hm. split_and!; [|done|done]. rewrite has_room_spec. by case_bool_decide.
  - intros r u d d' r'. cbn. destruct (decide _) as [Hm|]; [|done]. intros [= <-]. cbn.
    unfold players_of at 1. unfold has_room. cbn. case_decide as He.
    + subst. rewrite lookup_insert_eq. cbn. destruct Hm as (Hr & _). unfold has_room in Hr. by destruct (bool_decide _).
    + by rewrite lookup_insert_ne.
  - intros r u d d'. cbn. destruct (decide _) as [Hm|]; [|done]. by intros [= <-].
  - intros r us d r'. cbn. unfold players_of at 1. unfold has_room. cbn. case_decide as He.
    + subst. rewrite lookup_insert_eq. cbn. unfold players_of, has_room. by destruct (bool_decide _).
    + by rewrite lookup_insert_ne.
  - done.
  - intros r d r'. cbn. unfold players_of at 1. unfold has_room. cbn. case_decide as He.
    + subst. rewrite lookup_insert_eq. by destruct (bool_decide _).
    + by rewrite lookup_insert_ne.
  - done.
  - intros ids t d r Hd Hsub. cbn. f_equal. f_equal. clear Hd.
    assert (H : forall id, id ∈ ids -> id ∈ (fst <$> concat (snd <$> map_to_list (tb_matches (`d))))).
    { intros id Hid. apply Hsub in Hid. cbn in Hid. destruct (tb_matches (`d) !! r) as [l|] eqn:E; [|by apply elem_of_nil in Hid].
      apply list_elem_of_fmap in Hid as (m & -> & Hm). apply list_elem_of_fmap. exists m. split; [done|].
      apply list_elem_of_In, in_concat. exists l. rewrite <- !list_elem_of_In. split; [|done].
      apply list_elem_of_fmap. exists (r, l). split; [done|]. by apply elem_of_map_to_list. }
    clear Hsub. induction ids as [|id ids IH]; [done|]. rewrite filter_cons_True by (apply H; left).
    f_equal. apply IH. intros id' Hid'. apply H. by right.
  - intros ids t d r. cbn. rewrite lookup_fmap. by destruct (tb_matches (`d) !! r).
  - done.
  - done.
  - done.
  - done.
  - done.
  - done.
  - done.
Qed.

(** ** Redis with sorted sets *)

Record LobbyRedis := mkLobbyRedis {
  lr_store : store LobbyDoc;
  lr_zsets : gmap jstr (gmap jstr Z);
}.

Definition on_store (f : store LobbyDoc -> store LobbyDoc) (s : LobbyRedis) : LobbyRedis :=
  mkLobbyRedis (f (lr_store s)) (lr_zsets s).

(** By score, then by name. *)
Definition by_score (a b : jstr * Z) : Z := cmp_then (fun a b => a.2 - b.2) (fun a b => str_cmp a.1 b.1) a b.

#[export] Instance lobby_redis_ops : RedisOps LobbyDoc LobbyRedis := {
  r_get s := r_get (lr_store s);
  r_set k v ttl := on_store (r_set k v ttl);
  r_pexpire k ms := on_store (r_pexpire (B := LobbyDoc) k ms);
  r_del k := on_store (r_del (B := LobbyDoc) k);
  r_incr k s := (fun '(n, s') => (n, mkLobbyRedis s' (lr_zsets s))) <$> r_incr (B := LobbyDoc) k (lr_store s);
  r_sadd k m := on_store (r_sadd (B := LobbyDoc) k m);
  r_srem k m := on_store (r_srem (B := LobbyDoc) k m);
  r_sismember s := r_sismember (B := LobbyDoc) (lr_store s);
  r_smembers s := r_smembers (B := LobbyDoc) (lr_store s);
  r_volatile s := r_volatile (B := LobbyDoc) (lr_store s);
  r_expire k := on_store (r_expire (B := LobbyDoc) k);
  lua_tostring := lua_tostring (B := LobbyDoc) (S := store LobbyDoc);
}.

#[export] Instance lobby_redis_zset : RedisZset LobbyRedis := {
  r_zadd k sc m s :=
    mkLobbyRedis (lr_store s) (<[k := <[m := sc]> (default ∅ (lr_zsets s !! k))]> (lr_zsets s));
  r_zrem k m s := mkLobbyRedis (lr_store s) (<[k := delete m (default ∅ (lr_zsets s !! k))]> (lr_zsets s));
  r_zmembers s k := (js_sort by_score (map_to_list (default ∅ (lr_zsets s !! k)))).*1;
}.

Lemma lifted_incr k s n s' :
  r_incr (B := LobbyDoc) k s = Some (n, s') ->
  r_incr (B := LobbyDoc) k (lr_store s) = Some (n, lr_store s') /\ lr_zsets s' = lr_zsets s.
Proof.
  cbn -[store_ops]. destruct (r_incr k (lr_store s)) as [[n1 s1]|] eqn:E; [|done]. by intros [= <- <-].
Qed.

#[export] Instance lobby_redis_laws : RedisLaws LobbyDoc LobbyRedis.
Proof.
  pose proof (store_laws (B := LobbyDoc)) as L. split.
  all: try (intros k n s H1 H2; destruct (incr_some (B := LobbyDoc) (S := store LobbyDoc) k n (lr_store s) H1 H2) as [s' H'];
            eexists; cbn -[store_ops]; by rewrite H').
  all: try (intros k s H1; destruct (incr_none (B := LobbyDoc) (S := store LobbyDoc) k (lr_store s) H1) as [s' H'];
            eexists; cbn -[store_ops]; by rewrite H').
  - intros. apply (get_set (B := LobbyDoc) (S := store LobbyDoc)).
  - intros. apply (get_pexpire (B := LobbyDoc) (S := store LobbyDoc)).
  - intros. apply (get_del (B := LobbyDoc) (S := store LobbyDoc)).
  - intros. apply (get_expire (B := LobbyDoc) (S := store LobbyDoc)).
  - intros. apply (get_sadd (B := LobbyDoc) (S := store LobbyDoc)).
  - intros. apply (get_srem (B := LobbyDoc) (S := store LobbyDoc)).
  - intros k s n s' k' [H _]%lifted_incr. by apply (get_incr (B := LobbyDoc) (S := store LobbyDoc)).
  - intros k s n s' m [H _]%lifted_incr. by apply (incr_value (B := LobbyDoc) (S := store LobbyDoc) _ _ _ _ _ H).
  - intros k s n s' [H _]%lifted_incr. by apply (incr_first (B := LobbyDoc) (S := store LobbyDoc) _ _ _ _ H).
  - intros. by apply (volatile_absent (B := LobbyDoc) (S := store LobbyDoc)).
  - intros. apply (volatile_set (B := LobbyDoc) (S := store LobbyDoc)).
  - intros. by apply (volatile_pexpire (B := LobbyDoc) (S := store LobbyDoc)).
  - intros. by apply (volatile_del (B := LobbyDoc) (S := store LobbyDoc)).
  - intros. by apply (volatile_expire (B := LobbyDoc) (S := store LobbyDoc)).
  - intros. apply (volatile_sadd (B := LobbyDoc) (S := store LobbyDoc)).
  - intros. apply (volatile_srem (B := LobbyDoc) (S := store LobbyDoc)).
  - intros k s n s' k' [H _]%lifted_incr. by apply (volatile_incr (B := LobbyDoc) (S := store LobbyDoc) _ _ _ _ _ H).
  - intros. apply (members_spec (B := LobbyDoc) (S := store LobbyDoc)).
  - intros. apply (sismember_sadd (B := LobbyDoc) (S := store LobbyDoc)).
  - intros. apply (sismember_srem (B := LobbyDoc) (S := store LobbyDoc)).
  - intros. apply (sismember_set (B := LobbyDoc) (S := store LobbyDoc)).
  - intros. apply (sismember_pexpire (B := LobbyDoc) (S := store LobbyDoc)).
  - intros. by apply (sismember_del (B := LobbyDoc) (S := store LobbyDoc)).
  - intros. by apply (sismember_expire (B := LobbyDoc) (S := store LobbyDoc)).
  - intros k s n s' k' m [H _]%lifted_incr. by apply (sismember_incr (B := LobbyDoc) (S := store LobbyDoc) _ _ _ _ _ _ H).
  - intros. by apply (lua_tostring_small (B := LobbyDoc) (S := store LobbyDoc)).
  - intros n m H1 H2. by apply (lua_tostring_plain (B := LobbyDoc) (S := store LobbyDoc) n m).
Qed.

Lemma zmembers_elem (s : LobbyRedis) k m : m ∈ r_zmembers s k <-> is_Some (default ∅ (lr_zsets s !! k) !! m).
Proof.
  cbn. rewrite list_elem_of_fmap. split.
  - intros ([m' sc] & -> & H). rewrite js_sort_perm in H. apply elem_of_map_to_list in H. by exists sc.
  - intros [sc H]. exists (m, sc). split; [done|]. rewrite js_sort_perm. by apply elem_of_map_to_list.
Qed.

#[export] Instance lobby_redis_zset_laws : RedisZsetLaws LobbyDoc LobbyRedis.
Proof.
  split; try done.
  - intros s k. cbn. rewrite js_sort_perm. apply NoDup_fst_map_to_list.
  - intros k sc m s k' m'. rewrite !zmembers_elem. cbn. destruct (decide (k = k')) as [<-|Hk].
    + rewrite lookup_insert_eq. cbn. destruct (decide (m = m')) as [<-|Hm].
      * rewrite lookup_insert_eq. split; [by left|by eexists].
      * rewrite lookup_insert_ne by done. split; [by right|]. by intros [[_ ->]|H].
    + rewrite lookup_insert_ne by done. split; [by right|]. by intros [[-> _]|H].
  - intros k m s k' m'. rewrite !zmembers_elem. cbn. destruct (decide (k = k')) as [<-|Hk].
    + rewrite lookup_insert_eq. cbn. destruct (decide (m = m')) as [<-|Hm].
      * rewrite lookup_delete_eq. split; [by intros []|]. intros [[] _]. done.
      * rewrite lookup_delete_ne by done. split; [|by intros [_ H]]. intros H. split; [|done]. by intros [_ ->].
    + rewrite lookup_insert_ne by done. split; [|by intros [_ H]]. intros H. split; [|done]. by intros [-> _].
Qed.

Definition no_redis : LobbyRedis := mkLobbyRedis (mkStore ∅ ∅) ∅.

(** Users with their [guestId], and nothing else. *)
Definition raw_users (users : list (jstr * option jstr)) : RawTables :=
  mkTables [] ∅ ∅ (list_to_map ((fun u => (u.1, (u.2, Some 1200))) <$> users)) [].
Lemma ok_users users : tables_ok (raw_users users).
Proof. split; cbn; intros; constructor. Qed.
Definition fresh_tables (users : list (jstr * option jstr)) : Tables := exist _ _ (ok_users users).
