(* ===== verification/Pool.v ===== *)
(** * Programs that run concurrently

    Any number of programs of any number of processes, interleaved at their
    requests over one shared outside world.  Nothing is assumed of the memory
    of the processes: a synchronous segment may find any memory.  A program
    that never takes another step is one whose process has died. *)

From S2P Require Import Prelude JsData Effects Shared Async.
#[local] Open Scope Z_scope.

Section Pool.
Context {W O E : Type} {Q : Type -> Type}.
(** [answer q e r e']: the request may be answered so, and leave [e']. *)
Context (answer : forall X, Q X -> E -> outcome exn X -> E -> Prop).

Inductive pool_step : E * list (Prog W O Q unit) -> E * list (Prog W O Q unit) -> Prop :=
| pool_act e l1 l2 X (f : W -> X * W) k w :
    pool_step (e, l1 ++ Act f k :: l2) (e, l1 ++ k (f w).1 :: l2)
| pool_say e l1 l2 x k : pool_step (e, l1 ++ Say x k :: l2) (e, l1 ++ k :: l2)
| pool_await e e' l1 l2 X (q : Q X) k r :
    answer X q e r e' -> pool_step (e, l1 ++ Await q k :: l2) (e', l1 ++ k r :: l2).

(** Any number of steps.  An inductive of its own keeps the universe of
    programs apart from that of stdpp's relations. *)
Inductive pool_steps : E * list (Prog W O Q unit) -> E * list (Prog W O Q unit) -> Prop :=
| pool_refl s : pool_steps s s
| pool_next s s1 s' : pool_step s s1 -> pool_steps s1 s' -> pool_steps s s'.

(** Every request a program can make is one of [ok]. *)
Context (ok : forall X, Q X -> Prop).

Fixpoint confined {R} (p : Prog W O Q R) : Prop :=
  match p with
  | Done _ => True
  | Act f k => forall x, confined (k x)
  | Say _ k => confined k
  | Await q k => ok _ q /\ forall r, confined (k r)
  end.

Lemma confined_bind {A B} (p : Prog W O Q A) (k : A -> Prog W O Q B) :
  confined p -> (forall a, confined (k a)) -> confined (pbind p k).
Proof.
  intros Hp Hk. induction p as [[a|e]|X f c IH|x c IH|X q c IH]; cbn in *; try done.
  - intros x. by apply IH.
  - by apply IH.
  - destruct Hp as [Hq Hp]. split; [done|]. intros r. by apply IH.
Qed.

Lemma confined_attempt {A} (p : Prog W O Q A) : confined p -> confined (attempt p).
Proof.
  intros Hp. induction p as [o|X f c IH|x c IH|X q c IH]; cbn in *; try done.
  - intros x. by apply IH.
  - by apply IH.
  - destruct Hp as [Hq Hp]. split; [done|]. intros r. by apply IH.
Qed.

Lemma confined_for_each {A} (l : list A) (body : A -> Prog W O Q unit) :
  (forall x, x ∈ l -> confined (body x)) -> confined (for_each l body).
Proof.
  induction l as [|x l IH]; intros H; [done|]. cbn. apply confined_bind.
  - apply H. left.
  - intros _. apply IH. intros y Hy. apply H. by right.
Qed.

(** Every request of a trace is one of [ok]. *)
Fixpoint asks (t : list (Item O Q)) : Prop :=
  match t with
  | [] => True
  | Said _ :: t' => asks t'
  | Asked q _ :: t' => ok _ q /\ asks t'
  end.

Lemma asks_app t1 t2 : asks t1 -> asks t2 -> asks (t1 ++ t2).
Proof. induction t1 as [|[x|X q r] t1 IH]; cbn; naive_solver. Qed.

Lemma confined_asks {R} (p : Prog W O Q R) : confined p -> every_run p (fun _ t => asks t).
Proof.
  intros Hc Env w. revert w. induction p as [o|X f k IH|x k IH|X q k IH]; intros w; cbn in *; [done|by apply IH|..].
  - eapply always_mono; [|by apply IH]. done.
  - destruct Hc as [Hq Hc]. intros w1 r _. eapply always_mono; [|by apply IH]. done.
Qed.

Context (I : E -> Prop).

(** An invariant of the requests is one of every interleaving. *)
Lemma pool_keeps :
  (forall X (q : Q X) e r e', ok X q -> answer X q e r e' -> I e -> I e') ->
  forall s s', pool_steps s s' -> Forall confined s.2 -> I s.1 -> I s'.1 /\ Forall confined s'.2.
Proof.
  intros HI s s' Hr. induction Hr as [s|s s1 s' Hs _ IH]; intros Hc Hi; [done|].
  apply IH; clear IH; destruct Hs as [e l1 l2 X f k w|e l1 l2 x k|e e' l1 l2 X q k r Ha]; cbn in *;
    apply Forall_app in Hc as [Hc1 [Hc Hc2]%Forall_cons]; cbn in Hc;
    rewrite ?Forall_app, ?Forall_cons; try (by split_and!; try apply Hc); try done.
  by eapply HI; [apply Hc|..].
Qed.
End Pool.

(** ** A program alone, in parts *)

Section Alone.
Context {W O E : Type} {Q : Type -> Type}.
Context (answer : forall X, Q X -> W -> E -> outcome exn X * E).

Lemma drive_bind {A B} (p : Prog W O Q A) (k : A -> Prog W O Q B) w e :
  drive answer (pbind p k) w e =
  let '(o, w1, e1, l1) := drive answer p w e in
  match o with
  | Ok a => let '(o2, w2, e2, l2) := drive answer (k a) w1 e1 in (o2, w2, e2, l1 ++ l2)
  | Throw x => (Throw x, w1, e1, l1)
  end.
Proof.
  revert w e. induction p as [[a|x]|X f c IH|x c IH|X q c IH]; intros w e; cbn.
  - by destruct (drive answer (k a) w e) as [[[o2 w2] e2] l2].
  - done.
  - apply IH.
  - rewrite IH. destruct (drive answer c w e) as [[[o1 w1] e1] l1]. destruct o1 as [a|y]; [|done].
    by destruct (drive answer (k a) w1 e1) as [[[o2 w2] e2] l2].
  - destruct (answer X q w e) as [r e1]. apply IH.
Qed.

Lemma drive_attempt {A} (p : Prog W O Q A) w e :
  drive answer (attempt p) w e =
  let '(o, w1, e1, l1) := drive answer p w e in (Ok o, w1, e1, l1).
Proof.
  revert w e. induction p as [o|X f c IH|x c IH|X q c IH]; intros w e; cbn.
  - done.
  - apply IH.
  - rewrite IH. by destruct (drive answer c w e) as [[[o1 w1] e1] l1].
  - destruct (answer X q w e) as [r e1]. apply IH.
Qed.

(** The trace of the run that [drive] executes. *)
Fixpoint traced {R} (p : Prog W O Q R) (w : W) (e : E) : list (Item O Q) :=
  match p with
  | Done _ => []
  | Act f k => traced (k (f w).1) (f w).2 e
  | Say x k => Said x :: traced k w e
  | Await q k => let '(r, e1) := answer _ q w e in Asked q r :: traced (k r) w e1
  end.

Lemma traced_runs (Env : W -> W -> Prop) `{!Reflexive Env} {R} (p : Prog W O Q R) w e :
  runs Env p w (traced p w e) (drive answer p w e).1.1.1 (drive answer p w e).1.1.2.
Proof.
  revert w e. induction p as [o|X f k IH|x k IH|X q k IH]; intros w e; cbn.
  - constructor.
  - constructor. apply IH.
  - specialize (IH w e). destruct (drive answer k w e) as [[[o1 w1] e1] l1]. by constructor.
  - destruct (answer X q w e) as [r e1]. econstructor; [done|apply IH].
Qed.
End Alone.

(** ** Executing an interleaving *)

Section Schedule.
Context {W O E : Type} {Q : Type -> Type}.
Context (reply : forall X, Q X -> W -> E -> outcome exn X * E) (w : W).

(** [schedule]: which program takes the next step. *)
Fixpoint pool_run (schedule : list nat) (e : E) (pool : list (Prog W O Q unit)) : E * list (Prog W O Q unit) :=
  match schedule with
  | [] => (e, pool)
  | i :: schedule' =>
      match pool !! i with
      | Some (Act f k) => pool_run schedule' e (<[i := k (f w).1]> pool)
      | Some (Say _ k) => pool_run schedule' e (<[i := k]> pool)
      | Some (Await q k) => let '(r, e') := reply _ q w e in pool_run schedule' e' (<[i := k r]> pool)
      | _ => pool_run schedule' e pool
      end
  end.

Lemma pool_run_steps (answer : forall X, Q X -> E -> outcome exn X -> E -> Prop) :
  (forall X (q : Q X) e, answer X q e (reply X q w e).1 (reply X q w e).2) ->
  forall schedule e pool, pool_steps answer (e, pool) (pool_run schedule e pool).
Proof.
  intros Ha schedule. induction schedule as [|i schedule IH]; intros e pool; [constructor|]. cbn.
  destruct (pool !! i) as [p|] eqn:Hi; [|apply IH].
  assert (Hsplit : pool = take i pool ++ p :: drop (S i) pool) by (symmetry; by apply take_drop_middle).
  assert (Hins : forall p', <[i := p']> pool = take i pool ++ p' :: drop (S i) pool).
  { intros p'. apply insert_take_drop. by eapply lookup_lt_Some. }
  destruct p as [o|X f k|x k|X q k]; [apply IH|..].
  - eapply pool_next; [|apply IH]. rewrite Hins, Hsplit at 1. apply pool_act.
  - eapply pool_next; [|apply IH]. rewrite Hins, Hsplit at 1. apply pool_say.
  - specialize (Ha X q e). destruct (reply X q w e) as [r e']. cbn in Ha.
    eapply pool_next; [|apply IH]. rewrite Hins, Hsplit at 1. by apply pool_await.
Qed.
End Schedule.
