(* ===== verification/Lobby.v ===== *)
(** * The memory of the lobby services

    The services that work around the matches -- rooms, matchmaking, the lobby
    countdown, presence -- are programs over one memory, with the requests they
    wait for: statements of the tables, commands of Redis, the game loop, the
    bots, the sockets, timers. *)

From stdpp Require Import gmap.
From coqutil Require Export Datatypes.RecordSettersUsingExistingGetters.
From S2P Require Import Prelude JsData Effects Shared Redis Lease Events Async LobbyStore.
#[local] Open Scope Z_scope.
#[local] Open Scope prog_scope.

#[global] Arguments RecordSettersUsingExistingGetters.const {E} newValue / _.

(** ** Requests *)

Record FinishResult := mkFinishResult {
  fr_matchId : jstr;
  fr_winnerId : option jstr;
  fr_totalRounds : Z;
  fr_finishedAt : Z;
}.

(** [QLaunch], [QForceStart], [QForceFinish] and [QDisconnect] are methods of
    the game loop; [QForward] puts a [player_disconnect] on the command stream;
    [QSettled] waits for a promise of the process, at most so long. *)
Inductive LobbyReq : Type -> Type :=
| QDb {X} (c : DbCmd X) : LobbyReq X
| QRedis {X} (c : RedisCmd X) : LobbyReq X
| QLaunch (roomId : jstr) : LobbyReq unit
| QForceStart (roomId : jstr) : LobbyReq (option jstr)
| QForceFinish (matchId roomId : jstr) : LobbyReq (option FinishResult)
| QDisconnect (matchId userId : jstr) : LobbyReq unit
| QForward (matchId userId : jstr) : LobbyReq unit
| QEnsureBots (count avgElo : Z) : LobbyReq (list jstr)
| QSocketsJoin (socketId channel : jstr) : LobbyReq unit
| QSleep (ms : Z) : LobbyReq unit
| QSettled (promise : nat) (timeoutMs : Z) : LobbyReq unit.

(** ** Memory *)

(** [timer] is the handle that [setTimeout] returned. *)
Record LobbyCountdownEntry := mkCountdownEntry { ce_timer : option nat; ce_countdownEndsAt : Z }.

Record PendingRecoveryEntry := mkPendingEntry {
  pe_roomId : jstr;
  pe_countdownEndsAt : Z;
  pe_expired : bool;
  pe_retryCount : Z;
}.

(** What a pending timer does when it fires. *)
Inductive LobbyTimer :=
| TLaunch (roomId : jstr)
| TRetry (entry : PendingRecoveryEntry) (nextRetry : Z).

(** Calls that are started without waiting for them; a disconnect has the
    number of its promise. *)
Inductive LobbyJob :=
| JLaunch (roomId : jstr)
| JRecoverExpired (entry : PendingRecoveryEntry)
| JClearCountdown (roomId : jstr)
| JDeadLetter (roomId : jstr)
| JRollback (roomId : jstr)
| JSweepDeadLetters
| JDisconnect (promise : nat) (matchId userId : jstr).

Record Lobby := mkLobby {
  lb_clock : Clock;
  (** [crypto.getRandomValues]: the words to come, and how often it was called. *)
  lb_words : nat -> list Z;
  lb_draws : nat;
  (** [this.server]: whether [setServer] has been called. *)
  lb_server : bool;
  lb_refs : nat;
  (** The timers to fire, and the delays they were set with. *)
  lb_timers : gmap nat (LobbyTimer * Z);
  lb_jobs : list LobbyJob;
  (** LobbyCountdownService *)
  lb_countdowns : gmap jstr LobbyCountdownEntry;
  lb_recoveryInFlight : bool;
  lb_pendingRecovery : list PendingRecoveryEntry;
  lb_activeRetries : gset jstr;
  (** PresenceService *)
  lb_sweeping : bool;
  lb_presenceToken : option jstr;
  lb_strikes : gmap jstr Z;
  (** The matches that MatchOwnershipService holds for this process. *)
  lb_owned : gset jstr;
  (** MatchmakingWorkerService *)
  lb_processing : bool;
  lb_matchmakingToken : option jstr;
}.

Definition new_lobby (clock : Clock) : Lobby :=
  mkLobby clock (fun _ => repeat 0 6) 0 false 0 ∅ [] ∅ false [] ∅ false None ∅ ∅ false None.

Abbreviation LTask := (Prog Lobby Emission LobbyReq).

Definition sql {X} (c : DbCmd X) : LTask X := await (QDb c).
Definition redis {X} (c : RedisCmd X) : LTask X := await (QRedis c).

Definition date_now : LTask Z :=
  act (fun l => let '(t, c) := clock_tick (lb_clock l) in (t, { l with lb_clock := c })).

Definition random_words (length_ : Z) : LTask (list Z) :=
  act (fun l => (take (Z.to_nat length_) (lb_words l (lb_draws l)), { l with lb_draws ::= S })).

(** A number that is not used yet: a handle, a promise. *)
Definition fresh_ref : LTask nat :=
  act (fun l => (lb_refs l, { l with lb_refs ::= S })).

(** [setTimeout]: the handle. *)
Definition set_timeout (t : LobbyTimer) (delayMs : Z) : LTask nat :=
  h <- fresh_ref ;; writes (fun l => { l with lb_timers ::= <[h := (t, delayMs)]> }) ;; pret h.

Definition clear_timeout (h : option nat) (l : Lobby) : Lobby :=
  match h with Some h => { l with lb_timers ::= delete h } | None => l end.

(** [void p] *)
Definition start_job (j : LobbyJob) : LTask unit := writes (fun l => { l with lb_jobs ::= fun js => js ++ [j] }).

(** [try { p } catch { log }] *)
Definition best_effort {R} (p : LTask R) : LTask unit := attempt p ;; pret tt.

(** [Promise.all] of calls whose results are not used: all of them are made,
    and the first that failed is thrown. *)
Fixpoint settle_all {A} (l : list A) (body : A -> LTask unit) : LTask (outcome exn unit) :=
  match l with
  | [] => pret (Ok tt)
  | x :: l' =>
      o <- attempt (body x) ;;
      rest <- settle_all l' body ;;
      pret (match o with Throw e => Throw e | Ok _ => rest end)
  end.
Definition all_of {A} (l : list A) (body : A -> LTask unit) : LTask unit :=
  o <- settle_all l body ;; Done o.

(** [executeWithRetry(fn, retries, delay)], from the attempt number [attempt_]. *)
Fixpoint executeWithRetry {R} (retries : nat) (delay : Z) (fn : LTask R) : LTask R :=
  match retries with
  | O => raise (JsError "executeWithRetry failed")
  | S remaining =>
      o <- attempt fn ;;
      match o with
      | Ok r => pret r
      | Throw e =>
          match remaining with
          | O => raise e
          | S _ => await (QSleep delay) ;; executeWithRetry remaining delay fn
          end
      end
  end.
