(* ===== verification/Rooms.v ===== *)
(** * [room.service.ts] and [room-cache.store.ts]

    Rooms and their players in the tables, and what Redis keeps of them: a
    snapshot, a player counter, the set of players, the presence keys. *)

From Stdlib Require Import QArith Qround.
From stdpp Require Import gmap.
From S2P Require Import Prelude JsData Effects Shared Decimal Redis Lease Events Async LobbyStore Lobby.
#[local] Open Scope Z_scope.
#[local] Open Scope prog_scope.

Inductive JoinMode := PLAYER | SPECTATOR.

Definition ROOM_CACHE_TTL_SECONDS : Z := 3600.
Definition PRESENCE_TTL_SECONDS : Z := 40.

(** ** generateRoomCode *)

Definition ROOM_CODE_CHARS : jstr := js "ABCDEFGHJKMNPQRSTUVWXYZ23456789".

(** [words]: the 32-bit numbers of [crypto.getRandomValues]. *)
Definition generateRoomCode (words : list Z) : jstr :=
  omap (fun w => js_nth ROOM_CODE_CHARS (w mod Z.of_nat (length ROOM_CODE_CHARS))) words.

(** ** RoomCacheStore *)

Definition setSnapshot (room : RoomRecord) (playerCount : Z) : LTask unit :=
  redis (KSet (roomSnapshotKey (ro_id room))
    (Blob (DocRoom (mkSnapshot (ro_id room) (ro_code room) (ro_status room) (ro_hostId room) playerCount
       (ro_currentMatchId room) (ro_timeLimit room) (ro_category room)))) ROOM_CACHE_TTL_SECONDS).

Definition syncPlayerCount (roomId : jstr) (playerCount : Z) : LTask unit :=
  best_effort (redis (KCountField (roomSnapshotKey roomId) playerCount)).

Definition syncRoomState (view : RoomView) : LTask unit :=
  let room := rv_room view in
  existingCounter <- redis (KGet (roomPlayerCountKey (ro_id room))) ;;
  let playerCount := default (Z.of_nat (length (rv_players view))) (lua_number existingCounter) in
  setSnapshot room playerCount ;;
  match existingCounter with
  | None =>
      redis (KSetIfAbsent (roomPlayerCountKey (ro_id room)) (Text (js_of_Z playerCount))
               ROOM_CACHE_TTL_SECONDS) ;; pret tt
  | Some _ => pret tt
  end.

(** [None] is [NaN]. *)
Definition decrementPlayerCountClamped (roomId : jstr) (by_ : Z) : LTask (option Z) :=
  r <- attempt (redis (KDecrCount (roomPlayerCountKey roomId) by_ ROOM_CACHE_TTL_SECONDS)) ;;
  pret (ok_value r).
Definition incrementPlayerCount (roomId : jstr) : LTask (option Z) :=
  r <- attempt (redis (KIncrCount (roomPlayerCountKey roomId) ROOM_CACHE_TTL_SECONDS)) ;;
  pret (ok_value r).

Definition mirror_count (roomId : jstr) (newCount : option Z) : LTask unit :=
  match newCount with Some n => syncPlayerCount roomId n | None => pret tt end.

(** ** Presence keys *)

Definition updatePresence (roomId userId : jstr) : LTask unit :=
  redis (KSet (presenceKey roomId userId) (Text (js "1")) PRESENCE_TTL_SECONDS).
Definition clearPresence (roomId userId : jstr) : LTask unit := redis (KDel (presenceKey roomId userId)).
Definition checkPresence (roomId userId : jstr) : LTask bool := redis (KExists (presenceKey roomId userId)).

(** ** RoomService *)

(** [None] is [undefined] or [NaN]. *)
Definition safeMaxPlayers (maxPlayers : option Q) : Z :=
  Z.min (Z.max 2 (Qfloor (default (inject_Z GAME_CONFIG.MAX_PLAYERS) maxPlayers))) GAME_CONFIG.MAX_PLAYERS.

(** [createRoom] after [generateRoomCode]. *)
Definition create_with_code (code hostId : jstr) (roomType : RoomType) (maxPlayers : option Q)
    (timeLimit : option Z) (category : option jstr) : LTask RoomRecord :=
  room <- sql (DRoomCreate (mkNewRoom code roomType hostId (safeMaxPlayers maxPlayers)
                 (default 15 timeLimit) (default (js "ALL") category))) ;;
  sql (DPlayerCreate (ro_id room) hostId) ;;
  setSnapshot room 1 ;;
  redis (KSet (roomPlayerCountKey (ro_id room)) (Text (js "1")) ROOM_CACHE_TTL_SECONDS) ;;
  redis (KSadd (roomPlayersKey (ro_id room)) [hostId]) ;;
  pret room.

Definition createRoom (hostId : jstr) (roomType : RoomType) (maxPlayers : option Q)
    (timeLimit : option Z) (category : option jstr) : LTask RoomRecord :=
  words <- random_words GAME_CONFIG.ROOM_CODE_LENGTH ;;
  create_with_code (generateRoomCode words) hostId roomType maxPlayers timeLimit category.

Definition found {A} (code : ErrorCode) (o : option A) : LTask A :=
  match o with Some a => pret a | None => raise (RoomError code) end.

Definition getRoom (roomId : jstr) : LTask RoomView :=
  room <- sql (DRoomById roomId) ;; found ROOM_NOT_FOUND room.
Definition getRoomByCode (code : jstr) : LTask RoomView :=
  room <- sql (DRoomByCode code) ;; found ROOM_NOT_FOUND room.
Definition listPublicRooms : LTask (list (RoomRecord * Z)) := sql DPublicRooms.
Definition getUserActiveRooms (userId : jstr) : LTask (list RoomView) := sql (DUserRooms userId).
Definition getActiveRooms : LTask (list ActiveRoom) := sql DActiveRooms.
Definition getRoomPlayerIds (roomId : jstr) : LTask (list jstr) := redis (KSmembers (roomPlayersKey roomId)).

Record JoinResult := mkJoinResult { jr_room : RoomView; jr_joined : bool; jr_joinedAs : JoinMode }.

Definition join_result (roomId : jstr) (joined : bool) (joinedAs : JoinMode) : LTask JoinResult :=
  updatedRoom <- getRoom roomId ;; pret (mkJoinResult updatedRoom joined joinedAs).

Definition count_joined (roomId userId : jstr) : LTask unit :=
  redis (KSadd (roomPlayersKey roomId) [userId]) ;;
  newCount <- incrementPlayerCount roomId ;;
  mirror_count roomId newCount.

Definition joinRoom (roomCode userId : jstr) : LTask JoinResult :=
  view <- sql (DRoomByCode roomCode) ;;
  match view with
  | None => raise (RoomError ROOM_NOT_FOUND)
  | Some view =>
      let roomId := ro_id (rv_room view) in
      if bool_decide (userId ∈ rv_players view) then join_result roomId false PLAYER
      else
        match ro_status (rv_room view) with
        | RWAITING =>
            didCreate <- sql (DJoin roomId userId) ;;
            (if didCreate : bool then count_joined roomId userId else pret tt) ;;
            join_result roomId didCreate PLAYER
        | RIN_GAME | RFINISHED => join_result roomId false SPECTATOR
        | RCOUNTDOWN | RSTARTING => raise (RoomError ROOM_ALREADY_STARTED)
        end
  end.

(** The counter after [count] rows were deleted. *)
Definition count_removed (roomId : jstr) (count : Z) : LTask unit :=
  if 0 <? count then
    newCount <- decrementPlayerCountClamped roomId count ;; mirror_count roomId newCount
  else pret tt.

Definition leaveRoom (roomId userId : jstr) : LTask RoomView :=
  count <- sql (DPlayersDelete roomId [userId]) ;;
  redis (KSrem (roomPlayersKey roomId) [userId]) ;;
  best_effort (clearPresence roomId userId) ;;
  count_removed roomId count ;;
  getRoom roomId.

Definition removePlayer (roomId userId : jstr) : LTask unit :=
  count <- sql (DPlayersDelete roomId [userId]) ;;
  redis (KSrem (roomPlayersKey roomId) [userId]) ;;
  clearPresence roomId userId ;;
  count_removed roomId count.

(** The cleanup of one batch: the set, and a presence key per user. *)
Definition removePlayerBatch (roomId : jstr) (userIds : list jstr) : LTask unit :=
  if bool_decide (userIds = []) then pret tt
  else
    count <- sql (DPlayersDelete roomId userIds) ;;
    all_of (None :: (Some <$> userIds)) (fun u =>
      match u with
      | None => redis (KSrem (roomPlayersKey roomId) userIds)
      | Some userId => clearPresence roomId userId
      end) ;;
    count_removed roomId count.

(** [options]: the expected status and match, when the call gives them. *)
Definition updateRoomStatus (roomId : jstr) (status : RoomStatus) (currentMatchId : option (option jstr))
    (options : option (option RoomStatus * option (option jstr))) : LTask (option RoomView) :=
  match options with
  | Some (expectedStatus, expectedMatch) =>
      room <- sql (DRoomUpdateIf roomId status currentMatchId expectedStatus expectedMatch) ;;
      match room with
      | None => pret None
      | Some view => syncRoomState view ;; pret (Some view)
      end
  | None =>
      view <- sql (DRoomUpdate roomId status currentMatchId) ;;
      syncRoomState view ;; pret (Some view)
  end.

Inductive Cleanup := CleanKey (key : jstr) | CleanPresence (userId : jstr) | CleanCountdown.

Definition cleanup (roomId : jstr) (c : Cleanup) : LTask unit :=
  match c with
  | CleanKey key => redis (KDel key)
  | CleanPresence userId => clearPresence roomId userId
  | CleanCountdown => redis (KClearCountdown roomId)
  end.

(** The ids of the matches the transaction finished; a failure of the cleanup
    is logged. *)
Definition disbandRoom (roomId : jstr) : LTask (list jstr) :=
  userIds <- attempt (redis (KSmembers (roomPlayersKey roomId))) ;;
  endedAt <- date_now ;;
  safetyNetMatchIds <- sql (DDisband roomId endedAt) ;;
  best_effort (all_of
    ([CleanKey (roomPlayersKey roomId); CleanKey (roomSnapshotKey roomId);
      CleanKey (roomPlayerCountKey roomId)]
     ++ (CleanPresence <$> default [] (ok_value userIds)) ++ [CleanCountdown]) (cleanup roomId)) ;;
  pret safetyNetMatchIds.
