(* ===== verification/RoomRules.v ===== *)
(** * What [room.service.ts] guarantees

    No interleaving of calls overfills a room; what [joinRoom] answers in every
    status; what [disbandRoom] keeps of the history of a room. *)

From Stdlib Require Import QArith.
From stdpp Require Import gmap.
From S2P Require Import Prelude JsData Effects Shared Decimal Redis Lease Events Async LobbyStore LobbyTables Pool Lobby Rooms.
#[local] Open Scope Z_scope.
#[local] Open Scope prog_scope.

Section World.
Context {D S : Type} `{!RoomDb D} `{!RedisOps LobbyDoc S} `{!RedisZset S}.

(** The tables and Redis answer what is asked of them. *)
Definition lobby_answers (X : Type) (q : LobbyReq X) (l : Lobby) (e : D * S) : outcome exn X * (D * S) :=
  match q in LobbyReq X return outcome exn X * (D * S) with
  | QDb c => let '(o, d) := exec_db c e.1 in (o, (d, e.2))
  | QRedis c => let '(o, s) := exec_redis c e.2 in (o, (e.1, s))
  | _ => (Throw (JsError "not served"), e)
  end.

(** A request may also fail before it took effect, or after. *)
Inductive faulty (X : Type) (q : LobbyReq X) (e : D * S) : outcome exn X -> D * S -> Prop :=
| answered l : faulty X q e (lobby_answers X q l e).1 (lobby_answers X q l e).2
| refused err : faulty X q e (Throw err) e
| reply_lost l err : faulty X q e (Throw err) (lobby_answers X q l e).2.

(** The calls on rooms that exist. *)
Inductive RoomCall :=
| CallJoin (roomCode userId : jstr)
| CallLeave (roomId userId : jstr)
| CallRemove (roomId userId : jstr)
| CallRemoveBatch (roomId : jstr) (userIds : list jstr)
| CallStatus (roomId : jstr) (status : RoomStatus) (currentMatchId : option (option jstr))
    (options : option (option RoomStatus * option (option jstr)))
| CallDisband (roomId : jstr)
| CallPresence (roomId userId : jstr)
| CallGet (roomId : jstr).

Definition room_call (c : RoomCall) : LTask unit :=
  match c with
  | CallJoin roomCode userId => best_effort (joinRoom roomCode userId)
  | CallLeave roomId userId => best_effort (leaveRoom roomId userId)
  | CallRemove roomId userId => best_effort (removePlayer roomId userId)
  | CallRemoveBatch roomId userIds => best_effort (removePlayerBatch roomId userIds)
  | CallStatus roomId status m o => best_effort (updateRoomStatus roomId status m o)
  | CallDisband roomId => best_effort (disbandRoom roomId)
  | CallPresence roomId userId => best_effort (updatePresence roomId userId)
  | CallGet roomId => best_effort (getRoom roomId)
  end.

(** The requests these calls make: they insert players in [DJoin] only. *)
Definition room_request (X : Type) (q : LobbyReq X) : Prop :=
  match q with
  | QDb (DRoomCreate _) | QDb (DPlayerCreate _ _) => False
  | QDb _ | QRedis _ => True
  | _ => False
  end.

Ltac confine :=
  repeat match goal with
  | |- confined _ (pbind _ _) => apply confined_bind
  | |- confined _ (attempt _) => apply confined_attempt
  | |- confined _ (for_each _ _) => apply confined_for_each
  | |- confined _ (match ?x with _ => _ end) => destruct x
  | |- forall _, _ => intros ?
  | |- confined _ _ => first [done | by split]
  end.

Lemma confined_settle_all {A} (ok : forall X, LobbyReq X -> Prop) (l : list A) (body : A -> LTask unit) :
  (forall x, x ∈ l -> confined ok (body x)) -> confined ok (settle_all l body).
Proof.
  induction l as [|x l IH]; intros H; [done|]. cbn [settle_all]. apply confined_bind; [apply confined_attempt, H; left|].
  intros o. apply confined_bind; [|intros rest; done]. apply IH. intros y Hy. apply H. by right.
Qed.

Lemma confined_all_of {A} (ok : forall X, LobbyReq X -> Prop) (l : list A) (body : A -> LTask unit) :
  (forall x, x ∈ l -> confined ok (body x)) -> confined ok (all_of l body).
Proof. intros H. unfold all_of. apply confined_bind; [by apply confined_settle_all|by intros o]. Qed.

Lemma confined_count_removed roomId count : confined room_request (count_removed roomId count).
Proof. unfold count_removed, mirror_count, syncPlayerCount, best_effort. confine. Qed.

Lemma confined_sync view : confined room_request (syncRoomState view).
Proof. unfold syncRoomState. confine. Qed.

Lemma confined_getRoom roomId : confined room_request (getRoom roomId).
Proof. unfold getRoom, found. confine. Qed.

Lemma confined_joinRoom code userId : confined room_request (joinRoom code userId).
Proof.
  unfold joinRoom, join_result, count_joined, mirror_count, syncPlayerCount, best_effort.
  confine; apply confined_getRoom.
Qed.

Lemma room_call_confined c : confined room_request (room_call c).
Proof.
  destruct c; unfold room_call, best_effort; apply confined_bind; try done; apply confined_attempt.
  all: try first [apply confined_joinRoom|apply confined_getRoom].
  all: unfold leaveRoom, removePlayer, removePlayerBatch, updateRoomStatus, disbandRoom, updatePresence,
         best_effort; confine.
  all: try first [apply confined_count_removed|apply confined_getRoom|apply confined_sync
                 |apply confined_all_of; intros [] _; confine].
Qed.

(** ** Capacity *)

Context `{!RoomDbLaws D}.

Definition within_capacity (d : D) : Prop :=
  forall roomId room, rdb_room d roomId = Some room ->
    Z.of_nat (length (rdb_players d roomId)) <= ro_maxPlayers room.

Lemma room_in d r room : rdb_room d r = Some room -> ro_id room = r.
Proof.
  unfold rdb_room. destruct (list_find _ _) as [[i x]|] eqn:E; [|done]. intros [= <-].
  by apply list_find_Some in E as (_ & H & _).
Qed.

Lemma rooms_same d d' r : rdb_rooms d' = rdb_rooms d -> rdb_room d' r = rdb_room d r.
Proof. unfold rdb_room. by intros ->. Qed.

(** Nothing but an insertion can break it. *)
Lemma capacity_kept d d' :
  (forall r, rdb_room d' r = None \/ exists room room', rdb_room d r = Some room /\ rdb_room d' r = Some room'
      /\ ro_maxPlayers room' = ro_maxPlayers room) ->
  (forall r, (length (rdb_players d' r) <= length (rdb_players d r))%nat) ->
  within_capacity d -> within_capacity d'.
Proof.
  intros Hr Hp Hc r room' H'. destruct (Hr r) as [H|(room & room2 & H & H2 & Hm)]; [congruence|].
  rewrite H' in H2. injection H2 as <-. rewrite Hm. specialize (Hc r room H). specialize (Hp r). lia.
Qed.

Lemma same_rooms_kept d d' :
  rdb_rooms d' = rdb_rooms d ->
  (forall r, (length (rdb_players d' r) <= length (rdb_players d r))%nat) ->
  within_capacity d -> within_capacity d'.
Proof.
  intros Hr Hp. apply capacity_kept; [|done]. intros r. rewrite (rooms_same d d' r Hr).
  destruct (rdb_room d r) as [room|]; [|by left]. right. by exists room, room.
Qed.

Lemma updated_kept r st mid d : within_capacity d -> within_capacity (rdb_update r st mid d).
Proof.
  apply capacity_kept; intros r'; [|by rewrite update_players].
  rewrite update_row. case_decide; [subst r|]; destruct (rdb_room d r') as [room|]; cbn; [|by left| |by left];
    right; by exists room; eexists.
Qed.

Lemma deleted_kept r d : within_capacity d -> within_capacity (rdb_delete r d).
Proof.
  apply capacity_kept; intros r'; [rewrite delete_row|rewrite delete_players]; case_decide; cbn; try lia; [by left|].
  destruct (rdb_room d r') as [room|]; [|by left]. right. by exists room; eexists.
Qed.

Lemma cleared_kept r d : within_capacity d -> within_capacity (rdb_clear r d).
Proof.
  apply same_rooms_kept; [apply clear_rooms|]. intros r'. rewrite clear_players. case_decide; cbn; lia.
Qed.

Lemma finished_kept ids t d : within_capacity d -> within_capacity (rdb_finish ids t d).2.
Proof. apply same_rooms_kept; [apply finish_rooms|]. intros r'. by rewrite finish_players. Qed.

Lemma audited_kept r ids d : within_capacity d -> within_capacity (rdb_audit r ids d).
Proof. apply same_rooms_kept; [apply audit_rooms|]. intros r'. by rewrite audit_players. Qed.

Lemma join_kept r u d : within_capacity d -> within_capacity (join_transaction r u d).2.
Proof.
  intros Hc. unfold join_transaction. destruct (rdb_room d r) as [room|] eqn:Hr; [|done].
  case_bool_decide; [done|]. destruct (_ <=? _) eqn:Hf; [done|]. bool_to_prop.
  destruct (rdb_add r u d) as [d'|] eqn:Ha; [|done]. cbn. intros r' room' H'.
  rewrite (add_players r u d d' r' Ha). rewrite (rooms_same d d' r') in H' by by eapply add_rooms.
  case_decide as He; [subst|by apply Hc]. assert (room' = room) as -> by congruence.
  rewrite length_app. cbn. lia.
Qed.

Lemma disband_kept r t d : within_capacity d -> within_capacity (disband_transaction r t d).2.
Proof.
  intros Hc. unfold disband_transaction. destruct (rdb_room d r); [|done].
  case_bool_decide; [by apply deleted_kept, cleared_kept|].
  destruct (if bool_decide _ then _ else _) as [ids d1] eqn:E. cbn.
  apply cleared_kept, updated_kept. revert E. case_bool_decide; [by intros [= <- <-]|].
  destruct (rdb_finish _ _ _) as [n d2] eqn:Hf. pose proof (finished_kept (fst <$> filter (fun m => m.2 = false) (rdb_matches d r)) t d Hc) as H2.
  rewrite Hf in H2. cbn in H2. destruct (0 <? n); intros [= <- <-]; [by apply audited_kept|done].
Qed.

Lemma exec_kept X (c : DbCmd X) d :
  room_request X (QDb c) -> within_capacity d -> within_capacity (exec_db c d).2.
Proof.
  intros Hok Hc. destruct c; cbn in *; try done.
  - eapply same_rooms_kept; [apply remove_rooms| |done]. intros r. rewrite remove_players.
    case_decide; subst; [apply length_filter|done].
  - by apply join_kept.
  - destruct (rdb_room (rdb_update _ _ _ _) _); [by apply updated_kept|done].
  - destruct (rdb_room d roomId); [|done]. destruct (as_expected _ _ _); [by apply updated_kept|done].
  - pose proof (disband_kept roomId now d Hc) as H. by destruct (disband_transaction _ _ _).
Qed.

Lemma answers_kept X (q : LobbyReq X) l e :
  room_request X q -> within_capacity e.1 -> within_capacity (lobby_answers X q l e).2.1.
Proof.
  intros Hok Hc. destruct q; cbn in *; try done.
  - pose proof (exec_kept X c e.1 Hok Hc) as H. by destruct (exec_db c e.1).
  - by destruct (exec_redis c e.2).
Qed.

(** No interleaving overfills a room.  However many calls of joinRoom,
    leaveRoom, removePlayer, removePlayerBatch, updateRoomStatus, disbandRoom
    and the readers run at once, in however many processes, interleaved at
    their requests -- the transaction of joinRoom is one of them, taken apart
    in JoinLocks -- with requests that fail before or after they took effect
    and callers that die half-way: a room that had room for its players never
    has more players than its maxPlayers. *)
Theorem rooms_never_overfull (calls : list RoomCall) (e e' : D * S) (pool : list (LTask unit)) :
  within_capacity e.1 -> pool_steps faulty (e, room_call <$> calls) (e', pool) -> within_capacity e'.1.
Proof.
  intros Hc Hr.
  refine (proj1 (pool_keeps faulty room_request (fun e => within_capacity e.1) _ _ _ Hr _ Hc)).
  - intros X q e0 r e1 Hok Ha Hi. destruct Ha as [l|err|l err]; try done; by apply answers_kept.
  - apply Forall_fmap, Forall_true. intros c. apply room_call_confined.
Qed.
(** ** What [joinRoom] answers *)

(** The tables after a call alone. *)
Definition alone {R} (p : LTask R) (l : Lobby) (e : D * S) : outcome exn R * (D * S) :=
  let '(o, _, e', _) := drive lobby_answers p l e in (o, e').

Lemma alone_bind {A B} (p : LTask A) (k : A -> LTask B) l e o e1 :
  alone p l e = (o, e1) ->
  exists l1, alone (pbind p k) l e = match o with Ok a => alone (k a) l1 e1 | Throw x => (Throw x, e1) end.
Proof.
  unfold alone. rewrite drive_bind. destruct (drive lobby_answers p l e) as [[[o' l'] e'] t]. intros [= <- <-].
  exists l'. destruct o' as [a|x]; [|done]. by destruct (drive lobby_answers (k a) l' e') as [[[o2 l2] e2] t2].
Qed.

Lemma alone_sql {A B} (c : DbCmd A) (k : A -> LTask B) l d s :
  alone (pbind (sql c) k) l (d, s)
  = let '(o, d1) := exec_db c d in
    match o with Ok a => alone (k a) l (d1, s) | Throw x => (Throw x, (d1, s)) end.
Proof. unfold alone. cbn. by destruct (exec_db c d) as [[a|x] d1]. Qed.

Lemma alone_redis {A B} (c : RedisCmd A) (k : A -> LTask B) l d s :
  alone (pbind (redis c) k) l (d, s)
  = let '(o, s1) := exec_redis c s in
    match o with Ok a => alone (k a) l (d, s1) | Throw x => (Throw x, (d, s1)) end.
Proof. unfold alone. cbn. by destruct (exec_redis c s) as [[a|x] s1]. Qed.

(** The memory it leaves does not depend on what follows. *)
Lemma alone_seq {A} (p : LTask A) l e a e1 :
  alone p l e = (Ok a, e1) ->
  exists l1, forall B (k : A -> LTask B), alone (pbind p k) l e = alone (k a) l1 e1.
Proof.
  unfold alone. destruct (drive lobby_answers p l e) as [[[o' l'] e'] t] eqn:E. intros [= -> ->].
  exists l'. intros B k. rewrite drive_bind, E. by destruct (drive lobby_answers (k a) l' e1) as [[[o2 l2] e2] t2].
Qed.

(** What a program leaves when it only talks to Redis and no error leaves it. *)
Definition only_redis (p : LTask unit) : Prop :=
  forall l d s, exists s', alone p l (d, s) = (Ok tt, (d, s')).

Lemma only_redis_best_effort {X} (c : RedisCmd X) : only_redis (best_effort (redis c)).
Proof.
  intros l d s. unfold alone, best_effort, redis. cbn. destruct (exec_redis c s) as [o s']. by exists s'.
Qed.

Lemma only_redis_mirror roomId count : only_redis (mirror_count roomId count).
Proof.
  destruct count as [n|]; [apply only_redis_best_effort|]. intros l d s. by exists s.
Qed.

Lemma only_redis_count_joined roomId userId : only_redis (count_joined roomId userId).
Proof.
  intros l d s. unfold count_joined, alone. cbn.
  destruct (eval _ _ _) as [o s1]. destruct (only_redis_mirror roomId (ok_value o) l d s1) as [s2 H].
  exists s2. unfold alone in H. cbn in H. exact H.
Qed.

Lemma alone_then (p : LTask unit) {B} (k : LTask B) l d s :
  only_redis p -> exists l1 s1, alone (pbind p (fun _ => k)) l (d, s) = alone k l1 (d, s1).
Proof.
  intros H. destruct (H l d s) as [s1 Hs]. destruct (alone_bind p (fun _ => k) l (d, s) _ _ Hs) as [l1 H1].
  by exists l1, s1.
Qed.

Lemma alone_getRoom roomId l d s :
  alone (getRoom roomId) l (d, s)
  = (match rdb_room d roomId with Some r => Ok (room_view d r) | None => Throw (RoomError ROOM_NOT_FOUND) end, (d, s)).
Proof. unfold alone, getRoom. cbn. by destruct (rdb_room d roomId). Qed.

Lemma alone_join_result roomId room joined joinedAs l d s :
  rdb_room d roomId = Some room ->
  alone (join_result roomId joined joinedAs) l (d, s)
  = (Ok (mkJoinResult (room_view d room) joined joinedAs), (d, s)).
Proof.
  intros H. unfold join_result. destruct (alone_bind (getRoom roomId) (fun r => pret (mkJoinResult r joined joinedAs))
    l (d, s) _ _ (alone_getRoom roomId l d s)) as [l1 ->]. by rewrite H.
Qed.
Lemma room_of_row d room : room ∈ rdb_rooms d -> rdb_room d (ro_id room) = Some room.
Proof.
  intros Hin. unfold rdb_room. destruct (list_find _ _) as [[i x]|] eqn:E.
  - apply list_find_Some in E as (Hi & Hx & _). apply list_elem_of_lookup in Hin as [j Hj]. cbn. f_equal.
    enough (i = j) as -> by congruence. eapply NoDup_lookup; [apply (rooms_ids d)|..]; rewrite list_lookup_fmap.
    + by rewrite Hi.
    + rewrite Hj. cbn. congruence.
  - apply list_find_None in E. rewrite Forall_forall in E. by apply E in Hin.
Qed.

Lemma room_of_code d code room : rdb_by_code d code = Some room -> rdb_room d (ro_id room) = Some room.
Proof.
  unfold rdb_by_code. destruct (list_find _ _) as [[i x]|] eqn:E; [|done]. intros [= <-].
  apply list_find_Some in E as (Hi & _). by eapply room_of_row, list_elem_of_lookup_2.
Qed.

(** What [joinRoom] answers, on every branch.  An unknown code is
    ROOM_NOT_FOUND; a player of the room rejoins as a player in every status,
    COUNTDOWN and STARTING included; a newcomer to a WAITING room is added, or
    gets ROOM_FULL when the room has its maxPlayers; to a room IN_GAME or
    FINISHED a newcomer is a spectator, and one that is about to start refuses
    with ROOM_ALREADY_STARTED.  Only the branch that adds a player writes the
    tables, and it adds that player to that room and nothing else. *)
Theorem joinRoom_answers (code userId : jstr) (l : Lobby) (d : D) (s : S) :
  is_Some (rdb_user d userId) ->
  let '(o, (d', s')) := alone (joinRoom code userId) l (d, s) in
  match rdb_by_code d code with
  | None => o = Throw (RoomError ROOM_NOT_FOUND) /\ d' = d
  | Some room =>
      let roomId := ro_id room in
      let players := rdb_players d roomId in
      if bool_decide (userId ∈ players) then o = Ok (mkJoinResult (mkRoomView room players) false PLAYER) /\ d' = d
      else match ro_status room with
           | RWAITING =>
               if ro_maxPlayers room <=? Z.of_nat (length players)
               then o = Throw (RoomError ROOM_FULL) /\ d' = d
               else o = Ok (mkJoinResult (mkRoomView room (players ++ [userId])) true PLAYER)
                    /\ rdb_rooms d' = rdb_rooms d
                    /\ forall r, rdb_players d' r = if decide (r = roomId) then players ++ [userId] else rdb_players d r
           | RIN_GAME | RFINISHED =>
               o = Ok (mkJoinResult (mkRoomView room players) false SPECTATOR) /\ d' = d
           | RCOUNTDOWN | RSTARTING => o = Throw (RoomError ROOM_ALREADY_STARTED) /\ d' = d
           end
  end.
Proof.
  intros Hu. destruct (alone (joinRoom code userId) l (d, s)) as [o [d' s']] eqn:E. revert E.
  unfold joinRoom. rewrite alone_sql. cbn [exec_db].
  destruct (rdb_by_code d code) as [room|] eqn:Hc; cbn [fmap option_fmap option_map]; [|by intros [= <- <- <-]].
  apply room_of_code in Hc. cbn zeta. unfold room_view. cbn [rv_room rv_players].
  assert (Hkeep : forall joinedAs, alone (join_result (ro_id room) false joinedAs) l (d, s) = (o, (d', s')) ->
      o = Ok (mkJoinResult (mkRoomView room (rdb_players d (ro_id room))) false joinedAs) /\ d' = d).
  { intros joinedAs. rewrite (alone_join_result _ _ _ _ _ _ _ Hc). by intros [= <- <- <-]. }
  case_bool_decide as Hm; [by apply Hkeep|].
  destruct (ro_status room) eqn:Hs; try (by intros [= <- <- <-]); try apply Hkeep.
  rewrite alone_sql. cbn [exec_db]. unfold join_transaction. rewrite Hc, bool_decide_eq_false_2 by done.
  destruct (_ <=? _) eqn:Hf; [by intros [= <- <- <-]|].
  destruct (proj2 (add_some (ro_id room) userId d)) as [d1 Ha]; [by split_and!; [eexists|..]|]. rewrite Ha.
  destruct (alone_then (count_joined (ro_id room) userId) (join_result (ro_id room) true PLAYER) l d1 s)
    as (l1 & s1 & ->); [apply only_redis_count_joined|].
  rewrite (alone_join_result _ room) by by rewrite (rooms_same d d1) by by eapply add_rooms.
  intros [= <- <- <-]. unfold room_view. rewrite (add_players _ _ _ _ (ro_id room) Ha), decide_True by done.
  split_and!; [done|by eapply add_rooms|]. intros r. by rewrite (add_players _ _ _ _ r Ha).
Qed.
(** ** What [disbandRoom] keeps *)

Lemma unfinished_ids_sub d r :
  NoDup (fst <$> filter (fun m => m.2 = false) (rdb_matches d r))
  /\ (fst <$> filter (fun m => m.2 = false) (rdb_matches d r)) ⊆ (rdb_matches d r).*1.
Proof.
  split.
  - eapply sublist_NoDup; [apply (matches_nodup d r)|]. apply fmap_sublist, sublist_filter.
  - intros id (m & -> & [_ Hm]%list_elem_of_filter)%list_elem_of_fmap. by apply list_elem_of_fmap_2.
Qed.

(** Disbanding empties a room and never loses a match.  Afterwards the room
    has no player and no other room has changed.  A room that never had a
    match is deleted; one that had keeps its row, FINISHED and without a
    current match, and all its matches, each of them finished; the ids that
    are returned are exactly those of the matches that were not finished
    before. *)
Theorem disband_keeps_history roomId now d ids d' room :
  rdb_room d roomId = Some room -> disband_transaction roomId now d = (ids, d') ->
  rdb_players d' roomId = []
  /\ (forall r, r <> roomId -> rdb_room d' r = rdb_room d r /\ rdb_players d' r = rdb_players d r)
  /\ ids = (fst <$> filter (fun m => m.2 = false) (rdb_matches d roomId))
  /\ (if bool_decide (rdb_matches d roomId = []) then rdb_room d' roomId = None
      else rdb_room d' roomId = Some (update_room RFINISHED (Some None) room)
           /\ rdb_matches d' roomId = (fun m => (m.1, true)) <$> rdb_matches d roomId).
Proof.
  intros Hr. unfold disband_transaction. rewrite Hr.
  destruct (bool_decide (rdb_matches d roomId = [])) eqn:Hm; bool_to_prop.
  { intros [= <- <-]. rewrite delete_players, delete_row, !decide_True by done. split_and!; [done| |by rewrite Hm|done].
    intros r Hne. rewrite delete_row, delete_players, clear_players, !decide_False by done.
    by rewrite (rooms_same d (rdb_clear roomId d)) by apply clear_rooms. }
  destruct (unfinished_ids_sub d roomId) as [Hd Hsub].
  set (open := fst <$> filter (fun m => m.2 = false) (rdb_matches d roomId)) in *.
  set (step := if bool_decide (open = []) then _ else _).
  assert (Hstep : exists d1, step = (open, d1) /\ rdb_rooms d1 = rdb_rooms d
    /\ (forall r, rdb_players d1 r = rdb_players d r)
    /\ rdb_matches d1 roomId = (fun m => (m.1, true)) <$> rdb_matches d roomId).
  { unfold step. case_bool_decide as Ho.
    - exists d. split_and!; [by rewrite Ho|done|done|]. rewrite <- (list_fmap_id (rdb_matches d roomId)) at 1.
      apply list_fmap_ext. intros i [id b] Hi. cbn. destruct b; [done|]. exfalso.
      assert (Hin : id ∈ open); [|rewrite Ho in Hin; by apply elem_of_nil in Hin].
      apply list_elem_of_fmap. exists (id, false). split; [done|]. apply list_elem_of_filter.
      split; [done|by eapply list_elem_of_lookup_2].
    - pose proof (finish_count open now d roomId Hd Hsub) as Hn. pose proof (finish_rooms open now d) as H1.
      pose proof (finish_players open now d) as H2. pose proof (finish_matches open now d roomId) as H3.
      destruct (rdb_finish open now d) as [n d1]. cbn [fst snd] in *. subst n.
      rewrite (proj2 (Z.ltb_lt _ _)) by (destruct open; cbn; [done|lia]).
      eexists. split_and!; [done|by rewrite audit_rooms| |].
      + intros r. by rewrite audit_players, H2.
      + rewrite audit_matches, H3. apply list_fmap_ext. intros i [id b] Hi. cbn. f_equal. destruct b; [done|].
        apply bool_decide_eq_true_2, list_elem_of_fmap. exists (id, false). split; [done|]. apply list_elem_of_filter.
        split; [done|by eapply list_elem_of_lookup_2]. }
  destruct Hstep as (d1 & -> & H1 & H2 & H3). intros [= <- <-].
  rewrite clear_players, decide_True by done. split_and!; [done| |done| |].
  - intros r Hne. rewrite clear_players, update_players, decide_False, H2 by done.
    rewrite (rooms_same (rdb_update roomId RFINISHED (Some None) d1)) by apply clear_rooms.
    by rewrite update_row, decide_False, (rooms_same d d1) by done.
  - rewrite (rooms_same (rdb_update roomId RFINISHED (Some None) d1)) by apply clear_rooms.
    by rewrite update_row, decide_True, (rooms_same d d1), Hr by done.
  - by rewrite clear_matches, update_matches.
Qed.
End World.

(** ** Examples *)

Definition demo_users : Tables := fresh_tables [(js "u1", None); (js "u2", None); (js "u3", None)].
Definition demo_lobby : Lobby := new_lobby (mkClock (fun i => 1000 + Z.of_nat i) 0).

(** The room [ABC] of two, made by [u1]. *)
Definition demo_room : Tables * LobbyRedis :=
  (alone (create_with_code (js "ABC") (js "u1") PUBLIC (Some (inject_Z 2)) None None) demo_lobby
     (demo_users, no_redis)).2.

(** [u2] and [u3] read the room before either transaction. *)
Definition demo_race : (Tables * LobbyRedis) * list (LTask unit) :=
  pool_run lobby_answers demo_lobby (0 :: 1 :: repeat 1 10 ++ repeat 0 10)%nat demo_room
    (room_call <$> [CallJoin (js "ABC") (js "u2"); CallJoin (js "ABC") (js "u3")]).

Lemma demo_room_fits : within_capacity demo_room.1.
Proof.
  intros r room H. apply rdb_room_spec in H as [Hin <-].
  assert (Hall : Forall (fun x => Z.of_nat (length (rdb_players demo_room.1 (ro_id x))) <= ro_maxPlayers x)
                   (tb_rooms (`demo_room.1))).
  { apply (bool_decide_unpack _). vm_compute. exact I. }
  rewrite Forall_forall in Hall. by apply Hall.
Qed.

Lemma rooms_never_overfull_witness :
  rdb_players demo_race.1.1 (js "r0") = [js "u1"; js "u3"] /\ within_capacity demo_race.1.1.
Proof.
  split; [vm_compute; reflexivity|].
  apply (rooms_never_overfull [CallJoin (js "ABC") (js "u2"); CallJoin (js "ABC") (js "u3")]
           demo_room demo_race.1 demo_race.2 demo_room_fits).
  rewrite <- surjective_pairing. apply pool_run_steps. intros X q e. apply (answered X q e demo_lobby).
Defined.

Lemma joinRoom_answers_witness :
  is_Some (rdb_user demo_room.1 (js "u2"))
  /\ let '(o, (d', s')) := alone (joinRoom (js "ABC") (js "u2")) demo_lobby demo_room in
     rdb_players d' (js "r0") = [js "u1"; js "u2"] /\ (jr_joined <$> ok_value o) = Some true.
Proof.
  assert (Hu : is_Some (rdb_user demo_room.1 (js "u2"))) by (apply (bool_decide_unpack _); vm_compute; exact I).
  split; [exact Hu|].
  pose proof (joinRoom_answers (js "ABC") (js "u2") demo_lobby demo_room.1 demo_room.2 Hu) as H.
  revert H. rewrite <- surjective_pairing.
  destruct (alone (joinRoom (js "ABC") (js "u2")) demo_lobby demo_room) as [o [d' s']] eqn:E. intros _.
  assert (H1 : rdb_players (alone (joinRoom (js "ABC") (js "u2")) demo_lobby demo_room).2.1 (js "r0") = [js "u1"; js "u2"])
    by (vm_compute; reflexivity).
  assert (H2 : (jr_joined <$> ok_value (alone (joinRoom (js "ABC") (js "u2")) demo_lobby demo_room).1) = Some true)
    by (vm_compute; reflexivity).
  rewrite E in H1, H2. by split.
Defined.

(** A room that has played [m1] and is playing [m2]. *)
Definition raw_playing : RawTables :=
  mkTables [mkRoomRecord (js "r0") (js "ABC") PUBLIC RIN_GAME (js "u1") 2 15 (js "ALL") (Some (js "m2")) 0]
    {[ js "r0" := [js "u1"; js "u2"] ]} {[ js "r0" := [(js "m1", true); (js "m2", false)] ]} ∅ [].
Lemma playing_ok : tables_ok raw_playing.
Proof.
  split; cbn [raw_playing tb_rooms tb_players tb_matches].
  - apply (bool_decide_unpack _). by vm_compute.
  - apply (bool_decide_unpack _). by vm_compute.
  - intros r. destruct (decide (js "r0" = r)) as [<-|]; [|rewrite lookup_singleton_ne by done; constructor].
    rewrite lookup_singleton_eq. apply (bool_decide_unpack _). by vm_compute.
  - intros r. destruct (decide (js "r0" = r)) as [<-|]; [|rewrite lookup_singleton_ne by done; constructor].
    rewrite lookup_singleton_eq. apply (bool_decide_unpack _). by vm_compute.
Qed.
Definition demo_playing : Tables := exist _ _ playing_ok.

Lemma disband_keeps_history_witness :
  exists d', disband_transaction (js "r0") 7 demo_playing = ([js "m2"], d')
    /\ rdb_players d' (js "r0") = []
    /\ rdb_matches d' (js "r0") = [(js "m1", true); (js "m2", true)].
Proof.
  destruct (disband_transaction (js "r0") 7 demo_playing) as [ids d'] eqn:E.
  destruct (rdb_room demo_playing (js "r0")) as [room|] eqn:Hr; [|by exfalso; revert Hr; vm_compute].
  destruct (disband_keeps_history (js "r0") 7 demo_playing ids d' room Hr E) as (Hp & _ & Hids & Hrest).
  exists d'. split_and!; [|exact Hp|].
  - f_equal. rewrite Hids. vm_compute. reflexivity.
  - replace (bool_decide (rdb_matches demo_playing (js "r0") = [])) with false in Hrest by (vm_compute; reflexivity).
    destruct Hrest as [_ ->]. vm_compute. reflexivity.
Defined.
