(* ===== verification/JoinLocks.v ===== *)
(** * The join transaction, statement by statement

    [joinRoom] inserts a player in an interactive transaction that begins with
    SELECT ... FOR UPDATE on the room.  Here are its statements, what a
    database at READ COMMITTED makes of the statements of many sessions -- a
    session sees what others have committed and what it has inserted itself,
    and a row lock makes the others wait -- and the proof that the committed
    tables are those of a sequence of whole transactions: the row lock makes the
    statements meet the specification [LobbyStore.join_transaction]. *)

From stdpp Require Import gmap.
From coqutil Require Import Datatypes.RecordSettersUsingExistingGetters.
From S2P Require Import Prelude JsData Effects Shared Async LobbyStore LobbyTables Pool Lobby Rooms RoomRules.
#[local] Open Scope Z_scope.
#[local] Open Scope prog_scope.
#[local] Arguments RecordSettersUsingExistingGetters.const {E} newValue / _.

(** ** The transaction *)

Inductive TxReq : Type -> Type :=
| TBegin : TxReq unit
(** SELECT id, "maxPlayers" FROM "rooms" WHERE id = ... FOR UPDATE *)
| TLockRoom (roomId : jstr) : TxReq (option Z)
(** [roomPlayer.findFirst], [.count], [.create] *)
| TFind (roomId userId : jstr) : TxReq bool
| TCount (roomId : jstr) : TxReq Z
| TCreate (roomId userId : jstr) : TxReq unit
| TCommit : TxReq unit
| TRollback : TxReq unit
(** A statement outside of a transaction. *)
| TStatement {X : Type} (c : DbCmd X) : TxReq X.

Abbreviation TTask := (Prog unit Empty_set TxReq).

(** The callback of [$transaction] in [joinRoom]: [didCreate]. *)
Definition join_body (roomId userId : jstr) : TTask bool :=
  lockedRoom <- await (TLockRoom roomId) ;;
  match lockedRoom with
  | None => raise (RoomError ROOM_NOT_FOUND)
  | Some maxPlayers =>
      existing <- await (TFind roomId userId) ;;
      if existing : bool then pret false
      else
        currentPlayers <- await (TCount roomId) ;;
        if maxPlayers <=? currentPlayers then raise (RoomError ROOM_FULL)
        else
          await (TCreate roomId userId) ;;
          pret true
  end.

(** [$transaction]: a callback that throws is rolled back. *)
Definition join_statements (roomId userId : jstr) : TTask bool :=
  await TBegin ;;
  o <- attempt (join_body roomId userId) ;;
  match o with
  | Ok didCreate => await TCommit ;; pret didCreate
  | Throw error => attempt (await TRollback) ;; raise error
  end.

(** ** The database *)

(** [sx_locks]: the session that has the row of a room locked FOR UPDATE.
    [sx_created]: what a session has inserted and not committed.  [sx_over]:
    the sessions whose transaction was rolled back by the server.
    [sx_committed]: the insertions that were committed, in order. *)
Record Sessions (D : Type) := mkSessions {
  sx_tables : D;
  sx_locks : gmap jstr nat;
  sx_created : gmap nat (list (jstr * jstr));
  sx_over : gset nat;
  sx_committed : list (jstr * jstr);
}.
Arguments mkSessions {D}.
Arguments sx_tables {D}.
Arguments sx_locks {D}.
Arguments sx_created {D}.
Arguments sx_over {D}.
Arguments sx_committed {D}.

Section Database.
Context {D : Type} `{!RoomDb D}.
Implicit Types e : Sessions D.

Definition created_of (i : nat) e : list (jstr * jstr) := default [] (sx_created e !! i).

(** The end of a transaction: its locks and its uncommitted rows are gone. *)
Definition release (i : nat) e : Sessions D :=
  mkSessions (sx_tables e) (filter (fun kv => kv.2 <> i) (sx_locks e)) (delete i (sx_created e)) (sx_over e) (sx_committed e).

(** Somebody else has the row of the room locked. *)
Definition locked_by_other (i : nat) (roomId : jstr) e : Prop :=
  exists j, sx_locks e !! roomId = Some j /\ j <> i.
#[export] Instance locked_by_other_dec i r e : Decision (locked_by_other i r e).
Proof.
  unfold locked_by_other. destruct (sx_locks e !! r) as [j|].
  - destruct (decide (j = i)) as [->|]; [right|left]; [|by exists j]. intros (j & [= <-] & Hj). done.
  - right. by intros (j & ? & _).
Defined.

(** Another session has inserted a row that refers to the room: it holds the
    room FOR KEY SHARE. *)
Definition shared_by_other (i : nat) (roomId : jstr) e : Prop :=
  Exists (fun kv => kv.1 <> i /\ roomId ∈ kv.2.*1) (map_to_list (sx_created e)).

(** The unique index makes an insertion wait for another one of the same key. *)
Definition inserted_by_other (i : nat) (row : jstr * jstr) e : Prop :=
  Exists (fun kv => kv.1 <> i /\ row ∈ kv.2) (map_to_list (sx_created e)).

(** The rooms whose row a statement writes. *)
Definition writes_room {X} (c : DbCmd X) : option jstr :=
  match c with
  | DRoomUpdate roomId _ _ | DRoomUpdateIf roomId _ _ _ _ | DDisband roomId _ => Some roomId
  | _ => None
  end.

Definition waits_for_room {X} (i : nat) (c : DbCmd X) e : Prop :=
  match writes_room c with Some roomId => locked_by_other i roomId e \/ shared_by_other i roomId e | None => False end.
#[export] Instance waits_for_room_dec {X} i (c : DbCmd X) e : Decision (waits_for_room i c e).
Proof. unfold waits_for_room. destruct (writes_room c); [|apply _]. unfold shared_by_other. apply _. Defined.

(** The rows of a transaction become visible at once, or not at all. *)
Fixpoint insert_all (rows : list (jstr * jstr)) (d : D) : option D :=
  match rows with
  | [] => Some d
  | (roomId, userId) :: rows' => d' ← rdb_add roomId userId d; insert_all rows' d'
  end.

(** What session [i] is answered; [None]: it waits. *)
Definition tx_exec (i : nat) (X : Type) (q : TxReq X) e : option (outcome exn X * Sessions D) :=
  match q in TxReq X return option (outcome exn X * Sessions D) with
  | TBegin => Some (Ok tt, e)
  | TLockRoom roomId =>
      if decide (i ∈ sx_over e) then Some (Throw (PrismaError "P2028"), e)
      else if decide (locked_by_other i roomId e \/ shared_by_other i roomId e) then None
      else
        match rdb_room (sx_tables e) roomId with
        | None => Some (Ok None, e)
        | Some room =>
            Some (Ok (Some (ro_maxPlayers room)),
                  mkSessions (sx_tables e) (<[roomId := i]> (sx_locks e)) (sx_created e) (sx_over e) (sx_committed e))
        end
  | TFind roomId userId =>
      if decide (i ∈ sx_over e) then Some (Throw (PrismaError "P2028"), e)
      else Some (Ok (bool_decide (userId ∈ rdb_players (sx_tables e) roomId)
                     || bool_decide ((roomId, userId) ∈ created_of i e)), e)
  | TCount roomId =>
      if decide (i ∈ sx_over e) then Some (Throw (PrismaError "P2028"), e)
      else Some (Ok (Z.of_nat (length (rdb_players (sx_tables e) roomId)
                               + length (filter (fun row => row.1 = roomId) (created_of i e)))), e)
  | TCreate roomId userId =>
      if decide (i ∈ sx_over e) then Some (Throw (PrismaError "P2028"), e)
      else if decide (locked_by_other i roomId e \/ inserted_by_other i (roomId, userId) e) then None
      else
        match rdb_add roomId userId (sx_tables e) with
        | None =>
            Some (Throw (if bool_decide (userId ∈ rdb_players (sx_tables e) roomId) then PrismaError "P2002"
                         else JsError "Foreign key constraint violated"), e)
        | Some _ =>
            if decide ((roomId, userId) ∈ created_of i e) then Some (Throw (PrismaError "P2002"), e)
            else
              Some (Ok tt, mkSessions (sx_tables e) (sx_locks e)
                             (<[i := created_of i e ++ [(roomId, userId)]]> (sx_created e)) (sx_over e) (sx_committed e))
        end
  | TCommit =>
      if decide (i ∈ sx_over e) then Some (Throw (PrismaError "P2028"), e)
      else
        match insert_all (created_of i e) (sx_tables e) with
        | None => Some (Throw (PrismaError "P2034"), release i e)
        | Some d =>
            Some (Ok tt, release i (mkSessions d (sx_locks e) (sx_created e) (sx_over e) (sx_committed e ++ created_of i e)))
        end
  | TRollback => Some (Ok tt, release i e)
  | TStatement c =>
      if decide (waits_for_room i c e) then None
      else let '(o, d) := exec_db c (sx_tables e) in
           Some (o, mkSessions d (sx_locks e) (sx_created e) (sx_over e) (sx_committed e))
  end.

(** The server gives up on the transaction of a session. *)
Definition time_out (i : nat) e : Sessions D :=
  let e := release i e in mkSessions (sx_tables e) (sx_locks e) (sx_created e) ({[i]} ∪ sx_over e) (sx_committed e).

(** A statement of session [i] is served, refused, or served with its reply
    lost; transactions may time out before. *)
Inductive tx_answer (i : nat) (X : Type) (q : TxReq X) : Sessions D -> outcome exn X -> Sessions D -> Prop :=
| tx_served e r e' : tx_exec i X q e = Some (r, e') -> tx_answer i X q e r e'
| tx_refused e err : tx_answer i X q e (Throw err) e
| tx_lost e r err e' : tx_exec i X q e = Some (r, e') -> tx_answer i X q e (Throw err) e'
| tx_timed_out e j r e' : tx_answer i X q (time_out j e) r e' -> tx_answer i X q e r e'.

(** ** Sessions *)

(** A call of [joinRoom] that has come to its transaction, or statements of
    other methods, which insert no players. *)
Inductive Statement :=
| Stmt {X : Type} (c : DbCmd X).
Inductive Session := Joining (roomId userId : jstr) | Running (statements : list Statement).

Definition inserts_nothing {X} (c : DbCmd X) : Prop :=
  match c with DRoomCreate _ | DPlayerCreate _ _ | DJoin _ _ => False | _ => True end.

Definition run_statement (s : Statement) : TTask unit :=
  match s with Stmt c => attempt (await (TStatement c)) ;; pret tt end.

Definition session (s : Session) : TTask (option bool) :=
  match s with
  | Joining roomId userId => didCreate <- join_statements roomId userId ;; pret (Some didCreate)
  | Running statements => for_each statements run_statement ;; pret None
  end.

(** Session [i] gets an answer; in between anything. *)
Inductive sessions_step : Sessions D * list (TTask (option bool)) -> Sessions D * list (TTask (option bool)) -> Prop :=
| session_answered e l1 X (q : TxReq X) k l2 r e' :
    tx_answer (length l1) X q e r e' ->
    sessions_step (e, l1 ++ Await q k :: l2) (e', l1 ++ k r :: l2).

Inductive sessions_steps : Sessions D * list (TTask (option bool)) -> Sessions D * list (TTask (option bool)) -> Prop :=
| sessions_refl s : sessions_steps s s
| sessions_next s s1 s' : sessions_step s s1 -> sessions_steps s1 s' -> sessions_steps s s'.

(** ** Executing an interleaving *)

(** [schedule]: which session is answered next; one that has to wait is not. *)
Fixpoint sessions_run (schedule : list nat) e (pool : list (TTask (option bool))) : Sessions D * list (TTask (option bool)) :=
  match schedule with
  | [] => (e, pool)
  | i :: schedule' =>
      match pool !! i with
      | Some (Await q k) =>
          match tx_exec i _ q e with
          | Some (r, e') => sessions_run schedule' e' (<[i := k r]> pool)
          | None => sessions_run schedule' e pool
          end
      | _ => sessions_run schedule' e pool
      end
  end.

Lemma sessions_run_steps schedule e pool : sessions_steps (e, pool) (sessions_run schedule e pool).
Proof.
  revert e pool. induction schedule as [|i schedule IH]; intros e pool; [constructor|]. cbn [sessions_run].
  destruct (pool !! i) as [p|] eqn:Hi; [|apply IH].
  assert (Hsplit : pool = take i pool ++ p :: drop (S i) pool) by (symmetry; by apply take_drop_middle).
  assert (Hlen : length (take i pool) = i) by (apply length_take_le; apply Nat.lt_le_incl; by eapply lookup_lt_Some).
  assert (Hins : forall p', <[i := p']> pool = take i pool ++ p' :: drop (S i) pool).
  { intros p'. apply insert_take_drop. by eapply lookup_lt_Some. }
  destruct p as [o|X f k|x k|X q k]; try apply IH.
  destruct (tx_exec i X q e) as [[r e']|] eqn:Hx; [|apply IH].
  eapply sessions_next; [|apply IH]. rewrite Hins, Hsplit at 1. apply session_answered. constructor. by rewrite Hlen.
Qed.
End Database.

(** ** The transaction is atomic *)

Section Atomic.
Context {D : Type} {Hdb : RoomDb D} {Hlaws : RoomDbLaws D}.
Implicit Types e : Sessions D.

(** The tables after whole transactions and single statements; the list: the
    insertions, in order. *)
Inductive atomically : D -> list (jstr * jstr) -> D -> Prop :=
| at_same d : atomically d [] d
| at_statement d X (c : DbCmd X) h d' :
    inserts_nothing c -> atomically (exec_db c d).2 h d' -> atomically d h d'
| at_join d roomId userId d1 h d' :
    join_transaction roomId userId d = (Ok true, d1) -> atomically d1 h d' -> atomically d ((roomId, userId) :: h) d'.

Lemma atomically_trans d1 h1 d2 h2 d3 : atomically d1 h1 d2 -> atomically d2 h2 d3 -> atomically d1 (h1 ++ h2) d3.
Proof.
  intros H1 H2. induction H1 as [d|d X c h d' Hc _ IH|d r u d1 h d' Hj _ IH]; cbn; [done|..].
  - eapply at_statement; eauto.
  - eapply at_join; eauto.
Qed.

Lemma atomically_capacity d h d' : atomically d h d' -> within_capacity d -> within_capacity d'.
Proof.
  induction 1 as [d|d X c h d' Hc _ IH|d r u d1 h d' Hj _ IH]; intros Hd; [done|..]; apply IH.
  - apply exec_kept; [by destruct c|done].
  - pose proof (join_kept r u d Hd) as Hk. by rewrite Hj in Hk.
Qed.

(** ** What others cannot change *)

(** The row of the room, as far as the transaction relies on it. *)
Definition has_room_for (r : jstr) (max : Z) (d : D) : Prop :=
  exists room, rdb_room d r = Some room /\ ro_maxPlayers room = max.
Definition fewer (r : jstr) (max : Z) (d : D) : Prop := Z.of_nat (length (rdb_players d r)) < max.

Definition quiet_for (r : jstr) (d d' : D) : Prop :=
  (forall max, has_room_for r max d -> has_room_for r max d')
  /\ (length (rdb_players d' r) <= length (rdb_players d r))%nat.

Lemma quiet_refl r d : quiet_for r d d.
Proof. by split. Qed.

(** Statements that do not write the row of the room, and insert nothing. *)
Lemma quiet_statement X (c : DbCmd X) r d :
  inserts_nothing c -> writes_room c <> Some r -> quiet_for r d (exec_db c d).2.
Proof.
  intros Hc Hw. destruct c; try done; cbn in *.
  - split; [intros max (room & Hr & Hm); exists room; by rewrite (rooms_same d) by apply remove_rooms|].
    rewrite remove_players. case_decide; subst; [apply length_filter|done].
  - assert (Hne : r <> roomId) by congruence.
    assert (Hq : quiet_for r d (rdb_update roomId status currentMatchId d)).
    { split; [intros max (room & Hr & Hm); exists room; by rewrite update_row, decide_False|by rewrite update_players]. }
    by destruct (rdb_room (rdb_update _ _ _ _) _).
  - assert (Hne : r <> roomId) by congruence.
    assert (Hq : quiet_for r d (rdb_update roomId status currentMatchId d)).
    { split; [intros max (room & Hr & Hm); exists room; by rewrite update_row, decide_False|by rewrite update_players]. }
    destruct (rdb_room d roomId); [|apply quiet_refl]. by destruct (as_expected _ _ _); [|apply quiet_refl].
  - assert (Hne : r <> roomId) by congruence. destruct (disband_transaction roomId now d) as [ids d'] eqn:Hd. cbn.
    destruct (rdb_room d roomId) as [room|] eqn:Hr.
    + destruct (disband_keeps_history roomId now d ids d' room Hr Hd) as (_ & Ho & _). destruct (Ho r Hne) as [Hrow Hp].
      split; [intros max (x & Hx & Hm); exists x; by rewrite Hrow|by rewrite Hp].
    + unfold disband_transaction in Hd. rewrite Hr in Hd. injection Hd as _ <-. apply quiet_refl.
Qed.

(** ** The invariant: what is inserted and not committed is under a lock *)

(** A row that session [i] may insert: it has the room locked, and there is
    room. *)
Definition may_insert (i : nat) (r : jstr) e : Prop :=
  sx_locks e !! r = Some i
  /\ exists max, has_room_for r max (sx_tables e) /\ fewer r max (sx_tables e).

Definition pending_ok (i : nat) e : Prop :=
  match created_of i e with
  | [] => True
  | [(r, _)] => may_insert i r e
  | _ => False
  end.

Definition all_pending_ok e : Prop := forall i, pending_ok i e.

(** What session [i] can rely on while the others work. *)
Record others_left (i : nat) e e' : Prop := {
  ol_kept : (i ∈ sx_over e' /\ created_of i e' = [])
    \/ (created_of i e' = created_of i e /\ forall r, sx_locks e !! r = Some i -> sx_locks e' !! r = Some i);
  ol_over : i ∈ sx_over e -> i ∈ sx_over e';
  ol_quiet r : sx_locks e !! r = Some i -> quiet_for r (sx_tables e) (sx_tables e');
  ol_committed row : row ∈ sx_committed e -> row ∈ sx_committed e';
}.

Lemma left_refl i e : others_left i e e.
Proof. split; [by right|done|intros; apply quiet_refl|done]. Qed.

Lemma created_release i j e : created_of i (release j e) = if decide (i = j) then [] else created_of i e.
Proof.
  unfold created_of, release. cbn. case_decide; [subst; by rewrite lookup_delete_eq|by rewrite lookup_delete_ne].
Qed.

Lemma lock_release j e r i : sx_locks (release j e) !! r = Some i <-> sx_locks e !! r = Some i /\ i <> j.
Proof. unfold release. cbn. by rewrite map_lookup_filter_Some. Qed.

Lemma release_left i j e e' :
  i <> j -> sx_locks e' = sx_locks e -> sx_created e' = sx_created e -> sx_over e' = sx_over e ->
  (forall r, sx_locks e !! r = Some i -> quiet_for r (sx_tables e) (sx_tables e')) ->
  (forall row, row ∈ sx_committed e -> row ∈ sx_committed e') -> others_left i e (release j e').
Proof.
  intros Hne Hl Hc Ho Hq Hco. split; [right; split| |done|done].
  - rewrite created_release, decide_False by done. unfold created_of. by rewrite Hc.
  - intros r Hr. apply lock_release. by rewrite Hl.
  - cbn. by rewrite Ho.
Qed.

Lemma time_out_left i j e : others_left i e (time_out j e).
Proof.
  assert (Hc : created_of i (time_out j e) = created_of i (release j e)) by reflexivity.
  rewrite created_release in Hc. split; [rewrite Hc|cbn; set_solver|intros; apply quiet_refl|done].
  destruct (decide (i = j)) as [->|Hne]; [left; split; [cbn; set_solver|done]|right; split; [done|]].
  intros r Hr. by apply (lock_release j e r i).
Qed.

Lemma pending_left i e e' : others_left i e e' -> pending_ok i e -> pending_ok i e'.
Proof.
  intros [Hk _ Hq _]. unfold pending_ok. destruct Hk as [[_ ->]|[-> Hl]]; [done|].
  destruct (created_of i e) as [|[r u] [|]]; try done. intros (Hlock & max & Hroom & Hf). split; [by apply Hl|].
  destruct (Hq r Hlock) as [Hmax Hlen]. exists max. split; [by apply Hmax|]. unfold fewer in *. lia.
Qed.

(** ** A commit *)

(** One row that may be inserted is a whole join transaction. *)
Lemma insert_is_join i r u e d :
  may_insert i r e -> insert_all [(r, u)] (sx_tables e) = Some d -> join_transaction r u (sx_tables e) = (Ok true, d).
Proof.
  intros (_ & max & (room & Hr & Hm) & Hf) Hi. cbn in Hi. destruct (rdb_add r u (sx_tables e)) as [d'|] eqn:Ha; [|done].
  cbn in Hi. injection Hi as ->. unfold join_transaction. rewrite Hr.
  assert (Hs : is_Some (rdb_add r u (sx_tables e))) by by rewrite Ha.
  apply add_some in Hs as (_ & _ & Hnot). rewrite bool_decide_eq_false_2 by done. unfold fewer in Hf.
  rewrite (proj2 (Z.leb_gt _ _)) by lia. by rewrite Ha.
Qed.

Lemma pending_commit i e d :
  pending_ok i e -> insert_all (created_of i e) (sx_tables e) = Some d ->
  atomically (sx_tables e) (created_of i e) d
  /\ forall j r, j <> i -> sx_locks e !! r = Some j -> quiet_for r (sx_tables e) d.
Proof.
  unfold pending_ok. destruct (created_of i e) as [|[r u] [|]]; [..|done].
  - intros _ [= <-]. split; [constructor|]. intros j r _ _. apply quiet_refl.
  - intros Hm Hi. split; [eapply at_join; [by apply (insert_is_join i)|constructor]|].
    intros j r' Hj Hl. cbn in Hi. destruct (rdb_add r u (sx_tables e)) as [d'|] eqn:Ha; [|done]. cbn in Hi. injection Hi as ->.
    destruct Hm as [Hlock _]. assert (Hne : r' <> r) by congruence. split.
    + intros max (room & Hr & Hx). exists room. by rewrite (rooms_same (sx_tables e)) by by eapply add_rooms.
    + by rewrite (add_players r u _ _ r' Ha), decide_False.
Qed.

(** ** One statement *)

(** What a session owes the others when it asks. *)
Definition own_ok (j : nat) {X} (q : TxReq X) e : Prop :=
  match q with
  | TCreate r _ => created_of j e = [] /\ (j ∈ sx_over e \/ may_insert j r e)
  | TStatement c => inserts_nothing c /\ created_of j e = []
  | _ => True
  end.

Definition explained e e' : Prop :=
  exists h, sx_committed e' = sx_committed e ++ h /\ atomically (sx_tables e) h (sx_tables e').

Lemma explained_same e e' : sx_committed e' = sx_committed e -> sx_tables e' = sx_tables e -> explained e e'.
Proof. intros Hc Ht. exists []. rewrite Ht, app_nil_r. split; [done|constructor]. Qed.

#[export] Instance explained_preorder : PreOrder explained.
Proof.
  split; [intros e; by apply explained_same|]. intros e1 e2 e3 (h1 & Hc1 & H1) (h2 & Hc2 & H2).
  exists (h1 ++ h2). split; [by rewrite Hc2, Hc1, app_assoc|by eapply atomically_trans].
Qed.

Lemma exec_left i j X (q : TxReq X) e r e' :
  i <> j -> all_pending_ok e -> own_ok j q e -> tx_exec j X q e = Some (r, e') -> others_left i e e'.
Proof.
  intros Hne HI Hq. destruct q; cbn [tx_exec own_ok] in *.
  - intros [= <- <-]. apply left_refl.
  - destruct (decide (j ∈ sx_over e)); [intros [= <- <-]; apply left_refl|].
    destruct (decide (_ \/ _)) as [|Hw]; [done|]. destruct (rdb_room _ _) as [room|]; intros [= <- <-]; [|apply left_refl].
    split; [right; split; [done|]|done|intros; apply quiet_refl|done]. cbn. intros r0 Hr.
    rewrite lookup_insert_ne; [done|]. intros ->. apply Hw. left. by exists i.
  - destruct (decide (j ∈ sx_over e)); intros [= <- <-]; apply left_refl.
  - destruct (decide (j ∈ sx_over e)); intros [= <- <-]; apply left_refl.
  - destruct (decide (j ∈ sx_over e)); [intros [= <- <-]; apply left_refl|].
    destruct (decide (_ \/ _)) as [|Hw]; [done|]. destruct (rdb_add _ _ _); [|intros [= <- <-]; apply left_refl].
    destruct (decide _); intros [= <- <-]; [apply left_refl|].
    split; [right; split|done|intros; apply quiet_refl|done]; cbn; [|done].
    unfold created_of. cbn. by rewrite lookup_insert_ne.
  - destruct (decide (j ∈ sx_over e)); [intros [= <- <-]; apply left_refl|].
    destruct (insert_all _ _) as [d|] eqn:Hi; intros [= <- <-].
    + apply release_left; try done; cbn; [|intros row Hr; apply elem_of_app; by left].
      intros r Hr. destruct (pending_commit j e d (HI j) Hi) as [_ Hquiet]. by apply (Hquiet i).
    + apply release_left; try done.
  - intros [= <- <-]. apply release_left; try done.
  - destruct (decide (waits_for_room j c e)) as [|Hw]; [done|].
    pose proof (fun r => quiet_statement _ c r (sx_tables e) (proj1 Hq)) as Hquiet.
    destruct (exec_db c (sx_tables e)) as [o d]. intros [= <- <-]. split; cbn; [by right|done| |done].
    intros r Hr. apply Hquiet. intros Hroom. apply Hw. unfold waits_for_room. rewrite Hroom. left. by exists i.
Qed.

Lemma exec_own j X (q : TxReq X) e r e' :
  all_pending_ok e -> own_ok j q e -> tx_exec j X q e = Some (r, e') -> pending_ok j e' /\ explained e e'.
Proof.
  intros HI Hq. pose proof (HI j) as Hj. destruct q; cbn [tx_exec own_ok] in *.
  - intros [= <- <-]. by split.
  - destruct (decide (j ∈ sx_over e)); [by intros [= <- <-]|].
    destruct (decide (_ \/ _)) as [|Hw]; [done|]. destruct (rdb_room _ _) as [room|]; intros [= <- <-]; [|by split].
    split; [|by apply explained_same]. unfold pending_ok, may_insert in *. cbn.
    change (created_of j _) with (created_of j e) at 1. destruct (created_of j e) as [|[r u] [|]]; try done.
    destruct Hj as [Hl Hm]. split; [|exact Hm]. destruct (decide (roomId = r)) as [->|]; [by rewrite lookup_insert_eq|by rewrite lookup_insert_ne].
  - destruct (decide (j ∈ sx_over e)); intros [= <- <-]; by split.
  - destruct (decide (j ∈ sx_over e)); intros [= <- <-]; by split.
  - destruct (decide (j ∈ sx_over e)) as [Ho|Ho]; [intros [= <- <-]; by split|].
    destruct (decide (_ \/ _)) as [|Hw]; [done|]. destruct (rdb_add _ _ _); [|intros [= <- <-]; by split].
    destruct (decide _); intros [= <- <-]; [by split|]. split; [|by apply explained_same].
    destruct Hq as [Hc [?|Hm]]; [done|]. unfold pending_ok, created_of at 1. cbn [sx_created].
    rewrite lookup_insert_eq, Hc. exact Hm.
  - destruct (decide (j ∈ sx_over e)); [intros [= <- <-]; by split|].
    destruct (insert_all _ _) as [d|] eqn:Hi; intros [= <- <-].
    + split; [unfold pending_ok; by rewrite created_release, decide_True|].
      exists (created_of j e). split; [done|]. by apply pending_commit.
    + split; [unfold pending_ok; by rewrite created_release, decide_True|by apply explained_same].
  - intros [= <- <-]. split; [unfold pending_ok; by rewrite created_release, decide_True|by apply explained_same].
  - destruct Hq as [Hin Hc]. destruct (decide (waits_for_room j c e)) as [|Hw]; [done|].
    destruct (exec_db c (sx_tables e)) as [o d] eqn:He. intros [= <- <-]. split.
    + unfold pending_ok. change (created_of j _) with (created_of j e) at 1. by rewrite Hc.
    + exists []. rewrite app_nil_r. split; [done|]. eapply at_statement; [exact Hin|]. rewrite He. constructor.
Qed.

(** ** Answers, with time-outs before *)

(** Time-outs leave everybody what they can rely on. *)
Inductive timed_out : Sessions D -> Sessions D -> Prop :=
| no_more e : timed_out e e
| one_more e j e' : timed_out (time_out j e) e' -> timed_out e e'.

Lemma answer_split j X (q : TxReq X) e r e' :
  tx_answer j X q e r e' ->
  exists e1, timed_out e e1 /\
    ((exists r1, tx_exec j X q e1 = Some (r1, e') /\ (r1 = r \/ exists err, r = Throw err))
     \/ e' = e1 /\ exists err, r = Throw err).
Proof.
  induction 1 as [e r e' H|e err|e r err e' H|e k r e' H (e1 & Ht & IH)].
  - exists e. split; [constructor|]. left. eauto.
  - exists e. split; [constructor|]. right. eauto.
  - exists e. split; [constructor|]. left. eauto 10.
  - exists e1. split; [by econstructor|done].
Qed.

(** A fact about session [i] that nobody else can break. *)
Definition lasting (i : nat) (K : Sessions D -> Prop) : Prop :=
  forall e e', others_left i e e' -> K e -> K e'.

Lemma timed_out_keeps e e1 :
  timed_out e e1 -> all_pending_ok e ->
  all_pending_ok e1 /\ explained e e1 /\ forall i K, lasting i K -> K e -> K e1.
Proof.
  induction 1 as [e|e j e' _ IH]; intros HI; [by split_and!|].
  destruct IH as (H1 & H2 & H3); [intros i; by eapply pending_left, HI; apply time_out_left|].
  split_and!; [done|etrans; [|exact H2]; by apply explained_same|].
  intros i K HK Hk. apply (H3 i K HK). eapply HK; [apply time_out_left|done].
Qed.

Lemma answer_keeps j X (q : TxReq X) e r e' :
  all_pending_ok e -> (forall e1, timed_out e e1 -> own_ok j q e1) -> tx_answer j X q e r e' ->
  all_pending_ok e' /\ explained e e' /\ forall i K, i <> j -> lasting i K -> K e -> K e'.
Proof.
  intros HI Hq (e1 & Ht & Hcase)%answer_split. destruct (timed_out_keeps e e1 Ht HI) as (H1 & H2 & H3).
  destruct Hcase as [(r1 & Hx & _)|(-> & _)]; [|split_and!; [done|done|intros i K _; apply H3]].
  specialize (Hq e1 Ht). destruct (exec_own j X q e1 r1 e' H1 Hq Hx) as [Hown Hexp]. split_and!.
  - intros i. destruct (decide (i = j)) as [->|Hne]; [done|]. eapply pending_left; [by eapply exec_left|done].
  - by etrans.
  - intros i K Hne HK Hk. eapply HK; [by eapply exec_left|by apply (H3 i)].
Qed.

(** ** A session on its own *)

(** [abiding i K p Post]: session [i], which runs [p] and knows [K], owes
    nothing to the others at any of its requests, and ends with [Post]. *)
Fixpoint abiding {R} (i : nat) (K : Sessions D -> Prop) (p : TTask R) (Post : outcome exn R -> (Sessions D -> Prop) -> Prop) : Prop :=
  match p with
  | Done o => Post o K
  | Act f k => forall x, abiding i K (k x) Post
  | Say x _ => match x with end
  | Await q k =>
      (forall e, K e -> own_ok i q e)
      /\ forall r, exists K', lasting i K' /\ abiding i K' (k r) Post
           /\ forall e e', K e -> (exists r1, tx_exec i _ q e = Some (r1, e') /\ (r1 = r \/ exists err, r = Throw err))
                \/ e' = e /\ (exists err, r = Throw err) -> K' e'
  end.

Lemma abiding_mono {R} i K (p : TTask R) (Post Post' : outcome exn R -> (Sessions D -> Prop) -> Prop) :
  (forall o K, Post o K -> Post' o K) -> abiding i K p Post -> abiding i K p Post'.
Proof.
  intros HP. revert K. induction p as [o|X f k IH|[]|X q k IH]; intros K; cbn.
  - apply HP.
  - intros H x. by apply IH.
  - intros [Hq H]. split; [done|]. intros r. destruct (H r) as (K' & H1 & H2 & H3). exists K'. eauto.
Qed.

Lemma abiding_bind {A B} i K (p : TTask A) (k : A -> TTask B) Post :
  abiding i K p (fun o K' => match o with Ok a => abiding i K' (k a) Post | Throw e => Post (Throw e) K' end) ->
  abiding i K (pbind p k) Post.
Proof.
  revert K. induction p as [[a|e]|X f c IH|[]|X q c IH]; intros K; cbn; try done.
  - intros H x. by apply IH.
  - intros [Hq H]. split; [done|]. intros r. destruct (H r) as (K' & H1 & H2 & H3). exists K'. eauto.
Qed.

Lemma abiding_attempt {A} i K (p : TTask A) Post :
  abiding i K p (fun o K' => Post (Ok o) K') -> abiding i K (attempt p) Post.
Proof.
  revert K. induction p as [o|X f c IH|[]|X q c IH]; intros K; cbn; try done.
  - intros H x. by apply IH.
  - intros [Hq H]. split; [done|]. intros r. destruct (H r) as (K' & H1 & H2 & H3). exists K'. eauto.
Qed.

Lemma abiding_await {X R} i K (q : TxReq X) (k : X -> TTask R) Post :
  (forall e, K e -> own_ok i q e) ->
  (forall err, exists K', lasting i K' /\ Post (Throw err) K'
     /\ (forall e e' r1, K e -> tx_exec i _ q e = Some (r1, e') -> K' e') /\ forall e, K e -> K' e) ->
  (forall x, exists K', lasting i K' /\ abiding i K' (k x) Post
     /\ forall e e', K e -> tx_exec i _ q e = Some (Ok x, e') -> K' e') ->
  abiding i K (pbind (await q) k) Post.
Proof.
  intros Hq Ht Ho. cbn. split; [done|]. intros [x|err].
  - destruct (Ho x) as (K' & H1 & H2 & H3). exists K'. split_and!; [done|done|].
    intros e e' Hk [(r1 & Hx & [->|[err Herr]])|(_ & err & Herr)]; [eauto|done|done].
  - destruct (Ht err) as (K' & H1 & H2 & H3 & H4). exists K'. split_and!; [done|done|].
    intros e e' Hk [(r1 & Hx & _)|(-> & _)]; eauto.
Qed.

(** ** The sessions *)

Section Session.
Context (i : nat).

(** Nothing is inserted yet; the room is locked; there is room; the row is
    inserted. *)
Definition inserted_nothing e : Prop := created_of i e = [].
Definition holds_lock (r : jstr) (max : Z) e : Prop :=
  created_of i e = [] /\ (i ∈ sx_over e \/ sx_locks e !! r = Some i /\ has_room_for r max (sx_tables e)).
Definition has_place (r : jstr) e : Prop := created_of i e = [] /\ (i ∈ sx_over e \/ may_insert i r e).
Definition inserted (r u : jstr) e : Prop := i ∈ sx_over e \/ created_of i e = [(r, u)].
Definition committed (r u : jstr) e : Prop := (r, u) ∈ sx_committed e.

Lemma lasting_nothing : lasting i inserted_nothing.
Proof. intros e e' [[[_ H]|[H _]] _ _ _] Hk; unfold inserted_nothing in *; congruence. Qed.

Lemma lasting_lock r max : lasting i (holds_lock r max).
Proof.
  intros e e' [Hk Ho Hq _] [Hc Hl]. unfold holds_lock. destruct Hk as [[Hov Hn]|[-> Hlocks]]; [by auto|]. split; [done|].
  destruct Hl as [Hl|[Hl Hm]]; [by auto|right]. split; [by apply Hlocks|]. by apply (Hq r Hl).
Qed.

Lemma lasting_place r : lasting i (has_place r).
Proof.
  intros e e' [Hk Ho Hq _] [Hc Hl]. unfold has_place. destruct Hk as [[Hov Hn]|[-> Hlocks]]; [by auto|]. split; [done|].
  destruct Hl as [Hl|(Hl & max & Hm & Hf)]; [by auto|right]. split; [by apply Hlocks|].
  destruct (Hq r Hl) as [Hmax Hlen]. exists max. split; [by apply Hmax|]. unfold fewer in *. lia.
Qed.

Lemma lasting_inserted r u : lasting i (inserted r u).
Proof. intros e e' [Hk Ho _ _] [H|H]; [left; by apply Ho|]. unfold inserted. destruct Hk as [[? _]|[-> _]]; auto. Qed.

Lemma lasting_committed r u : lasting i (committed r u).
Proof. intros e e' [_ _ _ Hc]. apply Hc. Qed.

Lemma lasting_true : lasting i (fun _ => True).
Proof. done. Qed.

(** The requests that leave everything as it was. *)
Ltac same := intros; repeat (case_match || case_decide); simplify_eq/=; auto.

Lemma abiding_body r u :
  abiding i inserted_nothing (join_body r u) (fun o K =>
    o = Ok true -> forall e, K e -> inserted r u e).
Proof.
  unfold join_body. apply abiding_await; [done| |].
  { intros err. exists (fun _ => True). split_and!; [apply lasting_true|done|done|done]. }
  intros [maxPlayers|]; [|exists (fun _ => True); split_and!; [apply lasting_true|done|done]].
  exists (holds_lock r maxPlayers). split_and!; [apply lasting_lock| |].
  2:{ intros e e' Hk. cbn [tx_exec]. destruct (decide (i ∈ sx_over e)); [done|]. destruct (decide _); [done|].
      destruct (rdb_room _ _) as [room|] eqn:Hr; [|done]. intros [= <- <-]. split; [done|right].
      cbn. split; [apply lookup_insert_eq|]. by exists room. }
  apply abiding_await; [done| |].
  { intros err. exists (fun _ => True). split_and!; [apply lasting_true|done|done|done]. }
  intros [|]; [exists (fun _ => True); split_and!; [apply lasting_true|done|done]|].
  exists (holds_lock r maxPlayers). split_and!; [apply lasting_lock| |].
  2:{ intros e e' Hk. cbn [tx_exec]. destruct (decide (i ∈ sx_over e)); [done|]. by intros [= _ <-]. }
  apply abiding_await; [done| |].
  { intros err. exists (fun _ => True). split_and!; [apply lasting_true|done|done|done]. }
  intros currentPlayers. destruct (maxPlayers <=? currentPlayers) eqn:Hfull.
  { exists (fun _ => True). split_and!; [apply lasting_true|done|done]. }
  exists (has_place r). split_and!; [apply lasting_place| |].
  2:{ intros e e' [Hc Hl]. cbn [tx_exec]. destruct (decide (i ∈ sx_over e)) as [|Ho]; [done|]. intros [= <- <-].
      split; [done|right]. destruct Hl as [|[Hl Hm]]; [done|]. split; [done|]. exists maxPlayers. split; [done|].
      unfold fewer. apply Z.leb_gt in Hfull. lia. }
  apply abiding_await; [by intros e [Hc Hl]| |].
  { intros err. exists (fun _ => True). split_and!; [apply lasting_true|done|done|done]. }
  intros []. exists (inserted r u). split_and!; [apply lasting_inserted|by intros _|].
  intros e e' [Hc Hl]. cbn [tx_exec]. destruct (decide (i ∈ sx_over e)) as [|Ho]; [done|]. destruct (decide _); [done|].
  destruct (rdb_add _ _ _); [|done]. destruct (decide _); [done|]. intros [= <-]. right.
  unfold created_of at 1. cbn [sx_created]. by rewrite lookup_insert_eq, Hc.
Qed.

Lemma abiding_join r u :
  abiding i inserted_nothing (join_statements r u) (fun o K => o = Ok true -> forall e, K e -> committed r u e).
Proof.
  unfold join_statements. apply abiding_await; [done| |].
  { intros err. exists (fun _ => True). split_and!; [apply lasting_true|done|done|done]. }
  intros []. exists inserted_nothing. split_and!; [apply lasting_nothing| |by intros e e' Hk [= <-]].
  apply abiding_bind, abiding_attempt. eapply abiding_mono; [|apply abiding_body]. intros [didCreate|err] K Hk.
  - cbn. split; [done|]. intros [[]|err].
    + exists (fun e => didCreate = true -> committed r u e). split_and!.
      * intros e e' Hl H Hd. eapply lasting_committed; [exact Hl|by apply H].
      * intros [= ->] e He. by apply He.
      * intros e e' Hke [(r1 & Hx & [->|[err Herr]])|(_ & err & Herr)]; [|done|done]. intros ->.
        destruct (decide (i ∈ sx_over e)) as [|Ho]; [done|].
        destruct (Hk eq_refl e Hke) as [|Hc]; [done|]. rewrite Hc in Hx.
        destruct (insert_all _ _) as [d|]; [|done]. injection Hx as <-. unfold committed, release. cbn.
        apply elem_of_app. right. left.
    + exists (fun _ => True). by split_and!.
  - cbn. split; [done|]. intros r'. exists (fun _ => True). by split_and!.
Qed.
End Session.

(** ** Any number of sessions *)

Definition sound_session (s : Session) : Prop :=
  match s with
  | Joining _ _ => True
  | Running statements => Forall (fun st => match st with Stmt c => inserts_nothing c end) statements
  end.

(** What the answer of a session means. *)
Definition truthful (s : Session) (o : outcome exn (option bool)) (K : Sessions D -> Prop) : Prop :=
  match s with
  | Joining r u => o = Ok (Some true) -> forall e, K e -> committed r u e
  | Running _ => o <> Ok (Some true)
  end.

Lemma abiding_session i s : sound_session s -> abiding i (inserted_nothing i) (session s) (truthful s).
Proof.
  destruct s as [r u|statements]; intros Hs; cbn [session truthful].
  - apply abiding_bind. eapply abiding_mono; [|apply abiding_join]. intros [b|err] K Hk; [|done]. cbn. intros [= ->]. by apply Hk.
  - apply abiding_bind. cbn in Hs. induction Hs as [|[X c] statements Hc _ IH]; cbn [for_each]; [done|].
    apply abiding_bind. cbn. split; [by intros e He|]. intros r. exists (inserted_nothing i).
    split_and!; [apply lasting_nothing|exact IH|].
    intros e e' Hk [(r1 & Hx & _)|(-> & _)]; [|done]. destruct (decide _); [done|].
    destruct (exec_db c _) as [o d]. by injection Hx as _ <-.
Qed.

(** A session with what it knows. *)
Definition at_ease (sessions : list Session) e (i : nat) (p : TTask (option bool)) : Prop :=
  exists s K, sessions !! i = Some s /\ lasting i K /\ K e /\ abiding i K p (truthful s).

Lemma sessions_keep sessions s s' :
  sessions_steps s s' -> all_pending_ok s.1 -> (forall i p, s.2 !! i = Some p -> at_ease sessions s.1 i p) ->
  explained s.1 s'.1 /\ forall i p, s'.2 !! i = Some p -> at_ease sessions s'.1 i p.
Proof.
  induction 1 as [s|s s1 s' Hstep _ IH]; intros HI Hp; [done|].
  enough (all_pending_ok s1.1 /\ explained s.1 s1.1 /\ forall i p, s1.2 !! i = Some p -> at_ease sessions s1.1 i p) as (H1 & H2 & H3).
  { destruct (IH H1 H3) as [H4 H5]. split; [by etrans|done]. }
  clear IH s'. destruct Hstep as [e l1 X q k l2 r e' Ha]. cbn [fst snd] in *.
  assert (Hmine : (l1 ++ Await q k :: l2) !! length l1 = Some (Await q k)) by by rewrite list_lookup_middle.
  destruct (Hp _ _ Hmine) as (se & K & Hse & HK & Hke & Hq & Hnext). specialize (Hnext r).
  destruct Hnext as (K' & HK' & Hab & Hstep).
  assert (Hown : forall e1, timed_out e e1 -> own_ok (length l1) q e1 /\ K e1).
  { intros e1 Ht. destruct (timed_out_keeps e e1 Ht HI) as (_ & _ & H3). assert (K e1) by by apply (H3 (length l1)). auto. }
  destruct (answer_keeps (length l1) X q e r e' HI (fun e1 Ht => proj1 (Hown e1 Ht)) Ha) as (H1 & H2 & H3).
  split_and!; [done|done|]. intros i p Hi. destruct (decide (i = length l1)) as [->|Hne].
  - rewrite list_lookup_middle in Hi by done. injection Hi as <-. exists se, K'. split_and!; [done|done| |done].
    destruct (answer_split _ _ _ _ _ _ Ha) as (e1 & Ht & Hcase). exact (Hstep e1 e' (proj2 (Hown e1 Ht)) Hcase).
  - assert (Hold : (l1 ++ Await q k :: l2) !! i = Some p).
    { destruct (decide (i < length l1)%nat); [by rewrite lookup_app_l in Hi |- * by done|].
      rewrite lookup_app_r in Hi |- * by lia. destruct (i - length l1)%nat eqn:Hd; [lia|done]. }
    destruct (Hp i p Hold) as (s2 & K2 & Hs2 & HK2 & Hk2 & Hab2). exists s2, K2. split_and!; [done|done| |done]. by eapply H3.
Qed.

(** ** Alone *)

(** With nobody else in a transaction, the statements answer as the whole. *)
Definition served (i : nat) X (q : TxReq X) (_ : unit) e : outcome exn X * Sessions D :=
  match tx_exec i X q e with Some a => a | None => (Throw (PrismaError "P2028"), e) end.

Lemma alone_unlocked i r (d : D) c : ~ locked_by_other i r (mkSessions d ∅ c ∅ []).
Proof. intros (j & Hj & _). cbn in Hj. by rewrite lookup_empty in Hj. Qed.

Lemma alone_unshared (P : nat * list (jstr * jstr) -> Prop) : ~ Exists P (map_to_list (∅ : gmap nat (list (jstr * jstr)))).
Proof. rewrite map_to_list_empty. by intros ?%Exists_nil. Qed.

Lemma created_fresh i (d : D) locks over com : created_of i (mkSessions d locks ∅ over com) = [].
Proof. unfold created_of. cbn. by rewrite lookup_empty. Qed.

Lemma body_alone i r u d :
  let '(o, _, e', _) := drive (served i) (join_body r u) tt (mkSessions d ∅ ∅ ∅ []) in
  sx_tables e' = d /\ sx_over e' = ∅
  /\ match o with
     | Ok didCreate => exists d', insert_all (created_of i e') d = Some d' /\ join_transaction r u d = (Ok didCreate, d')
     | Throw x => join_transaction r u d = (Throw x, d)
     end.
Proof.
  unfold join_body, join_transaction. rewrite drive_bind. cbn [drive await]. unfold served at 1. cbn [tx_exec sx_over sx_tables].
  rewrite decide_False by set_solver.
  rewrite decide_False by (intros [Hl|Hl]; [by eapply alone_unlocked|exact (alone_unshared _ Hl)]).
  destruct (rdb_room d r) as [room|]; [|done]. cbn [sx_tables sx_locks sx_created sx_over sx_committed].
  rewrite drive_bind. cbn [drive await]. unfold served at 1. cbn [tx_exec sx_over sx_tables].
  rewrite decide_False by set_solver. rewrite created_fresh.
  rewrite (bool_decide_eq_false_2 (_ ∈ [])) by (apply not_elem_of_nil). rewrite orb_false_r.
  destruct (bool_decide (u ∈ _)) eqn:Hin.
  { cbn [drive]. split_and!; [done|done|]. exists d. split; [|done]. by rewrite created_fresh. }
  rewrite drive_bind. cbn [drive await]. unfold served at 1. cbn [tx_exec sx_over sx_tables].
  rewrite decide_False by set_solver. rewrite created_fresh. cbn [filter list_filter].
  rewrite Nat.add_0_r. destruct (ro_maxPlayers room <=? _); [done|].
  rewrite drive_bind. cbn [drive await]. unfold served at 1. cbn [tx_exec sx_over sx_tables].
  rewrite decide_False by set_solver.
  rewrite decide_False.
  2:{ intros [(j & Hj & Hne)|Hl]; [|exact (alone_unshared _ Hl)]. cbn in Hj. rewrite lookup_insert_eq in Hj. congruence. }
  rewrite Hin. destruct (rdb_add r u d) as [d'|] eqn:Hadd; [|done].
  rewrite decide_False by (rewrite created_fresh; apply not_elem_of_nil).
  cbn [drive sx_tables sx_over]. split_and!; [done|done|]. exists d'. split; [|done].
  rewrite created_fresh. unfold created_of. cbn [sx_created]. rewrite lookup_insert_eq. cbn. by rewrite Hadd.
Qed.

(** A call of [joinRoom] that nobody disturbs does what the specification says. *)
Lemma statements_alone i r u d :
  let '(o, _, e', _) := drive (served i) (join_statements r u) tt (mkSessions d ∅ ∅ ∅ []) in
  (o, sx_tables e') = join_transaction r u d.
Proof.
  unfold join_statements. rewrite drive_bind. cbn [drive await]. unfold served at 1. cbn [tx_exec].
  rewrite drive_bind, drive_attempt. pose proof (body_alone i r u d) as Hb.
  destruct (drive (served i) (join_body r u) tt _) as [[[o w] e'] l]. destruct Hb as (Ht & Ho & Hb).
  destruct o as [didCreate|x].
  - destruct Hb as (d' & Hi & ->). rewrite drive_bind. cbn [drive await]. unfold served at 1. cbn [tx_exec].
    rewrite Ho, decide_False by set_solver. by rewrite Ht, Hi.
  - cbn. by rewrite Ht, Hb.
Qed.

(** C6: the join transaction is atomic.  Any number of calls of [joinRoom] run
    the statements of their transactions -- the SELECT ... FOR UPDATE, the
    lookup, the count, the insertion, the commit -- interleaved at every
    statement with each other and with the statements of leaves, removals,
    status updates and disbandings; statements fail before or after they took
    effect, and the server may roll any transaction back at any time.  Then the
    committed tables are those that come of running whole transactions
    [join_transaction] and single statements one after the other, each of these
    transactions answered with a new player; so a lobby in which no room had
    too many players has none after; and a call that was answered [didCreate]
    has its player among the committed ones. *)
Theorem joins_are_atomic (sessions : list Session) (d : D) (e : Sessions D) (pool : list (TTask (option bool))) :
  Forall sound_session sessions ->
  sessions_steps (mkSessions d ∅ ∅ ∅ [], session <$> sessions) (e, pool) ->
  atomically d (sx_committed e) (sx_tables e)
  /\ (within_capacity d -> within_capacity (sx_tables e))
  /\ (forall i roomId userId, sessions !! i = Some (Joining roomId userId) ->
        pool !! i = Some (Done (Ok (Some true))) -> (roomId, userId) ∈ sx_committed e).
Proof.
  intros Hs Hr. assert (Hstart : forall i, created_of i (mkSessions d ∅ ∅ ∅ []) = []).
  { intros i. unfold created_of. cbn. by rewrite lookup_empty. }
  assert (Hp0 : forall i p, (session <$> sessions) !! i = Some p -> at_ease sessions (mkSessions d ∅ ∅ ∅ []) i p).
  { intros i p Hi. rewrite list_lookup_fmap in Hi. destruct (sessions !! i) as [s|] eqn:Hsi; [|done]. injection Hi as <-.
    exists s, (inserted_nothing i). split_and!; [done|apply lasting_nothing|apply Hstart|].
    apply abiding_session. rewrite Forall_lookup in Hs. by eapply Hs. }
  assert (HI : all_pending_ok (mkSessions d ∅ ∅ ∅ [])) by (intros i; unfold pending_ok; by rewrite Hstart).
  destruct (sessions_keep sessions _ _ Hr HI Hp0) as [(h & Hc & Ha) Hp]. cbn [fst snd sx_committed sx_tables app] in *. subst h.
  split_and!; [done|intros Hd; by eapply atomically_capacity|].
  intros i r u Hsi Hpi. destruct (Hp i _ Hpi) as (s & K & Hs' & _ & Hk & Hab). rewrite Hsi in Hs'. injection Hs' as <-.
  cbn in Hab. by apply (Hab eq_refl).
Qed.
End Atomic.

(** ** Example: two sessions and one free place *)

(** Both begin, the second one waits for the lock of the first. *)
Definition demo_joins : list Session := [Joining (js "r0") (js "u2"); Joining (js "r0") (js "u3")].
Definition demo_schedule : list nat := [0; 1; 1; 0; 1; 0; 1; 0; 0; 1; 1; 1; 0; 1; 1; 1; 1; 0; 0; 0; 0; 0]%nat.
Definition demo_sessions : Sessions Tables * list (TTask (option bool)) :=
  sessions_run demo_schedule (mkSessions demo_room.1 ∅ ∅ ∅ []) (session <$> demo_joins).

Lemma joins_are_atomic_witness :
  demo_sessions.2 !! 0%nat = Some (Done (Throw (RoomError ROOM_FULL)))
  /\ rdb_players (sx_tables demo_sessions.1) (js "r0") = [js "u1"; js "u3"]
  /\ (js "r0", js "u3") ∈ sx_committed demo_sessions.1
  /\ within_capacity (sx_tables demo_sessions.1).
Proof.
  assert (Hdone : demo_sessions.2 !! 1%nat = Some (Done (Ok (Some true)))) by (vm_compute; reflexivity).
  pose proof (joins_are_atomic demo_joins demo_room.1 demo_sessions.1 demo_sessions.2) as H.
  destruct H as (_ & Hcap & Hjoined); [by repeat constructor| |].
  - rewrite <- surjective_pairing. apply sessions_run_steps.
  - split; [vm_compute; reflexivity|]. split; [vm_compute; reflexivity|].
    split; [by apply (Hjoined 1%nat)|apply Hcap, demo_room_fits].
Defined.
