(* ===== verification/RoomCache.v ===== *)
(** * What Redis keeps of a room

    The player counter, the set of players and the cached snapshot are written
    beside the tables, by statements of their own.  A call that runs alone
    leaves them equal to the rows. *)

From Stdlib Require Import QArith.
From stdpp Require Import gmap.
From S2P Require Import Prelude JsData Effects Shared Decimal Redis Lease Events Async LobbyStore LobbyTables Pool Lobby Rooms RoomRules.
#[local] Open Scope Z_scope.
#[local] Open Scope prog_scope.

(** ** The keys of a room differ *)

Lemma snapshot_key_count r : roomSnapshotKey r <> roomPlayerCountKey r.
Proof. intros H%(f_equal length). unfold roomSnapshotKey, roomPlayerCountKey in H. rewrite !length_app in H. cbn in H. lia. Qed.
Lemma snapshot_key_players r : roomSnapshotKey r <> roomPlayersKey r.
Proof. intros H%(f_equal length). unfold roomSnapshotKey, roomPlayersKey in H. rewrite !length_app in H. cbn in H. lia. Qed.
Lemma count_key_players r : roomPlayerCountKey r <> roomPlayersKey r.
Proof. intros H%(f_equal length). unfold roomPlayerCountKey, roomPlayersKey in H. rewrite !length_app in H. cbn in H. lia. Qed.
Lemma presence_key_snapshot r u : presenceKey r u <> roomSnapshotKey r.
Proof. intros H%(f_equal length). unfold roomSnapshotKey, presenceKey in H. rewrite !length_app in H. cbn in H. lia. Qed.
Lemma presence_key_players r u : presenceKey r u <> roomPlayersKey r.
Proof. intros H%(f_equal length). unfold roomPlayersKey, presenceKey in H. rewrite !length_app in H. cbn in H. lia. Qed.
Lemma presence_key_count r u : presenceKey r u <> roomPlayerCountKey r.
Proof.
  intros H. pose proof (f_equal length H) as Hl. unfold roomPlayerCountKey, presenceKey in Hl.
  rewrite !length_app in Hl. cbn in Hl. destruct u as [|a [|b [|c u]]]; cbn in Hl; try lia. clear Hl.
  unfold presenceKey, roomPlayerCountKey in H.
  change (js ":playerCount") with (js ":playerCo" ++ js "unt") in H. rewrite !(app_assoc _ _) in H.
  rewrite <- (app_assoc _ (js ":") [a; b]) in H. by apply app_inj_2 in H as [_ H].
Qed.

#[local] Hint Resolve snapshot_key_count snapshot_key_players count_key_players presence_key_snapshot
  presence_key_players presence_key_count : core.

Section Cache.
Context {D S : Type} `{!RoomDb D} `{!RedisOps LobbyDoc S} `{!RedisZset S}.
Context `{!RoomDbLaws D} `{!RedisLaws LobbyDoc S}.

(** Redis says of a room what the rows [l] of its players say. *)
Record cached (r : jstr) (l : list jstr) (s : S) : Prop := {
  ca_count : r_get s (roomPlayerCountKey r) = Some (Text (js_of_Z (Z.of_nat (length l))));
  ca_players u : r_sismember (B := LobbyDoc) s (roomPlayersKey r) u = bool_decide (u ∈ l);
  ca_snapshot : r_get s (roomSnapshotKey r) = None
    \/ exists sn, r_get s (roomSnapshotKey r) = Some (Blob (DocRoom sn))
         /\ sn_playerCount sn = Z.of_nat (length l);
}.

(** The set is up to date, the counter and the snapshot are still those of [n]
    players. *)
Record counting (r : jstr) (l : list jstr) (n : Z) (s : S) : Prop := {
  co_count : r_get s (roomPlayerCountKey r) = Some (Text (js_of_Z n));
  co_players u : r_sismember (B := LobbyDoc) s (roomPlayersKey r) u = bool_decide (u ∈ l);
  co_snapshot : r_get s (roomSnapshotKey r) = None
    \/ exists sn, r_get s (roomSnapshotKey r) = Some (Blob (DocRoom sn));
}.

Lemma cached_counting r l s : cached r l s -> counting r l (Z.of_nat (length l)) s.
Proof. intros [H1 H2 H3]. split; [done|done|]. destruct H3 as [H|(sn & H & _)]; [by left|right; by exists sn]. Qed.

(** The members of the set after commands on it. *)
Lemma sismember_removes k ms s k' m :
  r_sismember (B := LobbyDoc) (foldl (fun s m => r_srem (B := LobbyDoc) k m s) s ms) k' m
  = negb (bool_decide (k = k' /\ m ∈ ms)) && r_sismember (B := LobbyDoc) s k' m.
Proof.
  revert s. induction ms as [|x ms IH]; intros s; cbn.
  - rewrite bool_decide_eq_false_2 by set_solver. done.
  - rewrite IH, sismember_srem, andb_assoc, <- negb_orb. f_equal. f_equal.
    rewrite <- bool_decide_or. apply bool_decide_ext. set_solver.
Qed.

Lemma get_removes k ms s k' : r_get (foldl (fun s m => r_srem (B := LobbyDoc) k m s) s ms) k' = r_get (B := LobbyDoc) s k'.
Proof. revert s. induction ms as [|x ms IH]; intros s; cbn; [done|]. by rewrite IH, get_srem. Qed.

(** Removing users from the set. *)
Lemma counting_removed r (l us : list jstr) n s :
  counting r l n s ->
  counting r (filter (fun u => u ∉ us) l) n (foldl (fun s m => r_srem (B := LobbyDoc) (roomPlayersKey r) m s) s us).
Proof.
  intros [H1 H2 H3]. split; [by rewrite get_removes| |by rewrite get_removes].
  intros u. rewrite sismember_removes, H2, <- bool_decide_not, <- bool_decide_and.
  apply bool_decide_ext. rewrite list_elem_of_filter. naive_solver.
Qed.

Lemma counting_added r l u n s :
  counting r l n s -> counting r (l ++ [u]) n (r_sadd (B := LobbyDoc) (roomPlayersKey r) u s).
Proof.
  intros [H1 H2 H3]. split; [by redis_simpl| |by redis_simpl]. intros v. rewrite sismember_sadd, H2, <- bool_decide_or.
  apply bool_decide_ext. set_solver.
Qed.

Lemma counting_presence r l n u s :
  counting r l n s -> counting r l n (r_del (B := LobbyDoc) (presenceKey r u) s).
Proof.
  intros [H1 H2 H3]. split.
  - by rewrite get_del, decide_False by done.
  - intros v. rewrite sismember_del by done. apply H2.
  - by rewrite get_del, decide_False by done.
Qed.

(** Writing the counter, then its copy in the snapshot. *)
Lemma counted r l n s s' o :
  counting r l n s ->
  exec_redis (KCountField (roomSnapshotKey r) n) s = (o, s') ->
  n = Z.of_nat (length l) -> cached r l s'.
Proof.
  intros [H1 H2 H3] H ->. cbn [exec_redis] in H. unfold eval, SET_PLAYER_COUNT_FIELD_SCRIPT, set_keepttl in H.
  destruct H3 as [H3|[sn H3]]; rewrite H3 in H; injection H as _ <-.
  - split; [done|done|by left].
  - split.
    + by rewrite get_set, decide_False by done.
    + intros u. rewrite sismember_set. apply H2.
    + right. eexists. rewrite get_set, decide_True by done. split; [done|]. done.
Qed.

Lemma exec_decr r n by_ s :
  r_get s (roomPlayerCountKey r) = Some (Text (js_of_Z n)) -> 0 <= by_ <= n ->
  exec_redis (KDecrCount (roomPlayerCountKey r) by_ ROOM_CACHE_TTL_SECONDS) s
  = (Ok (n - by_), set_keepttl (roomPlayerCountKey r) (Text (js_of_Z (n - by_))) ROOM_CACHE_TTL_SECONDS s).
Proof.
  intros Hg Hb. cbn [exec_redis]. unfold eval, DECR_PLAYER_COUNT_SCRIPT. rewrite Hg, bool_decide_eq_true_2 by by eexists.
  cbn [lua_number]. rewrite integer_value_js. rewrite (proj2 (Z.ltb_ge (n - by_) 0)) by lia. done.
Qed.

Lemma exec_incr r n s :
  r_get s (roomPlayerCountKey r) = Some (Text (js_of_Z n)) -> 0 <= n < 2 ^ 62 ->
  exists s', exec_redis (KIncrCount (roomPlayerCountKey r) ROOM_CACHE_TTL_SECONDS) s = (Ok (n + 1), s')
    /\ (forall k, r_get s' k = if decide (roomPlayerCountKey r = k) then Some (Text (js_of_Z (n + 1))) else r_get s k)
    /\ (forall k m, r_sismember (B := LobbyDoc) s' k m = r_sismember (B := LobbyDoc) s k m).
Proof.
  intros Hg Hn. destruct (incr_some _ _ _ Hg Hn) as [s1 Hi]. cbn [exec_redis]. unfold eval, INCR_PLAYER_COUNT_SCRIPT.
  rewrite Hi. eexists. split; [done|]. split.
  - intros k. destruct (r_volatile s1 _); rewrite ?get_pexpire; by apply (get_incr _ _ _ _ _ Hi).
  - intros k m. destruct (r_volatile s1 _); rewrite ?sismember_pexpire; by apply (sismember_incr _ _ _ _ _ _ Hi).
Qed.

(** A counter that was written anew. *)
Lemma counting_written r l n n' s s' :
  counting r l n s ->
  (forall k, r_get s' k = if decide (roomPlayerCountKey r = k) then Some (Text (js_of_Z n')) else r_get s k) ->
  (forall k m, r_sismember (B := LobbyDoc) s' k m = r_sismember (B := LobbyDoc) s k m) ->
  counting r l n' s'.
Proof.
  intros [H1 H2 H3] Hg Hm. split.
  - by rewrite Hg, decide_True.
  - intros u. by rewrite Hm, H2.
  - by rewrite Hg, decide_False by auto.
Qed.

Lemma counting_same_count r l s : counting r l (Z.of_nat (length l)) s ->
  (forall sn, r_get s (roomSnapshotKey r) = Some (Blob (DocRoom sn)) -> sn_playerCount sn = Z.of_nat (length l)) ->
  cached r l s.
Proof.
  intros [H1 H2 H3] Hs. split; [done|done|]. destruct H3 as [H|[sn H]]; [by left|right; exists sn; auto].
Qed.

(** ** The pieces of the calls *)

Lemma alone_try_redis {A B} (c : RedisCmd A) (k : outcome exn A -> LTask B) lb d s :
  alone (pbind (attempt (redis c)) k) lb (d, s)
  = let '(o, s1) := exec_redis c s in alone (k o) lb (d, s1).
Proof. unfold alone. cbn -[exec_redis]. by destruct (exec_redis c s) as [o s1]. Qed.


Lemma alone_mirror r l n lb d s :
  counting r l n s -> n = Z.of_nat (length l) ->
  exists s', alone (mirror_count r (Some n)) lb (d, s) = (Ok tt, (d, s')) /\ cached r l s'.
Proof.
  intros Hc Hn. destruct (exec_redis (KCountField (roomSnapshotKey r) n) s) as [o s'] eqn:E. exists s'.
  split; [|by eapply counted]. unfold mirror_count, syncPlayerCount, best_effort. by rewrite alone_try_redis, E.
Qed.

Lemma count_joined_tail r lb d s :
  alone (pbind (incrementPlayerCount r) (mirror_count r)) lb (d, s)
  = let '(o, s1) := exec_redis (KIncrCount (roomPlayerCountKey r) ROOM_CACHE_TTL_SECONDS) s in
    alone (mirror_count r (ok_value o)) lb (d, s1).
Proof.
  unfold alone, incrementPlayerCount. cbn -[exec_redis mirror_count]. by destruct (exec_redis _ s) as [o s1].
Qed.

Lemma count_removed_tail r by_ lb d s :
  alone (pbind (decrementPlayerCountClamped r by_) (mirror_count r)) lb (d, s)
  = let '(o, s1) := exec_redis (KDecrCount (roomPlayerCountKey r) by_ ROOM_CACHE_TTL_SECONDS) s in
    alone (mirror_count r (ok_value o)) lb (d, s1).
Proof.
  unfold alone, decrementPlayerCountClamped. cbn -[exec_redis mirror_count]. by destruct (exec_redis _ s) as [o s1].
Qed.

Lemma alone_count_joined r l u lb d s :
  cached r l s -> Z.of_nat (length l) < 2 ^ 62 ->
  exists s', alone (count_joined r u) lb (d, s) = (Ok tt, (d, s')) /\ cached r (l ++ [u]) s'.
Proof.
  intros Hc Hn. apply cached_counting, (counting_added _ _ u) in Hc.
  destruct (exec_incr r _ _ (co_count _ _ _ _ Hc) ltac:(lia)) as (s1 & He & Hg & Hm).
  pose proof (counting_written _ _ _ _ _ _ Hc Hg Hm) as Hc1.
  destruct (alone_mirror r _ _ lb d s1 Hc1) as (s2 & H2 & Hc2); [rewrite length_app; cbn; lia|].
  exists s2. split; [|done]. unfold count_joined. rewrite alone_redis. cbn [exec_redis foldl].
  rewrite count_joined_tail, He. exact H2.
Qed.

Lemma alone_count_removed r l n lb d s :
  counting r l n s -> Z.of_nat (length l) <= n ->
  (n = Z.of_nat (length l) -> cached r l s) ->
  exists s', alone (count_removed r (n - Z.of_nat (length l))) lb (d, s) = (Ok tt, (d, s')) /\ cached r l s'.
Proof.
  intros Hc Hn Hsame. unfold count_removed. destruct (_ <? _) eqn:E; bool_to_prop; [|exists s; split; [done|apply Hsame; lia]].
  pose proof (exec_decr r n (n - Z.of_nat (length l)) s (co_count _ _ _ _ Hc) ltac:(lia)) as He.
  replace (n - (n - Z.of_nat (length l))) with (Z.of_nat (length l)) in He by lia.
  set (s1 := set_keepttl _ _ _ _) in He.
  assert (Hc1 : counting r l (Z.of_nat (length l)) s1).
  { eapply counting_written; [exact Hc|..].
    - intros k. unfold s1, set_keepttl. by rewrite get_set.
    - intros k m. unfold s1, set_keepttl. by rewrite sismember_set. }
  destruct (alone_mirror r l _ lb d s1 Hc1 eq_refl) as (s2 & H2 & Hc2).
  exists s2. split; [|done]. by rewrite count_removed_tail, He.
Qed.

(** ** The calls *)

(** A call on the room [r], which has the row [room]. *)
Definition call_on (r : jstr) (room : RoomRecord) (d : D) (c : RoomCall) : Prop :=
  match c with
  | CallJoin code userId => rdb_by_code d code = Some room
  | CallLeave r' _ | CallRemove r' _ | CallRemoveBatch r' _ | CallStatus r' _ _ _ => r' = r
  | _ => False
  end.

Lemma cached_perm r l l' s : (forall u, u ∈ l <-> u ∈ l') -> length l = length l' -> cached r l s -> cached r l' s.
Proof.
  intros Hl Hn [H1 H2 H3]. split; rewrite <- ?Hn; [done| |done].
  intros u. rewrite H2. by apply bool_decide_ext.
Qed.

Lemma removed_length {A} (P : A -> Prop) `{!forall x, Decision (P x)} (l : list A) :
  Z.of_nat (length (filter P l)) = Z.of_nat (length l) - Z.of_nat (length (filter (fun x => ~ P x) l)).
Proof. rewrite <- (Permutation_length (filter_app_complement P l)), length_app. lia. Qed.

Lemma removed_none {A} (P : A -> Prop) `{!forall x, Decision (P x)} (l : list A) :
  length (filter P l) = length l -> filter P l = l.
Proof.
  induction l as [|x l IH]; [done|]. rewrite filter_cons. case_decide.
  - cbn. intros [= H1]. by rewrite IH.
  - intros H1. pose proof (length_filter P l). cbn in H1. lia.
Qed.

(** After rows of [us] were deleted: the set, the presence keys, the counter. *)
Lemma alone_removed r (l us : list jstr) s lb d :
  cached r l s ->
  let l' := filter (fun u => u ∉ us) l in
  forall s', counting r l' (Z.of_nat (length l)) s' ->
    (forall sn, r_get s' (roomSnapshotKey r) = Some (Blob (DocRoom sn)) ->
       exists sn0, r_get s (roomSnapshotKey r) = Some (Blob (DocRoom sn0)) /\ sn_playerCount sn = sn_playerCount sn0) ->
  exists s2, alone (count_removed r (Z.of_nat (length (filter (fun u => u ∈ us) l)))) lb (d, s') = (Ok tt, (d, s2))
    /\ cached r l' s2.
Proof.
  intros Hc l' s' Hc' Hsn.
  assert (Hlen : Z.of_nat (length (filter (fun u => u ∈ us) l)) = Z.of_nat (length l) - Z.of_nat (length l'))
    by apply (removed_length (fun u => u ∈ us) l).
  rewrite Hlen. apply alone_count_removed; [done|lia|].
  intros Hn. apply counting_same_count; [by rewrite <- Hn|]. rewrite <- Hn.
  intros sn Hg. apply Hsn in Hg as (sn0 & Hg0 & ->).
  destruct (ca_snapshot _ _ _ Hc) as [H|(sn1 & H & <-)]; [congruence|]. congruence.
Qed.

Lemma alone_best_effort {R} (p : LTask R) lb e : (alone (best_effort p) lb e).2 = (alone p lb e).2.
Proof.
  unfold alone, best_effort. rewrite drive_bind, drive_attempt.
  by destruct (drive lobby_answers p lb e) as [[[o l1] e1] t].
Qed.

Lemma alone_then_state {A B} (p : LTask A) (k : A -> LTask B) lb e a e1 e2 :
  alone p lb e = (Ok a, e1) -> (forall lb', (alone (k a) lb' e1).2 = e2) -> (alone (pbind p k) lb e).2 = e2.
Proof. intros H Hk. destruct (alone_seq p lb e _ _ H) as [l1 ->]. apply Hk. Qed.

Lemma alone_assoc {A B C} (p : LTask A) (k : A -> LTask B) (k2 : B -> LTask C) lb e :
  alone (pbind (pbind p k) k2) lb e = alone (pbind p (fun a => pbind (k a) k2)) lb e.
Proof.
  unfold alone. rewrite !drive_bind. destruct (drive lobby_answers p lb e) as [[[[a|x] l1] e1] t]; [|done].
  rewrite drive_bind. destruct (drive lobby_answers (k a) l1 e1) as [[[[b|x] l2] e2] t2]; [|done].
  by destruct (drive lobby_answers (k2 b) l2 e2) as [[[o3 l3] e3] t3].
Qed.

Lemma alone_then_best_effort {A B} (c : RedisCmd A) (k : unit -> LTask B) lb d s :
  alone (pbind (best_effort (redis c)) k) lb (d, s) = alone (k tt) lb (d, (exec_redis c s).2).
Proof. unfold alone, best_effort. cbn -[exec_redis]. by destruct (exec_redis c s) as [o s1]. Qed.

(** Calls that succeed one after the other. *)
Lemma alone_settle {A} (l : list A) (body : A -> LTask unit) (P : S -> Prop) d :
  (forall x s lb, x ∈ l -> P s -> exists s', alone (body x) lb (d, s) = (Ok tt, (d, s')) /\ P s') ->
  forall s lb, P s -> exists s', alone (settle_all l body) lb (d, s) = (Ok (Ok tt), (d, s')) /\ P s'.
Proof.
  induction l as [|x l IH]; intros Hb s lb HP; [by exists s|]. cbn [settle_all].
  destruct (Hb x s lb) as (s1 & H1 & HP1); [left|done|].
  assert (Ha : alone (attempt (body x)) lb (d, s) = (Ok (Ok tt), (d, s1))).
  { unfold alone in *. rewrite drive_attempt. destruct (drive lobby_answers (body x) lb (d, s)) as [[[o l1] e1] t].
    by injection H1 as -> ->. }
  destruct (alone_seq _ _ _ _ _ Ha) as [lb1 ->].
  destruct (IH ltac:(intros; apply Hb; [by right|done]) s1 lb1 HP1) as (s2 & H2 & HP2).
  destruct (alone_seq _ _ _ _ _ H2) as [lb2 ->]. exists s2. by split.
Qed.

Lemma alone_all_of {A} (l : list A) (body : A -> LTask unit) (P : S -> Prop) d :
  (forall x s lb, x ∈ l -> P s -> exists s', alone (body x) lb (d, s) = (Ok tt, (d, s')) /\ P s') ->
  forall s lb, P s -> exists s', alone (all_of l body) lb (d, s) = (Ok tt, (d, s')) /\ P s'.
Proof.
  intros Hb s lb HP. destruct (alone_settle l body P d Hb s lb HP) as (s1 & H1 & HP1). unfold all_of.
  destruct (alone_seq _ _ _ _ _ H1) as [lb1 ->]. by exists s1.
Qed.

(** The state in which the rows are gone and the set may be behind them. *)
Definition removing (r : jstr) (l us : list jstr) (s0 s : S) : Prop :=
  counting r (filter (fun u => u ∉ us) l) (Z.of_nat (length l)) s
  /\ r_get s (roomSnapshotKey r) = r_get s0 (roomSnapshotKey r).

Lemma removing_starts r l us s :
  cached r l s -> removing r l us s (foldl (fun s m => r_srem (B := LobbyDoc) (roomPlayersKey r) m s) s us).
Proof. intros Hc. split; [by apply counting_removed, cached_counting|]. by rewrite get_removes. Qed.

Lemma removing_presence r l us u s0 s :
  removing r l us s0 s -> removing r l us s0 (r_del (B := LobbyDoc) (presenceKey r u) s).
Proof.
  intros [H1 H2]. split; [by apply counting_presence|]. by rewrite get_del, decide_False by auto.
Qed.

Lemma removing_ends r l us s0 s lb d :
  cached r l s0 -> removing r l us s0 s ->
  exists s2, alone (count_removed r (Z.of_nat (length (filter (fun u => u ∈ us) l)))) lb (d, s) = (Ok tt, (d, s2))
    /\ cached r (filter (fun u => u ∉ us) l) s2.
Proof.
  intros Hc [H1 H2]. eapply alone_removed; [exact Hc|exact H1|]. intros sn Hg. exists sn. by rewrite <- H2.
Qed.

Lemma leave_cached r us s s1 lb d d1 {B} (k : LTask B) :
  cached r (rdb_players d r) s -> removing r (rdb_players d r) us s s1 ->
  (forall lb' s2, cached r (filter (fun u => u ∉ us) (rdb_players d r)) s2 ->
     (alone k lb' (d1, s2)).2 = (d1, s2)) ->
  exists s2, (alone (count_removed r (Z.of_nat (length (filter (fun u => u ∈ us) (rdb_players d r)))) ;; k)
                lb (d1, s1)).2 = (d1, s2)
    /\ cached r (filter (fun u => u ∉ us) (rdb_players d r)) s2.
Proof.
  intros Hc Hr Hk. destruct (removing_ends r _ us s s1 lb d1 Hc Hr) as (s2 & H2 & Hc2). exists s2.
  split; [|done]. eapply alone_then_state; [exact H2|]. intros lb'. by apply Hk.
Qed.

Lemma getRoom_keeps r lb d s : (alone (getRoom r) lb (d, s)).2 = (d, s).
Proof. by rewrite alone_getRoom. Qed.

Lemma batch_cleaned r us l s lb d :
  cached r l s ->
  exists s1, alone (all_of (None :: (Some <$> us)) (fun u =>
      match u with
      | None => redis (KSrem (roomPlayersKey r) us)
      | Some userId => clearPresence r userId
      end)) lb (d, s) = (Ok tt, (d, s1)) /\ removing r l us s s1.
Proof.
  intros Hc. unfold all_of. cbn [settle_all].
  set (s0 := foldl (fun s m => r_srem (B := LobbyDoc) (roomPlayersKey r) m s) s us).
  set (body := fun u : option jstr => _).
  destruct (alone_settle (Some <$> us) body (removing r l us s) d) with (s := s0) (lb := lb) as (s2 & H2 & HP).
  - intros x s' lb' Hx Hr. apply list_elem_of_fmap in Hx as (u & -> & _). eexists. split; [done|].
    by apply removing_presence.
  - by apply removing_starts.
  - exists s2. split; [|done]. rewrite alone_assoc. unfold body at 1. rewrite alone_try_redis. cbn [exec_redis].
    rewrite alone_assoc. fold s0. destruct (alone_seq _ _ _ _ _ H2) as [lb2 ->]. done.
Qed.

Lemma join_cached r room code userId lb d s :
  rdb_room d r = Some room -> ro_maxPlayers room <= GAME_CONFIG.MAX_PLAYERS -> rdb_by_code d code = Some room ->
  cached r (rdb_players d r) s ->
  let '(d', s') := (alone (joinRoom code userId) lb (d, s)).2 in cached r (rdb_players d' r) s'.
Proof.
  intros Hr Hmax Hcode Hs. pose proof (room_in _ _ _ Hr) as Hid. unfold joinRoom. rewrite alone_sql.
  cbn [exec_db]. rewrite Hcode. cbn [fmap option_fmap option_map]. unfold room_view. cbn [rv_room rv_players]. cbn zeta.
  rewrite !Hid.
  assert (Hres : forall joined joinedAs lb d s, (alone (join_result r joined joinedAs) lb (d, s)).2 = (d, s)).
  { intros. unfold join_result, getRoom. rewrite alone_assoc, alone_sql. cbn [exec_db]. by destruct (rdb_room d0 r). }
  case_bool_decide as Hm; [by rewrite Hres|].
  destruct (ro_status room); try done; try by rewrite Hres.
  rewrite alone_sql. cbn [exec_db]. unfold join_transaction. rewrite Hr, bool_decide_eq_false_2 by done.
  destruct (_ <=? _) eqn:Hf; [done|]. destruct (rdb_add r userId d) as [d1|] eqn:Ha; [|done].
  bool_to_prop. unfold GAME_CONFIG.MAX_PLAYERS in Hmax.
  destruct (alone_count_joined r _ userId lb d1 s Hs) as (s1 & H1 & Hc1); [lia|].
  destruct (alone_seq _ _ _ _ _ H1) as [lb1 ->]. rewrite Hres.
  by rewrite (add_players _ _ _ _ _ Ha), decide_True.
Qed.

Lemma status_cached r room st mid opts lb d s :
  rdb_room d r = Some room -> cached r (rdb_players d r) s ->
  exists d' s', (alone (updateRoomStatus r st mid opts) lb (d, s)).2 = (d', s')
    /\ rdb_players d' r = rdb_players d r /\ cached r (rdb_players d r) s'.
Proof.
  intros Hr Hs. pose proof (room_in _ _ _ Hr) as Hid.
  set (d1 := rdb_update r st mid d).
  assert (Hr1 : rdb_room d1 r = Some (update_room st mid room)) by by unfold d1; rewrite update_row, decide_True, Hr.
  assert (Hp1 : rdb_players d1 r = rdb_players d r) by apply update_players.
  assert (Hsync : forall lb (k : LTask (option RoomView)),
    (forall lb d s, (alone k lb (d, s)).2 = (d, s)) ->
    exists s', (alone (syncRoomState (room_view d1 (update_room st mid room)) ;; k) lb (d1, s)).2 = (d1, s')
      /\ cached r (rdb_players d r) s').
  { intros lb1 k Hk. unfold syncRoomState. cbn [room_view rv_room rv_players ro_id update_room]. rewrite Hid.
    rewrite alone_assoc, alone_redis. cbn [exec_redis]. rewrite (ca_count _ _ _ Hs). cbn [lua_number].
    rewrite integer_value_js. cbn [default]. unfold setSnapshot. rewrite alone_assoc, alone_redis. cbn [exec_redis].
    eexists. split; [apply Hk|]. change (ro_id (update_room st mid room)) with (ro_id room). rewrite Hid.
    destruct Hs as [H1 H2 H3]. split.
    - by rewrite get_set, decide_False by done.
    - intros u. rewrite sismember_set. apply H2.
    - right. eexists. rewrite get_set, decide_True by done. by split. }
  unfold updateRoomStatus. destruct opts as [[es em]|].
  - rewrite alone_sql. cbn [exec_db]. rewrite Hr. destruct (as_expected _ _ _); [|by exists d, s].
    fold d1. rewrite Hr1. cbn [fmap option_fmap option_map].
    destruct (Hsync lb (pret (Some (room_view d1 (update_room st mid room))))) as (s' & H' & Hc'); [done|].
    by exists d1, s'.
  - rewrite alone_sql. cbn [exec_db]. fold d1. rewrite Hr1.
    destruct (Hsync lb (pret (Some (room_view d1 (update_room st mid room))))) as (s' & H' & Hc'); [done|].
    by exists d1, s'.
Qed.


(** [createRoom] starts it, when the keys of the new id are not in use. *)
Lemma createRoom_cached code hostId roomType maxPlayers timeLimit category lb d s room d1 d2 :
  rdb_create (mkNewRoom code roomType hostId (safeMaxPlayers maxPlayers) (default 15 timeLimit)
                (default (js "ALL") category)) d = Some (room, d1) ->
  rdb_add (ro_id room) hostId d1 = Some d2 ->
  (forall u, r_sismember (B := LobbyDoc) s (roomPlayersKey (ro_id room)) u = false) ->
  exists s', alone (create_with_code code hostId roomType maxPlayers timeLimit category) lb (d, s) = (Ok room, (d2, s'))
    /\ rdb_players d2 (ro_id room) = [hostId] /\ cached (ro_id room) [hostId] s'.
Proof.
  intros Hc Ha Hs. assert (Hp : rdb_players d2 (ro_id room) = [hostId]).
  { rewrite (add_players _ _ _ _ _ Ha), decide_True by done. rewrite (create_players _ _ _ _ _ Hc).
    destruct (rdb_players d (ro_id room)) eqn:E; [done|]. destruct (players_room d (ro_id room)) as [x Hx]; [by rewrite E|].
    by rewrite (create_fresh _ _ _ _ Hc) in Hx. }
  unfold create_with_code. rewrite alone_sql. cbn [exec_db]. rewrite Hc, alone_sql. cbn [exec_db]. rewrite Ha.
  unfold setSnapshot. rewrite alone_redis. cbn [exec_redis]. rewrite alone_redis. cbn [exec_redis].
  rewrite alone_redis. cbn [exec_redis foldl]. eexists. split; [done|]. split; [done|]. split.
  - redis_simpl. by rewrite decide_True.
  - intros u. redis_simpl. rewrite Hs, orb_false_r. apply bool_decide_ext. set_solver.
  - right. eexists. redis_simpl. rewrite decide_False by (intros H; by eapply snapshot_key_count). by rewrite decide_True.
Qed.
(** What Redis keeps of a room follows the rows.  A call runs alone and Redis
    and the tables answer.  When the player counter, the set of players and the
    player count of the snapshot agree with the rows of a room, and a
    player joins or leaves it, players are removed one by one or in a batch, or
    its status is updated, then they agree with the new rows, whatever the
    call answered. *)
Theorem cache_follows_rows r room c lb d s :
  rdb_room d r = Some room -> ro_maxPlayers room <= GAME_CONFIG.MAX_PLAYERS -> call_on r room d c ->
  cached r (rdb_players d r) s ->
  let '(d', s') := (alone (room_call c) lb (d, s)).2 in cached r (rdb_players d' r) s'.
Proof.
  intros Hr Hmax Hc Hs. pose proof (room_in _ _ _ Hr) as Hid.
  destruct c as [code userId|r' userId|r' userId|r' userIds|r' st mid opts| | |]; cbn in Hc; try done;
    try subst r'; cbn [room_call]; rewrite alone_best_effort.
  - by apply (join_cached r room).
  - unfold leaveRoom, clearPresence. rewrite alone_sql. cbn [exec_db]. rewrite alone_redis. cbn [exec_redis].
    rewrite alone_then_best_effort. cbn [exec_redis snd].
    edestruct (leave_cached r [userId]) as (s2 & -> & Hc2); [exact Hs|apply removing_presence, removing_starts, Hs| |].
    + intros. apply getRoom_keeps.
    + by rewrite remove_players, decide_True.
  - unfold removePlayer, clearPresence. rewrite alone_sql. cbn [exec_db]. rewrite alone_redis. cbn [exec_redis].
    rewrite alone_redis. cbn [exec_redis].
    destruct (removing_ends r (rdb_players d r) [userId] s _ lb (rdb_remove r [userId] d) Hs
      (removing_presence _ _ _ userId _ _ (removing_starts _ _ [userId] _ Hs))) as (s2 & H2 & Hc2).
    rewrite H2. cbn [snd]. by rewrite remove_players, decide_True.
  - unfold removePlayerBatch. case_bool_decide; [done|]. rewrite alone_sql. cbn [exec_db].
    destruct (batch_cleaned r userIds (rdb_players d r) s lb (rdb_remove r userIds d) Hs) as (s1 & H1 & Hr1).
    destruct (alone_seq _ _ _ _ _ H1) as [lb1 ->].
    destruct (removing_ends r _ userIds s s1 lb1 (rdb_remove r userIds d) Hs Hr1) as (s2 & -> & Hc2).
    cbn [snd]. by rewrite remove_players, decide_True.
  - destruct (status_cached r room st mid opts lb d s Hr Hs) as (d' & s' & -> & Hp & Hc'). by rewrite Hp.
Qed.
End Cache.

(** ** An example *)

Definition demo_row : RoomRecord :=
  new_room (js "r0") 0 (mkNewRoom (js "ABC") PUBLIC (js "u1") 2 15 (js "ALL")).

Lemma demo_room_cached :
  exists room, rdb_room demo_room.1 (js "r0") = Some room /\ ro_maxPlayers room <= GAME_CONFIG.MAX_PLAYERS
    /\ call_on (js "r0") room demo_room.1 (CallJoin (js "ABC") (js "u2"))
    /\ cached (js "r0") (rdb_players demo_room.1 (js "r0")) demo_room.2.
Proof.
  exists demo_row. split_and!; [vm_compute; reflexivity|by vm_compute|vm_compute; reflexivity|].
  destruct (rdb_create (mkNewRoom (js "ABC") PUBLIC (js "u1") (safeMaxPlayers (Some (inject_Z 2))) 15 (js "ALL"))
              demo_users) as [[room d1]|] eqn:E1; [|by exfalso; revert E1; vm_compute].
  assert (room = demo_row) as ->.
  { apply (f_equal (fmap fst)) in E1. vm_compute in E1. vm_compute. congruence. }
  destruct (rdb_add (js "r0") (js "u1") d1) as [d2|] eqn:E2.
  - destruct (createRoom_cached (js "ABC") (js "u1") PUBLIC (Some (inject_Z 2)) None None demo_lobby demo_users
      no_redis demo_row d1 d2 E1 E2) as (s' & H & Hp & Hc).
    { intros u. apply bool_decide_eq_false_2. cbn. set_solver. }
    unfold demo_room. rewrite H. cbn [snd fst]. change (js "r0") with (ro_id demo_row). by rewrite Hp.
  - exfalso. assert (Hn : is_Some (rdb_add (js "r0") (js "u1") d1)).
    { apply add_some. split_and!.
      - rewrite (create_room _ _ _ _ _ E1). by rewrite decide_True.
      - revert E1. cbn [rdb_create tables_room_db]. destruct (decide _); [|done]. intros [= <-]. by eexists.
      - rewrite (create_players _ _ _ _ _ E1). vm_compute. by intros ?%elem_of_nil. }
    rewrite E2 in Hn. by destruct Hn.
Qed.

(** [u2] joins the room of [u1]. *)
Lemma cache_follows_rows_witness :
  rdb_players (alone (room_call (CallJoin (js "ABC") (js "u2"))) demo_lobby demo_room).2.1 (js "r0")
    = [js "u1"; js "u2"]
  /\ let '(d', s') := (alone (room_call (CallJoin (js "ABC") (js "u2"))) demo_lobby demo_room).2 in
     cached (js "r0") (rdb_players d' (js "r0")) s'.
Proof.
  split; [vm_compute; reflexivity|].
  destruct demo_room_cached as (room & Hr & Hmax & Hcode & Hc).
  rewrite (surjective_pairing demo_room).
  apply (cache_follows_rows (js "r0") room _ demo_lobby demo_room.1 demo_room.2 Hr Hmax Hcode Hc).
Defined.
