(* ===== verification/Matchmaking.v ===== *)
(** * Matchmaking

    [matchmaking-queue.store.ts], [matchmaking.service.ts] and
    [matchmaking-worker.service.ts]: the queue of tickets, and the worker that
    groups them and launches a match for each group. *)

From stdpp Require Import gmap.
From S2P Require Import Prelude JsData Effects Shared Decimal Redis Lease EloTiers Events Async LobbyStore Lobby Rooms.
#[local] Open Scope Z_scope.
#[local] Open Scope prog_scope.

(** ** The queue *)

Definition MATCHMAKING_TICKET_TTL_SEC : Z := 300.

Definition as_ticket (v : rvalue LobbyDoc) : option MatchmakingTicket :=
  match v with Blob (DocTicket t) => Some t | _ => None end.

Definition addTicket (ticket : MatchmakingTicket) : LTask unit :=
  results <- redis (KAddTicket ticket MATCHMAKING_TICKET_TTL_SEC) ;;
  let '(setOk, zaddOk) := (results : bool * bool) in
  if setOk && zaddOk then pret tt
  else
    best_effort (redis (KDropTicket (tk_userId ticket) setOk zaddOk)) ;;
    raise (JsError "addTicket").

(** An empty [socketId] is no [socketId]. *)
Definition removeTicket (userId : jstr) (socketId : option jstr) : LTask bool :=
  match socketId with
  | None | Some [] => redis (KRemoveTicket userId)
  | Some socketId =>
      r <- attempt (redis (KRemoveTicketOf userId socketId)) ;; pret (default false (ok_value r))
  end.

(** A text that is no JSON throws. *)
Definition getTicket (userId : jstr) : LTask (option MatchmakingTicket) :=
  v <- redis (KGet (ticketKey userId)) ;;
  match v with
  | None | Some (Text []) => pret None
  | Some v => match as_ticket v with Some t => pret (Some t) | None => raise (JsError "SyntaxError") end
  end.

Definition getQueueCount : LTask Z := redis (KZcard MATCHMAKING_QUEUE_ZSET).

(** The tickets, and the users whose ticket is gone. *)
Definition active_tickets (entries : list (jstr * option (rvalue LobbyDoc))) : list MatchmakingTicket :=
  omap (fun e => e.2 ≫= as_ticket) entries.
Definition stale_users (entries : list (jstr * option (rvalue LobbyDoc))) : list jstr :=
  fst <$> filter (fun e => (e.2 ≫= as_ticket) = None) entries.

Definition getAllTickets : LTask (list MatchmakingTicket) :=
  userIds <- redis (KZrange MATCHMAKING_QUEUE_ZSET) ;;
  if bool_decide (userIds = []) then pret []
  else
    payloads <- redis (KMget (ticketKey <$> userIds)) ;;
    let entries := zip userIds payloads in
    (if bool_decide (stale_users entries = []) then pret tt
     else redis (KZrem MATCHMAKING_QUEUE_ZSET (stale_users entries))) ;;
    pret (active_tickets entries).

Definition atomicPopTickets (userIds : list jstr) : LTask (list MatchmakingTicket) :=
  if bool_decide (userIds = []) then pret []
  else
    results <- attempt (redis (KPopTickets userIds)) ;;
    pret (match results with Ok vals => omap as_ticket vals | Throw _ => [] end).

(** ** MatchmakingService *)

Definition max_wait_seconds : Z := MATCHMAKING_CONFIG.MAX_WAIT_TIME_MS / 1000.

Definition queue_status (ticket : option MatchmakingTicket) (count now : Z) : MatchmakingStatusPayload :=
  match ticket with
  | None => mkQueueStatus false None 0 max_wait_seconds count
  | Some t =>
      let elapsedSeconds := Z.max 0 (now - tk_joinedAt t) / 1000 in
      mkQueueStatus true (Some (tk_joinedAt t)) elapsedSeconds (Z.max 5 (max_wait_seconds - elapsedSeconds)) count
  end.

Definition getQueueStatus (userId : jstr) : LTask MatchmakingStatusPayload :=
  ticket <- getTicket userId ;;
  count <- getQueueCount ;;
  match ticket with
  | None => pret (queue_status None count 0)
  | Some t => now <- date_now ;; pret (queue_status (Some t) count now)
  end.

Definition joinQueue (userId username : jstr) (elo : option Z) (socketId : jstr) (category : option jstr)
    : LTask MatchmakingStatusPayload :=
  playerElo <-
    match elo with
    | Some e => pret e
    | None => dbElo <- sql (DUserElo userId) ;; pret (default DEFAULT_ELO dbElo)
    end ;;
  existingTicket <- getTicket userId ;;
  joinedAt <- match existingTicket with Some t => pret (tk_joinedAt t) | None => date_now end ;;
  addTicket (mkTicket userId username playerElo socketId category joinedAt) ;;
  getQueueStatus userId.

Definition leaveQueue (userId : jstr) (socketId : option jstr) : LTask bool := removeTicket userId socketId.

(** ** The worker: leadership *)

Definition MATCHMAKING_LEADER_KEY : jstr := js "matchmaking:leader".
Definition MATCHMAKING_LEADER_FENCE_KEY : jstr := js "matchmaking:leader:fence".
Definition MATCHMAKING_LEADER_TTL_SEC : Z := 5.

Section Worker.
Context (nodeId : jstr).

Definition set_leader (token : option jstr) : LTask unit :=
  writes (fun l => { l with lb_matchmakingToken := token }).

Definition become_leader : LTask (option jstr) :=
  fence <- redis (KIncr MATCHMAKING_LEADER_FENCE_KEY) ;;
  let token := nodeId ++ js ":" ++ js_of_Z fence in
  acquired <- redis (KAcquireLease MATCHMAKING_LEADER_KEY token MATCHMAKING_LEADER_TTL_SEC) ;;
  let held := if acquired : bool then Some token else None in
  set_leader held ;; pret held.

Definition acquireOrRenewLeadership : LTask (option jstr) :=
  held <- reads lb_matchmakingToken ;;
  match held with
  | Some token =>
      renewed <- redis (KRenewLease MATCHMAKING_LEADER_KEY token MATCHMAKING_LEADER_TTL_SEC) ;;
      if renewed : bool then pret (Some token)
      else set_leader None ;; become_leader
  | None => become_leader
  end.

(** ** Grouping *)

Definition category_of (t : MatchmakingTicket) : jstr := default (js "ALL") (tk_category t).

Definition seed_wait (now : Z) (seed : MatchmakingTicket) : Z := Z.max 0 (now - tk_joinedAt seed).
Definition seed_window (now : Z) (seed : MatchmakingTicket) : Z :=
  MATCHMAKING_CONFIG.INITIAL_ELO_WINDOW
  + seed_wait now seed / MATCHMAKING_CONFIG.ELO_EXPANSION_INTERVAL_MS * MATCHMAKING_CONFIG.ELO_EXPANSION_STEP.
Definition is_timed_out (now : Z) (seed : MatchmakingTicket) : bool :=
  MATCHMAKING_CONFIG.MAX_WAIT_TIME_MS <=? seed_wait now seed.

(** The test of the inner loop. *)
Definition is_candidate (now : Z) (seed : MatchmakingTicket) (matched : list jstr) (t : MatchmakingTicket) : bool :=
  negb (set_has (tk_userId t) matched)
  && bool_decide (category_of t = category_of seed)
  && (is_timed_out now seed || (Z.abs (tk_elo t - tk_elo seed) <=? seed_window now seed)).

Definition candidates (now : Z) (tickets : list MatchmakingTicket) (matched : list jstr)
    (seed : MatchmakingTicket) : list MatchmakingTicket :=
  filter (fun t => is_candidate now seed matched t) tickets.

Definition should_match (now : Z) (seed : MatchmakingTicket) (group : list MatchmakingTicket) : bool :=
  (MATCHMAKING_CONFIG.TARGET_PLAYERS_PER_MATCH <=? Z.of_nat (length group))
  || is_timed_out now seed && (MATCHMAKING_CONFIG.MIN_PLAYERS_TO_MATCH <=? Z.of_nat (length group)).

Definition selected (group : list MatchmakingTicket) : list MatchmakingTicket :=
  slice_to group MATCHMAKING_CONFIG.TARGET_PLAYERS_PER_MATCH.

(** ** Launching a group *)

Definition say_to (socketId : jstr) (payload : ServerPayload) : LTask unit := say (mkEmission socketId [] payload).

Definition requeue_status (player : MatchmakingTicket) (now count : Z) : MatchmakingStatusPayload :=
  let elapsedMs := Z.max 0 (now - tk_joinedAt player) in
  mkQueueStatus true (Some (tk_joinedAt player)) (elapsedMs / 1000)
    (Z.max 0 ((MATCHMAKING_CONFIG.MAX_WAIT_TIME_MS - elapsedMs) / 1000)) count.

(** The first [try]: the row and the set member go, then the ticket comes back. *)
Definition requeue (roomId : jstr) (player : MatchmakingTicket) : LTask bool :=
  cleaned <- attempt (sql (DPlayersDelete roomId [tk_userId player]) ;;
                      redis (KSrem (roomPlayersKey roomId) [tk_userId player])) ;;
  match cleaned with
  | Throw _ => pret false
  | Ok _ => added <- attempt (addTicket player) ;; pret (match added with Ok _ => true | Throw _ => false end)
  end.

Definition failPlayerAndRequeue (roomId : jstr) (player : MatchmakingTicket) : LTask unit :=
  requeued <- requeue roomId player ;;
  if requeued : bool then
    now <- date_now ;;
    count <- attempt getQueueCount ;;
    say_to (tk_socketId player)
      (S_MATCHMAKING_STATUS (requeue_status player now (default 1 (ok_value count))))
  else say_to (tk_socketId player) (S_ERROR_MESSAGE INTERNAL_ERROR (js "Failed to join matched room")).

(** The row of one player: whether the player is in the room. *)
Definition add_to_room (roomId userId : jstr) : LTask unit :=
  sql (DPlayerCreate roomId userId) ;; redis (KSadd (roomPlayersKey roomId) [userId]).

Definition add_human (roomId : jstr) (player : MatchmakingTicket) : LTask bool :=
  added <- attempt (add_to_room roomId (tk_userId player)) ;;
  match added with
  | Ok _ => pret true
  | Throw _ =>
      recovered <- attempt (
        existing <- sql (DPlayerFind roomId (tk_userId player)) ;;
        if existing : bool then redis (KSadd (roomPlayersKey roomId) [tk_userId player]) ;; pret true
        else failPlayerAndRequeue roomId player ;; pret false) ;;
      match recovered with
      | Ok inRoom => pret inRoom
      | Throw _ => failPlayerAndRequeue roomId player ;; pret false
      end
  end.

(** [successfulPlayers], from the second player on. *)
Fixpoint add_humans (roomId : jstr) (players : list MatchmakingTicket) : LTask (list MatchmakingTicket) :=
  match players with
  | [] => pret []
  | p :: players' =>
      inRoom <- add_human roomId p ;;
      rest <- add_humans roomId players' ;;
      pret (if inRoom : bool then p :: rest else rest)
  end.

Definition average_elo (players : list MatchmakingTicket) : Z :=
  let n := Z.of_nat (length players) in (2 * Zsum (tk_elo <$> players) + n) / (2 * n).

Definition fill_bots (roomId : jstr) (successfulPlayers : list MatchmakingTicket) : LTask unit :=
  if MATCHMAKING_CONFIG.AUTO_FILL_BOTS
     && (Z.of_nat (length successfulPlayers) <? MATCHMAKING_CONFIG.TARGET_PLAYERS_PER_MATCH)
  then
    best_effort (
      bots <- await (QEnsureBots (MATCHMAKING_CONFIG.TARGET_PLAYERS_PER_MATCH
                       - Z.of_nat (length successfulPlayers)) (average_elo successfulPlayers)) ;;
      for_each bots (fun bot => best_effort (add_to_room roomId bot)))
  else pret tt.

(** Whether every socket joined. *)
Fixpoint join_sockets (roomId : jstr) (players : list MatchmakingTicket) : LTask bool :=
  match players with
  | [] => pret true
  | p :: players' =>
      joined <- attempt (await (QSocketsJoin (tk_socketId p) (room_channel roomId))) ;;
      match joined with
      | Ok _ => join_sockets roomId players'
      | Throw _ => pret false
      end
  end.

(** Everybody back to the queue, and the room closed. *)
Definition put_back (roomId : jstr) (players : list MatchmakingTicket) : LTask unit :=
  for_each players (failPlayerAndRequeue roomId) ;;
  best_effort (updateRoomStatus roomId RFINISHED None None).

Definition launch_in (room : RoomRecord) (successfulPlayers : list MatchmakingTicket) : LTask unit :=
  let roomId := ro_id room in
  fill_bots roomId successfulPlayers ;;
  joined <- join_sockets roomId successfulPlayers ;;
  if negb joined then put_back roomId successfulPlayers
  else
    launched <- attempt (await (QForceStart roomId)) ;;
    match launched with
    | Ok (Some matchId) =>
        for_each successfulPlayers (fun p =>
          say_to (tk_socketId p) (S_MATCHMAKING_MATCHED roomId (ro_code room) matchId))
    | _ => put_back roomId successfulPlayers
    end.

Definition launch_group (host : MatchmakingTicket) (others : list MatchmakingTicket) : LTask unit :=
  created <- attempt (createRoom (tk_userId host) PUBLIC (Some (QArith_base.inject_Z GAME_CONFIG.MAX_PLAYERS))
                        (Some 15) (Some (category_of host))) ;;
  match created with
  | Throw _ => for_each (host :: others) (fun p => best_effort (addTicket p))
  | Ok room =>
      best_effort (
        successes <- add_humans (ro_id room) others ;;
        launch_in room (host :: successes))
  end.

Definition launchMatchedGame (players : list MatchmakingTicket) : LTask unit :=
  server <- reads lb_server ;;
  match players with
  | host :: others => if negb server then pret tt else launch_group host others
  | [] => pret tt
  end.

(** ** The tick *)

(** One pass over the tickets; the result is [matchedUserIds]. *)
Fixpoint match_seeds (now : Z) (tickets seeds : list MatchmakingTicket) (matched : list jstr)
    : LTask (list jstr) :=
  match seeds with
  | [] => pret matched
  | seed :: seeds' =>
      if set_has (tk_userId seed) matched then match_seeds now tickets seeds' matched
      else
        let group := candidates now tickets matched seed in
        if negb (should_match now seed group) then match_seeds now tickets seeds' matched
        else
          activeToken <- acquireOrRenewLeadership ;;
          match activeToken with
          | None => pret matched
          | Some _ =>
              popped <- atomicPopTickets (tk_userId <$> selected group) ;;
              if Z.of_nat (length popped) <? MATCHMAKING_CONFIG.MIN_PLAYERS_TO_MATCH then
                for_each popped addTicket ;;
                match_seeds now tickets seeds' matched
              else
                launchMatchedGame popped ;;
                match_seeds now tickets seeds' (foldl (fun m p => set_add (tk_userId p) m) matched popped)
          end
  end.

(** [a.joinedAt - b.joinedAt] *)
Definition longest_first (a b : MatchmakingTicket) : Z := tk_joinedAt a - tk_joinedAt b.

Definition processQueue : LTask unit :=
  tickets <- getAllTickets ;;
  if bool_decide (tickets = []) then pret tt
  else
    now <- date_now ;;
    let sorted := js_sort longest_first tickets in
    match_seeds now sorted sorted [] ;; pret tt.

Definition tick : LTask unit :=
  idle <- act (fun l => if negb (lb_server l) || lb_processing l then (false, l)
                        else (true, { l with lb_processing := true })) ;;
  if idle : bool then
    finally
      (best_effort (
         token <- acquireOrRenewLeadership ;;
         match token with None => pret tt | Some _ => processQueue end))
      (fun l => { l with lb_processing := false })
  else pret tt.

Definition onModuleDestroy : LTask unit :=
  held <- reads lb_matchmakingToken ;;
  match held with
  | Some token =>
      best_effort (redis (KReleaseLease MATCHMAKING_LEADER_KEY token)) ;; set_leader None
  | None => pret tt
  end.
End Worker.
