(* ===== verification/MatchmakingRules.v ===== *)
(** * What matchmaking guarantees

    A group is what the rules allow, and a ticket is popped at most once; each
    player of a group that is launched is told of the match, or their return to
    the queue is asked for, or an error is sent to them; when every pop gets the
    tickets it asks for, whoever has waited long enough is matched. *)

From stdpp Require Import gmap.
From S2P Require Import Prelude JsData Effects Shared Decimal Redis Lease EloTiers Events Async LobbyStore.
From S2P Require Import LobbyTables Pool Lobby Rooms RoomRules Matchmaking.
#[local] Open Scope Z_scope.
#[local] Open Scope prog_scope.

Abbreviation LItem := (Item Emission LobbyReq).

(** ** Counting what happens to a player *)

Section Fate.
Context (p : MatchmakingTicket).

Definition said_matched (i : LItem) : nat :=
  match i with
  | Said (mkEmission to _ (S_MATCHMAKING_MATCHED _ _ _)) => if bool_decide (to = tk_socketId p) then 1 else 0
  | _ => 0
  end.
Definition said_error (i : LItem) : nat :=
  match i with
  | Said (mkEmission to _ (S_ERROR_MESSAGE _ _)) => if bool_decide (to = tk_socketId p) then 1 else 0
  | _ => 0
  end.
Definition adds_ticket {X} (q : LobbyReq X) : nat :=
  match q with
  | QRedis (KAddTicket t _) => if bool_decide (t = p) then 1 else 0
  | _ => 0
  end.
Definition asked_add (i : LItem) : nat := match i with Asked q _ => adds_ticket q | Said _ => 0 end.

(** How often the player was told MATCHED, put back into the queue, told an
    error. *)
Definition matched_count (t : list LItem) : nat := sum_list_with said_matched t.
Definition added_count (t : list LItem) : nat := sum_list_with asked_add t.
Definition error_count (t : list LItem) : nat := sum_list_with said_error t.

Definition counts {R} (m : LTask R) (Spec : outcome exn R -> nat -> nat -> nat -> Prop) : Prop :=
  every_run m (fun o t => Spec o (matched_count t) (added_count t) (error_count t)).

Lemma counts_mono {R} (m : LTask R) (S1 S2 : outcome exn R -> nat -> nat -> nat -> Prop) :
  counts m S1 -> (forall o a b c, S1 o a b c -> S2 o a b c) -> counts m S2.
Proof. intros H Hi. eapply every_mono; [|exact H]. intros o t. apply Hi. Qed.

Lemma counts_done {R} (o : outcome exn R) (Spec : outcome exn R -> nat -> nat -> nat -> Prop) :
  Spec o 0%nat 0%nat 0%nat -> counts (Done o) Spec.
Proof. by intros H Env w. Qed.

Lemma counts_bind {A B} (m : LTask A) (k : A -> LTask B) S1 Spec :
  counts m S1 ->
  (forall o a b c, S1 o a b c ->
     match o with
     | Ok x => counts (k x) (fun o' a' b' c' => Spec o' (a + a')%nat (b + b')%nat (c + c')%nat)
     | Throw e => Spec (Throw e) a b c
     end) ->
  counts (pbind m k) Spec.
Proof.
  intros H1 H2. apply (every_bind m k (fun o t => S1 o (matched_count t) (added_count t) (error_count t))); [exact H1|]. intros o t Ht. specialize (H2 o _ _ _ Ht).
  destruct o as [x|e]; [|done]. eapply every_mono; [|exact H2]. cbn. intros o' t'.
  unfold matched_count, added_count, error_count. by rewrite !sum_list_with_app.
Qed.

Lemma counts_attempt {A} (m : LTask A) Spec : counts m (fun o => Spec (Ok o)) -> counts (attempt m) Spec.
Proof. intros H. apply (every_attempt m (fun o t => Spec o (matched_count t) (added_count t) (error_count t))). exact H. Qed.

Lemma counts_say (e : Emission) Spec :
  Spec (Ok tt) (said_matched (Said e)) 0%nat (said_error (Said e)) -> counts (say e) Spec.
Proof.
  intros H Env w. cbn. unfold matched_count, added_count, error_count. cbn. by rewrite !Nat.add_0_r.
Qed.

Lemma counts_await {X} (q : LobbyReq X) Spec :
  (forall r, Spec r 0%nat (adds_ticket q) 0%nat) -> counts (await q) Spec.
Proof.
  intros H Env w w1 r _. cbn. unfold matched_count, added_count, error_count. cbn. rewrite !Nat.add_0_r. apply H.
Qed.

(** ** Programs that touch neither the queue nor a player *)

Fixpoint silent {R} (m : LTask R) : Prop :=
  match m with
  | Done _ => True
  | Act f k => forall x, silent (k x)
  | Say e k => False
  | Await q k => adds_ticket q = 0%nat /\ forall r, silent (k r)
  end.

Lemma silent_bind {A B} (m : LTask A) (k : A -> LTask B) : silent m -> (forall a, silent (k a)) -> silent (pbind m k).
Proof.
  intros Hm Hk. induction m as [[a|e]|X f c IH|x c IH|X q c IH]; cbn in *; try done.
  - intros x. by apply IH.
  - destruct Hm as [Hq Hm]. split; [done|]. intros r. by apply IH.
Qed.

Lemma silent_attempt {A} (m : LTask A) : silent m -> silent (attempt m).
Proof.
  intros Hm. induction m as [o|X f c IH|x c IH|X q c IH]; cbn in *; try done.
  - intros x. by apply IH.
  - destruct Hm as [Hq Hm]. split; [done|]. intros r. by apply IH.
Qed.

Lemma silent_for_each {A} (l : list A) (body : A -> LTask unit) : (forall x, silent (body x)) -> silent (for_each l body).
Proof. intros H. induction l as [|x l IH]; [done|]. cbn. by apply silent_bind. Qed.

Ltac hush :=
  repeat match goal with
  | |- silent (pbind _ _) => apply silent_bind
  | |- silent (attempt _) => apply silent_attempt
  | |- silent (for_each _ _) => apply silent_for_each
  | |- silent (match ?x with _ => _ end) => destruct x
  | |- forall _, _ => intros ?
  | |- silent _ => first [done | by split]
  end.

Definition nothing {R} (o : outcome exn R) (a b c : nat) : Prop := a = 0%nat /\ b = 0%nat /\ c = 0%nat.

Lemma silent_counts {R} (m : LTask R) : silent m -> counts m nothing.
Proof.
  unfold counts, every_run. intros Hm Env. induction m as [o|X f c IH|x c IH|X q c IH]; intros w; cbn in *; try done.
  - by apply IH.
  - intros w1 r _. destruct Hm as [Hq Hm]. eapply always_mono; [|by apply IH]. cbn. intros o w' t (H1 & H2 & H3).
    unfold nothing, matched_count, added_count, error_count in *. cbn. by rewrite Hq, H1, H2, H3.
Qed.

Lemma silent_best_effort {R} (m : LTask R) : silent m -> counts (best_effort m) (fun o a b c => o = Ok tt /\ nothing o a b c).
Proof.
  intros Hm. eapply (counts_bind _ _ (fun o a b c => is_Some (ok_value o) /\ nothing o a b c)).
  - apply counts_attempt. eapply counts_mono; [by apply silent_counts|]. intros o a b c H. by split; [eexists|].
  - intros [x|e] a b c [Ho (-> & -> & ->)]; [|by destruct Ho]. by apply counts_done.
Qed.

(** ** The steps of a launch *)

(** It returns, and nothing happened to the player. *)
Definition quietly {R} (o : outcome exn R) (a b c : nat) : Prop := is_Some (ok_value o) /\ nothing o a b c.

Lemma counts_date_now : counts date_now quietly.
Proof.
  unfold date_now, counts, every_run, quietly, nothing. intros Env w. cbn. destruct (clock_tick (lb_clock w)) as [t c].
  by split; [eexists|].
Qed.

Lemma counts_attempt_silent {A} (m : LTask A) : silent m -> counts (attempt m) quietly.
Proof.
  intros Hm. apply counts_attempt. eapply counts_mono; [by apply silent_counts|]. intros o a b c H. by split; [eexists|].
Qed.

(** After a quiet step the counts are those of what follows. *)
Lemma counts_quiet_bind {A B} (m : LTask A) (k : A -> LTask B) Spec :
  counts m quietly -> (forall a, counts (k a) Spec) -> counts (pbind m k) Spec.
Proof.
  intros Hm Hk. eapply counts_bind; [exact Hm|]. intros [x|e] a b c [Ho (-> & -> & ->)]; [apply Hk|by destruct Ho].
Qed.

Definition this (q : MatchmakingTicket) : nat := if decide (q = p) then 1 else 0.

Lemma adds_this q ttl : adds_ticket (QRedis (KAddTicket q ttl)) = this q.
Proof. cbn. unfold this. case_bool_decide; by case_decide. Qed.

Lemma counts_addTicket q :
  counts (addTicket q) (fun o a b c => a = 0%nat /\ b = this q /\ c = 0%nat).
Proof.
  unfold addTicket. eapply (counts_bind _ _ (fun o a b c => a = 0%nat /\ b = this q /\ c = 0%nat)).
  - apply counts_await. intros r. by rewrite adds_this.
  - intros [[x y]|e] a b c (-> & -> & ->); [|done]. destruct (x && y).
    + apply counts_done. by rewrite Nat.add_0_r.
    + eapply counts_bind; [apply silent_best_effort; hush|]. intros o a b c (-> & -> & -> & ->). apply counts_done.
      by rewrite !Nat.add_0_r.
Qed.

(** Giving up on a player: the ticket is put back or the player is told. *)
Definition failed (q : MatchmakingTicket) {R} (o : outcome exn R) (a b c : nat) : Prop :=
  a = 0%nat /\ (q = p -> (b <= 1)%nat /\ (1 <= b + c)%nat)
  /\ (tk_socketId q <> tk_socketId p -> b = 0%nat /\ c = 0%nat).

Lemma counts_requeue roomId q :
  counts (requeue roomId q) (fun o a b c => a = 0%nat /\ c = 0%nat /\ (b <= this q)%nat
    /\ exists v, o = Ok v /\ (v = true -> b = this q)).
Proof.
  unfold requeue. eapply counts_quiet_bind; [apply counts_attempt_silent; hush|].
  intros [u|e]; [|apply counts_done; split_and!; [done|done|lia|by exists false]].
  eapply (counts_bind _ _ (fun o a b c => is_Some (ok_value o) /\ a = 0%nat /\ b = this q /\ c = 0%nat)).
  - apply counts_attempt. eapply counts_mono; [apply counts_addTicket|]. intros o a b c H. by split; [eexists|].
  - intros [v|e] a b c (Ho' & -> & -> & ->); [|by destruct Ho']. apply counts_done.
    rewrite Nat.add_0_r. split_and!; [done|done|lia|]. by eexists.
Qed.

Lemma said_error_to q code message :
  said_error (Said (mkEmission (tk_socketId q) [] (S_ERROR_MESSAGE code message)))
  = if bool_decide (tk_socketId q = tk_socketId p) then 1%nat else 0%nat.
Proof. done. Qed.

Lemma counts_fail roomId q :
  counts (failPlayerAndRequeue roomId q) (fun o a b c => o = Ok tt /\ failed q o a b c).
Proof.
  unfold failPlayerAndRequeue. eapply counts_bind; [apply counts_requeue|].
  intros o a b c (-> & -> & Hb & v & -> & Hv). unfold failed, this in *. destruct v.
  - eapply counts_quiet_bind; [apply counts_date_now|]. intros now.
    eapply counts_quiet_bind; [apply counts_attempt_silent; hush|]. intros count.
    apply counts_say. cbn. rewrite Hv by done. split_and!; try done; case_decide; subst; try lia; intros; try done; split; lia.
  - apply counts_say. rewrite said_error_to. cbn. case_bool_decide as Hs; case_decide as Hq; subst; split_and!; try done;
      intros; try done; split; try lia.
Qed.

(** In the room and untouched, or given up on. *)
Lemma counts_add_human roomId q :
  counts (add_human roomId q) (fun o a b c =>
    (o = Ok true /\ nothing o a b c) \/ (o = Ok false /\ failed q o a b c)).
Proof.
  unfold add_human. eapply counts_quiet_bind; [apply counts_attempt_silent; unfold add_to_room; hush|].
  intros [u|e]; [by apply counts_done; left|].
  eapply (counts_bind _ _ (fun o a b c => (o = Ok (Ok true) /\ nothing o a b c)
    \/ (o = Ok (Ok false) /\ failed q o a b c) \/ (exists e, o = Ok (Throw e) /\ nothing o a b c))).
  - apply counts_attempt. eapply (counts_bind _ _ nothing); [apply silent_counts; hush|].
    intros [existing|e2] a b c (-> & -> & ->); [|right; right; by exists e2].
    destruct existing.
    + eapply (counts_bind _ _ nothing); [apply silent_counts; hush|].
      intros [x|e2] a b c (-> & -> & ->); [apply counts_done; by left|right; right; by exists e2].
    + eapply counts_bind; [apply counts_fail|]. intros o a b c [-> Hf]. apply counts_done. right. left.
      rewrite !Nat.add_0_r. by split.
  - intros o a b c [[-> H]|[[-> H]|(e2 & -> & H)]].
    + destruct H as (-> & -> & ->). apply counts_done. by left.
    + apply counts_done. right. rewrite !Nat.add_0_r. by split.
    + destruct H as (-> & -> & ->). eapply counts_bind; [apply counts_fail|]. intros o a b c [-> Hf].
      apply counts_done. right. rewrite !Nat.add_0_r. by split.
Qed.

(** A list of tickets in which [p] is the only one of its socket. *)
Definition apart (l : list MatchmakingTicket) : Prop :=
  NoDup l /\ forall q, q ∈ l -> q <> p -> tk_socketId q <> tk_socketId p.

Lemma apart_cons q l : apart (q :: l) -> apart l /\ (q ∉ l) /\ (q <> p -> tk_socketId q <> tk_socketId p).
Proof.
  intros [[Hq Hd]%NoDup_cons Hs]. split_and!; [split; [done|]|done|].
  - intros x Hx. apply Hs. by right.
  - apply Hs. left.
Qed.

Lemma apart_sublist l l' : l' `sublist_of` l -> apart l -> apart l'.
Proof.
  intros Hl [Hd Hs]. split; [by eapply sublist_NoDup|]. intros q Hq. apply Hs.
  by eapply elem_of_submseteq, sublist_submseteq.
Qed.

Lemma failed_other q {R} (o : outcome exn R) a b c : q <> p -> tk_socketId q <> tk_socketId p -> failed q o a b c -> nothing o a b c.
Proof. intros _ Hs (-> & _ & H). by destruct (H Hs) as [-> ->]. Qed.

(** What has happened to [p] among the failed of a list. *)
Definition gave_up (inside : bool) (a b c : nat) : Prop :=
  a = 0%nat /\ (if inside then (b <= 1)%nat /\ (1 <= b + c)%nat else b = 0%nat /\ c = 0%nat).

Lemma counts_fail_all roomId l :
  apart l ->
  counts (for_each l (failPlayerAndRequeue roomId)) (fun o a b c => o = Ok tt /\ gave_up (bool_decide (p ∈ l)) a b c).
Proof.
  induction l as [|q l IH]; intros Hl; [apply counts_done; rewrite bool_decide_eq_false_2 by apply not_elem_of_nil; done|].
  apply apart_cons in Hl as (Hl & Hq & Hs). cbn [for_each]. eapply counts_bind; [apply counts_fail|].
  intros o a b c [-> Hf]. eapply counts_mono; [by apply IH|]. intros o a' b' c' [-> Hg]. split; [done|].
  destruct (decide (q = p)) as [->|Hne].
  - rewrite bool_decide_eq_true_2 by left. rewrite bool_decide_eq_false_2 in Hg by done.
    destruct Hg as (-> & -> & ->), Hf as (-> & Hf & _). destruct (Hf eq_refl). split; lia.
  - destruct (failed_other _ _ _ _ _ Hne (Hs Hne) Hf) as (-> & -> & ->). cbn.
    erewrite bool_decide_ext; [exact Hg|]. set_solver.
Qed.

Lemma counts_add_humans roomId l :
  apart l ->
  counts (add_humans roomId l) (fun o a b c => exists l', o = Ok l' /\ (l' `sublist_of` l)
    /\ gave_up (bool_decide (p ∈ l /\ (p ∉ l'))) a b c).
Proof.
  induction l as [|q l IH]; intros Hl.
  { apply counts_done. exists []. split_and!; [done|done|]. rewrite bool_decide_eq_false_2 by set_solver. done. }
  apply apart_cons in Hl as (Hl & Hq & Hs). cbn [add_humans]. eapply counts_bind; [apply counts_add_human|].
  intros o a b c Hone.
  assert (exists v, o = Ok v /\ if v : bool then nothing o a b c else failed q o a b c) as (v & -> & Hv).
  { destruct Hone as [[-> H]|[-> H]]; [by exists true|by exists false]. }
  eapply counts_bind; [by apply IH|].
  intros o a' b' c' (l' & -> & Hsub & Hg). apply counts_done. rewrite !Nat.add_0_r.
  exists (if v then q :: l' else l'). split_and!; [done|by destruct v; constructor|].
  assert (Hpl' : p ∈ l' -> p ∈ l) by (intros Hp; eapply elem_of_submseteq; [exact Hp|by apply sublist_submseteq]).
  destruct v.
  - destruct Hv as (-> & -> & ->). cbn. erewrite bool_decide_ext; [exact Hg|].
    split; [|set_solver]. intros [[->|Hp]%elem_of_cons Hn]; set_solver.
  - destruct (decide (q = p)) as [->|Hne].
    + rewrite bool_decide_eq_true_2 by set_solver. rewrite bool_decide_eq_false_2 in Hg by tauto.
      destruct Hg as (-> & -> & ->), Hv as (-> & Hf & _). destruct (Hf eq_refl). split; lia.
    + destruct (failed_other _ _ _ _ _ Hne (Hs Hne) Hv) as (-> & -> & ->). cbn.
      erewrite bool_decide_ext; [exact Hg|]. set_solver.
Qed.

(** The two ways a launch can end for [p]. *)
Definition settled (a b c : nat) : Prop :=
  (a = 1 /\ b = 0 /\ c = 0)%nat \/ (a = 0 /\ b <= 1 /\ 1 <= b + c)%nat.

Lemma counts_for_matched roomId code matchId l :
  apart l ->
  counts (for_each l (fun q => say_to (tk_socketId q) (S_MATCHMAKING_MATCHED roomId code matchId)))
    (fun o a b c => o = Ok tt /\ a = (if bool_decide (p ∈ l) then 1 else 0)%nat /\ b = 0%nat /\ c = 0%nat).
Proof.
  induction l as [|q l IH]; intros Hl; [apply counts_done; rewrite bool_decide_eq_false_2 by apply not_elem_of_nil; done|].
  apply apart_cons in Hl as (Hl & Hq & Hs). cbn [for_each].
  eapply (counts_bind _ _ (fun o a b c => o = Ok tt /\ a = (if bool_decide (tk_socketId q = tk_socketId p) then 1 else 0)%nat
    /\ b = 0%nat /\ c = 0%nat)); [apply counts_say; by cbn|].
  intros o a b c (-> & -> & -> & ->). eapply counts_mono; [by apply IH|]. intros o a' b' c' (-> & -> & -> & ->).
  split_and!; [done| |done|done]. destruct (decide (q = p)) as [->|Hne].
  - rewrite (bool_decide_eq_true_2 (tk_socketId p = _)) by done. rewrite bool_decide_eq_false_2 by done.
    by rewrite bool_decide_eq_true_2 by left.
  - rewrite (bool_decide_eq_false_2 (tk_socketId q = _)) by auto. cbn.
    by rewrite (bool_decide_ext (p ∈ l) (p ∈ q :: l)) by set_solver.
Qed.

Lemma counts_join_sockets roomId l : counts (join_sockets roomId l) quietly.
Proof.
  induction l as [|q l IH]; [apply counts_done; by split; [eexists|]|]. cbn [join_sockets].
  eapply counts_quiet_bind; [apply counts_attempt_silent; hush|]. intros [u|e]; [exact IH|].
  apply counts_done. by split; [eexists|].
Qed.

Lemma counts_fill_bots roomId l : counts (fill_bots roomId l) quietly.
Proof.
  unfold fill_bots. destruct (_ && _); [|apply counts_done; by split; [eexists|]].
  eapply counts_mono; [apply silent_best_effort; unfold best_effort, add_to_room; hush|].
  intros o a b c [-> H]. by split; [eexists|].
Qed.

Lemma counts_put_back roomId l :
  apart l ->
  counts (put_back roomId l) (fun o a b c => o = Ok tt /\ gave_up (bool_decide (p ∈ l)) a b c).
Proof.
  intros Hl. unfold put_back. eapply counts_bind; [by apply counts_fail_all|]. intros o a b c [-> Hg].
  eapply counts_mono; [apply silent_best_effort; unfold updateRoomStatus, syncRoomState, setSnapshot; hush|].
  intros o a' b' c' (-> & -> & -> & ->). by rewrite !Nat.add_0_r.
Qed.

Lemma counts_launch_in room l :
  apart l ->
  counts (launch_in room l) (fun o a b c => o = Ok tt
    /\ if bool_decide (p ∈ l) then settled a b c else nothing o a b c).
Proof.
  intros Hl. unfold launch_in. cbn zeta. eapply counts_quiet_bind; [apply counts_fill_bots|]. intros _.
  eapply counts_quiet_bind; [apply counts_join_sockets|]. intros joined.
  assert (Hgive : counts (put_back (ro_id room) l) (fun o a b c => o = Ok tt
    /\ if bool_decide (p ∈ l) then settled a b c else nothing o a b c)).
  { eapply counts_mono; [by apply counts_put_back|]. intros o a b c [-> [-> Hg]]. split; [done|].
    destruct (bool_decide _); [right; split; [done|lia]|]. by destruct Hg as [-> ->]. }
  destruct (negb joined); [exact Hgive|].
  eapply counts_quiet_bind; [apply counts_attempt_silent; hush|]. intros [[matchId|]|e]; [|exact Hgive|exact Hgive].
  eapply counts_mono; [by apply counts_for_matched|]. intros o a b c (-> & -> & -> & ->). split; [done|].
  destruct (bool_decide _); [by left|done].
Qed.

Lemma counts_requeue_all l :
  apart l ->
  counts (for_each l (fun q => best_effort (addTicket q))) (fun o a b c => o = Ok tt
    /\ a = 0%nat /\ b = (if bool_decide (p ∈ l) then 1 else 0)%nat /\ c = 0%nat).
Proof.
  induction l as [|q l IH]; intros Hl; [apply counts_done; rewrite bool_decide_eq_false_2 by apply not_elem_of_nil; done|].
  apply apart_cons in Hl as (Hl & Hq & Hs). cbn [for_each].
  eapply (counts_bind _ _ (fun o a b c => o = Ok tt /\ a = 0%nat /\ b = this q /\ c = 0%nat)).
  - unfold best_effort. eapply (counts_bind _ _ (fun o a b c => is_Some (ok_value o) /\ a = 0%nat /\ b = this q /\ c = 0%nat)).
    + apply counts_attempt. eapply counts_mono; [apply counts_addTicket|]. intros o a b c H. by split; [eexists|].
    + intros [x|e] a b c (Ho & -> & -> & ->); [|by destruct Ho]. apply counts_done. by rewrite Nat.add_0_r.
  - intros o a b c (-> & -> & -> & ->). eapply counts_mono; [by apply IH|]. intros o a b c (-> & -> & -> & ->).
    split_and!; [done|done| |done]. unfold this. destruct (decide (q = p)) as [->|Hne].
    + rewrite (bool_decide_eq_false_2 (p ∈ l)) by done. by rewrite bool_decide_eq_true_2 by left.
    + by rewrite (bool_decide_ext (p ∈ l) (p ∈ q :: l)) by set_solver.
Qed.

Lemma counts_launch host others :
  apart (host :: others) -> p ∈ host :: others ->
  counts (launch_group host others) (fun o a b c => o = Ok tt /\ settled a b c).
Proof.
  intros Hl Hp. unfold launch_group.
  eapply counts_quiet_bind; [apply counts_attempt_silent; unfold createRoom, create_with_code, setSnapshot, random_words; hush|].
  intros [room|e].
  - unfold best_effort. eapply (counts_bind _ _ (fun o a b c => is_Some (ok_value o) /\ settled a b c)).
    2: { intros [x|e] a b c [Ho Hs]; [|by destruct Ho]. apply counts_done. by rewrite !Nat.add_0_r. }
    apply counts_attempt. pose proof (apart_cons _ _ Hl) as (Hl' & Hh & Hs).
    eapply counts_bind; [by apply counts_add_humans|]. intros o a b c (l' & -> & Hsub & Hg).
    assert (Hpl' : forall q, q ∈ l' -> q ∈ others).
    { intros q Hq. eapply elem_of_submseteq; [exact Hq|by apply sublist_submseteq]. }
    eapply counts_mono; [apply counts_launch_in; eapply apart_sublist; [|exact Hl]; by constructor|].
    intros o a' b' c' [-> Hr]. split; [by eexists|]. revert Hg Hr. unfold gave_up, settled, nothing.
    destruct (decide (p ∈ host :: l')) as [Hin|Hin].
    + rewrite (bool_decide_eq_true_2 (p ∈ host :: l')) by done. rewrite bool_decide_eq_false_2.
      * intros (-> & -> & ->). done.
      * intros [Hp1 Hp2]. apply elem_of_cons in Hin as [->|Hin]; done.
    + rewrite (bool_decide_eq_false_2 (p ∈ host :: l')) by done. rewrite bool_decide_eq_true_2 by set_solver.
      intros (-> & Hb) (-> & -> & ->). rewrite !Nat.add_0_r. right. by destruct Hb.
  - eapply counts_mono; [by apply counts_requeue_all|]. intros o a b c (-> & -> & -> & ->). split; [done|].
    rewrite bool_decide_eq_true_2 by done. right. cbn. lia.
Qed.
End Fate.

(** Whoever was taken from the queue is settled, and only once.  Whatever
    fails while a group is launched -- the creation of the room, the rows of
    players, bots, sockets, the start of the match, Redis -- the launch returns,
    and each player of the group has been told of the match exactly once,
    without being queued again or sent an error; or has not been told of a
    match, and its return to the queue was asked for (once) or an error was
    sent. *)
Theorem launch_settles_everybody (players : list MatchmakingTicket) (p : MatchmakingTicket)
    (Env : Lobby -> Lobby -> Prop) w t o w' :
  NoDup (tk_socketId <$> players) -> p ∈ players -> lb_server w = true ->
  runs Env (launchMatchedGame players) w t o w' ->
  o = Ok tt
  /\ ((matched_count p t = 1 /\ added_count p t = 0 /\ error_count p t = 0)%nat
      \/ (matched_count p t = 0 /\ added_count p t <= 1 /\ 1 <= added_count p t + error_count p t)%nat).
Proof.
  intros Hd Hp Hw Hr. assert (Hap : apart p players).
  { split; [by eapply NoDup_fmap_1|]. intros q Hq Hne Hs. apply Hne.
    apply list_elem_of_lookup in Hq as [i Hi]. apply list_elem_of_lookup in Hp as [j Hj].
    enough (i = j) as -> by congruence.
    eapply NoDup_lookup; [exact Hd|by rewrite list_lookup_fmap, Hi|by rewrite list_lookup_fmap, Hj, Hs]. }
  destruct players as [|host others]; [by apply elem_of_nil in Hp|].
  apply (always_runs Env (launchMatchedGame (host :: others)) w
    (fun o _ t => o = Ok tt /\ settled (matched_count p t) (added_count p t) (error_count p t)) t o w'); [|exact Hr].
  unfold launchMatchedGame, reads, act. cbn [pbind always fst snd]. rewrite Hw. cbn [negb].
  exact (counts_launch p host others Hap Hp Env w).
Qed.

(** ** Nobody waits too long *)

Lemma always_wp {W O Q} (Env : W -> W -> Prop) (Reply : forall X, Q X -> outcome exn X -> Prop)
    {R} (m : Prog W O Q R) w Post :
  always Env m w (fun o w' t => Post o w' (said t)) -> wp Env Reply m w Post.
Proof.
  revert w Post. induction m as [o|X f k IH|x k IH|X q k IH]; intros w Post; cbn; try done.
  - apply IH.
  - apply (IH w (fun o w' l => Post o w' (x :: l))).
  - intros H w1 r Hw _. by apply IH, (H w1 r).
Qed.

(** Programs that return, whatever happens. *)
Definition returns {R} (m : LTask R) : Prop := every_run m (fun o _ => is_Some (ok_value o)).

Lemma returns_pret {R} (r : R) : returns (pret r).
Proof. intros Env w. by eexists. Qed.

Lemma returns_bind {A B} (m : LTask A) (k : A -> LTask B) : returns m -> (forall a, returns (k a)) -> returns (pbind m k).
Proof.
  intros Hm Hk. apply (every_bind m k (fun o _ => is_Some (ok_value o))); [exact Hm|].
  intros [a|e] t Ho; [apply Hk|by destruct Ho].
Qed.

Lemma returns_attempt {A} (m : LTask A) : returns (attempt m).
Proof.
  intros Env w. apply always_attempt. eapply always_mono; [|apply runs_always]. intros o w' t _. by eexists.
Qed.

Lemma returns_for_each {A} (l : list A) (body : A -> LTask unit) : (forall x, returns (body x)) -> returns (for_each l body).
Proof. intros H. induction l as [|x l IH]; [apply returns_pret|]. cbn. by apply returns_bind. Qed.

Lemma returns_say e : returns (say e).
Proof. intros Env w. by eexists. Qed.

Lemma returns_reads {X} (f : Lobby -> X) : returns (reads f).
Proof. intros Env w. by eexists. Qed.

Lemma returns_date_now : returns date_now.
Proof. intros Env w. cbn. by eexists. Qed.

Ltac returning :=
  repeat match goal with
  | |- returns (pbind _ _) => apply returns_bind
  | |- returns (attempt _) => apply returns_attempt
  | |- returns (for_each _ _) => apply returns_for_each
  | |- returns (say _) => apply returns_say
  | |- returns (reads _) => apply returns_reads
  | |- returns date_now => apply returns_date_now
  | |- returns (pret _) => apply returns_pret
  | |- returns (match ?x with _ => _ end) => destruct x
  | |- forall _, _ => intros ?
  end.

Lemma returns_fail roomId q : returns (failPlayerAndRequeue roomId q).
Proof. unfold failPlayerAndRequeue, requeue, say_to. returning. Qed.

Lemma returns_add_humans roomId l : returns (add_humans roomId l).
Proof. induction l; cbn [add_humans]; unfold add_human; returning; first [apply returns_fail|done]. Qed.

Lemma returns_join_sockets roomId l : returns (join_sockets roomId l).
Proof. induction l; cbn [join_sockets]; returning; done. Qed.

Lemma returns_launch players : returns (launchMatchedGame players).
Proof.
  unfold launchMatchedGame, launch_group, best_effort. returning.
Qed.

(** Redis answers, this process leads, and the tickets that are popped are
    there. *)
Definition queue_works (X : Type) (q : LobbyReq X) : outcome exn X -> Prop :=
  match q in LobbyReq X return outcome exn X -> Prop with
  | QRedis c =>
      match c in RedisCmd X return outcome exn X -> Prop with
      | KRenewLease _ _ _ => fun r => r = Ok true
      | KAcquireLease _ _ _ => fun r => r = Ok true
      | KIncr _ => fun r => exists n, r = Ok n
      | KPopTickets ids => fun r => exists ts, r = Ok ((fun t => Blob (DocTicket t)) <$> ts) /\ tk_userId <$> ts = ids
      | _ => fun _ => True
      end
  | _ => fun _ => True
  end.

#[export] Instance longest_first_Comparator : Comparator longest_first := key_Comparator tk_joinedAt.

Section Waiting.
Context (nodeId : jstr) (now : Z) (Env : Lobby -> Lobby -> Prop).

Lemma wp_returns {R} (m : LTask R) w (Post : outcome exn R -> Lobby -> list Emission -> Prop) :
  returns m -> (forall r w' l, Post (Ok r) w' l) -> wp Env queue_works m w Post.
Proof.
  intros Hm HP. apply always_wp. eapply always_mono; [|apply Hm]. cbn.
  intros [r|e] w' t Ho; [apply HP|by destruct Ho].
Qed.

Lemma wp_leads w (Post : outcome exn (option jstr) -> Lobby -> list Emission -> Prop) :
  (forall token w' , Post (Ok (Some token)) w' []) -> wp Env queue_works (acquireOrRenewLeadership nodeId) w Post.
Proof.
  intros HP. cbn. destruct (lb_matchmakingToken w) as [token|]; cbn.
  - intros w1 r _ ->. cbn. apply HP.
  - intros w1 r _ [n ->]. cbn. intros w2 r _ ->. cbn. apply HP.
Qed.

Lemma as_tickets (ts : list MatchmakingTicket) : omap as_ticket ((fun t => Blob (DocTicket t)) <$> ts) = ts.
Proof. induction ts as [|t ts IH]; [done|]. cbn. by rewrite IH. Qed.

Lemma wp_pop ids w (Post : outcome exn (list MatchmakingTicket) -> Lobby -> list Emission -> Prop) :
  ids <> [] -> (forall ts w', tk_userId <$> ts = ids -> Post (Ok ts) w' []) ->
  wp Env queue_works (atomicPopTickets ids) w Post.
Proof.
  intros Hne HP. unfold atomicPopTickets. rewrite bool_decide_eq_false_2 by done. cbn.
  intros w1 r _ (ts & -> & Hts). rewrite as_tickets. by apply HP.
Qed.

Lemma timed_out_earlier a b : tk_joinedAt a <= tk_joinedAt b -> is_timed_out now b = true -> is_timed_out now a = true.
Proof. unfold is_timed_out, seed_wait. intros Hab H. bool_to_prop. apply Z.leb_le. lia. Qed.

Lemma added_all (ts : list MatchmakingTicket) m u :
  u ∈ foldl (fun m p => set_add (tk_userId p) m) m ts <-> u ∈ m \/ u ∈ (tk_userId <$> ts).
Proof.
  revert m. induction ts as [|t ts IH]; intros m; cbn; [set_solver|]. rewrite IH. unfold set_add, set_has.
  case_bool_decide; set_solver.
Qed.

(** A seed that timed out heads its candidates. *)
Lemma seed_heads pre seed rest matched :
  (forall t, t ∈ pre -> is_timed_out now t = true -> tk_userId t ∈ matched) ->
  (forall t, t ∈ pre -> tk_joinedAt t <= tk_joinedAt seed) ->
  is_timed_out now seed = true -> (tk_userId seed ∉ matched) ->
  exists group, candidates now (pre ++ seed :: rest) matched seed = seed :: group.
Proof.
  intros Hpre Hle Ht Hm. unfold candidates. rewrite filter_app.
  assert (filter (fun t => is_candidate now seed matched t) pre = []) as ->.
  { apply elem_of_nil_inv. intros t [Hc Hin]%list_elem_of_filter. revert Hc. unfold is_candidate.
    assert (tk_userId t ∈ matched) by eauto using timed_out_earlier.
    unfold set_has. by rewrite bool_decide_eq_true_2. }
  cbn [app]. rewrite filter_cons_True; [by eexists|]. unfold is_candidate, set_has.
  rewrite bool_decide_eq_false_2, bool_decide_eq_true_2, Ht by done. done.
Qed.

Lemma wp_seeds tickets pre seeds matched w :
  tickets = pre ++ seeds -> StronglySorted (cmp_le longest_first) tickets ->
  (forall t, t ∈ pre -> is_timed_out now t = true -> tk_userId t ∈ matched) ->
  wp Env queue_works (match_seeds nodeId now tickets seeds matched) w (fun o _ _ =>
    exists m, o = Ok m /\ forall t, t ∈ tickets -> is_timed_out now t = true -> tk_userId t ∈ m).
Proof.
  revert pre matched w. induction seeds as [|seed seeds IH]; intros pre matched w Heq Hs Hpre.
  { rewrite app_nil_r in Heq. subst. cbn. eauto. }
  assert (Hnext : tickets = (pre ++ [seed]) ++ seeds) by by rewrite <- app_assoc.
  (* it is enough that the seed, if it timed out, is in the new set *)
  assert (Hgo : forall m w', (forall u, u ∈ matched -> u ∈ m) -> (is_timed_out now seed = true -> tk_userId seed ∈ m) ->
    wp Env queue_works (match_seeds nodeId now tickets seeds m) w' (fun o _ _ =>
      exists m', o = Ok m' /\ forall t, t ∈ tickets -> is_timed_out now t = true -> tk_userId t ∈ m')).
  { intros m w' Hsub Hseed. apply (IH (pre ++ [seed])); [done|done|].
    intros t [Ht|Ht]%elem_of_app; [eauto|]. apply list_elem_of_singleton in Ht as ->. done. }
  cbn [match_seeds]. unfold set_has at 1. case_bool_decide as Hm; [by apply Hgo|].
  assert (Hle : forall t, t ∈ pre -> tk_joinedAt t <= tk_joinedAt seed).
  { intros t [i Hi]%list_elem_of_lookup. subst tickets.
    assert (Hlt := lookup_lt_Some _ _ _ Hi).
    pose proof (StronglySorted_at _ _ i (length pre) t seed Hs Hlt) as Hc. unfold cmp_le, longest_first in Hc.
    rewrite lookup_app_l in Hc by done. rewrite list_lookup_middle in Hc by done. specialize (Hc Hi eq_refl). lia. }
  set (group := candidates now tickets matched seed).
  destruct (should_match now seed group) eqn:Hsm; cbn [negb].
  2: { apply Hgo; [done|]. intros Ht. exfalso.
       destruct (seed_heads pre seed seeds matched Hpre Hle Ht Hm) as [g Hg]. rewrite <- Heq in Hg. fold group in Hg.
       unfold should_match in Hsm. rewrite Ht, Hg in Hsm. apply orb_false_iff in Hsm as [_ Hsm].
       cbn [andb length] in Hsm. unfold MATCHMAKING_CONFIG.MIN_PLAYERS_TO_MATCH in Hsm. bool_to_prop. lia. }
  apply wp_bind, wp_leads. intros token w1. cbn [app].
  assert (Hgroup : selected group <> []).
  { intros He. unfold selected, slice_to in He. destruct group as [|x g] eqn:Eg; [|done].
    unfold should_match in Hsm. cbn in Hsm. by rewrite andb_false_r in Hsm. }
  apply wp_bind, wp_pop; [by intros ?%fmap_nil_inv|]. intros ts w2 Hts. cbn [app].
  destruct (_ <? _) eqn:Hlen.
  { bool_to_prop. exfalso. apply (f_equal length) in Hts. rewrite !length_fmap in Hts.
    destruct (selected group); [done|]. rewrite Hts in Hlen. cbn [length] in Hlen.
    unfold MATCHMAKING_CONFIG.MIN_PLAYERS_TO_MATCH in Hlen. lia. }
  apply wp_bind, wp_returns; [apply returns_launch|]. intros _ w3 l. eapply wp_mono; [|apply Hgo]; [done|..].
  - intros u Hu. apply added_all. by left.
  - intros Ht. apply added_all. right. rewrite Hts.
    destruct (seed_heads pre seed seeds matched Hpre Hle Ht Hm) as [g Hg]. rewrite <- Heq in Hg. fold group in Hg.
    rewrite Hg. by left.
Qed.
End Waiting.

(** Nobody waits longer than MAX_WAIT_TIME_MS and a tick.  When Redis works,
    every pop gets the tickets it asks for and this process keeps the lease, every player whose ticket has waited that
    long when the queue is processed is in the set of matched players when it
    is done -- alone with bots, if there is nobody else: being the longest
    waiting of its category, such a player heads its own group. *)
Theorem nobody_waits_too_long nodeId now tickets Env w t o w' :
  let sorted := js_sort longest_first tickets in
  runs Env (match_seeds nodeId now sorted sorted []) w t o w' -> obliged queue_works t ->
  exists matched, o = Ok matched
    /\ forall ticket, ticket ∈ tickets -> MATCHMAKING_CONFIG.MAX_WAIT_TIME_MS <= now - tk_joinedAt ticket ->
         tk_userId ticket ∈ matched.
Proof.
  intros sorted Hr Ho.
  destruct (wp_runs Env queue_works _ w _ t o w'
    (wp_seeds nodeId now Env sorted [] sorted [] w eq_refl (js_sort_sorted _ tickets) ltac:(by intros ? ?%elem_of_nil)) Hr Ho)
    as (m & -> & Hm).
  exists m. split; [done|]. intros ticket Hin Hwait. apply Hm; [by apply js_sort_elem|].
  unfold is_timed_out, seed_wait. apply Z.leb_le. lia.
Qed.

(** ** What a group is *)

(** The users a pop asked for, and those whose tickets it returned. *)
Definition pop_of (i : LItem) : option (list jstr * list jstr) :=
  match i with
  | Said _ => None
  | Asked q r =>
      match q in LobbyReq X return outcome exn X -> option (list jstr * list jstr) with
      | QRedis c =>
          match c in RedisCmd X return outcome exn X -> option (list jstr * list jstr) with
          | KPopTickets ids => fun r =>
              Some (ids, match r with Ok vals => tk_userId <$> omap as_ticket vals | Throw _ => [] end)
          | _ => fun _ => None
          end
      | _ => fun _ => None
      end r
  end.
Definition pops (t : list LItem) : list (list jstr * list jstr) := omap pop_of t.

Definition no_pop (X : Type) (q : LobbyReq X) : Prop :=
  match q with QRedis (KPopTickets _) => False | _ => True end.

Lemma no_pop_item {X} (q : LobbyReq X) r : no_pop X q -> pop_of (Asked q r) = None.
Proof. destruct q; try done. by destruct c. Qed.

Lemma pops_skip i t : pop_of i = None -> pops (i :: t) = pops t.
Proof. intros Hi. unfold pops. cbn [omap list_omap]. by rewrite Hi. Qed.

Lemma confined_no_pops {R} (m : LTask R) : confined no_pop m -> every_run m (fun _ t => pops t = []).
Proof.
  unfold every_run. intros Hm Env. induction m as [o|X f c IH|x c IH|X q c IH]; intros w; cbn [always confined] in *;
    try done.
  - by apply IH.
  - eapply always_mono; [|by apply IH]. done.
  - intros w1 r _. destruct Hm as [Hq Hm]. eapply always_mono; [|by apply IH]. intros o w' t Ht.
    by rewrite (pops_skip _ _ (no_pop_item q r Hq)).
Qed.

Ltac popless :=
  repeat match goal with
  | |- confined _ (pbind _ _) => apply confined_bind
  | |- confined _ (attempt _) => apply confined_attempt
  | |- confined _ (for_each _ _) => apply confined_for_each
  | |- confined _ (match ?x with _ => _ end) => destruct x
  | |- forall _, _ => intros ?
  | |- confined _ _ => first [done | by split]
  end.

Lemma popless_fail roomId q : confined no_pop (failPlayerAndRequeue roomId q).
Proof. unfold failPlayerAndRequeue, requeue, addTicket, best_effort, say_to. popless. Qed.

Lemma popless_leadership nodeId : confined no_pop (acquireOrRenewLeadership nodeId).
Proof. unfold acquireOrRenewLeadership, become_leader, set_leader. popless. all: cbn zeta; popless. Qed.

Lemma popless_add_humans roomId l : confined no_pop (add_humans roomId l).
Proof.
  induction l; cbn [add_humans]; unfold add_human, add_to_room; popless; first [apply popless_fail|done].
Qed.

Lemma popless_join_sockets roomId l : confined no_pop (join_sockets roomId l).
Proof. induction l; cbn [join_sockets]; popless; done. Qed.

Lemma popless_put_back roomId l : confined no_pop (put_back roomId l).
Proof.
  unfold put_back, best_effort, updateRoomStatus, syncRoomState, setSnapshot. popless. apply popless_fail.
Qed.

Lemma popless_launch players : confined no_pop (launchMatchedGame players).
Proof.
  unfold launchMatchedGame, launch_group, createRoom, create_with_code, setSnapshot, random_words, launch_in, fill_bots,
    best_effort, add_to_room, addTicket, best_effort, say_to. popless.
  all: first [apply popless_add_humans|apply popless_join_sockets|apply popless_put_back].
Qed.

(** A group of one seed: the rules of the category, the window and the size. *)
Definition proper_group (now : Z) (tickets : list MatchmakingTicket) (ids : list jstr) : Prop :=
  exists seed group,
    seed ∈ tickets /\ ids = tk_userId <$> group /\ (group `sublist_of` tickets)
    /\ 1 <= Z.of_nat (length group) <= MATCHMAKING_CONFIG.TARGET_PLAYERS_PER_MATCH
    /\ (forall t, t ∈ group -> category_of t = category_of seed
          /\ (is_timed_out now seed = true \/ Z.abs (tk_elo t - tk_elo seed) <= seed_window now seed))
    /\ (is_timed_out now seed = false ->
        Z.of_nat (length group) = MATCHMAKING_CONFIG.TARGET_PLAYERS_PER_MATCH).

Lemma selected_proper now tickets matched seed :
  seed ∈ tickets -> should_match now seed (candidates now tickets matched seed) = true ->
  let ids := tk_userId <$> selected (candidates now tickets matched seed) in
  proper_group now tickets ids /\ forall u, u ∈ ids -> u ∉ matched.
Proof.
  intros Hseed Hsm ids. set (cands := candidates now tickets matched seed) in *.
  assert (Hcand : forall t, t ∈ cands -> is_candidate now seed matched t = true).
  { intros t [Hc _]%list_elem_of_filter. destruct (is_candidate now seed matched t); [done|by destruct Hc]. }
  assert (Htake : selected cands = take 100 cands) by done.
  assert (Hin : forall t, t ∈ selected cands -> is_candidate now seed matched t = true).
  { intros t Ht. apply Hcand. rewrite Htake in Ht. eapply elem_of_submseteq; [exact Ht|apply sublist_submseteq, sublist_take]. }
  split.
  - exists seed, (selected cands). split_and!; [done|done| | | | |].
    + rewrite Htake. transitivity cands; [apply sublist_take|apply sublist_filter].
    + rewrite Htake, length_take. unfold should_match in Hsm. unfold MATCHMAKING_CONFIG.TARGET_PLAYERS_PER_MATCH,
        MATCHMAKING_CONFIG.MIN_PLAYERS_TO_MATCH in *.
      apply orb_true_iff in Hsm as [Hsm|Hsm]; bool_to_prop; lia.
    + rewrite Htake, length_take. unfold MATCHMAKING_CONFIG.TARGET_PLAYERS_PER_MATCH. lia.
    + intros t Ht%Hin. unfold is_candidate in Ht. apply andb_true_iff in Ht as [Ht Hw]. bool_to_prop. split; [done|].
      apply orb_true_iff in Hw as [Hw|Hw]; [by left|right]. by bool_to_prop.
    + intros Hto. unfold should_match in Hsm. rewrite Hto, andb_false_l, orb_false_r in Hsm. bool_to_prop.
      rewrite Htake, length_take. unfold MATCHMAKING_CONFIG.TARGET_PLAYERS_PER_MATCH in *. lia.
  - intros u (t & -> & Ht%Hin)%list_elem_of_fmap. unfold is_candidate, set_has in Ht.
    apply andb_true_iff in Ht as [Ht _]. by bool_to_prop.
Qed.

Definition group_of (r : list jstr * list jstr) : list jstr := r.1.
Definition taken_by (r : list jstr * list jstr) : list jstr := r.2.

Lemma pops_app t1 t2 : pops (t1 ++ t2) = pops t1 ++ pops t2.
Proof. apply omap_app. Qed.

Lemma popless_bind {A B} (m : LTask A) (k : A -> LTask B) (P : list (list jstr * list jstr) -> Prop) :
  confined no_pop m -> (forall a, every_run (k a) (fun _ t => P (pops t))) -> P [] ->
  every_run (pbind m k) (fun _ t => P (pops t)).
Proof.
  intros Hm Hk HP. apply (every_bind m k (fun _ t => pops t = [])); [by apply confined_no_pops|].
  intros [a|e] t Ht; [|by rewrite Ht]. eapply every_mono; [|apply Hk]. cbn. intros _ t' Ht'.
  by rewrite pops_app, Ht.
Qed.

(** What the pops of one pass are. *)
Definition fair_pops (now : Z) (tickets : list MatchmakingTicket) (matched : list jstr)
    (l : list (list jstr * list jstr)) : Prop :=
  Forall (fun r => proper_group now tickets (group_of r) /\ forall u, u ∈ group_of r -> u ∉ matched) l
  /\ ForallOrdPairs (fun r r' => forall u, u ∈ taken_by r -> u ∉ group_of r') l.

Lemma every_pop ids :
  ids <> [] ->
  every_run (atomicPopTickets ids) (fun o t => exists ts, o = Ok ts /\ pops t = [(ids, tk_userId <$> ts)]).
Proof.
  intros Hne Env w. unfold atomicPopTickets. rewrite bool_decide_eq_false_2 by done. cbn.
  intros w1 [vals|e] _; cbn; by eexists.
Qed.

Lemma fair_match_seeds nodeId now tickets seeds matched :
  (forall t, t ∈ seeds -> t ∈ tickets) ->
  every_run (match_seeds nodeId now tickets seeds matched) (fun _ t => fair_pops now tickets matched (pops t)).
Proof.
  assert (Hnil : forall m, fair_pops now tickets m []) by (intros m; split; constructor).
  revert matched. induction seeds as [|seed seeds IH]; intros matched Hin; [intros Env w; apply Hnil|].
  assert (Hnext : forall m, every_run (match_seeds nodeId now tickets seeds m) (fun _ t => fair_pops now tickets m (pops t))).
  { intros m. apply IH. intros t Ht. apply Hin. by right. }
  cbn [match_seeds]. destruct (set_has _ matched); [apply Hnext|].
  set (group := candidates now tickets matched seed).
  destruct (should_match now seed group) eqn:Hsm; cbn [negb]; [|apply Hnext].
  apply (popless_bind _ _ (fair_pops now tickets matched)); [apply popless_leadership| |done].
  intros [token|]; [|intros Env w; apply Hnil].
  destruct (selected_proper now tickets matched seed (Hin seed (list_elem_of_here _ _)) Hsm) as [Hp Hd].
  fold group in Hp, Hd. set (ids := tk_userId <$> selected group) in *.
  assert (Hids : ids <> []).
  { destruct Hp as (s & g & _ & -> & _ & Hl & _). destruct g; [cbn in Hl; lia|done]. }
  eapply every_bind; [by apply every_pop|].
  intros o t (ts & -> & Ht).
  assert (Hfirst : forall t', fair_pops now tickets (foldl (fun m p => set_add (tk_userId p) m) matched ts) (pops t') ->
    fair_pops now tickets matched (pops (t ++ t'))).
  { intros t' [Hf Ho]. rewrite pops_app, Ht. split; [constructor; [done|]|constructor; [|done]].
    - eapply Forall_impl; [exact Hf|]. intros r [Hr Hm]. split; [done|]. intros u Hu Hu'. apply (Hm u Hu), added_all. by left.
    - eapply Forall_impl; [exact Hf|]. intros r [Hr Hm] u Hu Hu'. apply (Hm u Hu'), added_all. by right. }
  destruct (_ <? _) eqn:Hlen.
  - assert (ts = []) as ->. { bool_to_prop. unfold MATCHMAKING_CONFIG.MIN_PLAYERS_TO_MATCH in Hlen. destruct ts; [done|cbn in Hlen; lia]. }
    eapply every_mono; [|apply Hnext]. intros o t'. apply Hfirst.
  - eapply every_mono; [intros o t'; apply Hfirst|].
    apply (popless_bind _ _ (fair_pops now tickets _)); [apply popless_launch|intros _; apply Hnext|done].
Qed.

(** C22: a group is what the rules allow, and nobody is taken twice.  In every
    run of a pass over the queue -- Redis, the tables and the game loop
    answering or failing as they like -- each group that is popped has one
    category, lies within the window of its seed (which widens with the wait)
    unless the seed timed out, is full unless the seed timed out, never
    exceeds the size of a match, and no player taken by one pop is asked for
    again by a later one. *)
Theorem groups_are_proper nodeId now tickets Env w t o w' :
  let sorted := js_sort longest_first tickets in
  runs Env (match_seeds nodeId now sorted sorted []) w t o w' ->
  Forall (fun r => proper_group now sorted (group_of r)) (pops t)
  /\ ForallOrdPairs (fun r r' => forall u, u ∈ taken_by r -> u ∉ group_of r') (pops t).
Proof.
  intros sorted Hr. pose proof (always_runs Env _ w _ t o w' (fair_match_seeds nodeId now sorted sorted [] (fun _ H => H) Env w) Hr) as [Hf Ho].
  split; [|exact Ho]. eapply Forall_impl; [exact Hf|]. by intros r [Hp _].
Qed.

(** ** A small queue *)

(** The tables, Redis, and a game loop that starts the match; only the users of
    [demo_users] have rows. *)
Definition loop_answers (X : Type) (q : LobbyReq X) (l : Lobby) (e : Tables * LobbyRedis)
    : outcome exn X * (Tables * LobbyRedis) :=
  match q in LobbyReq X return outcome exn X * (Tables * LobbyRedis) with
  | QForceStart _ => (Ok (Some (js "m1")), e)
  | QEnsureBots _ _ => (Ok [], e)
  | QSocketsJoin _ _ => (Ok tt, e)
  | q => lobby_answers _ q l e
  end.

Definition waiting (u : jstr) (elo joinedAt : Z) : MatchmakingTicket :=
  mkTicket u u elo (js "s:" ++ u) None joinedAt.
Definition demo_queue : list MatchmakingTicket :=
  [waiting (js "u2") 1210 500; waiting (js "u1") 1200 0; waiting (js "u9") 1200 700].

(** The worker, with its sockets. *)
Definition demo_worker : Lobby := { demo_lobby with lb_server := true }.

(** [u1] and [u2] get their match; [u9], who has no row, is queued again. *)
Lemma launch_settles_everybody_witness :
  NoDup (tk_socketId <$> demo_queue)
  /\ (drive loop_answers (launchMatchedGame demo_queue) demo_worker (demo_users, no_redis)).1.1.1 = Ok tt
  /\ (fun p => length (filter (fun e => em_to e = tk_socketId p)
        (drive loop_answers (launchMatchedGame demo_queue) demo_worker (demo_users, no_redis)).2))
       <$> demo_queue = [1; 1; 1]%nat.
Proof.
  assert (Hd : NoDup (tk_socketId <$> demo_queue)) by (apply (bool_decide_unpack _); vm_compute; exact I).
  split; [exact Hd|]. split; [|vm_compute; reflexivity].
  destruct (drive loop_answers (launchMatchedGame demo_queue) demo_worker (demo_users, no_redis)) as [[[o w'] e'] l] eqn:E.
  destruct (drive_runs eq loop_answers _ _ _ _ _ _ _ E) as (t & Hr & _). cbn [fst].
  exact (proj1 (launch_settles_everybody demo_queue (waiting (js "u1") 1200 0) eq demo_worker t o w' Hd
    (list_elem_of_further _ _ _ (list_elem_of_here _ _)) eq_refl Hr)).
Defined.

Lemma queue_works_inhabited X (q : LobbyReq X) : exists r, queue_works X q r.
Proof.
  destruct q as [X c|X c| | | | | | | | | ]; try (by exists (Throw (JsError "x"))).
  destruct c; try (by exists (Throw (JsError "x"))); try (by exists (Ok true)).
  - exists (Ok 0). by exists 0.
  - exists (Ok ((fun t => Blob (DocTicket t)) <$> ((fun u => waiting u 0 0) <$> userIds))).
    exists ((fun u => waiting u 0 0) <$> userIds). split; [done|]. rewrite <- list_fmap_compose. apply list_fmap_id.
Qed.

(** [u1] has waited for 61 s. *)
Lemma nobody_waits_too_long_witness :
  exists t o w' matched,
    runs eq (match_seeds (js "A") 61000 (js_sort longest_first demo_queue) (js_sort longest_first demo_queue) [])
      demo_worker t o w'
    /\ o = Ok matched /\ js "u1" ∈ matched.
Proof.
  destruct (wp_inhabited eq queue_works
    (match_seeds (js "A") 61000 (js_sort longest_first demo_queue) (js_sort longest_first demo_queue) []) demo_worker
    (fun w => eq_refl) queue_works_inhabited) as (t & o & w' & Hr & Ho).
  destruct (nobody_waits_too_long (js "A") 61000 demo_queue eq demo_worker t o w' Hr Ho) as (matched & -> & Hm).
  exists t, (Ok matched), w', matched. split; [exact Hr|]. split; [reflexivity|].
  apply (Hm (waiting (js "u1") 1200 0)); [apply list_elem_of_further, list_elem_of_here|].
  apply Z.leb_le. vm_compute. reflexivity.
Defined.

(** A queue in Redis, seen through its tickets. *)
Definition demo_tickets : LobbyRedis :=
  foldl (fun s t => (exec_redis (KAddTicket t 300) s).2) no_redis demo_queue.

(** The longest waiting player timed out and takes the others along. *)
Lemma groups_are_proper_witness :
  let sorted := js_sort longest_first demo_queue in
  let t := traced loop_answers (match_seeds (js "A") 61000 sorted sorted []) demo_worker (demo_users, demo_tickets) in
  group_of <$> pops t = [[js "u1"; js "u2"; js "u9"]]
  /\ Forall (fun r => proper_group 61000 sorted (group_of r)) (pops t).
Proof.
  intros sorted t. split; [vm_compute; reflexivity|].
  exact (proj1 (groups_are_proper (js "A") 61000 demo_queue eq demo_worker t _ _
    (traced_runs loop_answers eq (match_seeds (js "A") 61000 sorted sorted []) demo_worker (demo_users, demo_tickets)))).
Defined.
