(* ===== verification/LobbyCountdown.v ===== *)
(** * [lobby-countdown.service.ts] and [game-loop.countdown-store.ts]

    The countdown of a public room before its match: armed in memory, kept in
    Redis so that another start of the process can recover it, retried when
    Redis cannot be cleared, abandoned after the last retry. *)

From stdpp Require Import gmap.
From S2P Require Import Prelude JsData Effects Shared Decimal Redis Lease Events Async LobbyStore Lobby Rooms.
#[local] Open Scope Z_scope.
#[local] Open Scope prog_scope.

(** ** The countdown store *)

Definition COUNTDOWN_REDIS_TTL_SEC : Z := (GAME_CONFIG.COUNTDOWN_DURATION_MS * 10 + 999) / 1000.

Definition persistLobbyCountdown (roomId : jstr) (countdownEndsAt : Z) : LTask unit :=
  redis (KPersistCountdown roomId countdownEndsAt COUNTDOWN_REDIS_TTL_SEC).

(** [/^\d+$/] and [parseInt]; the texts written there are times, far below the
    numbers that a double would round. *)
Definition countdown_value (raw : jstr) : option Z :=
  if negb (bool_decide (raw = [])) && all_digits raw
  then Some (foldl (fun n c => 10 * n + (c - 48)) 0 raw) else None.

(** [None] is [{ kind: "missing" }]. *)
Definition readPersistedCountdownEnd (roomId : jstr) : LTask (option Z) :=
  raw <- redis (KGet (countdownKey roomId)) ;;
  pret (match raw with Some (Text t) => countdown_value t | _ => None end).

Definition listPersistedCountdownRoomIds : LTask (list jstr) := redis (KSmembers COUNTDOWN_INDEX_KEY).
Definition removeStaleCountdownIndexEntry (roomId : jstr) : LTask unit :=
  redis (KSrem COUNTDOWN_INDEX_KEY [roomId]).

(** Whether the entry was cleared. *)
Definition clearPersistedCountdown (roomId : jstr) : LTask bool :=
  cleared <- attempt (redis (KClearCountdown roomId)) ;;
  pret (match cleared with Ok _ => true | Throw _ => false end).

(** ** The countdown in memory *)

Definition countdown_of (roomId : jstr) : LTask (option LobbyCountdownEntry) :=
  reads (fun l => lb_countdowns l !! roomId).
Definition set_countdown (roomId : jstr) (entry : LobbyCountdownEntry) : LTask unit :=
  writes (fun l => { l with lb_countdowns ::= <[roomId := entry]> }).

(** Without its Redis entry: the timer and the entry in memory go. *)
Definition drop_countdown (roomId : jstr) (timer : option nat) : LTask unit :=
  writes (fun l => { clear_timeout timer l with lb_countdowns ::= delete roomId }).

Definition clearLobbyCountdown (roomId : jstr) (timer : option nat) : LTask unit :=
  drop_countdown roomId timer ;; clearPersistedCountdown roomId ;; pret tt.

Definition clearLobbyCountdownBestEffort (roomId : jstr) : LTask unit :=
  entry <- countdown_of roomId ;;
  drop_countdown roomId (entry ≫= ce_timer) ;;
  start_job (JClearCountdown roomId).

Definition clearCountdown (roomId : jstr) : LTask unit :=
  countdown <- countdown_of roomId ;;
  match countdown with Some e => clearLobbyCountdown roomId (ce_timer e) | None => pret tt end.

(** [server]: whether the call gives one. *)
Definition armLobbyCountdownTimer (roomId : jstr) (countdownEndsAt : Z) (server : bool) : LTask unit :=
  own <- reads lb_server ;;
  if negb (server || own) then clearLobbyCountdownBestEffort roomId
  else
    now <- date_now ;;
    timer <- set_timeout (TLaunch roomId) (Z.max (countdownEndsAt - now) 0) ;;
    set_countdown roomId (mkCountdownEntry (Some timer) countdownEndsAt).

Definition getCountdownEnd (roomId : jstr) : LTask (option Z) :=
  inMemory <- countdown_of roomId ;;
  match inMemory with
  | Some e => pret (Some (ce_countdownEndsAt e))
  | None =>
      result <- attempt (readPersistedCountdownEnd roomId) ;;
      pret (match result with Ok v => v | Throw _ => None end)
  end.

(** ** Starting a countdown *)

(** The persisted entry could not be written: back to WAITING, best effort. *)
Definition roll_back_countdown (roomId : jstr) : LTask unit :=
  clearLobbyCountdownBestEffort roomId ;;
  best_effort (
    updateRoomStatus roomId RWAITING None None ;;
    updatedAt <- date_now ;;
    say (emitRoomStatusUpdated roomId RWAITING None updatedAt)).

Definition run_countdown (roomId : jstr) (startedAt countdownEndsAt : Z) : LTask unit :=
  updateRoomStatus roomId RCOUNTDOWN None None ;;
  say (emitRoomStatusUpdated roomId RCOUNTDOWN None startedAt) ;;
  say (to_room roomId (S_ROOM_COUNTDOWN_STARTED roomId countdownEndsAt GAME_CONFIG.COUNTDOWN_DURATION_MS
                         startedAt)) ;;
  armLobbyCountdownTimer roomId countdownEndsAt true ;;
  persisted <- attempt (persistLobbyCountdown roomId countdownEndsAt) ;;
  match persisted with
  | Ok _ => pret tt
  | Throw persistError => roll_back_countdown roomId ;; raise persistError
  end.

Definition maybeStartPublicCountdown (roomId : jstr) : LTask (option LobbyCountdownEntry) :=
  view <- getRoom roomId ;;
  if negb (bool_decide (ro_type (rv_room view) = PUBLIC)) then pret None
  else if negb (bool_decide (ro_status (rv_room view) = RWAITING)) then pret None
  else if Z.of_nat (length (rv_players view)) <? GAME_CONFIG.MIN_PLAYERS_TO_START then pret None
  else
    countdown <- countdown_of roomId ;;
    match countdown with
    | Some e => pret (Some e)
    | None =>
        startedAt <- date_now ;;
        let countdownEndsAt := startedAt + GAME_CONFIG.COUNTDOWN_DURATION_MS in
        set_countdown roomId (mkCountdownEntry None countdownEndsAt) ;;
        started <- attempt (run_countdown roomId startedAt countdownEndsAt) ;;
        match started with
        | Ok _ => pret (Some (mkCountdownEntry None countdownEndsAt))
        | Throw error => clearLobbyCountdownBestEffort roomId ;; raise error
        end
    end.

Definition handleRoomPlayerLeft (roomId : jstr) (leavingPlayerIds : list jstr) : LTask unit :=
  countdown <- countdown_of roomId ;;
  match countdown with
  | None => pret tt
  | Some countdown =>
      view <- getRoom roomId ;;
      let remaining := filter (fun u => u ∉ leavingPlayerIds) (rv_players view) in
      if negb (bool_decide (ro_status (rv_room view) = RCOUNTDOWN))
         || (GAME_CONFIG.MIN_PLAYERS_TO_START <=? Z.of_nat (length remaining))
      then pret tt
      else
        clearLobbyCountdown roomId (ce_timer countdown) ;;
        updateRoomStatus roomId RWAITING None None ;;
        updatedAt <- date_now ;;
        for_each (emitWaitingRoomState roomId (js "PLAYER_LEFT") RWAITING updatedAt) say
  end.

(** ** Recovery *)

Definition DEAD_LETTER_KEY : jstr := js "room:recovery:dead-letter".
Definition deadLetterKey (roomId : jstr) : jstr := js "room:recovery:dead-letter:" ++ roomId.
Definition DEAD_LETTER_TTL_SEC : Z := 604800.
Definition MAX_RETRIES : Z := 5.

Definition retry_delay (nextRetry : Z) : Z := Z.min (1000 * 2 ^ (nextRetry - 1)) 8000.

Definition scheduleRecoveryRetry (entry : PendingRecoveryEntry) : LTask unit :=
  active <- reads (fun l => bool_decide (pe_roomId entry ∈ lb_activeRetries l)) ;;
  if active : bool then pret tt
  else if MAX_RETRIES <=? pe_retryCount entry then
    start_job (JDeadLetter (pe_roomId entry)) ;; start_job (JRollback (pe_roomId entry))
  else
    let nextRetry := pe_retryCount entry + 1 in
    writes (fun l => { l with lb_activeRetries ::= union {[ pe_roomId entry ]} }) ;;
    set_timeout (TRetry entry nextRetry) (retry_delay nextRetry) ;; pret tt.

(** One entry of the buffer; an expired one is cleared and launched by a call
    that is not waited for. *)
Definition drain_entry (entry : PendingRecoveryEntry) : LTask unit :=
  if pe_expired entry then start_job (JRecoverExpired entry)
  else armLobbyCountdownTimer (pe_roomId entry) (pe_countdownEndsAt entry) false.

Definition drainPendingRecovery : LTask unit :=
  buffered <- act (fun l => (lb_pendingRecovery l, { l with lb_pendingRecovery := [] })) ;;
  for_each buffered drain_entry.

Definition setServer : LTask unit :=
  writes (fun l => { l with lb_server := true }) ;; drainPendingRecovery.

Definition buffer_recovery (entry : PendingRecoveryEntry) : LTask unit :=
  writes (fun l => { l with lb_pendingRecovery ::= fun b => b ++ [entry] }).

(** One room of the boot-time scan. *)
Definition recover_room (now : Z) (roomId : jstr) : LTask unit :=
  result <- readPersistedCountdownEnd roomId ;;
  match result with
  | None => removeStaleCountdownIndexEntry roomId
  | Some countdownEndsAt =>
      server <- reads lb_server ;;
      if bool_decide (Z.max (countdownEndsAt - now) 0 = 0) then
        if server : bool then
          cleared <- clearPersistedCountdown roomId ;;
          if cleared : bool then start_job (JLaunch roomId)
          else scheduleRecoveryRetry (mkPendingEntry roomId countdownEndsAt true 0)
        else buffer_recovery (mkPendingEntry roomId countdownEndsAt true 0)
      else if server : bool then armLobbyCountdownTimer roomId countdownEndsAt true
      else buffer_recovery (mkPendingEntry roomId countdownEndsAt false 0)
  end.

(** [testing]: [NODE_ENV] is "test". *)
Definition onModuleInit (testing : bool) : LTask unit :=
  (if testing then pret tt else start_job JSweepDeadLetters) ;;
  idle <- act (fun l => if lb_recoveryInFlight l then (false, l) else (true, { l with lb_recoveryInFlight := true })) ;;
  if idle : bool then
    finally
      (best_effort (
         roomIds <- listPersistedCountdownRoomIds ;;
         if bool_decide (roomIds = []) then pret tt
         else
           now <- date_now ;;
           for_each roomIds (fun roomId => best_effort (recover_room now roomId))))
      (fun l => { l with lb_recoveryInFlight := false })
  else pret tt.

(** ** Timers and calls that are not waited for *)

Definition timer_callback (t : LobbyTimer) : LTask unit :=
  match t with
  | TLaunch roomId => start_job (JLaunch roomId)
  | TRetry entry nextRetry =>
      writes (fun l => { l with lb_activeRetries ::= fun s => s ∖ {[ pe_roomId entry ]} }) ;;
      buffer_recovery (mkPendingEntry (pe_roomId entry) (pe_countdownEndsAt entry) (pe_expired entry) nextRetry) ;;
      drainPendingRecovery
  end.

Definition sweepDeadLetterRooms : LTask unit :=
  best_effort (
    roomIds <- redis (KSmembers DEAD_LETTER_KEY) ;;
    for_each roomIds (fun roomId =>
      exists_ <- redis (KExists (deadLetterKey roomId)) ;;
      if exists_ : bool then pret tt else redis (KSrem DEAD_LETTER_KEY [roomId]))).

(** The end of a recovery that was given up. *)
Definition roll_back_abandoned (roomId : jstr) : LTask unit :=
  best_effort (
    room <- updateRoomStatus roomId RWAITING (Some None) (Some (Some RCOUNTDOWN, Some None)) ;;
    server <- reads lb_server ;;
    (match room with
     | Some _ =>
         if server : bool then
           updatedAt <- date_now ;; say (emitRoomStatusUpdated roomId RWAITING None updatedAt)
         else pret tt
     | None => pret tt
     end) ;;
    start_job (JClearCountdown roomId)).

Definition recover_expired (entry : PendingRecoveryEntry) : LTask unit :=
  best_effort (
    cleared <- clearPersistedCountdown (pe_roomId entry) ;;
    if cleared : bool then await (QLaunch (pe_roomId entry)) else scheduleRecoveryRetry entry).

(** [disconnect]: what presence does for a player of a match. *)
Definition job_program (disconnect : jstr -> jstr -> LTask unit) (j : LobbyJob) : LTask unit :=
  match j with
  | JLaunch roomId => best_effort (await (QLaunch roomId))
  | JRecoverExpired entry => recover_expired entry
  | JClearCountdown roomId => clearPersistedCountdown roomId ;; pret tt
  | JDeadLetter roomId =>
      best_effort (redis (KSadd DEAD_LETTER_KEY [roomId]) ;;
                   redis (KSet (deadLetterKey roomId) (Text (js "1")) DEAD_LETTER_TTL_SEC))
  | JRollback roomId => roll_back_abandoned roomId
  | JSweepDeadLetters => sweepDeadLetterRooms
  | JDisconnect _ matchId userId => disconnect matchId userId
  end.
