(* ===== verification/CountdownRules.v ===== *)
(** * What the lobby countdown guarantees

    The timers and calls that a recovery leaves behind come to rest; a countdown
    that is started is there in memory, in Redis and on the screens; of one
    that could not be started nothing is left in memory, and its removal from
    Redis has been started. *)

From stdpp Require Import gmap.
From S2P Require Import Prelude JsData Effects Shared Decimal Redis Lease Events Async LobbyStore.
From S2P Require Import LobbyTables Lobby Rooms RoomRules LobbyCountdown.
#[local] Open Scope Z_scope.
#[local] Open Scope prog_scope.

Abbreviation LItem := (Item Emission LobbyReq).

(** ** The work that is left *)

(** How many attempts a recovery has left, counted so that every step of it
    lowers the number. *)
Definition retries_left (retryCount : Z) : nat := Z.to_nat (MAX_RETRIES - retryCount).

Definition job_weight (j : LobbyJob) : nat :=
  match j with
  | JRecoverExpired entry => 2 * retries_left (pe_retryCount entry) + 4
  | JRollback _ => 2
  | _ => 1
  end.
Definition timer_weight (t : LobbyTimer) : nat :=
  match t with
  | TLaunch _ => 2
  | TRetry entry nextRetry => 2 * retries_left nextRetry + 5
  end.
Definition pending_weight (entry : PendingRecoveryEntry) : nat :=
  if pe_expired entry then job_weight (JRecoverExpired entry) else 2.

Definition timers_work (m : gmap nat (LobbyTimer * Z)) : nat :=
  sum_list_with (fun kt => timer_weight kt.2.1) (map_to_list m).

Definition work (l : Lobby) : nat :=
  sum_list_with job_weight (lb_jobs l) + timers_work (lb_timers l)
  + sum_list_with pending_weight (lb_pendingRecovery l).

Lemma timers_work_insert_fresh m h t : m !! h = None -> timers_work (<[h := t]> m) = (timer_weight t.1 + timers_work m)%nat.
Proof. intros Hh. unfold timers_work. by rewrite map_to_list_insert by done. Qed.

Lemma timers_work_delete m h t : m !! h = Some t -> timers_work m = (timer_weight t.1 + timers_work (delete h m))%nat.
Proof.
  intros Hh. rewrite <- (insert_delete_id m h t Hh) at 1. apply timers_work_insert_fresh, lookup_delete_eq.
Qed.

Lemma timers_work_delete_le m h : (timers_work (delete h m) <= timers_work m)%nat.
Proof.
  destruct (m !! h) as [t|] eqn:Hh; [|by rewrite delete_id]. rewrite (timers_work_delete m h t Hh). lia.
Qed.

Lemma timers_work_insert m h t : (timers_work (<[h := t]> m) <= timer_weight t.1 + timers_work m)%nat.
Proof.
  rewrite <- insert_delete_eq. rewrite timers_work_insert_fresh by apply lookup_delete_eq.
  pose proof (timers_work_delete_le m h). lia.
Qed.

(** ** What a program adds to it *)

Section Spending.
(** What runs meanwhile adds no work of its own. *)
Context (Env : Lobby -> Lobby -> Prop) (Henv : forall l l', Env l l' -> (work l' <= work l)%nat).

Definition spends {R} (p : LTask R) (b : nat) : Prop :=
  forall l, always Env p l (fun _ l' _ => (work l' <= work l + b)%nat).

Lemma spends_mono {R} (p : LTask R) b b' : (b <= b')%nat -> spends p b -> spends p b'.
Proof. intros Hb H l. eapply always_mono; [|apply H]. cbn. intros. lia. Qed.

Lemma spends_done {R} (o : outcome exn R) : spends (Done o) 0.
Proof. intros l. cbn. lia. Qed.

Lemma spends_bind {A B} (p : LTask A) (k : A -> LTask B) b1 b2 b :
  spends p b1 -> (forall a, spends (k a) b2) -> (b1 + b2 <= b)%nat -> spends (pbind p k) b.
Proof.
  intros Hp Hk Hb l. apply always_bind. eapply always_mono; [|apply Hp]. intros [a|e] l1 t H1; cbn; [|lia].
  eapply always_mono; [|apply Hk]. cbn. intros. lia.
Qed.

Lemma spends_attempt {A} (p : LTask A) b : spends p b -> spends (attempt p) b.
Proof. intros H l. apply always_attempt. apply H. Qed.

Lemma spends_await {X} (q : LobbyReq X) : spends (await q) 0.
Proof. intros l w1 r H%Henv. cbn. lia. Qed.

Lemma spends_say e : spends (say e) 0.
Proof. intros l. cbn. lia. Qed.

Lemma spends_reads {X} (f : Lobby -> X) : spends (reads f) 0.
Proof. intros l. cbn. lia. Qed.

Lemma spends_writes (f : Lobby -> Lobby) b : (forall l, (work (f l) <= work l + b)%nat) -> spends (writes f) b.
Proof. intros H l. cbn. apply H. Qed.

Lemma spends_date_now : spends date_now 0.
Proof. intros l. cbn. destruct (clock_tick (lb_clock l)) as [t c]. cbn. unfold work. cbn. lia. Qed.

Lemma spends_start_job j : spends (start_job j) (job_weight j).
Proof.
  apply spends_writes. intros l. unfold work. cbn. rewrite sum_list_with_app. cbn. lia.
Qed.

Lemma spends_set_timeout t d : spends (set_timeout t d) (timer_weight t).
Proof.
  intros l. cbn. unfold work. cbn. pose proof (timers_work_insert (lb_timers l) (lb_refs l) (t, d)). cbn in *. lia.
Qed.

Lemma spends_best_effort {A} (p : LTask A) b : spends p b -> spends (best_effort p) b.
Proof. intros H. eapply spends_bind; [by apply spends_attempt|intros; apply spends_done|lia]. Qed.

Lemma spends_for_each {A} (l : list A) (body : A -> LTask unit) w :
  (forall x, spends (body x) (w x)) -> spends (for_each l body) (sum_list_with w l).
Proof.
  intros H. induction l as [|x l IH]; [apply spends_done|]. cbn. eapply spends_bind; [apply H|intros _; apply IH|lia].
Qed.

(** Programs that start nothing. *)
Ltac spend_nothing :=
  repeat match goal with
  | |- spends (pbind _ _) 0 => eapply (spends_bind _ _ 0 0); [|intros ?|lia]
  | |- spends (attempt _) _ => apply spends_attempt
  | |- spends (await _) _ => apply spends_await
  | |- spends (say _) _ => apply spends_say
  | |- spends (reads _) _ => apply spends_reads
  | |- spends date_now _ => apply spends_date_now
  | |- spends (Done _) _ => apply spends_done
  | |- spends (pret _) _ => apply spends_done
  | |- spends (match ?x with _ => _ end) _ => destruct x
  end.

Lemma spends_drop roomId h : spends (drop_countdown roomId h) 0.
Proof.
  apply spends_writes. intros l. unfold work, clear_timeout. destruct h as [h|]; cbn; [|lia].
  pose proof (timers_work_delete_le (lb_timers l) h). lia.
Qed.

Lemma spends_clear_best_effort roomId : spends (clearLobbyCountdownBestEffort roomId) 1.
Proof.
  unfold clearLobbyCountdownBestEffort. eapply (spends_bind _ _ 0 1); [apply spends_reads| |lia]. intros entry.
  eapply (spends_bind _ _ 0 1); [apply spends_drop| |lia]. intros _. apply (spends_start_job (JClearCountdown roomId)).
Qed.

Lemma spends_arm roomId end_ server : spends (armLobbyCountdownTimer roomId end_ server) 2.
Proof.
  unfold armLobbyCountdownTimer. eapply (spends_bind _ _ 0 2); [apply spends_reads| |lia]. intros own.
  destruct (negb _); [eapply spends_mono; [|apply spends_clear_best_effort]; lia|].
  eapply (spends_bind _ _ 0 2); [apply spends_date_now| |lia]. intros now.
  eapply (spends_bind _ _ 2 0); [apply (spends_set_timeout (TLaunch roomId))| |lia]. intros h.
  apply spends_writes. intros l. unfold work. cbn. lia.
Qed.

Lemma spends_drain_entry entry : spends (drain_entry entry) (pending_weight entry).
Proof.
  unfold drain_entry, pending_weight. destruct (pe_expired entry); [apply spends_start_job|apply spends_arm].
Qed.

Lemma spends_drain : spends drainPendingRecovery 0.
Proof.
  intros l. unfold drainPendingRecovery, act. cbn [pbind always fst snd pret].
  eapply always_mono; [|apply (spends_for_each (lb_pendingRecovery l) drain_entry pending_weight spends_drain_entry)].
  cbn. intros _ l' _. unfold work. cbn. lia.
Qed.

(** A retry costs less than what failed. *)
Lemma spends_schedule entry : spends (scheduleRecoveryRetry entry) (2 * retries_left (pe_retryCount entry) + 3).
Proof.
  unfold scheduleRecoveryRetry. eapply (spends_bind _ _ 0 (2 * retries_left (pe_retryCount entry) + 3)); [apply spends_reads| |reflexivity]. intros active.
  destruct active; [eapply spends_mono; [|apply spends_done]; lia|]. destruct (_ <=? _) eqn:Hm.
  - eapply (spends_bind _ _ 1 2); [apply (spends_start_job (JDeadLetter _))| |lia]. intros _.
    apply (spends_start_job (JRollback _)).
  - bool_to_prop. eapply (spends_bind _ _ 0 (2 * retries_left (pe_retryCount entry) + 3)); [apply spends_writes; intros l; unfold work; cbn; lia| |reflexivity]. intros _.
    eapply (spends_bind _ _ _ 0); [apply spends_set_timeout|intros; apply spends_done|].
    cbn [timer_weight]. unfold retries_left, MAX_RETRIES in *. lia.
Qed.

Lemma spends_clear_persisted roomId : spends (clearPersistedCountdown roomId) 0.
Proof. unfold clearPersistedCountdown, redis. spend_nothing. Qed.

Context (disconnect : jstr -> jstr -> LTask unit) (Hdis : forall m u, spends (disconnect m u) 0).

(** A call leaves less work than it was. *)
Lemma spends_job j : spends (job_program disconnect j) (job_weight j - 1).
Proof.
  destruct j as [roomId|entry|roomId|roomId|roomId| |promise matchId userId]; cbn [job_program job_weight Nat.sub].
  - apply spends_best_effort, spends_await.
  - apply spends_best_effort. eapply (spends_bind _ _ 0 (2 * retries_left (pe_retryCount entry) + 3)); [apply spends_clear_persisted| |lia].
    intros [|]; [eapply spends_mono; [|apply spends_await]; lia|]. eapply spends_mono; [|apply spends_schedule]. lia.
  - spend_nothing. apply spends_clear_persisted.
  - apply spends_best_effort. unfold redis. spend_nothing.
  - apply spends_best_effort. eapply (spends_bind _ _ 0 1);
      [unfold updateRoomStatus, syncRoomState, setSnapshot, sql, redis; spend_nothing| |lia]. intros room.
    eapply (spends_bind _ _ 0 1); [apply spends_reads| |lia]. intros server.
    eapply (spends_bind _ _ 0 1); [spend_nothing| |lia]. intros _. apply (spends_start_job (JClearCountdown roomId)).
  - apply spends_best_effort. unfold redis. eapply (spends_bind _ _ 0 0); [apply spends_await| |lia]. intros roomIds.
    eapply spends_mono; [|apply (spends_for_each roomIds _ (fun _ => O)); intros x; spend_nothing].
    clear. induction roomIds; cbn; lia.
  - apply Hdis.
Qed.

Lemma spends_timer t : spends (timer_callback t) (timer_weight t - 1).
Proof.
  destruct t as [roomId|entry n]; cbn [timer_callback timer_weight].
  - apply (spends_start_job (JLaunch roomId)).
  - eapply (spends_bind _ _ 0 (2 * retries_left n + 4)); [apply spends_writes; intros l; unfold work; cbn; lia| |lia].
    intros _. eapply (spends_bind _ _ (2 * retries_left n + 4) 0); [|intros _; apply spends_drain|lia].
    apply spends_writes. intros l. unfold work. cbn. rewrite sum_list_with_app. cbn. unfold pending_weight. cbn.
    destruct (pe_expired entry); lia.
Qed.

(** ** The steps of the service *)

(** One of the calls that are not waited for is made, or a timer fires; each
    runs with whatever else happens meanwhile. *)
Inductive service_step : Lobby -> Lobby -> Prop :=
| job_runs l js1 j js2 t o l' :
    lb_jobs l = js1 ++ j :: js2 ->
    runs Env (job_program disconnect j) { l with lb_jobs := js1 ++ js2 } t o l' -> service_step l l'
| timer_fires l h tm d t o l' :
    lb_timers l !! h = Some (tm, d) ->
    runs Env (timer_callback tm) { l with lb_timers ::= delete h } t o l' -> service_step l l'.

Lemma service_step_work l l' : service_step l l' -> (work l' < work l)%nat.
Proof.
  intros [l0 js1 j js2 t o l1 Hj Hr|l0 h tm d t o l1 Hh Hr].
  - pose proof (always_runs _ _ _ _ _ _ _ (spends_job j _) Hr) as Hw. cbn beta in Hw. unfold work in *.
    cbn in Hw. rewrite Hj, !sum_list_with_app in *. cbn in *. assert (1 <= job_weight j)%nat by (destruct j; cbn; lia). lia.
  - pose proof (always_runs _ _ _ _ _ _ _ (spends_timer tm _) Hr) as Hw. cbn beta in Hw. unfold work in *.
    cbn in Hw. rewrite (timers_work_delete _ _ _ Hh) in *. cbn in *.
    assert (1 <= timer_weight tm)%nat by (destruct tm; cbn; lia). lia.
Qed.
End Spending.

(** C15: recovery comes to rest.  Whatever Redis, the tables and the game loop
    answer, the calls and timers that lobby countdowns have left -- launches,
    recoveries that are retried, dead letters, rollbacks -- run out: with no
    new work from outside, at most [work l] of them ever run, a recovery being
    retried at most MAX_RETRIES times. *)
Theorem recovery_comes_to_rest (Env : Lobby -> Lobby -> Prop) (disconnect : jstr -> jstr -> LTask unit)
    (n : nat) (l l' : Lobby) :
  (forall l l', Env l l' -> (work l' <= work l)%nat) ->
  (forall m u, spends Env (disconnect m u) 0) ->
  nsteps (service_step Env disconnect) n l l' -> (n + work l' <= work l)%nat.
Proof.
  intros Henv Hdis Hn. induction Hn as [l|n l l1 l' Hs _ IH]; [lia|].
  pose proof (service_step_work Env Henv disconnect Hdis l l1 Hs). lia.
Qed.

(** ** Starting a countdown *)

(** The updates of the status that a run asked for, and whether each was
    answered; the writes of the countdown to Redis. *)
Definition status_of (roomId : jstr) (i : LItem) : option (RoomStatus * bool) :=
  match i with
  | Said _ => None
  | Asked q r =>
      match q in LobbyReq X return outcome exn X -> option (RoomStatus * bool) with
      | QDb c =>
          match c in DbCmd X return outcome exn X -> option (RoomStatus * bool) with
          | DRoomUpdate id status _ => fun r =>
              if decide (id = roomId) then Some (status, match r with Ok _ => true | Throw _ => false end) else None
          | _ => fun _ => None
          end
      | _ => fun _ => None
      end r
  end.
Definition statuses (roomId : jstr) (t : list LItem) : list (RoomStatus * bool) := omap (status_of roomId) t.

Definition persist_of (roomId : jstr) (i : LItem) : option bool :=
  match i with
  | Said _ => None
  | Asked q r =>
      match q in LobbyReq X return outcome exn X -> option bool with
      | QRedis c =>
          match c in RedisCmd X return outcome exn X -> option bool with
          | KPersistCountdown id _ _ => fun r =>
              if decide (id = roomId) then Some (match r with Ok _ => true | Throw _ => false end) else None
          | _ => fun _ => None
          end
      | _ => fun _ => None
      end r
  end.
Definition persists (roomId : jstr) (t : list LItem) : list bool := omap (persist_of roomId) t.

Section Starting.
Context (roomId : jstr).

(** Nobody else starts, clears or launches a countdown of the room. *)
Definition left_alone (l l' : Lobby) : Prop :=
  lb_countdowns l' !! roomId = lb_countdowns l !! roomId
  /\ forall h d, lb_timers l' !! h = Some (TLaunch roomId, d) <-> lb_timers l !! h = Some (TLaunch roomId, d).

#[local] Instance left_alone_refl : Reflexive left_alone.
Proof. by intros l. Qed.
#[local] Instance left_alone_trans : Transitive left_alone.
Proof.
  intros l1 l2 l3 [Hc1 Ht1] [Hc2 Ht2]. split; [by rewrite Hc2|]. intros h d. by rewrite Ht2, Ht1.
Qed.

(** What a trace shows of the room. *)
Record shows (t : list LItem) (out : list Emission) (st : list (RoomStatus * bool)) (ps : list bool) : Prop := {
  shows_said : said t = out;
  shows_statuses : statuses roomId t = st;
  shows_persists : persists roomId t = ps;
}.

Lemma shows_nil : shows [] [] [] [].
Proof. done. Qed.

Lemma shows_app t1 t2 o1 o2 s1 s2 p1 p2 :
  shows t1 o1 s1 p1 -> shows t2 o2 s2 p2 -> shows (t1 ++ t2) (o1 ++ o2) (s1 ++ s2) (p1 ++ p2).
Proof.
  intros [H1 H2 H3] [H4 H5 H6]. split.
  - unfold said in *. by rewrite omap_app, H1, H4.
  - unfold statuses in *. by rewrite omap_app, H2, H5.
  - unfold persists in *. by rewrite omap_app, H3, H6.
Qed.

(** A step that neither shows nor changes anything of the room. *)
Definition passes {R} (p : LTask R) : Prop :=
  forall l, always left_alone p l (fun _ l' t => left_alone l l' /\ shows t [] [] []).

Lemma passes_bind {A B} (p : LTask A) (k : A -> LTask B) : passes p -> (forall a, passes (k a)) -> passes (pbind p k).
Proof.
  intros Hp Hk l. apply always_bind. eapply always_mono; [|apply Hp]. intros [a|e] l1 t [Hl Ht]; cbn; [|done].
  eapply always_mono; [|apply Hk]. cbn. intros o l2 t2 [Hl2 Ht2]. split; [by etrans|exact (shows_app _ _ _ _ _ _ _ _ Ht Ht2)].
Qed.

Lemma passes_attempt {A} (p : LTask A) : passes p -> passes (attempt p).
Proof. intros H l. apply always_attempt. apply H. Qed.

Lemma passes_await {X} (q : LobbyReq X) :
  (forall r, status_of roomId (Asked q r) = None) -> (forall r, persist_of roomId (Asked q r) = None) -> passes (await q).
Proof.
  intros Hs Hp l w1 r Hw. cbn. split; [exact Hw|]. split; [done| |]; unfold statuses, persists; cbn [omap list_omap];
    by rewrite ?Hs, ?Hp.
Qed.

Lemma passes_done {R} (o : outcome exn R) : passes (Done o).
Proof. intros l. by split. Qed.

Ltac passing :=
  repeat match goal with
  | |- passes (pbind _ _) => apply passes_bind; [|intros ?]
  | |- passes (attempt _) => apply passes_attempt
  | |- passes (await _) => by apply passes_await
  | |- passes (Done _) => apply passes_done
  | |- passes (pret _) => apply passes_done
  | |- passes (match ?x with _ => _ end) => destruct x
  end.

Lemma passes_sync view : passes (syncRoomState view).
Proof. unfold syncRoomState, setSnapshot, redis. passing. Qed.

Lemma always_update l st :
  always left_alone (updateRoomStatus roomId st None None) l (fun o l' t =>
    left_alone l l' /\ exists b, shows t [] [(st, b)] [] /\ (is_Some (ok_value o) -> b = true)).
Proof.
  cbn [updateRoomStatus sql await pbind always]. intros w1 r Hw.
  assert (Hq : shows [Asked (QDb (DRoomUpdate roomId st None)) r] [] [(st, match r with Ok _ => true | Throw _ => false end)] []).
  { split; [done| |done]. unfold statuses. cbn. by rewrite decide_True. }
  destruct r as [view|e]; [|cbn; split; [exact Hw|]; exists false; split; [done|by intros []]].
  apply (always_bind _ (syncRoomState view)). eapply always_mono; [|apply passes_sync].
  intros [u|e] l' t [Hl Ht]; cbn.
  - split; [by etrans|]. exists true. split; [|done]. rewrite app_nil_r.
    exact (shows_app [_] t _ _ _ _ _ _ Hq Ht).
  - split; [by etrans|]. exists true. split; [|done]. exact (shows_app [_] t _ _ _ _ _ _ Hq Ht).
Qed.

(** Nothing of a countdown of the room is left in this process but what was
    there before. *)
Definition released (l l' : Lobby) : Prop :=
  lb_countdowns l' !! roomId = None
  /\ forall h d, lb_timers l' !! h = Some (TLaunch roomId, d) -> lb_timers l !! h = Some (TLaunch roomId, d).

Lemma always_clear l l0 Post :
  (forall h d, lb_timers l !! h = Some (TLaunch roomId, d) ->
     lb_timers l0 !! h = Some (TLaunch roomId, d) \/ (lb_countdowns l !! roomId ≫= ce_timer) = Some h) ->
  (forall l', released l0 l' -> JClearCountdown roomId ∈ lb_jobs l' -> Post (Ok tt) l' []) ->
  always left_alone (clearLobbyCountdownBestEffort roomId) l Post.
Proof.
  intros Ht HP. cbn. apply HP.
  - split; [destruct (_ ≫= _); cbn; apply lookup_delete_eq|]. intros h d.
    destruct (lb_countdowns l !! roomId ≫= ce_timer) as [h'|] eqn:He; cbn.
    + destruct (decide (h' = h)) as [->|Hne]; [by rewrite lookup_delete_eq|rewrite lookup_delete_ne by done].
      intros [|[= ->]]%Ht; done.
    + by intros [|]%Ht.
  - destruct (_ ≫= _); cbn; apply elem_of_app; right; by apply list_elem_of_singleton.
Qed.

(** What is announced. *)
Definition announced (startedAt : Z) : list Emission :=
  [emitRoomStatusUpdated roomId RCOUNTDOWN None startedAt;
   to_room roomId (S_ROOM_COUNTDOWN_STARTED roomId (startedAt + GAME_CONFIG.COUNTDOWN_DURATION_MS)
                     GAME_CONFIG.COUNTDOWN_DURATION_MS startedAt)].

(** Armed: the entry, with the timer that launches the match. *)
Definition armed (end_ : Z) (l : Lobby) : Prop :=
  exists h d, lb_countdowns l !! roomId = Some (mkCountdownEntry (Some h) end_)
    /\ lb_timers l !! h = Some (TLaunch roomId, d).

(** How a start fails after the slot was taken: the status could not be
    written, or Redis refused the entry. *)
Definition start_failed (startedAt : Z) (t : list LItem) : Prop :=
  (exists b, shows t [] [(RCOUNTDOWN, b)] [])
  \/ (exists b out, shows t (announced startedAt ++ out) [(RCOUNTDOWN, true); (RWAITING, b)] [false]).

Lemma always_persist end_ l :
  always left_alone (attempt (persistLobbyCountdown roomId end_)) l (fun o l' t => left_alone l l' /\
    exists r, o = Ok r /\ shows t [] [] [match r with Ok _ => true | Throw _ => false end]).
Proof.
  cbn. intros w1 r Hw. split; [exact Hw|]. exists r. split; [done|]. split; [done|done|].
  unfold persists. cbn. by rewrite decide_True.
Qed.

(** The rest of a rollback that is best effort. *)
Lemma always_back_to_waiting l :
  always left_alone (best_effort (
    updateRoomStatus roomId RWAITING None None ;;
    updatedAt <- date_now ;;
    say (emitRoomStatusUpdated roomId RWAITING None updatedAt))) l
    (fun o l' t => left_alone l l' /\ o = Ok tt /\ exists b out, shows t out [(RWAITING, b)] []).
Proof.
  unfold best_effort. apply always_bind, always_attempt, always_bind.
  eapply always_mono; [|apply always_update]. intros [u|e] l1 t (Hl & b & Hs & _); cbn.
  - split; [etrans; [exact Hl|done]|]. split; [done|]. set (now := clock_reading _ _).
    exists b, [emitRoomStatusUpdated roomId RWAITING None now].
    rewrite !app_nil_r. apply (shows_app t [_] [] [_] [_] [] [] [] Hs). by split.
  - split; [exact Hl|]. split; [done|]. exists b, []. by rewrite !app_nil_r.
Qed.

Lemma shows_announced startedAt : shows (Said <$> announced startedAt) (announced startedAt) [] [].
Proof. by split. Qed.

Lemma always_arm end_ l :
  always left_alone (armLobbyCountdownTimer roomId end_ true) l (fun o l' t =>
    o = Ok tt /\ shows t [] [] [] /\ armed end_ l'
    /\ forall h d, lb_timers l' !! h = Some (TLaunch roomId, d) ->
         lb_timers l !! h = Some (TLaunch roomId, d) \/ (lb_countdowns l' !! roomId ≫= ce_timer) = Some h).
Proof.
  unfold armLobbyCountdownTimer. cbn. set (now := clock_reading _ _).
  split; [done|]. split; [done|]. split.
  - exists (lb_refs l), (Z.max (end_ - now) 0). split; apply lookup_insert_eq.
  - intros h d Hh. destruct (decide (lb_refs l = h)) as [Heq|Hne].
    + right. rewrite <- Heq. exact (f_equal (fun e => e ≫= ce_timer) (lookup_insert_eq (lb_countdowns l) roomId _)).
    + left. rewrite <- Hh. symmetry. by apply lookup_insert_ne.
Qed.

Lemma always_run_countdown l0 l startedAt :
  let end_ := startedAt + GAME_CONFIG.COUNTDOWN_DURATION_MS in
  lb_countdowns l !! roomId = Some (mkCountdownEntry None end_) ->
  (forall h d, lb_timers l !! h = Some (TLaunch roomId, d) -> lb_timers l0 !! h = Some (TLaunch roomId, d)) ->
  always left_alone (run_countdown roomId startedAt end_) l (fun o l' t =>
    match o with
    | Ok _ => armed end_ l' /\ shows t (announced startedAt) [(RCOUNTDOWN, true)] [true]
    | Throw _ =>
        (forall h d, lb_timers l' !! h = Some (TLaunch roomId, d) ->
           lb_timers l0 !! h = Some (TLaunch roomId, d) \/ (lb_countdowns l' !! roomId ≫= ce_timer) = Some h)
        /\ start_failed startedAt t
    end).
Proof.
  intros end_ Hc Ht. unfold run_countdown. apply always_bind. eapply always_mono; [|apply always_update].
  intros [u|e] l1 t1 ([Hc1 Ht1] & b & Hs & Hb).
  2: { cbn. split; [|left; by exists b]. intros h d Hh%Ht1%Ht. by left. }
  rewrite Hb in Hs by (by eexists). cbn [then_always]. clear u Hb.
  cbn [pbind always say pret]. apply always_bind. eapply always_mono; [|apply always_arm].
  intros o l2 t2 (-> & Hs2 & Harm & Ht2). cbn [then_always]. apply always_bind.
  eapply always_mono; [|apply always_persist]. intros o l3 t3 ([Hc3 Ht3] & r & -> & Hs3). cbn [then_always].
  pose proof (shows_app _ _ _ _ _ _ _ _ (shows_app _ _ _ _ _ _ _ _ Hs (shows_announced startedAt))
    (shows_app _ _ _ _ _ _ _ _ Hs2 Hs3)) as Hall. cbn [app] in Hall.
  destruct r as [u|e].
  - cbn. split.
    + destruct Harm as (h & d & Hh & Hd). exists h, d. rewrite Hc3. split; [done|]. by apply Ht3.
    + rewrite !app_nil_r. rewrite <- app_assoc in Hall. exact Hall.
  - unfold roll_back_countdown. apply always_bind, always_bind. apply (always_clear _ l0).
    { intros h d Hh%Ht3. rewrite Hc3. apply Ht2 in Hh as [Hh|Hh]; [|by right]. left. by apply Ht, Ht1. }
    intros l4 [Hc4 Ht4] _. cbn [then_always app]. eapply always_mono; [|apply always_back_to_waiting].
    intros o l5 t5 ([Hc5 Ht5] & -> & b2 & out & Hs5). cbn. split.
    + intros h d Hh%Ht5%Ht4. by left.
    + right. exists b2, out. rewrite !app_nil_r. rewrite <- app_assoc in Hall.
      pose proof (shows_app _ _ _ _ _ _ _ _ Hall Hs5) as H. rewrite !app_nil_r, <- !app_assoc in H. exact H.
Qed.

(** The ways a start can end, for a room without a countdown. *)
Definition start_outcome (l l' : Lobby) (t : list LItem) (o : outcome exn (option LobbyCountdownEntry)) : Prop :=
  match o with
  | Ok None => left_alone l l' /\ shows t [] [] []
  | Ok (Some e) => exists startedAt,
      e = mkCountdownEntry None (startedAt + GAME_CONFIG.COUNTDOWN_DURATION_MS)
      /\ armed (startedAt + GAME_CONFIG.COUNTDOWN_DURATION_MS) l'
      /\ shows t (announced startedAt) [(RCOUNTDOWN, true)] [true]
  | Throw _ =>
      released l l'
      /\ (shows t [] [] []
          \/ JClearCountdown roomId ∈ lb_jobs l' /\ exists startedAt, start_failed startedAt t)
  end.

Lemma always_start l :
  lb_countdowns l !! roomId = None ->
  always left_alone (maybeStartPublicCountdown roomId) l (fun o l' t => start_outcome l l' t o).
Proof.
  intros Hc. unfold maybeStartPublicCountdown. apply always_bind.
  assert (Hget : passes (getRoom roomId)).
  { unfold getRoom, sql. apply passes_bind; [by apply passes_await|]. intros [view|]; apply passes_done. }
  eapply always_mono; [|apply Hget]. intros [view|e] l1 t1 [[Hc1 Ht1] Hs1]; cbn [then_always].
  2: { cbn. split; [|by left]. split; [by rewrite Hc1|]. by intros h d ?%Ht1. }
  assert (Hno : start_outcome l l1 (t1 ++ []) (Ok None)).
  { rewrite app_nil_r. cbn. split; [by split|done]. }
  destruct (negb _); [exact Hno|]. destruct (negb _); [exact Hno|]. destruct (_ <? _); [exact Hno|].
  unfold countdown_of, reads, date_now, set_countdown, writes, act, clock_tick.
  cbn [pbind always fst snd pret]. rewrite Hc1, Hc. cbn [pbind always fst snd pret]. cbn zeta.
  set (startedAt := clock_reading _ _).
  apply always_bind, always_attempt. eapply always_mono; [|apply (always_run_countdown l); [apply lookup_insert_eq|]].
  2: { intros h d Hh. by apply Ht1. }
  intros [u|e] l3 t3 Hrun; cbn [then_always].
  - destruct Hrun as [Harm Hs3]. cbn. exists startedAt. split; [done|]. split; [exact Harm|]. rewrite app_nil_r.
    exact (shows_app _ _ _ _ _ _ _ _ Hs1 Hs3).
  - destruct Hrun as [Ht3 Hf]. apply always_bind, (always_clear _ l); [exact Ht3|].
    intros l4 Hrel Hjob. cbn. split; [exact Hrel|]. right. split; [exact Hjob|]. exists startedAt. rewrite !app_nil_r.
    destruct Hf as [[b Hs3]|(b & out & Hs3)]; [left; exists b|right; exists b, out];
      exact (shows_app _ _ _ _ _ _ _ _ Hs1 Hs3).
Qed.
End Starting.

(** A countdown is started completely or released.  Started in a room
    without a countdown, and with nobody else at work on the room's countdown,
    maybeStartPublicCountdown either leaves everything as it is; or the status
    was written, both announcements made, the timer armed that launches the
    match, and the countdown written to Redis; or it throws, and then no entry
    and no new timer of the room is left in memory, the clearing of the Redis
    entry has been started, and when the countdown had been announced, WAITING
    has been asked to be written back.  (A throw while the status is written, which may be
    after the row was changed, does not write it back.) *)
Theorem countdown_starts_or_is_released (roomId : jstr) (l l' : Lobby) (t : list LItem)
    (o : outcome exn (option LobbyCountdownEntry)) :
  lb_countdowns l !! roomId = None ->
  runs (left_alone roomId) (maybeStartPublicCountdown roomId) l t o l' -> start_outcome roomId l l' t o.
Proof. intros Hc. apply (always_runs _ _ _ (fun o l' t => start_outcome roomId l l' t o)), always_start, Hc. Qed.

(** ** A recovery that is abandoned *)

(** Redis does not clear the countdown; the rest is answered. *)
Definition clear_fails (X : Type) (q : LobbyReq X) (l : Lobby) (e : Tables * LobbyRedis)
    : outcome exn X * (Tables * LobbyRedis) :=
  match q in LobbyReq X return outcome exn X * (Tables * LobbyRedis) with
  | QRedis c =>
      match c in RedisCmd X return outcome exn X * (Tables * LobbyRedis) with
      | KClearCountdown _ => (Throw (JsError "EXECABORT"), e)
      | c => lobby_answers _ (QRedis c) l e
      end
  | q => lobby_answers _ q l e
  end.

(** The first call that is left, or else the first timer. *)
Definition next_step (le : Lobby * (Tables * LobbyRedis)) : option (Lobby * (Tables * LobbyRedis)) :=
  let '(l, e) := le in
  match lb_jobs l with
  | j :: js =>
      let '(_, l', e', _) := drive clear_fails (job_program (fun _ _ => pret tt) j) { l with lb_jobs := js } e in
      Some (l', e')
  | [] =>
      match map_to_list (lb_timers l) with
      | (h, (tm, d)) :: _ =>
          let '(_, l', e', _) := drive clear_fails (timer_callback tm) { l with lb_timers ::= delete h } e in
          Some (l', e')
      | [] => None
      end
  end.

Lemma next_step_step le le' : next_step le = Some le' -> service_step eq (fun _ _ => pret tt) le.1 le'.1.
Proof.
  destruct le as [l e]. cbn [next_step fst]. destruct (lb_jobs l) as [|j js] eqn:Hj.
  - destruct (map_to_list (lb_timers l)) as [|[h [tm d]] rest] eqn:Hm; [done|].
    destruct (drive _ _ _ _) as [[[o l1] e1] out] eqn:Hd. intros [= <-].
    destruct (drive_runs eq clear_fails _ _ _ _ _ _ _ Hd) as (t & Hr & _).
    eapply timer_fires; [|exact Hr]. apply elem_of_map_to_list. rewrite Hm. left.
  - destruct (drive _ _ _ _) as [[[o l1] e1] out] eqn:Hd. intros [= <-].
    destruct (drive_runs eq clear_fails _ _ _ _ _ _ _ Hd) as (t & Hr & _).
    by eapply (job_runs _ _ _ []).
Qed.

Fixpoint next_steps (n : nat) (le : Lobby * (Tables * LobbyRedis)) : option (Lobby * (Tables * LobbyRedis)) :=
  match n with
  | O => Some le
  | S n' => match next_step le with Some le' => next_steps n' le' | None => None end
  end.

Lemma next_steps_steps n le le' :
  next_steps n le = Some le' -> nsteps (service_step eq (fun _ _ => pret tt)) n le.1 le'.1.
Proof.
  revert le. induction n as [|n IH]; intros le; cbn [next_steps]; [intros [= ->]; constructor|].
  destruct (next_step le) as [le1|] eqn:Hn; [|done]. intros H%IH. econstructor; [by apply next_step_step|done].
Qed.

Definition demo_abandoned : Lobby :=
  { demo_lobby with lb_server := true; lb_jobs := [JRecoverExpired (mkPendingEntry (js "r0") 900 true 0)] }.

(** Six attempts, five timers, the dead letter, the rollback and its clear:
    the bound is reached. *)
Lemma recovery_comes_to_rest_witness :
  exists l', nsteps (service_step eq (fun _ _ => pret tt)) 14 demo_abandoned l' /\ work l' = 0%nat
    /\ (14 + work l' <= work demo_abandoned)%nat.
Proof.
  destruct (next_steps 14 (demo_abandoned, demo_room)) as [[l' e']|] eqn:Hn; [|exfalso; revert Hn; vm_compute; discriminate].
  pose proof (next_steps_steps 14 _ _ Hn) as Hs. cbn [fst] in Hs.
  assert (Hw := recovery_comes_to_rest eq (fun _ _ => pret tt) 14 demo_abandoned l'
    (fun l l' E => eq_ind l (fun x => (work x <= work l)%nat) (le_n _) l' E) (fun m u => spends_done eq (Ok tt)) Hs).
  exists l'. split; [exact Hs|]. split; [|exact Hw].
  assert (Hd : work demo_abandoned = 14%nat) by (vm_compute; reflexivity). rewrite Hd in Hw. lia.
Defined.

(** Two players in a public room, and everything answers. *)
Lemma countdown_starts_or_is_released_witness :
  exists t o l', runs (left_alone (js "r0")) (maybeStartPublicCountdown (js "r0")) demo_lobby t o l'
    /\ (exists e, o = Ok (Some e)) /\ start_outcome (js "r0") demo_lobby l' t o.
Proof.
  destruct (drive lobby_answers (maybeStartPublicCountdown (js "r0")) demo_lobby demo_race.1) as [[[o l'] e'] out] eqn:Hd.
  destruct (drive_runs (Reflexive0 := left_alone_refl (js "r0")) (left_alone (js "r0")) lobby_answers _ _ _ _ _ _ _ Hd) as (t & Hr & _).
  exists t, o, l'. split; [exact Hr|]. split.
  - assert (Ho : match (drive lobby_answers (maybeStartPublicCountdown (js "r0")) demo_lobby demo_race.1).1.1.1 with
                 | Ok (Some _) => true | _ => false end = true) by (vm_compute; reflexivity).
    rewrite Hd in Ho. destruct o as [[e|]|x]; [by exists e|done|done].
  - exact (countdown_starts_or_is_released (js "r0") demo_lobby l' t o (lookup_empty (js "r0")) Hr).
Defined.
