(* ===== verification/Presence.v ===== *)
(** * [presence.service.ts]

    The sweep of one elected process over all active rooms: players without a
    presence key leave a lobby, are marked disconnected in a match, and a private
    room whose host is gone twice in a row is disbanded. *)

From stdpp Require Import gmap.
From S2P Require Import Prelude JsData Effects Shared Decimal Redis Lease Events Async LobbyStore Lobby Rooms.
From S2P Require Import LobbyCountdown.
#[local] Open Scope Z_scope.
#[local] Open Scope prog_scope.

Definition BOT_GUEST_ID_PREFIX : jstr := js "bot_".

Definition PRESENCE_LEADER_KEY : jstr := js "presence:leader".
Definition PRESENCE_LEADER_FENCE_KEY : jstr := js "presence:leader:fence".
Definition PRESENCE_LEADER_TTL_SEC : Z := 15.
Definition ROOM_SWEEP_GRACE_PERIOD_MS : Z := 30000.
Definition HOST_STALE_CONSECUTIVE_SWEEPS : Z := 2.
Definition DISCONNECT_TIMEOUT_MS : Z := 3000.

Section Presence.
Context (nodeId : jstr).

(** ** Leadership *)

Definition set_presence_token (token : option jstr) : LTask unit :=
  writes (fun l => { l with lb_presenceToken := token }).

Definition stillLeader (token : jstr) : LTask bool :=
  held <- redis (KRenewLease PRESENCE_LEADER_KEY token PRESENCE_LEADER_TTL_SEC) ;;
  (if held : bool then pret tt else set_presence_token None) ;;
  pret held.

Definition acquirePresence : LTask (option jstr) :=
  fence <- redis (KIncr PRESENCE_LEADER_FENCE_KEY) ;;
  let token := nodeId ++ js ":" ++ js_of_Z fence in
  acquired <- redis (KAcquireLease PRESENCE_LEADER_KEY token PRESENCE_LEADER_TTL_SEC) ;;
  let held := if acquired : bool then Some token else None in
  set_presence_token held ;; pret held.

Definition acquireOrRenewPresence : LTask (option jstr) :=
  leaderToken <- reads lb_presenceToken ;;
  match leaderToken with
  | Some token =>
      held <- stillLeader token ;;
      if held : bool then pret (Some token) else acquirePresence
  | None => acquirePresence
  end.

(** ** Who is gone *)

(** [guestId?.startsWith(BOT_GUEST_ID_PREFIX)] *)
Definition is_bot (player : jstr * option jstr) : bool :=
  match player.2 with Some guestId => bool_decide (BOT_GUEST_ID_PREFIX `prefix_of` guestId) | None => false end.

Definition humanPlayers (room : ActiveRoom) : list jstr :=
  fst <$> filter (fun player => is_bot player = false) (ar_players room).

(** [Promise.all] of the checks: all are made; the first failure is thrown. *)
Fixpoint presence_flags (roomId : jstr) (userIds : list jstr) : LTask (outcome exn (list (jstr * bool))) :=
  match userIds with
  | [] => pret (Ok [])
  | u :: userIds' =>
      isPresent <- attempt (checkPresence roomId u) ;;
      rest <- presence_flags roomId userIds' ;;
      pret (match isPresent, rest with
            | Ok b, Ok flags => Ok ((u, b) :: flags)
            | Ok _, Throw e => Throw e
            | Throw e, _ => Throw e
            end)
  end.

Record StalePlayers := mkStale { stalePlayerIds : list jstr; isHostStale : bool }.

Definition getRoomStalePlayers (room : ActiveRoom) : LTask StalePlayers :=
  flags <- presence_flags (ro_id (ar_room room)) (humanPlayers room) ;;
  match flags with
  | Throw e => raise e
  | Ok flags =>
      let stale := fst <$> filter (fun f => f.2 = false) flags in
      pret (mkStale stale (bool_decide (ro_hostId (ar_room room) ∈ stale)))
  end.

(** ** A host that is gone *)

Definition is_lobby (room : ActiveRoom) : bool :=
  match ro_status (ar_room room) with
  | RWAITING | RCOUNTDOWN | RSTARTING => true
  | RIN_GAME | RFINISHED => false
  end.

(** [room.currentMatchId], when it is truthy. *)
Definition current_match (room : ActiveRoom) : option jstr :=
  match ro_currentMatchId (ar_room room) with Some (_ :: _) => ro_currentMatchId (ar_room room) | _ => None end.

Definition emit_closed (roomId matchId : jstr) : LTask unit :=
  now <- date_now ;; say (to_room roomId (S_MATCH_CLOSED matchId None 0 now)).

Definition emitHostStaleDisbandEvents (room : ActiveRoom) (finishResult : option FinishResult)
    (safetyNetMatchIds : list jstr) : LTask unit :=
  let roomId := ro_id (ar_room room) in
  (match finishResult with
   | Some r => say (to_room roomId (S_MATCH_CLOSED (fr_matchId r) (fr_winnerId r) (fr_totalRounds r) (fr_finishedAt r)))
   | None => for_each safetyNetMatchIds (emit_closed roomId)
   end) ;;
  now <- date_now ;;
  (if is_lobby room then say (to_room roomId (S_ROOM_COUNTDOWN_CANCELLED roomId RWAITING (js "HOST_STALE") now))
   else say (emitRoomStatusUpdated roomId RFINISHED None now)) ;;
  say (to_room roomId (S_PLAYER_LEFT roomId (ro_hostId (ar_room room)) HOST_STALE)).

Definition force_finish (room : ActiveRoom) : LTask (option FinishResult) :=
  match current_match room with
  | Some matchId =>
      r <- attempt (await (QForceFinish matchId (ro_id (ar_room room)))) ;;
      pret (match r with Ok finishResult => finishResult | Throw _ => None end)
  | None => pret None
  end.

Definition set_strikes (f : gmap jstr Z -> gmap jstr Z) : LTask unit := writes (fun l => { l with lb_strikes ::= f }).

Definition handleHostStalePrivateRoom (room : ActiveRoom) : LTask unit :=
  let roomId := ro_id (ar_room room) in
  before <- reads (fun l => lb_strikes l !! roomId) ;;
  let strikes := default 0 before + 1 in
  if strikes <? HOST_STALE_CONSECUTIVE_SWEEPS then set_strikes <[roomId := strikes]>
  else
    set_strikes (delete roomId) ;;
    finishResult <- force_finish room ;;
    safetyNetMatchIds <- disbandRoom roomId ;;
    emitHostStaleDisbandEvents room finishResult safetyNetMatchIds.

(** ** Players that are gone *)

Definition handleStaleLobbyPlayers (room : ActiveRoom) (stale : list jstr) : LTask unit :=
  let roomId := ro_id (ar_room room) in
  best_effort (
    executeWithRetry 3 50 (handleRoomPlayerLeft roomId stale) ;;
    executeWithRetry 3 50 (removePlayerBatch roomId stale) ;;
    for_each stale (fun userId => say (emitMatchPlayerLeft roomId userId STALE))).

(** The owner applies it; another process forwards it to the owner. *)
Definition routeInGameDisconnect (matchId userId : jstr) : LTask unit :=
  isOwner <- reads (fun l => bool_decide (matchId ∈ lb_owned l)) ;;
  if isOwner : bool then await (QDisconnect matchId userId) else await (QForward matchId userId).

(** The disconnect goes on when its timeout has passed. *)
Definition disconnectSingleInGamePlayer (matchId userId : jstr) : LTask unit :=
  promise <- fresh_ref ;;
  start_job (JDisconnect promise matchId userId) ;;
  await (QSettled promise DISCONNECT_TIMEOUT_MS).

(** One after the other, whatever became of the one before. *)
Definition handleStaleInGamePlayers (room : ActiveRoom) (stale : list jstr) : LTask unit :=
  match current_match room with
  | None => pret tt
  | Some matchId => for_each stale (fun userId => best_effort (disconnectSingleInGamePlayer matchId userId))
  end.

(** The calls that are not waited for. *)
Definition lobby_job : LobbyJob -> LTask unit :=
  job_program (fun matchId userId => executeWithRetry 3 50 (routeInGameDisconnect matchId userId)).

(** ** The sweep *)

(** What is done about the players of a room that are gone. *)
Definition handle_stale (room : ActiveRoom) (stale : StalePlayers) : LTask unit :=
  (if isHostStale stale then pret tt else set_strikes (delete (ro_id (ar_room room)))) ;;
  if bool_decide (stalePlayerIds stale = []) then pret tt
  else if bool_decide (ro_type (ar_room room) = PRIVATE) && isHostStale stale
  then handleHostStalePrivateRoom room
  else if is_lobby room then handleStaleLobbyPlayers room (stalePlayerIds stale)
  else if bool_decide (ro_status (ar_room room) = RIN_GAME)
  then handleStaleInGamePlayers room (stalePlayerIds stale)
  else pret tt.

Definition sweepRoom (room : ActiveRoom) : LTask unit :=
  stale <- getRoomStalePlayers room ;; handle_stale room stale.

Definition in_grace (now : Z) (room : ActiveRoom) : bool :=
  now - ro_createdAt (ar_room room) <? ROOM_SWEEP_GRACE_PERIOD_MS.

Fixpoint sweep_rooms (token : jstr) (now : Z) (rooms : list ActiveRoom) : LTask unit :=
  match rooms with
  | [] => pret tt
  | room :: rooms' =>
      if in_grace now room then sweep_rooms token now rooms'
      else
        leading <- stillLeader token ;;
        if leading : bool then sweepRoom room ;; sweep_rooms token now rooms' else pret tt
  end.

Definition cleanupObsoleteHostStrikes (activeRooms : list ActiveRoom) : LTask unit :=
  set_strikes (filter (fun kv => kv.1 ∈ ((fun r => ro_id (ar_room r)) <$> activeRooms))).

Definition sweep (token : jstr) : LTask unit :=
  server <- reads lb_server ;;
  if negb server then pret tt
  else
    activeRooms <- getActiveRooms ;;
    now <- date_now ;;
    cleanupObsoleteHostStrikes activeRooms ;;
    sweep_rooms token now activeRooms.

(** What the interval does every five seconds. *)
Definition presence_tick : LTask unit :=
  idle <- act (fun l => if lb_sweeping l then (false, l) else (true, { l with lb_sweeping := true })) ;;
  if idle : bool then
    finally
      (best_effort (
         token <- acquireOrRenewPresence ;;
         match token with None => pret tt | Some token => sweep token end))
      (fun l => { l with lb_sweeping := false })
  else pret tt.
End Presence.
