(* ===== verification/PresenceRules.v ===== *)
(** * What the presence sweep guarantees

    A process sweeps a room only under a lease that it renewed for that room;
    only humans whose presence key was missing are removed; a private room is
    disbanded only when its host was missing in two sweeps in a row. *)

From stdpp Require Import gmap.
From S2P Require Import Prelude JsData Effects Shared Decimal Redis Lease Events Async LobbyStore.
From S2P Require Import LobbyTables Pool Lobby Rooms RoomRules LobbyCountdown Presence.
#[local] Open Scope Z_scope.
#[local] Open Scope prog_scope.

Abbreviation LItem := (Item Emission LobbyReq).

(** ** What a sweep may ask for *)

(** The last renewal of the lease succeeded; the presence keys that were asked
    since, and those of them that were reported missing. *)
Record Fence := mkFence { fe_held : bool; fe_asked : list jstr; fe_missing : list jstr }.

(** [u] is a human in [room], and was reported missing. *)
Definition gone (fence : Fence) (room : ActiveRoom) (u : jstr) : Prop :=
  u ∈ humanPlayers room /\ presenceKey (ro_id (ar_room room)) u ∈ fe_missing fence.

Section Monitor.
Context (token : jstr) (now : Z) (rooms : list ActiveRoom).

(** A room of this sweep that is old enough. *)
Definition swept_room (room : ActiveRoom) : Prop := room ∈ rooms /\ in_grace now room = false.

(** The lease was renewed for [room]: no key of another room was asked since. *)
Definition renewed_for (fence : Fence) (room : ActiveRoom) : Prop :=
  fe_held fence = true /\ swept_room room
  /\ forall k, k ∈ fe_asked fence -> exists u, u ∈ humanPlayers room /\ k = presenceKey (ro_id (ar_room room)) u.

Definition lawful_db {X} (c : DbCmd X) (fence : Fence) : Prop :=
  match c with
  | DPlayersDelete roomId userIds =>
      exists room, renewed_for fence room /\ ro_id (ar_room room) = roomId /\ is_lobby room = true
        /\ forall u, u ∈ userIds -> gone fence room u
  | DDisband roomId _ =>
      exists room, renewed_for fence room /\ ro_id (ar_room room) = roomId
        /\ ro_type (ar_room room) = PRIVATE /\ gone fence room (ro_hostId (ar_room room))
  | DRoomUpdate roomId status _ =>
      status = RWAITING /\ exists room, renewed_for fence room /\ ro_id (ar_room room) = roomId
  | DRoomCreate _ | DPlayerCreate _ _ | DJoin _ _ | DRoomUpdateIf _ _ _ _ _ => False
  | _ => exists room, renewed_for fence room
  end.

Definition lawful_request {X} (q : LobbyReq X) (fence : Fence) : Prop :=
  match q with
  | QDb c => lawful_db c fence
  | QForceFinish matchId roomId =>
      exists room, renewed_for fence room /\ ro_id (ar_room room) = roomId /\ current_match room = Some matchId
        /\ ro_type (ar_room room) = PRIVATE /\ gone fence room (ro_hostId (ar_room room))
  | QRedis (KRenewLease key value _) => key = PRESENCE_LEADER_KEY /\ value = token
  | QRedis _ | QSettled _ _ | QSleep _ => exists room, renewed_for fence room
  | _ => False
  end.

(** What a request and its reply make of the fence. *)
Definition fence_redis {X} (c : RedisCmd X) : outcome exn X -> Fence -> Fence :=
  match c in RedisCmd X return outcome exn X -> Fence -> Fence with
  | KRenewLease _ _ _ => fun r _ => mkFence (match r with Ok b => b | Throw _ => false end) [] []
  | KExists key => fun r fence =>
      match r with
      | Ok false => mkFence (fe_held fence) (key :: fe_asked fence) (key :: fe_missing fence)
      | _ => mkFence (fe_held fence) (key :: fe_asked fence) (fe_missing fence)
      end
  | _ => fun _ fence => fence
  end.
Definition fence_after {X} (q : LobbyReq X) : outcome exn X -> Fence -> Fence :=
  match q in LobbyReq X return outcome exn X -> Fence -> Fence with
  | QRedis c => fence_redis c
  | _ => fun _ fence => fence
  end.

Fixpoint fence_at (fence : Fence) (t : list LItem) : Fence :=
  match t with
  | [] => fence
  | Said _ :: t' => fence_at fence t'
  | Asked q r :: t' => fence_at (fence_after q r fence) t'
  end.

(** Every request is lawful, and every emission is made under the lease. *)
Fixpoint lawful (fence : Fence) (t : list LItem) : Prop :=
  match t with
  | [] => True
  | Said _ :: t' => (exists room, renewed_for fence room) /\ lawful fence t'
  | Asked q r :: t' => lawful_request q fence /\ lawful (fence_after q r fence) t'
  end.

Lemma fence_at_app fence t1 t2 : fence_at fence (t1 ++ t2) = fence_at (fence_at fence t1) t2.
Proof. revert fence. induction t1 as [|[x|X q r] t1 IH]; intros fence; cbn; [done|apply IH|apply IH]. Qed.

Lemma lawful_requests_app fence t1 t2 : lawful fence (t1 ++ t2) <-> lawful fence t1 /\ lawful (fence_at fence t1) t2.
Proof. revert fence. induction t1 as [|[x|X q r] t1 IH]; intros fence; cbn; [tauto|rewrite IH; tauto|rewrite IH; tauto]. Qed.

(** Programs that do not move the fence. *)
Definition steady (fence : Fence) (X : Type) (q : LobbyReq X) : Prop :=
  lawful_request q fence /\ forall r, fence_after q r fence = fence.

Lemma confined_lawful {R} fence (p : LTask R) :
  (exists room, renewed_for fence room) -> confined (steady fence) p ->
  every_run p (fun _ t => lawful fence t /\ fence_at fence t = fence).
Proof.
  unfold every_run. intros Hf Hp Env. induction p as [o|X f c IH|x c IH|X q c IH]; intros w; cbn [always confined] in *.
  - done.
  - by apply IH.
  - eapply always_mono; [|by apply IH]. cbn. tauto.
  - intros w1 r _. destruct Hp as [[Hq Hr] Hp]. eapply always_mono; [|by apply IH]. cbn. intros o w' t [Ht He].
    by rewrite Hr.
Qed.

(** Every run is lawful; afterwards [P] holds. *)
Definition abides {R} (fence : Fence) (p : LTask R) (P : outcome exn R -> Fence -> Prop) : Prop :=
  every_run p (fun o t => lawful fence t /\ P o (fence_at fence t)).

Lemma abides_mono {R} fence (p : LTask R) (P P' : outcome exn R -> Fence -> Prop) :
  (forall o f, P o f -> P' o f) -> abides fence p P -> abides fence p P'.
Proof. intros HP. apply every_mono. intros o t [Ht H]. split; [done|by apply HP]. Qed.

Lemma abides_done {R} fence (o : outcome exn R) (P : outcome exn R -> Fence -> Prop) : P o fence -> abides fence (Done o) P.
Proof. intros H. by apply every_done. Qed.

Lemma abides_bind {A B} fence (p : LTask A) (k : A -> LTask B) P1 P :
  abides fence p P1 ->
  (forall o f, P1 o f -> match o with Ok a => abides f (k a) P | Throw e => P (Throw e) f end) ->
  abides fence (pbind p k) P.
Proof.
  intros H1 H2. apply (every_bind p k (fun o t => lawful fence t /\ P1 o (fence_at fence t))); [exact H1|].
  intros [a|e] t [Ht HP]; [|split; [done|exact (H2 _ _ HP)]].
  eapply every_mono; [|exact (H2 _ _ HP)]. cbn. intros o t' [Ht' HP']. rewrite lawful_requests_app, fence_at_app. done.
Qed.

Lemma abides_confined {R} fence (p : LTask R) :
  (exists room, renewed_for fence room) -> confined (steady fence) p -> abides fence p (fun _ f => f = fence).
Proof. apply confined_lawful. Qed.

(** ** Who is gone *)

(** [f] comes after [f0] by looking at humans of [room]. *)
Definition looked_at (room : ActiveRoom) (f0 f : Fence) : Prop :=
  fe_held f = fe_held f0 /\ (forall k, k ∈ fe_missing f0 -> k ∈ fe_missing f)
  /\ forall k, k ∈ fe_asked f -> k ∈ fe_asked f0 \/ exists u, u ∈ humanPlayers room /\ k = presenceKey (ro_id (ar_room room)) u.

Lemma looked_renewed room f0 f : renewed_for f0 room -> looked_at room f0 f -> renewed_for f room.
Proof.
  intros (Hh & Hr & Hk) (Hh' & _ & Hk'). split_and!; [congruence|done|]. intros k [H|H]%Hk'; [by apply Hk|done].
Qed.

Lemma abides_flags room userIds fence :
  renewed_for fence room -> (forall u, u ∈ userIds -> u ∈ humanPlayers room) ->
  abides fence (presence_flags (ro_id (ar_room room)) userIds) (fun o f =>
    looked_at room fence f
    /\ exists r, o = Ok r /\ forall flags, r = Ok flags ->
         forall u, (u, false) ∈ flags -> u ∈ userIds /\ presenceKey (ro_id (ar_room room)) u ∈ fe_missing f).
Proof.
  revert fence. induction userIds as [|u userIds IH]; intros fence Hf Hin; cbn [presence_flags].
  { apply abides_done. split; [split_and!; auto|]. eexists. split; [done|]. intros flags [= <-] u Hu. by apply elem_of_nil in Hu. }
  apply (abides_bind _ _ _ (fun o f => exists r, o = Ok r /\ looked_at room fence f
    /\ fe_missing f = match r with Ok false => [presenceKey (ro_id (ar_room room)) u] | _ => [] end ++ fe_missing fence)).
  { intros Env w w1 r _. cbn. split; [split; [by exists room|done]|]. exists r. split; [done|].
    assert (Hu : u ∈ humanPlayers room) by (apply Hin; left).
    split; [|by destruct r as [[|]|]]. split_and!; [by destruct r as [[|]|]|destruct r as [[|]|]; cbn; intros k Hk; first [by right | exact Hk]|].
    intros k Hk. destruct r as [[|]|]; cbn in Hk; apply elem_of_cons in Hk as [->|Hk]; eauto. }
  intros o f (r & -> & Hlook & Hmiss). cbn beta iota.
  apply (abides_bind _ _ _ _ _ (IH f (looked_renewed _ _ _ Hf Hlook) (fun v Hv => Hin v (list_elem_of_further _ _ _ Hv)))).
  intros o f' (Hlook' & rest & -> & Hrest). destruct Hlook as (Hh & Hm & Hk), Hlook' as (Hh' & Hm' & Hk'). apply abides_done.
  split; [split_and!; [congruence|auto|intros k [Hk1|]%Hk'; auto]|].
  eexists. split; [reflexivity|]. destruct r as [b|e]; [|done]. destruct rest as [flags|e]; [|done].
  intros flags' [= <-] v [[= <- <-]|Hv]%elem_of_cons.
  - split; [left|]. apply Hm'. rewrite Hmiss. left.
  - destruct (Hrest _ eq_refl _ Hv) as [Hv' Hmv]. split; [by right|done].
Qed.

Lemma abides_stale room fence :
  renewed_for fence room ->
  abides fence (getRoomStalePlayers room) (fun o f => looked_at room fence f /\
    forall s, o = Ok s -> (forall u, u ∈ stalePlayerIds s -> gone f room u)
      /\ (isHostStale s = true -> gone f room (ro_hostId (ar_room room)))).
Proof.
  intros Hf. unfold getRoomStalePlayers. apply (abides_bind _ _ _ _ _ (abides_flags _ _ _ Hf (fun _ H => H))).
  intros o f (Hh & r & -> & Hr). destruct r as [flags|e]; [|by apply abides_done].
  assert (Hall : forall u, u ∈ (fst <$> filter (fun f => f.2 = false) flags) -> gone f room u).
  { intros u ([v b] & -> & [Hb Hin]%list_elem_of_filter)%list_elem_of_fmap. cbn in *. subst b.
    exact (Hr flags eq_refl v Hin). }
  apply abides_done. split; [done|]. intros s [= <-]. cbn. split; [exact Hall|]. intros Hb. bool_to_prop. by apply Hall.
Qed.

(** ** What is done about them *)

Lemma confined_retry {R} (ok : forall X, LobbyReq X -> Prop) n delay (fn : LTask R) :
  ok unit (QSleep delay) -> confined ok fn -> confined ok (executeWithRetry n delay fn).
Proof.
  intros Hs Hf. induction n as [|n IH]; [done|]. cbn [executeWithRetry]. apply confined_bind; [by apply confined_attempt|].
  intros [r|e]; [done|]. destruct n; [done|]. apply confined_bind; [by split|]. by intros _.
Qed.

Section Handling.
Context (fence : Fence) (room : ActiveRoom) (Hfor : renewed_for fence room).

Ltac steadily :=
  repeat match goal with
  | |- confined _ (pbind _ _) => apply confined_bind
  | |- confined _ (attempt _) => apply confined_attempt
  | |- confined _ (for_each _ _) => apply confined_for_each
  | |- confined _ (all_of _ _) => apply confined_all_of
  | |- confined _ (executeWithRetry _ _ _) => apply confined_retry; [split; [by exists room|done]|]
  | |- confined _ (match ?x with _ => _ end) => destruct x
  | |- forall _, _ => intros ?
  | |- confined _ _ => first [done | (split; [|done]; split; [by exists room|done])]
  end.

Lemma steady_redis X (c : RedisCmd X) :
  match c with KRenewLease _ _ _ | KExists _ => False | _ => True end -> confined (steady fence) (redis c).
Proof. intros Hc. split; [|done]. destruct c; try done; (split; [by exists room|done]). Qed.

Lemma steady_update : confined (steady fence) (updateRoomStatus (ro_id (ar_room room)) RWAITING None None).
Proof.
  unfold updateRoomStatus, syncRoomState, setSnapshot. apply confined_bind; [|intros view; steadily].
  split; [|done]. split; [|done]. split; [done|by exists room].
Qed.

Lemma steady_left stale : confined (steady fence) (handleRoomPlayerLeft (ro_id (ar_room room)) stale).
Proof.
  unfold handleRoomPlayerLeft, countdown_of, getRoom, found, clearLobbyCountdown, drop_countdown, clearPersistedCountdown, date_now.
  steadily. apply steady_update.
Qed.

Lemma steady_batch stale :
  is_lobby room = true -> (forall u, u ∈ stale -> gone fence room u) ->
  confined (steady fence) (removePlayerBatch (ro_id (ar_room room)) stale).
Proof.
  intros Hl Hg. unfold removePlayerBatch. case_bool_decide; [done|]. apply confined_bind.
  - split; [|done]. split; [|done]. by exists room.
  - intros count. apply confined_bind.
    + apply confined_all_of. intros [u|] _; steadily.
    + intros _. unfold count_removed, decrementPlayerCountClamped, mirror_count, syncPlayerCount, best_effort. steadily.
Qed.

Lemma steady_disband :
  ro_type (ar_room room) = PRIVATE -> gone fence room (ro_hostId (ar_room room)) ->
  confined (steady fence) (handleHostStalePrivateRoom room).
Proof.
  intros Hp Hg. unfold handleHostStalePrivateRoom. cbn zeta. apply confined_bind; [done|]. intros before.
  destruct (_ <? _); [done|]. apply confined_bind; [done|]. intros _. apply confined_bind.
  { unfold force_finish. destruct (current_match room) eqn:Hm; [|done]. apply confined_bind; [|by intros]. apply confined_attempt.
    split; [|done]. split; [|done]. by exists room. }
  intros finishResult. apply confined_bind.
  { unfold disbandRoom, best_effort, date_now. apply confined_bind; [steadily|]. intros userIds. apply confined_bind; [done|].
    intros endedAt. apply confined_bind.
    - split; [|done]. split; [|done]. by exists room.
    - intros ids. apply confined_bind; [|by intros]. apply confined_bind; [|by intros]. apply confined_attempt, confined_all_of.
      intros c _. destruct c; steadily. }
  intros ids. unfold emitHostStaleDisbandEvents, emit_closed, date_now. steadily.
Qed.

Lemma steady_handle s :
  (forall u, u ∈ stalePlayerIds s -> gone fence room u) ->
  (isHostStale s = true -> gone fence room (ro_hostId (ar_room room))) ->
  confined (steady fence) (handle_stale room s).
Proof.
  intros Hg Hh. unfold handle_stale. apply confined_bind; [destruct (isHostStale s); done|]. intros _.
  case_bool_decide; [done|]. destruct (bool_decide (ro_type (ar_room room) = PRIVATE) && isHostStale s) eqn:Hd.
  { apply andb_true_iff in Hd as [Hp Hs]. bool_to_prop. apply steady_disband; auto. }
  destruct (is_lobby room) eqn:Hl.
  - unfold handleStaleLobbyPlayers. cbn zeta. unfold best_effort. steadily; [apply steady_left|by apply steady_batch].
  - destruct (bool_decide (ro_status _ = _)); [|exact I]. unfold handleStaleInGamePlayers, best_effort, disconnectSingleInGamePlayer, fresh_ref.
    steadily.
Qed.
End Handling.

Lemma abides_sweep todo fence :
  (forall room, room ∈ todo -> room ∈ rooms) -> abides fence (sweep_rooms token now todo) (fun _ _ => True).
Proof.
  revert fence. induction todo as [|room todo IH]; intros fence Hin; [by apply abides_done|]. cbn [sweep_rooms].
  assert (Hnext : forall f, abides f (sweep_rooms token now todo) (fun _ _ => True)).
  { intros f. apply IH. intros r Hr. apply Hin. by right. }
  destruct (in_grace now room) eqn:Hg; [apply Hnext|].
  apply (abides_bind _ _ _ (fun o f => o = Ok true -> fe_held f = true /\ fe_asked f = [])).
  { intros Env w w1 r _. cbn. destruct r as [[|]|e]; cbn; by repeat split. }
  intros [[|]|e] f Hf; cbn beta iota; [|by apply abides_done|done]. destruct (Hf eq_refl) as [Hheld Hasked].
  assert (Hfor : renewed_for f room).
  { split_and!; [done|split; [apply Hin; left|done]|]. intros k. rewrite Hasked. by intros ?%elem_of_nil. }
  apply (abides_bind _ _ _ (fun _ _ => True)); [|by intros [u|e] f' _].
  unfold sweepRoom. apply (abides_bind _ _ _ _ _ (abides_stale room f Hfor)).
  intros [s|e] f' [Hlook Hs]; [|done]. pose proof (looked_renewed _ _ _ Hfor Hlook) as Hfor'. destruct (Hs s eq_refl) as [Hgone Hhost].
  eapply abides_mono; [|apply (abides_confined f')]; [done|by exists room|]. by apply steady_handle.
Qed.
End Monitor.


(** ** Two strikes *)

Definition disband_of (i : LItem) : option jstr :=
  match i with
  | Said _ => None
  | Asked q _ =>
      match q with
      | QDb (DDisband roomId _) => Some roomId
      | _ => None
      end
  end.
(** The rooms a run asked to disband. *)
Definition disbands (t : list LItem) : list jstr := omap disband_of t.

Definition missing_of (i : LItem) : option jstr :=
  match i with
  | Said _ => None
  | Asked q r =>
      match q in LobbyReq X return outcome exn X -> option jstr with
      | QRedis c =>
          match c in RedisCmd X return outcome exn X -> option jstr with
          | KExists key => fun r => match r with Ok false => Some key | _ => None end
          | _ => fun _ => None
          end
      | _ => fun _ => None
      end r
  end.
(** The keys that were reported missing in a run. *)
Definition missing (t : list LItem) : list jstr := omap missing_of t.

Definition host_missing (room : ActiveRoom) (t : list LItem) : Prop :=
  presenceKey (ro_id (ar_room room)) (ro_hostId (ar_room room)) ∈ missing t.

Lemma disbands_app t1 t2 : disbands (t1 ++ t2) = disbands t1 ++ disbands t2.
Proof. apply omap_app. Qed.
Lemma missing_app t1 t2 : missing (t1 ++ t2) = missing t1 ++ missing t2.
Proof. apply omap_app. Qed.

Section Strikes.
(** Nothing but the sweep touches the strikes. *)
Context (Env : Lobby -> Lobby -> Prop) (Henv : forall l l', Env l l' -> lb_strikes l' = lb_strikes l).

(** Programs that neither touch them nor disband. *)
Definition calm {R} (p : LTask R) : Prop :=
  forall l, always Env p l (fun _ l' t => lb_strikes l' = lb_strikes l /\ disbands t = []).

Lemma calm_done {R} (o : outcome exn R) : calm (Done o).
Proof. by intros l. Qed.

Lemma calm_bind {A B} (p : LTask A) (k : A -> LTask B) : calm p -> (forall a, calm (k a)) -> calm (pbind p k).
Proof.
  intros Hp Hk l. apply always_bind. eapply always_mono; [|apply Hp]. intros [a|e] l1 t [Hl Ht]; cbn; [|done].
  eapply always_mono; [|apply Hk]. cbn. intros o l2 t2 [Hl2 Ht2]. by rewrite disbands_app, Ht, Ht2, Hl2, Hl.
Qed.

Lemma calm_attempt {A} (p : LTask A) : calm p -> calm (attempt p).
Proof. intros H l. apply always_attempt. apply H. Qed.

Lemma calm_await {X} (q : LobbyReq X) : (forall r, disband_of (Asked q r) = None) -> calm (await q).
Proof.
  intros Hq l w1 r Hw%Henv. assert (Hd : disbands [Asked q r] = []).
  { unfold disbands. cbn [omap list_omap]. by rewrite Hq. }
  exact (conj Hw Hd).
Qed.

Lemma calm_act {X} (f : Lobby -> X * Lobby) : (forall l, lb_strikes (f l).2 = lb_strikes l) -> calm (act f).
Proof. intros H l. cbn. by split. Qed.

Lemma calm_say e : calm (say e).
Proof. by intros l. Qed.

Lemma calm_for_each {A} (l : list A) (body : A -> LTask unit) : (forall x, calm (body x)) -> calm (for_each l body).
Proof. intros H. induction l as [|x l IH]; [apply calm_done|]. cbn [for_each]. by apply calm_bind. Qed.

Lemma calm_settle_all {A} (l : list A) (body : A -> LTask unit) : (forall x, calm (body x)) -> calm (settle_all l body).
Proof.
  intros H. induction l as [|x l IH]; [apply calm_done|]. cbn [settle_all]. apply calm_bind; [by apply calm_attempt|].
  intros o. apply calm_bind; [done|]. intros rest. apply calm_done.
Qed.

Lemma calm_all_of {A} (l : list A) (body : A -> LTask unit) : (forall x, calm (body x)) -> calm (all_of l body).
Proof. intros H. apply calm_bind; [by apply calm_settle_all|]. intros o. apply calm_done. Qed.

Lemma calm_retry {R} n delay (fn : LTask R) : calm fn -> calm (executeWithRetry n delay fn).
Proof.
  intros Hf. induction n as [|n IH]; [apply calm_done|]. cbn [executeWithRetry]. apply calm_bind; [by apply calm_attempt|].
  intros [r|e]; [apply calm_done|]. destruct n; [apply calm_done|]. apply calm_bind; [by apply calm_await|]. by intros _.
Qed.

Ltac calmly :=
  repeat match goal with
  | |- calm (pbind _ _) => apply calm_bind
  | |- calm (attempt _) => apply calm_attempt
  | |- calm (for_each _ _) => apply calm_for_each
  | |- calm (all_of _ _) => apply calm_all_of
  | |- calm (executeWithRetry _ _ _) => apply calm_retry
  | |- calm (await _) => by apply calm_await
  | |- calm (say _) => apply calm_say
  | |- calm (act _) => by apply calm_act
  | |- calm (Done _) => apply calm_done
  | |- calm (pret _) => apply calm_done
  | |- calm (raise _) => apply calm_done
  | |- calm (match ?x with _ => _ end) => destruct x
  | |- forall _, _ => intros ?
  end.

Lemma calm_lobby room stale : calm (handleStaleLobbyPlayers room stale).
Proof.
  unfold handleStaleLobbyPlayers. cbn zeta.
  unfold best_effort, handleRoomPlayerLeft, removePlayerBatch, countdown_of, getRoom, found, clearLobbyCountdown,
    drop_countdown, clearPersistedCountdown, date_now, updateRoomStatus, syncRoomState, setSnapshot, count_removed,
    decrementPlayerCountClamped, mirror_count, syncPlayerCount, best_effort, clearPresence, reads, writes, sql, redis.
  calmly. apply calm_act. intros x. cbn. by destruct (ce_timer _).
Qed.

Lemma calm_in_game room stale : calm (handleStaleInGamePlayers room stale).
Proof.
  unfold handleStaleInGamePlayers, best_effort, disconnectSingleInGamePlayer, fresh_ref, start_job, writes. calmly.
Qed.

Lemma calm_flags roomId us : calm (presence_flags roomId us).
Proof. induction us; cbn [presence_flags]; unfold checkPresence, redis; calmly; done. Qed.

(** The keys of the players found gone were reported missing. *)
Lemma every_flags roomId us :
  every_run (presence_flags roomId us) (fun o t => exists r, o = Ok r /\
    forall flags u, r = Ok flags -> (u, false) ∈ flags -> presenceKey roomId u ∈ missing t).
Proof.
  induction us as [|u us IH]; cbn [presence_flags].
  { apply every_done. eexists. split; [done|]. intros flags u [= <-] Hu. by apply elem_of_nil in Hu. }
  eapply (every_bind _ _ (fun o t => exists r, o = Ok r
    /\ missing t = match r with Ok false => [presenceKey roomId u] | _ => [] end)).
  { apply every_attempt. intros Env0 w w1 r _. exists r. split; [done|]. by destruct r as [[|]|]. }
  intros o t (r & -> & Ht). cbn beta iota.
  eapply every_bind; [exact IH|].
  intros o t2 (rest & -> & Hrest). apply every_done. eexists. split; [done|].
  destruct r as [b|e]; [|done]. destruct rest as [flags|e]; [|done].
  intros flags' v [= <-] [[= <- <-]|Hv]%elem_of_cons; rewrite app_nil_r, missing_app, Ht; [left|].
  apply elem_of_app. right. by eapply Hrest.
Qed.

(** One sweep of a room, by what it makes of the strikes. *)
Lemma always_sweepRoom room l :
  let id := ro_id (ar_room room) in
  always Env (sweepRoom room) l (fun o l' t =>
    (id ∈ disbands t -> host_missing room t /\ is_Some (lb_strikes l !! id))
    /\ (forall n, lb_strikes l' !! id = Some n ->
          host_missing room t \/ (lb_strikes l !! id = Some n /\ (exists e, o = Throw e)))).
Proof.
  intros id. apply always_bind, always_bind.
  eapply always_mono; [|apply (always_and _ _ _ _ _ (calm_flags id (humanPlayers room) l)
    (every_flags id (humanPlayers room) Env l))].
  intros o l1 t [[Hl Hd] (r & -> & Hmiss)]. cbn [then_always].
  destruct r as [flags|e]; cbn [always raise then_always pret].
  2: { rewrite app_nil_r, Hd. split; [by intros ?%elem_of_nil|]. intros n Hn. right. rewrite <- Hl. eauto. }
  set (s := mkStale _ _).
  assert (Hhost : isHostStale s = true -> host_missing room t).
  { intros Hs. unfold s in Hs. cbn [isHostStale] in Hs. bool_to_prop.
    apply list_elem_of_fmap in Hs as ([v b] & Hv & [Hb Hin]%list_elem_of_filter). cbn in Hv, Hb. subst b v.
    exact (Hmiss flags _ eq_refl Hin). }
  rewrite app_nil_r. unfold handle_stale.
  assert (Hcalm : forall (p : LTask unit) l2, calm p -> (host_missing room t \/ lb_strikes l2 !! id = None) ->
    always Env p l2 (fun o l' t' => (id ∈ disbands (t ++ t') -> host_missing room (t ++ t') /\ is_Some (lb_strikes l !! id))
      /\ forall n, lb_strikes l' !! id = Some n -> host_missing room (t ++ t')
           \/ (lb_strikes l !! id = Some n /\ exists e, o = Throw e))).
  { intros p l2 Hp H2. eapply always_mono; [|apply Hp]. intros o l' t' [Hl' Ht'].
    rewrite disbands_app, Hd, Ht'. split; [by intros ?%elem_of_nil|]. intros n Hn. rewrite Hl' in Hn.
    destruct H2 as [H2|H2]; [|by rewrite H2 in Hn]. left. unfold host_missing. rewrite missing_app. apply elem_of_app. by left. }
  destruct (isHostStale s) eqn:Hs.
  - specialize (Hhost eq_refl). cbn [pbind pret]. case_bool_decide; [apply Hcalm; [apply calm_done|by left]|].
    destruct (bool_decide (ro_type (ar_room room) = PRIVATE)); cbn [andb].
    + assert (Happ : forall t', host_missing room (t ++ t')).
      { intros t'. unfold host_missing. rewrite missing_app. apply elem_of_app. by left. }
      destruct (lb_strikes l !! id) as [n|] eqn:Hn.
      * eapply always_mono; [|apply (runs_always Env)]. intros o l' t' _. split; [|by left].
        intros _. split; [done|by eexists].
      * unfold handleHostStalePrivateRoom, reads, act. cbn [pbind always fst snd pret]. fold id. rewrite Hl, Hn.
        change (default 0 None + 1 <? HOST_STALE_CONSECUTIVE_SWEEPS) with true. cbn. rewrite app_nil_r, Hd. split; [by intros Hx; apply elem_of_nil in Hx|by left].
    + destruct (is_lobby room); [apply Hcalm; [apply calm_lobby|by left]|].
      destruct (bool_decide (ro_status _ = _)); apply Hcalm; try apply calm_in_game; try apply calm_done. all: by left.
  - unfold set_strikes, writes, act. cbn [pbind always fst snd pret]. rewrite andb_false_r.
    assert (Hnone : lb_strikes { l1 with lb_strikes ::= delete id } !! id = None) by apply lookup_delete_eq.
    case_bool_decide; [apply Hcalm; [apply calm_done|by right]|].
    destruct (is_lobby room); [apply Hcalm; [apply calm_lobby|by right]|].
    destruct (bool_decide (ro_status _ = _)); apply Hcalm; try apply calm_in_game; try apply calm_done. all: by right.
Qed.

(** Sweeps of a room one after the other, each with its outcome and its trace;
    in between strikes may be dropped. *)
Definition SweepRecord : Type := (ActiveRoom * outcome exn unit * list LItem)%type.

Inductive swept (roomId : jstr) : Lobby -> list SweepRecord -> Lobby -> Prop :=
| swept_none l : swept roomId l [] l
| swept_more l ts l1 l2 room o t l3 :
    swept roomId l ts l1 ->
    (forall n, lb_strikes l2 !! roomId = Some n -> lb_strikes l1 !! roomId = Some n) ->
    ro_id (ar_room room) = roomId ->
    runs Env (sweepRoom room) l2 t o l3 -> swept roomId l (ts ++ [(room, o, t)]) l3.

(** The host was missing in one of the sweeps, and those after it could not
    tell. *)
Definition struck (ts : list SweepRecord) : Prop :=
  exists ts1 room o t ts2, ts = ts1 ++ (room, o, t) :: ts2 /\ host_missing room t
    /\ Forall (fun r => exists e, r.1.2 = Throw e) ts2.

Lemma struck_more ts r : struck ts -> (exists e, r.1.2 = Throw e) -> struck (ts ++ [r]).
Proof.
  intros (ts1 & room & o & t & ts2 & -> & Hm & Hf) He. exists ts1, room, o, t, (ts2 ++ [r]).
  rewrite <- app_assoc. split; [done|]. split; [done|]. by apply Forall_app_2; [|constructor].
Qed.

Lemma swept_strikes roomId l ts l' n :
  swept roomId l ts l' -> lb_strikes l !! roomId = None -> lb_strikes l' !! roomId = Some n -> struck ts.
Proof.
  intros Hs Hl. revert n. induction Hs as [l|l ts l1 l2 room o t l3 Hs IH Hb Hid Hr]; intros n Hn; [congruence|].
  destruct (always_runs _ _ _ _ _ _ _ (always_sweepRoom room l2) Hr) as [_ H]. rewrite Hid in H.
  destruct (H n Hn) as [Hm|[Hn2 He]].
  - exists ts, room, o, t, []. split_and!; [done|done|constructor].
  - apply struck_more; [|done]. eauto.
Qed.
End Strikes.

(** C20: two strikes before a room is disbanded.  Along any sequence of sweeps
    of a room by one process that has no strike against its host, a sweep that
    asks to disband the room found the host's presence key missing, and so did
    an earlier one, with none between them that found out about the host and
    left the strike. *)
Theorem disband_needs_two_strikes (Env : Lobby -> Lobby -> Prop) (room : ActiveRoom) (l l' : Lobby)
    (ts : list SweepRecord) (o : outcome exn unit) (t : list LItem) :
  (forall l l', Env l l' -> lb_strikes l' = lb_strikes l) ->
  lb_strikes l !! ro_id (ar_room room) = None ->
  swept Env (ro_id (ar_room room)) l (ts ++ [(room, o, t)]) l' ->
  ro_id (ar_room room) ∈ disbands t -> host_missing room t /\ struck ts.
Proof.
  intros Henv Hl Hs Hd. remember (ts ++ [(room, o, t)]) as all eqn:Hall.
  destruct Hs as [l|l ts0 l1 l2 room0 o0 t0 l3 Hs Hb Hid Hr]; [by destruct ts|].
  apply app_inj_tail in Hall as [-> [= -> -> ->]].
  destruct (always_runs _ _ _ _ _ _ _ (always_sweepRoom Env Henv room l2) Hr) as [H _].
  destruct (H Hd) as [Hm [n Hn]]. split; [done|]. eapply (swept_strikes Env Henv); eauto.
Qed.

(** ** Two sweeps *)

Definition demo_leader : LobbyRedis :=
  (exec_redis (KAcquireLease PRESENCE_LEADER_KEY (js "A:1") 15) demo_race.1.2).2.
Definition demo_active : list ActiveRoom := default [] (ok_value (exec_db DActiveRooms demo_race.1.1).1).


(** A private room of [u1]. *)
Definition demo_private : Tables * LobbyRedis :=
  (alone (create_with_code (js "ABC") (js "u1") PRIVATE None None None) demo_lobby (demo_users, no_redis)).2.
Definition private_room : ActiveRoom :=
  default (mkActiveRoom (new_room (js "r0") 0 (mkNewRoom [] PRIVATE (js "u1") 2 15 [])) [])
    (head (default [] (ok_value (exec_db DActiveRooms demo_private.1).1))).

Definition swept_once : outcome exn unit * Lobby := (drive lobby_answers (sweepRoom private_room) demo_lobby demo_private).1.1.
Definition first_trace : list LItem := traced lobby_answers (sweepRoom private_room) demo_lobby demo_private.
Definition second_trace : list LItem := traced lobby_answers (sweepRoom private_room) swept_once.2 demo_private.

Lemma disband_needs_two_strikes_witness :
  disbands first_trace = [] /\ disbands second_trace = [js "r0"]
  /\ host_missing private_room second_trace /\ struck [(private_room, swept_once.1, first_trace)].
Proof.
  split; [vm_compute; reflexivity|].
  assert (Hd : disbands second_trace = [js "r0"]) by (vm_compute; reflexivity). split; [exact Hd|].
  assert (Hid : ro_id (ar_room private_room) = js "r0") by (vm_compute; reflexivity).
  eapply (disband_needs_two_strikes eq private_room demo_lobby _ [(private_room, swept_once.1, first_trace)]).
  - intros l l' E. exact (eq_ind l (fun x => lb_strikes x = lb_strikes l) eq_refl l' E).
  - apply lookup_empty.
  - eapply swept_more; [|intros n Hn; exact Hn|reflexivity|].
    + apply (swept_more eq _ demo_lobby [] demo_lobby demo_lobby private_room swept_once.1 first_trace swept_once.2);
        [constructor|intros n Hn; exact Hn|reflexivity|].
      apply (traced_runs lobby_answers eq).
    + apply (traced_runs lobby_answers eq (sweepRoom private_room) swept_once.2 demo_private).
  - rewrite Hid. fold second_trace. rewrite Hd. left.
Defined.
