(* ===== verification/Calendar.v ===== *)
(** * Calendar days of [Date]

    The UTC calendar of ECMAScript's [Date], which counts milliseconds since
    1970, and the day keys built on it: [calendar-date.ts] and the date helpers
    of [daily.service.ts]. *)

From S2P Require Import Prelude JsData Effects Shared Decimal.
#[local] Open Scope Z_scope.

(** ** The calendar of the language *)

Definition MS_PER_DAY : Z := 24 * 60 * 60 * 1000.

(** [Day(t)], [DayFromYear(y)], [InLeapYear]. *)
Definition day_of (t : Z) : Z := t / MS_PER_DAY.
Definition year_start (y : Z) : Z :=
  365 * (y - 1970) + (y - 1969) / 4 - (y - 1901) / 100 + (y - 1601) / 400.
Definition leap (y : Z) : bool :=
  (y mod 4 =? 0) && (negb (y mod 100 =? 0) || (y mod 400 =? 0)).
Definition year_length (y : Z) : Z := if leap y then 366 else 365.

(** The lengths of the months. *)
Definition month_lengths (is_leap : bool) : list Z :=
  [31; if is_leap then 29 else 28; 31; 30; 31; 30; 31; 31; 30; 31; 30; 31].
(** Days before the month number [m], from 0. *)
Definition month_start (is_leap : bool) (m : Z) : Z := Zsum (take (Z.to_nat m) (month_lengths is_leap)).

(** [YearFromTime]: the year of a day; the estimate is off by one at most. *)
Definition year_of (day : Z) : Z :=
  let y := 1970 + day * 400 / 146097 in
  if day <? year_start y then y - 1 else if year_start (y + 1) <=? day then y + 1 else y.

(** The month, from 0, and the day of the month, from 0, of a day of the year. *)
Fixpoint month_from (lengths : list Z) (n : Z) : Z * Z :=
  match lengths with
  | [] => (0, n)
  | len :: lengths' => if n <? len then (0, n) else let '(m, d) := month_from lengths' (n - len) in (m + 1, d)
  end.

(** [getUTCFullYear], [getUTCMonth() + 1] and [getUTCDate]. *)
Record Civil := mkCivil { cv_year : Z; cv_month : Z; cv_date : Z }.

#[export] Instance Civil_eq : EqDecision Civil.
Proof. solve_decision. Defined.

Definition civil_of_day (day : Z) : Civil :=
  let y := year_of day in
  let '(m, d) := month_from (month_lengths (leap y)) (day - year_start y) in
  mkCivil y (m + 1) (d + 1).

(** [MakeDay]: a month or a date out of range rolls over. *)
Definition make_day (year month0 date : Z) : Z :=
  let y := year + month0 / 12 in
  year_start y + month_start (leap y) (month0 mod 12) + (date - 1).

(** [Date.UTC(year, month0, date)]: years 0 to 99 are 1900 to 1999. *)
Definition date_utc (year month0 date : Z) : Z :=
  make_day (if (0 <=? year) && (year <=? 99) then 1900 + year else year) month0 date * MS_PER_DAY.

(** ** Day keys *)

Definition digit (n : Z) : Z := 48 + n mod 10.
Definition pad2 (n : Z) : jstr := [digit (n / 10); digit n].
Definition pad4 (n : Z) : jstr := pad2 (n / 100) ++ pad2 n.

(** The date part of [toISOString]: years outside 0 to 9999 have a sign and six
    digits. *)
Definition iso_date (c : Civil) : jstr :=
  (if (0 <=? cv_year c) && (cv_year c <=? 9999) then pad4 (cv_year c)
   else (if cv_year c <? 0 then js "-" else js "+")
          ++ pad2 (Z.abs (cv_year c) / 10000) ++ pad4 (Z.abs (cv_year c)))
  ++ js "-" ++ pad2 (cv_month c) ++ js "-" ++ pad2 (cv_date c).

(** [at.toISOString().slice(0, 10)] *)
Definition toDateKey (at_ : Z) : jstr := take 10 (iso_date (civil_of_day (day_of at_))).

Definition nextResetAt (at_ : Z) : Z :=
  let c := civil_of_day (day_of at_) in
  let startOfToday := date_utc (cv_year c) (cv_month c - 1) (cv_date c) in
  startOfToday + MS_PER_DAY.

(** [DATE_KEY_PATTERN], and the numbers of the parts. *)
Definition date_parts (value : jstr) : option Civil :=
  match value with
  | [y1; y2; y3; y4; s1; m1; m2; s2; d1; d2] =>
      if all_digits [y1; y2; y3; y4; m1; m2; d1; d2] && (s1 =? 45) && (s2 =? 45)
      then Some (mkCivil (dec_value 0 [y1; y2; y3; y4]) (dec_value 0 [m1; m2]) (dec_value 0 [d1; d2]))
      else None
  | _ => None
  end.

(** On strings of the shape [DATE_KEY_PATTERN]. *)
Definition isRealUtcDate (value : jstr) : bool :=
  match date_parts value with
  | Some c =>
      let parsed := civil_of_day (day_of (date_utc (cv_year c) (cv_month c - 1) (cv_date c))) in
      (cv_year parsed =? cv_year c) && (cv_month parsed - 1 =? cv_month c - 1)
      && (cv_date parsed =? cv_date c)
  | None => false
  end.

(** [Date.parse(`${key}T00:00:00.000Z`)] of a day of the calendar. *)
Definition date_parse (key : jstr) : option Z :=
  c ← date_parts key;
  let day := make_day (cv_year c) (cv_month c - 1) (cv_date c) in
  if decide (civil_of_day day = c) then Some (day * MS_PER_DAY) else None.

Definition previousDateKey (dateKey : jstr) : outcome exn jstr :=
  match date_parse dateKey with
  | Some parsed => Ok (toDateKey (parsed - MS_PER_DAY))
  | None => Throw (JsError "Invalid time value")
  end.

(** ** The calendar is a bijection between days and dates *)

Definition valid_civil (c : Civil) : Prop :=
  1 <= cv_month c <= 12
  /\ 1 <= cv_date c <= default 0 (month_lengths (leap (cv_year c)) !! Z.to_nat (cv_month c - 1)).

Lemma leap_div y : year_start (y + 1) = year_start y + year_length y.
Proof.
  unfold year_start, year_length, leap.
  destruct (y mod 4 =? 0) eqn:E4, (y mod 100 =? 0) eqn:E100, (y mod 400 =? 0) eqn:E400; cbn;
    bool_to_prop; Z.to_euclidean_division_equations; lia.
Qed.

Lemma year_length_pos y : 365 <= year_length y <= 366.
Proof. unfold year_length. destruct (leap y); lia. Qed.

Lemma year_start_mono y y' : y < y' -> year_start y + year_length y <= year_start y'.
Proof.
  intros H. assert (Hn : exists n : nat, y' = y + 1 + Z.of_nat n) by (exists (Z.to_nat (y' - y - 1)); lia).
  destruct Hn as [n ->]. clear H. induction n as [|n IH].
  - rewrite Z.add_0_r, leap_div. lia.
  - replace (y + 1 + Z.of_nat (S n)) with (y + 1 + Z.of_nat n + 1) by lia.
    rewrite (leap_div (y + 1 + Z.of_nat n)). pose proof (year_length_pos (y + 1 + Z.of_nat n)). lia.
Qed.

Lemma year_of_spec day : year_start (year_of day) <= day < year_start (year_of day + 1).
Proof.
  unfold year_of. set (y := 1970 + day * 400 / 146097).
  assert (year_start (y - 1) <= day < year_start (y + 1 + 1)).
  { unfold year_start, y. Z.to_euclidean_division_equations; lia. }
  destruct (day <? _) eqn:E1; [|destruct (_ <=? day) eqn:E2]; bool_to_prop; [|lia..].
  replace (y - 1 + 1) with y by lia. lia.
Qed.

Lemma year_of_unique day y : year_start y <= day < year_start (y + 1) -> year_of day = y.
Proof.
  intros H. pose proof (year_of_spec day) as H'. rewrite leap_div in H, H'.
  destruct (Z.lt_trichotomy (year_of day) y) as [Hl|[->|Hl]]; [|done|];
    apply year_start_mono in Hl; lia.
Qed.

(** Every day of a year, by computation. *)
Definition day_ok (is_leap : bool) (n : Z) : bool :=
  let '(m, d) := month_from (month_lengths is_leap) n in
  (0 <=? m) && (m <? 12) && (0 <=? d)
  && (d <? default 0 (month_lengths is_leap !! Z.to_nat m)) && (month_start is_leap m + d =? n).
Definition date_ok (is_leap : bool) (m d : Z) : bool :=
  bool_decide (month_from (month_lengths is_leap) (month_start is_leap m + d) = (m, d)).

Lemma days_ok (is_leap : bool) n : 0 <= n < (if is_leap then 366 else 365) -> day_ok is_leap n = true.
Proof.
  intros Hn. assert (Hall : forallb (day_ok is_leap) (Z.of_nat <$> seq 0 (if is_leap then 366 else 365)) = true)
    by (destruct is_leap; vm_compute; reflexivity).
  rewrite forallb_forall in Hall. apply Hall, list_elem_of_In, list_elem_of_fmap.
  exists (Z.to_nat n). split; [lia|]. apply elem_of_seq. destruct is_leap; lia.
Qed.

Lemma dates_ok is_leap m d :
  0 <= m < 12 -> 0 <= d < default 0 (month_lengths is_leap !! Z.to_nat m) -> date_ok is_leap m d = true.
Proof.
  intros Hm Hd.
  assert (Hall : forallb (fun m => forallb (fun d => date_ok is_leap (Z.of_nat m) (Z.of_nat d))
      (seq 0 (Z.to_nat (default 0 (month_lengths is_leap !! m))))) (seq 0 12) = true)
    by (destruct is_leap; vm_compute; reflexivity).
  rewrite forallb_forall in Hall. specialize (Hall (Z.to_nat m)). rewrite forallb_forall in Hall.
  rewrite <- (Z2Nat.id m), <- (Z2Nat.id d) by lia. apply Hall.
  - apply in_seq. lia.
  - apply in_seq. lia.
Qed.

Lemma month_start_bound (is_leap : bool) m d :
  0 <= m < 12 -> 0 <= d < default 0 (month_lengths is_leap !! Z.to_nat m) ->
  0 <= month_start is_leap m + d < (if is_leap then 366 else 365).
Proof.
  intros Hm Hd.
  assert (Hall : forallb (fun m => (0 <=? month_start is_leap (Z.of_nat m))
     && (month_start is_leap (Z.of_nat m) + default 0 (month_lengths is_leap !! m)
         <=? if is_leap then 366 else 365)) (seq 0 12) = true) by (destruct is_leap; vm_compute; reflexivity).
  rewrite forallb_forall in Hall. specialize (Hall (Z.to_nat m)). rewrite Z2Nat.id in Hall by lia.
  assert (Hin : In (Z.to_nat m) (seq 0 12)) by (apply in_seq; lia). specialize (Hall Hin). bool_to_prop. lia.
Qed.

Lemma civil_of_day_valid day : valid_civil (civil_of_day day).
Proof.
  unfold civil_of_day, valid_civil. pose proof (year_of_spec day) as Hy. rewrite leap_div in Hy.
  pose proof (days_ok (leap (year_of day)) (day - year_start (year_of day))) as Hd.
  unfold year_length in Hy. unfold day_ok in Hd. destruct (month_from _ _) as [m d]. cbn.
  replace (m + 1 - 1) with m by lia.
  destruct (leap (year_of day)); (specialize (Hd ltac:(lia)); bool_to_prop; lia).
Qed.

Lemma make_day_civil day :
  make_day (cv_year (civil_of_day day)) (cv_month (civil_of_day day) - 1) (cv_date (civil_of_day day)) = day.
Proof.
  unfold civil_of_day, make_day. pose proof (year_of_spec day) as Hy. rewrite leap_div in Hy.
  pose proof (days_ok (leap (year_of day)) (day - year_start (year_of day))) as Hd.
  unfold year_length in Hy. unfold day_ok in Hd. destruct (month_from _ _) as [m d]. cbn.
  assert (Hr : 0 <= m < 12 /\ month_start (leap (year_of day)) m + d = day - year_start (year_of day))
    by (destruct (leap (year_of day)); (specialize (Hd ltac:(lia)); bool_to_prop; lia)).
  replace (m + 1 - 1) with m by lia. rewrite Z.div_small, Z.mod_small, Z.add_0_r by lia. lia.
Qed.

Lemma civil_make_day c :
  valid_civil c -> civil_of_day (make_day (cv_year c) (cv_month c - 1) (cv_date c)) = c.
Proof.
  destruct c as [y m d]. unfold valid_civil. cbn. intros [Hm Hd]. unfold make_day.
  rewrite Z.div_small, Z.mod_small, Z.add_0_r by lia. unfold civil_of_day.
  pose proof (month_start_bound (leap y) (m - 1) (d - 1) ltac:(lia) ltac:(lia)) as Hb.
  assert (Hy : year_of (year_start y + month_start (leap y) (m - 1) + (d - 1)) = y).
  { apply year_of_unique. rewrite leap_div. unfold year_length. destruct (leap y); lia. }
  rewrite Hy. replace (year_start y + month_start (leap y) (m - 1) + (d - 1) - year_start y)
    with (month_start (leap y) (m - 1) + (d - 1)) by lia.
  pose proof (dates_ok (leap y) (m - 1) (d - 1) ltac:(lia) ltac:(lia)) as Hk. unfold date_ok in Hk.
  apply bool_decide_eq_true in Hk. rewrite Hk. f_equal; lia.
Qed.

Lemma civil_of_day_inj d d' : civil_of_day d = civil_of_day d' -> d = d'.
Proof. intros H. rewrite <- (make_day_civil d), <- (make_day_civil d'). by rewrite H. Qed.

(** ** Keys are read back *)

(** Days of the years 0 to 9999. *)
Definition four_digit_year (day : Z) : Prop := 0 <= cv_year (civil_of_day day) <= 9999.

Lemma digit_is n : is_digit (digit n) = true.
Proof. unfold is_digit, digit. pose proof (Z.mod_pos_bound n 10). apply andb_true_iff. rewrite !Z.leb_le. lia. Qed.

Lemma dec_pad2 acc n : 0 <= n <= 99 -> dec_value acc (pad2 n) = 100 * acc + n.
Proof. intros H. unfold pad2, digit, dec_value. cbn. Z.to_euclidean_division_equations; lia. Qed.

Lemma dec_pad4 n : 0 <= n <= 9999 -> dec_value 0 (pad4 n) = n.
Proof.
  intros H. unfold pad4. assert (0 <= n / 100 <= 99) by (Z.to_euclidean_division_equations; lia).
  rewrite dec_value_app, (dec_pad2 0) by done.
  unfold pad2, digit, dec_value. cbn [foldl]. Z.to_euclidean_division_equations; lia.
Qed.

Lemma month_length_bound (is_leap : bool) m : default 0 (month_lengths is_leap !! m) <= 31.
Proof.
  destruct (month_lengths is_leap !! m) as [n|] eqn:E; cbn; [|lia].
  assert (Hall : Forall (fun n => n <= 31) (month_lengths is_leap))
    by (destruct is_leap; repeat constructor; lia).
  rewrite Forall_lookup in Hall. by eapply Hall.
Qed.

Lemma key_parts day :
  four_digit_year day -> date_parts (take 10 (iso_date (civil_of_day day))) = Some (civil_of_day day).
Proof.
  intros Hy. unfold four_digit_year in Hy. pose proof (civil_of_day_valid day) as [Hm Hd].
  set (c := civil_of_day day) in *. clearbody c. destruct c as [y m d]. cbn in *.
  pose proof (month_length_bound (leap y) (Z.to_nat (m - 1))) as Hb.
  unfold iso_date. cbn [cv_year cv_month cv_date].
  rewrite (proj2 (Z.leb_le 0 y)), (proj2 (Z.leb_le y 9999)) by lia. cbn [andb].
  unfold pad4, pad2 at 1 2 3 4. cbn [app js take date_parts]. unfold all_digits. cbn [forallb].
  rewrite !digit_is. cbn [andb]. cbn -[dec_value digit].
  pose proof (dec_pad4 y ltac:(lia)) as H4. pose proof (dec_pad2 0 m ltac:(lia)) as Hm2.
  pose proof (dec_pad2 0 d ltac:(lia)) as Hd2. unfold pad4, pad2 in H4, Hm2, Hd2. cbn [app] in H4.
  rewrite H4, Hm2, Hd2. done.
Qed.

Lemma date_parse_key t :
  four_digit_year (day_of t) -> date_parse (toDateKey t) = Some (day_of t * MS_PER_DAY).
Proof.
  intros H. unfold date_parse, toDateKey. rewrite key_parts by done. cbn. rewrite make_day_civil.
  by rewrite decide_True.
Qed.

Lemma toDateKey_inj t t' :
  four_digit_year (day_of t) -> four_digit_year (day_of t') -> toDateKey t = toDateKey t' -> day_of t = day_of t'.
Proof.
  intros H H' Hk. pose proof (key_parts _ H) as K. pose proof (key_parts _ H') as K'.
  unfold toDateKey in Hk. rewrite Hk, K' in K. injection K as K. by apply civil_of_day_inj.
Qed.

Lemma day_of_mul day : day_of (day * MS_PER_DAY) = day.
Proof. unfold day_of, MS_PER_DAY. apply Z.div_mul. lia. Qed.

Lemma day_of_previous t : day_of (t - MS_PER_DAY) = day_of t - 1.
Proof. unfold day_of, MS_PER_DAY. Z.to_euclidean_division_equations; lia. Qed.

Lemma previous_key t :
  four_digit_year (day_of t) -> previousDateKey (toDateKey t) = Ok (toDateKey (t - MS_PER_DAY)).
Proof.
  intros H. unfold previousDateKey. rewrite date_parse_key by done.
  unfold toDateKey. by rewrite !day_of_previous, day_of_mul.
Qed.

Lemma next_reset t : 99 < cv_year (civil_of_day (day_of t)) -> nextResetAt t = (day_of t + 1) * MS_PER_DAY.
Proof.
  intros H. unfold nextResetAt, date_utc. rewrite (proj2 (Z.leb_gt _ 99)) by done. rewrite andb_false_r.
  rewrite make_day_civil. lia.
Qed.

Lemma key_iff_day t t' :
  four_digit_year (day_of t) -> four_digit_year (day_of t') ->
  toDateKey t = toDateKey t' <-> day_of t = day_of t'.
Proof. intros H H'. split; [by apply toDateKey_inj|]. unfold toDateKey. by intros ->. Qed.

(** Instants of the years 100 to 9999. *)
Definition ordinary (t : Z) : Prop := 100 <= cv_year (civil_of_day (day_of t)) <= 9999.

(** C99: the day keys of the daily challenge are the days of the UTC calendar.
    For any two instants of the years 100 to 9999: they have the same key
    exactly when they lie in the same day of 24 hours; the key before the key
    of an instant is the key of the instant one day earlier, across months,
    years and leap days; the next reset is later than the instant by at most a
    day, everything from the instant until the reset has its key, and the key
    of the reset comes right after it. *)
Theorem day_keys (t t' : Z) :
  ordinary t -> four_digit_year (day_of t') ->
  (toDateKey t = toDateKey t' <-> day_of t = day_of t')
  /\ previousDateKey (toDateKey t) = Ok (toDateKey (t - MS_PER_DAY))
  /\ t < nextResetAt t <= t + MS_PER_DAY
  /\ (t <= t' < nextResetAt t -> toDateKey t' = toDateKey t)
  /\ (t' = nextResetAt t ->
      previousDateKey (toDateKey t') = Ok (toDateKey t) /\ toDateKey t' <> toDateKey t).
Proof.
  unfold ordinary. intros Hy Hy'. assert (Hf : four_digit_year (day_of t)) by (unfold four_digit_year; lia).
  rewrite next_reset by lia. split_and!.
  - by apply key_iff_day.
  - by apply previous_key.
  - unfold day_of, MS_PER_DAY. Z.to_euclidean_division_equations; lia.
  - unfold day_of, MS_PER_DAY. Z.to_euclidean_division_equations; lia.
  - intros Ht. apply key_iff_day; [done..|]. revert Ht. unfold day_of, MS_PER_DAY.
    Z.to_euclidean_division_equations; lia.
  - intros ->. rewrite previous_key by done. rewrite (key_iff_day _ t) by done. split.
    + f_equal. unfold toDateKey. rewrite day_of_previous, day_of_mul. do 3 f_equal. lia.
    + rewrite day_of_mul. lia.
Qed.

Definition leap_day : Z := 1709164800000 + 5.

(** The day after 2024-02-28 is the 29th. *)
Theorem day_keys_witness :
  toDateKey leap_day = js "2024-02-29"
  /\ previousDateKey (js "2024-02-29") = Ok (js "2024-02-28")
  /\ previousDateKey (toDateKey leap_day) = Ok (toDateKey (leap_day - MS_PER_DAY)).
Proof.
  split; [by_compute|]. split; [by_compute|].
  apply (day_keys leap_day leap_day); [split; vm_compute; discriminate|split; vm_compute; discriminate].
Defined.

(** ** Which strings are days *)

Lemma digit_back c : is_digit c = true -> digit (c - 48) = c /\ 0 <= c - 48 <= 9.
Proof.
  unfold is_digit, digit. intros [?%Z.leb_le ?%Z.leb_le]%andb_true_iff.
  rewrite Z.mod_small by lia. lia.
Qed.

Lemma pad2_back a b : is_digit a = true -> is_digit b = true -> pad2 (dec_value 0 [a; b]) = [a; b].
Proof.
  intros [Ha1 Ha2]%digit_back [Hb1 Hb2]%digit_back. unfold pad2, dec_value. cbn [foldl].
  assert (E : (10 * (10 * 0 + (a - 48)) + (b - 48)) / 10 = a - 48) by (Z.to_euclidean_division_equations; lia).
  rewrite E, Ha1. unfold digit. repeat f_equal. Z.to_euclidean_division_equations; lia.
Qed.

Lemma dec2_bounds a b : is_digit a = true -> is_digit b = true -> 0 <= dec_value 0 [a; b] <= 99.
Proof. intros [_ Ha]%digit_back [_ Hb]%digit_back. unfold dec_value. cbn [foldl]. lia. Qed.

Lemma dec4_split a b c d :
  dec_value 0 [a; b; c; d] = 100 * dec_value 0 [a; b] + dec_value 0 [c; d].
Proof. unfold dec_value. cbn [foldl]. lia. Qed.

Lemma pad4_back a b c d :
  is_digit a = true -> is_digit b = true -> is_digit c = true -> is_digit d = true ->
  pad4 (dec_value 0 [a; b; c; d]) = [a; b; c; d] /\ 0 <= dec_value 0 [a; b; c; d] <= 9999.
Proof.
  intros Ha Hb Hc Hd. rewrite dec4_split.
  pose proof (dec2_bounds a b Ha Hb) as H1. pose proof (dec2_bounds c d Hc Hd) as H2. split; [|lia].
  pose proof (pad2_back a b Ha Hb) as P1. pose proof (pad2_back c d Hc Hd) as P2.
  revert H1 H2 P1 P2. generalize (dec_value 0 [a; b]) (dec_value 0 [c; d]). intros x y H1 H2 P1 P2.
  unfold pad4. assert (E : (100 * x + y) / 100 = x) by (Z.to_euclidean_division_equations; lia).
  assert (E2 : pad2 (100 * x + y) = pad2 y).
  { unfold pad2, digit. f_equal; [|f_equal]; Z.to_euclidean_division_equations; lia. }
  by rewrite E, P1, E2, P2.
Qed.

(** The shape and the numbers determine the string. *)
Lemma date_parts_spec value c :
  date_parts value = Some c ->
  0 <= cv_year c <= 9999
  /\ value = pad4 (cv_year c) ++ js "-" ++ pad2 (cv_month c) ++ js "-" ++ pad2 (cv_date c).
Proof.
  unfold date_parts. do 10 (destruct value as [|? value]; [done|]). destruct value; [|done].
  destruct (_ && _ && _)%bool eqn:E; [|done]. intros <-%(inj Some). cbn [cv_year cv_month cv_date].
  unfold all_digits in E. cbn [forallb] in E. bool_to_prop. subst.
  destruct (pad4_back z z0 z1 z2) as [P4 B4]; [done..|]. split; [done|]. by rewrite P4, !pad2_back.
Qed.

Lemma make_day_year y m0 d : 0 <= m0 <= 11 -> 1 <= d <= 31 -> year_start y <= make_day y m0 d.
Proof.
  intros Hm Hd. unfold make_day. rewrite Z.div_small, Z.mod_small, Z.add_0_r by lia.
  assert (Hall : forallb (fun m => (0 <=? month_start true (Z.of_nat m)) && (0 <=? month_start false (Z.of_nat m)))
     (seq 0 12) = true) by by_compute.
  rewrite forallb_forall in Hall. specialize (Hall (Z.to_nat m0)). rewrite Z2Nat.id in Hall by lia.
  assert (Hin : In (Z.to_nat m0) (seq 0 12)) by (apply in_seq; lia). specialize (Hall Hin). bool_to_prop.
  destruct (leap y); lia.
Qed.

Lemma short_year_not_real c :
  0 <= cv_year c <= 99 -> civil_of_day (make_day (1900 + cv_year c) (cv_month c - 1) (cv_date c)) <> c.
Proof.
  intros Hy Hc. assert (Hv : valid_civil c) by (rewrite <- Hc; apply civil_of_day_valid).
  pose proof (civil_make_day c Hv) as Hm. pose proof (eq_trans Hc (eq_sym Hm)) as He%civil_of_day_inj.
  destruct Hv as [Hm12 Hd]. pose proof (month_length_bound (leap (cv_year c)) (Z.to_nat (cv_month c - 1))).
  pose proof (make_day_year (1900 + cv_year c) (cv_month c - 1) (cv_date c) ltac:(lia) ltac:(lia)) as H1.
  pose proof (year_of_spec (make_day (cv_year c) (cv_month c - 1) (cv_date c))) as H2.
  assert (Hyr : year_of (make_day (cv_year c) (cv_month c - 1) (cv_date c)) = cv_year c).
  { transitivity (cv_year (civil_of_day (make_day (cv_year c) (cv_month c - 1) (cv_date c)))); [|by rewrite Hm].
    unfold civil_of_day. by destruct (month_from _ _). }
  rewrite Hyr in H2. pose proof (year_start_mono (cv_year c) (1900 + cv_year c) ltac:(lia)).
  rewrite leap_div in H2. lia.
Qed.

Lemma iso_of_civil c :
  0 <= cv_year c <= 9999 ->
  take 10 (iso_date c) = pad4 (cv_year c) ++ js "-" ++ pad2 (cv_month c) ++ js "-" ++ pad2 (cv_date c).
Proof.
  intros H. unfold iso_date. by rewrite (proj2 (Z.leb_le 0 _)), (proj2 (Z.leb_le _ 9999)) by lia.
Qed.

(** [isRealUtcDate] accepts exactly the keys of days.  A string is accepted
    when and only when it is the day key of some instant of the years 100 to
    9999: no 30 February, no month 13, no other spelling of a day is a date; a
    date of the years 0 to 99 is not accepted, because Date.UTC takes such a
    year for one of the twentieth century. *)
Theorem real_dates_are_day_keys (value : jstr) :
  isRealUtcDate value = true
  <-> exists t, value = toDateKey t /\ ordinary t.
Proof.
  unfold isRealUtcDate, ordinary. split.
  - destruct (date_parts value) as [c|] eqn:Hp; [|done]. apply date_parts_spec in Hp as [Hy ->].
    intros H. assert (Hc : civil_of_day (day_of (date_utc (cv_year c) (cv_month c - 1) (cv_date c))) = c).
    { bool_to_prop. destruct c as [y m d], (civil_of_day _) as [y' m' d']; cbn in *. f_equal; lia. }
    unfold date_utc in Hc. rewrite day_of_mul in Hc. destruct ((0 <=? cv_year c) && (cv_year c <=? 99)) eqn:E.
    + apply short_year_not_real in Hc; [done|]. bool_to_prop. lia.
    + apply andb_false_iff in E. rewrite !Z.leb_gt in E.
      exists (make_day (cv_year c) (cv_month c - 1) (cv_date c) * MS_PER_DAY).
      rewrite day_of_mul, Hc. split; [|lia]. unfold toDateKey. by rewrite day_of_mul, Hc, iso_of_civil.
  - intros (t & -> & Hy). unfold toDateKey. rewrite key_parts by (unfold four_digit_year; lia).
    unfold date_utc. rewrite (proj2 (Z.leb_gt _ 99)) by lia. rewrite andb_false_r, day_of_mul, make_day_civil.
    by rewrite !Z.eqb_refl.
Qed.
