(* ===== verification/Tokens.v ===== *)
(** * Tokens of [auth.service.ts]

    Access tokens and session tokens of the daily challenge are JSON web tokens
    signed with the same secret.  The library that signs them is an interface,
    [Jwt] with the laws [JwtLaws]; [plain_jwt] is an instance. *)

From stdpp Require Import countable.
From S2P Require Import Prelude JsData Effects Shared Decimal.
#[local] Open Scope Z_scope.

(** ** The library *)

(** A value of a decoded payload; [COther]: a boolean, an array, an object. *)
Inductive claim :=
| CStr (s : jstr)
| CNum (n : Z)
| CNull
| COther.

#[export] Instance claim_eq : EqDecision claim.
Proof. solve_decision. Defined.

Abbreviation Claims := (JsMap jstr claim).

(** [jwt_sign payload expiresIn now]: [expiresIn] in seconds, the clock in
    milliseconds.  [jwt_verify] gives the payload, [None] when it throws. *)
Class Jwt := {
  jwt_sign : Claims -> Z -> Z -> jstr;
  jwt_verify : jstr -> Z -> option Claims;
}.

(** A payload with the claims that [jwt_sign] adds, [iat] and [exp]. *)
Definition stamped (payload : Claims) (expiresIn now : Z) : Claims :=
  payload ++ [(js "iat", CNum (now / 1000)); (js "exp", CNum (now / 1000 + expiresIn))].

Definition unstamped (payload : Claims) : Prop :=
  map_get (js "iat") payload = None /\ map_get (js "exp") payload = None.

Class JwtLaws `{!Jwt} := {
  (** A token is good until it expires. *)
  verify_sign payload expiresIn now later :
    unstamped payload ->
    jwt_verify (jwt_sign payload expiresIn now) later
    = if later / 1000 <? now / 1000 + expiresIn then Some (stamped payload expiresIn now) else None;
  (** Nobody else knows the secret. *)
  verify_signed token later decoded :
    jwt_verify token later = Some decoded ->
    exists payload expiresIn now, token = jwt_sign payload expiresIn now;
}.

(** ** AuthService: signing and verifying *)

Inductive Role := GUEST | ADMIN.
#[export] Instance Role_eq : EqDecision Role.
Proof. solve_decision. Defined.

Definition role_str (r : Role) : jstr := match r with GUEST => js "GUEST" | ADMIN => js "ADMIN" end.

(** [role]: whatever the token says. *)
Record TokenPayload := mkTokenPayload {
  tp_userId : jstr;
  tp_username : jstr;
  tp_role : option claim;
}.

Definition ACCESS_TOKEN_TYP : jstr := js "access".
Definition DAILY_SESSION_TYP : jstr := js "daily-session".
Definition DAILY_SESSION_TTL_SECONDS : Z := 30 * 60.

Section Signing.
Context `{!Jwt}.

(** The claims of an access token, as [generateTokens] signs them. *)
Definition access_claims (userId username : jstr) (role : Role) : Claims :=
  [(js "userId", CStr userId); (js "username", CStr username); (js "role", CStr (role_str role));
   (js "typ", CStr ACCESS_TOKEN_TYP)].

Definition sign_access (accessTokenTtlSeconds : Z) (userId username : jstr) (role : Role) (now : Z) : jstr :=
  jwt_sign (access_claims userId username role) accessTokenTtlSeconds now.

Definition verifyToken (token : jstr) (now : Z) : outcome exn TokenPayload :=
  match jwt_verify token now with
  | None => Throw (HttpError 401 "Invalid or expired token")
  | Some decoded =>
      if decide (map_get (js "typ") decoded <> None
                 /\ map_get (js "typ") decoded <> Some (CStr ACCESS_TOKEN_TYP))
      then Throw (HttpError 401 "Not an access token")
      else
        match map_get (js "userId") decoded, map_get (js "username") decoded with
        | Some (CStr ((_ :: _) as userId)), Some (CStr username) =>
            Ok (mkTokenPayload userId username (map_get (js "role") decoded))
        | _, _ => Throw (HttpError 401 "Invalid token payload")
        end
  end.

(** The claims of [signDailySession]; [startedAtMs] is a number or null. *)
Record SessionClaims := mkSessionClaims {
  sc_sub : jstr;
  sc_dateKey : jstr;
  sc_dailyQuestionId : jstr;
  sc_startedAtMs : option Z;
}.

Definition session_payload (claims : SessionClaims) : Claims :=
  [(js "sub", CStr (sc_sub claims)); (js "dateKey", CStr (sc_dateKey claims));
   (js "dailyQuestionId", CStr (sc_dailyQuestionId claims));
   (js "startedAtMs", match sc_startedAtMs claims with Some n => CNum n | None => CNull end);
   (js "typ", CStr DAILY_SESSION_TYP)].

Definition signDailySession (claims : SessionClaims) (now : Z) : jstr :=
  jwt_sign (session_payload claims) DAILY_SESSION_TTL_SECONDS now.

(** What is returned is the decoded payload itself. *)
Definition verifyDailySession (token : jstr) (now : Z) : outcome exn Claims :=
  match jwt_verify token now with
  | None => Throw (HttpError 401 "Invalid or expired daily session token")
  | Some decoded =>
      if decide (map_get (js "typ") decoded <> Some (CStr DAILY_SESSION_TYP))
      then Throw (HttpError 401 "Not a daily session token")
      else
        match map_get (js "startedAtMs") decoded with
        | Some CNull | Some (CNum _) => Ok decoded
        | _ => Throw (HttpError 401 "Invalid daily session payload")
        end
  end.

(** ** What the two kinds of token are good for *)

Context `{!JwtLaws}.

Lemma sign_access_verify ttl userId username role now later :
  userId <> [] ->
  verifyToken (sign_access ttl userId username role now) later
  = if later / 1000 <? now / 1000 + ttl
    then Ok (mkTokenPayload userId username (Some (CStr (role_str role))))
    else Throw (HttpError 401 "Invalid or expired token").
Proof.
  intros Hu. unfold verifyToken, sign_access. rewrite verify_sign by done.
  destruct (_ <? _); [|done]. destruct userId as [|c u]; [done|].
  rewrite decide_False; [reflexivity|]. intros [_ Hn]. by apply Hn.
Qed.

Lemma session_get claims ttl now (k : jstr) (v : claim) :
  map_get k (session_payload claims) = Some v -> map_get k (stamped (session_payload claims) ttl now) = Some v.
Proof. unfold stamped. generalize (session_payload claims). intros m. induction m as [|[k' v'] m IH]; [done|]. cbn. by destruct (decide _). Qed.

Lemma sign_session_verify claims now later :
  verifyDailySession (signDailySession claims now) later
  = if later / 1000 <? now / 1000 + DAILY_SESSION_TTL_SECONDS
    then Ok (stamped (session_payload claims) DAILY_SESSION_TTL_SECONDS now)
    else Throw (HttpError 401 "Invalid or expired daily session token").
Proof.
  unfold verifyDailySession, signDailySession. rewrite verify_sign by done.
  destruct (_ <? _); [|done]. rewrite decide_False by (intros Hn; by apply Hn). cbn.
  by destruct (sc_startedAtMs claims).
Qed.

(** C35: the two kinds of token cannot stand in for each other, although they
    are signed with the same secret.  A session token of the daily challenge is
    never accepted as an access token and an access token never as a session
    token, whatever their claims and however early they are shown; each is
    accepted as what it is until its time is over, and then gives back exactly
    the identity or the session it was signed for. *)
Theorem token_families_apart (ttl : Z) (userId username : jstr) (role : Role) (claims : SessionClaims) (now later : Z) :
  userId <> [] ->
  (exists e, verifyToken (signDailySession claims now) later = Throw e)
  /\ (exists e, verifyDailySession (sign_access ttl userId username role now) later = Throw e)
  /\ verifyToken (sign_access ttl userId username role now) later
     = (if later / 1000 <? now / 1000 + ttl
        then Ok (mkTokenPayload userId username (Some (CStr (role_str role))))
        else Throw (HttpError 401 "Invalid or expired token"))
  /\ (if later / 1000 <? now / 1000 + DAILY_SESSION_TTL_SECONDS
      then exists decoded, verifyDailySession (signDailySession claims now) later = Ok decoded
             /\ map_get (js "sub") decoded = Some (CStr (sc_sub claims))
             /\ map_get (js "dateKey") decoded = Some (CStr (sc_dateKey claims))
             /\ map_get (js "dailyQuestionId") decoded = Some (CStr (sc_dailyQuestionId claims))
             /\ map_get (js "startedAtMs") decoded
                = Some (match sc_startedAtMs claims with Some n => CNum n | None => CNull end)
      else verifyDailySession (signDailySession claims now) later
           = Throw (HttpError 401 "Invalid or expired daily session token")).
Proof.
  intros Hu. split_and!.
  - unfold verifyToken, signDailySession. rewrite verify_sign by done.
    destruct (_ <? _); [|by eexists]. rewrite decide_True; [by eexists|]. by split.
  - unfold verifyDailySession, sign_access. rewrite verify_sign by done.
    destruct (_ <? _); [|by eexists]. rewrite decide_True; [by eexists|]. done.
  - by apply sign_access_verify.
  - rewrite sign_session_verify. destruct (_ <? _); [|done]. eexists. by split_and!.
Qed.
End Signing.

(** ** An instance: the token is its own text *)

Section Plain.
Definition claim_code (c : claim) : jstr + (Z + bool) :=
  match c with
  | CStr s => inl s
  | CNum n => inr (inl n)
  | CNull => inr (inr true)
  | COther => inr (inr false)
  end.
Definition claim_of_code (c : jstr + (Z + bool)) : claim :=
  match c with
  | inl s => CStr s
  | inr (inl n) => CNum n
  | inr (inr true) => CNull
  | inr (inr false) => COther
  end.
#[export] Instance claim_countable : Countable claim.
Proof. apply (inj_countable' claim_code claim_of_code). by intros []. Defined.

Definition token_code (payload : Claims) (expiresIn now : Z) : positive :=
  encode ((payload : list (jstr * claim)), expiresIn, now).

(** The bits of a number as text, the lowest first. *)
Fixpoint bits_text (p : positive) : jstr :=
  match p with
  | xH => []
  | xO p => 48 :: bits_text p
  | xI p => 49 :: bits_text p
  end.

Fixpoint text_bits (s : jstr) : option positive :=
  match s with
  | [] => Some xH
  | c :: s =>
      if c =? 48 then xO <$> text_bits s
      else if c =? 49 then xI <$> text_bits s
      else None
  end.

Lemma bits_back p : text_bits (bits_text p) = Some p.
Proof. by induction p as [p IH|p IH|]; cbn; rewrite ?IH. Qed.

Lemma text_bits_inv s p : text_bits s = Some p -> s = bits_text p.
Proof.
  revert p. induction s as [|c s IH]; intros p; cbn; [by intros [= <-]|].
  destruct (c =? 48) eqn:E0; [|destruct (c =? 49) eqn:E1; [|done]]; bool_to_prop;
    destruct (text_bits s) as [p'|]; try done; intros [= <-]; cbn; subst; by rewrite (IH p' eq_refl).
Qed.

#[export] Instance plain_jwt : Jwt := {
  jwt_sign payload expiresIn now := bits_text (token_code payload expiresIn now);
  jwt_verify token later :=
    match text_bits token with
    | Some p =>
        match (decode p : option (list (jstr * claim) * Z * Z)) with
        | Some (payload, expiresIn, now) =>
            if decide (token_code payload expiresIn now = p)
            then if later / 1000 <? now / 1000 + expiresIn then Some (stamped payload expiresIn now) else None
            else None
        | None => None
        end
    | None => None
    end;
}.

#[export] Instance plain_jwt_laws : JwtLaws.
Proof.
  split.
  - intros payload expiresIn now later _. unfold jwt_verify, jwt_sign, plain_jwt. rewrite bits_back. unfold token_code at 1. rewrite decode_encode.
    by rewrite decide_True.
  - intros token later decoded. unfold jwt_verify, jwt_sign, plain_jwt. destruct (text_bits token) as [p|] eqn:Ht; [|done].
    apply text_bits_inv in Ht as ->. destruct (decode p) as [[[payload expiresIn] now]|]; [|done].
    destruct (decide _) as [<-|]; [|done]. intros _. by exists payload, expiresIn, now.
Qed.
End Plain.

Theorem token_families_apart_witness :
  (js "u1" <> [])
  /\ verifyToken (sign_access 60 (js "u1") (js "ana") GUEST 5000) 6000
     = Ok (mkTokenPayload (js "u1") (js "ana") (Some (CStr (js "GUEST")))).
Proof.
  split; [done|].
  apply (token_families_apart 60 (js "u1") (js "ana") GUEST (mkSessionClaims (js "u1") [] [] None) 5000 6000).
  done.
Defined.
