(* ===== verification/Rely.v ===== *)
(** * Reasoning about programs that share a world

    Programs interleaved over one world.  A program is proved on its own: it
    carries a fact about the world that no request, of its own or of others,
    can break.  Whatever then holds of the world step by step holds of every
    interleaving, and what a program says may be said in the world in which it
    says it. *)

From S2P Require Import Prelude JsData Effects Shared Async Pool.
#[local] Open Scope Z_scope.

Section Rely.
Context {W O E : Type} {Q : Type -> Type}.
Context (answer : forall X, Q X -> E -> outcome exn X -> E -> Prop).
(** The invariant of the world. *)
Context (I : E -> Prop).
(** The requests that are made at all, the replies there are, and what may be
    said in which world. *)
Context (ok : forall X, Q X -> Prop) (sane : forall X, Q X -> outcome exn X -> Prop) (OK : O -> E -> Prop).

(** A fact that every request keeps. *)
Definition steady_fact (K : E -> Prop) : Prop :=
  forall X (q : Q X) e r e', ok X q -> I e -> K e -> answer X q e r e' -> K e'.

(** [secure K p Post]: [p], which knows [K], keeps the invariant with every
    request it makes, and ends with [Post] of its outcome and what it knows. *)
Fixpoint secure {R} (K : E -> Prop) (p : Prog W O Q R) (Post : outcome exn R -> (E -> Prop) -> Prop) : Prop :=
  match p with
  | Done o => Post o K
  | Act f k => forall x, secure K (k x) Post
  | Say x k => (forall e, I e -> K e -> OK x e) /\ secure K k Post
  | Await q k =>
      ok _ q /\
      forall r, sane _ q r -> exists K',
        (forall e e', I e -> K e -> answer _ q e r e' -> I e' /\ K' e')
        /\ steady_fact K' /\ secure K' (k r) Post
  end.

Lemma secure_mono {R} K (p : Prog W O Q R) (Post Post' : outcome exn R -> (E -> Prop) -> Prop) :
  (forall o K, Post o K -> Post' o K) -> secure K p Post -> secure K p Post'.
Proof.
  intros HP. revert K. induction p as [o|X f k IH|x k IH|X q k IH]; intros K; cbn.
  - apply HP.
  - intros H x. by apply IH.
  - intros [Hx H]. split; [done|by apply IH].
  - intros [Hq H]. split; [done|]. intros r Hr. destruct (H r Hr) as (K' & H1 & H2 & H3).
    exists K'. split_and!; [done|done|by apply IH].
Qed.

(** What is proved without knowledge holds with it. *)
Lemma secure_forget {R} K (p : Prog W O Q R) (P : outcome exn R -> Prop) :
  secure (fun _ => True) p (fun o _ => P o) -> secure K p (fun o _ => P o).
Proof.
  induction p as [o|X f k IH|x k IH|X q k _]; cbn; [done|..].
  - intros H x. by apply IH.
  - intros [Hx H]. split; [by intros e HI _; apply Hx|by apply IH].
  - intros [Hq H]. split; [done|]. intros r Hr. destruct (H r Hr) as (K' & H1 & H2). exists K'. split; [|done].
    intros e e' HI _. by apply H1.
Qed.

Lemma secure_bind {A B} K (p : Prog W O Q A) (k : A -> Prog W O Q B) Post :
  secure K p (fun o K' => match o with Ok a => secure K' (k a) Post | Throw e => Post (Throw e) K' end) ->
  secure K (pbind p k) Post.
Proof.
  revert K. induction p as [[a|e]|X f c IH|x c IH|X q c IH]; intros K; cbn; try done.
  - intros H x. by apply IH.
  - intros [Hx H]. split; [done|by apply IH].
  - intros [Hq H]. split; [done|]. intros r Hr. destruct (H r Hr) as (K' & H1 & H2 & H3).
    exists K'. split_and!; [done|done|by apply IH].
Qed.

Lemma secure_attempt {A} K (p : Prog W O Q A) Post :
  secure K p (fun o K' => Post (Ok o) K') -> secure K (attempt p) Post.
Proof.
  revert K. induction p as [o|X f c IH|x c IH|X q c IH]; intros K; cbn; try done.
  - intros H x. by apply IH.
  - intros [Hx H]. split; [done|by apply IH].
  - intros [Hq H]. split; [done|]. intros r Hr. destruct (H r Hr) as (K' & H1 & H2 & H3).
    exists K'. split_and!; [done|done|by apply IH].
Qed.

Lemma steady_true : steady_fact (fun _ => True).
Proof. done. Qed.

(** One request. *)
Lemma secure_await {X R} K (q : Q X) (k : X -> Prog W O Q R) Post :
  ok X q ->
  (forall r, sane X q r -> exists K',
     (forall e e', I e -> K e -> answer X q e r e' -> I e' /\ K' e')
     /\ steady_fact K'
     /\ match r with Ok x => secure K' (k x) Post | Throw e => Post (Throw e) K' end) ->
  secure K (pbind (await q) k) Post.
Proof.
  intros Hq H. cbn. split; [done|]. intros r Hr. destruct (H r Hr) as (K' & H1 & H2 & H3).
  exists K'. split_and!; [done|done|]. by destruct r.
Qed.

(** A program that says nothing and makes requests of [few] only. *)
Fixpoint mute {R} (few : forall X, Q X -> Prop) (p : Prog W O Q R) : Prop :=
  match p with
  | Done _ => True
  | Act f k => forall x, mute few (k x)
  | Say _ _ => False
  | Await q k => few _ q /\ forall r, mute few (k r)
  end.

Lemma mute_bind {A B} few (p : Prog W O Q A) (k : A -> Prog W O Q B) :
  mute few p -> (forall a, mute few (k a)) -> mute few (pbind p k).
Proof.
  intros Hp Hk. induction p as [[a|e]|X f c IH|x c IH|X q c IH]; cbn in *; try done.
  - intros x. by apply IH.
  - destruct Hp as [Hq Hp]. split; [done|]. intros r. by apply IH.
Qed.

Lemma mute_attempt {A} few (p : Prog W O Q A) : mute few p -> mute few (attempt p).
Proof.
  intros Hp. induction p as [o|X f c IH|x c IH|X q c IH]; cbn in *; try done.
  - intros x. by apply IH.
  - destruct Hp as [Hq Hp]. split; [done|]. intros r. by apply IH.
Qed.

(** Requests that keep the invariant do no harm. *)
Lemma secure_mute {R} few K (p : Prog W O Q R) Post :
  steady_fact K ->
  (forall X (q : Q X), few X q -> ok X q /\ forall e r e', I e -> answer X q e r e' -> I e') ->
  mute few p -> (forall o, Post o K) -> secure K p Post.
Proof.
  intros HK Hfew Hp HP. induction p as [o|X f c IH|x c IH|X q c IH]; cbn in *; [done|by intros x; apply IH|done|].
  destruct Hp as [Hq Hp]. destruct (Hfew X q Hq) as (Hok & Hstep). split; [done|].
  intros r _. exists K. split_and!; [|done|by apply IH].
  intros e e' HI Hk Ha. split; [by eapply Hstep|by eapply HK].
Qed.

(** ** Interleavings *)

Inductive pool_says : E * list (Prog W O Q unit) -> list (O * E) -> E * list (Prog W O Q unit) -> Prop :=
| says_done s : pool_says s [] s
| says_act e l1 l2 X (f : W -> X * W) k w l s' :
    pool_says (e, l1 ++ k (f w).1 :: l2) l s' -> pool_says (e, l1 ++ Act f k :: l2) l s'
| says_say e l1 l2 x k l s' :
    pool_says (e, l1 ++ k :: l2) l s' -> pool_says (e, l1 ++ Say x k :: l2) ((x, e) :: l) s'
| says_await e e' l1 l2 X (q : Q X) k r l s' :
    answer X q e r e' -> pool_says (e', l1 ++ k r :: l2) l s' -> pool_says (e, l1 ++ Await q k :: l2) l s'.

(** A program of the pool with what it knows. *)
Definition safe (e : E) (p : Prog W O Q unit) : Prop :=
  exists K, steady_fact K /\ K e /\ secure K p (fun _ _ => True).

(** How the world develops. *)
Context (Le : E -> E -> Prop) `{!PreOrder Le}.
Context (le_step : forall X (q : Q X) e r e', ok X q -> I e -> answer X q e r e' -> Le e e').
Context (answer_sane : forall X (q : Q X) e r e', I e -> answer X q e r e' -> sane X q r).

Lemma safe_await e e' l1 X (q : Q X) k r l2 :
  I e -> Forall (safe e) (l1 ++ Await q k :: l2) -> answer X q e r e' ->
  I e' /\ Le e e' /\ Forall (safe e') (l1 ++ k r :: l2).
Proof.
  intros HI [H1 [(K & HK & Hk & Hq & Hp) H2]%Forall_cons]%Forall_app Hans.
  destruct (Hp r (answer_sane _ _ _ _ _ HI Hans)) as (K' & Hstep & HK' & Hp').
  destruct (Hstep e e' HI Hk Hans) as [HI' Hk']. split_and!; [done|by eapply le_step|].
  assert (Hothers : forall p, safe e p -> safe e' p).
  { intros p (K0 & HK0 & Hk0 & Hp0). exists K0. split_and!; [done|exact (HK0 X q e r e' Hq HI Hk0 Hans)|done]. }
  apply Forall_app. split; [by eapply Forall_impl|]. constructor; [by exists K'|by eapply Forall_impl].
Qed.

(** The invariant holds in every interleaving, what is said may be said, and
    the worlds in which it is said follow one another. *)
Lemma pool_secure s l s' :
  pool_says s l s' -> I s.1 -> Forall (safe s.1) s.2 ->
  I s'.1 /\ Le s.1 s'.1 /\ Forall (fun x => OK x.1 x.2 /\ Le s.1 x.2 /\ Le x.2 s'.1) l
  /\ StronglySorted (fun x y => Le x.2 y.2) l.
Proof.
  intros Hr. induction Hr as [s|e l1 l2 X f k w l s' Hr IH|e l1 l2 x k l s' Hr IH|e e' l1 l2 X q k r l s' Ha Hr IH];
    intros HI Hf; cbn [fst snd] in *.
  - split_and!; [done|done|constructor|constructor].
  - apply IH; [done|]. apply Forall_app in Hf as [H1 [(K & HK & Hk & Hp) H2]%Forall_cons].
    apply Forall_app. split; [done|]. constructor; [|done]. exists K. split_and!; [done..|apply Hp].
  - apply Forall_app in Hf as [H1 [(K & HK & Hk & Hx & Hp) H2]%Forall_cons].
    destruct IH as (HI' & Hle & Hall & Hs); [done|apply Forall_app; split; [done|constructor; [by exists K|done]]|].
    split_and!; [done|done| |].
    + constructor; [|done]. cbn. split_and!; [by apply Hx|done|done].
    + constructor; [done|]. eapply Forall_impl; [exact Hall|]. by intros y (_ & Hy & _).
  - destruct (safe_await e e' l1 X q k r l2 HI Hf Ha) as (HI' & Hle & Hf').
    destruct (IH HI' Hf') as (HI2 & Hle2 & Hall & Hs). split_and!; [done|by transitivity e'| |done].
    eapply Forall_impl; [exact Hall|]. intros y (Hy & Hy1 & Hy2). split_and!; [done|by transitivity e'|done].
Qed.

(** Calls that know nothing when they start. *)
Lemma calls_safe {A} e (l : list A) (f : A -> Prog W O Q unit) :
  (forall a, secure (fun _ => True) (f a) (fun _ _ => True)) -> Forall (safe e) (f <$> l).
Proof. intros Hf. apply Forall_fmap, Forall_true. intros a. by exists (fun _ => True). Qed.
End Rely.

(** Goes through a program, one request at a time. *)
Ltac mutes :=
  repeat match goal with
  | |- mute _ (pbind _ _) => apply mute_bind
  | |- mute _ (attempt _) => apply mute_attempt
  | |- mute _ (match ?x with _ => _ end) => destruct x
  | |- forall _, _ => intros ?
  | |- mute _ (Await _ _) => split; [first [done | by split]|]
  | |- mute _ _ => first [done | by split; [split|] | by split]
  end.

(** ** Executing an interleaving *)

Section Says.
Context {W O E : Type} {Q : Type -> Type}.
Context (answer : forall X, Q X -> E -> outcome exn X -> E -> Prop).
Context (reply : forall X, Q X -> E -> outcome exn X * E) (w : W).

(** [schedule]: which program takes the next step. *)
Fixpoint says_run (schedule : list nat) (e : E) (pool : list (Prog W O Q unit))
    : list (O * E) * (E * list (Prog W O Q unit)) :=
  match schedule with
  | [] => ([], (e, pool))
  | i :: schedule' =>
      match pool !! i with
      | Some (Act f k) => says_run schedule' e (<[i := k (f w).1]> pool)
      | Some (Say x k) => let '(l, s) := says_run schedule' e (<[i := k]> pool) in ((x, e) :: l, s)
      | Some (Await q k) => let '(r, e') := reply _ q e in says_run schedule' e' (<[i := k r]> pool)
      | _ => says_run schedule' e pool
      end
  end.

Lemma says_run_says :
  (forall X (q : Q X) e, answer X q e (reply X q e).1 (reply X q e).2) ->
  forall schedule e pool, pool_says answer (e, pool) (says_run schedule e pool).1 (says_run schedule e pool).2.
Proof.
  intros Ha schedule. induction schedule as [|i schedule IH]; intros e pool; [constructor|]. cbn.
  destruct (pool !! i) as [p|] eqn:Hi; [|apply IH].
  assert (Hsplit : pool = take i pool ++ p :: drop (S i) pool) by (symmetry; by apply take_drop_middle).
  assert (Hins : forall p', <[i := p']> pool = take i pool ++ p' :: drop (S i) pool).
  { intros p'. apply insert_take_drop. by eapply lookup_lt_Some. }
  destruct p as [o|X f k|x k|X q k]; [apply IH|..].
  - rewrite Hsplit at 1. apply says_act with (w := w). rewrite <- Hins. apply IH.
  - specialize (IH e (<[i := k]> pool)). destruct (says_run schedule e _) as [l s].
    rewrite Hsplit at 1. apply says_say. rewrite <- Hins. apply IH.
  - specialize (Ha X q e). destruct (reply X q e) as [r e']. cbn in Ha.
    rewrite Hsplit at 1. eapply says_await; [exact Ha|]. rewrite <- Hins. apply IH.
Qed.
End Says.
