(* ===== verification/Daily.v ===== *)
(** * [daily.service.ts]: the daily challenge

    [getToday], [submit] and [getLeaderboard] are programs without memory of
    their own; what they wait for is the clock, statements of the database and
    commands of Redis.  An instant stands for its ISO text in a response. *)

From S2P Require Import Prelude JsData Effects Shared Decimal Cards Async Calendar Tokens.
#[local] Open Scope Z_scope.
#[local] Open Scope prog_scope.

(** ** Constants *)

Definition DAILY_SCORE_BASE_CORRECT : Z := 100.
Definition DAILY_SPEED_BONUS_WINDOW_MS : Z := 75000.
Definition DAILY_SPEED_BONUS_DIVISOR : Z := 100.
Definition DAILY_STREAK_BONUS_PER_DAY : Z := 50.
Definition DAILY_STREAK_BONUS_CAP : Z := 500.
Definition DAILY_QUESTION_COUNT : Z := 5.
Definition DAILY_LEADERBOARD_DEFAULT_LIMIT : Z := 50.
Definition CACHE_TTL_DAILY_LEADERBOARD : Z := 60.

(** ** Data *)

(** A question as the column holds it, before the schema has looked at it. *)
Record RawQuestion := mkRawQuestion {
  rq_content : jstr;
  rq_options : list jstr;
  rq_correctAnswer : jstr;
  rq_difficulty : jstr;
  rq_category : jstr;
  rq_explanation : option jstr;
}.

Record StoredDailyQuestion := mkStoredQuestion {
  sq_content : jstr;
  sq_options : list jstr;
  sq_correctAnswer : jstr;
  sq_difficulty : Difficulty;
  sq_category : jstr;
  sq_explanation : option jstr;
}.

Record PublicDailyQuestion := mkPublicQuestion {
  pq_content : jstr;
  pq_options : list jstr;
  pq_difficulty : Difficulty;
  pq_category : jstr;
}.

(** A row of [daily_questions]; [dq_questions] is [None] when the column is not
    an array of objects with the fields of a question. *)
Record DailyQuestionRow := mkDailyQuestion {
  dq_id : jstr;
  dq_dateKey : jstr;
  dq_version : Z;
  dq_questions : option (list RawQuestion);
}.

Record ResolvedQuestionSet := mkQuestionSet {
  rs_id : jstr;
  rs_version : Z;
  rs_questions : list StoredDailyQuestion;
}.

Record DailyAnswerInput := mkAnswerInput { ai_answer : jstr; ai_responseTimeMs : Z }.
Record DailySubmitInput := mkSubmitInput { si_sessionToken : jstr; si_answers : list DailyAnswerInput }.

Record DailyAnswerResult := mkAnswerResult {
  dr_answer : jstr;
  dr_isCorrect : bool;
  dr_correctAnswer : jstr;
  dr_explanation : option jstr;
  dr_responseTimeMs : Z;
}.

(** The data of [dailyAttempt.create]. *)
Record NewAttempt := mkNewAttempt {
  na_dateKey : jstr;
  na_userId : jstr;
  na_dailyQuestionId : jstr;
  na_answers : list (jstr * bool * Z);
  na_score : Z;
  na_correctCount : Z;
  na_elapsedMs : option Z;
  na_streakBefore : Z;
  na_streakAfter : Z;
}.

Record PendingUnlock := mkPendingUnlock { pu_id : jstr; pu_streakAfter : Z }.
Record Grant := mkGrant { gr_cardId : CardId; gr_variantKey : CardVariantKey }.

Record DailyTodayResponse := mkTodayResponse {
  dt_dateKey : jstr;
  dt_version : Z;
  dt_questions : list PublicDailyQuestion;
  dt_sessionToken : jstr;
  dt_serverTime : Z;
  dt_nextResetAt : Z;
  dt_alreadyAttempted : bool;
  dt_currentStreak : option Z;
}.

Record DailySubmitResponse := mkSubmitResponse {
  sr_dateKey : jstr;
  sr_version : Z;
  sr_score : Z;
  sr_correctCount : Z;
  sr_totalQuestions : Z;
  sr_elapsedMs : option Z;
  sr_streakBefore : Z;
  sr_streakAfter : Z;
  sr_results : list DailyAnswerResult;
  sr_completedAt : Z;
  sr_unlockedVariant : option Grant;
}.

(** A row of the leaderboard query; numbers may come as bigints. *)
Record RawLeaderboardRow := mkLeaderboardRow {
  lr_user_id : jstr;
  lr_username : jstr;
  lr_avatar : jstr;
  lr_score : Z;
  lr_correct_count : Z;
  lr_streak_after : Z;
  lr_completed_at : Z;
  lr_cards_played_this_week : Z;
}.

Record DailyLeaderboardItem := mkLeaderboardItem { li_rank : Z; li_row : RawLeaderboardRow }.

(** The response without [cached]. *)
Record Leaderboard := mkLeaderboard {
  lb_dateKey : jstr;
  lb_generatedAt : Z;
  lb_items : list DailyLeaderboardItem;
}.

(** ** Requests *)

(** [this.prisma], or the client of a transaction. *)
Inductive Handle := Db | Tx (tx : nat).

Inductive DailyReq : Type -> Type :=
(** [new Date()] *)
| QNow : DailyReq Z
(** [$transaction]: the client it passes, and its end. *)
| QBegin : DailyReq nat
| QCommit (tx : nat) : DailyReq unit
| QRollback (tx : nat) : DailyReq unit
(** [dailyQuestion.findFirst]: the newest active version of a day. *)
| QQuestionOfDay (dateKey : jstr) : DailyReq (option DailyQuestionRow)
| QQuestionById (id : jstr) : DailyReq (option DailyQuestionRow)
(** [dailyAttempt.findUnique]: its [streakAfter]. *)
| QAttempt (dateKey userId : jstr) : DailyReq (option Z)
(** [dailyAttempt.create]: [completedAt]. *)
| QAttemptCreate (tx : nat) (row : NewAttempt) : DailyReq Z
(** [userCardVariant.findMany] and [.upsert]. *)
| QVariants (db : Handle) (userId : jstr) : DailyReq (list (CardVariantKey * jstr))
| QVariantUpsert (db : Handle) (userId : jstr) (grant : Grant) : DailyReq unit
(** [pendingCardVariantUnlock.create], [.findMany] of the unprocessed, oldest
    first, the [SELECT ... FOR UPDATE] of an unprocessed row, and [.update]. *)
| QPendingCreate (userId dateKey : jstr) (streakAfter : Z) : DailyReq unit
| QPendingList (userId : jstr) : DailyReq (list PendingUnlock)
| QPendingLock (tx : nat) (id : jstr) : DailyReq (list jstr)
| QPendingMark (tx : nat) (id : jstr) (processedAt : Z) : DailyReq unit
| QLeaderboard (dateKey : jstr) (windowStart windowEnd limit : Z) : DailyReq (list RawLeaderboardRow)
(** [redis.setIfAbsent], [get], [del], [getJSON], [setJSON]. *)
| QSetIfAbsent (key value : jstr) (ttl : Z) : DailyReq bool
| QGet (key : jstr) : DailyReq (option jstr)
| QDel (key : jstr) : DailyReq unit
| QGetBoard (key : jstr) : DailyReq (option Leaderboard)
| QSetBoard (key : jstr) (board : Leaderboard) (ttl : Z) : DailyReq unit.

(** What leaves the process: the response to GET /daily/today of a user, or of
    an anonymous caller. *)
Inductive DailyEvent := Responded (userId : option jstr) (response : DailyTodayResponse).

Abbreviation DTask := (Prog unit DailyEvent DailyReq).

Definition best_effort {R} (p : DTask R) : DTask unit := attempt p ;; pret tt.

(** An interactive transaction of Prisma: a body that throws is rolled back. *)
Definition transaction {R} (body : nat -> DTask R) : DTask R :=
  tx <- await QBegin ;;
  o <- attempt (body tx) ;;
  match o with
  | Ok r => await (QCommit tx) ;; pret r
  | Throw e => best_effort (await (QRollback tx)) ;; raise e
  end.

(** ** The schema of the stored questions *)

Definition parse_difficulty (s : jstr) : option Difficulty :=
  if decide (s = js "EASY") then Some EASY
  else if decide (s = js "MEDIUM") then Some MEDIUM
  else if decide (s = js "HARD") then Some HARD else None.

Definition storedDailyQuestionSchema (q : RawQuestion) : option StoredDailyQuestion :=
  difficulty ← parse_difficulty (rq_difficulty q);
  if decide (rq_content q <> [] /\ Forall (fun o => o <> []) (rq_options q) /\ (2 <= length (rq_options q))%nat
             /\ rq_correctAnswer q <> [] /\ rq_category q <> []
             /\ rq_correctAnswer q ∈ rq_options q)
  then Some (mkStoredQuestion (rq_content q) (rq_options q) (rq_correctAnswer q) difficulty (rq_category q)
               (rq_explanation q))
  else None.

Definition storedDailyQuestionsSchema (raw : option (list RawQuestion)) : option (list StoredDailyQuestion) :=
  questions ← raw;
  parsed ← mapM storedDailyQuestionSchema questions;
  if Z.of_nat (length parsed) =? DAILY_QUESTION_COUNT then Some parsed else None.

Section Daily.
Context `{!Jwt}.

(** ** Internals *)

Definition parseQuestions (raw : option (list RawQuestion)) : DTask (list StoredDailyQuestion) :=
  match storedDailyQuestionsSchema raw with
  | Some questions => pret questions
  | None => raise (HttpError 404 "Daily challenge is unavailable")
  end.

Definition resolved (record : DailyQuestionRow) : DTask ResolvedQuestionSet :=
  questions <- parseQuestions (dq_questions record) ;;
  pret (mkQuestionSet (dq_id record) (dq_version record) questions).

Definition loadQuestionSet (dateKey : jstr) : DTask ResolvedQuestionSet :=
  record <- await (QQuestionOfDay dateKey) ;;
  match record with
  | None => raise (HttpError 404 "No daily challenge available")
  | Some record => resolved record
  end.

Definition loadQuestionSetById (dateKey id : jstr) : DTask ResolvedQuestionSet :=
  record <- await (QQuestionById id) ;;
  match record with
  | Some record =>
      if decide (dq_dateKey record = dateKey) then resolved record
      else raise (HttpError 400 "Session token does not match an available daily challenge")
  | None => raise (HttpError 400 "Session token does not match an available daily challenge")
  end.

Definition isAnswerCorrect (question : StoredDailyQuestion) (answer : jstr) : bool :=
  bool_decide (to_lower (trim answer) = to_lower (trim (sq_correctAnswer question))).

Definition resolveStreakBefore (userId dateKey : jstr) : DTask Z :=
  match previousDateKey dateKey with
  | Throw e => raise e
  | Ok previous =>
      streakAfter <- await (QAttempt previous userId) ;;
      pret (default 0 streakAfter)
  end.

Definition computeScore (correctCount : Z) (elapsedMs : option Z) (allCorrect : bool) (streakAfter : Z) : Z :=
  let answerScore := correctCount * DAILY_SCORE_BASE_CORRECT in
  let speedBonus :=
    match elapsedMs with
    | Some elapsedMs =>
        if 0 <? correctCount
        then Z.max 0 (DAILY_SPEED_BONUS_WINDOW_MS - Z.max 0 elapsedMs) / DAILY_SPEED_BONUS_DIVISOR
        else 0
    | None => 0
    end in
  if negb allCorrect then answerScore + speedBonus
  else
    let streakBonus := Z.min (streakAfter * DAILY_STREAK_BONUS_PER_DAY) DAILY_STREAK_BONUS_CAP in
    answerScore + speedBonus + streakBonus.

(** ** The session token *)

Definition sessionKey (userId dateKey : jstr) : jstr :=
  js "daily:session:" ++ userId ++ js ":" ++ dateKey.

(** [Math.ceil(msRemaining / 1000)] *)
Definition sessionPinTtlSeconds (nowMs : Z) : Z :=
  let msRemaining := nextResetAt nowMs - nowMs in
  Z.max 1 (- (- msRemaining / 1000)).

(** [Number(existing)] when it is finite and positive; the key holds decimal
    integers only. *)
Definition pinned_start (existing : option jstr) : option Z :=
  n ← (text ← existing; integer_value text);
  if 0 <? n then Some n else None.

Definition pinSessionStart (userId dateKey : jstr) (nowMs : Z) : DTask (option Z) :=
  let key := sessionKey userId dateKey in
  o <- attempt (
    created <- await (QSetIfAbsent key (js_of_Z nowMs) (sessionPinTtlSeconds nowMs)) ;;
    if created : bool then pret (Some nowMs)
    else existing <- await (QGet key) ;; pret (pinned_start existing)) ;;
  pret (default None (ok_value o)).

Definition issueSessionToken (userId : option jstr) (dateKey dailyQuestionId : jstr) (nowMs : Z) : DTask jstr :=
  startedAtMs <- match userId with
                 | Some userId => pinSessionStart userId dateKey nowMs
                 | None => pret None
                 end ;;
  signedAt <- await QNow ;;
  pret (signDailySession
          (mkSessionClaims (default (js "anon") userId) dateKey dailyQuestionId startedAtMs) signedAt).

Record DailySessionClaims := mkDailySession {
  ds_sub : option claim;
  ds_dateKey : jstr;
  ds_dailyQuestionId : jstr;
  ds_startedAtMs : option Z;
}.

Definition verifySessionToken (token : jstr) : DTask DailySessionClaims :=
  now <- await QNow ;;
  match verifyDailySession token now with
  | Throw _ => raise (HttpError 400 "Invalid or expired session token")
  | Ok claims =>
      match map_get (js "dateKey") claims, map_get (js "dailyQuestionId") claims, map_get (js "iat") claims with
      | Some (CStr dateKey), Some (CStr dailyQuestionId), Some (CNum _) =>
          pret (mkDailySession (map_get (js "sub") claims) dateKey dailyQuestionId
                  (match map_get (js "startedAtMs") claims with Some (CNum n) => Some n | _ => None end))
      | _, _, _ => raise (HttpError 400 "Malformed session token")
      end
  end.

(** ** GET /daily/today *)

Definition public_question (q : StoredDailyQuestion) : PublicDailyQuestion :=
  mkPublicQuestion (sq_content q) (sq_options q) (sq_difficulty q) (sq_category q).

(** [userId] is never empty. *)
Definition getToday (userId : option jstr) : DTask DailyTodayResponse :=
  now <- await QNow ;;
  let dateKey := toDateKey now in
  set <- loadQuestionSet dateKey ;;
  standing <- match userId with
              | None => pret (false, None)
              | Some userId =>
                  todayAttempt <- await (QAttempt dateKey userId) ;;
                  match todayAttempt with
                  | Some streakAfter => pret (true, Some streakAfter)
                  | None => currentStreak <- resolveStreakBefore userId dateKey ;; pret (false, Some currentStreak)
                  end
              end ;;
  sessionToken <- issueSessionToken userId dateKey (rs_id set) now ;;
  pret (mkTodayResponse dateKey (rs_version set) (public_question <$> rs_questions set) sessionToken now
          (nextResetAt now) (fst standing) (snd standing)).

(** ** Card variants *)

Definition maybeUnlockCardVariantInTx (db : Handle) (userId : jstr) (streakAfter : Z) : DTask (option Grant) :=
  if (streakAfter <=? 0) || negb (Z.rem streakAfter CARD_VARIANT_STREAK_THRESHOLD =? 0) then pret None
  else
    ownedRows <- await (QVariants db userId) ;;
    let ownedVariants := set_of_list ownedRows.*1 in
    match nextCardVariant ownedVariants with
    | None => pret None
    | Some nextVariant =>
        let unlockIndex := Z.of_nat (length ownedRows) in
        match pickCardForVariantUnlock ATTACK unlockIndex with
        | None => raise (JsError "cardId is undefined")
        | Some cardId =>
            await (QVariantUpsert db userId (mkGrant cardId nextVariant)) ;;
            pret (Some (mkGrant cardId nextVariant))
        end
    end.

(** One pending row, in a transaction of its own. *)
Definition drain_row (userId : jstr) (row : PendingUnlock) : DTask (option Grant) :=
  transaction (fun tx =>
    locked <- await (QPendingLock tx (pu_id row)) ;;
    match locked with
    | [] => pret None
    | _ =>
        g <- maybeUnlockCardVariantInTx (Tx tx) userId (pu_streakAfter row) ;;
        processedAt <- await QNow ;;
        await (QPendingMark tx (pu_id row) processedAt) ;;
        pret g
    end).

Fixpoint drain_rows (userId : jstr) (pending : list PendingUnlock) (firstGrant : option Grant)
    : DTask (option Grant) :=
  match pending with
  | [] => pret firstGrant
  | row :: pending' =>
      o <- attempt (drain_row userId row) ;;
      drain_rows userId pending'
        (match firstGrant, o with
         | None, Ok grant => grant
         | _, _ => firstGrant
         end)
  end.

Definition drainPendingCardVariantUnlocksInTx (userId : jstr) : DTask (option Grant) :=
  pending <- attempt (await (QPendingList userId)) ;;
  match pending with
  | Throw _ => pret None
  | Ok pending => drain_rows userId pending None
  end.

(** ** POST /daily/submit *)

Definition cacheKey (dateKey : jstr) (limit : Z) : jstr :=
  js "daily:leaderboard:" ++ dateKey ++ js ":limit=" ++ js_of_Z limit.

Definition invalidateLeaderboardCache (dateKey : jstr) : DTask unit :=
  best_effort (await (QDel (cacheKey dateKey DAILY_LEADERBOARD_DEFAULT_LIMIT))).

(** [set.questions.map(...)], on as many answers as questions. *)
Definition grade (questions : list StoredDailyQuestion) (answers : list DailyAnswerInput) : list DailyAnswerResult :=
  zip_with (fun question submitted =>
    mkAnswerResult (ai_answer submitted) (isAnswerCorrect question (ai_answer submitted))
      (sq_correctAnswer question) (sq_explanation question) (ai_responseTimeMs submitted)) questions answers.

(** The row of the attempt. *)
Definition attempt_row (dateKey userId : jstr) (set : ResolvedQuestionSet) (results : list DailyAnswerResult)
    (elapsedMs : option Z) (streakBefore : Z) : NewAttempt :=
  let correctCount := Z.of_nat (length (filter (fun r => dr_isCorrect r = true) results)) in
  let allCorrect := correctCount =? Z.of_nat (length (rs_questions set)) in
  let streakAfter := if allCorrect then streakBefore + 1 else 0 in
  mkNewAttempt dateKey userId (rs_id set)
    ((fun r => (dr_answer r, dr_isCorrect r, dr_responseTimeMs r)) <$> results)
    (computeScore correctCount elapsedMs allCorrect streakAfter) correctCount elapsedMs streakBefore streakAfter.

Definition submit_response (set : ResolvedQuestionSet) (results : list DailyAnswerResult) (row : NewAttempt)
    (completedAt : Z) (unlock : option Grant) : DailySubmitResponse :=
  mkSubmitResponse (na_dateKey row) (rs_version set) (na_score row) (na_correctCount row)
    (Z.of_nat (length (rs_questions set))) (na_elapsedMs row) (na_streakBefore row) (na_streakAfter row)
    results completedAt unlock.

(** [P2002] is the violation of a unique constraint. *)
Definition store_attempt (row : NewAttempt) : DTask Z :=
  o <- attempt (transaction (fun tx => await (QAttemptCreate tx row))) ;;
  match o with
  | Ok completedAt => pret completedAt
  | Throw error =>
      if decide (error = PrismaError "P2002")
      then raise (HttpError 409 "Daily challenge has already been submitted")
      else raise error
  end.

(** The unlock of this submit, or the row that asks for it later. *)
Definition unlock_now (userId dateKey : jstr) (streakAfter : Z) : DTask (option Grant) :=
  if (0 <? streakAfter) && (Z.rem streakAfter CARD_VARIANT_STREAK_THRESHOLD =? 0) then
    unlock <- attempt (maybeUnlockCardVariantInTx Db userId streakAfter) ;;
    match unlock with
    | Ok unlock => pret unlock
    | Throw _ => best_effort (await (QPendingCreate userId dateKey streakAfter)) ;; pret None
    end
  else pret None.

Definition elapsed (claims : DailySessionClaims) (now : Z) : option Z :=
  (fun startedAtMs => Z.max 0 (now - startedAtMs)) <$> ds_startedAtMs claims.

Definition submit (userId : jstr) (input : DailySubmitInput) : DTask DailySubmitResponse :=
  now <- await QNow ;;
  let dateKey := toDateKey now in
  claims <- verifySessionToken (si_sessionToken input) ;;
  if decide (ds_dateKey claims <> dateKey)
  then raise (HttpError 400 "Session token was issued for a different day")
  else if decide (ds_sub claims <> Some (CStr (js "anon")) /\ ds_sub claims <> Some (CStr userId))
  then raise (HttpError 400 "Session token was issued for a different user")
  else
    set <- loadQuestionSetById dateKey (ds_dailyQuestionId claims) ;;
    let elapsedMs := elapsed claims now in
    if negb (bool_decide (length (si_answers input) = length (rs_questions set)))
    then raise (HttpError 400 "Expected another number of answers")
    else
      let results := grade (rs_questions set) (si_answers input) in
      streakBefore <- resolveStreakBefore userId dateKey ;;
      let row := attempt_row dateKey userId set results elapsedMs streakBefore in
      completedAt <- store_attempt row ;;
      unlock <- unlock_now userId dateKey (na_streakAfter row) ;;
      drainedUnlock <- drainPendingCardVariantUnlocksInTx userId ;;
      let unlock := match unlock with Some g => Some g | None => drainedUnlock end in
      invalidateLeaderboardCache dateKey ;;
      pret (submit_response set results row completedAt unlock).

(** ** GET /daily/leaderboard *)

Definition safeGetCache (key : jstr) : DTask (option Leaderboard) :=
  o <- attempt (await (QGetBoard key)) ;;
  pret (default None (ok_value o)).

Definition safeSetCache (key : jstr) (payload : Leaderboard) : DTask unit :=
  best_effort (await (QSetBoard key payload CACHE_TTL_DAILY_LEADERBOARD)).

Definition ranked (rows : list RawLeaderboardRow) : list DailyLeaderboardItem :=
  imap (fun index row => mkLeaderboardItem (Z.of_nat index + 1) row) rows.

Definition computeLeaderboard (dateKey : jstr) (limit : Z) : DTask (list DailyLeaderboardItem) :=
  match date_parse dateKey with
  | None => raise (JsError "Invalid time value")
  | Some startOfDay =>
      let windowEnd := startOfDay + MS_PER_DAY - 1 in
      let windowStart := windowEnd - 7 * 24 * 60 * 60 * 1000 in
      rows <- await (QLeaderboard dateKey windowStart windowEnd limit) ;;
      pret (ranked rows)
  end.

(** The response and its [cached]. *)
Definition getLeaderboard (dateKey : option jstr) (limit : Z) : DTask (Leaderboard * bool) :=
  dateKey <- match dateKey with
             | Some dateKey => pret dateKey
             | None => now <- await QNow ;; pret (toDateKey now)
             end ;;
  let key := cacheKey dateKey limit in
  cached <- safeGetCache key ;;
  match cached with
  | Some cached => pret (cached, true)
  | None =>
      items <- computeLeaderboard dateKey limit ;;
      generatedAt <- await QNow ;;
      let payload := mkLeaderboard dateKey generatedAt items in
      safeSetCache key payload ;;
      pret (payload, false)
  end.

(** ** The routes of [daily.controller.ts] *)

Definition today_route (userId : option jstr) : DTask unit :=
  response <- getToday userId ;; say (Responded userId response).
End Daily.
