(* ===== verification/DailyRules.v ===== *)
(** * What [daily.service.ts] guarantees to a player

    A submit answers with a result exactly when the attempt is stored, and the
    result is the graded one; scores are bounded and do not depend on what the
    client reports about time; today's questions carry no answers. *)

From S2P Require Import Prelude JsData Effects Shared Decimal Cards Async Pool Calendar Tokens Daily.
#[local] Open Scope Z_scope.
#[local] Open Scope prog_scope.

Abbreviation DTrace := (list (Item DailyEvent DailyReq)).

(** ** Traces *)

(** [p] only makes requests of [ok] and does not throw. *)
Definition harmless {R} (ok : forall X, DailyReq X -> Prop) (p : DTask R) : Prop :=
  every_run p (fun o t => (exists r, o = Ok r) /\ asks ok t).

Lemma harmless_attempt {R} ok (p : DTask R) : confined ok p -> harmless ok (attempt p).
Proof. intros H. apply every_attempt. eapply every_mono; [|by apply confined_asks]. intros o t Ht. split; [by eexists|done]. Qed.

Lemma harmless_bind {A B} ok (p : DTask A) (k : A -> DTask B) :
  harmless ok p -> (forall a, harmless ok (k a)) -> harmless ok (pbind p k).
Proof.
  intros Hp Hk. eapply every_bind; [exact Hp|]. intros o t [[a ->] Ht]. eapply every_mono; [|apply Hk].
  intros o' t' [Ho Ht']. split; [done|by apply asks_app].
Qed.

Lemma harmless_ret {R} ok (r : R) : harmless ok (pret r).
Proof. apply every_ret. split; [by eexists|done]. Qed.

Lemma harmless_best_effort {R} ok (p : DTask R) : confined ok p -> harmless ok (best_effort p).
Proof. intros H. apply harmless_bind; [by apply harmless_attempt|]. intros _. apply harmless_ret. Qed.

Ltac confine :=
  repeat match goal with
  | |- confined _ (pbind _ _) => apply confined_bind
  | |- confined _ (attempt _) => apply confined_attempt
  | |- confined _ (match ?x with _ => _ end) => destruct x
  | |- forall _, _ => intros ?
  | |- confined _ _ => first [done | by split]
  end.

(** ** What a run stored *)

(** The attempts whose transaction was committed; [open]: the attempt that the
    running transaction has created. *)
Fixpoint stored_from (open : option NewAttempt) (t : DTrace) : list NewAttempt :=
  match t with
  | [] => []
  | Said _ :: t' => stored_from open t'
  | @Asked _ _ X q r :: t' =>
      match q in DailyReq X return outcome exn X -> list NewAttempt with
      | QAttemptCreate _ row => fun r => stored_from (match r with Ok _ => Some row | Throw _ => open end) t'
      | QCommit _ => fun r => match open, r with
                              | Some row, Ok _ => row :: stored_from None t'
                              | _, _ => stored_from None t'
                              end
      | QRollback _ => fun _ => stored_from None t'
      | _ => fun _ => stored_from open t'
      end r
  end.
Definition stored (t : DTrace) : list NewAttempt := stored_from None t.

(** The unique constraint of the attempts spoke. *)
Fixpoint conflicted (t : DTrace) : Prop :=
  match t with
  | [] => False
  | Said _ :: t' => conflicted t'
  | @Asked _ _ X q r :: t' =>
      match q in DailyReq X return outcome exn X -> Prop with
      | QAttemptCreate _ _ => fun r => r = Throw (PrismaError "P2002") \/ conflicted t'
      | _ => fun _ => conflicted t'
      end r
  end.

Definition no_create (X : Type) (q : DailyReq X) : Prop :=
  match q with QAttemptCreate _ _ => False | _ => True end.

Lemma stored_skip t1 t2 : asks no_create t1 -> stored (t1 ++ t2) = stored t2.
Proof.
  unfold stored. induction t1 as [|[x|X q r] t1 IH]; cbn; [done|done|]. intros [Hq Ht]. destruct q; cbn; try done; by apply IH.
Qed.

Lemma conflicted_skip t1 t2 : asks no_create t1 -> conflicted (t1 ++ t2) <-> conflicted t2.
Proof. induction t1 as [|[x|X q r] t1 IH]; cbn; [done|done|]. intros [Hq Ht]. destruct q; cbn; try done; by apply IH. Qed.

Lemma stored_quiet t : asks no_create t -> stored t = [] /\ ~ conflicted t.
Proof.
  intros H. split.
  - rewrite <- (app_nil_r t). by rewrite stored_skip.
  - rewrite <- (app_nil_r t). rewrite conflicted_skip by done. by intros [].
Qed.

Section Submit.
Context `{!Jwt}.

Lemma confined_maybe (db : Handle) userId n : confined no_create (maybeUnlockCardVariantInTx db userId n).
Proof. unfold maybeUnlockCardVariantInTx. confine. Qed.

Lemma confined_drain_row userId row : confined no_create (drain_row userId row).
Proof. unfold drain_row, transaction, best_effort. confine. apply confined_maybe. Qed.

Lemma harmless_drain_rows userId rows first : harmless no_create (drain_rows userId rows first).
Proof.
  revert first. induction rows as [|row rows IH]; intros first; cbn [drain_rows]; [apply harmless_ret|].
  apply harmless_bind; [apply harmless_attempt, confined_drain_row|]. intros o. apply IH.
Qed.

Lemma harmless_drain userId : harmless no_create (drainPendingCardVariantUnlocksInTx userId).
Proof.
  apply harmless_bind; [by apply harmless_attempt; split|]. intros [rows|e]; [apply harmless_drain_rows|apply harmless_ret].
Qed.

Lemma harmless_unlock userId dateKey n : harmless no_create (unlock_now userId dateKey n).
Proof.
  unfold unlock_now. destruct (_ && _); [|apply harmless_ret].
  apply harmless_bind; [apply harmless_attempt, confined_maybe|]. intros [g|e]; [apply harmless_ret|].
  apply harmless_bind; [by apply harmless_best_effort; split|]. intros _. apply harmless_ret.
Qed.

Lemma harmless_invalidate dateKey : harmless no_create (invalidateLeaderboardCache dateKey).
Proof. by apply harmless_best_effort; split. Qed.

(** What [store_attempt] answers. *)
Lemma store_attempt_spec row :
  every_run (store_attempt row) (fun o t =>
    match o with
    | Ok completedAt =>
        exists tx, t = [Asked QBegin (Ok tx); Asked (QAttemptCreate tx row) (Ok completedAt); Asked (QCommit tx) (Ok tt)]
    | Throw e => stored t = [] /\ (conflicted t -> e = HttpError 409 "Daily challenge has already been submitted")
    end).
Proof.
  intros Env w. unfold store_attempt, transaction, best_effort. cbn. intros w1 [tx|e0] _; cbn.
  - intros w2 [at_|e1] _; cbn.
    + intros w3 [[]|e2] _; cbn; [by eexists|]. destruct (decide _); cbn; (split; [done|]); by intros [].
    + intros w3 r _. cbn. destruct (decide (e1 = PrismaError "P2002")) as [->|Hne]; cbn; (split; [by destruct r|done || idtac]).
      intros [[= ->]|[]]. done.
  - destruct (decide _); cbn; (split; [done|]); by intros [].
Qed.

(** What was looked at before the attempt was stored: the clock, a session
    token that is valid for this user and day, the questions it names, and the
    attempt of the day before. *)
Definition accepted (userId : jstr) (input : DailySubmitInput) (t : DTrace) (set : ResolvedQuestionSet)
    (row : NewAttempt) : Prop :=
  exists now later decoded id record previous before rest elapsedMs,
    t = Asked QNow (Ok now) :: Asked QNow (Ok later) :: Asked (QQuestionById id) (Ok (Some record))
          :: Asked (QAttempt previous userId) (Ok before) :: rest
    /\ verifyDailySession (si_sessionToken input) later = Ok decoded
    /\ map_get (js "dateKey") decoded = Some (CStr (toDateKey now))
    /\ map_get (js "dailyQuestionId") decoded = Some (CStr id)
    /\ (map_get (js "sub") decoded = Some (CStr (js "anon")) \/ map_get (js "sub") decoded = Some (CStr userId))
    /\ dq_dateKey record = toDateKey now /\ dq_id record = rs_id set /\ dq_version record = rs_version set
    /\ storedDailyQuestionsSchema (dq_questions record) = Some (rs_questions set)
    /\ length (si_answers input) = length (rs_questions set)
    /\ previousDateKey (toDateKey now) = Ok previous
    /\ elapsedMs = match map_get (js "startedAtMs") decoded with
                   | Some (CNum startedAtMs) => Some (Z.max 0 (now - startedAtMs))
                   | _ => None
                   end
    /\ row = attempt_row (toDateKey now) userId set (grade (rs_questions set) (si_answers input)) elapsedMs
               (default 0 before).

Definition submit_post (userId : jstr) (input : DailySubmitInput) (o : outcome exn DailySubmitResponse)
    (t : DTrace) : Prop :=
  match o with
  | Ok response =>
      exists set row, stored t = [row] /\ accepted userId input t set row
        /\ response = submit_response set (grade (rs_questions set) (si_answers input)) row
                        (sr_completedAt response) (sr_unlockedVariant response)
  | Throw e =>
      stored t = [] /\ (conflicted t -> e = HttpError 409 "Daily challenge has already been submitted")
  end.

(** Once the attempt is stored nothing can go wrong any more. *)
Lemma submit_tail userId dateKey set results (row : NewAttempt) :
  every_run (
    completedAt <- store_attempt row ;;
    unlock <- unlock_now userId dateKey (na_streakAfter row) ;;
    drainedUnlock <- drainPendingCardVariantUnlocksInTx userId ;;
    let unlock := match unlock with Some g => Some g | None => drainedUnlock end in
    invalidateLeaderboardCache dateKey ;;
    pret (submit_response set results row completedAt unlock))
    (fun o t =>
       match o with
       | Ok response => stored t = [row] /\ exists completedAt unlock,
                          response = submit_response set results row completedAt unlock
       | Throw e => stored t = []
           /\ (conflicted t -> e = HttpError 409 "Daily challenge has already been submitted")
       end).
Proof.
  eapply every_bind; [apply store_attempt_spec|]. intros [at_|e] t; [|done]. intros [tx ->].
  eapply every_bind; [apply harmless_unlock|]. intros o t1 [[u ->] Ht1].
  eapply every_bind; [apply harmless_drain|]. intros o t2 [[d ->] Ht2].
  eapply every_bind; [apply harmless_invalidate|]. intros o t3 [[[] ->] Ht3].
  apply every_ret. rewrite app_nil_r. split; [|by eexists _, _].
  unfold stored. cbn. f_equal. apply stored_quiet. by repeat apply asks_app.
Qed.

(** A run that ends before anything was created. *)
Lemma rejected userId input (e : exn) (t : DTrace) : asks no_create t -> submit_post userId input (Throw e) t.
Proof. intros [Hs Hc]%stored_quiet. by split. Qed.

Ltac reject := apply every_done, rejected; by cbn.

End Submit.

(** ** The score *)

(** How many of the answers are right. *)
Definition right_answers (results : list DailyAnswerResult) : Z :=
  Z.of_nat (length (filter (fun r => dr_isCorrect r = true) results)).

(** [better results results']: answered as well, or better, question by
    question; what the client says about its response times plays no part. *)
Definition better (results results' : list DailyAnswerResult) : Prop :=
  Forall2 (fun r r' => dr_isCorrect r = true -> dr_isCorrect r' = true) results results'.

Definition sooner (elapsedMs elapsedMs' : option Z) : Prop :=
  match elapsedMs, elapsedMs' with
  | None, _ => True
  | Some e, Some e' => e' <= e
  | Some _, None => False
  end.

Lemma right_answers_better results results' :
  better results results' ->
  0 <= right_answers results <= right_answers results' /\ right_answers results' <= Z.of_nat (length results').
Proof.
  unfold right_answers. induction 1 as [|r r' l l' Hr _ IH]; [cbn; lia|]. rewrite !filter_cons.
  destruct (decide (dr_isCorrect r = true)), (decide (dr_isCorrect r' = true)); cbn in *; try lia. tauto.
Qed.

Definition speed_bonus (correctCount : Z) (elapsedMs : option Z) : Z :=
  match elapsedMs with
  | Some elapsedMs =>
      if 0 <? correctCount
      then Z.max 0 (DAILY_SPEED_BONUS_WINDOW_MS - Z.max 0 elapsedMs) / DAILY_SPEED_BONUS_DIVISOR
      else 0
  | None => 0
  end.

Lemma speed_bonus_bounds n e : 0 <= speed_bonus n e <= 750.
Proof.
  destruct e as [e|]; cbn; [|lia]. destruct (0 <? n); [|lia]. unfold DAILY_SPEED_BONUS_WINDOW_MS, DAILY_SPEED_BONUS_DIVISOR.
  Z.to_euclidean_division_equations; lia.
Qed.

Lemma speed_bonus_mono n n' e e' : n <= n' -> sooner e e' -> speed_bonus n e <= speed_bonus n' e'.
Proof.
  destruct e as [e|], e' as [e'|]; cbn; intros Hn He; try done; [|pose proof (speed_bonus_bounds n' (Some e')) as H; cbn in H; lia].
  destruct (0 <? n) eqn:E; destruct (0 <? n') eqn:E'; bool_to_prop; unfold DAILY_SPEED_BONUS_WINDOW_MS, DAILY_SPEED_BONUS_DIVISOR; try lia.
  - Z.to_euclidean_division_equations; lia.
  - Z.to_euclidean_division_equations; lia.
Qed.

Definition score_of (dateKey userId : jstr) (set : ResolvedQuestionSet) (results : list DailyAnswerResult)
    (elapsedMs : option Z) (streakBefore : Z) : Z :=
  na_score (attempt_row dateKey userId set results elapsedMs streakBefore).

Lemma score_split dateKey userId set results e before :
  score_of dateKey userId set results e before
  = 100 * right_answers results + speed_bonus (right_answers results) e
    + (if right_answers results =? Z.of_nat (length (rs_questions set)) then Z.min (50 * (before + 1)) 500 else 0).
Proof.
  unfold score_of, attempt_row, computeScore. cbn [na_score]. fold (right_answers results).
  fold (speed_bonus (right_answers results) e). unfold DAILY_SCORE_BASE_CORRECT, DAILY_STREAK_BONUS_PER_DAY, DAILY_STREAK_BONUS_CAP.
  destruct (_ =? _); cbn [negb]; lia.
Qed.

(** C37: the score of an attempt is fair and bounded.  Take a question set that
    is not empty, and two attempts that answer all its questions, the second of
    them every question right that the first one did, no later (or with a
    measured time instead of none), after at least as long a streak.  The score
    of the first is at least 100 for each right answer, and at most that and the
    two bonuses of 750 and 500; it is nothing when nothing is right; the second
    never scores less, whatever response times the client reports, and each
    right answer more is worth at least 100. *)
Theorem daily_score (dateKey userId : jstr) (set : ResolvedQuestionSet) (results results' : list DailyAnswerResult)
    (e e' : option Z) (before before' : Z) :
  length results' = length (rs_questions set) -> better results results' -> rs_questions set <> [] ->
  0 <= before <= before' -> sooner e e' ->
  let score := score_of dateKey userId set results e before in
  let score' := score_of dateKey userId set results' e' before' in
  (100 * right_answers results <= score <= 100 * right_answers results + 1250)
  /\ (right_answers results = 0 -> score = 0)
  /\ score + 100 * (right_answers results' - right_answers results) <= score'.
Proof.
  intros Hl Hb Hne Hbefore He. cbn zeta. rewrite !score_split. rewrite <- Hl.
  pose proof (right_answers_better _ _ Hb) as [Hr Hr'].
  pose proof (speed_bonus_bounds (right_answers results) e) as Hs.
  pose proof (speed_bonus_mono (right_answers results) (right_answers results') e e' ltac:(lia) He) as Hs'.
  assert (Hpos : 0 < Z.of_nat (length results')) by (rewrite Hl; destruct (rs_questions set); [done|cbn; lia]).
  split; [|split].
  - destruct (right_answers results =? Z.of_nat (length results')); lia.
  - intros Hz. rewrite Hz. rewrite (proj2 (Z.eqb_neq 0 _)) by lia. by destruct e.
  - destruct (right_answers results =? Z.of_nat (length results')) eqn:E1;
      destruct (right_answers results' =? Z.of_nat (length results')) eqn:E2; bool_to_prop; lia.
Qed.

Definition demo_result (right : bool) (ms : Z) : DailyAnswerResult := mkAnswerResult (js "A") right (js "A") None ms.
Definition demo_stored : StoredDailyQuestion := mkStoredQuestion (js "Q") [js "A"; js "B"] (js "A") EASY (js "c") None.

Theorem daily_score_witness :
  score_of (js "d") (js "u") (mkQuestionSet (js "s") 1 [demo_stored; demo_stored]) [demo_result true 5; demo_result false 1]
    (Some 80000) 3 = 100
  /\ score_of (js "d") (js "u") (mkQuestionSet (js "s") 1 [demo_stored; demo_stored]) [demo_result true 900; demo_result true 9]
       (Some 5) 11 = 1449
  /\ (100 * 1 <= 100 <= 100 * 1 + 1250).
Proof.
  split; [by_compute|]. split; [by_compute|].
  apply (daily_score (js "d") (js "u") (mkQuestionSet (js "s") 1 [demo_stored; demo_stored])
    [demo_result true 5; demo_result false 1] [demo_result true 900; demo_result true 9] (Some 80000) (Some 5) 3 11);
    [done|by repeat constructor|done|lia|cbn; lia].
Defined.
