(* ===== verification/DailyWorld.v ===== *)
(** * What the daily challenge runs against

    The database, Redis and the clock as the requests of [Daily] see them: an
    interface, [DailyWorld], with the laws that hold whatever else these
    services do; requests may fail before or after they took effect.
    [plain_world] is an instance. *)

From stdpp Require Import gmap.
From coqutil Require Import Datatypes.RecordSettersUsingExistingGetters.
From S2P Require Import Prelude JsData Effects Shared Decimal Cards Async Calendar Tokens Daily.
#[local] Open Scope Z_scope.

(** ** Parts of a request *)

Definition created_by {X} (q : DailyReq X) : option (nat * NewAttempt) :=
  match q with QAttemptCreate tx row => Some (tx, row) | _ => None end.
Definition committed_by {X} (q : DailyReq X) : option nat :=
  match q with QCommit tx => Some tx | _ => None end.
Definition marked_by {X} (q : DailyReq X) : option (nat * jstr) :=
  match q with QPendingMark tx id _ => Some (tx, id) | _ => None end.
Definition pinned_by {X} (q : DailyReq X) : option (jstr * jstr * Z) :=
  match q with QSetIfAbsent key value ttl => Some (key, value, ttl) | _ => None end.
Definition dropped_by {X} (q : DailyReq X) : option jstr :=
  match q with QDel key => Some key | _ => None end.

Class DailyWorld (E : Type) := {
  (** [dw_answer q e r e']: asked [q] in [e] the services may answer [r] and
      leave [e']; time may pass meanwhile. *)
  dw_answer : forall X, DailyReq X -> E -> outcome exn X -> E -> Prop;
  dw_now : E -> Z;
  (** The committed rows of [daily_attempts], by day and user, and those that
      an open transaction has created. *)
  dw_attempt : E -> jstr -> jstr -> option NewAttempt;
  dw_created : E -> nat -> list NewAttempt;
  (** The transactions there have been, and those that are open. *)
  dw_known : E -> nat -> Prop;
  dw_open : E -> nat -> Prop;
  (** The string at a key of Redis, and when it expires. *)
  dw_key : E -> jstr -> option (jstr * Z);
  (** The transaction that holds the row lock of a pending unlock; how often
      the row has been marked processed by committed transactions; the rows
      that an open transaction has marked. *)
  dw_lock : E -> jstr -> option nat;
  dw_processed : E -> jstr -> nat;
  dw_marked : E -> nat -> gset jstr;
}.

Class DailyWorldLaws (E : Type) `{!DailyWorld E} := {
  (** Time does not run backwards, and the clock shows it. *)
  now_mono X (q : DailyReq X) e r e' : dw_answer X q e r e' -> dw_now e <= dw_now e';
  now_read e t e' : dw_answer Z QNow e (Ok t) e' -> dw_now e <= t <= dw_now e' /\ ordinary t;
  (** Attempts are read as committed, and are added by commits only. *)
  attempt_read d u e r e' :
    dw_answer _ (QAttempt d u) e (Ok r) e' -> r = na_streakAfter <$> dw_attempt e' d u;
  attempt_stays X (q : DailyReq X) e r e' d u row :
    dw_answer X q e r e' -> dw_attempt e d u = Some row -> dw_attempt e' d u = Some row;
  attempt_new X (q : DailyReq X) e r e' d u row :
    dw_answer X q e r e' -> dw_attempt e' d u = Some row ->
    dw_attempt e d u = Some row
    \/ exists tx, committed_by q = Some tx /\ row ∈ dw_created e tx /\ na_dateKey row = d /\ na_userId row = u;
  created_new X (q : DailyReq X) e r e' tx row :
    dw_answer X q e r e' -> row ∈ dw_created e' tx ->
    row ∈ dw_created e tx \/ created_by q = Some (tx, row);
  (** SET NX EX, GET and DEL. *)
  setnx_true k v ttl e e' :
    dw_answer _ (QSetIfAbsent k v ttl) e (Ok true) e' ->
    (exists deadline, dw_key e' k = Some (v, deadline) /\ dw_now e + 1000 * ttl <= deadline)
    /\ forall v0 deadline0, dw_key e k = Some (v0, deadline0) -> deadline0 <= dw_now e';
  get_read k e r e' : dw_answer _ (QGet k) e (Ok r) e' -> r = fst <$> dw_key e' k;
  key_stays X (q : DailyReq X) e r e' k v deadline :
    dw_answer X q e r e' -> dw_key e k = Some (v, deadline) -> dropped_by q <> Some k ->
    dw_key e' k = Some (v, deadline) \/ deadline <= dw_now e';
  key_new X (q : DailyReq X) e r e' k v deadline :
    dw_answer X q e r e' -> dw_key e' k = Some (v, deadline) ->
    dw_key e k = Some (v, deadline)
    \/ exists ttl, pinned_by q = Some (k, v, ttl) /\ dw_now e + 1000 * ttl <= deadline;
  (** A transaction that is over stays over, and has no marks. *)
  known_stays X (q : DailyReq X) e r e' tx : dw_answer X q e r e' -> dw_known e tx -> dw_known e' tx;
  over_stays X (q : DailyReq X) e r e' tx : dw_answer X q e r e' -> dw_known e tx -> dw_open e' tx -> dw_open e tx;
  marked_open e tx id : id ∈ dw_marked e tx -> dw_open e tx;
  (** The row lock: granted with an unprocessed row, held while the transaction
      is open. *)
  lock_granted tx id e x l e' :
    dw_answer _ (QPendingLock tx id) e (Ok (x :: l)) e' ->
    dw_known e' tx /\ dw_lock e' id = Some tx /\ dw_processed e' id = 0%nat;
  lock_stays X (q : DailyReq X) e r e' id tx :
    dw_answer X q e r e' -> dw_lock e id = Some tx -> dw_open e' tx -> dw_lock e' id = Some tx;
  (** A mark counts when its transaction commits. *)
  marked_new X (q : DailyReq X) e r e' tx id :
    dw_answer X q e r e' -> id ∈ dw_marked e' tx -> id ∈ dw_marked e tx \/ marked_by q = Some (tx, id) /\ dw_open e tx;
  processed_same X (q : DailyReq X) e r e' id :
    dw_answer X q e r e' -> committed_by q = None -> dw_processed e' id = dw_processed e id;
  processed_commit tx e r e' :
    dw_answer _ (QCommit tx) e r e' ->
    (forall id, dw_processed e' id = dw_processed e id)
    \/ (~ dw_open e' tx
        /\ forall id, dw_processed e' id
             = (dw_processed e id + (if decide (id ∈ dw_marked e tx) then 1 else 0))%nat);
}.

(** ** An instance

    Its leaderboard is empty: nothing that is proved looks at it. *)

#[local] Arguments RecordSettersUsingExistingGetters.const {E} newValue / _.

Record PlainWorld := mkPlainWorld {
  pw_now : Z;
  pw_keys : gmap jstr (jstr * Z);
  pw_boards : gmap jstr Leaderboard;
  (** The question sets of the days, the newest active version of each. *)
  pw_questions : list DailyQuestionRow;
  pw_attempts : gmap (jstr * jstr) NewAttempt;
  pw_created : gmap nat (list NewAttempt);
  (** The transactions that have begun are the numbers below [pw_next]. *)
  pw_next : nat;
  pw_open : gset nat;
  pw_locks : gmap jstr nat;
  pw_pending : list (jstr * PendingUnlock);
  pw_processed : gmap jstr nat;
  pw_marked : gmap nat (gset jstr);
  pw_variants : list (jstr * (CardVariantKey * jstr));
}.


Definition expire (t : Z) (w : PlainWorld) : PlainWorld :=
  { w with pw_now := t; pw_keys ::= filter (fun kv => t < kv.2.2) }.

Definition close (tx : nat) (w : PlainWorld) : PlainWorld :=
  { w with pw_open := pw_open w ∖ {[tx]}; pw_created ::= delete tx; pw_marked ::= delete tx;
      pw_locks ::= filter (fun kv => kv.2 <> tx) }.

(** A row of a committed transaction: the constraint keeps the first. *)
Definition add_attempt (row : NewAttempt) (m : gmap (jstr * jstr) NewAttempt) : gmap (jstr * jstr) NewAttempt :=
  match m !! (na_dateKey row, na_userId row) with
  | Some _ => m
  | None => <[(na_dateKey row, na_userId row) := row]> m
  end.

Definition is_open (w : PlainWorld) (tx : nat) : Prop := tx ∈ pw_open w /\ (tx < pw_next w)%nat.

(** The open transaction that holds a row lock. *)
Definition holder (w : PlainWorld) (id : jstr) : option nat :=
  tx ← pw_locks w !! id; if decide (is_open w tx) then Some tx else None.

(** What an open transaction has marked. *)
Definition marks (w : PlainWorld) (tx : nat) : gset jstr :=
  if decide (is_open w tx) then default ∅ (pw_marked w !! tx) else ∅.

Definition apply_tx (tx : nat) (w : PlainWorld) : PlainWorld :=
  { w with
      pw_attempts := foldr add_attempt (pw_attempts w) (default [] (pw_created w !! tx));
      pw_processed := set_fold (fun id m => <[id := S (default 0%nat (m !! id))]> m) (pw_processed w)
                        (marks w tx) }.

(** The attempt of the row exists, or another transaction is about to add it. *)
Definition taken (row : NewAttempt) (w : PlainWorld) : bool :=
  bool_decide (is_Some (pw_attempts w !! (na_dateKey row, na_userId row)))
  || existsb (fun r => bool_decide (na_dateKey r = na_dateKey row /\ na_userId r = na_userId row))
       (concat (map_to_list (pw_created w)).*2).

Definition plain_exec (X : Type) (q : DailyReq X) (w : PlainWorld) : outcome exn X * PlainWorld :=
  match q in DailyReq X return outcome exn X * PlainWorld with
  | QNow =>
      (if decide (ordinary (pw_now w)) then Ok (pw_now w) else Throw (JsError "Invalid time value"), w)
  | QBegin =>
      let tx := pw_next w in
      let w1 := close tx w in (Ok tx, { w1 with pw_open := {[tx]} ∪ pw_open w; pw_next := S tx })
  | QCommit tx =>
      if decide (is_open w tx) then (Ok tt, close tx (apply_tx tx w)) else (Throw (PrismaError "P2028"), w)
  | QRollback tx => (Ok tt, close tx w)
  | QQuestionOfDay dateKey =>
      (Ok (snd <$> list_find (fun r => dq_dateKey r = dateKey) (pw_questions w)), w)
  | QQuestionById id => (Ok (snd <$> list_find (fun r => dq_id r = id) (pw_questions w)), w)
  | QAttempt dateKey userId => (Ok (na_streakAfter <$> pw_attempts w !! (dateKey, userId)), w)
  | QAttemptCreate tx row =>
      if decide (is_open w tx) then
        if taken row w then (Throw (PrismaError "P2002"), w)
        else (Ok (pw_now w), { w with pw_created ::= <[tx := row :: default [] (pw_created w !! tx)]> })
      else (Throw (PrismaError "P2028"), w)
  | QVariants _ userId => (Ok (filter (fun v => v.1 = userId) (pw_variants w)).*2, w)
  | QVariantUpsert _ userId grant =>
      let row := (userId, (gr_variantKey grant, card_str (gr_cardId grant))) in
      (Ok tt, { w with pw_variants ::= fun l => if decide (row ∈ l) then l else l ++ [row] })
  | QPendingCreate userId dateKey streakAfter =>
      let id := userId ++ dateKey ++ js_of_Z streakAfter in
      if decide (id ∈ (pu_id ∘ snd <$> pw_pending w)) then (Throw (PrismaError "P2002"), w)
      else (Ok tt, { w with pw_pending ::= fun l => l ++ [(userId, mkPendingUnlock id streakAfter)] })
  | QPendingList userId =>
      (Ok (filter (fun p => pw_processed w !! pu_id p = None) (filter (fun p => p.1 = userId) (pw_pending w)).*2), w)
  | QPendingLock tx id =>
      if decide (is_open w tx /\ (holder w id = None \/ holder w id = Some tx)) then
        if decide (pw_processed w !! id = None /\ id ∈ (pu_id ∘ snd <$> pw_pending w))
        then (Ok [id], { w with pw_locks ::= <[id := tx]> })
        else (Ok [], w)
      else (Throw (PrismaError "P2034"), w)
  | QPendingMark tx id processedAt =>
      if decide (is_open w tx)
      then (Ok tt, { w with pw_marked ::= <[tx := {[id]} ∪ default ∅ (pw_marked w !! tx)]> })
      else (Throw (PrismaError "P2028"), w)
  | QLeaderboard _ _ _ _ => (Ok [], w)
  | QSetIfAbsent key value ttl =>
      match pw_keys w !! key with
      | Some _ => (Ok false, w)
      | None => (Ok true, { w with pw_keys ::= <[key := (value, pw_now w + 1000 * ttl)]> })
      end
  | QGet key => (Ok (fst <$> pw_keys w !! key), w)
  | QDel key => (Ok tt, { w with pw_keys ::= delete key; pw_boards ::= delete key })
  | QGetBoard key => (Ok (pw_boards w !! key), w)
  | QSetBoard key board ttl => (Ok tt, { w with pw_boards ::= <[key := board]> })
  end.

(** A request is served, refused, or served with its reply lost. *)
Inductive plain_answer (X : Type) (q : DailyReq X) (w : PlainWorld) : outcome exn X -> PlainWorld -> Prop :=
| plain_served t : pw_now w <= t ->
    plain_answer X q w (plain_exec X q (expire t w)).1 (plain_exec X q (expire t w)).2
| plain_refused t err : pw_now w <= t -> plain_answer X q w (Throw err) (expire t w)
| plain_lost t err : pw_now w <= t -> plain_answer X q w (Throw err) (plain_exec X q (expire t w)).2.

#[export] Instance plain_world : DailyWorld PlainWorld := {
  dw_answer := plain_answer;
  dw_now := pw_now;
  dw_attempt w d u := pw_attempts w !! (d, u);
  dw_created w tx := default [] (pw_created w !! tx);
  dw_known w tx := (tx < pw_next w)%nat;
  dw_open := is_open;
  dw_key w k := pw_keys w !! k;
  dw_lock := holder;
  dw_processed w id := default 0%nat (pw_processed w !! id);
  dw_marked := marks;
}.

(** ** The instance obeys the laws *)

Lemma add_attempt_stays row m k v : m !! k = Some v -> add_attempt row m !! k = Some v.
Proof.
  unfold add_attempt. intros H. destruct (m !! (na_dateKey row, na_userId row)) eqn:E; [done|].
  rewrite lookup_insert_ne; congruence.
Qed.

Lemma add_attempt_new row m k v :
  add_attempt row m !! k = Some v -> m !! k = Some v \/ v = row /\ k = (na_dateKey row, na_userId row).
Proof.
  unfold add_attempt. destruct (m !! (na_dateKey row, na_userId row)) eqn:E; [by left|].
  intros [[<- <-]|[_ H]]%lookup_insert_Some; auto.
Qed.

Lemma add_attempts_stays rows m k v : m !! k = Some v -> foldr add_attempt m rows !! k = Some v.
Proof. intros H. induction rows as [|row rows IH]; cbn; [done|]. by apply add_attempt_stays. Qed.

Lemma add_attempts_new rows m k v :
  foldr add_attempt m rows !! k = Some v -> m !! k = Some v \/ v ∈ rows /\ k = (na_dateKey v, na_userId v).
Proof.
  induction rows as [|row rows IH]; cbn; [by left|]. intros [H|[-> ->]]%add_attempt_new.
  - destruct (IH H) as [?|[? ?]]; [by left|right]. split; [by right|done].
  - right. split; [by left|done].
Qed.

Lemma processed_fold (ids : gset jstr) (m : gmap jstr nat) id :
  default 0%nat (set_fold (fun id m => <[id := S (default 0%nat (m !! id))]> m) m ids !! id)
  = (default 0%nat (m !! id) + (if decide (id ∈ ids) then 1 else 0))%nat.
Proof.
  revert ids. apply (set_fold_ind_L (fun m' ids => default 0%nat (m' !! id)
    = (default 0%nat (m !! id) + (if decide (id ∈ ids) then 1 else 0))%nat)).
  - rewrite decide_False by set_solver. lia.
  - intros x X m' Hx IH. destruct (decide (x = id)) as [->|Hne].
    + rewrite lookup_insert_eq. cbn. rewrite IH, decide_False, decide_True by set_solver. lia.
    + rewrite lookup_insert_ne by done. rewrite IH.
      destruct (decide (id ∈ X)); [rewrite decide_True by set_solver|rewrite decide_False by set_solver]; done.
Qed.

Lemma lookup_expire t w k v deadline :
  pw_keys (expire t w) !! k = Some (v, deadline) <-> pw_keys w !! k = Some (v, deadline) /\ t < deadline.
Proof. cbn. by rewrite map_lookup_filter_Some. Qed.

Section Exec.
Context {X : Type} (q : DailyReq X) (w : PlainWorld).
Let w' := (plain_exec X q w).2.

(** Every request, case by case. *)
Ltac cases := unfold w'; clear w'; destruct q; cbn; repeat case_match; cbn; simplify_eq/=.

Lemma exec_now : pw_now w' = pw_now w.
Proof. cases; done. Qed.

Lemma exec_attempts_stay k v : pw_attempts w !! k = Some v -> pw_attempts w' !! k = Some v.
Proof. intros Hk. cases; try done. by apply add_attempts_stays. Qed.

Lemma exec_attempts_new k v :
  pw_attempts w' !! k = Some v ->
  pw_attempts w !! k = Some v
  \/ exists tx, committed_by q = Some tx /\ v ∈ default [] (pw_created w !! tx) /\ k = (na_dateKey v, na_userId v).
Proof. cases; auto. intros [Hk|[Hv ->]]%add_attempts_new; [by left|right]. by exists tx. Qed.

Lemma exec_created_new tx row :
  row ∈ default [] (pw_created w' !! tx) ->
  row ∈ default [] (pw_created w !! tx) \/ created_by q = Some (tx, row).
Proof.
  cases; auto.
  - destruct (decide (pw_next w = tx)) as [->|]; [rewrite lookup_delete_eq|rewrite lookup_delete_ne by done]; set_solver.
  - destruct (decide (tx0 = tx)) as [->|]; [rewrite lookup_delete_eq|rewrite lookup_delete_ne by done]; set_solver.
  - destruct (decide (tx0 = tx)) as [->|]; [rewrite lookup_delete_eq|rewrite lookup_delete_ne by done]; set_solver.
  - destruct (decide (tx0 = tx)) as [->|]; [rewrite lookup_insert_eq|rewrite lookup_insert_ne by done; auto].
    cbn. intros [->|Hk]%elem_of_cons; auto.
Qed.

Lemma exec_keys_stay k v :
  pw_keys w !! k = Some v -> dropped_by q <> Some k -> pw_keys w' !! k = Some v.
Proof.
  intros Hk Hd. cases; try done.
  - rewrite lookup_insert_ne; [done|congruence].
  - rewrite lookup_delete_ne; [done|congruence].
Qed.

Lemma exec_keys_new k v deadline :
  pw_keys w' !! k = Some (v, deadline) ->
  pw_keys w !! k = Some (v, deadline)
  \/ exists ttl, pinned_by q = Some (k, v, ttl) /\ pw_now w + 1000 * ttl = deadline.
Proof.
  cases; auto.
  - intros [[<- [= <- <-]]|[_ Hk]]%lookup_insert_Some; [right; by eexists|by left].
  - intros [_ Hk]%lookup_delete_Some. by left.
Qed.

Lemma exec_known tx : (tx < pw_next w)%nat -> (tx < pw_next w')%nat.
Proof. intros Hk. cases; lia. Qed.

Lemma exec_over tx : (tx < pw_next w)%nat -> is_open w' tx -> is_open w tx.
Proof. unfold is_open. intros Hk [Ho Hn]. revert Ho Hn. cases; intros; split; try done; set_solver by lia. Qed.

Lemma exec_locks_stay id tx :
  holder w id = Some tx -> is_open w' tx -> holder w' id = Some tx.
Proof.
  unfold holder. destruct (pw_locks w !! id) as [tx'|] eqn:Hl; [|done]. cbn. case_decide as Ho; [|done]. intros [= ->].
  intros Ho'. assert (Hl' : pw_locks w' !! id = Some tx); [|rewrite Hl'; cbn; by rewrite decide_True].
  destruct Ho as [Ho Hn]. destruct Ho' as [Ho' _]. revert Ho'. cases; try done; intros Ho'.
  - rewrite map_lookup_filter_Some. split; [done|]. cbn. lia.
  - rewrite map_lookup_filter_Some. split; [done|]. cbn. set_solver.
  - rewrite map_lookup_filter_Some. split; [done|]. cbn. set_solver.
  - destruct (decide (id0 = id)) as [->|]; [|by rewrite lookup_insert_ne].
    assert (Hh : holder w id = Some tx) by (unfold holder; rewrite Hl; cbn; by rewrite decide_True).
    rewrite lookup_insert_eq. destruct_and?. destruct_or?; congruence.
Qed.

Lemma exec_marked_new tx id :
  id ∈ marks w' tx -> id ∈ marks w tx \/ marked_by q = Some (tx, id) /\ is_open w tx.
Proof.
  unfold marks. destruct (decide (is_open w' tx)) as [Ho'|]; [|set_solver].
  destruct (decide (tx < pw_next w)%nat) as [Hn|Hn].
  - pose proof (exec_over tx Hn Ho') as Ho. rewrite decide_True by done. destruct Ho' as [Ho' _].
    revert Ho'. cases; auto; intros Ho'.
    + rewrite lookup_delete_ne; [by left|lia].
    + rewrite lookup_delete_ne; [by left|set_solver].
    + rewrite lookup_delete_ne; [by left|set_solver].
    + destruct (decide (tx0 = tx)) as [->|]; [rewrite lookup_insert_eq|rewrite lookup_insert_ne by done; auto].
      cbn. intros [->%elem_of_singleton|Hk]%elem_of_union; auto.
  - destruct Ho' as [Ho' Hn']. revert Ho' Hn'. cases; intros Ho' Hn'; try (unfold is_open in *; lia).
    assert (tx = pw_next w) as -> by lia. rewrite lookup_delete_eq. set_solver.
Qed.

Lemma exec_processed_same : committed_by q = None -> pw_processed w' = pw_processed w.
Proof. intros Hk. cases; done. Qed.
End Exec.

(** What an answer leaves is the world after some time, or that after the
    request was served. *)
Lemma plain_cases X (q : DailyReq X) w r w' :
  plain_answer X q w r w' ->
  exists t, pw_now w <= t
    /\ (w' = (plain_exec X q (expire t w)).2 /\ (r = (plain_exec X q (expire t w)).1 \/ exists err, r = Throw err)
        \/ w' = expire t w /\ exists err, r = Throw err).
Proof. intros [t Ht|t err Ht|t err Ht]; exists t; split; try done; eauto. Qed.

(** An answer that is not an error was served. *)
Lemma plain_ok X (q : DailyReq X) w x w' :
  plain_answer X q w (Ok x) w' ->
  exists t, pw_now w <= t /\ plain_exec X q (expire t w) = (Ok x, w').
Proof.
  intros (t & Ht & [[-> [Hr|[err Hr]]]|[-> [err Hr]]])%plain_cases; try done.
  exists t. split; [done|]. rewrite Hr. by destruct (plain_exec X q (expire t w)).
Qed.

Ltac served H := apply plain_cases in H as (t & Ht & [[-> _]|[-> _]]).

#[export] Instance plain_world_laws : DailyWorldLaws PlainWorld.
Proof.
  split; unfold dw_answer, dw_now, dw_attempt, dw_created, dw_known, dw_open, dw_key, dw_lock, dw_processed, dw_marked, plain_world.
  - intros X q w r w' Ha. served Ha; [rewrite exec_now|]; done.
  - intros w t w' (t0 & Ht & Ha)%plain_ok. cbn in Ha. case_decide; simplify_eq/=. done.
  - intros d u w r w' (t & Ht & Ha)%plain_ok. cbn in Ha. by simplify_eq/=.
  - intros X q w r w' d u row Ha Hr. served Ha; [by apply exec_attempts_stay|done].
  - intros X q w r w' d u row Ha Hr. served Ha; [|by left].
    apply exec_attempts_new in Hr as [Hr|(tx & ? & ? & [= -> ->])]; [by left|right]. by exists tx.
  - intros X q w r w' tx row Ha Hr. served Ha; [|by left]. by apply exec_created_new in Hr.
  - intros k v ttl w w' (t & Ht & Ha)%plain_ok. cbn in Ha.
    destruct (filter _ (pw_keys w) !! k) as [x|] eqn:Hk; simplify_eq/=. split.
    + eexists. rewrite lookup_insert_eq. split; [done|]. lia.
    + intros v0 d0 H0. rewrite map_lookup_filter_None in Hk. destruct Hk as [Hk|Hk]; [congruence|].
      specialize (Hk _ H0). cbn in Hk. lia.
  - intros k w r w' (t & Ht & Ha)%plain_ok. cbn in Ha. by simplify_eq/=.
  - intros X q w r w' k v deadline Ha Hk Hd. destruct (decide (deadline <= dw_now w')) as [|Hl]; [by right|left].
    served Ha.
    + apply exec_keys_stay; [|done]. apply lookup_expire. split; [done|].
      unfold dw_now, plain_world in Hl. rewrite exec_now in Hl. cbn in Hl. lia.
    + apply lookup_expire. split; [done|]. unfold dw_now, plain_world in Hl. cbn in Hl. lia.
  - intros X q w r w' k v deadline Ha Hk. served Ha.
    + apply exec_keys_new in Hk as [Hk|(ttl & Hq & Hd)]; [left; by apply lookup_expire in Hk as [Hk _]|right].
      exists ttl. split; [done|]. cbn in Hd. lia.
    + left. by apply lookup_expire in Hk as [Hk _].
  - intros X q w r w' tx Ha Hn. served Ha; [by apply exec_known|done].
  - intros X q w r w' tx Ha Hn Ho. served Ha; [by apply exec_over in Ho|done].
  - intros w tx id Hm. unfold marks in Hm. case_decide; [done|set_solver].
  - intros tx id w x l w' (t & Ht & Ha)%plain_ok. cbn in Ha. repeat case_decide; simplify_eq/=. destruct_and?.
    split_and!; [by match goal with Ho : is_open _ _ |- _ => destruct Ho end| |].
    + unfold holder. cbn. rewrite lookup_insert_eq. cbn. by rewrite decide_True.
    + by match goal with Hp : pw_processed _ !! _ = None |- _ => rewrite Hp end.
  - intros X q w r w' id tx Ha Hl Ho. served Ha; [by apply exec_locks_stay|exact Hl].
  - intros X q w r w' tx id Ha Hm. served Ha; [by apply exec_marked_new in Hm|by left].
  - intros X q w r w' id Ha Hq. served Ha; [by rewrite exec_processed_same|done].
  - intros tx w r w' Ha. served Ha; [|by left]. cbn. case_decide; [right|by left]. cbn. split.
    + unfold is_open. cbn. set_solver.
    + intros id. by rewrite processed_fold.
Qed.

(** ** A day *)

Definition demo_user : jstr := js "u1".
Definition demo_question : RawQuestion := mkRawQuestion (js "Q") [js "A"; js "B"] (js "A") (js "EASY") (js "c") None.
Definition demo_set : DailyQuestionRow :=
  mkDailyQuestion (js "s1") (toDateKey leap_day) 1 (Some (replicate 5 demo_question)).

(** Yesterday was perfect, and an unlock is pending. *)
Definition demo_yesterday : NewAttempt :=
  mkNewAttempt (js "2024-02-28") demo_user (js "s0") (replicate 5 (js "A", true, 1000)) 600 5 None 0 1.

Definition demo_world : PlainWorld := {|
  pw_now := leap_day;
  pw_keys := ∅;
  pw_boards := ∅;
  pw_questions := [demo_set];
  pw_attempts := {[ (js "2024-02-28", demo_user) := demo_yesterday ]};
  pw_created := ∅;
  pw_next := 0;
  pw_open := ∅;
  pw_locks := ∅;
  pw_pending := [(demo_user, mkPendingUnlock (js "p1") 7)];
  pw_processed := ∅;
  pw_marked := ∅;
  pw_variants := [];
|}.

(** Every request takes a second and is served. *)
Definition demo_reply (X : Type) (q : DailyReq X) (w : PlainWorld) : outcome exn X * PlainWorld :=
  plain_exec X q (expire (pw_now w + 1000) w).

Lemma demo_answers X (q : DailyReq X) w : dw_answer X q w (demo_reply X q w).1 (demo_reply X q w).2.
Proof. apply plain_served. lia. Qed.

(** All answers are right. *)
Definition demo_input : DailySubmitInput :=
  mkSubmitInput (signDailySession (mkSessionClaims demo_user (toDateKey leap_day) (js "s1") (Some leap_day)) leap_day)
    (replicate 5 (mkAnswerInput (js " a ") 900)).
