(* ===== verification/DailyPool.v ===== *)
(** * The daily challenge under concurrency

    Any number of calls of any users at once, interleaved at every request,
    with requests that fail before or after they took effect: a session start
    is pinned once a day and a pending unlock is processed once; DailyStreaks
    has the streaks. *)

From stdpp Require Import gmap.
From S2P Require Import Prelude JsData Effects Shared Decimal Cards Async Pool Rely Calendar Tokens Daily DailyWorld.
#[local] Open Scope Z_scope.
#[local] Open Scope prog_scope.

Section Daily.
Context `{!Jwt}.

Inductive DailyCall :=
| CallToday (userId : option jstr)
| CallSubmit (userId : jstr) (input : DailySubmitInput)
| CallLeaderboard (dateKey : option jstr) (limit : Z).

(** The caller of a route gets an error or a response. *)
Definition daily_call (c : DailyCall) : DTask unit :=
  match c with
  | CallToday userId => best_effort (today_route userId)
  | CallSubmit userId input => best_effort (submit userId input)
  | CallLeaderboard dateKey limit => best_effort (getLeaderboard dateKey limit)
  end.

Context {E : Type} `{!DailyWorld E} `{!DailyWorldLaws E}.

(** ** Keys of sessions *)

Lemma toDateKey_length t : length (toDateKey t) = 10%nat.
Proof.
  unfold toDateKey, iso_date. rewrite length_take. unfold pad4, pad2. rewrite !length_app.
  destruct (_ && _); [|destruct (_ <? _)]; cbn; lia.
Qed.

Lemma sessionKey_inj u t u' t' :
  sessionKey u (toDateKey t) = sessionKey u' (toDateKey t') -> u = u' /\ toDateKey t = toDateKey t'.
Proof.
  unfold sessionKey. intros He%app_inv_head. rewrite !app_assoc in He.
  apply app_inj_2 in He as [He ->]; [|by rewrite !toDateKey_length].
  apply app_inj_2 in He as [-> _]; done.
Qed.

Lemma board_key_no_session d limit u t : cacheKey d limit <> sessionKey u (toDateKey t).
Proof. unfold cacheKey, sessionKey. by cbn. Qed.

(** No request deletes the key of a session. *)
Definition keeps_sessions (X : Type) (q : DailyReq X) : Prop :=
  forall u t, dropped_by q <> Some (sessionKey u (toDateKey t)).

(** Requests that write no key. *)
Definition pins_nothing (X : Type) (q : DailyReq X) : Prop := keeps_sessions X q /\ pinned_by q = None.

Lemma pins_nothing_del d limit : pins_nothing unit (QDel (cacheKey d limit)).
Proof. split; [|done]. intros u t He%(inj Some). by apply board_key_no_session in He. Qed.

Lemma mute_drain_rows userId rows first : mute pins_nothing (drain_rows userId rows first).
Proof.
  revert first. induction rows as [|row rows IH]; intros first; [done|]. cbn [drain_rows].
  unfold drain_row, transaction, maybeUnlockCardVariantInTx, best_effort. mutes.
Qed.

Lemma mute_submit userId input : mute pins_nothing (submit userId input).
Proof.
  unfold submit, verifySessionToken, loadQuestionSetById, resolved, parseQuestions, resolveStreakBefore, store_attempt,
    transaction, unlock_now, maybeUnlockCardVariantInTx, drainPendingCardVariantUnlocksInTx, invalidateLeaderboardCache,
    best_effort.
  mutes; try apply mute_drain_rows.
Qed.

Lemma mute_leaderboard dateKey limit : mute pins_nothing (getLeaderboard dateKey limit).
Proof. unfold getLeaderboard, safeGetCache, computeLeaderboard, safeSetCache, best_effort. mutes. Qed.

(** The clock shows the years 100 to 9999. *)
Definition sane_reply (X : Type) (q : DailyReq X) (r : outcome exn X) : Prop :=
  match q in DailyReq X return outcome exn X -> Prop with
  | QNow => fun r => match r with Ok t => ordinary t | Throw _ => True end
  | _ => fun _ => True
  end r.

Lemma answers_sane X (q : DailyReq X) e r e' : dw_answer X q e r e' -> sane_reply X q r.
Proof. intros Ha. destruct q; try done. destruct r as [t|]; [|done]. by apply now_read in Ha as [_ ?]. Qed.

(** ** The start of a session is pinned *)

(** The key of a session lives until its day is over. *)
Definition pins_last (e : E) : Prop :=
  forall u t v deadline, ordinary t -> dw_key e (sessionKey u (toDateKey t)) = Some (v, deadline) ->
    nextResetAt t <= deadline.

(** How the keys of sessions develop: they stay until their day is over. *)
Definition pins_stay (e e' : E) : Prop :=
  dw_now e <= dw_now e'
  /\ forall u t v deadline, dw_key e (sessionKey u (toDateKey t)) = Some (v, deadline) ->
       dw_key e' (sessionKey u (toDateKey t)) = Some (v, deadline) \/ deadline <= dw_now e'.

#[export] Instance pins_stay_preorder : PreOrder pins_stay.
Proof.
  split.
  - intros e. split; [lia|]. by left.
  - intros e1 e2 e3 [Hn Hk] [Hn' Hk']. split; [lia|]. intros u t v deadline H1.
    destruct (Hk u t v deadline H1) as [H2|]; [|right; lia]. by apply Hk'.
Qed.

Lemma pins_step X (q : DailyReq X) e r e' : keeps_sessions X q -> dw_answer X q e r e' -> pins_stay e e'.
Proof.
  intros Hq Ha. split; [by eapply now_mono|]. intros u t v deadline Hk. eapply key_stays; [exact Ha|exact Hk|apply Hq].
Qed.

Lemma pins_last_kept X (q : DailyReq X) e r e' :
  pinned_by q = None -> dw_answer X q e r e' -> pins_last e -> pins_last e'.
Proof.
  intros Hq Ha HI u t v deadline Ht Hk. destruct (key_new X q e r e' _ _ _ Ha Hk) as [Hk'|(ttl & Hp & _)]; [by eapply HI|congruence].
Qed.

(** The start that a session has got, as long as its day lasts. *)
Definition pinned (u : jstr) (t s : Z) (e : E) : Prop :=
  dw_now e < nextResetAt t ->
  exists deadline, dw_key e (sessionKey u (toDateKey t)) = Some (js_of_Z s, deadline) /\ nextResetAt t <= deadline.

Lemma pinned_stays u t s e e' : pins_stay e e' -> pinned u t s e -> pinned u t s e'.
Proof.
  intros [Hn Hk] Hp Hl. destruct Hp as (deadline & Hd & Hr); [lia|]. exists deadline. split; [|done].
  destruct (Hk u t _ _ Hd) as [|]; [done|lia].
Qed.

(** A response carries a token with the pinned start, or with none. *)
Definition may_respond (x : DailyEvent) (e : E) : Prop :=
  match x with
  | Responded (Some u) response =>
      exists t id start signedAt, ordinary t /\ dt_dateKey response = toDateKey t /\ dt_nextResetAt response = nextResetAt t
        /\ dt_sessionToken response = signDailySession (mkSessionClaims u (toDateKey t) id start) signedAt
        /\ forall s, start = Some s -> pinned u t s e
  | Responded None _ => True
  end.

Abbreviation Secure := (secure dw_answer pins_last keeps_sessions sane_reply may_respond).

Lemma steady_pins (K : E -> Prop) :
  (forall e e', pins_stay e e' -> K e -> K e') -> steady_fact dw_answer pins_last keeps_sessions K.
Proof. intros HK X q e r e' Hq _ Hk Ha. eapply HK; [|exact Hk]. by eapply pins_step. Qed.

(** A program that writes no key, whatever it knows. *)
Lemma pins_mute {R} (K : E -> Prop) (p : DTask R) Post :
  (forall e e', pins_stay e e' -> K e -> K e') -> mute pins_nothing p -> (forall o, Post o K) -> Secure K p Post.
Proof.
  intros HK Hp HP. eapply secure_mute; [exact (steady_pins K HK)| |exact Hp|done].
  intros X q [Hq Hn]. split; [done|]. intros e r e' HI Ha. by eapply pins_last_kept.
Qed.

(** A session start that is written now lives until its day is over. *)
Lemma pin_ttl t : ordinary t -> nextResetAt t <= t + 1000 * sessionPinTtlSeconds t.
Proof.
  intros Ht. unfold sessionPinTtlSeconds. generalize (nextResetAt t). intros n.
  Z.to_euclidean_division_equations; lia.
Qed.

Lemma same_reset t t' : ordinary t -> ordinary t' -> toDateKey t = toDateKey t' -> nextResetAt t = nextResetAt t'.
Proof.
  unfold ordinary. intros Ht Ht' He%toDateKey_inj; [|unfold four_digit_year; lia..].
  rewrite !next_reset by lia. by rewrite He.
Qed.

Lemma pinned_by_inv k v ttl k' v' ttl' :
  pinned_by (QSetIfAbsent k v ttl) = Some (k', v', ttl') -> k = k' /\ v = v' /\ ttl = ttl'.
Proof. cbn. generalize k v. intros a b Hp. by simplify_eq. Qed.

Lemma setnx_pins_last u t e r e' :
  ordinary t -> t <= dw_now e ->
  dw_answer _ (QSetIfAbsent (sessionKey u (toDateKey t)) (js_of_Z t) (sessionPinTtlSeconds t)) e r e' ->
  pins_last e -> pins_last e'.
Proof.
  intros Ht Hn Ha HI u' t' v deadline Ht' Hk.
  destruct (key_new _ _ _ _ _ _ _ _ Ha Hk) as [Hk'|(ttl & (He & _ & <-)%pinned_by_inv & Hd)]; [by eapply HI|].
  apply sessionKey_inj in He as [_ He]. rewrite <- (same_reset t t') by done. pose proof (pin_ttl t Ht). lia.
Qed.

Lemma setnx_pinned u t e e' :
  ordinary t -> t <= dw_now e ->
  dw_answer _ (QSetIfAbsent (sessionKey u (toDateKey t)) (js_of_Z t) (sessionPinTtlSeconds t)) e (Ok true) e' ->
  pinned u t t e'.
Proof.
  intros Ht Hn Ha _. destruct (setnx_true _ _ _ _ _ Ha) as [(deadline & Hk & Hd) _]. exists deadline.
  split; [done|]. pose proof (pin_ttl t Ht). lia.
Qed.

Lemma get_pinned u t v s e e' :
  ordinary t -> dw_answer _ (QGet (sessionKey u (toDateKey t))) e (Ok v) e' -> pins_last e' ->
  pinned_start v = Some s -> pinned u t s e'.
Proof.
  intros Ht Ha HI Hs _. apply get_read in Ha. destruct (dw_key e' _) as [[text deadline]|] eqn:Hk; cbn in Ha; subst v; [|done].
  cbn in Hs. destruct (integer_value text) as [n|] eqn:Hi; [|done]. cbn in Hs. case_match; simplify_eq.
  apply integer_value_Some in Hi as ->. exists deadline. split; [done|]. by eapply HI.
Qed.

Definition started_at (u : jstr) (t : Z) (start : option Z) (e : E) : Prop :=
  forall s, start = Some s -> pinned u t s e.

Lemma started_stays u t start e e' : pins_stay e e' -> started_at u t start e -> started_at u t start e'.
Proof. intros Hp Hs s Hst. eapply pinned_stays; [exact Hp|by apply Hs]. Qed.

Lemma secure_pin u t Post :
  ordinary t -> (forall start, Post (Ok start) (started_at u t start)) ->
  Secure (fun e => t <= dw_now e) (pinSessionStart u (toDateKey t) t) Post.
Proof.
  intros Ht HP. unfold pinSessionStart. apply secure_bind, secure_attempt, secure_await; [done|].
  intros r. exists (started_at u t (match r with Ok true => Some t | _ => None end)). split; [|split].
  - intros e e' HI Hn Ha. split; [by eapply setnx_pins_last|].
    intros s. destruct r as [[]|]; [|done..]. intros [= <-]. by eapply setnx_pinned.
  - apply steady_pins. intros e e'. apply started_stays.
  - destruct r as [[]|err]; cbn [pbind pret ok_value]; [apply HP| |apply HP].
    apply secure_await; [done|]. intros r _.
    exists (started_at u t (match r with Ok v => pinned_start v | _ => None end)). split; [|split].
    + intros e e' HI _ Ha. assert (pins_last e') by (eapply pins_last_kept; [|exact Ha|done]; done). split; [done|].
      intros s. destruct r as [v|]; [|done]. intros Hs. by eapply get_pinned.
    + apply steady_pins. intros e e'. apply started_stays.
    + destruct r as [v|err]; apply HP.
Qed.

Lemma mute_load dateKey : mute pins_nothing (loadQuestionSet dateKey).
Proof. unfold loadQuestionSet, resolved, parseQuestions. mutes. Qed.

Lemma mute_streak userId dateKey : mute pins_nothing (resolveStreakBefore userId dateKey).
Proof. unfold resolveStreakBefore. mutes. Qed.


Lemma secure_now {R} (k : Z -> DTask R) Post :
  (forall t, ordinary t -> Secure (fun e => t <= dw_now e) (k t) Post) ->
  (forall err, Post (Throw err) (fun _ => True)) ->
  Secure (fun _ => True) (pbind (await QNow) k) Post.
Proof.
  intros Hk Hthrow. apply secure_await; [done|]. intros r Hr.
  exists (fun e => match r with Ok t => t <= dw_now e | _ => True end). split; [|split].
  - intros e e' HI _ Ha. split; [by eapply pins_last_kept; [|exact Ha|]|].
    destruct r as [t|]; [|done]. apply now_read in Ha as [Hn Ho]. lia.
  - apply steady_pins. intros e e' [Hn _]. destruct r; [lia|done].
  - destruct r as [t|err]; [|apply Hthrow]. by apply Hk.
Qed.

Lemma secure_today u : Secure (fun _ => True) (today_route (Some u)) (fun _ _ => True).
Proof.
  unfold today_route, getToday. apply secure_bind, secure_now; [|done]. intros t Ht.
  apply secure_bind, pins_mute; [intros e e' [? _]; lia|apply mute_load|]. intros [set|err]; [|done].
  apply secure_bind, pins_mute; [intros e e' [? _]; lia|unfold resolveStreakBefore; mutes|]. intros [standing|err]; [|done].
  unfold issueSessionToken. apply secure_bind, secure_bind, secure_pin; [done|]. intros start.
  apply secure_bind, pins_mute; [intros e e'; apply started_stays|mutes|]. intros [signedAt|err]; [|done]. cbn.
  split; [|done]. intros e _ HK. exists t, (rs_id set), start, signedAt. by split_and!.
Qed.

Lemma secure_anonymous : Secure (fun _ => True) (today_route None) (fun _ _ => True).
Proof.
  unfold today_route, getToday. apply secure_bind, secure_now; [|done]. intros t Ht.
  apply secure_bind, pins_mute; [intros e e' [? _]; lia|apply mute_load|]. intros [set|err]; [|done].
  apply secure_bind, pins_mute; [intros e e' [? _]; lia|done|]. intros [standing|err]; [|done].
  apply secure_bind, pins_mute; [intros e e' [? _]; lia|unfold issueSessionToken; mutes|]. by intros [token|err].
Qed.

Lemma secure_call c : Secure (fun _ => True) (daily_call c) (fun _ _ => True).
Proof.
  destruct c as [[u|]|userId input|dateKey limit]; cbn [daily_call]; unfold best_effort;
    apply secure_bind, secure_attempt.
  - eapply secure_mono; [|apply secure_today]. done.
  - eapply secure_mono; [|apply secure_anonymous]. done.
  - apply pins_mute; [done|apply mute_submit|done].
  - apply pins_mute; [done|apply mute_leaderboard|done].
Qed.

Context `{!JwtLaws}.

(** The start that a token carries. *)
Definition token_start (token : jstr) (later : Z) : option Z :=
  match verifyDailySession token later with
  | Ok claims => match map_get (js "startedAtMs") claims with Some (CNum s) => Some s | _ => None end
  | Throw _ => None
  end.

Lemma signed_start claims signedAt later s :
  token_start (signDailySession claims signedAt) later = Some s -> sc_startedAtMs claims = Some s.
Proof.
  unfold token_start. rewrite sign_session_verify. destruct (_ <? _); [|done].
  replace (map_get (js "startedAtMs") (stamped (session_payload claims) DAILY_SESSION_TTL_SECONDS signedAt))
    with (Some (match sc_startedAtMs claims with Some n => CNum n | None => CNull end)) by reflexivity.
  by destruct (sc_startedAtMs claims); intros; simplify_eq.
Qed.

(** Two responses of one day, the one served before the other. *)
Lemma one_start u r1 e1 r2 e2 l1 l2 s1 s2 :
  pins_stay e1 e2 -> may_respond (Responded (Some u) r1) e1 -> may_respond (Responded (Some u) r2) e2 ->
  dt_dateKey r1 = dt_dateKey r2 -> dw_now e2 < dt_nextResetAt r2 ->
  token_start (dt_sessionToken r1) l1 = Some s1 -> token_start (dt_sessionToken r2) l2 = Some s2 -> s1 = s2.
Proof.
  intros Hle (t1 & id1 & st1 & at1 & Ho1 & Hd1 & Hn1 & Ht1 & Hp1) (t2 & id2 & st2 & at2 & Ho2 & Hd2 & Hn2 & Ht2 & Hp2)
    Hday Hlate H1 H2.
  rewrite Hd1, Hd2 in Hday. rewrite Ht1 in H1. rewrite Ht2 in H2.
  apply signed_start in H1. apply signed_start in H2. cbn in H1, H2.
  pose proof (pinned_stays _ _ _ _ _ Hle (Hp1 _ H1)) as Hpin1. specialize (Hp2 _ H2).
  unfold pinned in Hpin1, Hp2. rewrite Hday, (same_reset t1 t2) in Hpin1 by done. rewrite Hn2 in Hlate.
  destruct (Hpin1 Hlate) as (d1 & Hk1 & _). destruct (Hp2 Hlate) as (d2 & Hk2 & _).
  rewrite Hk1 in Hk2. apply (inj Some), pair_equal_spec in Hk2 as [Hk2 _]. by apply js_of_Z_inj in Hk2.
Qed.

(** C14: fetching today's questions again never resets the session clock.
    Whatever calls of whatever users run at once, interleaved at every request,
    in however many processes, with requests that fail before or after they
    took effect: all the session tokens that a user is handed for one day,
    while that day lasts, either carry no start at all or carry one and the
    same start. *)
Theorem session_start_is_pinned (calls : list DailyCall) (e e' : E) (pool : list (DTask unit))
    (said : list (DailyEvent * E)) (u : jstr) (r1 r2 : DailyTodayResponse) (e1 e2 : E) (later1 later2 s1 s2 : Z) :
  pins_last e -> pool_says dw_answer (e, daily_call <$> calls) said (e', pool) ->
  (Responded (Some u) r1, e1) ∈ said -> (Responded (Some u) r2, e2) ∈ said ->
  dt_dateKey r1 = dt_dateKey r2 -> dw_now e1 < dt_nextResetAt r1 -> dw_now e2 < dt_nextResetAt r2 ->
  token_start (dt_sessionToken r1) later1 = Some s1 -> token_start (dt_sessionToken r2) later2 = Some s2 ->
  s1 = s2.
Proof.
  intros HI Hr Hin1 Hin2 Hday Hl1 Hl2 H1 H2. 
  destruct (pool_secure dw_answer pins_last keeps_sessions sane_reply may_respond pins_stay
    (fun X q e r e' Hq _ => pins_step X q e r e' Hq) (fun X q e r e' _ => answers_sane X q e r e') _ _ _ Hr HI)
    as (_ & _ & Hall & Hs); [apply calls_safe, secure_call|].
  rewrite Forall_forall in Hall. destruct (Hall _ Hin1) as [Hm1 _]. destruct (Hall _ Hin2) as [Hm2 _]. cbn in Hm1, Hm2.
  apply list_elem_of_lookup in Hin1 as [i1 Hi1]. apply list_elem_of_lookup in Hin2 as [i2 Hi2].
  destruct (Nat.lt_trichotomy i1 i2) as [Hlt|[->|Hlt]].
  - apply (one_start u r1 e1 r2 e2 later1 later2); try done. exact (StronglySorted_at _ _ _ _ _ _ Hs Hlt Hi1 Hi2).
  - rewrite Hi1 in Hi2. injection Hi2 as -> ->. apply (one_start u r2 e2 r2 e2 later1 later2); try done.
  - symmetry. apply (one_start u r2 e2 r1 e1 later2 later1); try done. exact (StronglySorted_at _ _ _ _ _ _ Hs Hlt Hi2 Hi1).
Qed.
End Daily.

(** Two tabs fetch the questions at once. *)
Definition demo_tabs : list DailyCall := [CallToday (Some demo_user); CallToday (Some demo_user)].
Definition tabs_run : list (DailyEvent * PlainWorld) * (PlainWorld * list (DTask unit)) :=
  says_run demo_reply tt (flat_map (fun _ => [0; 1]%nat) (seq 0 16)) demo_world (daily_call <$> demo_tabs).

Definition tab_response (i : nat) : DailyTodayResponse * PlainWorld :=
  match tabs_run.1 !! i with
  | Some (Responded _ r, w) => (r, w)
  | None => (mkTodayResponse [] 0 [] [] 0 0 false None, demo_world)
  end.

Lemma tab_responses : length tabs_run.1 = 2%nat.
Proof. by_compute. Qed.

Theorem session_start_is_pinned_witness :
  token_start (dt_sessionToken (tab_response 0).1) (leap_day + 20000) = Some (leap_day + 1000)
  /\ token_start (dt_sessionToken (tab_response 1).1) (leap_day + 30000) = Some (leap_day + 1000)
  /\ leap_day + 1000 = leap_day + 1000.
Proof.
  split; [by_compute|]. split; [by_compute|].
  apply (session_start_is_pinned demo_tabs demo_world tabs_run.2.1 tabs_run.2.2 tabs_run.1 demo_user
    (tab_response 0).1 (tab_response 1).1 (tab_response 0).2 (tab_response 1).2 (leap_day + 20000) (leap_day + 30000)).
  - intros u t v deadline _.
    change (dw_key demo_world (sessionKey u (toDateKey t)))
      with ((∅ : gmap jstr (jstr * Z)) !! sessionKey u (toDateKey t)).
    by rewrite lookup_empty.
  - rewrite <- surjective_pairing. unfold tabs_run. apply says_run_says, demo_answers.
  - apply list_elem_of_lookup_2 with 0%nat. vm_compute. reflexivity.
  - apply list_elem_of_lookup_2 with 1%nat. vm_compute. reflexivity.
  - by_compute.
  - by_compute.
  - by_compute.
  - by_compute.
  - by_compute.
Defined.

(** ** A pending card unlock is processed once

    Submits that run at once may all see the same pending unlock; the row lock
    makes one of them process it. *)

Section Unlocks.
Context `{!Jwt} {E : Type} `{!DailyWorld E} `{!DailyWorldLaws E}.

(** A row is processed once at most, and whoever has marked it in an open
    transaction holds its lock and is the first. *)
Definition processed_once (e : E) : Prop :=
  forall id, (dw_processed e id <= 1)%nat
    /\ forall tx, id ∈ dw_marked e tx -> dw_lock e id = Some tx /\ dw_processed e id = 0%nat.

(** As long as [tx] is open the row is its, and unprocessed. *)
Definition claimed (tx : nat) (id : jstr) (e : E) : Prop :=
  dw_known e tx /\ (dw_open e tx -> dw_lock e id = Some tx /\ dw_processed e id = 0%nat).

Definition anything (e e' : E) : Prop := True.
#[export] Instance anything_preorder : PreOrder anything.
Proof. by split. Qed.

Definition every_request (X : Type) (q : DailyReq X) : Prop := True.
Definition every_word (x : DailyEvent) (e : E) : Prop := True.

Abbreviation Steady := (steady_fact dw_answer processed_once every_request).
Abbreviation Secure := (secure dw_answer processed_once every_request sane_reply every_word).

(** The marks of a transaction after a request that does not make them. *)
Lemma marks_hold X (q : DailyReq X) e r e' id tx :
  marked_by q <> Some (tx, id) -> dw_answer X q e r e' -> processed_once e -> id ∈ dw_marked e' tx ->
  id ∈ dw_marked e tx /\ dw_lock e' id = Some tx.
Proof.
  intros Hq Ha HI Hm. destruct (marked_new X q e r e' tx id Ha Hm) as [Hm'|[? _]]; [|done].
  destruct (proj2 (HI id) tx Hm') as [Hl _]. split; [done|].
  eapply lock_stays; [exact Ha|done|by eapply marked_open].
Qed.

(** How often a row is processed after any request. *)
Lemma processed_step X (q : DailyReq X) e r e' id :
  dw_answer X q e r e' -> processed_once e ->
  dw_processed e' id = dw_processed e id
  \/ exists tx, ~ dw_open e' tx /\ id ∈ dw_marked e tx /\ dw_processed e id = 0%nat /\ dw_processed e' id = 1%nat
       /\ marked_by q = None.
Proof.
  intros Ha HI. destruct q; try (left; by eapply processed_same).
  destruct (processed_commit _ _ _ _ Ha) as [Hp|[Hm Hp]]; [by left|]. rewrite Hp.
  destruct (decide (id ∈ dw_marked e tx)) as [Hin|]; [right|left; lia].
  destruct (proj2 (HI id) tx Hin) as [_ H0]. exists tx. rewrite H0. by split_and!.
Qed.

(** A request keeps the invariant when what it marks is claimed. *)
Lemma once_kept X (q : DailyReq X) e r e' :
  (forall tx id, marked_by q = Some (tx, id) -> claimed tx id e) ->
  dw_answer X q e r e' -> processed_once e -> processed_once e'.
Proof.
  intros Hq Ha HI id. destruct (processed_step X q e r e' id Ha HI) as [Hp|(tx & Ho & Hin & H0 & H1 & Hm)].
  - rewrite Hp. split; [apply HI|]. intros tx Hm. pose proof (marked_open _ _ _ Hm) as Ho.
    destruct (decide (id ∈ dw_marked e tx)) as [Hin|Hin].
    + destruct (proj2 (HI id) tx Hin) as [Hl Hz]. split; [by eapply lock_stays|done].
    + destruct (marked_new X q e r e' tx id Ha Hm) as [|[Hmark Ho']]; [done|].
      destruct (Hq _ _ Hmark) as [_ Hc]. destruct (Hc Ho') as [Hl Hz]. split; [by eapply lock_stays|done].
  - rewrite H1. split; [lia|]. intros tx' Hm'.
    destruct (marks_hold X q e r e' id tx') as [Hin' _]; [congruence|done..|].
    destruct (proj2 (HI id) tx Hin) as [Hl _]. destruct (proj2 (HI id) tx' Hin') as [Hl' _].
    assert (tx' = tx) as -> by congruence. by apply marked_open in Hm'.
Qed.

(** Nobody can take a claim away. *)
Lemma steady_claim tx id : Steady (claimed tx id).
Proof.
  intros X q e r e' _ HI [Hk Hc] Ha. split; [by eapply known_stays|]. intros Ho.
  destruct Hc as [Hl Hz]; [by eapply over_stays|]. split; [by eapply lock_stays|].
  destruct (processed_step X q e r e' id Ha HI) as [->|(tx' & Ho' & Hin & _)]; [done|].
  destruct (proj2 (HI id) tx' Hin) as [Hl' _]. by assert (tx' = tx) as -> by congruence.
Qed.

Definition marks_nothing (X : Type) (q : DailyReq X) : Prop := marked_by q = None.

Lemma unlock_mute {R} K (p : DTask R) Post :
  Steady K -> mute marks_nothing p -> (forall o, Post o K) -> Secure K p Post.
Proof.
  intros HK Hp HP. eapply secure_mute; [exact HK| |exact Hp|done].
  intros X q Hm. split; [done|]. intros e r e' HI Ha. eapply once_kept; [|exact Ha|done]. intros tx id. by rewrite Hm.
Qed.

Lemma mute_maybe db userId n : mute marks_nothing (maybeUnlockCardVariantInTx db userId n).
Proof. unfold maybeUnlockCardVariantInTx. mutes. Qed.

(** The transaction of one pending row. *)
Lemma secure_drain_row userId row K Post :
  Steady K -> (forall o K, Steady K -> Post o K) -> Secure K (drain_row userId row) Post.
Proof.
  intros HK HP. unfold drain_row, transaction, best_effort. apply secure_bind, unlock_mute; [done|by split|].
  intros [tx|err]; [|by apply HP]. apply secure_bind, secure_attempt.
  assert (Hend : forall (o : outcome exn (option Grant)) K, Steady K ->
    Secure K (match o with
              | Ok r => await (QCommit tx) ;; pret r
              | Throw e => (attempt (await (QRollback tx)) ;; pret tt) ;; raise e
              end : DTask (option Grant)) Post).
  { intros o K0 HK0. apply unlock_mute; [done|mutes|]. intros o'. by apply HP. }
  apply secure_await; [done|]. intros r _.
  exists (fun e => match r with Ok (_ :: _) => claimed tx (pu_id row) e | _ => True end). split; [|split].
  - intros e e' HI _ Ha. split; [by eapply once_kept; [|exact Ha|]|]. destruct r as [[|x l]|]; [done| |done].
    apply lock_granted in Ha as (? & ? & ?). by split.
  - destruct r as [[|x l]|]; [done|apply steady_claim|done].
  - destruct r as [[|x l]|err]; [by apply (Hend (Ok None))| |by apply (Hend (Throw err))].
    apply secure_bind, unlock_mute; [apply steady_claim|apply mute_maybe|].
    intros [g|err]; [|exact (Hend (Throw err) _ (steady_claim _ _))].
    apply secure_bind, unlock_mute; [apply steady_claim|by split|].
    intros [at_|err]; [|exact (Hend (Throw err) _ (steady_claim _ _))].
    apply secure_await; [done|]. intros r _. exists (fun _ => True). split; [|split; [done|]].
    + intros e e' HI Hc Ha. split; [|done]. eapply once_kept; [|exact Ha|done]. by intros tx' id [= <- <-].
    + destruct r as [[]|err]; [by apply (Hend (Ok g))|by apply (Hend (Throw err))].
Qed.

Lemma secure_drain_rows userId rows first K Post :
  Steady K -> (forall o K, Steady K -> Post o K) -> Secure K (drain_rows userId rows first) Post.
Proof.
  intros HK HP. revert K HK first. induction rows as [|row rows IH]; intros K HK first; [by apply HP|].
  cbn [drain_rows]. apply secure_bind, secure_attempt, secure_drain_row; [done|]. intros o K' HK'. by apply IH.
Qed.

Lemma secure_unlock_submit userId input : Secure (fun _ => True) (submit userId input) (fun _ _ => True).
Proof.
  unfold submit. apply secure_bind, unlock_mute; [done|by split|]. intros [now|err]; [|done].
  apply secure_bind, unlock_mute; [done|unfold verifySessionToken; mutes|]. intros [claims|err]; [|done].
  destruct (decide _); [done|]. destruct (decide _); [done|].
  apply secure_bind, unlock_mute; [done|unfold loadQuestionSetById, resolved, parseQuestions; mutes|].
  intros [set|err]; [|done]. destruct (negb _); [done|].
  apply secure_bind, unlock_mute; [done|unfold resolveStreakBefore; mutes|]. intros [before|err]; [|done].
  apply secure_bind, unlock_mute; [done|unfold store_attempt, transaction, best_effort; mutes|]. intros [at_|err]; [|done].
  apply secure_bind, unlock_mute; [done|unfold unlock_now, maybeUnlockCardVariantInTx, best_effort; mutes|].
  intros [unlock|err]; [|done].
  apply secure_bind. unfold drainPendingCardVariantUnlocksInTx. apply secure_bind, unlock_mute; [done|mutes|].
  assert (Hend : forall K drained, Steady K ->
    Secure K (invalidateLeaderboardCache (toDateKey now) ;;
      pret (submit_response set (grade (rs_questions set) (si_answers input))
        (attempt_row (toDateKey now) userId set (grade (rs_questions set) (si_answers input)) (elapsed claims now) before)
        at_ (match unlock with Some g => Some g | None => drained end))) (fun _ _ => True)).
  { intros K drained HK. apply unlock_mute; [done|unfold invalidateLeaderboardCache, best_effort; mutes|done]. }
  intros [[rows|err]|err]; [|by apply (Hend _ None)|done].
  apply secure_drain_rows; [done|]. intros [drained|err] K HK; [by apply Hend|done].
Qed.

Lemma secure_unlocking c : Secure (fun _ => True) (daily_call c) (fun _ _ => True).
Proof.
  destruct c as [u|u input|dateKey limit]; cbn [daily_call]; unfold best_effort; apply secure_bind, secure_attempt.
  - unfold today_route. apply secure_bind, unlock_mute; [done| |by intros [r|err]].
    unfold getToday, loadQuestionSet, resolved, parseQuestions, resolveStreakBefore, issueSessionToken, pinSessionStart.
    mutes.
  - eapply secure_mono; [|apply secure_unlock_submit]. done.
  - apply unlock_mute; [done| |done].
    unfold getLeaderboard, safeGetCache, computeLeaderboard, safeSetCache, best_effort. mutes.
Qed.

End Unlocks.

(** Two submits around midnight drain the same pending unlock. *)
Definition demo_evening : Z := leap_day + MS_PER_DAY - 8005.
Definition demo_answers_of (dateKey id : jstr) : DailySubmitInput :=
  mkSubmitInput (signDailySession (mkSessionClaims demo_user dateKey id None) demo_evening)
    (replicate 5 (mkAnswerInput (js "b") 900)).
Definition demo_midnight : PlainWorld :=
  mkPlainWorld demo_evening ∅ ∅
    [demo_set; mkDailyQuestion (js "s2") (js "2024-03-01") 1 (Some (replicate 5 demo_question))]
    (pw_attempts demo_world) ∅ 0 ∅ ∅ (pw_pending demo_world) ∅ ∅ [].
Definition demo_drains : list DailyCall := [CallSubmit demo_user (demo_answers_of (toDateKey leap_day) (js "s1"));
   CallSubmit demo_user (demo_answers_of (js "2024-03-01") (js "s2"))].
Definition drains_run : list (DailyEvent * PlainWorld) * (PlainWorld * list (DTask unit)) :=
  says_run demo_reply tt (replicate 7 0%nat ++ flat_map (fun _ => [1; 1; 0]%nat) (seq 0 12)) demo_midnight (daily_call <$> demo_drains).

