(* ===== verification/DailyStreaks.v ===== *)
(** * Streaks are earned

    The streak that an attempt stores is backed by perfect attempts on as many
    days in a row, however the calls interleave. *)

From stdpp Require Import gmap.
From S2P Require Import Prelude JsData Effects Shared Decimal Cards Async Pool Rely Calendar Tokens Daily DailyWorld DailyPool.
#[local] Open Scope Z_scope.
#[local] Open Scope prog_scope.

(** Every answer of an attempt is correct. *)
Definition all_correct (row : NewAttempt) : Prop := Forall (fun a => a.1.2 = true) (na_answers row).

Lemma four_digit_pred t : ordinary t -> four_digit_year (day_of (t - MS_PER_DAY)).
Proof.
  unfold ordinary, four_digit_year. rewrite day_of_previous. generalize (day_of t). intros d Hd.
  assert (Hy : forall d, cv_year (civil_of_day d) = year_of d).
  { intros d'. unfold civil_of_day. by destruct (month_from _ _). }
  rewrite Hy in Hd. rewrite Hy. pose proof (year_of_spec d) as H1. pose proof (year_of_spec (d - 1)) as H2.
  destruct (Z.lt_trichotomy (year_of (d - 1)) (year_of d)) as [Hl|[He|Hl]]; [|lia|].
  - destruct (decide (year_of (d - 1) + 1 < year_of d)) as [Hl2|]; [|lia].
    pose proof (year_start_mono _ _ Hl2). pose proof (year_length_pos (year_of (d - 1) + 1)). lia.
  - pose proof (year_start_mono _ _ Hl). rewrite leap_div in H1. lia.
Qed.

(** A grade is perfect when the number of correct answers is that of the
    questions. *)
Lemma all_correct_row dateKey userId set answers elapsedMs before :
  length answers = length (rs_questions set) ->
  let row := attempt_row dateKey userId set (grade (rs_questions set) answers) elapsedMs before in
  na_streakAfter row = 0 \/ all_correct row /\ na_streakAfter row = before + 1.
Proof.
  intros Hl. cbn zeta. unfold attempt_row. cbn [na_streakAfter]. destruct (_ =? _) eqn:Hc; [right|by left].
  split; [|done]. bool_to_prop. unfold all_correct. cbn [na_answers]. apply Forall_fmap. cbn.
  assert (Hg : length (grade (rs_questions set) answers) = length (rs_questions set)).
  { unfold grade. rewrite length_zip_with. lia. }
  revert Hc Hg. generalize (grade (rs_questions set) answers) (length (rs_questions set)). intros l n Hc <-.
  apply Nat2Z.inj in Hc. clear Hl. induction l as [|r l IH]; [constructor|]. rewrite filter_cons in Hc.
  pose proof (length_filter (fun r => dr_isCorrect r = true) l) as Hle.
  destruct (decide (dr_isCorrect r = true)) as [Hr|Hr]; cbn in Hc; [|lia]. constructor; [done|]. apply IH. lia.
Qed.

Section Streaks.
Context `{!Jwt} {E : Type} `{!DailyWorld E} `{!DailyWorldLaws E}.

(** [perfect_days e u n day]: [u] has played [n] perfect days up to [day]. *)
Fixpoint perfect_days (e : E) (u : jstr) (n : nat) (day : Z) : Prop :=
  match n with
  | O => True
  | S n' =>
      (exists row, dw_attempt e (toDateKey (day * MS_PER_DAY)) u = Some row /\ all_correct row)
      /\ perfect_days e u n' (day - 1)
  end.

(** An attempt of a day whose streak is earned by the days before, and by
    itself. *)
Definition earned (e : E) (row : NewAttempt) : Prop :=
  exists day n, four_digit_year day /\ na_dateKey row = toDateKey (day * MS_PER_DAY)
    /\ na_streakAfter row = Z.of_nat n
    /\ match n with
       | O => True
       | S m => all_correct row /\ perfect_days e (na_userId row) m (day - 1)
       end.

(** All attempts, stored or about to be, are earned. *)
Definition streaks_earned (e : E) : Prop :=
  (forall d u row, dw_attempt e d u = Some row -> na_dateKey row = d /\ na_userId row = u /\ earned e row)
  /\ forall tx row, row ∈ dw_created e tx -> earned e row.

(** Attempts stay. *)
Definition attempts_stay (e e' : E) : Prop :=
  forall d u row, dw_attempt e d u = Some row -> dw_attempt e' d u = Some row.

#[export] Instance attempts_stay_preorder : PreOrder attempts_stay.
Proof. split; [by intros e d u row|]. intros e1 e2 e3 H1 H2 d u row Hr. by apply H2, H1. Qed.

Lemma attempts_step X (q : DailyReq X) e r e' : dw_answer X q e r e' -> attempts_stay e e'.
Proof. intros Ha d u row. by eapply attempt_stays. Qed.

Lemma perfect_stays e e' u n day : attempts_stay e e' -> perfect_days e u n day -> perfect_days e' u n day.
Proof.
  intros Hs. revert day. induction n as [|n IH]; intros day; [done|]. intros [(row & Hr & Hc) Hn].
  split; [|by apply IH]. exists row. split; [by apply Hs|done].
Qed.

Lemma earned_stays e e' row : attempts_stay e e' -> earned e row -> earned e' row.
Proof.
  intros Hs (day & n & Hd & Hk & Hn & He). exists day, n. split_and!; try done. destruct n; [done|].
  destruct He as [Hc Hp]. split; [done|]. by eapply perfect_stays.
Qed.

(** A request keeps the invariant when the attempt it creates is earned. *)
Lemma streaks_kept X (q : DailyReq X) e r e' :
  (forall tx row, created_by q = Some (tx, row) -> earned e' row) ->
  dw_answer X q e r e' -> streaks_earned e -> streaks_earned e'.
Proof.
  intros Hc Ha [HI1 HI2]. pose proof (attempts_step X q e r e' Ha) as Hs. split.
  - intros d u row Hr. destruct (attempt_new X q e r e' d u row Ha Hr) as [Hr'|(tx & _ & Hr' & <- & <-)].
    + destruct (HI1 d u row Hr') as (? & ? & ?). split_and!; try done. by eapply earned_stays.
    + split_and!; try done. eapply earned_stays; [exact Hs|by eapply HI2].
  - intros tx row Hr. destruct (created_new X q e r e' tx row Ha Hr) as [Hr'|Hq]; [|by eapply Hc].
    eapply earned_stays; [exact Hs|by eapply HI2].
Qed.

Definition creates_nothing (X : Type) (q : DailyReq X) : Prop := created_by q = None.
Definition any_request (X : Type) (q : DailyReq X) : Prop := True.
Definition any_word (x : DailyEvent) (e : E) : Prop := True.

Abbreviation Secure := (secure dw_answer streaks_earned any_request sane_reply any_word).

Lemma steady_streaks (K : E -> Prop) :
  (forall e e', attempts_stay e e' -> K e -> K e') -> steady_fact dw_answer streaks_earned any_request K.
Proof. intros HK X q e r e' _ _ Hk Ha. eapply HK; [by eapply attempts_step|done]. Qed.

Lemma streaks_mute {R} (K : E -> Prop) (p : DTask R) Post :
  steady_fact dw_answer streaks_earned any_request K -> mute creates_nothing p ->
  (forall o, Post o K) -> Secure K p Post.
Proof.
  intros HK Hp HP. eapply secure_mute; [exact HK| |exact Hp|done].
  intros X q Hq. split; [done|]. intros e r e' HI Ha. eapply streaks_kept; [|exact Ha|done].
  intros tx row. by rewrite Hq.
Qed.

Lemma steady_nothing : steady_fact dw_answer streaks_earned any_request (fun _ => True).
Proof. by apply steady_streaks. Qed.

(** ** A submit *)

Lemma mute_drain userId : mute creates_nothing (drainPendingCardVariantUnlocksInTx userId).
Proof.
  unfold drainPendingCardVariantUnlocksInTx. apply mute_bind; [mutes|]. intros [rows|err]; [|done].
  generalize (None : option Grant). induction rows as [|row rows IH]; intros first; [done|]. cbn [drain_rows].
  unfold drain_row, transaction, maybeUnlockCardVariantInTx, best_effort. mutes.
Qed.

(** What the attempt of the day before says about the streak. *)
Definition before_ok (u : jstr) (t : Z) (before : Z) (e : E) : Prop :=
  exists n, before = Z.of_nat n /\ perfect_days e u n (day_of t - 1).

Lemma before_stays u t before e e' : attempts_stay e e' -> before_ok u t before e -> before_ok u t before e'.
Proof. intros Hs (n & Hn & Hp). exists n. split; [done|by eapply perfect_stays]. Qed.

Lemma streak_read u t r e e' :
  ordinary t -> dw_answer _ (QAttempt (toDateKey (t - MS_PER_DAY)) u) e (Ok r) e' -> streaks_earned e' ->
  before_ok u t (default 0 r) e'.
Proof.
  intros Ht Ha [HI _]. apply attempt_read in Ha as ->. destruct (dw_attempt e' _ u) as [row|] eqn:Hr; [|by exists O].
  destruct (HI _ _ _ Hr) as (Hk & Hu & day & n & Hd & Hk' & Hn & He). exists n. split; [done|].
  rewrite Hk in Hk'. assert (Hday : day_of (t - MS_PER_DAY) = day).
  { rewrite <- (day_of_mul day). apply toDateKey_inj; [by apply four_digit_pred|by rewrite day_of_mul|done]. }
  destruct n as [|m]; [done|]. destruct He as [Hc Hp]. rewrite day_of_previous in Hday. subst day u.
  split; [|done]. exists row. split; [|done]. by rewrite <- Hk'.
Qed.

(** The attempt that is built from it is earned. *)
Lemma row_earned u t set answers elapsedMs before e :
  ordinary t -> length answers = length (rs_questions set) -> before_ok u t before e ->
  earned e (attempt_row (toDateKey t) u set (grade (rs_questions set) answers) elapsedMs before).
Proof.
  intros Ht Hl (n & -> & Hp). pose proof (all_correct_row (toDateKey t) u set answers elapsedMs (Z.of_nat n) Hl) as Hr.
  cbn zeta in Hr. set (row := attempt_row _ _ _ _ _ _) in *. exists (day_of t).
  assert (Hk : na_dateKey row = toDateKey (day_of t * MS_PER_DAY)) by (unfold toDateKey; by rewrite day_of_mul).
  assert (Hf : four_digit_year (day_of t)) by (unfold ordinary in Ht; unfold four_digit_year; lia).
  destruct Hr as [Hz|[Hc Hs]]; [by exists O|]. exists (S n). split_and!; [done|done|lia|done|done].
Qed.

Lemma secure_store u t before (row : NewAttempt) Post :
  (forall e, before_ok u t before e -> earned e row) -> (forall o K, steady_fact dw_answer streaks_earned any_request K -> Post o K) ->
  Secure (before_ok u t before) (store_attempt row) Post.
Proof.
  intros He HP. unfold store_attempt, transaction.
  assert (Hst : forall e e', attempts_stay e e' -> before_ok u t before e -> before_ok u t before e')
    by (intros e e'; apply before_stays).
  assert (HP' : forall o, Post o (before_ok u t before)) by (intros o; apply HP, steady_streaks, Hst).
  apply secure_bind, secure_attempt, secure_bind, streaks_mute; [by apply steady_streaks|by split|]. intros [tx|err].
  2:{ cbn. by destruct (decide _); apply HP'. }
  apply secure_bind, secure_attempt. cbn. split; [done|]. intros r _.
  exists (before_ok u t before). split; [|split; [by apply steady_streaks|]].
  - intros e e' HI Hb Ha. pose proof (Hst e e' (attempts_step _ _ _ _ _ Ha) Hb) as Hb'.
    split; [|done]. eapply streaks_kept; [|exact Ha|done]. intros tx' row' [= _ <-]. by apply He.
  - eapply streaks_mute; [by apply steady_streaks| |].
    + unfold best_effort. destruct r; mutes.
    + intros [at_|err]; cbn; [apply HP'|]. by destruct (decide _); apply HP'.
Qed.

Lemma secure_streak_submit u input : Secure (fun _ => True) (submit u input) (fun _ _ => True).
Proof.
  unfold submit. apply secure_await; [done|]. intros r Hr. exists (fun _ => True).
  split; [|split; [by apply steady_streaks|]].
  { intros e e' HI _ Ha. split; [by eapply streaks_kept; [|exact Ha|]|done]. }
  destruct r as [t|err]; [|done]. cbn in Hr.
  apply secure_bind, streaks_mute; [apply steady_nothing|unfold verifySessionToken; mutes|]. intros [claims|err]; [|done].
  destruct (decide _); [done|]. destruct (decide _); [done|].
  apply secure_bind, streaks_mute; [apply steady_nothing|unfold loadQuestionSetById, resolved, parseQuestions; mutes|].
  intros [set|err]; [|done]. destruct (bool_decide _) eqn:Hl; cbn [negb]; [|done]. bool_to_prop.
  unfold resolveStreakBefore. rewrite previous_key by (unfold ordinary in Hr; unfold four_digit_year; lia).
  apply secure_bind, secure_await; [done|]. intros r _.
  exists (fun e => match r with Ok r => before_ok u t (default 0 r) e | Throw _ => True end).
  split; [|split; [apply steady_streaks; intros e e'; destruct r; [apply before_stays|done]|]].
  { intros e e' HI _ Ha. assert (streaks_earned e') by (by eapply streaks_kept; [|exact Ha|]).
    split; [done|]. destruct r as [r|]; [|done]. by eapply streak_read. }
  destruct r as [before|err]; [|done]. cbn [pret secure].
  apply secure_bind, secure_store; [intros e; by apply row_earned|].
  intros [at_|err] K HK; [|done].
  apply secure_bind, streaks_mute; [done|unfold unlock_now, maybeUnlockCardVariantInTx, best_effort; mutes|].
  intros [unlock|err]; [|done].
  apply secure_bind, streaks_mute; [done|apply mute_drain|]. intros [drained|err]; [|done].
  apply secure_bind, streaks_mute; [done|unfold invalidateLeaderboardCache, best_effort; mutes|]. by intros [[]|err].
Qed.

Lemma secure_played c : Secure (fun _ => True) (daily_call c) (fun _ _ => True).
Proof.
  destruct c as [u|u input|dateKey limit]; cbn [daily_call]; unfold best_effort; apply secure_bind, secure_attempt.
  - unfold today_route. apply secure_bind, streaks_mute; [apply steady_nothing| |by intros [r|err]].
    unfold getToday, loadQuestionSet, resolved, parseQuestions, resolveStreakBefore, issueSessionToken, pinSessionStart.
    mutes.
  - eapply secure_mono; [|apply secure_streak_submit]. done.
  - apply streaks_mute; [apply steady_nothing| |done].
    unfold getLeaderboard, safeGetCache, computeLeaderboard, safeSetCache, best_effort. mutes.
Qed.

(** C21: no streak is longer than what was played.  However many submits of
    however many users run at once, interleaved at every statement, around
    midnight too, with statements that fail before or after they took effect:
    if the stored attempt of a user on a day claims a streak of n, then the
    user has stored attempts on that day and on the n-1 days before it, and
    every answer of each of them is correct. *)
Theorem streaks_are_earned (calls : list DailyCall) (e e' : E) (pool : list (DTask unit))
    (said : list (DailyEvent * E)) (u : jstr) (t : Z) (row : NewAttempt) :
  streaks_earned e -> pool_says dw_answer (e, daily_call <$> calls) said (e', pool) ->
  four_digit_year (day_of t) -> dw_attempt e' (toDateKey t) u = Some row ->
  0 <= na_streakAfter row /\ perfect_days e' u (Z.to_nat (na_streakAfter row)) (day_of t).
Proof.
  intros HI Hr Ht Hrow.
  destruct (pool_secure dw_answer streaks_earned any_request sane_reply any_word attempts_stay
    (fun X q e r e' _ _ => attempts_step X q e r e') (fun X q e r e' _ => answers_sane X q e r e') _ _ _ Hr HI)
    as ([HI' _] & _); [apply calls_safe, secure_played|].
  destruct (HI' _ _ _ Hrow) as (Hk & Hu & day & n & Hd & Hk' & Hn & He). rewrite Hn. split; [lia|]. rewrite Nat2Z.id.
  assert (day_of t = day) as ->.
  { rewrite <- (day_of_mul day). apply toDateKey_inj; [done|by rewrite day_of_mul|congruence]. }
  destruct n as [|m]; [done|]. subst u. destruct He as [Hc Hp]. split; [|done].
  exists row. split; [|done]. cbn in Hrow. by rewrite <- Hk', Hk.
Qed.
End Streaks.

(** A submit on the day after a perfect day. *)
Definition demo_submit : list DailyCall := [CallSubmit demo_user demo_input].
Definition streak_run : list (DailyEvent * PlainWorld) * (PlainWorld * list (DTask unit)) :=
  says_run demo_reply tt (replicate 40 0%nat) demo_world (daily_call <$> demo_submit).

Definition demo_today : NewAttempt :=
  mkNewAttempt (js "2024-02-29") demo_user (js "s1") (replicate 5 (js " a ", true, 900)) 1340 5 (Some 1000) 1 2.

Lemma demo_earned : streaks_earned demo_world.
Proof.
  split; [|intros tx row Hr; cbn in Hr; rewrite lookup_empty in Hr; by apply elem_of_nil in Hr].
  intros d u row Hr. cbn in Hr. apply lookup_singleton_Some in Hr as [Hk <-]. apply pair_equal_spec in Hk as [<- <-].
  split; [done|]. split; [done|]. exists (day_of (leap_day - MS_PER_DAY)), 1%nat.
  split; [split; vm_compute; discriminate|]. split; [by_compute|]. split; [done|].
  split; [|done]. apply Forall_replicate. done.
Qed.

Theorem streaks_are_earned_witness :
  dw_attempt streak_run.2.1 (toDateKey leap_day) demo_user = Some demo_today
  /\ 0 <= na_streakAfter demo_today
  /\ perfect_days streak_run.2.1 demo_user (Z.to_nat (na_streakAfter demo_today)) (day_of leap_day).
Proof.
  split; [by_compute|].
  apply (streaks_are_earned demo_submit demo_world streak_run.2.1 streak_run.2.2 streak_run.1 demo_user leap_day).
  - apply demo_earned.
  - rewrite <- surjective_pairing. unfold streak_run. apply says_run_says, demo_answers.
  - split; vm_compute; discriminate.
  - by_compute.
Defined.
