(* ===== verification/EventLoop.v ===== *)
(** * The event loop of a process

    Handlers of one process share its memory.  A handler runs undisturbed from
    the event that starts it, or from the answer to a request, until it waits
    for the next one; in between the other handlers have their turns.  What the
    requests are answered is left open.  [sound] is the logic for invariants
    that hold whenever a handler waits, and for what is said and asked. *)

From S2P Require Import Prelude JsData Effects Shared Async.
#[local] Open Scope Z_scope.

Section Loop.
Context {W O : Type} {Q : Type -> Type}.

(** What a handler does towards the outside, with the memory at that moment. *)
Inductive Entry :=
| Spoke (x : O) (w : W)
| Asks {X} (q : Q X) (w : W).

(** A turn: until the handler waits, or ends. *)
Fixpoint turn {R} (p : Prog W O Q R) (w : W) : list Entry * (Prog W O Q R * W) :=
  match p with
  | Done _ => ([], (p, w))
  | Act f k => turn (k (f w).1) (f w).2
  | Say x k => let '(l, s) := turn k w in (Spoke x w :: l, s)
  | Await q _ => ([Asks q w], (p, w))
  end.

(** [arrives w w1 p]: an event changes the memory to [w1] and starts [p]. *)
Context (arrives : W -> W -> Prog W O Q unit -> Prop).

Inductive loop : W * list (Prog W O Q unit) -> list Entry -> W * list (Prog W O Q unit) -> Prop :=
| loop_stop s : loop s [] s
| loop_event w w1 p ps l1 p' w' l2 s' :
    arrives w w1 p -> turn p w1 = (l1, (p', w')) -> loop (w', ps ++ [p']) l2 s' ->
    loop (w, ps) (l1 ++ l2) s'
| loop_resume w ps1 X (q : Q X) k ps2 r l1 p' w' l2 s' :
    turn (k r) w = (l1, (p', w')) -> loop (w', ps1 ++ p' :: ps2) l2 s' ->
    loop (w, ps1 ++ Await q k :: ps2) (l1 ++ l2) s'.

(** ** Invariants *)

Context (I : W -> Prop) (says : O -> W -> Prop) (asks : forall X, Q X -> W -> Prop).

Fixpoint sound {R} (p : Prog W O Q R) (w : W) (Post : outcome exn R -> W -> Prop) : Prop :=
  match p with
  | Done o => Post o w
  | Act f k => sound (k (f w).1) (f w).2 Post
  | Say x k => says x w /\ sound k w Post
  | Await q k => asks _ q w /\ I w /\ forall r w', I w' -> sound (k r) w' Post
  end.

Lemma sound_mono {R} (p : Prog W O Q R) w (Post Post' : outcome exn R -> W -> Prop) :
  (forall o w, Post o w -> Post' o w) -> sound p w Post -> sound p w Post'.
Proof.
  intros HP. revert w. induction p as [o|X f k IH|x k IH|X q k IH]; intros w; cbn; [apply HP|by apply IH|..].
  - intros [Hx Hk]. split; [done|by apply IH].
  - intros (Hq & Hw & Hk). split_and!; [done..|]. intros r w' Hw'. by apply IH, Hk.
Qed.

Lemma sound_bind {A B} (p : Prog W O Q A) (k : A -> Prog W O Q B) w Post :
  sound p w (fun o w => match o with Ok a => sound (k a) w Post | Throw e => Post (Throw e) w end) ->
  sound (pbind p k) w Post.
Proof.
  revert w. induction p as [[a|e]|X f c IH|x c IH|X q c IH]; intros w; cbn; [done|done|by apply IH|..].
  - intros [Hx Hk]. split; [done|by apply IH].
  - intros (Hq & Hw & Hk). split_and!; [done..|]. intros r w' Hw'. by apply IH, Hk.
Qed.

Lemma sound_attempt {A} (p : Prog W O Q A) w Post :
  sound p w (fun o => Post (Ok o)) -> sound (attempt p) w Post.
Proof.
  revert w. induction p as [o|X f c IH|x c IH|X q c IH]; intros w; cbn; [done|by apply IH|..].
  - intros [Hx Hk]. split; [done|by apply IH].
  - intros (Hq & Hw & Hk). split_and!; [done..|]. intros r w' Hw'. by apply IH, Hk.
Qed.

Lemma sound_act {X B} (f : W -> X * W) (k : X -> Prog W O Q B) w Post :
  sound (k (f w).1) (f w).2 Post -> sound (pbind (act f) k) w Post.
Proof. done. Qed.

Lemma sound_writes {B} (f : W -> W) (k : unit -> Prog W O Q B) w Post :
  sound (k tt) (f w) Post -> sound (pbind (writes f) k) w Post.
Proof. done. Qed.

Lemma sound_reads {X B} (f : W -> X) (k : X -> Prog W O Q B) w Post :
  sound (k (f w)) w Post -> sound (pbind (reads f) k) w Post.
Proof. done. Qed.

Lemma sound_await {X B} (q : Q X) (k : X -> Prog W O Q B) w Post :
  asks _ q w -> I w ->
  (forall r w', I w' -> match r with Ok x => sound (k x) w' Post | Throw e => Post (Throw e) w' end) ->
  sound (pbind (await q) k) w Post.
Proof. intros Hq Hw Hk. split_and!; [done..|]. intros [x|e] w' Hw'; [exact (Hk (Ok x) w' Hw')|exact (Hk (Throw e) w' Hw')]. Qed.

Lemma sound_for_each {A} (l : list A) (body : A -> Prog W O Q unit) w (Post : outcome exn unit -> W -> Prop) :
  I w -> (forall x w, x ∈ l -> I w -> sound (body x) w (fun _ => I)) ->
  (forall o w, I w -> Post o w) -> sound (for_each l body) w Post.
Proof.
  revert w. induction l as [|x l IH]; intros w Hw Hb HP; cbn; [by apply HP|]. apply sound_bind.
  eapply sound_mono; [|apply Hb; [by left|done]]. intros [u|e] w' Hw'; [|by apply HP].
  apply IH; [done| |done]. intros y w'' Hy. apply Hb. by right.
Qed.

(** A handler whose every change keeps the invariant. *)
Fixpoint keeping {R} (p : Prog W O Q R) : Prop :=
  match p with
  | Done _ => True
  | Act f k => forall w, I w -> I (f w).2 /\ keeping (k (f w).1)
  | Say x k => (forall w, I w -> says x w) /\ keeping k
  | Await q k => (forall w, I w -> asks _ q w) /\ forall r, keeping (k r)
  end.

Lemma sound_keeping {R} (p : Prog W O Q R) w (Post : outcome exn R -> W -> Prop) :
  keeping p -> I w -> (forall o w, I w -> Post o w) -> sound p w Post.
Proof.
  intros Hp Hw HP. revert w Hw. induction p as [o|X f k IH|x k IH|X q k IH]; intros w Hw; cbn in *; [by apply HP|..].
  - destruct (Hp w Hw) as [Hw' Hk]. by apply IH.
  - destruct Hp as [Hx Hk]. split; [by apply Hx|by apply IH].
  - destruct Hp as [Hq Hk]. split_and!; [by apply Hq|done|]. intros r w' Hw'. by apply IH.
Qed.

Lemma keeping_bind {A B} (p : Prog W O Q A) (k : A -> Prog W O Q B) :
  keeping p -> (forall a, keeping (k a)) -> keeping (pbind p k).
Proof.
  intros Hp Hk. induction p as [[a|e]|X f c IH|x c IH|X q c IH]; cbn in *; try done.
  - intros w Hw. destruct (Hp w Hw). split; [done|by apply IH].
  - destruct Hp. split; [done|by apply IH].
  - destruct Hp as [Hq Hp]. split; [done|]. intros r. by apply IH.
Qed.

Lemma keeping_attempt {A} (p : Prog W O Q A) : keeping p -> keeping (attempt p).
Proof.
  intros Hp. induction p as [o|X f c IH|x c IH|X q c IH]; cbn in *; try done.
  - intros w Hw. destruct (Hp w Hw). split; [done|by apply IH].
  - destruct Hp. split; [done|by apply IH].
  - destruct Hp as [Hq Hp]. split; [done|]. intros r. by apply IH.
Qed.

Lemma keeping_for_each {A} (l : list A) (body : A -> Prog W O Q unit) :
  (forall x, keeping (body x)) -> keeping (for_each l body).
Proof. intros Hb. induction l as [|x l IH]; cbn; [done|]. by apply keeping_bind. Qed.

Lemma keeping_reads {X} (f : W -> X) : keeping (reads f).
Proof. intros w Hw. by split. Qed.

Lemma keeping_writes (f : W -> W) : (forall w, I w -> I (f w)) -> keeping (writes f).
Proof. intros Hf w Hw. split; [by apply Hf|done]. Qed.

Lemma keeping_say x : (forall w, I w -> says x w) -> keeping (say x).
Proof. by split. Qed.

Lemma keeping_await {X} (q : Q X) : (forall w, I w -> asks _ q w) -> keeping (await q).
Proof. by split. Qed.

Definition entry_ok (en : Entry) : Prop :=
  match en with
  | Spoke x w => says x w
  | Asks q w => asks _ q w
  end.

(** A handler that waits: it goes on soundly whatever the answer. *)
Definition waiting (p : Prog W O Q unit) : Prop :=
  match p with
  | Await q k => forall r w, I w -> sound (k r) w (fun _ => I)
  | Done _ => True
  | _ => False
  end.

Lemma turn_sound (p : Prog W O Q unit) w :
  sound p w (fun _ => I) ->
  Forall entry_ok (turn p w).1 /\ waiting (turn p w).2.1 /\ I (turn p w).2.2.
Proof.
  revert w. induction p as [o|X f k IH|x k IH|X q k IH]; intros w Hp; cbn in *.
  - done.
  - by apply IH.
  - destruct Hp as [Hx Hk]. specialize (IH w Hk). destruct (turn k w) as [l [p' w']]. cbn in *.
    destruct IH as (Hl & Hp & Hw). split; [by constructor|done].
  - destruct Hp as (Hq & Hw & Hk). split; [by repeat constructor|done].
Qed.

(** Soundness of every handler makes the invariant one of the process. *)
Lemma loop_sound :
  (forall w w1 p, arrives w w1 p -> I w -> sound p w1 (fun _ => I)) ->
  forall s l s', loop s l s' -> I s.1 -> Forall waiting s.2 ->
  I s'.1 /\ Forall waiting s'.2 /\ Forall entry_ok l.
Proof.
  intros Ha s l s' Hr. induction Hr as [s|w w1 p ps l1 p' w' l2 s' Hev Ht _ IH|w ps1 X q k ps2 r l1 p' w' l2 s' Ht _ IH];
    cbn in *; intros Hw Hps; [done|..].
  - pose proof (turn_sound p w1 (Ha _ _ _ Hev Hw)) as (Hl & Hp & Hw'). rewrite Ht in Hl, Hp, Hw'. cbn in *.
    destruct IH as (HI & Hps' & Hl'); [done|by apply Forall_app; split; [|constructor]|].
    split_and!; [done..|by apply Forall_app].
  - apply Forall_app in Hps as [Hps1 [Hq Hps2]%Forall_cons]. cbn in Hq.
    pose proof (turn_sound (k r) w (Hq r w Hw)) as (Hl & Hp & Hw'). rewrite Ht in Hl, Hp, Hw'. cbn in *.
    destruct IH as (HI & Hps' & Hl'); [done|by apply Forall_app; split; [|constructor]|].
    split_and!; [done..|by apply Forall_app].
Qed.

(** ** Executing a loop *)

Context {Ev : Type} (deliver : Ev -> W -> option (W * Prog W O Q unit)).
Context (reply : forall X, Q X -> W -> outcome exn X).

(** An event, or the answer for the [i]-th handler. *)
Inductive Step := Event (ev : Ev) | Resume (i : nat).

Fixpoint loop_run (steps : list Step) (w : W) (ps : list (Prog W O Q unit))
    : list Entry * (W * list (Prog W O Q unit)) :=
  match steps with
  | [] => ([], (w, ps))
  | Event ev :: steps' =>
      match deliver ev w with
      | Some (w1, p) =>
          let '(l1, (p', w')) := turn p w1 in
          let '(l2, s) := loop_run steps' w' (ps ++ [p']) in (l1 ++ l2, s)
      | None => loop_run steps' w ps
      end
  | Resume i :: steps' =>
      match ps !! i with
      | Some (Await q k) =>
          let '(l1, (p', w')) := turn (k (reply _ q w)) w in
          let '(l2, s) := loop_run steps' w' (<[i := p']> ps) in (l1 ++ l2, s)
      | _ => loop_run steps' w ps
      end
  end.

Lemma loop_run_loop :
  (forall ev w w1 p, deliver ev w = Some (w1, p) -> arrives w w1 p) ->
  forall steps w ps, loop (w, ps) (loop_run steps w ps).1 (loop_run steps w ps).2.
Proof.
  intros Hd steps. induction steps as [|[ev|i] steps IH]; intros w ps; cbn; [constructor|..].
  - destruct (deliver ev w) as [[w1 p]|] eqn:Hev; [|apply IH].
    destruct (turn p w1) as [l1 [p' w']] eqn:Ht. specialize (IH w' (ps ++ [p'])).
    destruct (loop_run steps w' _) as [l2 s]. cbn in *. eapply loop_event; [by apply Hd in Hev|exact Ht|done].
  - destruct (ps !! i) as [p|] eqn:Hi; [|apply IH]. destruct p as [o|X f k|x k|X q k]; try apply IH.
    destruct (turn (k (reply X q w)) w) as [l1 [p' w']] eqn:Ht. specialize (IH w' (<[i := p']> ps)).
    destruct (loop_run steps w' _) as [l2 s]. cbn in *. rewrite <- (take_drop_middle ps i (Await q k)) by done.
    rewrite insert_take_drop in IH by (by eapply lookup_lt_Some). eapply loop_resume; [exact Ht|done].
Qed.
End Loop.

Arguments Event {Ev} ev.
Arguments Resume {Ev} i.
Arguments Entry W O Q : clear implicits.

(** Splits [keeping] of a handler; what is left are the changes it makes. *)
Ltac keeps :=
  repeat match goal with
  | |- keeping _ _ _ (pbind _ _) => apply keeping_bind
  | |- keeping _ _ _ (attempt _) => apply keeping_attempt
  | |- keeping _ _ _ (for_each _ _) => apply keeping_for_each; intros ?
  | |- keeping _ _ _ (reads _) => apply keeping_reads
  | |- keeping _ _ _ (writes _) => apply keeping_writes; intros ? ?
  | |- keeping _ _ _ (say _) => apply keeping_say; by intros ?
  | |- keeping _ _ _ (await _) => apply keeping_await; by intros ?
  | |- keeping _ _ _ (let _ := _ in _) => cbv zeta
  | |- keeping _ _ _ (match ?x with _ => _ end) => destruct x
  | |- forall _, keeping _ _ _ _ => intros ?
  | |- keeping _ _ _ _ => done
  end.
