(* ===== verification/Gateway.v ===== *)
(** * The gateway: sockets, sessions and the boundary of the server

    [gateways/game.gateway.ts] and its handlers as programs on the memory of one
    process: the sessions of users and the sockets with their data and rooms.
    The services behind the handlers are requests that may throw; messages of
    clients have passed their zod schemas.  A Promise.all of lookups is a loop,
    and the text of an error, which follows from its code, is left out. *)

From stdpp Require Import gmap.
From coqutil Require Import Datatypes.RecordSettersUsingExistingGetters.
From S2P Require Import Prelude JsData Effects Shared Cards CardEngine Machine MachineCards Events CardCommands Envelopes.
From S2P Require Import LobbyStore ClientState ClientStore ClientReplay Async Tokens.
#[local] Open Scope Z_scope.
#[local] Open Scope prog_scope.
#[local] Arguments RecordSettersUsingExistingGetters.const {E} newValue / _.

(** ** The memory *)

(** [client.data] and [client.rooms]. *)
Record Socket := mkSocket {
  so_userId : option jstr;
  so_username : option jstr;
  so_connectionGen : option Z;
  so_rooms : gset jstr;
}.

Definition no_socket : Socket := mkSocket None None None ∅.

Record Gateway := mkGateway {
  gw_connectedPlayers : gmap jstr jstr;
  gw_connectionGeneration : gmap jstr Z;
  (** Every socket there has been; those of the namespace; and those the server
      has closed and whose disconnect event is still to come. *)
  gw_sockets : gmap jstr Socket;
  gw_open : gset jstr;
  gw_closing : gset jstr;
}.

Definition socket (client : jstr) (w : Gateway) : Socket := default no_socket (gw_sockets w !! client).

Definition set_socket (client : jstr) (s : Socket) (w : Gateway) : Gateway :=
  { w with gw_sockets ::= <[client := s]> }.

Definition with_rooms (f : gset jstr -> gset jstr) (s : Socket) : Socket := { s with so_rooms ::= f }.

Definition starts_with (prefix s : jstr) : bool := bool_decide (take (length prefix) s = prefix).

(** [client.join], and leaving every room with a prefix but the socket's own. *)
Definition join (client roomName : jstr) (w : Gateway) : Gateway :=
  set_socket client (with_rooms (union {[roomName]}) (socket client w)) w.
Definition leave (client roomName : jstr) (w : Gateway) : Gateway :=
  set_socket client (with_rooms (fun rooms => rooms ∖ {[roomName]}) (socket client w)) w.
Definition without (client prefix : jstr) : gset jstr -> gset jstr :=
  filter (fun roomName => roomName = client \/ starts_with prefix roomName = false).
Definition leave_all (client prefix : jstr) (w : Gateway) : Gateway :=
  set_socket client (with_rooms (without client prefix) (socket client w)) w.

(** What Socket.io does with a socket that is closed. *)
Definition close_socket (client : jstr) (w : Gateway) : Gateway :=
  let w1 := set_socket client (with_rooms (fun _ => ∅) (socket client w)) w in
  { w1 with gw_open ::= fun sockets => sockets ∖ {[client]} }.

Definition in_room (client roomId : jstr) (w : Gateway) : bool :=
  bool_decide (room_channel roomId ∈ so_rooms (socket client w)).

(** ** Messages *)

(** A room with its players and their user names. *)
Record GwRoom := mkGwRoom { gr_room : RoomRecord; gr_players : list (jstr * option jstr) }.

(** A row of a user in a room. *)
Record UserRoom := mkUserRoom { ur_room : GwRoom; ur_joinedAt : Z }.

Record GwJoin := mkGwJoin { gj_room : GwRoom; gj_joined : bool; gj_joinedAs : JoinMode }.

(** ROOM_CREATED and ROOM_JOINED; [isOnline] of a player comes last. *)
Record RoomInfo := mkRoomInfo {
  ri_room : RoomRecord;
  ri_countdownEndsAt : option Z;
  ri_joinedAs : JoinMode;
  ri_players : list (jstr * option jstr * bool);
}.

Inductive GatewayPayload :=
| P_ERROR (code : ErrorCode) (failedEvent commandId submissionId : option jstr)
| P_AUTHENTICATED (userId username : jstr)
| P_ROOM_CREATED (room : RoomInfo)
| P_ROOM_JOINED (room : RoomInfo)
| P_PLAYER_JOINED (roomId playerId : jstr) (playerName : option jstr)
| P_PLAYER_LEFT (roomId playerId : jstr)
| P_MATCHMAKING_STATUS (status : MatchmakingStatusPayload)
| P_MATCH (message : ServerMessage)
| P_PONG (timestamp : Z).

Inductive GatewayEvent :=
(** [client.emit], and a broadcast to a room, but for one socket. *)
| Emitted (client : jstr) (payload : GatewayPayload)
| Broadcast (roomName : jstr) (except : option jstr) (payload : GatewayPayload)
(** [stateMachine.reconnectPlayer] *)
| Reconnected (matchId userId : jstr).

Inductive GatewayReq : Type -> Type :=
(** [roomService] *)
| QUserRooms (userId : jstr) : GatewayReq (list UserRoom)
| QGetRoom (roomId : jstr) : GatewayReq GwRoom
| QCreateRoom (userId : jstr) (roomType : RoomType) (maxPlayers timeLimit : option Z) (category : option jstr)
    : GatewayReq RoomRecord
| QJoinRoom (roomCode userId : jstr) : GatewayReq GwJoin
| QLeaveRoom (roomId userId : jstr) : GatewayReq (option GwRoom)
(** [presenceService] and [lobbyCountdownService] *)
| QUpdatePresence (roomId userId : jstr) : GatewayReq unit
| QIsPresent (roomId userId : jstr) : GatewayReq bool
| QCountdownEnd (roomId : jstr) : GatewayReq (option Z)
| QMaybeStartCountdown (roomId : jstr) : GatewayReq unit
| QLobbyPlayerLeft (roomId : jstr) : GatewayReq unit
(** [gameLoopService] *)
| QPlayerDisconnect (matchId userId : jstr) : GatewayReq unit
| QMatchPlayerLeft (matchId roomId userId : jstr) : GatewayReq unit
| QForceStart (roomId : jstr) : GatewayReq jstr
(** [matchService] and [matchCommand] *)
| QMachine (matchId : jstr) : GatewayReq (option Machine)
| QPersist (matchId : jstr) : GatewayReq unit
| QRoomOfMatch (matchId : jstr) : GatewayReq (option jstr)
| QForward (matchId : jstr) (body : OwnerCommandBody) : GatewayReq unit
(** [matchmakingService] *)
| QJoinQueue (userId username client : jstr) (category : option jstr) : GatewayReq MatchmakingStatusPayload
| QLeaveQueue (userId client : jstr) : GatewayReq unit
| QQueueStatus (userId : jstr) : GatewayReq MatchmakingStatusPayload.

Abbreviation GTask := (Prog Gateway GatewayEvent GatewayReq).

Definition quietly {R} (p : GTask R) : GTask unit := attempt p ;; pret tt.

(** ** [base.handler.ts] *)

Definition runSafely (operation : GTask unit) (onError : exn -> GTask unit) : GTask unit :=
  o <- attempt operation ;;
  match o with
  | Ok _ => pret tt
  | Throw error => onError error
  end.

Definition emitError (client : jstr) (code : ErrorCode) (failedEvent commandId submissionId : option jstr) : GTask unit :=
  say (Emitted client (P_ERROR code failedEvent commandId submissionId)).

Definition getErrorCode (error : exn) : ErrorCode :=
  match error with RoomError code => code | _ => INTERNAL_ERROR end.

(** A user id is never empty. *)
Definition requireAuth (client : jstr) : GTask jstr :=
  userId <- reads (fun w => so_userId (socket client w)) ;;
  match userId with
  | Some userId => pret userId
  | None => raise (RoomError UNAUTHORIZED)
  end.

Definition guarded (client : jstr) (operation : jstr -> GTask unit) (failedEvent commandId submissionId : option jstr)
    : GTask unit :=
  runSafely (userId <- requireAuth client ;; operation userId)
    (fun error => emitError client (getErrorCode error) failedEvent commandId submissionId).

Section Gateway.
Context `{!Jwt}.

(** ** [auth.handler.ts] *)

(** The synchronous part of [handleAuthenticate]: the old socket of the user,
    and the user the socket was authenticated as, when it is to be cleaned up. *)
Definition record_session (client userId username : jstr) (w : Gateway)
    : option jstr * option jstr * Gateway :=
  let oldSocketId := gw_connectedPlayers w !! userId in
  let previousUserId := so_userId (socket client w) in
  let newGen := default 0 (gw_connectionGeneration w !! userId) + 1 in
  let rooms := so_rooms (socket client w) in
  let data := mkSocket (Some userId) (Some username) (Some newGen)
                ({[player_channel userId]} ∪ without client (js "player:") rooms) in
  let w1 := { w with gw_connectedPlayers ::= <[userId := client]>;
                     gw_connectionGeneration ::= <[userId := newGen]> } in
  let w2 := set_socket client data w1 in
  let switched := previous ← previousUserId;
    if decide (previous <> userId /\ gw_connectedPlayers w2 !! previous = Some client) then Some previous else None in
  (oldSocketId, switched, w2).

Definition clearTrackedConnection (userId : jstr) (w : Gateway) : Gateway :=
  { w with gw_connectedPlayers ::= delete userId; gw_connectionGeneration ::= delete userId }.

Definition tracked (userId : jstr) (w : Gateway) : bool :=
  bool_decide (is_Some (gw_connectedPlayers w !! userId)).

Definition notify_disconnect (userId : jstr) (rp : UserRoom) : GTask unit :=
  superseded <- reads (tracked userId) ;;
  if superseded then pret tt
  else
    match ro_currentMatchId (gr_room (ur_room rp)) with
    | Some matchId => await (QPlayerDisconnect matchId userId)
    | None => pret tt
    end.

Definition handleTrackedUserSwitchDisconnect (userId client : jstr) : GTask unit :=
  writes (fun w => leave_all client (js "room:") (clearTrackedConnection userId w)) ;;
  quietly (
    userActiveRooms <- await (QUserRooms userId) ;;
    for_each userActiveRooms (notify_disconnect userId)).

Definition kick (oldSocketId : jstr) : GTask unit :=
  present <- reads (fun w => bool_decide (oldSocketId ∈ gw_open w)) ;;
  if present then
    say (Emitted oldSocketId (P_ERROR UNAUTHORIZED None None None)) ;;
    writes (fun w => let w1 := close_socket oldSocketId w in { w1 with gw_closing ::= union {[oldSocketId]} })
  else pret tt.

Definition newest_join (a b : UserRoom) : Z := ur_joinedAt b - ur_joinedAt a.

Definition reattach (client userId : jstr) (rp : UserRoom) : GTask unit :=
  let room := gr_room (ur_room rp) in
  writes (join client (room_channel (ro_id room))) ;;
  await (QUpdatePresence (ro_id room) userId) ;;
  match ro_currentMatchId room with
  | None => pret tt
  | Some matchId =>
      stateMachine <- await (QMachine matchId) ;;
      match stateMachine with
      | None => pret tt
      | Some _ => say (Reconnected matchId userId) ;; await (QPersist matchId)
      end
  end.

(** The players of a room with their presence; [online] is what is known. *)
Fixpoint with_presence (online : jstr * option jstr -> GTask (jstr * option jstr * bool))
    (players : list (jstr * option jstr)) : GTask (list (jstr * option jstr * bool)) :=
  match players with
  | [] => pret []
  | player :: players' =>
      p <- online player ;; ps <- with_presence online players' ;; pret (p :: ps)
  end.

Definition restore_view (client : jstr) (mostRecentRoom : GwRoom) : GTask unit :=
  let room := gr_room mostRecentRoom in
  countdownEndsAt <- await (QCountdownEnd (ro_id room)) ;;
  players <- with_presence (fun p =>
      isOnline <- await (QIsPresent (ro_id room) p.1) ;;
      match p.2 with
      | Some username => pret (p.1, Some username, isOnline)
      | None => raise (JsError "Cannot read properties of null")
      end) (gr_players mostRecentRoom) ;;
  say (Emitted client (P_ROOM_JOINED (mkRoomInfo room countdownEndsAt PLAYER players))) ;;
  match ro_currentMatchId room with
  | None => pret tt
  | Some matchId =>
      stateMachine <- await (QMachine matchId) ;;
      match stateMachine with
      | None => pret tt
      | Some m => say (Emitted client (P_MATCH (M_SNAPSHOT (wire_snapshot (getSnapshot m (getHeadSeqNo m))))))
      end
  end.

Definition syncReconnection (client userId : jstr) : GTask unit :=
  quietly (
    userActiveRooms <- await (QUserRooms userId) ;;
    match js_sort newest_join userActiveRooms with
    | [] => pret tt
    | mostRecent :: _ as sortedByJoinedAt =>
        for_each sortedByJoinedAt (reattach client userId) ;;
        restore_view client (ur_room mostRecent)
    end).

Definition evict_old (client : jstr) (oldSocketId : option jstr) : GTask unit :=
  match oldSocketId with
  | Some oldSocketId => if decide (oldSocketId = client) then pret tt else kick oldSocketId
  | None => pret tt
  end.

Definition handleAuthenticate (client token : jstr) (now : Z) : GTask unit :=
  runSafely (
    match verifyToken token now with
    | Throw error => raise error
    | Ok decoded =>
        let userId := tp_userId decoded in
        session <- act (record_session client userId (tp_username decoded)) ;;
        match session.2 with
        | Some previousUserId => handleTrackedUserSwitchDisconnect previousUserId client
        | None => pret tt
        end ;;
        evict_old client session.1 ;;
        say (Emitted client (P_AUTHENTICATED userId (tp_username decoded))) ;;
        syncReconnection client userId
    end)
    (fun error =>
       emitError client (match error with RoomError INVALID_PAYLOAD => INVALID_PAYLOAD | _ => INVALID_TOKEN end)
         None None None).

(** The user whose session ends with the socket. *)
Definition ending_session (client : jstr) (w : Gateway) : option jstr :=
  userId ← so_userId (socket client w);
  let superseded :=
    match so_connectionGen (socket client w), gw_connectionGeneration w !! userId with
    | Some capturedGen, Some liveGen => negb (capturedGen =? liveGen)
    | _, _ => false
    end in
  if superseded then None
  else if decide (gw_connectedPlayers w !! userId = Some client) then Some userId else None.

Definition handleDisconnect (client : jstr) : GTask unit :=
  userId <- reads (ending_session client) ;;
  match userId with
  | Some userId => handleTrackedUserSwitchDisconnect userId client
  | None => pret tt
  end.

(** ** [matchmaking.handler.ts] *)

Definition handleJoinMatchmaking (client : jstr) (category : option jstr) : GTask unit :=
  guarded client (fun userId =>
    username <- reads (fun w => so_username (socket client w)) ;;
    status <- await (QJoinQueue userId
                (match username with Some ((_ :: _) as name) => name | _ => js "Player" end) client category) ;;
    say (Emitted client (P_MATCHMAKING_STATUS status))) None None None.

Definition handleLeaveMatchmaking (client : jstr) : GTask unit :=
  guarded client (fun userId =>
    await (QLeaveQueue userId client) ;;
    status <- await (QQueueStatus userId) ;;
    say (Emitted client (P_MATCHMAKING_STATUS status))) None None None.

Definition matchmaking_disconnect (client : jstr) : GTask unit :=
  userId <- reads (fun w => so_userId (socket client w)) ;;
  match userId with
  | Some userId => quietly (await (QLeaveQueue userId client))
  | None => pret tt
  end.

(** ** [room.handler.ts] *)

Definition handleCreateRoom (client : jstr) (roomType : RoomType) (maxPlayers timeLimit : option Z)
    (category : option jstr) : GTask unit :=
  guarded client (fun userId =>
    room <- await (QCreateRoom userId roomType maxPlayers timeLimit category) ;;
    writes (join client (room_channel (ro_id room))) ;;
    quietly (await (QUpdatePresence (ro_id room) userId)) ;;
    username <- reads (fun w => so_username (socket client w)) ;;
    let shown := mkRoomRecord (ro_id room) (ro_code room) (ro_type room) RWAITING (ro_hostId room) (ro_maxPlayers room)
                   (ro_timeLimit room) (ro_category room) None (ro_createdAt room) in
    say (Emitted client (P_ROOM_CREATED (mkRoomInfo shown None PLAYER [(userId, username, true)]))))
    None None None.

(** One player of ROOM_JOINED. *)
Definition joined_player (client userId roomId : jstr) (player : jstr * option jstr)
    : GTask (jstr * option jstr * bool) :=
  match player.2 with
  | None => raise (JsError "RoomPlayer is missing its user relation")
  | Some username =>
      if decide (player.1 = userId) then
        name <- reads (fun w => so_username (socket client w)) ;; pret (player.1, name, true)
      else
        isOnline <- attempt (await (QIsPresent roomId player.1)) ;;
        pret (player.1, Some username, match isOnline with Ok b => b | Throw _ => false end)
  end.

Definition handleJoinRoom (client roomCode : jstr) : GTask unit :=
  guarded client (fun userId =>
    match roomCode with
    | [] => raise (RoomError ROOM_NOT_FOUND)
    | _ =>
        j <- await (QJoinRoom roomCode userId) ;;
        let room := gr_room (gj_room j) in
        let announced := gj_joined j && match gj_joinedAs j with SPECTATOR => false | PLAYER => true end in
        writes (join client (room_channel (ro_id room))) ;;
        quietly (await (QUpdatePresence (ro_id room) userId)) ;;
        (if announced then
           username <- reads (fun w => so_username (socket client w)) ;;
           say (Broadcast (room_channel (ro_id room)) (Some client) (P_PLAYER_JOINED (ro_id room) userId username))
         else pret tt) ;;
        countdownEndsAt <- await (QCountdownEnd (ro_id room)) ;;
        players <- with_presence (joined_player client userId (ro_id room)) (gr_players (gj_room j)) ;;
        say (Emitted client (P_ROOM_JOINED (mkRoomInfo room countdownEndsAt (gj_joinedAs j) players))) ;;
        (if announced then await (QMaybeStartCountdown (ro_id room)) else pret tt)
    end) None None None.

Definition handleLeaveRoom (client roomId : jstr) : GTask unit :=
  guarded client (fun userId =>
    updatedRoom <- await (QLeaveRoom roomId userId) ;;
    writes (leave client (room_channel roomId)) ;;
    match updatedRoom with
    | Some (mkGwRoom {| ro_currentMatchId := Some matchId; ro_status := (RIN_GAME | RFINISHED) |} _) =>
        await (QMatchPlayerLeft matchId roomId userId)
    | _ =>
        say (Broadcast (room_channel roomId) None (P_PLAYER_LEFT roomId userId)) ;;
        await (QLobbyPlayerLeft roomId)
    end) None None None.

(** ** [match.handler.ts] *)

Definition handleStartMatch (client roomId : jstr) : GTask unit :=
  guarded client (fun userId =>
    view <- await (QGetRoom roomId) ;;
    let room := gr_room view in
    if decide (ro_hostId room <> userId) then raise (RoomError NOT_ROOM_HOST)
    else if decide (ro_type room <> PRIVATE) then raise (RoomError INVALID_ROOM_TYPE)
    else if decide (ro_status room <> RWAITING) then raise (RoomError ROOM_ALREADY_STARTED)
    else await (QForceStart roomId) ;; pret tt) None None None.

(** [getStateMachine], or MATCH_NOT_FOUND. *)
Definition machine_of (matchId : jstr) : GTask Machine :=
  stateMachine <- await (QMachine matchId) ;;
  match stateMachine with
  | Some m => pret m
  | None => raise (RoomError MATCH_NOT_FOUND)
  end.

(** The room of the match, when the socket is in its channel. *)
Definition authorised_room (client matchId : jstr) : GTask unit :=
  roomId <- await (QRoomOfMatch matchId) ;;
  match roomId with
  | None | Some [] => raise (RoomError MATCH_NOT_FOUND)
  | Some roomId =>
      member <- reads (in_room client roomId) ;;
      if member then pret tt else raise (RoomError UNAUTHORIZED)
  end.

Definition assertActivePlayer (m : Machine) (userId : jstr) : outcome exn unit :=
  match map_get userId (ms_players (getState m)) with
  | None => Throw (RoomError SPECTATOR_CANNOT_ANSWER)
  | Some player =>
      match pl_status player with
      | ELIMINATED | WINNER => Throw (RoomError SPECTATOR_CANNOT_ANSWER)
      | DISCONNECTED => Throw (RoomError PLAYER_DISCONNECTED)
      | ACTIVE => Ok tt
      end
  end.

Definition handleSubmitAnswer (client matchId answer submissionId : jstr) : GTask unit :=
  guarded client (fun userId =>
    stateMachine <- machine_of matchId ;;
    match map_get userId (ms_players (getState stateMachine)) with
    | None => raise (RoomError SPECTATOR_CANNOT_ANSWER)
    | Some player =>
        if decide (pl_status player = DISCONNECTED) then raise (RoomError PLAYER_DISCONNECTED)
        else await (QForward matchId (submit_answer (mkSubmitAnswer userId answer submissionId submissionId)))
    end) (Some (js "submit_answer")) None (Some submissionId).

Definition handleRequestSnapshot (client matchId : jstr) (lastSeenSeqNo : Z) : GTask unit :=
  guarded client (fun userId =>
    authorised_room client matchId ;;
    stateMachine <- machine_of matchId ;;
    say (Emitted client (P_MATCH (snapshot_reply stateMachine matchId lastSeenSeqNo))))
    (Some (js "request_snapshot")) None None.

Definition checked {A} (o : outcome exn A) : GTask A := Done o.

(** What [handleCardPick], [handleCardPlay] and [handleVoteBanTopic] do once the
    payload is accepted. *)
Definition forward_for_player (client userId matchId : jstr) (body : OwnerCommandBody) : GTask unit :=
  authorised_room client matchId ;;
  stateMachine <- machine_of matchId ;;
  checked (assertActivePlayer stateMachine userId) ;;
  await (QForward matchId body).

Definition handleCardPick (client matchId commandId cardId : jstr) (offerSeqNo : Z) : GTask unit :=
  guarded client (fun userId =>
    checked (assertValidCommandId (Some commandId)) ;;
    checked (assertCardId (Some cardId)) ;;
    forward_for_player client userId matchId (card_pick (mkCardPick userId cardId offerSeqNo commandId)))
    (Some (js "card_pick")) (Some commandId) None.

Definition handleCardPlay (client matchId commandId cardId : jstr) (offerSeqNo : Z) (targetPlayerId : option jstr)
    : GTask unit :=
  guarded client (fun userId =>
    checked (assertValidCommandId (Some commandId)) ;;
    checked (assertCardId (Some cardId)) ;;
    forward_for_player client userId matchId (card_play (mkCardPlay userId cardId offerSeqNo targetPlayerId commandId)))
    (Some (js "card_play")) (Some commandId) None.

Definition handleVoteBanTopic (client matchId topic : jstr) (commandId : option jstr) : GTask unit :=
  guarded client (fun userId =>
    let sent := match commandId with Some (_ :: _) => commandId | _ => None end in
    forward_for_player client userId matchId (vote_ban_topic (mkVoteBan userId topic sent)))
    (Some (js "vote_ban_topic")) commandId None.

(** ** [game.gateway.ts] *)

Definition handleHeartbeat (client roomId : jstr) : GTask unit :=
  userId <- reads (fun w => so_userId (socket client w)) ;;
  match userId, roomId with
  | Some userId, _ :: _ =>
      quietly (
        member <- reads (in_room client roomId) ;;
        if member then await (QUpdatePresence roomId userId) else pret tt)
  | _, _ => pret tt
  end.

(** A message of a client. *)
Inductive Message :=
| MsgAuthenticate (token : jstr)
| MsgCreateRoom (roomType : RoomType) (maxPlayers timeLimit : option Z) (category : option jstr)
| MsgJoinRoom (roomCode : jstr)
| MsgLeaveRoom (roomId : jstr)
| MsgStartMatch (roomId : jstr)
| MsgSubmitAnswer (matchId answer submissionId : jstr)
| MsgVoteBanTopic (matchId topic : jstr) (commandId : option jstr)
| MsgRequestSnapshot (matchId : jstr) (lastSeenSeqNo : Z)
| MsgJoinMatchmaking (category : option jstr)
| MsgLeaveMatchmaking
| MsgHeartbeat (roomId : jstr)
| MsgPing
(** Sent by the client, but not subscribed to. *)
| MsgCardPick (matchId commandId cardId : jstr) (offerSeqNo : Z)
| MsgCardPlay (matchId commandId cardId : jstr) (offerSeqNo : Z) (targetPlayerId : option jstr).

(** The subscriptions; [None]: the message is dropped. *)
Definition dispatch (client : jstr) (now : Z) (msg : Message) : option (GTask unit) :=
  match msg with
  | MsgAuthenticate token => Some (handleAuthenticate client token now)
  | MsgCreateRoom roomType maxPlayers timeLimit category =>
      Some (handleCreateRoom client roomType maxPlayers timeLimit category)
  | MsgJoinRoom roomCode => Some (handleJoinRoom client roomCode)
  | MsgLeaveRoom roomId => Some (handleLeaveRoom client roomId)
  | MsgStartMatch roomId => Some (handleStartMatch client roomId)
  | MsgSubmitAnswer matchId answer submissionId => Some (handleSubmitAnswer client matchId answer submissionId)
  | MsgVoteBanTopic matchId topic commandId => Some (handleVoteBanTopic client matchId topic commandId)
  | MsgRequestSnapshot matchId lastSeenSeqNo => Some (handleRequestSnapshot client matchId lastSeenSeqNo)
  | MsgJoinMatchmaking category => Some (handleJoinMatchmaking client category)
  | MsgLeaveMatchmaking => Some (handleLeaveMatchmaking client)
  | MsgHeartbeat roomId => Some (handleHeartbeat client roomId)
  | MsgPing => Some (say (Emitted client (P_PONG now)))
  | MsgCardPick _ _ _ _ | MsgCardPlay _ _ _ _ _ => None
  end.

(** The token of [socket.handshake]: its [auth.token], or its Authorization header. *)
Definition handshake_token (auth authorization : option jstr) : option jstr :=
  match auth, authorization with
  | Some ((_ :: _) as token), _ => Some token
  | _, Some ((_ :: _) as header) =>
      Some (trim (if starts_with (js "Bearer ") header then drop 7 header else header))
  | _, _ => None
  end.

(** The middleware of the handshake: a bad token leaves the socket anonymous. *)
Definition handshake (token : option jstr) (now : Z) : Socket :=
  match token with
  | Some ((_ :: _) as token) =>
      match verifyToken token now with
      | Ok decoded => mkSocket (Some (tp_userId decoded)) (Some (tp_username decoded)) None ∅
      | Throw _ => no_socket
      end
  | _ => no_socket
  end.

Definition gateway_disconnect (client : jstr) : GTask unit :=
  handleDisconnect client ;; matchmaking_disconnect client.

(** ** Events *)

Inductive SocketEvent :=
| Connects (client : jstr) (auth authorization : option jstr) (now : Z)
| Sends (client : jstr) (msg : Message) (now : Z)
| Disconnects (client : jstr).

(** Socket.io: ids are new and hold no colon, a socket is in the room of its
    id; a message comes from an open socket; a disconnect event is delivered
    once, to a socket that closes or that the server has closed. *)
Inductive gateway_event : SocketEvent -> Gateway -> Gateway -> GTask unit -> Prop :=
| event_connects client auth authorization now w :
    gw_sockets w !! client = None -> 58 ∉ client ->
    gateway_event (Connects client auth authorization now) w
      (let s := handshake (handshake_token auth authorization) now in
       let w1 := set_socket client (with_rooms (union {[client]}) s) w in
       { w1 with gw_open ::= union {[client]} })
      (pret tt)
| event_sends client msg now w p :
    client ∈ gw_open w -> dispatch client now msg = Some p ->
    gateway_event (Sends client msg now) w w p
| event_disconnects client w :
    client ∈ gw_open w \/ client ∈ gw_closing w ->
    gateway_event (Disconnects client) w
      (let w1 := close_socket client w in { w1 with gw_closing ::= fun sockets => sockets ∖ {[client]} })
      (gateway_disconnect client).
End Gateway.
