(* ===== verification/GatewayRules.v ===== *)
(** * Sessions of the gateway

    Whatever the sockets of a process do, however their handlers interleave and
    whatever the services answer: a tracked session is a socket of that user,
    the private channel of a user is joined by sockets of that user only, no
    player is reported as disconnected while the user has a session, and a user
    is served on one socket. *)

From stdpp Require Import gmap.
From coqutil Require Import Datatypes.RecordSettersUsingExistingGetters.
From S2P Require Import Prelude JsData Effects Shared Cards CardEngine Machine Events CardCommands Envelopes.
From S2P Require Import LobbyStore ClientState ClientStore ClientReplay Async Pool Tokens EventLoop Gateway.
#[local] Open Scope Z_scope.
#[local] Open Scope prog_scope.
#[local] Arguments RecordSettersUsingExistingGetters.const {E} newValue / _.

Section Sessions.
Context {Hjwt : Jwt}.

(** A user whom the process tracks on a socket: the socket is that user's, of
    the current generation, and open, or its disconnect is still to come. *)
Definition tracked_well (u s : jstr) (w : Gateway) : Prop :=
  so_userId (socket s w) = Some u
  /\ (exists g, so_connectionGen (socket s w) = Some g /\ gw_connectionGeneration w !! u = Some g)
  /\ (s ∈ gw_open w \/ s ∈ gw_closing w).

(** [exempt u s]: an entry of [connectedPlayers] that is about to go. *)
Definition sessions_but (exempt : jstr -> jstr -> Prop) (w : Gateway) : Prop :=
  (forall u s, gw_connectedPlayers w !! u = Some s -> tracked_well u s w \/ exempt u s)
  /\ (forall s u, player_channel u ∈ so_rooms (socket s w) -> so_userId (socket s w) = Some u)
  /\ (forall s, is_Some (gw_sockets w !! s) -> 58 ∉ s)
  /\ (forall s, s ∈ gw_open w \/ s ∈ gw_closing w -> is_Some (gw_sockets w !! s)).

Definition nobody (u s : jstr) : Prop := False.
Definition sessions : Gateway -> Prop := sessions_but nobody.

(** A user is authenticated on one open socket, the tracked one; [but]: a
    socket that is about to be closed. *)
Definition single_but (but : option jstr) (w : Gateway) : Prop :=
  forall s u g, s ∈ gw_open w -> so_userId (socket s w) = Some u -> so_connectionGen (socket s w) = Some g ->
    gw_connectedPlayers w !! u = Some s \/ but = Some s.

(** [faithful]: sockets do not change their user. *)
Context (faithful : Prop).

Definition Inv (w : Gateway) : Prop := sessions w /\ (faithful -> single_but None w).

Definition anything_said (x : GatewayEvent) (w : Gateway) : Prop := True.

(** A player is reported as disconnected when no session is tracked. *)
Definition fair_request (X : Type) (q : GatewayReq X) (w : Gateway) : Prop :=
  match q with
  | QPlayerDisconnect _ userId => gw_connectedPlayers w !! userId = None
  | _ => True
  end.

Abbreviation Sound := (sound Inv anything_said fair_request).

(** ** Rooms *)

Lemma socket_set client s w s' :
  socket s' (set_socket client s w) = if decide (s' = client) then s else socket s' w.
Proof.
  unfold socket, set_socket. cbn. destruct (decide (s' = client)) as [->|]; [by rewrite lookup_insert_eq|].
  by rewrite lookup_insert_ne.
Qed.

Lemma known_set client s w s' :
  is_Some (gw_sockets (set_socket client s w) !! s') <-> s' = client \/ is_Some (gw_sockets w !! s').
Proof.
  unfold set_socket. cbn. destruct (decide (s' = client)) as [->|].
  - rewrite lookup_insert_eq. naive_solver.
  - rewrite lookup_insert_ne by done. naive_solver.
Qed.

(** Changing rooms, to the exclusion of private channels. *)
Lemma rooms_kept client f w :
  58 ∉ client -> (forall u, player_channel u ∈ f (so_rooms (socket client w)) -> player_channel u ∈ so_rooms (socket client w)) ->
  forall exempt, sessions_but exempt w -> sessions_but exempt (set_socket client (with_rooms f (socket client w)) w).
Proof.
  intros Hc Hf exempt (H1 & H2 & H3 & H4). split_and!.
  - intros u s Hs. destruct (H1 u s Hs) as [(Hu & Hg & Ho)|]; [left|by right]. unfold tracked_well.
    rewrite socket_set. destruct (decide (s = client)) as [->|]; done.
  - intros s u. rewrite socket_set. destruct (decide (s = client)) as [->|]; [|apply H2].
    cbn. intros Hp. by apply H2, Hf.
  - intros s. rewrite known_set. intros [->|]; [done|by apply H3].
  - intros s Ho. rewrite known_set. right. by apply H4.
Qed.

Lemma single_rooms client f w but :
  single_but but w -> single_but but (set_socket client (with_rooms f (socket client w)) w).
Proof. intros H s u g Ho. rewrite socket_set. destruct (decide (s = client)) as [->|]; apply H; done. Qed.

Lemma channels_differ roomId u : player_channel u <> room_channel roomId.
Proof. done. Qed.

Lemma inv_join client roomId w : 58 ∉ client -> Inv w -> Inv (join client (room_channel roomId) w).
Proof.
  intros Hc [Hs H1]. split; [|intros Hf; by apply single_rooms, H1]. apply rooms_kept; [done| |done].
  intros u. rewrite elem_of_union, elem_of_singleton. intros [He|]; [by apply channels_differ in He|done].
Qed.

Lemma inv_leave client roomName w : 58 ∉ client -> Inv w -> Inv (leave client roomName w).
Proof.
  intros Hc [Hs H1]. split; [|intros Hf; by apply single_rooms, H1]. apply rooms_kept; [done| |done]. set_solver.
Qed.

(** ** The end of a session *)

Lemma clear_leaves exempt userId client w :
  58 ∉ client -> sessions_but exempt w ->
  (forall u s, gw_connectedPlayers w !! u = Some s -> exempt u s -> u = userId) ->
  sessions (leave_all client (js "room:") (clearTrackedConnection userId w)).
Proof.
  intros Hc (H1 & H2 & H3 & H4) He. unfold leave_all. apply rooms_kept; [done| |split_and!].
  - unfold without. intros u. rewrite elem_of_filter. by intros [_ ?].
  - cbn. intros u s. rewrite lookup_delete_Some. intros [Hu Hs]. left.
    destruct (H1 u s Hs) as [(Hid & (g & Hg & Hl) & Ho)|Hx]; [|by apply He in Hx].
    split_and!; [done| |done]. exists g. split; [done|]. cbn. by rewrite lookup_delete_ne.
  - done.
  - done.
  - done.
Qed.

Lemma sound_notify userId rp w : Inv w -> Sound (notify_disconnect userId rp) w (fun _ => Inv).
Proof.
  intros Hw. unfold notify_disconnect, tracked. cbn. destruct (bool_decide _) eqn:Ht; [done|].
  destruct (ro_currentMatchId _) as [matchId|]; cbn; [|done]. split_and!; [|done|by intros r w']. bool_to_prop.
  by apply eq_None_not_Some.
Qed.

(** The session of [userId] ends; [client] leaves its rooms. *)
Lemma sound_switch exempt userId client w :
  58 ∉ client -> sessions_but exempt w ->
  (forall u s, gw_connectedPlayers w !! u = Some s -> exempt u s -> u = userId) ->
  (faithful -> single_but None (clearTrackedConnection userId w)) ->
  Sound (handleTrackedUserSwitchDisconnect userId client) w (fun o w' => o = Ok tt /\ Inv w').
Proof.
  intros Hc Hs He H1. unfold handleTrackedUserSwitchDisconnect. apply sound_writes.
  assert (Hw : Inv (leave_all client (js "room:") (clearTrackedConnection userId w))).
  { split; [by eapply clear_leaves|]. intros Hf. by apply single_rooms, H1. }
  unfold quietly. apply sound_bind, sound_attempt. cbn. split; [done|split; [done|]].
  intros [rooms|err] w' Hw'; cbn; [|done].
  apply sound_for_each; [done| |done]. intros rp w'' _. by apply sound_notify.
Qed.

(** ** Authentication *)

Lemma without_player client u rooms :
  58 ∉ client -> player_channel u ∉ without client (js "player:") rooms.
Proof.
  intros Hc. unfold without. rewrite elem_of_filter. intros [[He|Hp] _].
  - apply Hc. rewrite <- He. unfold player_channel. cbn. set_solver.
  - unfold starts_with, player_channel in Hp. by cbn in Hp.
Qed.

Lemma player_channel_inj u u' : player_channel u = player_channel u' -> u = u'.
Proof. unfold player_channel. apply app_inv_head. Qed.

(** The entries of another user on the socket that is authenticated. *)
Definition switching (client userId : jstr) (u s : jstr) : Prop := s = client /\ u <> userId.

Lemma record_sessions client userId username w :
  58 ∉ client -> client ∈ gw_open w -> sessions w ->
  sessions_but (switching client userId) (record_session client userId username w).2.
Proof.
  intros Hc Ho (H1 & H2 & H3 & H4). unfold record_session. cbn [snd]. split_and!.
  - intros u s. cbn. rewrite lookup_insert_Some. intros [[<- <-]|[Hu Hs]].
    + left. unfold tracked_well. rewrite socket_set, decide_True by done. cbn. rewrite lookup_insert_eq. split_and!; [done|by eexists|by left].
    + destruct (decide (s = client)) as [->|Hne]; [by right|left].
      destruct (H1 u s Hs) as [(Hid & (g & Hg & Hl) & Hop)|[]]. unfold tracked_well.
      rewrite socket_set, decide_False by done. split_and!; [done| |done]. exists g. split; [done|].
      cbn. by rewrite lookup_insert_ne.
  - intros s u. rewrite socket_set. destruct (decide (s = client)) as [->|]; [|apply H2]. cbn.
    rewrite elem_of_union, elem_of_singleton. intros [->%player_channel_inj|Hw]; [done|].
    by apply without_player in Hw.
  - intros s. rewrite known_set. intros [->|]; [done|by apply H3].
  - intros s Hs. rewrite known_set. right. by apply H4.
Qed.

(** A socket of one user: nobody else is tracked on it. *)
Lemma record_switched client userId username w u :
  sessions w -> gw_connectedPlayers (record_session client userId username w).2 !! u = Some client -> u <> userId ->
  (record_session client userId username w).1.2 = Some u.
Proof.
  intros (H1 & _) Hu Hne. unfold record_session in *. cbn in *. rewrite lookup_insert_ne in Hu by done.
  destruct (H1 u client Hu) as [(Hid & _)|[]]. rewrite Hid. cbn. rewrite decide_True; [done|].
  by rewrite lookup_insert_ne.
Qed.

Lemma record_single client userId username w :
  single_but None w -> single_but (gw_connectedPlayers w !! userId) (record_session client userId username w).2.
Proof.
  intros H s u g. unfold record_session. cbn [snd]. rewrite socket_set. cbn [gw_open set_socket gw_connectedPlayers].
  destruct (decide (s = client)) as [->|Hne]; cbn.
  - intros _ [= <-] _. left. by rewrite lookup_insert_eq.
  - intros Ho Hu Hg. destruct (H s u g Ho Hu Hg) as [Hs|]; [|done].
    destruct (decide (u = userId)) as [->|]; [by right|left]. by rewrite lookup_insert_ne.
Qed.

(** A socket that the server closes; its disconnect is still to come. *)
Definition closed (client : jstr) (w : Gateway) : Gateway :=
  let w1 := close_socket client w in { w1 with gw_closing ::= union {[client]} }.

Lemma closed_sessions client w : 58 ∉ client -> is_Some (gw_sockets w !! client) -> sessions w -> sessions (closed client w).
Proof.
  intros Hc Hk Hw. pose proof (rooms_kept client (fun _ => ∅) w Hc ltac:(set_solver) _ Hw) as (H1 & H2 & H3 & H4).
  split_and!; [|exact H2|exact H3|].
  - intros u s Hs. destruct (H1 u s Hs) as [(Hid & Hg & Ho)|[]]. left. split_and!; [done|done|].
    cbn. destruct (decide (s = client)) as [->|]; set_solver.
  - intros s. cbn. rewrite elem_of_difference, elem_of_union, elem_of_singleton. intros Hs.
    apply known_set. destruct Hs as [[Hs _]|[->|Hs]]; [|by left|]; right; apply Hw; auto.
Qed.

Lemma closed_single client w but :
  single_but but w -> (but = Some client \/ but = None) -> single_but None (closed client w).
Proof.
  intros H Hb s u g. cbn [gw_open closed]. unfold close_socket. cbn. intros [Ho Hne%not_elem_of_singleton]%elem_of_difference.
  unfold closed, close_socket. change (socket s _) with (socket s (set_socket client (with_rooms (fun _ => ∅) (socket client w)) w)).
  rewrite socket_set, decide_False by done. intros Hu Hg. destruct (H s u g Ho Hu Hg) as [|He]; [by left|].
  destruct Hb; congruence.
Qed.

(** The old socket of the user is closed. *)
Lemma sound_evict client old w (Post : outcome exn unit -> Gateway -> Prop) :
  sessions w -> (faithful -> single_but old w) ->
  (faithful -> old = Some client -> single_but None w) ->
  (forall w', Inv w' -> Post (Ok tt) w') -> Sound (evict_old client old) w Post.
Proof.
  intros Hs H1 Hsame HP. unfold evict_old. destruct old as [old|]; cbn; [|by apply HP].
  destruct (decide (old = client)) as [->|Hne]; cbn; [apply HP; split; auto|].
  destruct (bool_decide _) eqn:Ho; cbn; bool_to_prop.
  - split; [done|]. apply HP. change (Inv (closed old w)).
    destruct Hs as (Hs1 & Hs2 & Hs3 & Hs4). assert (is_Some (gw_sockets w !! old)) as Hk by auto. split.
    + apply closed_sessions; [by apply Hs3|done|done].
    + intros Hf. eapply closed_single; [by apply H1|by left].
  - apply HP. split; [done|]. intros Hf s u g Hop Hu Hg. destruct (H1 Hf s u g Hop Hu Hg) as [|[= ->]]; [by left|done].
Qed.

(** ** Every handler *)

Abbreviation Keeping := (keeping Inv anything_said fair_request).

Lemma keeping_presence online players :
  (forall p, Keeping (online p)) -> Keeping (with_presence online players).
Proof. intros Ho. induction players as [|p ps IH]; cbn [with_presence]; keeps. Qed.

Lemma keeping_restore client room : Keeping (restore_view client room).
Proof. unfold restore_view. keeps. apply keeping_presence. intros p. keeps. Qed.

Lemma keeping_sync client userId : 58 ∉ client -> Keeping (syncReconnection client userId).
Proof.
  intros Hc. unfold syncReconnection, quietly. keeps; try apply keeping_restore. unfold reattach. keeps. by apply inv_join.
Qed.

Lemma keeping_guarded client operation failedEvent commandId submissionId :
  (forall userId, Keeping (operation userId)) ->
  Keeping (guarded client operation failedEvent commandId submissionId).
Proof. intros Ho. unfold guarded, runSafely, requireAuth, emitError. keeps. Qed.

Lemma keeping_authorised client matchId : Keeping (authorised_room client matchId).
Proof. unfold authorised_room. keeps. Qed.

Lemma keeping_forward client userId matchId body : Keeping (forward_for_player client userId matchId body).
Proof. unfold forward_for_player, machine_of, checked. keeps; apply keeping_authorised. Qed.

(** The handlers that leave the sessions alone. *)
Lemma keeping_message client now msg p :
  58 ∉ client -> (forall token, msg <> MsgAuthenticate token) -> dispatch client now msg = Some p -> Keeping p.
Proof.
  intros Hc Hm. destruct msg; cbn [dispatch]; try done; intros <-%(inj Some);
    unfold handleCreateRoom, handleJoinRoom, handleLeaveRoom, handleStartMatch, handleSubmitAnswer, handleVoteBanTopic,
      handleRequestSnapshot, handleJoinMatchmaking, handleLeaveMatchmaking.
  - by destruct (Hm token).
  - apply keeping_guarded; intros u; cbn beta. unfold quietly. keeps. by apply inv_join.
  - apply keeping_guarded; intros u; cbn beta. destruct roomCode as [|c code]; [done|]. unfold quietly.
    keeps; try (by apply inv_join); apply keeping_presence; intros p; unfold joined_player; keeps.
  - apply keeping_guarded; intros u; cbn beta. keeps; by apply inv_leave.
  - apply keeping_guarded; intros u; cbn beta. keeps.
  - apply keeping_guarded; intros u; cbn beta. unfold machine_of. keeps.
  - apply keeping_guarded; intros u; cbn beta. apply keeping_forward.
  - apply keeping_guarded; intros u; cbn beta. unfold machine_of. keeps; apply keeping_authorised.
  - apply keeping_guarded; intros u; cbn beta. keeps.
  - apply keeping_guarded; intros u; cbn beta. keeps.
  - unfold handleHeartbeat, quietly. keeps.
  - keeps.
Qed.

(** The events of a socket that keeps its user. *)
Definition keeps_user (ev : SocketEvent) (w : Gateway) : Prop :=
  match ev with
  | Sends client (MsgAuthenticate token) now =>
      forall decoded, verifyToken token now = Ok decoded ->
        so_userId (socket client w) = None \/ so_userId (socket client w) = Some (tp_userId decoded)
  | _ => True
  end.

(** The continuation of [handleAuthenticate] once the old user is cleaned up. *)
Lemma sound_evicted client old userId username w :
  58 ∉ client -> sessions w -> (faithful -> single_but old w) -> (faithful -> old = Some client -> single_but None w) ->
  Sound (evict_old client old ;; say (Emitted client (P_AUTHENTICATED userId username)) ;; syncReconnection client userId)
    w (fun _ => Inv).
Proof.
  intros Hc Hs H1 Hsame. apply sound_bind, sound_evict; [done..|]. intros w' Hw'.
  apply sound_keeping; [keeps; by apply keeping_sync|done|done].
Qed.

Lemma sound_authenticate client token now w :
  58 ∉ client -> client ∈ gw_open w -> Inv w ->
  (faithful -> keeps_user (Sends client (MsgAuthenticate token) now) w) ->
  Sound (handleAuthenticate client token now) w (fun _ => Inv).
Proof.
  intros Hc Ho [Hs H1] Hk. unfold handleAuthenticate, runSafely. apply sound_bind, sound_attempt.
  eapply (sound_mono _ _ _ _ _ (fun _ => Inv)).
  { intros [u|err] w' Hw'; [done|]. by split. }
  destruct (verifyToken token now) as [decoded|err] eqn:Hv; [|done]. apply sound_act.
  pose proof (record_sessions client (tp_userId decoded) (tp_username decoded) w Hc Ho Hs) as Hb.
  pose proof (record_switched client (tp_userId decoded) (tp_username decoded) w) as Hsw.
  pose proof (record_single client (tp_userId decoded) (tp_username decoded) w) as Hsi.
  assert (Hlone : faithful -> (record_session client (tp_userId decoded) (tp_username decoded) w).1.2 = None).
  { intros Hf. destruct (Hk Hf decoded Hv) as [He|He]; unfold record_session; cbn; rewrite He; cbn; [done|].
    by rewrite decide_False by naive_solver. }
  assert (Hold : (record_session client (tp_userId decoded) (tp_username decoded) w).1.1
                 = gw_connectedPlayers w !! tp_userId decoded) by done.
  assert (Hnew : gw_connectedPlayers (record_session client (tp_userId decoded) (tp_username decoded) w).2
                   !! tp_userId decoded = Some client) by apply lookup_insert_eq.
  destruct (record_session client _ _ w) as [[old switched] w1]. cbn [fst snd] in *. subst old.
  destruct switched as [previous|].
  - assert (~ faithful) as Hnf by (intros Hf; by specialize (Hlone Hf)).
    apply sound_bind. eapply sound_mono; [|eapply (sound_switch (switching client (tp_userId decoded))); [done|done| |done]].
    + intros o w' [-> [Hs' _]]. by apply sound_evicted.
    + intros u s Hu [-> Hne]. specialize (Hsw u Hs Hu Hne). congruence.
  - apply sound_bind. cbn. apply sound_evicted; [done| |auto|].
    + destruct Hb as (B1 & B2 & B3 & B4). split_and!; [|done..]. intros u s Hu.
      destruct (B1 u s Hu) as [|[-> Hne]]; [by left|]. by specialize (Hsw u Hs Hu Hne).
    + intros Hf He s u g Hop Hu Hg. destruct (Hsi (H1 Hf) s u g Hop Hu Hg) as [|Hx]; [by left|].
      rewrite He in Hx. injection Hx as <-. left. destruct Hb as (B1 & _).
      destruct (B1 _ _ Hnew) as [(Hid & _)|[_ ?]]; [|done]. congruence.
Qed.

(** A socket that is gone. *)
Definition gone (client : jstr) (w : Gateway) : Gateway :=
  let w1 := close_socket client w in { w1 with gw_closing ::= fun sockets => sockets ∖ {[client]} }.

Definition on_socket (client u s : jstr) : Prop := s = client.

Lemma gone_sessions client w : 58 ∉ client -> is_Some (gw_sockets w !! client) -> sessions w -> sessions_but (on_socket client) (gone client w).
Proof.
  intros Hc Hk Hw. pose proof (rooms_kept client (fun _ => ∅) w Hc ltac:(set_solver) _ Hw) as (H1 & H2 & H3 & H4).
  split_and!; [|exact H2|exact H3|].
  - intros u s Hs. destruct (decide (s = client)) as [->|Hne]; [by right|left].
    destruct (H1 u s Hs) as [(Hid & Hg & Ho)|[]]. split_and!; [done|done|]. cbn. set_solver.
  - intros s. cbn. rewrite !elem_of_difference. intros Hs. apply known_set. right. apply Hw. tauto.
Qed.

Lemma gone_socket client w s : so_userId (socket s (gone client w)) = so_userId (socket s w)
  /\ so_connectionGen (socket s (gone client w)) = so_connectionGen (socket s w).
Proof.
  change (socket s (gone client w)) with (socket s (set_socket client (with_rooms (fun _ => ∅) (socket client w)) w)).
  rewrite socket_set. by destruct (decide (s = client)) as [->|].
Qed.

Lemma gone_single client w : single_but None w -> single_but None (gone client w).
Proof.
  intros H s u g. destruct (gone_socket client w s) as [-> ->]. unfold gone, close_socket. cbn.
  intros [Ho _]%elem_of_difference. by apply H.
Qed.

(** The session of a socket that is tracked ends; others stay. *)
Lemma ending_tracked client w u :
  sessions w -> gw_connectedPlayers w !! u = Some client -> ending_session client (gone client w) = Some u.
Proof.
  intros (H1 & _) Hu. destruct (H1 u client Hu) as [(Hid & (g & Hg & Hl) & _)|[]].
  unfold ending_session. destruct (gone_socket client w client) as [-> ->]. rewrite Hid, Hg. cbn.
  rewrite Hl, Z.eqb_refl. cbn. by rewrite decide_True.
Qed.

Lemma ending_untracked client w :
  (forall u, gw_connectedPlayers w !! u <> Some client) -> ending_session client (gone client w) = None.
Proof.
  intros Hn. unfold ending_session. destruct (so_userId _) as [u|]; [|done]. cbn.
  destruct (match so_connectionGen _ with Some _ => _ | None => _ end); [done|]. by rewrite decide_False.
Qed.

Lemma keeping_matchmaking client : Keeping (matchmaking_disconnect client).
Proof. unfold matchmaking_disconnect, quietly. keeps. Qed.

Lemma sound_disconnect client w :
  client ∈ gw_open w \/ client ∈ gw_closing w -> Inv w -> Sound (gateway_disconnect client) (gone client w) (fun _ => Inv).
Proof.
  intros Ho [Hs H1]. assert (Hk : is_Some (gw_sockets w !! client)) by (by apply Hs).
  assert (Hc : 58 ∉ client) by (by apply Hs). pose proof (gone_sessions client w Hc Hk Hs) as Hb.
  unfold gateway_disconnect, handleDisconnect. apply sound_bind, sound_reads.
  assert (Hend : forall w', Inv w' -> Sound (matchmaking_disconnect client) w' (fun _ => Inv)).
  { intros w' Hw'. apply sound_keeping; [apply keeping_matchmaking|done|done]. }
  destruct (ending_session client (gone client w)) as [u|] eqn:He.
  - assert (Hu : gw_connectedPlayers w !! u = Some client).
    { unfold ending_session in He. destruct (so_userId _) as [u'|]; [|done]. cbn in He.
      destruct (match so_connectionGen _ with Some _ => _ | None => _ end); [done|].
      destruct (decide _) as [Hd|]; [|done]. by injection He as <-. }
    eapply sound_mono; [|eapply (sound_switch (on_socket client)); [done|done| |]].
    + intros o w' [-> Hw']. by apply Hend.
    + intros u' s Hu' ->. pose proof (ending_tracked client w u' Hs Hu'). congruence.
    + intros Hf s u' g Hop Hid Hg. destruct (gone_single client w (H1 Hf) s u' g Hop Hid Hg) as [Hs'|]; [|done]. left.
      cbn. rewrite lookup_delete_Some. split; [|done]. intros <-. change (gw_connectedPlayers w !! u = Some s) in Hs'. rewrite Hu in Hs'. injection Hs' as <-.
      cbn in Hop. set_solver.
  - apply Hend. split; [|intros Hf; by apply gone_single, H1]. destruct Hb as (B1 & B2 & B3 & B4).
    split_and!; [|done..]. intros u s Hu. destruct (B1 u s Hu) as [| ->]; [by left|].
    pose proof (ending_tracked client w u Hs Hu). congruence.
Qed.

(** ** Every event *)

Definition arrives (w w1 : Gateway) (p : GTask unit) : Prop :=
  exists ev, gateway_event ev w w1 p /\ (faithful -> keeps_user ev w).

Lemma connects_inv client s w :
  gw_sockets w !! client = None -> 58 ∉ client -> so_connectionGen s = None -> so_rooms s = ∅ -> Inv w ->
  Inv (let w1 := set_socket client (with_rooms (union {[client]}) s) w in { w1 with gw_open ::= union {[client]} }).
Proof.
  intros Hn Hc Hg Hr [(H1 & H2 & H3 & H4) Hsi]. cbn zeta.
  assert (Hso : forall s', socket s' (let w1 := set_socket client (with_rooms (union {[client]}) s) w in { w1 with gw_open ::= union {[client]} })
    = if decide (s' = client) then with_rooms (union {[client]}) s else socket s' w) by (intros s'; apply socket_set).
  cbn zeta in Hso. split; [split_and!|].
  - intros u s' Hu. destruct (H1 u s' Hu) as [(Hid & Hgen & Ho)|[]]. left.
    assert (s' <> client) as Hne by (intros ->; destruct (H4 client Ho); congruence).
    unfold tracked_well. rewrite Hso, decide_False by done. split_and!; [done|done|]. cbn. set_solver.
  - intros s' u. rewrite Hso. destruct (decide (s' = client)) as [->|]; [|apply H2]. cbn. rewrite Hr.
    rewrite elem_of_union, elem_of_singleton. intros [He|He]; [|by apply elem_of_empty in He].
    destruct Hc. rewrite <- He. unfold player_channel. cbn. set_solver.
  - intros s'. cbn. change (is_Some (gw_sockets (set_socket client (with_rooms (union {[client]}) s) w) !! s') -> 58 ∉ s').
    rewrite known_set. intros [->|]; [done|by apply H3].
  - intros s'. cbn. change (s' ∈ {[client]} ∪ gw_open w \/ s' ∈ gw_closing w ->
      is_Some (gw_sockets (set_socket client (with_rooms (union {[client]}) s) w) !! s')).
    rewrite known_set. set_solver.
  - intros Hf s' u g Ho. rewrite Hso. destruct (decide (s' = client)) as [->|Hne]; cbn; [congruence|].
    apply Hsi; [done|]. cbn in Ho. set_solver.
Qed.

Lemma events_sound w w1 p : arrives w w1 p -> Inv w -> Sound p w1 (fun _ => Inv).
Proof.
  intros (ev & Hev & Hk) Hw. destruct Hev as [client auth authorization now w Hn Hc|client msg now w p Ho Hd|client w Ho].
  - apply connects_inv; try done; unfold handshake; by repeat case_match.
  - assert (Hc : 58 ∉ client) by (apply Hw, Hw; by left).
    assert ((exists token, msg = MsgAuthenticate token) \/ forall token, msg <> MsgAuthenticate token) as [[token ->]|Hm]
      by (destruct msg; eauto).
    + cbn [dispatch] in Hd. apply (inj Some) in Hd as <-. by apply sound_authenticate.
    + apply sound_keeping; [|done|done]. eapply keeping_message; [done|done|exact Hd].
  - by apply sound_disconnect.
Qed.
End Sessions.

Section Theorems.
Context {Hjwt : Jwt}.

Definition any_event (w w1 : Gateway) (p : GTask unit) : Prop := exists ev, gateway_event ev w w1 p.
Definition faithful_event (w w1 : Gateway) (p : GTask unit) : Prop :=
  exists ev, gateway_event ev w w1 p /\ keeps_user ev w.

(** A process that has just started. *)
Definition no_sockets : Gateway := mkGateway ∅ ∅ ∅ ∅ ∅.

Lemma no_sockets_inv faithful : Inv faithful no_sockets.
Proof.
  split; [split_and!|].
  - intros u s Hu. cbn in Hu. by rewrite lookup_empty in Hu.
  - intros s u. unfold socket. cbn. rewrite lookup_empty. cbn. intros He. by apply elem_of_empty in He.
  - intros s [x Hx]. cbn in Hx. by rewrite lookup_empty in Hx.
  - intros s [He|He]; by apply elem_of_empty in He.
  - intros _ s u g Ho. by apply elem_of_empty in Ho.
Qed.

(** C7: sessions are what the process believes them to be.  Whatever sockets
    connect, authenticate -- as one user or another --, send and close, however
    their handlers interleave and whatever the services answer, failures
    included: a user is tracked on a socket that is authenticated as this user,
    and a socket is tracked for one user at most; only sockets of a user are in
    the user's private channel; and a player is never reported as disconnected
    to a match at a moment when a session of the player is tracked. *)
Theorem sessions_are_sound (l : list (Entry Gateway GatewayEvent GatewayReq)) (w : Gateway) (ps : list (GTask unit)) :
  loop any_event (no_sockets, []) l (w, ps) ->
  (forall u s, gw_connectedPlayers w !! u = Some s ->
     so_userId (socket s w) = Some u /\ (s ∈ gw_open w \/ s ∈ gw_closing w)
     /\ forall u', gw_connectedPlayers w !! u' = Some s -> u' = u)
  /\ (forall s u, player_channel u ∈ so_rooms (socket s w) -> so_userId (socket s w) = Some u)
  /\ (forall matchId u w', Asks (QPlayerDisconnect matchId u) w' ∈ l -> gw_connectedPlayers w' !! u = None).
Proof.
  intros Hr.
  destruct (loop_sound any_event (Inv False) anything_said fair_request
    ltac:(intros w0 w1 p [ev Hev] Hw; apply (events_sound False w0 w1 p); [by exists ev|done])
    _ _ _ Hr (no_sockets_inv False) ltac:(constructor)) as ([(H1 & H2 & _) _] & _ & Hl). cbn in *.
  split; [|split; [exact H2|]].
  - intros u s Hu. destruct (H1 u s Hu) as [(Hid & _ & Ho)|[]]. split_and!; [done|done|]. intros u' Hu'.
    destruct (H1 u' s Hu') as [(Hid' & _)|[]]. congruence.
  - intros matchId u w' Hin. rewrite Forall_forall in Hl. exact (Hl _ Hin).
Qed.


(** ** A process at work *)

Definition deliver (ev : SocketEvent) (w : Gateway) : option (Gateway * GTask unit) :=
  match ev with
  | Connects client auth authorization now =>
      if decide (gw_sockets w !! client = None /\ 58 ∉ client) then
        let s := handshake (handshake_token auth authorization) now in
        let w1 := set_socket client (with_rooms (union {[client]}) s) w in
        Some ({ w1 with gw_open ::= union {[client]} }, pret tt)
      else None
  | Sends client msg now =>
      if decide (client ∈ gw_open w) then (fun p => (w, p)) <$> dispatch client now msg else None
  | Disconnects client =>
      if decide (client ∈ gw_open w \/ client ∈ gw_closing w) then Some (gone client w, gateway_disconnect client)
      else None
  end.

Lemma deliver_event ev w w1 p : deliver ev w = Some (w1, p) -> gateway_event ev w w1 p.
Proof.
  destruct ev as [client auth authorization now|client msg now|client]; cbn; destruct (decide _) as [Hd|]; try done.
  - intros [= <- <-]. destruct Hd. by apply (event_connects client auth authorization now w).
  - destruct (dispatch client now msg) as [p'|] eqn:Hm; [|done]. intros [= <- <-]. by apply (event_sends client msg now w).
  - intros [= <- <-]. by apply (event_disconnects client w).
Qed.
End Theorems.

(** A user with a second tab, in a room with a match. *)
Definition tab_token : jstr := sign_access 3600 (js "u1") (js "ana") GUEST 1000.
Definition tab_room : UserRoom :=
  mkUserRoom (mkGwRoom (mkRoomRecord (js "r1") (js "ABCDEF") PUBLIC RIN_GAME (js "u2") 10 15 (js "ALL") (Some (js "m1")) 0)
    [(js "u1", Some (js "ana"))]) 0.

Definition tab_reply (X : Type) (q : GatewayReq X) (w : Gateway) : outcome exn X :=
  match q in GatewayReq X return outcome exn X with
  | QUserRooms _ => Ok [tab_room]
  | QPlayerDisconnect _ _ => Ok tt
  | QUpdatePresence _ _ => Ok tt
  | QMachine _ => Ok None
  | QCountdownEnd _ => Ok None
  | QIsPresent _ _ => Ok true
  | _ => Throw (JsError "unavailable")
  end.

Definition tab_steps : list (Step (Ev := SocketEvent)) :=
  [Event (Connects (js "s1") None None 2000); Event (Sends (js "s1") (MsgAuthenticate tab_token) 2000)]
  ++ replicate 6 (Resume 1)
  ++ [Event (Connects (js "s2") (Some tab_token) None 3000); Event (Sends (js "s2") (MsgAuthenticate tab_token) 3000)]
  ++ replicate 6 (Resume 3) ++ [Event (Disconnects (js "s1")); Resume 4].

Definition tab_run : list (Entry Gateway GatewayEvent GatewayReq) * (Gateway * list (GTask unit)) :=
  loop_run deliver tab_reply tab_steps no_sockets [].
Definition left_run : list (Entry Gateway GatewayEvent GatewayReq) * (Gateway * list (GTask unit)) :=
  loop_run deliver tab_reply (tab_steps ++ [Event (Disconnects (js "s2")); Resume 5]) no_sockets [].

Lemma tab_run_loop : loop any_event (no_sockets, []) tab_run.1 (tab_run.2.1, tab_run.2.2).
Proof.
  rewrite <- surjective_pairing. unfold tab_run. apply loop_run_loop. intros ev w w1 p Hd. exists ev. by apply deliver_event.
Qed.

(** The first tab has been closed; nobody was reported as disconnected. *)
Theorem sessions_are_sound_witness :
  gw_connectedPlayers tab_run.2.1 !! js "u1" = Some (js "s2")
  /\ forall s u, player_channel u ∈ so_rooms (socket s tab_run.2.1) -> so_userId (socket s tab_run.2.1) = Some u.
Proof. split; [by_compute|]. apply (sessions_are_sound tab_run.1 tab_run.2.1 tab_run.2.2), tab_run_loop. Defined.

(** The events of the run, one by one. *)
Definition kept (ev : SocketEvent) (w : Gateway) : bool :=
  match ev with
  | Sends client (MsgAuthenticate token) now =>
      match verifyToken token now with
      | Ok decoded =>
          bool_decide (so_userId (socket client w) = None \/ so_userId (socket client w) = Some (tp_userId decoded))
      | Throw _ => true
      end
  | _ => true
  end.

Definition deliver_kept (ev : SocketEvent) (w : Gateway) : option (Gateway * GTask unit) :=
  if kept ev w then deliver ev w else None.

Lemma deliver_kept_faithful ev w w1 p : deliver_kept ev w = Some (w1, p) -> faithful_event w w1 p.
Proof.
  unfold deliver_kept. destruct (kept ev w) eqn:Hk; [|done]. intros Hd. exists ev. split; [by apply deliver_event|].
  destruct ev as [| client [] now|]; try done. cbn in Hk |- *. intros decoded Hv. rewrite Hv in Hk. by bool_to_prop.
Qed.

Definition kept_run : list (Entry Gateway GatewayEvent GatewayReq) * (Gateway * list (GTask unit)) :=
  loop_run deliver_kept tab_reply tab_steps no_sockets [].

Lemma kept_run_loop : loop faithful_event (no_sockets, []) kept_run.1 (kept_run.2.1, kept_run.2.2).
Proof.
  rewrite <- surjective_pairing. unfold kept_run. apply loop_run_loop. intros ev w w1 p. apply deliver_kept_faithful.
Qed.


(** ** What the boundary lets through *)

Abbreviation GTrace := (list (Item GatewayEvent GatewayReq)).

(** The commands that were handed to the owners of matches, and the matches
    that were started. *)
Fixpoint forwards (t : GTrace) : list (jstr * OwnerCommandBody) :=
  match t with
  | [] => []
  | Said _ :: t' => forwards t'
  | @Asked _ _ X q _ :: t' =>
      match q with QForward matchId body => (matchId, body) :: forwards t' | _ => forwards t' end
  end.

Fixpoint starts (t : GTrace) : list jstr :=
  match t with
  | [] => []
  | Said _ :: t' => starts t'
  | @Asked _ _ X q _ :: t' => match q with QForceStart roomId => roomId :: starts t' | _ => starts t' end
  end.

Definition unprivileged (X : Type) (q : GatewayReq X) : Prop :=
  match q with QForward _ _ | QForceStart _ => False | _ => True end.

Lemma unprivileged_trace t : asks unprivileged t -> forwards t = [] /\ starts t = [].
Proof. induction t as [|[x|X q r] t IH]; cbn; [done|done|]. intros [Hq Ht]. destruct q; try done; by apply IH. Qed.

(** Whoever sends a command. *)
Definition command_user (body : OwnerCommandBody) : jstr :=
  match body with
  | submit_answer b => sa_userId b
  | player_disconnect userId => userId
  | card_pick b => ck_userId b
  | card_play b => CardCommands.cp_userId b
  | vote_ban_topic b => vb_userId b
  end.

(** A command of [userId] that was checked against the match. *)
Definition admitted_command (userId : option jstr) (t : GTrace) (matchId : jstr) (body : OwnerCommandBody) : Prop :=
  userId = Some (command_user body)
  /\ exists m player,
      Asked (QMachine matchId) (Ok (Some m)) ∈ t
      /\ map_get (command_user body) (ms_players (getState m)) = Some player
      /\ match body with
         | submit_answer _ => pl_status player <> DISCONNECTED
         | _ => pl_status player = ACTIVE /\ exists roomId, Asked (QRoomOfMatch matchId) (Ok (Some roomId)) ∈ t
         end.

(** A match that the host of a private waiting room started. *)
Definition admitted_start (userId : option jstr) (t : GTrace) (roomId : jstr) : Prop :=
  exists room, Asked (QGetRoom roomId) (Ok room) ∈ t /\ userId = Some (ro_hostId (gr_room room))
    /\ ro_type (gr_room room) = PRIVATE /\ ro_status (gr_room room) = RWAITING.

Definition admitted (userId : option jstr) (t : GTrace) : Prop :=
  (forall matchId body, (matchId, body) ∈ forwards t -> admitted_command userId t matchId body)
  /\ forall roomId, roomId ∈ starts t -> admitted_start userId t roomId.

Lemma admitted_nothing userId t : forwards t = [] -> starts t = [] -> admitted userId t.
Proof. intros Hf Hs. unfold admitted. rewrite Hf, Hs. split; [intros m b He|intros r He]; by apply elem_of_nil in He. Qed.

Lemma forwards_app t1 t2 : forwards (t1 ++ t2) = forwards t1 ++ forwards t2.
Proof. induction t1 as [|[x|X q r] t1 IH]; cbn; [done|done|]. destruct q; try done. cbn. by rewrite IH. Qed.

Lemma starts_app t1 t2 : starts (t1 ++ t2) = starts t1 ++ starts t2.
Proof. induction t1 as [|[x|X q r] t1 IH]; cbn; [done|done|]. destruct q; try done. cbn. by rewrite IH. Qed.

Lemma admitted_said userId t x : admitted userId t -> admitted userId (t ++ [Said x]).
Proof.
  unfold admitted. rewrite forwards_app, starts_app. cbn. rewrite !app_nil_r. intros [Hf Hs]. split.
  - intros m b Hin. destruct (Hf m b Hin) as (Hu & mm & pl & Ha & Hp & Hb). split; [done|]. exists mm, pl.
    split; [by apply elem_of_app; left|]. split; [done|]. destruct b; try done;
      (destruct Hb as [? [r Hr]]; split; [done|exists r; by apply elem_of_app; left]).
  - intros r Hin. destruct (Hs r Hin) as (room & Ha & Hr). exists room. split; [by apply elem_of_app; left|done].
Qed.

Section Boundary.
Context {Hjwt : Jwt} (Env : Gateway -> Gateway -> Prop).

Lemma always_guarded client operation failedEvent commandId submissionId w :
  (forall u, so_userId (socket client w) = Some u ->
     always Env (operation u) w (fun _ _ t => admitted (so_userId (socket client w)) t)) ->
  always Env (guarded client operation failedEvent commandId submissionId) w
    (fun _ _ t => admitted (so_userId (socket client w)) t).
Proof.
  intros Ho. unfold guarded, runSafely. apply always_bind, always_attempt, always_bind. cbn.
  destruct (so_userId (socket client w)) as [u|] eqn:Hu; cbn; [|by apply admitted_nothing].
  eapply always_mono; [|by apply Ho]. intros [r|e] w' t Ht; cbn; [by rewrite app_nil_r|by apply admitted_said].
Qed.

(** What a match handler does once the socket is authenticated. *)
Lemma always_forward client u matchId body w :
  so_userId (socket client w) = Some u -> command_user body = u -> (match body with submit_answer _ => False | _ => True end) ->
  always Env (forward_for_player client u matchId body) w (fun _ _ t => admitted (so_userId (socket client w)) t).
Proof.
  intros Hu Hb Hk. rewrite Hu. unfold forward_for_player, authorised_room, machine_of, checked. cbn.
  intros w1 [[[|c roomId]|]|e] _; cbn; try by apply admitted_nothing.
  destruct (in_room client (c :: roomId) w1); cbn; [|by apply admitted_nothing].
  intros w2 [[m|]|e] _; cbn; try by apply admitted_nothing.
  unfold assertActivePlayer. destruct (map_get u (ms_players (getState m))) as [pl|] eqn:Hpl; [|by apply admitted_nothing].
  destruct (pl_status pl) eqn:Hst; cbn; try by apply admitted_nothing.
  intros w3 r _. split; [|intros r' He; by apply elem_of_nil in He]. cbn. intros m' b' [= -> ->]%list_elem_of_singleton.
  split; [by rewrite Hb|]. exists m, pl. split; [set_solver|]. split; [by rewrite Hb|].
  destruct body; [done|..]; (split; [done|exists (c :: roomId); set_solver]).
Qed.

Ltac confine :=
  repeat match goal with
  | |- confined _ (pbind _ _) => apply confined_bind
  | |- confined _ (attempt _) => apply confined_attempt
  | |- confined _ (for_each _ _) => apply confined_for_each; intros ? _
  | |- confined _ (let _ := _ in _) => cbv zeta
  | |- confined _ (match ?x with _ => _ end) => destruct x
  | |- forall _, _ => intros ?
  | |- confined _ _ => first [done | by split]
  end.

Lemma confined_presence online players :
  (forall p, confined unprivileged (online p)) -> confined unprivileged (with_presence online players).
Proof. intros Ho. induction players as [|p ps IH]; cbn [with_presence]; [done|]. confine. Qed.

(** Handlers that ask for nothing privileged. *)
Lemma always_unprivileged {R} (p : GTask R) u w :
  confined unprivileged p -> always Env p w (fun _ _ t => admitted u t).
Proof.
  intros Hp. eapply always_mono; [|by apply confined_asks]. intros o w' t [Hf Hs]%unprivileged_trace.
  by apply admitted_nothing.
Qed.

Lemma confined_auth client token now : confined unprivileged (handleAuthenticate client token now).
Proof.
  unfold handleAuthenticate, runSafely, handleTrackedUserSwitchDisconnect, notify_disconnect, evict_old, kick,
    syncReconnection, reattach, restore_view, emitError, quietly. confine; apply confined_presence; intros ?; confine.
Qed.

Definition card_handler (client : jstr) (msg : Message) : option (GTask unit) :=
  match msg with
  | MsgCardPick matchId commandId cardId offerSeqNo => Some (handleCardPick client matchId commandId cardId offerSeqNo)
  | MsgCardPlay matchId commandId cardId offerSeqNo targetPlayerId =>
      Some (handleCardPlay client matchId commandId cardId offerSeqNo targetPlayerId)
  | _ => None
  end.

Lemma always_admitted client now msg p w :
  dispatch client now msg = Some p \/ card_handler client msg = Some p ->
  always Env p w (fun _ _ t => admitted (so_userId (socket client w)) t).
Proof.
  intros [Hp|Hp]; destruct msg; try done; cbn [dispatch card_handler] in Hp; apply (inj Some) in Hp as <-.
  - apply always_unprivileged, confined_auth.
  - apply always_unprivileged. unfold handleCreateRoom, guarded, runSafely, requireAuth, quietly, emitError. confine.
  - apply always_unprivileged. unfold handleJoinRoom, guarded, runSafely, requireAuth, quietly, emitError.
    confine; apply confined_presence; intros ?; unfold joined_player; confine.
  - apply always_unprivileged. unfold handleLeaveRoom, guarded, runSafely, requireAuth, emitError. confine.
  - unfold handleStartMatch. apply always_guarded. intros u Hu. rewrite Hu. cbn. intros w1 [view|e] _; cbn; [|by apply admitted_nothing].
    destruct (decide _) as [|Hh]; cbn; [by apply admitted_nothing|]. destruct (decide _) as [|Ht]; cbn; [by apply admitted_nothing|].
    destruct (decide _) as [|Hs]; cbn; [by apply admitted_nothing|]. apply dec_stable in Hh, Ht, Hs.
    intros w2 [matchId|e] _; cbn; (split; [intros m b He; by apply elem_of_nil in He|]); cbn; intros r ->%list_elem_of_singleton;
      exists view; (split; [set_solver|by rewrite Hh]).
  - unfold handleSubmitAnswer. apply always_guarded. intros u Hu. rewrite Hu. unfold machine_of. cbn.
    intros w1 [[m|]|e] _; cbn; try by apply admitted_nothing.
    destruct (map_get u (ms_players (getState m))) as [pl|] eqn:Hpl; [|by apply admitted_nothing].
    destruct (decide _) as [|Hd]; cbn; [by apply admitted_nothing|]. intros w2 r _.
    split; [|intros r' He; by apply elem_of_nil in He]. cbn. intros m' b' [= -> ->]%list_elem_of_singleton.
    split; [done|]. exists m, pl. split_and!; [set_solver|done|done].
  - unfold handleVoteBanTopic. apply always_guarded. intros u Hu. cbv zeta. by apply always_forward.
  - apply always_unprivileged. unfold handleRequestSnapshot, guarded, runSafely, requireAuth, authorised_room, machine_of, emitError.
    confine.
  - apply always_unprivileged. unfold handleJoinMatchmaking, guarded, runSafely, requireAuth, emitError. confine.
  - apply always_unprivileged. unfold handleLeaveMatchmaking, guarded, runSafely, requireAuth, emitError. confine.
  - apply always_unprivileged. unfold handleHeartbeat, quietly. confine.
  - apply always_unprivileged. confine.
  - unfold handleCardPick. apply always_guarded. intros u Hu. unfold checked.
    destruct (assertValidCommandId _); cbn [pbind]; [|by apply admitted_nothing].
    destruct (assertCardId _); cbn [pbind]; [|by apply admitted_nothing]. by apply always_forward.
  - unfold handleCardPlay. apply always_guarded. intros u Hu. unfold checked.
    destruct (assertValidCommandId _); cbn [pbind]; [|by apply admitted_nothing].
    destruct (assertCardId _); cbn [pbind]; [|by apply admitted_nothing]. by apply always_forward.
Qed.

End Boundary.

(** A vote of a player in the room of the match. *)
Definition vote_machine : Machine :=
  new_machine (js "m1") (js "r1") [mkPlayer (js "u1") (js "ana") ACTIVE 0 0 0 true].
Definition vote_socket : Gateway :=
  set_socket (js "s1") (mkSocket (Some (js "u1")) (Some (js "ana")) (Some 1) {[room_channel (js "r1")]}) no_sockets.
Definition vote_reply (X : Type) (q : GatewayReq X) (w : Gateway) (e : unit) : outcome exn X * unit :=
  (match q in GatewayReq X return outcome exn X with
   | QRoomOfMatch _ => Ok (Some (js "r1"))
   | QMachine _ => Ok (Some vote_machine)
   | QForward _ _ => Ok tt
   | _ => Throw (JsError "unavailable")
   end, e).
Definition vote_task : GTask unit := handleVoteBanTopic (js "s1") (js "m1") (js "LOGIC") None.
Definition vote_body : OwnerCommandBody := vote_ban_topic (mkVoteBan (js "u1") (js "LOGIC") None).
Definition vote_trace : GTrace := traced vote_reply vote_task vote_socket tt.

Lemma vote_forwards : forwards vote_trace = [(js "m1", vote_body)].
Proof. by_compute. Qed.


(** A socket that the handshake authenticated as one user, that joined a room
    as this user and authenticates as another one stays in the room: the old
    user was not tracked, so nothing is cleaned up. *)
Definition switch_reply (X : Type) (q : GatewayReq X) (w : Gateway) : outcome exn X :=
  match q in GatewayReq X return outcome exn X with
  | QJoinRoom _ _ => Ok (mkGwJoin (ur_room tab_room) false PLAYER)
  | _ => Throw (JsError "unavailable")
  end.

Definition switch_run : list (Entry Gateway GatewayEvent GatewayReq) * (Gateway * list (GTask unit)) :=
  loop_run deliver switch_reply
    ([Event (Connects (js "s1") (Some tab_token) None 2000); Event (Sends (js "s1") (MsgJoinRoom (js "ABCDEF")) 2000)]
     ++ replicate 4 (Resume 1)
     ++ [Event (Sends (js "s1") (MsgAuthenticate (sign_access 3600 (js "u9") (js "bob") GUEST 1000)) 3000); Resume 2])
    no_sockets [].

Lemma switched_socket_keeps_room :
  so_userId (socket (js "s1") switch_run.2.1) = Some (js "u9") /\ in_room (js "s1") (js "r1") switch_run.2.1 = true.
Proof. split; by_compute. Qed.
