(* ===== verification/Moderation.v ===== *)
(** * [common/moderation.ts]: names and messages

    Normalisation and character classes are those of Unicode, which the
    language takes from its tables: an interface, [Unicode].  A regular
    expression with the flag u works on code points, one without on code
    units. *)

From S2P Require Import Prelude JsData Effects Shared Prng.
#[local] Open Scope Z_scope.

(** [String.prototype.normalize], and the classes L, M and N of a code point. *)
Class Unicode := {
  nfkc : jstr -> jstr;
  nfkd : jstr -> jstr;
  is_letter : Z -> bool;
  is_mark : Z -> bool;
  is_number : Z -> bool;
}.

(** The code points of a string, with their code units. *)
Fixpoint code_points (s : jstr) : list (Z * jstr) :=
  match s with
  | [] => []
  | c :: s' =>
      if isHighSurrogate c then
        match s' with
        | d :: s'' =>
            if isLowSurrogate d then (0x10000 + (c - 0xd800) * 0x400 + (d - 0xdc00), [c; d]) :: code_points s''
            else (c, [c]) :: code_points s'
        | [] => [(c, [c])]
        end
      else (c, [c]) :: code_points s'
  end.

(** [replace(/[^...]/gu, "")]: the code points that stay. *)
Definition keep_points (keep : Z -> bool) (s : jstr) : jstr :=
  concat (filter (fun p => keep p.1 = true) (code_points s)).*2.

Definition BANNED_TERMS : list jstr := [js "fuck"; js "shit"; js "bitch"; js "asshole"; js "damn"].
Definition DEFAULT_TERMINATION_MESSAGE : jstr := js "Room terminated by admin".

(** [\s_\-*] *)
Definition is_filler (c : Z) : bool := is_js_space c || (c =? 95) || (c =? 45) || (c =? 42).

Fixpoint skip_filler (s : jstr) : jstr :=
  match s with
  | c :: s' => if is_filler c then skip_filler s' else s
  | [] => []
  end.

(** A lower-case letter of the pattern against a code unit, with the flag i. *)
Definition same_letter (t c : Z) : bool := (c =? t) || (c =? t - 32).

(** The pattern of a term at the beginning of a string: what follows the match.
    No letter is a filler, so there is one way to match at most. *)
Fixpoint match_term (term s : jstr) : option jstr :=
  match term with
  | [] => Some s
  | t :: term' =>
      match s with
      | c :: s' =>
          if same_letter t c then match_term term' (match term' with [] => s' | _ => skip_filler s' end) else None
      | [] => None
      end
  end.

(** [replace(regex, "*".repeat(term.length))]; [fuel]: a bound on the length. *)
Fixpoint replace_term (fuel : nat) (term s : jstr) : jstr :=
  match fuel with
  | O => s
  | S fuel' =>
      match match_term term s with
      | Some rest => replicate (length term) 42 ++ replace_term fuel' term rest
      | None => match s with [] => [] | c :: s' => c :: replace_term fuel' term s' end
      end
  end.

Definition replace_all (term s : jstr) : jstr := replace_term (length s) term s.

(** [while (next !== current)] *)
Fixpoint mask_term (fuel : nat) (term current : jstr) : jstr :=
  match fuel with
  | O => current
  | S fuel' =>
      let next := replace_all term current in
      if decide (next = current) then current else mask_term fuel' term next
  end.

Definition is_ascii_letter (c : Z) : bool := in_range 97 c 122 || in_range 65 c 90.
Definition letters (s : jstr) : nat := length (filter (fun c => is_ascii_letter c = true) s).

Section Moderation.
Context `{!Unicode}.

(** Every replacement takes letters away. *)
Definition maskBannedTerms (value : jstr) : jstr :=
  foldl (fun current term => mask_term (S (letters current)) term current) (nfkc value) BANNED_TERMS.

(** [\s+] becomes one space. *)
Fixpoint single_spaces (s : jstr) : jstr :=
  match s with
  | [] => []
  | c :: s' =>
      if is_js_space c then
        match s' with
        | d :: _ => if is_js_space d then single_spaces s' else 32 :: single_spaces s'
        | [] => [32]
        end
      else c :: single_spaces s'
  end.

Definition normalizeWhitespace (value : jstr) : jstr := single_spaces (trim (nfkc value)).

(** [_], [-], space and [*] *)
Definition is_plain (c : Z) : bool := (c =? 95) || (c =? 45) || (c =? 32) || (c =? 42).

Definition stripNicknameArtifacts (value : jstr) : jstr :=
  keep_points (fun c => is_letter c || is_mark c || is_number c || is_plain c) (nfkc value).

Definition stripModerationArtifacts (value : jstr) : jstr :=
  keep_points (fun c => is_letter c || is_number c || is_plain c) (keep_points (fun c => negb (is_mark c)) (nfkd value)).

Definition baseNormalize (value : jstr) : jstr :=
  to_lower (filter (fun c => is_filler c = false) (keep_points (fun c => negb (is_mark c)) (nfkd value))).

Definition canonicalizeForModeration (value : jstr) : jstr := baseNormalize (stripModerationArtifacts value).

(** [String.prototype.includes] *)
Fixpoint includes (part s : jstr) : bool :=
  bool_decide (take (length part) s = part) || match s with [] => false | _ :: s' => includes part s' end.

Definition containsBannedTerm (value : jstr) : bool :=
  existsb (fun term => includes term (canonicalizeForModeration value)) BANNED_TERMS.

Definition sanitizeNickname (value : jstr) : option jstr :=
  let normalized := normalizeWhitespace value in
  let cleaned := stripNicknameArtifacts normalized in
  let masked := maskBannedTerms cleaned in
  let trimmed := normalizeWhitespace masked in
  let hasContent := existsb (fun p => is_letter p.1 || is_number p.1) (code_points (canonicalizeForModeration trimmed)) in
  let hasBanned := containsBannedTerm trimmed in
  if hasContent && negb hasBanned && (3 <=? length trimmed)%nat && (length trimmed <=? 20)%nat
  then Some trimmed else None.

Definition sanitizeAdminMessage (value : option jstr) : option jstr :=
  value ← value;
  let normalized := normalizeWhitespace value in
  match normalized with
  | [] => None
  | _ => if containsBannedTerm normalized then Some DEFAULT_TERMINATION_MESSAGE else Some (take 200 normalized)
  end.
End Moderation.

(** ** The masking loop comes to rest *)

Lemma is_ascii_letter_star : is_ascii_letter 42 = false.
Proof. done. Qed.

Lemma letters_app s t : letters (s ++ t) = (letters s + letters t)%nat.
Proof. unfold letters. by rewrite filter_app, length_app. Qed.

Lemma letters_cons c s : letters (c :: s) = ((if is_ascii_letter c then 1 else 0) + letters s)%nat.
Proof. unfold letters. rewrite filter_cons. by destruct (is_ascii_letter c); cbn. Qed.

#[local] Arguments letters : simpl never.

Lemma letters_stars n : letters (replicate n 42) = 0%nat.
Proof. induction n as [|n IH]; [done|]. cbn [replicate]. by rewrite letters_cons, IH. Qed.

Lemma skip_filler_letters s : (letters (skip_filler s) <= letters s)%nat.
Proof. induction s as [|c s IH]; cbn; [done|]. rewrite letters_cons. destruct (is_filler c); [lia|]. rewrite letters_cons. lia. Qed.

Lemma same_letter_letter t c : in_range 97 t 122 = true -> same_letter t c = true -> is_ascii_letter c = true.
Proof. unfold same_letter, is_ascii_letter, in_range. intros. bool_to_prop. lia. Qed.

Definition lower_term (term : jstr) : Prop := Forall (fun t => in_range 97 t 122 = true) term.

(** A match eats a letter of the string for each letter of the term. *)
Lemma match_term_letters term s rest :
  lower_term term -> match_term term s = Some rest -> (letters rest + length term <= letters s)%nat.
Proof.
  intros Ht. revert s rest. induction Ht as [|t term Hc Ht IH]; intros s rest; cbn; [intros [= ->]; lia|].
  destruct s as [|c s]; [done|]. destruct (same_letter t c) eqn:E; [|done].
  rewrite letters_cons, (same_letter_letter t c) by done. intros Hm. apply IH in Hm.
  destruct term; [lia|]. pose proof (skip_filler_letters s). lia.
Qed.

Lemma replace_term_letters fuel term s :
  lower_term term -> term <> [] ->
  replace_term fuel term s = s \/ (letters (replace_term fuel term s) < letters s)%nat.
Proof.
  intros Ht Hn. revert s. induction fuel as [|fuel IH]; intros s; [by left|]. cbn.
  destruct (match_term term s) as [rest|] eqn:E.
  - right. apply match_term_letters in E; [|done]. rewrite letters_app, letters_stars.
    assert (length term <> 0%nat) by (by destruct term). destruct (IH rest) as [->|]; lia.
  - destruct s as [|c s]; [by left|]. rewrite !letters_cons. destruct (IH s) as [->|]; [by left|right; lia].
Qed.

Lemma mask_term_rests fuel term s :
  lower_term term -> term <> [] -> (letters s < fuel)%nat ->
  replace_all term (mask_term fuel term s) = mask_term fuel term s.
Proof.
  intros Ht Hn. revert s. induction fuel as [|fuel IH]; intros s Hf; [lia|]. cbn.
  destruct (decide _) as [|Hne]; [done|]. apply IH.
  destruct (replace_term_letters (length s) term s Ht Hn) as [|Hl]; [done|]. unfold replace_all. lia.
Qed.

Lemma banned_terms_lower : Forall (fun term => lower_term term /\ term <> []) BANNED_TERMS.
Proof. repeat constructor; done. Qed.

(** The fuel of [maskBannedTerms] is enough: the loop of every term stops
    because nothing is left to replace. *)
Lemma masking_rests term current :
  term ∈ BANNED_TERMS ->
  replace_all term (mask_term (S (letters current)) term current) = mask_term (S (letters current)) term current.
Proof.
  intros Hin. pose proof banned_terms_lower as H. rewrite Forall_forall in H. destruct (H _ Hin) as [Ht Hn].
  by apply mask_term_rests; [..|lia].
Qed.

(** A nickname that passes is of a proper length, and neither it nor its plain
    form holds a banned term. *)
Lemma nickname_proper `{!Unicode} value name :
  sanitizeNickname value = Some name -> (3 <= length name <= 20)%nat /\ containsBannedTerm name = false.
Proof.
  unfold sanitizeNickname. destruct (_ && _) eqn:E; [|done]. intros Hn. apply (inj Some) in Hn as <-.
  apply andb_true_iff in E as [[[_ Hb]%andb_true_iff H3]%andb_true_iff H20].
  apply negb_true_iff in Hb. apply Nat.leb_le in H3, H20. done.
Qed.
