(* ===== verification/Auth.v ===== *)
(** * [auth.service.ts]: who gets a session

    Logging in as a guest or as the administrator, renewing a session and
    logging out are programs; what they wait for is the clock, random strings,
    statements of the database and commands of Redis.  [route] is a request to
    [auth.controller.ts]. *)

From S2P Require Import Prelude JsData Effects Shared Prng Async Tokens Moderation.
#[local] Open Scope Z_scope.
#[local] Open Scope prog_scope.

(** ** Constants *)

Definition FIXED_ADMIN_USERNAME : jstr := js "admin".
Definition REJECTED_ADMIN_PASSWORDS : list jstr := [js "arena100admin"; js "change-me-admin-password"].
Definition RESERVED_USERNAMES : list jstr := [js "admin"].

Definition AVATAR_SEEDS : list jstr :=
  [js "jellyfrog"; js "dario"; js "dentist"; js "nyakoshigure"; js "slavik"; js "tux"; js "yellingdario";
   js "yorhasit2b"; js "airring"; js "ask-jeeves"; js "azure"; js "broom-belle"; js "capy-2"; js "cinder";
   js "clawd"; js "clippy"; js "da-zhuang"; js "dev"; js "dewdrop"; js "doodlebob"; js "dude"; js "duo";
   js "einstein"; js "esheep64"; js "finderguy"; js "fine-pup"; js "goblin-goods"; js "goblin"; js "goose";
   js "kwehlet"; js "mini-sama"; js "miss-minute"; js "pc-guy"; js "pope-amodei"; js "rubick"; js "sumi";
   js "super-piglet"; js "theo"; js "thragg"; js "tibo"; js "tom"; js "totoro"].
Definition DEFAULT_AVATAR_SEED : jstr := js "jellyfrog".

Definition isValidAvatarSeed (seed : jstr) : bool := bool_decide (seed ∈ AVATAR_SEEDS).

Definition LEADERBOARD_CACHE_PERIODS : list jstr := [js "weekly"; js "all"].
Definition LEADERBOARD_CACHE_LIMITS : list jstr := [js "10"; js "25"; js "50"; js "100"].

(** ** Data *)

(** A row of [users], as far as logging in looks at it. *)
Record UserRow := mkUserRow {
  us_id : jstr;
  us_username : jstr;
  us_guestId : option jstr;
  us_role : Role;
  us_avatar : jstr;
}.

(** The data of [user.create]; without an avatar the column has its default. *)
Record NewUser := mkNewUser {
  nu_username : jstr;
  nu_guestId : jstr;
  nu_role : Role;
  nu_avatar : option jstr;
}.

Record AuthUser := mkAuthUser { au_id : jstr; au_username : jstr; au_role : Role }.
Record AuthResult := mkAuthResult {
  ar_accessToken : jstr;
  ar_refreshToken : jstr;
  ar_guestSecret : option jstr;
  ar_user : AuthUser;
}.

(** The configuration that the service reads. *)
Record AuthConfig := mkAuthConfig {
  cf_accessTokenTtlSeconds : Z;
  cf_refreshExpiresIn : Z;
  cf_adminPassword : option jstr;
  cf_nodeEnv : option jstr;
}.

Inductive AuthReq : Type -> Type :=
(** The clock, as [jwt.sign] reads it, and [nanoid]. *)
| QClock : AuthReq Z
| QNanoid (size : Z) : AuthReq jstr
(** [user.findUnique] by name and by id, [.create] and [.update] of the avatar. *)
| QUserNamed (username : jstr) : AuthReq (option UserRow)
| QUser (id : jstr) : AuthReq (option UserRow)
| QUserCreate (data : NewUser) : AuthReq UserRow
| QUserAvatar (id avatar : jstr) : AuthReq UserRow
(** [redis.set], [get] and [del]. *)
| QSetKey (key value : jstr) (ttl : Z) : AuthReq unit
| QGetKey (key : jstr) : AuthReq (option jstr)
| QDelKey (key : jstr) : AuthReq unit.

(** What leaves the process: the response to a request, its cookies included. *)
Inductive AuthEvent := SignedIn (result : AuthResult).

Abbreviation ATask := (Prog unit AuthEvent AuthReq).

(** ** Leaderboard cache *)

Definition getLeaderboardCacheKey (period limit : jstr) : jstr :=
  js "leaderboard:v2:" ++ period ++ js ":limit=" ++ limit.

(** The deletions run at once in the source; none of them can fail the others. *)
Definition invalidateLeaderboardCache : ATask unit :=
  for_each LEADERBOARD_CACHE_PERIODS (fun period =>
    for_each LEADERBOARD_CACHE_LIMITS (fun limit =>
      attempt (await (QDelKey (getLeaderboardCacheKey period limit))) ;; pret tt)).

(** ** Passwords and secrets *)

Definition isRejectedAdminPassword (password : jstr) : bool := bool_decide (password ∈ REJECTED_ADMIN_PASSWORDS).

Definition constantTimeCompare (a b : jstr) : bool :=
  bool_decide (sha256Bytes (utf8Encode a) = sha256Bytes (utf8Encode b)).

(** Truthiness of an optional string. *)
Definition truthy (s : option jstr) : option jstr :=
  match s with Some ((_ :: _) as s) => Some s | _ => None end.

(** [guestSecret?.trim()], when it is the secret of the row. *)
Definition secret_matches (guestId guestSecret : option jstr) : bool :=
  match truthy guestId, truthy (trim <$> guestSecret) with
  | Some guestId, Some trimmedSecret => constantTimeCompare guestId trimmedSecret
  | _, _ => false
  end.

Definition is_dev (nodeEnv : option jstr) : bool :=
  bool_decide (nodeEnv = Some (js "development") \/ nodeEnv = Some (js "test")).

(** [refresh:${refreshToken}] *)
Definition refresh_key (refreshToken : jstr) : jstr := js "refresh:" ++ refreshToken.

Section Auth.
Context `{!Unicode} {Hjwt : Jwt} (config : AuthConfig).

Definition normalizeReservedUsername (value : jstr) : jstr := baseNormalize value.

Definition unauthorized {R} (message : string) : ATask R := raise (HttpError 401 message).

(** ** Tokens *)

Definition generateTokens (userId username : jstr) (role : Role) : ATask AuthResult :=
  now <- await QClock ;;
  let accessToken := sign_access (cf_accessTokenTtlSeconds config) userId username role now in
  refreshToken <- await (QNanoid 64) ;;
  await (QSetKey (refresh_key refreshToken) userId (cf_refreshExpiresIn config)) ;;
  pret (mkAuthResult accessToken refreshToken None (mkAuthUser userId username role)).

(** ** Guests *)

(** A new account; when another request was faster, the one it made. *)
Definition create_guest (safeUsername : jstr) (avatar : option jstr) : ATask (option UserRow * bool) :=
  assignedGuestSecret <- await (QNanoid 24) ;;
  let chosenAvatar :=
    match avatar with
    | Some avatar => if isValidAvatarSeed avatar then avatar else DEFAULT_AVATAR_SEED
    | None => DEFAULT_AVATAR_SEED
    end in
  o <- attempt (await (QUserCreate (mkNewUser safeUsername assignedGuestSecret GUEST (Some chosenAvatar)))) ;;
  match o with
  | Ok user => pret (Some user, true)
  | Throw (PrismaError "P2002") => user <- await (QUserNamed safeUsername) ;; pret (user, false)
  | Throw error => raise error
  end.

(** The account of a name that was there before: its secret is asked for. *)
Definition claim_guest (user : UserRow) (guestSecret avatar : option jstr) : ATask UserRow :=
  if negb (secret_matches (us_guestId user) guestSecret) then unauthorized "USERNAME_TAKEN"
  else
    match avatar with
    | Some avatar =>
        if isValidAvatarSeed avatar && negb (bool_decide (us_avatar user = avatar)) then
          user <- await (QUserAvatar (us_id user) avatar) ;;
          invalidateLeaderboardCache ;;
          pret user
        else pret user
    | None => pret user
    end.

Definition guestLogin (username : jstr) (guestSecret avatar : option jstr) : ATask AuthResult :=
  match sanitizeNickname username with
  | None => unauthorized "Invalid guest username"
  | Some safeUsername =>
      if decide (normalizeReservedUsername safeUsername ∈ RESERVED_USERNAMES)
      then unauthorized "Cannot use reserved username"
      else
        found <- await (QUserNamed safeUsername) ;;
        entry <- match found with
                 | Some user => pret (Some user, false)
                 | None => create_guest safeUsername avatar
                 end ;;
        match entry with
        | (None, _) => unauthorized "Cannot use reserved username"
        | (Some user, isNewUser) =>
            if decide (us_role user <> GUEST) then unauthorized "Cannot use reserved username"
            else
              user <- (if isNewUser : bool then pret user else claim_guest user guestSecret avatar) ;;
              tokens <- generateTokens (us_id user) (us_username user) (us_role user) ;;
              pret (mkAuthResult (ar_accessToken tokens) (ar_refreshToken tokens) (us_guestId user) (ar_user tokens))
        end
  end.

(** ** The administrator *)

(** The password in the configuration may be used. *)
Definition usable_admin_password : option jstr :=
  match cf_adminPassword config with
  | Some adminPassword =>
      if (length adminPassword <? 12)%nat then None
      else if negb (is_dev (cf_nodeEnv config)) && isRejectedAdminPassword adminPassword then None
      else Some adminPassword
  | None => None
  end.

Definition create_admin : ATask (option UserRow) :=
  guestId <- await (QNanoid 12) ;;
  o <- attempt (await (QUserCreate (mkNewUser FIXED_ADMIN_USERNAME guestId ADMIN None))) ;;
  match o with
  | Ok user => pret (Some user)
  | Throw (PrismaError "P2002") => await (QUserNamed FIXED_ADMIN_USERNAME)
  | Throw error => raise error
  end.

Definition adminLogin (password : jstr) : ATask AuthResult :=
  match usable_admin_password with
  | None => unauthorized "Invalid admin credentials"
  | Some adminPassword =>
      if bool_decide (password = []) || negb (constantTimeCompare password adminPassword)
      then unauthorized "Invalid admin credentials"
      else
        found <- await (QUserNamed FIXED_ADMIN_USERNAME) ;;
        adminUser <- match found with
                     | Some adminUser => pret (Some adminUser)
                     | None => create_admin
                     end ;;
        match adminUser with
        | None => unauthorized "Invalid admin credentials"
        | Some adminUser =>
            if decide (us_role adminUser <> ADMIN) then unauthorized "Invalid admin credentials"
            else generateTokens (us_id adminUser) (us_username adminUser) (us_role adminUser)
        end
  end.

(** ** Sessions *)

Definition refreshAccessToken (refreshToken : jstr) : ATask AuthResult :=
  userId <- await (QGetKey (refresh_key refreshToken)) ;;
  match truthy userId with
  | None => unauthorized "Invalid refresh token"
  | Some userId =>
      user <- await (QUser userId) ;;
      match user with
      | None => unauthorized "User not found"
      | Some user =>
          await (QDelKey (refresh_key refreshToken)) ;;
          generateTokens (us_id user) (us_username user) (us_role user)
      end
  end.

Definition logout (refreshToken : jstr) : ATask unit := await (QDelKey (refresh_key refreshToken)).

(** ** The routes *)

(** A request; [cookie]: the value of the cookie of the refresh token. *)
Inductive AuthCall :=
| CallGuest (username : jstr) (guestSecret avatar : option jstr)
| CallAdmin (password : jstr)
| CallRefresh (cookie : option jstr)
| CallLogout (cookie : option jstr).

Definition route (call : AuthCall) : ATask unit :=
  match call with
  | CallGuest username guestSecret avatar =>
      result <- guestLogin username guestSecret avatar ;; say (SignedIn result)
  | CallAdmin password => result <- adminLogin password ;; say (SignedIn result)
  | CallRefresh cookie =>
      match truthy cookie with
      | None => unauthorized "Refresh token is required"
      | Some refreshToken => result <- refreshAccessToken refreshToken ;; say (SignedIn result)
      end
  | CallLogout cookie =>
      match truthy cookie with
      | None => pret tt
      | Some refreshToken => logout refreshToken
      end
  end.
End Auth.
