(* ===== verification/AuthRules.v ===== *)
(** * What [auth.service.ts] guarantees

    Nobody gets a session of somebody else's account, whatever requests are
    made at once; accounts get the role, the name and the avatar that are due.
    The database, Redis, the clock and the random strings are an interface,
    [AuthWorld]; [plain_auth] is an instance, in which the witnesses run. *)

From stdpp Require Import gmap.
From coqutil Require Import Datatypes.RecordSettersUsingExistingGetters.
From S2P Require Import Prelude JsData Effects Shared Prng Decimal Async Pool Rely Tokens Moderation Auth.
#[local] Open Scope Z_scope.
#[local] Open Scope prog_scope.

(** ** The world *)

(** What makes an account somebody's. *)
Record Account := mkAccount { ac_username : jstr; ac_guestId : option jstr; ac_role : Role }.
Definition account_of (row : UserRow) : Account := mkAccount (us_username row) (us_guestId row) (us_role row).

(** The name of the administrator is the administrator's. *)
Definition rightful (a : Account) : Prop := ac_username a = FIXED_ADMIN_USERNAME -> ac_role a = ADMIN.

Definition set_by {X} (q : AuthReq X) : option (jstr * jstr) :=
  match q with QSetKey key value _ => Some (key, value) | _ => None end.

Class AuthWorld (E : Type) := {
  (** Asked [q] in [e] the services may answer [r] and leave [e']; others may
      use them meanwhile. *)
  aw_answer : forall X, AuthReq X -> E -> outcome exn X -> E -> Prop;
  (** The accounts by id, and the strings of Redis by key. *)
  aw_account : E -> jstr -> option Account;
  aw_key : E -> jstr -> option jstr;
  (** The keys that others may set. *)
  aw_private : jstr -> Prop;
}.

Class AuthWorldLaws (E : Type) `{!AuthWorld E} := {
  (** No account changes hands or role, the name of the administrator aside. *)
  account_stays X (q : AuthReq X) e r e' id a :
    aw_answer X q e r e' -> aw_account e id = Some a -> rightful a -> aw_account e' id = Some a;
  named_read n e row e' :
    aw_answer _ (QUserNamed n) e (Ok (Some row)) e' ->
    aw_account e' (us_id row) = Some (account_of row) /\ us_username row = n;
  user_read id e row e' : aw_answer _ (QUser id) e (Ok (Some row)) e' -> us_id row = id;
  created_row data e row e' :
    aw_answer _ (QUserCreate data) e (Ok row) e' -> aw_account e (us_id row) = None;
  avatar_row id avatar e row e' : aw_answer _ (QUserAvatar id avatar) e (Ok row) e' -> us_id row = id;
  key_reading k e r e' : aw_answer _ (QGetKey k) e (Ok r) e' -> r = aw_key e' k;
  key_written X (q : AuthReq X) e r e' k v :
    aw_answer X q e r e' -> aw_key e' k = Some v -> aw_key e k = Some v \/ set_by q = Some (k, v) \/ aw_private k;
}.

(** ** Nobody takes over an account *)

Section Takeover.
Context {Hunicode : Unicode} {Hjwt : Jwt} (config : AuthConfig).
Context {E : Type} {Hworld : AuthWorld E} {Hlaws : AuthWorldLaws E}.
(** An account, and the refresh tokens that strangers present. *)
Context (victim : UserRow) (presented : jstr -> Prop).
Context (victim_rightful : rightful (account_of victim)).
Context (presented_apart : forall t, presented t -> ~ aw_private (refresh_key t)).

Abbreviation vid := (us_id victim).

(** A request whose sender has neither the secret of the account, nor the
    password of the administrator if it is the administrator's, nor one of its
    refresh tokens. *)
Definition stranger (call : AuthCall) : Prop :=
  match call with
  | CallGuest username guestSecret _ =>
      us_role victim = GUEST -> sanitizeNickname username = Some (us_username victim) ->
      secret_matches (us_guestId victim) guestSecret = false
  | CallAdmin password =>
      us_role victim = ADMIN -> us_username victim = FIXED_ADMIN_USERNAME ->
      forall adminPassword, usable_admin_password config = Some adminPassword ->
      constantTimeCompare password adminPassword = false
  | CallRefresh (Some refreshToken) => presented refreshToken
  | _ => True
  end.

(** The account stands, and no presented token opens it. *)
Definition out_of_reach (e : E) : Prop :=
  aw_account e vid = Some (account_of victim)
  /\ forall t, presented t -> aw_key e (refresh_key t) <> Some vid.

Definition opens_other (X : Type) (q : AuthReq X) : Prop :=
  match q with QSetKey _ value _ => value <> vid | _ => True end.

Definition telling (X : Type) (q : AuthReq X) (r : outcome exn X) : Prop :=
  match q in AuthReq X return outcome exn X -> Prop with
  | QUserNamed n => fun r => forall row, r = Ok (Some row) -> us_username row = n
      /\ (us_id row = vid -> account_of row = account_of victim)
  | QUser id => fun r => forall row, r = Ok (Some row) -> us_id row = id
  | QUserCreate _ => fun r => forall row, r = Ok row -> us_id row <> vid
  | QUserAvatar id _ => fun r => forall row, r = Ok row -> us_id row = id
  | QGetKey k => fun r => forall t v, presented t -> k = refresh_key t -> r = Ok (Some v) -> v <> vid
  | _ => fun _ => True
  end r.

Lemma reach_kept X (q : AuthReq X) e r e' :
  opens_other X q -> aw_answer X q e r e' -> out_of_reach e -> out_of_reach e'.
Proof.
  intros Hq Ha [Hv Ht]. split; [by eapply account_stays|]. intros t Hp Hk.
  destruct (key_written X q e r e' _ _ Ha Hk) as [Hk'|[Hs|Hs]]; [by apply (Ht t)| |by apply (presented_apart t)].
  destruct q; try done. cbn in Hs, Hq. congruence.
Qed.

Lemma replies_tell X (q : AuthReq X) e r e' : out_of_reach e -> aw_answer X q e r e' -> telling X q r.
Proof.
  intros [Hv Ht] Ha. destruct q; cbn; try done.
  - intros row ->. apply named_read in Ha as Hn. destruct Hn as [Hacc Hname]. split; [done|]. intros Hid.
    pose proof (account_stays _ _ _ _ _ _ _ Ha Hv victim_rightful) as Hv'. congruence.
  - intros row ->. by eapply user_read.
  - intros row -> Hid. apply created_row in Ha. congruence.
  - intros row ->. by eapply avatar_row.
  - intros t v Hp -> ->. pose proof (reach_kept _ (QGetKey (refresh_key t)) _ _ _ I Ha (conj Hv Ht)) as [_ Ht'].
    apply key_reading in Ha. intros ->. by apply (Ht' t).
Qed.

(** A session of another account. *)
Definition others_session (result : AuthResult) : Prop :=
  au_id (ar_user result) <> vid
  /\ exists ttl userId username role now,
       ar_accessToken result = sign_access ttl userId username role now /\ userId <> vid.

Definition speaks_of_others (x : AuthEvent) (e : E) : Prop := match x with SignedIn result => others_session result end.

Definition whatever (e e' : E) : Prop := True.
#[export] Instance whatever_preorder : PreOrder whatever.
Proof. by split. Qed.

Abbreviation Safely p Post :=
  (secure aw_answer out_of_reach opens_other telling speaks_of_others (fun _ => True) p (fun o _ => Post o)).

Lemma safely_await {X R} (q : AuthReq X) (k : X -> ATask R) (Post : outcome exn R -> Prop) :
  opens_other X q ->
  (forall r, telling X q r -> match r with Ok x => Safely (k x) Post | Throw e => Post (Throw e) end) ->
  Safely (pbind (await q) k) Post.
Proof.
  intros Hq H. apply secure_await; [done|]. intros r Hr. exists (fun _ => True). split; [|split; [done|by apply H]].
  intros e e' HI _ Ha. split; [by eapply reach_kept|done].
Qed.

(** A request whose refusal is looked at. *)
Lemma safely_try {X R} (q : AuthReq X) (k : outcome exn X -> ATask R) (Post : outcome exn R -> Prop) :
  opens_other X q -> (forall r, telling X q r -> Safely (k r) Post) ->
  Safely (pbind (attempt (await q)) k) Post.
Proof.
  intros Hq H. cbn. split; [done|]. intros r Hr. exists (fun _ => True). split; [|split; [done|by apply H]].
  intros e e' HI _ Ha. split; [by eapply reach_kept|done].
Qed.

Lemma safely_bind {A B} (p : ATask A) (k : A -> ATask B) (Mid : outcome exn A -> Prop) (Post : outcome exn B -> Prop) :
  Safely p Mid -> (forall o, Mid o -> match o with Ok a => Safely (k a) Post | Throw e => Post (Throw e) end) ->
  Safely (pbind p k) Post.
Proof.
  intros Hp Hk. apply secure_bind. eapply secure_mono; [|exact Hp]. intros o K Ho. specialize (Hk o Ho).
  destruct o as [a|e]; [by apply secure_forget|done].
Qed.

(** Where it does not matter what is answered. *)
Definition opens_nothing (X : Type) (q : AuthReq X) : Prop := set_by q = None.

Lemma safely_mute {R} (p : ATask R) : mute opens_nothing p -> Safely p (fun _ => True).
Proof.
  intros Hp. eapply secure_mute; [done| |exact Hp|done]. intros X q Hq.
  assert (Ho : opens_other X q) by by destruct q. split; [done|]. intros e r e' HI Ha. by eapply reach_kept.
Qed.

(** A call ends with a result that has a property, or throws. *)
Definition gives {R} (P : R -> Prop) (o : outcome exn R) : Prop := match o with Ok r => P r | Throw _ => True end.

Lemma safely_tokens userId username role :
  userId <> vid -> Safely (generateTokens config userId username role) (gives others_session).
Proof.
  intros Hid. unfold generateTokens. apply safely_await; [done|]. intros [now|] _; [|done].
  apply safely_await; [done|]. intros [t|] _; [|done].
  apply safely_await; [done|]. intros [[]|] _; [|done]. split; [done|]. by repeat eexists.
Qed.

(** The account that a name leads to. *)
Definition named (name : jstr) (user : UserRow) : Prop :=
  us_username user = name /\ (us_id user = vid -> account_of user = account_of victim).

Lemma safely_create name avatar :
  Safely (create_guest name avatar)
    (gives (fun entry : option UserRow * bool => forall user, entry.1 = Some user ->
       if entry.2 then us_id user <> vid else named name user)).
Proof.
  unfold create_guest. apply safely_await; [done|]. intros [secret|] _; [|done].
  apply safely_try; [done|]. intros [user|[ | | |code]] Hr; try done.
  - intros user' [= <-]. by apply Hr.
  - destruct (decide (code = "P2002")) as [->|Hne].
    + apply safely_await; [done|]. intros [found|] Hf; [|done]. cbn. intros user ->. by apply Hf.
    + assert (Hraise : forall q : ATask (option UserRow * bool),
        (match code with "P2002" => q | _ => raise (PrismaError code) end)%string = raise (PrismaError code)).
      { intros q. repeat (try done; case_match). }
      rewrite Hraise. done.
Qed.
(** A claim succeeds with the secret of the row only. *)
Lemma safely_claim user guestSecret avatar (P : UserRow -> Prop) :
  (secret_matches (us_guestId user) guestSecret = true -> forall user', us_id user' = us_id user -> P user') ->
  Safely (claim_guest user guestSecret avatar) (gives P).
Proof.
  intros HP. unfold claim_guest. destruct (secret_matches _ _) eqn:Hm; [|done]. specialize (HP eq_refl). cbn [negb].
  destruct avatar as [avatar|]; [|by apply HP]. destruct (_ && _); [|by apply HP].
  apply safely_await; [done|]. intros [user'|] Hr; [|done].
  eapply safely_bind; [apply safely_mute; unfold invalidateLeaderboardCache; mutes|].
  intros [[]|] _; [|done]. by apply HP, Hr.
Qed.

Lemma safely_guest username guestSecret avatar :
  stranger (CallGuest username guestSecret avatar) ->
  Safely (guestLogin config username guestSecret avatar) (gives others_session).
Proof.
  intros Hs. cbn in Hs. unfold guestLogin. destruct (sanitizeNickname username) as [name|]; [|done].
  destruct (decide _); [done|]. apply safely_await; [done|]. intros [found|] Hf; [|done].
  eapply safely_bind with (Mid := gives (fun entry => forall user, entry.1 = Some user ->
    if (entry.2 : bool) then us_id user <> vid else named name user)).
  { destruct found as [user|]; [|apply safely_create]. cbn. intros user' [= <-]. by apply Hf. }
  intros [[[user|] isNewUser]|] He; [|exact I|exact I]. specialize (He user eq_refl). cbn in He.
  destruct (decide _) as [|Hrole]; [done|].
  eapply safely_bind with (Mid := gives (fun user' => us_id user' <> vid)).
  - destruct isNewUser; [done|]. apply safely_claim. intros Hm user' Hid. rewrite Hid. intros Hv.
    destruct He as [Hname Hacc]. specialize (Hacc Hv). unfold account_of in Hacc. injection Hacc as Hn Hg Hr.
    rewrite Hg in Hm. rewrite Hs in Hm; [done| |congruence]. destruct (us_role user) eqn:Er; [congruence|].
    by destruct Hrole.
  - intros [user'|] Hu; [|done]. eapply safely_bind; [by apply safely_tokens|]. intros [tokens|] Ht; [|done]. exact Ht.
Qed.

Lemma safely_admin password :
  stranger (CallAdmin password) -> Safely (adminLogin config password) (gives others_session).
Proof.
  intros Hs. cbn in Hs. unfold adminLogin. destruct (usable_admin_password config) as [adminPassword|]; [|done].
  destruct (_ || _) eqn:Hp; [done|]. apply safely_await; [done|]. intros [found|] Hf; [|done].
  eapply safely_bind with (Mid := gives (fun found => forall user, found = Some user ->
    us_id user <> vid \/ named FIXED_ADMIN_USERNAME user)).
  { destruct found as [user|]; [intros user' [= <-]; right; by apply Hf|].
    unfold create_admin. apply safely_await; [done|]. intros [secret|] _; [|done].
    apply safely_try; [done|]. intros [user|[ | | |code]] Hr; try done.
    - intros user' [= <-]. left. by apply Hr.
    - destruct (decide (code = "P2002")) as [->|Hne].
      + cbn. split; [done|]. intros r Hr'. exists (fun _ => True). split; [|split; [done|]].
        * intros e e' HI _ Ha. split; [exact (reach_kept _ (QUserNamed _) _ _ _ I Ha HI)|done].
        * destruct r as [found|]; [|done]. cbn. intros user ->. right. by apply Hr'.
      + assert (Hraise : forall q : ATask (option UserRow),
          (match code with "P2002" => q | _ => raise (PrismaError code) end)%string = raise (PrismaError code)).
        { intros q. repeat (try done; case_match). }
        rewrite Hraise. done. }
  intros [[user|]|] Hu; try done. destruct (decide _) as [|Hrole]; [done|]. apply safely_tokens.
  intros Hv. destruct (Hu user eq_refl) as [|[Hname Hacc]]; [done|]. specialize (Hacc Hv).
  unfold account_of in Hacc. injection Hacc as Hn Hg Hr. apply orb_false_iff in Hp as [_ Hp].
  assert (Hadmin : us_role user = ADMIN) by (destruct (us_role user); [by destruct Hrole|done]).
  assert (Hr' : us_role victim = ADMIN) by congruence. assert (Hn' : us_username victim = FIXED_ADMIN_USERNAME) by congruence.
  by rewrite (Hs Hr' Hn' _ eq_refl) in Hp.
Qed.

Lemma safely_refresh refreshToken :
  presented refreshToken -> Safely (refreshAccessToken config refreshToken) (gives others_session).
Proof.
  intros Hp. unfold refreshAccessToken. apply safely_await; [done|]. intros [found|] Hr; [|done].
  destruct (truthy found) as [userId|] eqn:Ht; [|done].
  assert (found = Some userId) as -> by (destruct found as [[|]|]; cbn in Ht; congruence).
  pose proof (Hr refreshToken userId Hp eq_refl eq_refl) as Hid.
  apply safely_await; [done|]. intros [[user|]|] Hu; try done. rewrite <- (Hu user eq_refl) in Hid.
  apply safely_await; [done|]. intros [[]|] _; [|done]. by apply safely_tokens.
Qed.

Lemma safely_route call : stranger call -> Safely (route config call) (fun _ => True).
Proof.
  assert (Hend : forall p : ATask AuthResult, Safely p (gives others_session) ->
    Safely (result <- p ;; say (SignedIn result)) (fun _ => True)).
  { intros p Hp. eapply safely_bind; [exact Hp|]. intros [result|] Hr; [|done]. split; [|done]. intros e _ _. exact Hr. }
  destruct call as [username secret avatar|password|[[|c t]|]|[[|c t]|]]; intros Hs; cbn [route truthy]; try done.
  - by apply Hend, safely_guest.
  - by apply Hend, safely_admin.
  - by apply Hend, safely_refresh.
  - apply safely_mute. by split.
Qed.
End Takeover.

(** ** Accounts are made as is due *)

Section Accounts.
Context {Hunicode : Unicode} {Hjwt : Jwt} (config : AuthConfig).

(** A nickname that may be given to a guest. *)
Definition guest_name (name : jstr) : Prop :=
  (3 <= length name <= 20)%nat /\ containsBannedTerm name = false /\ baseNormalize name <> FIXED_ADMIN_USERNAME.

Definition proper_guest (data : NewUser) : Prop :=
  nu_role data = GUEST /\ guest_name (nu_username data)
  /\ exists avatar, nu_avatar data = Some avatar /\ isValidAvatarSeed avatar = true.

(** The password of the configuration, of at least 12 characters, and not one
    of the examples where it matters. *)
Definition admin_password (password : jstr) : Prop :=
  exists adminPassword, cf_adminPassword config = Some adminPassword /\ (12 <= length adminPassword)%nat
    /\ (is_dev (cf_nodeEnv config) = false -> isRejectedAdminPassword adminPassword = false)
    /\ constantTimeCompare password adminPassword = true.

(** What a request may do to the accounts and to the sessions. *)
Definition due (call : AuthCall) (X : Type) (q : AuthReq X) : Prop :=
  match q with
  | QUserCreate data =>
      match call with
      | CallGuest _ _ _ => proper_guest data
      | CallAdmin password => nu_role data = ADMIN /\ nu_username data = FIXED_ADMIN_USERNAME /\ admin_password password
      | _ => False
      end
  | QUserAvatar _ avatar => isValidAvatarSeed avatar = true /\ exists name secret, call = CallGuest name secret (Some avatar)
  | QSetKey key _ ttl =>
      (exists t, key = refresh_key t) /\ ttl = cf_refreshExpiresIn config
      /\ match call with CallAdmin password => admin_password password | CallLogout _ => False | _ => True end
  | QDelKey key =>
      match call with
      | CallRefresh cookie | CallLogout cookie => exists t, cookie = Some t /\ key = refresh_key t
      | CallGuest _ _ (Some _) =>
          exists period limit, period ∈ LEADERBOARD_CACHE_PERIODS /\ limit ∈ LEADERBOARD_CACHE_LIMITS
            /\ key = getLeaderboardCacheKey period limit
      | _ => False
      end
  | _ => True
  end.

Lemma due_tokens call userId username role :
  match call with CallAdmin password => admin_password password | CallLogout _ => False | _ => True end ->
  confined (due call) (generateTokens config userId username role).
Proof.
  intros Hc. unfold generateTokens. apply confined_bind; [by split|]. intros now.
  apply confined_bind; [by split|]. intros t. apply confined_bind; [|done].
  split; [|done]. split; [by exists t|]. by split.
Qed.

Lemma default_avatar_valid : isValidAvatarSeed DEFAULT_AVATAR_SEED = true.
Proof. by_compute. Qed.

Lemma confined_string {R} (ok : forall X, AuthReq X -> Prop) (code : string) (p r : ATask R) :
  confined ok p -> confined ok r -> confined ok (match code with "P2002" => p | _ => r end)%string.
Proof. intros Hp Hr. repeat (done || case_match). Qed.

Lemma due_create username secret avatar name :
  guest_name name -> confined (due (CallGuest username secret avatar)) (create_guest name avatar).
Proof.
  intros Hn. unfold create_guest. apply confined_bind; [by split|]. intros guestId.
  apply confined_bind; [apply confined_attempt; split; [|done]|].
  - split; [done|]. split; [done|]. destruct avatar as [a|]; [|by exists DEFAULT_AVATAR_SEED].
    destruct (isValidAvatarSeed a) eqn:Ha; [by exists a|by exists DEFAULT_AVATAR_SEED].
  - intros [user|[ | | |code]]; [done..|]. apply confined_string; [|done]. apply confined_bind; [by split|done].
Qed.

Lemma due_claim username secret avatar user :
  confined (due (CallGuest username secret avatar)) (claim_guest user secret avatar).
Proof.
  unfold claim_guest. destruct (negb _); [done|]. destruct avatar as [a|]; [|done].
  destruct (isValidAvatarSeed a && _) eqn:Ha; [|done]. apply andb_true_iff in Ha as [Ha _].
  apply confined_bind; [split; [|done]; split; [done|by repeat eexists]|]. intros user'.
  apply confined_bind; [|done]. unfold invalidateLeaderboardCache.
  apply confined_for_each. intros period Hp. apply confined_for_each. intros limit Hl.
  apply confined_bind; [|done]. apply confined_attempt. split; [|done]. by exists period, limit.
Qed.

Lemma usable_password adminPassword password :
  usable_admin_password config = Some adminPassword -> constantTimeCompare password adminPassword = true ->
  admin_password password.
Proof.
  unfold usable_admin_password. destruct (cf_adminPassword config) as [p|] eqn:Hp; [|done].
  destruct (_ <? _)%nat eqn:Hl; [done|]. apply Nat.ltb_ge in Hl. destruct (negb _ && _) eqn:Hr; [done|].
  intros [= ->] Hc. exists adminPassword. split_and!; [done|done| |done]. intros Hd. by rewrite Hd in Hr.
Qed.

Lemma due_route call : confined (due call) (route config call).
Proof.
  assert (Hsay : forall p : ATask AuthResult, confined (due call) p ->
    confined (due call) (result <- p ;; say (SignedIn result))).
  { intros p Hp. by apply confined_bind. }
  destruct call as [username secret avatar|password|[[|c t]|]|[[|c t]|]]; cbn [route truthy]; try done; try apply Hsay.
  - unfold guestLogin. destruct (sanitizeNickname username) as [name|] eqn:Hn; [|done].
    destruct (decide _) as [|Hres]; [done|]. apply nickname_proper in Hn as [Hlen Hbanned].
    assert (guest_name name) as Hname.
    { split_and!; [lia|lia|done|]. intros Hb. apply Hres. unfold normalizeReservedUsername. rewrite Hb. left. }
    apply confined_bind; [by split|]. intros found. apply confined_bind; [destruct found; [done|by apply due_create]|].
    intros [[user|] isNewUser]; [|done]. destruct (decide _); [done|].
    apply confined_bind; [destruct isNewUser; [done|apply due_claim]|]. intros user'.
    apply confined_bind; [by apply due_tokens|done].
  - unfold adminLogin. destruct (usable_admin_password config) as [p|] eqn:Hp; [|done].
    destruct (_ || _) eqn:Hc; [done|]. apply orb_false_iff in Hc as [_ Hc]. apply negb_false_iff in Hc.
    pose proof (usable_password _ _ Hp Hc) as Hadmin.
    apply confined_bind; [by split|]. intros found. apply confined_bind.
    + destruct found; [done|]. unfold create_admin. apply confined_bind; [by split|]. intros guestId.
      apply confined_bind; [apply confined_attempt; by split|]. intros [user|[ | | |code]]; [done..|].
      by apply confined_string; [split|].
    + intros [user|]; [|done]. destruct (decide _); [done|]. by apply due_tokens.
  - unfold refreshAccessToken. apply confined_bind; [by split|]. intros found. destruct (truthy found); [|done].
    apply confined_bind; [by split|]. intros [user|]; [|done].
    apply confined_bind; [split; [by eexists|done]|]. intros []. by apply due_tokens.
  - split; [by eexists|done].
Qed.

End Accounts.

Section Theorems.
Context {Hunicode : Unicode} {Hjwt : Jwt} {Hjlaws : JwtLaws} (config : AuthConfig).
Context {E : Type} {Hworld : AuthWorld E} {Hlaws : AuthWorldLaws E}.

(** The identity that an access token proves is the one it was signed for. *)
Lemma signed_identity ttl userId username role now later p :
  verifyToken (sign_access ttl userId username role now) later = Ok p -> tp_userId p = userId.
Proof.
  unfold verifyToken, sign_access. rewrite verify_sign by done. destruct (_ <? _); [|done].
  rewrite decide_False by (intros [_ Hn]; by apply Hn). destruct userId as [|c u]; [done|]. cbn. by intros [= <-].
Qed.

End Theorems.

(** ** An instance of the world, and runs in it

    Statements and commands may fail before or after they took effect. *)

#[local] Arguments RecordSettersUsingExistingGetters.const {E} newValue / _.

(** [px_next]: the next id or random string. *)
Record PlainAuth := mkPlainAuth {
  px_now : Z;
  px_next : nat;
  px_users : gmap jstr UserRow;
  px_keys : gmap jstr jstr;
}.

Definition find_named (name : jstr) (users : gmap jstr UserRow) : option UserRow :=
  snd <$> head (filter (fun kv => us_username kv.2 = name /\ us_id kv.2 = kv.1) (map_to_list users)).

(** The row of an id, which it carries. *)
Definition row_at (id : jstr) (users : gmap jstr UserRow) : option UserRow :=
  row ← users !! id; if decide (us_id row = id) then Some row else None.

Definition fresh_id (w : PlainAuth) : jstr := js "user" ++ js_of_Z (Z.of_nat (px_next w)).

Definition new_row (id : jstr) (data : NewUser) : UserRow :=
  mkUserRow id (nu_username data) (Some (nu_guestId data)) (nu_role data) (default DEFAULT_AVATAR_SEED (nu_avatar data)).

Definition with_avatar (avatar : jstr) (row : UserRow) : UserRow :=
  mkUserRow (us_id row) (us_username row) (us_guestId row) (us_role row) avatar.

Definition auth_exec (X : Type) (q : AuthReq X) (w : PlainAuth) : outcome exn X * PlainAuth :=
  match q in AuthReq X return outcome exn X * PlainAuth with
  | QClock => (Ok (px_now w), w)
  | QNanoid _ => (Ok (js "random" ++ js_of_Z (Z.of_nat (px_next w))), { w with px_next ::= S })
  | QUserNamed name => (Ok (find_named name (px_users w)), w)
  | QUser id => (Ok (row_at id (px_users w)), w)
  | QUserCreate data =>
      match px_users w !! fresh_id w, find_named (nu_username data) (px_users w) with
      | None, None =>
          let row := new_row (fresh_id w) data in
          (Ok row, { w with px_next ::= S; px_users ::= <[fresh_id w := row]> })
      | _, _ => (Throw (PrismaError "P2002"), w)
      end
  | QUserAvatar id avatar =>
      match row_at id (px_users w) with
      | Some row => (Ok (with_avatar avatar row), { w with px_users ::= <[id := with_avatar avatar row]> })
      | None => (Throw (PrismaError "P2025"), w)
      end
  | QSetKey key value _ => (Ok tt, { w with px_keys ::= <[key := value]> })
  | QGetKey key => (Ok (px_keys w !! key), w)
  | QDelKey key => (Ok tt, { w with px_keys ::= delete key })
  end.

(** A request is served, refused, or served with its reply lost. *)
Inductive auth_answer (X : Type) (q : AuthReq X) (w : PlainAuth) : outcome exn X -> PlainAuth -> Prop :=
| auth_served : auth_answer X q w (auth_exec X q w).1 (auth_exec X q w).2
| auth_refused err : auth_answer X q w (Throw err) w
| auth_lost err : auth_answer X q w (Throw err) (auth_exec X q w).2.

#[export] Instance plain_auth : AuthWorld PlainAuth := {
  aw_answer := auth_answer;
  aw_account w id := account_of <$> px_users w !! id;
  aw_key w key := px_keys w !! key;
  aw_private _ := False;
}.

(** ** The instance obeys the laws *)

Lemma row_at_Some id users row : row_at id users = Some row -> users !! id = Some row /\ us_id row = id.
Proof. unfold row_at. destruct (users !! id); cbn; [|done]. case_decide; [|done]. by intros [= ->]. Qed.

Lemma find_named_Some name users row :
  find_named name users = Some row -> users !! us_id row = Some row /\ us_username row = name.
Proof.
  unfold find_named. destruct (filter _ _) as [|[id row'] l] eqn:E; [done|]. cbn. intros [= ->].
  assert (Hin : (id, row) ∈ (id, row) :: l) by left. rewrite <- E in Hin.
  apply list_elem_of_filter in Hin as [[Hn Hid] Hin]. cbn in Hn, Hid. subst id. by apply elem_of_map_to_list in Hin.
Qed.

Section Exec.
Context {X : Type} (q : AuthReq X) (w : PlainAuth).

Lemma exec_account_stays id a :
  account_of <$> px_users w !! id = Some a -> account_of <$> px_users (auth_exec X q w).2 !! id = Some a.
Proof.
  intros Ha. destruct q; cbn -[fresh_id]; try done.
  - destruct (px_users w !! fresh_id w) eqn:Hf; [done|]. destruct (find_named _ _); [done|]. cbn -[fresh_id].
    destruct (decide (fresh_id w = id)) as [<-|Hne]; [by rewrite Hf in Ha|by rewrite lookup_insert_ne].
  - destruct (row_at _ _) as [row|] eqn:Hr; [|done]. apply row_at_Some in Hr as [Hr _]. cbn.
    destruct (decide (id0 = id)) as [<-|Hne]; [|by rewrite lookup_insert_ne].
    rewrite lookup_insert_eq. rewrite Hr in Ha. by rewrite <- Ha.
Qed.

Lemma exec_key_written k v :
  px_keys (auth_exec X q w).2 !! k = Some v -> px_keys w !! k = Some v \/ set_by q = Some (k, v).
Proof.
  destruct q; cbn; repeat case_match; cbn; auto.
  - intros [[<- <-]|[_ Hk]]%lookup_insert_Some; auto.
  - intros [_ Hk]%lookup_delete_Some. auto.
Qed.
End Exec.

Lemma auth_replied {X} (q : AuthReq X) w r w' : auth_answer X q w (Ok r) w' -> auth_exec X q w = (Ok r, w').
Proof.
  intros H. remember (Ok r) as o eqn:Ho. destruct H as [|?|?]; [|done|done].
  by destruct (auth_exec X q w).
Qed.

#[export] Instance plain_auth_laws : AuthWorldLaws PlainAuth.
Proof.
  split; unfold aw_answer, aw_account, aw_key, plain_auth.
  - intros X q e r e' id a [|?|?] Ha _; by try apply exec_account_stays.
  - intros n e row e' H. apply auth_replied in H. cbn in H. injection H as H <-.
    apply find_named_Some in H as [H ?]. by rewrite H.
  - intros id e row e' H. apply auth_replied in H. cbn in H. injection H as H <-. apply row_at_Some in H as [_ H]. exact H.
  - intros data e row e' H. apply auth_replied in H. cbn -[fresh_id] in H.
    destruct (px_users e !! fresh_id e) eqn:Hf; [done|]. destruct (find_named _ _); [done|].
    injection H as <- _. cbn -[fresh_id]. by rewrite Hf.
  - intros id avatar e row e' H. apply auth_replied in H. cbn in H.
    destruct (row_at _ _) as [row'|] eqn:Hrow; [|done]. apply row_at_Some in Hrow as [_ ?]. by injection H as <- _.
  - intros k e r e' H. apply auth_replied in H. cbn in H. by injection H as <- <-.
  - intros X q e r e' k v [|?|?] Hk; [|by left|]; apply exec_key_written in Hk as [?|?]; auto.
Qed.

(** ** Strings of ASCII *)

#[export] Instance ascii_unicode : Unicode := {
  nfkc s := s;
  nfkd s := s;
  is_letter := is_ascii_letter;
  is_mark _ := false;
  is_number c := in_range 48 c 57;
}.

(** ** Runs *)

Definition demo_config : AuthConfig :=
  mkAuthConfig 3600 604800 (Some (js "correct horse battery")) (Some (js "production")).

Definition ana : UserRow := mkUserRow (js "u-ana") (js "ana") (Some (js "anas-secret")) GUEST (js "tux").
Definition boss : UserRow := mkUserRow (js "u-boss") (js "admin") (Some (js "-")) ADMIN (js "tux").

Definition auth_start : PlainAuth :=
  mkPlainAuth 5000 0 (<[us_id ana := ana]> (<[us_id boss := boss]> ∅)) {[refresh_key (js "anas-token") := us_id ana]}.

Definition auth_reply (X : Type) (q : AuthReq X) (w : PlainAuth) : outcome exn X * PlainAuth := auth_exec X q w.

Lemma auth_reply_answers X (q : AuthReq X) w : aw_answer X q w (auth_reply X q w).1 (auth_reply X q w).2.
Proof. apply auth_served. Qed.

(** Somebody tries ana's name, the password and a token, and logs in as bob. *)
Definition demo_attack : list AuthCall :=
  [CallGuest (js "ana") (Some (js "guess")) None; CallAdmin (js "guess"); CallRefresh (Some (js "guess"));
   CallGuest (js "bob") None (Some (js "clippy"))].
Definition attack_run : list (AuthEvent * PlainAuth) * (PlainAuth * list (ATask unit)) :=
  says_run auth_reply tt (flat_map (fun _ => [0; 1; 2; 3]%nat) (seq 0 12)) auth_start (route demo_config <$> demo_attack).

Definition signed_in (x : AuthEvent * PlainAuth) : AuthUser := match x.1 with SignedIn result => ar_user result end.

Lemma attack_result : signed_in <$> attack_run.1 = [mkAuthUser (js "user1") (js "bob") GUEST].
Proof. by_compute. Qed.

Lemma strangers_attack : Forall (stranger demo_config ana (fun t => CallRefresh (Some t) ∈ demo_attack)) demo_attack.
Proof.
  assert (Hsecret : secret_matches (us_guestId ana) (Some (js "guess")) = false) by by_compute.
  assert (Hbob : sanitizeNickname (js "bob") <> Some (us_username ana)).
  { assert (Hb : bool_decide (sanitizeNickname (js "bob") = Some (us_username ana)) = false) by by_compute.
    by apply bool_decide_eq_false in Hb. }
  assert (Hrole : us_role ana <> ADMIN) by (cbn; discriminate).
  constructor; [intros _ _; exact Hsecret|]. constructor; [intros Hr; by destruct Hrole|].
  constructor; [by right; right; left|]. constructor; [intros _ Hn; by destruct Hbob|constructor].
Qed.

Lemma guess_misses t :
  CallRefresh (Some t) ∈ demo_attack ->
  aw_key auth_start (refresh_key t) <> Some (us_id ana) /\ ~ aw_private (refresh_key t).
Proof.
  intros Hin. assert (t = js "guess") as ->.
  { unfold demo_attack in Hin. rewrite !elem_of_cons, elem_of_nil in Hin.
    destruct Hin as [Hin|[Hin|[Hin|[Hin|[]]]]]; try discriminate Hin.
    by apply (f_equal (fun c => match c with CallRefresh (Some t) => t | _ => [] end)) in Hin. }
  split; [|by intros []]. intros Hk. assert (Hn : aw_key auth_start (refresh_key (js "guess")) = None) by by_compute.
  congruence.
Qed.


(** ** A refresh token can be spent twice

    [refreshAccessToken] reads the key and deletes it in two commands. *)

Definition demo_refreshes : list AuthCall := [CallRefresh (Some (js "anas-token")); CallRefresh (Some (js "anas-token"))].
Definition refresh_run : list (AuthEvent * PlainAuth) * (PlainAuth * list (ATask unit)) :=
  says_run auth_reply tt (flat_map (fun _ => [0; 1]%nat) (seq 0 8)) auth_start (route demo_config <$> demo_refreshes).

(** Two requests with one token are both answered with a new session. *)
Lemma refresh_token_spent_twice :
  pool_says aw_answer (auth_start, route demo_config <$> demo_refreshes) refresh_run.1 refresh_run.2
  /\ signed_in <$> refresh_run.1 = [mkAuthUser (us_id ana) (js "ana") GUEST; mkAuthUser (us_id ana) (js "ana") GUEST].
Proof. split; [unfold refresh_run; apply says_run_says, auth_reply_answers|by_compute]. Qed.
