(* ===== verification/ReaderPool.v ===== *)
(** * [redis.streams.ts]: the connections that read command streams

    A blocking read needs a connection of its own.  The service keeps at most
    sixteen of them; a read that finds none waits in a queue.  The operations
    are synchronous: what comes between two of them is another event of the
    process, [reader_event].  The pool is sound: connections are bounded, not
    shared and not leaked; who waits has reason to. *)

From stdpp Require Import gmap.
From coqutil Require Import Datatypes.RecordSettersUsingExistingGetters.
From S2P Require Import Prelude JsData Effects Shared.

#[local] Arguments RecordSettersUsingExistingGetters.const {E} newValue / _.

Definition BLOCKING_READER_POOL_MAX : nat := 16.

(** ** Replies *)

Record StreamEntry := mkStreamEntry { se_id : jstr; se_data : jstr }.
Definition STREAM_FIELD : jstr := js "data".

(** The value of the first field "data" of a list of names and values. *)
Fixpoint entry_data (fields : list jstr) : jstr :=
  match fields with
  | name :: value :: fields' => if decide (name = STREAM_FIELD) then value else entry_data fields'
  | _ => []
  end.

(** An entry that is no array is [None], and one whose fields are none has [None]. *)
Abbreviation RawEntries := (list (option (jstr * option (list jstr)))).

Definition parseEntries (entries : option RawEntries) : list StreamEntry :=
  omap (fun entry =>
    match entry with
    | Some (id, Some fields) => Some (mkStreamEntry id (entry_data fields))
    | Some (id, None) => Some (mkStreamEntry id [])
    | None => None
    end) (default [] entries).

Definition parseStreamReply (reply : option (list (jstr * option RawEntries))) (stream : jstr) : list StreamEntry :=
  match reply with
  | None => []
  | Some reply =>
      match head (filter (fun part => part.1 = stream) reply), reply with
      | Some streamPart, _ => parseEntries streamPart.2
      | None, streamPart :: _ => parseEntries streamPart.2
      | None, [] => []
      end
  end.

(** ** The pool

    A reader is a number; [rp_minted]: how many there have been.  [rp_closed]:
    the readers that were disconnected, and [rp_discarded]: how many by
    [discardBlockingReader].  The waiters are the reads that wait. *)
Record Readers := mkReaders {
  rp_pool : list nat;
  rp_inUse : gset nat;
  rp_waiters : list nat;
  rp_isShuttingDown : bool;
  rp_lastWaiterDepth : nat;
  rp_minted : nat;
  rp_closed : gset nat;
  rp_discarded : nat;
}.

(** How [acquireBlockingReader] ends: with the promise settled, or with the
    read in the queue. *)
Inductive Acquired := Settled (reader : option nat) | Queued.

Definition acquireBlockingReader (call : nat) (aborted : bool) (s : Readers) : Acquired * Readers :=
  if rp_isShuttingDown s || aborted then (Settled None, s)
  else
    match last (rp_pool s) with
    | Some idle =>
        (Settled (Some idle), { s with rp_pool := removelast (rp_pool s); rp_inUse ::= union {[idle]} })
    | None =>
        if (size (rp_inUse s) <? BLOCKING_READER_POOL_MAX)%nat then
          let minted := rp_minted s in
          (Settled (Some minted), { s with rp_minted ::= S; rp_inUse ::= union {[minted]} })
        else
          (Queued, { s with rp_waiters := rp_waiters s ++ [call];
                        rp_lastWaiterDepth := length (rp_waiters s ++ [call]) })
    end.

(** [onAbort] of a waiter. *)
Definition onAbort (call : nat) (s : Readers) : Readers :=
  let waiters := filter (fun waiter => waiter <> call) (rp_waiters s) in
  { s with rp_waiters := waiters; rp_lastWaiterDepth := length waiters }.

(** [disconnect] closes the connection, at once or, when it throws, by [quit]. *)
Definition disconnect (reader : nat) (s : Readers) : Readers := { s with rp_closed ::= union {[reader]} }.

(** The waiter that is handed the reader. *)
Definition releaseBlockingReader (reader : nat) (s : Readers) : option nat * Readers :=
  let s := { s with rp_inUse := rp_inUse s ∖ {[reader]} } in
  if rp_isShuttingDown s then (None, disconnect reader s)
  else
    match rp_waiters s with
    | waiter :: waiters =>
        (Some waiter, { s with rp_waiters := waiters; rp_lastWaiterDepth := length waiters;
                           rp_inUse ::= union {[reader]} })
    | [] =>
        if (length (rp_pool s) <? BLOCKING_READER_POOL_MAX)%nat
        then (None, { s with rp_pool := rp_pool s ++ [reader] })
        else (None, disconnect reader s)
    end.

Definition discardBlockingReader (reader : nat) (s : Readers) : Readers :=
  let s := { s with rp_inUse := rp_inUse s ∖ {[reader]}; rp_discarded ::= S } in disconnect reader s.

(** [onModuleDestroy], as far as the pool goes: the reads that waited. *)
Definition shut_down (s : Readers) : list nat * Readers :=
  (rp_waiters s,
   { s with rp_isShuttingDown := true; rp_waiters := []; rp_lastWaiterDepth := 0%nat;
       rp_closed := rp_closed s ∪ list_to_set (rp_pool s) ∪ rp_inUse s; rp_pool := []; rp_inUse := ∅ }).

(** ** The reads of a process: [xreadgroup]

    A read waits for a reader, or reads with one. *)
Inductive Phase := Waiting | Reading (reader : nat).

Record System := mkSystem { sys_readers : Readers; sys_calls : gmap nat Phase }.

Inductive ReaderEvent :=
(** [xreadgroup] is called, with a signal that may be aborted already. *)
| Begin (call : nat) (aborted : bool)
(** The signal of a waiting read is aborted. *)
| Abort (call : nat)
(** XREADGROUP has answered; it failed, or took too long. *)
| Replied (call : nat)
| Failed (call : nat)
| ShutDown.

Definition reader_event (ev : ReaderEvent) (s : System) : System :=
  let readers := sys_readers s in
  match ev with
  | Begin call aborted =>
      if aborted || rp_isShuttingDown readers || bool_decide (is_Some (sys_calls s !! call)) then s
      else
        match acquireBlockingReader call aborted readers with
        | (Settled (Some reader), readers) => mkSystem readers (<[call := Reading reader]> (sys_calls s))
        | (Settled None, readers) => mkSystem readers (sys_calls s)
        | (Queued, readers) => mkSystem readers (<[call := Waiting]> (sys_calls s))
        end
  | Abort call =>
      match sys_calls s !! call with
      | Some Waiting => mkSystem (onAbort call readers) (delete call (sys_calls s))
      | _ => s
      end
  | Replied call =>
      match sys_calls s !! call with
      | Some (Reading reader) =>
          let '(handed, readers) := releaseBlockingReader reader readers in
          let calls := delete call (sys_calls s) in
          mkSystem readers (match handed with Some waiter => <[waiter := Reading reader]> calls | None => calls end)
      | _ => s
      end
  | Failed call =>
      match sys_calls s !! call with
      | Some (Reading reader) => mkSystem (discardBlockingReader reader readers) (delete call (sys_calls s))
      | _ => s
      end
  | ShutDown =>
      let '(refused, readers) := shut_down readers in
      mkSystem readers (foldr delete (sys_calls s) refused)
  end.

Definition first_system : System := mkSystem (mkReaders [] ∅ [] false 0 0 ∅ 0) ∅.
Definition system_after (events : list ReaderEvent) : System := foldl (fun s ev => reader_event ev s) first_system events.

(** ** The pool is sound *)

(** The reader that a read has. *)
Definition holds (s : System) (call reader : nat) : Prop := sys_calls s !! call = Some (Reading reader).
Definition waits (s : System) (call : nat) : Prop := sys_calls s !! call = Some Waiting.

Record sound_pool (s : System) : Prop := {
  sp_bound : (length (rp_pool (sys_readers s)) + size (rp_inUse (sys_readers s)) <= BLOCKING_READER_POOL_MAX)%nat;
  sp_nodup : NoDup (rp_pool (sys_readers s));
  sp_apart : forall r, r ∈ rp_pool (sys_readers s) -> (r ∉ rp_inUse (sys_readers s));
  sp_queue : NoDup (rp_waiters (sys_readers s));
  sp_depth : rp_lastWaiterDepth (sys_readers s) = length (rp_waiters (sys_readers s));
  sp_waiting : forall c, c ∈ rp_waiters (sys_readers s) <-> waits s c;
  sp_alone : forall c1 c2 r, holds s c1 r -> holds s c2 r -> c1 = c2;
  sp_held : rp_isShuttingDown (sys_readers s) = false ->
    forall r, r ∈ rp_inUse (sys_readers s) <-> exists c, holds s c r;
  sp_reason : rp_waiters (sys_readers s) <> [] ->
    rp_pool (sys_readers s) = [] /\
    (BLOCKING_READER_POOL_MAX <= size (rp_inUse (sys_readers s)) + rp_discarded (sys_readers s))%nat;
  sp_minted : forall r, (r < rp_minted (sys_readers s))%nat <->
    r ∈ rp_pool (sys_readers s) \/ r ∈ rp_inUse (sys_readers s) \/ r ∈ rp_closed (sys_readers s);
  sp_open : forall r, r ∈ rp_closed (sys_readers s) ->
    (r ∉ rp_pool (sys_readers s)) /\ (r ∉ rp_inUse (sys_readers s));
  sp_down : rp_isShuttingDown (sys_readers s) = true ->
    rp_pool (sys_readers s) = [] /\ rp_inUse (sys_readers s) = ∅ /\ rp_waiters (sys_readers s) = []
    /\ forall c r, holds s c r -> r ∈ rp_closed (sys_readers s);
}.

Lemma first_sound : sound_pool first_system.
Proof.
  split; unfold holds, waits; cbn; try done; try (by constructor); try (by intros []).
  - rewrite size_empty. unfold BLOCKING_READER_POOL_MAX. lia.
  - intros c. rewrite lookup_empty, elem_of_nil. done.
  - intros _ r. rewrite elem_of_empty. split; [done|]. intros [c Hc]. by rewrite lookup_empty in Hc.
  - intros r. rewrite elem_of_nil, !elem_of_empty. lia.
Qed.

Lemma removelast_last {A} (l : list A) x : last l = Some x -> l = removelast l ++ [x].
Proof.
  intros Hl. apply last_Some in Hl as [l' ->]. by rewrite removelast_last.
Qed.

Lemma size_less (X : gset nat) r : r ∈ X -> S (size (X ∖ {[r]})) = size X.
Proof.
  intros Hr. rewrite size_difference by set_solver. rewrite size_singleton.
  assert (size X <> 0%nat); [|lia]. intros H. apply size_empty_inv in H. set_solver.
Qed.

(** A read that takes an idle reader. *)
Lemma begin_idle pool inUse waiters depth minted closed disc calls call idle :
  calls !! call = None ->
  sound_pool (mkSystem (mkReaders (pool ++ [idle]) inUse waiters false depth minted closed disc) calls) ->
  sound_pool (mkSystem (mkReaders pool ({[idle]} ∪ inUse) waiters false depth minted closed disc)
                       (<[call := Reading idle]> calls)).
Proof.
  intros Hc [H1 H2 H3 H4 H5 H6 H7 H8 H9 H10 H11 H12]. cbn in *. unfold holds, waits in *. cbn in *.
  rewrite length_app in H1. cbn in H1. apply NoDup_app in H2 as (H2 & Hni & _).
  specialize (H8 eq_refl). assert (Hidle : (idle ∉ inUse)) by (apply H3; set_solver).
  split; cbn; unfold holds, waits; cbn.
  - rewrite size_union, size_singleton by set_solver. lia.
  - done.
  - intros r Hr. specialize (H3 r). specialize (Hni r Hr). set_solver.
  - done.
  - done.
  - intros c. rewrite H6. destruct (decide (call = c)) as [<-|]; [|by rewrite lookup_insert_ne].
    rewrite lookup_insert_eq, Hc. done.
  - intros c1 c2 r. rewrite !lookup_insert_Some.
    assert (forall c, calls !! c <> Some (Reading idle)) by (intros c Hh; apply Hidle, H8; eauto). naive_solver.
  - intros _ r. rewrite elem_of_union, elem_of_singleton, H8. split.
    + intros [->|[c Hh]]; [exists call; by rewrite lookup_insert_eq|].
      exists c. rewrite lookup_insert_ne; [done|congruence].
    + intros [c [[<- [= ->]]|[_ Hh]]%lookup_insert_Some]; eauto.
  - intros Hw. apply H9 in Hw as [Hp _]. by destruct pool.
  - intros r. rewrite H10. set_solver.
  - intros r Hr. apply H11 in Hr as [Hr1 Hr2]. set_solver.
  - done.
Qed.

(** A read for which a reader is made. *)
Lemma begin_minted inUse waiters depth minted closed disc calls call :
  calls !! call = None -> (size inUse < BLOCKING_READER_POOL_MAX)%nat ->
  sound_pool (mkSystem (mkReaders [] inUse waiters false depth minted closed disc) calls) ->
  sound_pool (mkSystem (mkReaders [] ({[minted]} ∪ inUse) waiters false depth (S minted) closed disc)
                       (<[call := Reading minted]> calls)).
Proof.
  intros Hc Hsize [H1 H2 H3 H4 H5 H6 H7 H8 H9 H10 H11 H12]. cbn in *. unfold holds, waits in *. cbn in *.
  specialize (H8 eq_refl).
  assert (Hnew : (minted ∉ inUse) /\ (minted ∉ closed)).
  { split; intros Hr; assert (minted < minted)%nat by (apply H10; auto); lia. }
  split; cbn; unfold holds, waits; cbn.
  - rewrite size_union, size_singleton by set_solver. lia.
  - done.
  - intros r Hr. by apply elem_of_nil in Hr.
  - done.
  - done.
  - intros c. rewrite H6. destruct (decide (call = c)) as [<-|]; [|by rewrite lookup_insert_ne].
    rewrite lookup_insert_eq, Hc. done.
  - intros c1 c2 r. rewrite !lookup_insert_Some.
    assert (forall c, calls !! c <> Some (Reading minted)) by (intros c Hh; apply (proj1 Hnew), H8; eauto). naive_solver.
  - intros _ r. rewrite elem_of_union, elem_of_singleton, H8. split.
    + intros [->|[c Hh]]; [exists call; by rewrite lookup_insert_eq|].
      exists c. rewrite lookup_insert_ne; [done|congruence].
    + intros [c [[<- [= ->]]|[_ Hh]]%lookup_insert_Some]; eauto.
  - intros Hw. apply H9 in Hw as [_ Hw]. split; [done|]. rewrite size_union, size_singleton by set_solver. lia.
  - intros r. destruct (decide (r = minted)) as [->|Hne]; [split; [set_solver|lia]|].
    specialize (H10 r). split.
    + intros Hr. assert (r < minted)%nat by lia. set_solver.
    + intros Hr. assert (r < minted)%nat; [|lia]. apply H10. set_solver.
  - intros r Hr. split; [by apply H11|]. rewrite elem_of_union, elem_of_singleton.
    intros [->|Hu]; [by apply Hnew|by apply (H11 r Hr)].
  - done.
Qed.

(** A read that has to wait. *)
Lemma begin_queued inUse waiters depth minted closed disc calls call :
  calls !! call = None -> (BLOCKING_READER_POOL_MAX <= size inUse)%nat ->
  sound_pool (mkSystem (mkReaders [] inUse waiters false depth minted closed disc) calls) ->
  sound_pool (mkSystem (mkReaders [] inUse (waiters ++ [call]) false (length (waiters ++ [call])) minted closed disc)
                       (<[call := Waiting]> calls)).
Proof.
  intros Hc Hsize [H1 H2 H3 H4 H5 H6 H7 H8 H9 H10 H11 H12]. cbn in *. unfold holds, waits in *. cbn in *.
  specialize (H8 eq_refl). split; cbn; unfold holds, waits; cbn; try done.
  - apply NoDup_app. split_and!; [done|intros c Hw ->%list_elem_of_singleton|apply NoDup_singleton].
    apply H6 in Hw. congruence.
  - intros c. rewrite elem_of_app, list_elem_of_singleton, H6. destruct (decide (call = c)) as [<-|].
    + rewrite lookup_insert_eq. naive_solver.
    + rewrite lookup_insert_ne by done. naive_solver.
  - intros c1 c2 r. rewrite !lookup_insert_Some. naive_solver.
  - intros _ r. rewrite H8. split; intros [c Hh]; exists c.
    + rewrite lookup_insert_ne; [done|congruence].
    + by apply lookup_insert_Some in Hh as [[_ ?]|[_ ?]].
  - intros _. split; [done|lia].
Qed.

(** A waiter whose signal is aborted. *)
Lemma abort_sound pool inUse waiters down depth minted closed disc calls call :
  calls !! call = Some Waiting ->
  sound_pool (mkSystem (mkReaders pool inUse waiters down depth minted closed disc) calls) ->
  sound_pool (mkSystem (onAbort call (mkReaders pool inUse waiters down depth minted closed disc)) (delete call calls)).
Proof.
  intros Hc [H1 H2 H3 H4 H5 H6 H7 H8 H9 H10 H11 H12]. cbn in *. unfold holds, waits in *. cbn in *.
  split; cbn; unfold holds, waits; cbn; try done.
  - by apply NoDup_filter.
  - intros c. rewrite list_elem_of_filter, H6. destruct (decide (call = c)) as [<-|].
    + rewrite lookup_delete_eq. naive_solver.
    + rewrite lookup_delete_ne by done. naive_solver.
  - intros c1 c2 r. rewrite !lookup_delete_Some. naive_solver.
  - intros Hd r. rewrite (H8 Hd). split; intros [c Hh]; exists c.
    + rewrite lookup_delete_ne; [done|congruence].
    + by apply lookup_delete_Some in Hh as [_ Hh].
  - intros Hw. apply H9. by intros ->.
  - intros Hd. destruct (H12 Hd) as (-> & -> & -> & Hcl). split_and!; [done..|].
    intros c r [_ Hh]%lookup_delete_Some. by eapply Hcl.
Qed.

(** A reader that is given up for good. *)
Lemma dropped_sound pool inUse waiters down depth minted closed disc disc' calls call reader :
  calls !! call = Some (Reading reader) -> down = true \/ disc' = S disc -> (disc <= disc')%nat ->
  sound_pool (mkSystem (mkReaders pool inUse waiters down depth minted closed disc) calls) ->
  sound_pool (mkSystem (mkReaders pool (inUse ∖ {[reader]}) waiters down depth minted ({[reader]} ∪ closed) disc')
                       (delete call calls)).
Proof.
  intros Hc Hdisc Hle [H1 H2 H3 H4 H5 H6 H7 H8 H9 H10 H11 H12]. cbn in *. unfold holds, waits in *. cbn in *.
  assert (Hwas : reader ∈ inUse \/ reader ∈ closed /\ down = true /\ inUse = ∅).
  { destruct down; [right|left; apply H8; eauto]. destruct (H12 eq_refl) as (_ & Hi & _ & Hcl). eauto. }
  assert (Hsize : (size inUse <= S (size (inUse ∖ {[reader]})))%nat).
  { destruct (decide (reader ∈ inUse)) as [Hin|Hin]; [by rewrite size_less|].
    replace (inUse ∖ {[reader]}) with inUse by set_solver. lia. }
  assert (Hsize' : (size (inUse ∖ {[reader]}) <= size inUse)%nat) by (apply subseteq_size; set_solver).
  assert (Hpool : (reader ∉ pool)) by (destruct Hwas as [Hin|[Hin _]]; [intros Hp; by apply (H3 _ Hp)|by apply H11]).
  split; cbn; unfold holds, waits; cbn.
  - lia.
  - done.
  - intros r Hr. specialize (H3 r Hr). set_solver.
  - done.
  - done.
  - intros c. rewrite H6. destruct (decide (call = c)) as [<-|]; [|by rewrite lookup_delete_ne].
    rewrite lookup_delete_eq, Hc. done.
  - intros c1 c2 r. rewrite !lookup_delete_Some. naive_solver.
  - intros Hd r. specialize (H8 Hd). rewrite elem_of_difference, elem_of_singleton, H8. split.
    + intros [[c Hh] Hr]. exists c. rewrite lookup_delete_ne; [done|congruence].
    + intros [c [Hne Hh]%lookup_delete_Some]. split; [eauto|]. intros ->. by apply Hne, (H7 call c reader).
  - intros Hw. destruct (H9 Hw) as [-> Hbig]. split; [done|]. destruct Hdisc as [Hd|Hd]; [subst down|lia].
    destruct (H12 eq_refl) as (_ & _ & -> & _). done.
  - intros r. rewrite H10. destruct (decide (r = reader)) as [->|]; set_solver.
  - intros r. rewrite elem_of_union, elem_of_singleton. intros [->|Hr]; [split; [done|set_solver]|].
    specialize (H11 r Hr). set_solver.
  - intros Hd. destruct (H12 Hd) as (-> & -> & -> & Hcl). split_and!; [done|set_solver|done|].
    intros c r [_ Hh]%lookup_delete_Some. specialize (Hcl c r Hh). set_solver.
Qed.

(** A reader that goes back to the pool, nobody waiting. *)
Lemma pooled_sound pool inUse depth minted closed disc calls call reader :
  calls !! call = Some (Reading reader) ->
  sound_pool (mkSystem (mkReaders pool inUse [] false depth minted closed disc) calls) ->
  (length pool < BLOCKING_READER_POOL_MAX)%nat
  /\ sound_pool (mkSystem (mkReaders (pool ++ [reader]) (inUse ∖ {[reader]}) [] false depth minted closed disc)
                          (delete call calls)).
Proof.
  intros Hc [H1 H2 H3 H4 H5 H6 H7 H8 H9 H10 H11 H12]. cbn in *. unfold holds, waits in *. cbn in *.
  specialize (H8 eq_refl). assert (Hin : reader ∈ inUse) by (apply H8; eauto).
  pose proof (size_less inUse reader Hin) as Hsize. split; [lia|].
  split; cbn; unfold holds, waits; cbn; try done.
  - rewrite length_app. cbn. lia.
  - apply NoDup_app. split_and!; [done| |apply NoDup_singleton]. intros r Hr Hr2%list_elem_of_singleton. subst r. by apply (H3 reader).
  - intros r. rewrite elem_of_app, list_elem_of_singleton. intros [Hr| ->]; [specialize (H3 r Hr)|]; set_solver.
  - intros c. rewrite H6. destruct (decide (call = c)) as [<-|]; [|by rewrite lookup_delete_ne].
    rewrite lookup_delete_eq, Hc. done.
  - intros c1 c2 r. rewrite !lookup_delete_Some. naive_solver.
  - intros _ r. rewrite elem_of_difference, elem_of_singleton, H8. split.
    + intros [[c Hh] Hr]. exists c. rewrite lookup_delete_ne; [done|congruence].
    + intros [c [Hne Hh]%lookup_delete_Some]. split; [eauto|]. intros ->. by apply Hne, (H7 call c reader).
  - intros r. rewrite H10, elem_of_app, list_elem_of_singleton. destruct (decide (r = reader)) as [->|]; set_solver.
  - intros r Hr. destruct (H11 r Hr) as [Hp Hu]. rewrite elem_of_app, list_elem_of_singleton. set_solver.
Qed.

(** A reader that is handed to the first of the waiters. *)
Lemma handed_sound pool inUse waiter waiters depth minted closed disc calls call reader :
  calls !! call = Some (Reading reader) ->
  sound_pool (mkSystem (mkReaders pool inUse (waiter :: waiters) false depth minted closed disc) calls) ->
  sound_pool (mkSystem (mkReaders pool ({[reader]} ∪ inUse ∖ {[reader]}) waiters false (length waiters) minted closed disc)
                       (<[waiter := Reading reader]> (delete call calls))).
Proof.
  intros Hc [H1 H2 H3 H4 H5 H6 H7 H8 H9 H10 H11 H12]. cbn in *. unfold holds, waits in *. cbn in *.
  specialize (H8 eq_refl). assert (Hin : reader ∈ inUse) by (apply H8; eauto).
  rewrite <- union_difference_singleton_L by done.
  assert (Hw : calls !! waiter = Some Waiting) by (apply H6; left).
  assert (Hne : waiter <> call) by congruence. apply NoDup_cons in H4 as [Hni H4].
  split; cbn; unfold holds, waits; cbn; try done.
  - intros c. specialize (H6 c). destruct (decide (waiter = c)) as [<-|Hc'].
    + rewrite lookup_insert_eq. done.
    + rewrite lookup_insert_ne by done. rewrite elem_of_cons in H6. destruct (decide (call = c)) as [<-|Hc2].
      * rewrite lookup_delete_eq. naive_solver.
      * rewrite lookup_delete_ne by done. naive_solver.
  - intros c1 c2 r. rewrite !lookup_insert_Some, !lookup_delete_Some.
    intros [[<- [= ->]]|(? & ? & Ha)] [[<- Hb]|(? & ? & Hb)]; try done.
    + by destruct (H7 call c2 r Hc Hb).
    + injection Hb as ->. by destruct (H7 call c1 r Hc Ha).
    + by apply (H7 c1 c2 r).
  - intros _ r. rewrite H8. split.
    + intros [c Hh]. destruct (decide (c = call)) as [->|Hcc].
      * exists waiter. rewrite lookup_insert_eq. congruence.
      * exists c. rewrite lookup_insert_ne by congruence. by rewrite lookup_delete_ne.
    + intros [c [[<- [= ->]]|[_ [_ Hh]%lookup_delete_Some]]%lookup_insert_Some]; eauto.
  - intros _. by apply H9.
Qed.

Lemma foldr_delete_in (l : list nat) (m : gmap nat Phase) c : c ∈ l -> foldr delete m l !! c = None.
Proof.
  induction l as [|x l IH]; [by intros ?%elem_of_nil|]. intros Hc. cbn.
  destruct (decide (x = c)) as [->|Hne]; [apply lookup_delete_eq|]. rewrite lookup_delete_ne by done.
  apply IH. by apply elem_of_cons in Hc as [->|].
Qed.

Lemma foldr_delete_out (l : list nat) (m : gmap nat Phase) c : (c ∉ l) -> foldr delete m l !! c = m !! c.
Proof.
  induction l as [|x l IH]; [done|]. rewrite not_elem_of_cons. intros [Hne Hc]. cbn.
  rewrite lookup_delete_ne by done. by apply IH.
Qed.

(** The end of the process. *)
Lemma shut_down_sound s : sound_pool s -> sound_pool (reader_event ShutDown s).
Proof.
  destruct s as [[pool inUse waiters down depth minted closed disc] calls].
  intros [H1 H2 H3 H4 H5 H6 H7 H8 H9 H10 H11 H12]. cbn in *. unfold holds, waits in *. cbn in *.
  assert (Hout : forall c, (c ∉ waiters) -> foldr delete calls waiters !! c = calls !! c).
  { intros c. apply foldr_delete_out. }
  assert (Hkeep : forall c r, foldr delete calls waiters !! c = Some (Reading r) -> calls !! c = Some (Reading r)).
  { intros c r Hh. destruct (decide (c ∈ waiters)) as [Hc|Hc]; [by rewrite foldr_delete_in in Hh|by rewrite Hout in Hh]. }
  split; cbn; unfold holds, waits; cbn; try done; try (by constructor).
  - rewrite size_empty. lia.
  - intros c. rewrite elem_of_nil. split; [done|]. intros Hc. destruct (decide (c ∈ waiters)) as [Hw|Hw].
    + by rewrite foldr_delete_in in Hc.
    + rewrite Hout in Hc by done. by apply Hw, H6.
  - intros c1 c2 r Hh1%Hkeep Hh2%Hkeep. by eapply H7.
  - intros r. rewrite H10, elem_of_nil, !elem_of_union, elem_of_list_to_set, elem_of_empty. tauto.
  - intros r _. split; [apply not_elem_of_nil|apply not_elem_of_empty].
  - intros _. split_and!; [done..|]. intros c r Hh%Hkeep. destruct down.
    + destruct (H12 eq_refl) as (_ & _ & _ & Hcl). specialize (Hcl c r Hh). set_solver.
    + assert (r ∈ inUse) by (apply H8; eauto). set_solver.
Qed.

(** Every event keeps the pool sound. *)
Lemma event_sound ev s : sound_pool s -> sound_pool (reader_event ev s).
Proof.
  intros Hs. destruct ev as [call aborted|call|call|call| ]; [..|by apply shut_down_sound];
    destruct s as [[pool inUse waiters down depth minted closed disc] calls]; cbn [reader_event sys_readers sys_calls].
  - destruct (_ || bool_decide _) eqn:Hg; [done|].
    apply orb_false_iff in Hg as [[-> Hd]%orb_false_iff Hc%bool_decide_eq_false]. cbn in Hd. subst down.
    apply eq_None_not_Some in Hc. unfold acquireBlockingReader. cbn [rp_isShuttingDown rp_pool rp_inUse orb].
    destruct (last pool) as [idle|] eqn:Hl.
    + apply removelast_last in Hl. rewrite Hl in Hs. by apply begin_idle.
    + apply last_None in Hl as ->. destruct (_ <? _)%nat eqn:Hsize.
      * apply Nat.ltb_lt in Hsize. by apply begin_minted.
      * apply Nat.ltb_ge in Hsize. by eapply begin_queued.
  - destruct (calls !! call) as [[|reader]|] eqn:Hc; try done. by apply abort_sound.
  - destruct (calls !! call) as [[|reader]|] eqn:Hc; try done.
    unfold releaseBlockingReader. cbn [rp_isShuttingDown rp_waiters rp_pool].
    destruct down; [by eapply (dropped_sound pool inUse waiters true); [|left|..]|].
    destruct waiters as [|waiter waiters]; cbn -[Nat.ltb BLOCKING_READER_POOL_MAX].
    + destruct (pooled_sound _ _ _ _ _ _ _ _ _ Hc Hs) as [Hsize Hp]. destruct (_ <? _)%nat eqn:Hlt; [exact Hp|]. apply Nat.ltb_ge in Hlt. destruct (Nat.lt_irrefl (length pool)). eapply Nat.lt_le_trans; [exact Hsize|exact Hlt].
    + by eapply handed_sound.
  - destruct (calls !! call) as [[|reader]|] eqn:Hc; try done.
    apply (dropped_sound pool inUse waiters down depth minted closed disc (S disc)); [done|by right|lia|done].
Qed.

Lemma always_sound events : sound_pool (system_after events).
Proof.
  unfold system_after. generalize first_sound. generalize first_system as s.
  induction events as [|ev events IH]; intros s Hs; [done|]. by apply IH, event_sound.
Qed.

(** C36: the pool of blocking readers.  Whatever reads begin, are answered,
    fail or are cancelled, in whatever order, and whenever the service is torn
    down: there are never more than sixteen connections, idle and in use
    together; no two reads have the same connection, and an idle one is
    nobody's; the queue holds the reads that wait, each once, and a read waits
    only while no connection is idle and all sixteen have been taken or given
    up as broken; every connection there ever was is idle, in use or closed;
    and after the teardown nothing waits, nothing is idle and every connection
    is closed. *)
Theorem readers_are_sound (events : list ReaderEvent) :
  let s := system_after events in
  let p := sys_readers s in
  (length (rp_pool p) + size (rp_inUse p) <= BLOCKING_READER_POOL_MAX)%nat
  /\ (forall c1 c2 r, holds s c1 r -> holds s c2 r -> c1 = c2)
  /\ (rp_isShuttingDown p = false -> forall c r, holds s c r -> r ∈ rp_inUse p /\ (r ∉ rp_pool p) /\ (r ∉ rp_closed p))
  /\ (forall c, c ∈ rp_waiters p <-> waits s c) /\ NoDup (rp_waiters p)
  /\ (forall c, waits s c -> rp_pool p = []
      /\ (BLOCKING_READER_POOL_MAX <= size (rp_inUse p) + rp_discarded p)%nat)
  /\ (forall r, (r < rp_minted p)%nat <-> r ∈ rp_pool p \/ r ∈ rp_inUse p \/ r ∈ rp_closed p)
  /\ (rp_isShuttingDown p = true -> (forall c, ~ waits s c) /\ rp_pool p = []
      /\ forall r, (r < rp_minted p)%nat -> r ∈ rp_closed p).
Proof.
  intros s p. pose proof (always_sound events) as [H1 H2 H3 H4 H5 H6 H7 H8 H9 H10 H11 H12]. fold s in H1, H2, H3, H4, H5, H6, H7, H8, H9, H10, H11, H12.
  fold p in H1, H2, H3, H4, H5, H6, H8, H9, H10, H11, H12. split_and!; try done.
  - intros Hd c r Hh. assert (Hin : r ∈ rp_inUse p) by (apply (H8 Hd); eauto).
    split_and!; [done|intros Hp; by apply (H3 r)|intros Hcl; by apply (H11 r Hcl)].
  - intros c Hc. apply H9. intros Hw. apply H6 in Hc. rewrite Hw in Hc. by apply elem_of_nil in Hc.
  - intros Hd. destruct (H12 Hd) as (Hp & Hu & Hw & _). split_and!; [|done|].
    + intros c Hc%H6. rewrite Hw in Hc. by apply elem_of_nil in Hc.
    + intros r Hr%H10. rewrite Hp, Hu in Hr. set_solver.
Qed.

(** ** A waiter can be forgotten

    [discardBlockingReader] makes room but wakes nobody. *)
Definition forgotten_run : list ReaderEvent :=
  ((fun c => Begin c false) <$> seq 0 17) ++ (Failed <$> seq 0 16).

Lemma discard_forgets_waiters :
  waits (system_after forgotten_run) 16
  /\ rp_pool (sys_readers (system_after forgotten_run)) = [] /\ rp_inUse (sys_readers (system_after forgotten_run)) = ∅.
Proof. split_and!; by_compute. Qed.
